(* ===== verification/_CoqProject ===== *)
-Q . S2P
Prelude.v
Effects.v
RustStd.v
RustStr.v
RustSlice.v
RustMap.v
RustText.v
Ranges.v
Crates.v
CratesRef.v
TagValue.v
Tag.v
TagDefinition.v
TagStore.v
Registry.v
RegistryRef.v
CoreModel.v
ArcStrSerde.v
TagThreads.v
DriverWorld.v
Locality.v
Arrivals.v
ModbusTypes.v
ModbusCodec.v
ModbusPlan.v
ModbusDriver.v
ModbusReads.v
FinsTypes.v
FinsCodec.v
FinsPlan.v
FinsDriver.v
FinsRef.v
FinsCycle.v
FinsReads.v
DriverApi.v
WritePath.v
ModbusQueue.v
FinsQueue.v
ModbusLocal.v
FinsLocal.v
ModbusArrivals.v
FinsArrivals.v
ModbusServe.v
FinsServe.v
RuntimeDriver.v
Shutdown.v
OpcUaConfig.v
OpcUaWrites.v
RuntimeConfig.v
RuntimeTags.v
WriteHandler.v
Startup.v
OpcUaValue.v
OpcUaSource.v
OpcUaBridge.v
OpcUaSpace.v
ServerLifecycle.v
MainShutdown.v
System.v
RoundTrip.v
PlantArrivals.v
Pollers.v
ArrivingPollers.v
StartedSystem.v
PollerTasks.v
