(* ===== verification/Prelude.v ===== *)
(** * OPC UA PLC bridge: a verification development (root file)

    The bridge polls PLCs over Modbus TCP and FINS/TCP, keeps what it reads in a shared
    tag registry, shows the registry to OPC UA clients, and carries their writes back to
    the PLCs.  The program is the cargo workspace under src/; this library models all of
    its code that computes or keeps state, and proves what makes it correct.

    ** The program and its model

    Core model (src/core-model).
    - [TagValue]: tag_value.rs, with the in-place byte-reordering loops
      ([WordOrder.apply_to_bytes]) as loops on a buffer.
    - [Tag], [TagDefinition]: tag.rs, tag_definition.rs, tag_definition_store.rs, error.rs.
    - [TagStore], [Registry]: tag_store.rs and registry.rs: slots behind an index, the
      cached sorted ids, the subscribers' bounded channels, the two critical sections of an
      insertion.  A registry handle that the code shares is threaded as state.
    - [CoreModel]: the abstract contract, a finite map of typed tags, and its refinement.
    - [TagThreads]: the same operations as the code makes them, access by access (take the
      handle, load, store, tell the subscribers), with the accesses of several threads
      interleaved: threads are programs of operations, their steps a relation.
    - [Locality]: when a computation is such a program, and on which tags.
    - [ArcStrSerde]: arcstr_serde.rs, over a serialization format.

    Drivers (src/driver).
    - [ModbusTypes], [FinsTypes]: configuration, mappings, requests and errors.
    - [ModbusCodec], [FinsCodec]: values to and from registers, words and frames; the module
      [FinsWire] of the latter has the frames byte by byte, apart from the driver's builders.
    - [ModbusPlan], [FinsPlan]: validate and the read plans; [Ranges] is what they share.
    - [ModbusDriver], [FinsDriver]: run_read_cycle_impl of the two driver.rs, in full: the
      queued writes, the reconnect loop, the reads, every error path.  The network, the
      queue and the clock are the classes [ModbusIO.ModbusIO] and [FinsIO.FinsIO].
    - [ModbusReads], [FinsReads], [FinsCycle]: a cycle against its pure specification.
      [DriverWorld] has the registry operations both drivers use.
    - [DriverApi]: the trait ProtocolDriver of driver/common as a class, with the two
      drivers as instances.
    - [ModbusQueue], [FinsQueue]: the environments refined to hold the 256-place write
      queue; the drivers as instances of [WritePath.WriteDriver].
    - [ModbusServe], [FinsServe]: a cycle with a write queued and the PLC up; the drivers as
      instances of [WritePath.ServingDriver].
    - [ModbusLocal], [FinsLocal]: a cycle is a program on the tags of the driver's mappings.
    - [ModbusArrivals], [FinsArrivals]: a cycle with senders at work on its queue, by the rules
      of [Arrivals].

    Runtime (src/runtime).
    - [RuntimeConfig], [RuntimeTags]: config.rs from a parsed document on, and tags.rs.
    - [Startup]: main.rs up to the running server, and the task that keeps health events.
    - [RuntimeDriver]: runtime_driver.rs, against the class [ProtocolDriver].
    - [WriteHandler]: write_handler.rs; it discharges the class [OpcUaWrite.WriteHandler].
    - [Shutdown], [MainShutdown]: a poller whose PLC cannot be reached, and the end of
      main.rs from Ctrl-C on, as a step relation with the pollers and the server.

    OPC UA server (src/opcua-server).
    - [OpcUaConfig], [OpcUaWrites]: config.rs, error.rs, writes.rs.
    - [OpcUaValue], [OpcUaSource]: the conversions, and the read and write callbacks, of
      native.rs.
    - [OpcUaBridge]: its write-bridge thread, against the class [OpcUaWrite.WriteHandler].
    - [OpcUaSpace]: start_native_server, as the calls made on the open62541 server.
    - [ServerLifecycle]: its tasks and ServerHandle of types.rs, as a step relation.

    The system.
    - [WritePath] states what the runtime asks of a driver, in two classes: what holds
      whatever the network does, and what holds when the PLC is up.  [System] runs the data
      source, the bridge, the handler, the queues and any drivers of the first class
      together; [RoundTrip] takes a client's write to a driver of the second and back.
    - [System] takes the cycles of the pollers as wholes.  [Pollers] lets them run at once,
      with clients that read, against the class [LocalDriver], which both drivers are
      instances of; [PollerTasks] does so for the polling tasks of [RuntimeDriver].
    - [System] lets requests enter a queue between the cycles; [PlantArrivals] at any moment
      of them, against the class [ArrivingDriver], which both drivers are instances of too.
    - [ArrivingPollers] has both at once; a driver with arrivals to come is again a driver
      of the first class, so that [System] applies to it.
    - [StartedSystem] puts the drivers that [Startup] sets up in place, and evaluates the
      whole from the configuration text to a client's write and read.

    [Effects] is the monad of the effectful code: a world, and the outcomes return, early
    return, panic and still running.  [RustStd], [RustStr], [RustSlice], [RustMap] and
    [RustText] are the parts of Rust's standard library the code computes with.  [Crates]
    has the third-party crates as classes, whose laws are their documented behaviour;
    [CratesRef], [RegistryRef] and [FinsRef] have concrete instances, so that the laws can
    hold and the witnesses evaluate.

    ** What is proved

    - Refinement: the registry implements a finite map for any sequence of operations
      ([CoreModel]); a cycle against a PLC that answers from a memory reads every mapped
      address once and no other, within the limits of the protocol, and shows the decoding
      of every value that comes in one request ([ModbusReads], which also says what single
      coils show instead, and [FinsReads]).
    - Concurrency: threads that write different tags behave as whole operations in some
      order, are never stuck and end; without that discipline an update can be lost
      ([TagThreads]).  Start-up gives every tag one writer ([StartedSystem]), so the cycles
      of the pollers side by side, access by access, do what they do one after the other
      ([Pollers]), and a polling task does what it does alone ([PollerTasks]).  A request
      that arrives during a cycle is served as if it had arrived before or after it
      ([PlantArrivals]), also when the pollers run side by side ([ArrivingPollers]).
    - Writes: a driver sends only writes a queued request is entitled to, and answers every
      request that asks for it exactly once ([ModbusDriver], [FinsCycle]); the handler
      queues a write once, and succeeds only on the driver's word ([WriteHandler]); the
      bridge serves every write once and in order ([OpcUaBridge]); so a success reported
      to a client is never false: the PLC got the write and consented to it, whatever the
      network and the order of the pollers ([System]), and when all goes well the client reads its value back ([RoundTrip]).
    - Round trips and equivalences: the codecs of the two drivers ([ModbusCodec],
      [FinsCodec]), the values of OPC UA ([OpcUaValue]), the byte-reordering loops against
      their reference ([CoreModel]).
    - Plans: validation decides a declarative predicate (for Modbus, overlaps up to the
      last address but one); the read plan covers every mapping
      and keeps within the request limits ([ModbusPlan], [FinsPlan]).
    - Set-up: the registry, the address space, the mappings, drivers, routes and server
      settings are those of the configuration, field by field ([CoreModel], [OpcUaSpace],
      [RuntimeTags], [Startup]).
    - Errors: what each answer or failure of the network does to the tags, the connection
      and the requester; which configurations are accepted, and the one setting at which
      start-up panics ([RuntimeTags], [Startup]).
    - Termination and liveness: a cycle ends unless the reconnect loop goes on or, for
      FINS, which sets its exchanges no time limit, an answer never comes; the poller and
      the server end after the signal, in order ([RuntimeDriver], [ServerLifecycle],
      [MainShutdown]); a PLC that is unreachable, or silent on FINS, holds the shutdown up
      ([Shutdown]), and a runner that fails is not noticed before it ([ServerLifecycle]).

    ** Bounds and fuel

    Integers are [Z] in the range of their type, with the wrap-around of the release
    profile; floats are their bit patterns; strings are their UTF-8 bytes.  A panic is
    [None] in pure code and [Panic] in the monad.  Two loops of the code have no bound of
    their own and take fuel: the reconnect loops, which end in [Pending] when the fuel is
    used up (one attempt is enough when the PLC can be reached, and no number is when it
    cannot: [Shutdown]), and the poller ([RuntimeDriver] shows that finitely many rounds are
    enough once the shutdown signal comes).  The split of a range into chunks takes fuel
    too: one unit for each address of the range is enough ([FinsPlan], [ModbusPlan]).  The
    64 rounds of [process_writes] are the limit the code has.

    ** What is not modelled

    - Parsing of TOML, YAML and JSON (serde), the command line (clap), logging (tracing),
      [Display] of a tag value: no logic of the bridge.
    - tokio, tokio-modbus, open62541, chrono, bytes, byteorder, serde_json: parameters.
      Time limits are answers of the environment, not measured times; a call that has none
      and may never complete answers [None], which ends the run in [Pending].  The constructors
      of open62541 for node ids, names and namespaces are taken to be total.
    - The receiving side of registry subscribers, which the program never creates.
    - [System] takes the writes of the clients one call at a time, as the single thread of
      the server does, and the pollers' cycles during the waits of the write path.
      [ArrivingPollers] shows that the finer interleavings, of the accesses to the registry
      and of the arrivals in the queues, come to the same.
    - Containers, end-to-end tests and packaging. *)

From stdpp Require Import base tactics numbers list gmap strings pretty sorting relations.

Declare Scope bridge_scope.
Delimit Scope bridge_scope with bridge.
#[global] Open Scope bridge_scope.

(** ** Fallible computations *)

(** Rust's [Result<T, E>]. *)
Inductive result (A E : Type) : Type :=
| Ok (a : A)
| Err (e : E).
Arguments Ok {A E} a.
Arguments Err {A E} e.

(** The [?] operator: return early with the error, or go on with the value. *)
Notation "'let?' x ':=' e 'in' k" :=
  (match e with Ok x => k | Err err__ => Err err__ end)
  (at level 200, x pattern, e at level 200, k at level 200, right associativity) : bridge_scope.

(** [Result::is_ok], [Result::is_err] and [Result::ok]. *)
Definition is_ok {A E} (r : result A E) : bool :=
  match r with Ok _ => true | Err _ => false end.
Definition is_err {A E} (r : result A E) : bool := negb (is_ok r).
Definition result_ok {A E} (r : result A E) : option A :=
  match r with Ok a => Some a | Err _ => None end.

(** [Result::map_err] *)
Definition map_err {A E F} (f : E → F) (r : result A E) : result A F :=
  match r with Ok a => Ok a | Err e => Err (f e) end.

(** ** Tactics of the development *)

(** Split the innermost [match] or [if] of the goal on its scrutinee. *)
Ltac split_match :=
  match goal with
  | |- context [match ?x with _ => _ end] =>
      lazymatch x with
      | context [match _ with _ => _ end] => fail
      | _ => destruct x eqn:?
      end
  end.

(** The same for a hypothesis. *)
Ltac split_match_in H :=
  match type of H with
  | context [match ?x with _ => _ end] =>
      lazymatch x with
      | context [match _ with _ => _ end] => fail
      | _ => destruct x eqn:?
      end
  end.

(** Case analysis on every [match] of the goal, closing the easy branches. *)
Ltac split_matches := repeat (split_match; simplify_eq/=; try done).

(** Turn boolean integer tests into propositions, everywhere. *)
Ltac bool_to_prop :=
  repeat match goal with
  | H : (_ && _)%bool = true |- _ => apply andb_true_iff in H as [? ?]
  | H : (_ && _)%bool = false |- _ => apply andb_false_iff in H
  | H : (_ || _)%bool = false |- _ => apply orb_false_iff in H as [? ?]
  | H : (_ || _)%bool = true |- _ => apply orb_true_iff in H
  | H : negb _ = true |- _ => apply negb_true_iff in H
  | H : negb _ = false |- _ => apply negb_false_iff in H
  | H : Z.ltb _ _ = true |- _ => apply Z.ltb_lt in H
  | H : Z.ltb _ _ = false |- _ => apply Z.ltb_ge in H
  | H : Z.leb _ _ = true |- _ => apply Z.leb_le in H
  | H : Z.leb _ _ = false |- _ => apply Z.leb_gt in H
  | H : Z.eqb _ _ = true |- _ => apply Z.eqb_eq in H
  | H : Z.eqb _ _ = false |- _ => apply Z.eqb_neq in H
  | H : bool_decide _ = true |- _ => apply bool_decide_eq_true in H
  | H : bool_decide _ = false |- _ => apply bool_decide_eq_false in H
  end.

(** Arithmetic after unfolding the booleans. *)
Ltac zlia := bool_to_prop; lia.

(** An equation between closed terms, checked by evaluation; unlike [vm_compute] it
    does not write the normal forms into the goal. *)
Ltac vm_refl := match goal with |- _ = ?b => vm_cast_no_check (@eq_refl _ b) end.

(** Hint databases: [bridge] holds the lemmas that close the side goals which
    return all over the development (ranges of machine words, lengths of byte
    strings), [bridge_len] the rewriting of lengths. *)
Create HintDb bridge.
Create HintDb bridge_len.

(** ** Lemmas on lists and options shared by the components *)

Section lists.
Context {A : Type}.
Implicit Types l : list A.

Lemma length_two l : length l = 2%nat → ∃ a b, l = [a; b].
Proof. destruct l as [|a [|b [|]]]; naive_solver. Qed.

Lemma length_four l : length l = 4%nat → ∃ a b c d, l = [a; b; c; d].
Proof. destruct l as [|a [|b [|c [|d [|]]]]]; naive_solver. Qed.

(** Induction on lists that consumes two elements at a time. *)
Lemma list_two_ind (P : list A → Prop) :
  P [] → (∀ a, P [a]) → (∀ a b l, P l → P (a :: b :: l)) → ∀ l, P l.
Proof.
  intros H0 H1 H2 l.
  enough (P l ∧ ∀ a, P (a :: l)) as [? _] by done.
  induction l as [|x l [IH1 IH2]]; split; auto.
Qed.

(** Induction on lists that consumes four elements at a time. *)
Lemma list_four_ind (P : list A → Prop) :
  (∀ l, (length l < 4)%nat → P l) →
  (∀ a b c d l, P l → P (a :: b :: c :: d :: l)) → ∀ l, P l.
Proof.
  intros Hs Hc l.
  induction l as [l IH] using (induction_ltof1 _ (@length A)).
  unfold ltof in IH.
  destruct l as [|a [|b [|c [|d l]]]]; try (apply Hs; simpl; lia).
  apply Hc, IH. simpl. lia.
Qed.

Lemma elem_of_concat (x : A) (ls : list (list A)) :
  x ∈ concat ls ↔ ∃ l, x ∈ l ∧ l ∈ ls.
Proof.
  rewrite list_elem_of_In, in_concat. setoid_rewrite list_elem_of_In. naive_solver.
Qed.

Lemma StronglySorted_mono (R S : A → A → Prop) l :
  (∀ a b, R a b → S a b) → StronglySorted R l → StronglySorted S l.
Proof.
  intros HRS. induction 1; constructor; [done|]. eapply Forall_impl; eauto.
Qed.

(** In a strongly sorted list, positions and elements are ordered alike. *)
Lemma StronglySorted_lookup (R : A → A → Prop) l i j a b :
  StronglySorted R l → l !! i = Some a → l !! j = Some b → (i < j)%nat → R a b.
Proof.
  intros Hs. revert i j. induction Hs as [|x l Hs IH Hx]; intros i j Hi Hj Hij; [done|].
  destruct j as [|j]; [lia|]. destruct i as [|i]; simplify_eq/=.
  - rewrite Forall_lookup in Hx. eauto.
  - apply (IH i j); [done..|lia].
Qed.
End lists.

(** Looking past a prefix. *)
Lemma lookup_app_add {A} (l l' : list A) i : (l ++ l') !! (length l + i)%nat = l' !! i.
Proof. rewrite lookup_app_r by lia. f_equal. lia. Qed.

(** Looking for an element by its key. *)
Lemma find_key {X K} `{EqDecision K} (key : X → K) (l : list X) (x : X) :
  NoDup (key <$> l) → x ∈ l → find (λ y, bool_decide (key y = key x)) l = Some x.
Proof.
  induction l as [|y l IH]; intros Hnd Hin; [by apply not_elem_of_nil in Hin|].
  csimpl in Hnd. apply NoDup_cons in Hnd as [Hy Hnd]. simpl.
  apply elem_of_cons in Hin as [->|Hin]; [by rewrite bool_decide_true|].
  rewrite bool_decide_false; [by apply IH|]. intros Heq. apply Hy. rewrite Heq.
  by apply list_elem_of_fmap_2.
Qed.

(** ** Relations *)

(** What every step preserves, any number of steps preserve. *)
Lemma rtc_invariant {X} {R : X → X → Prop} (I : X → Prop) x y :
  rtc R x y → I x → (∀ x y, I x → R x y → I y) → I y.
Proof. intros Hs Hx Hstep. induction Hs as [x|x y z Hxy _ IH]; eauto. Qed.
