(* ===== verification/Effects.v ===== *)
(** * Effectful code: state, early returns, panics, and loops that may not end

    The drivers and the runtime thread a world through long sequences of calls.
    A computation takes the world to an outcome and the world it leaves behind:
    [Ret] is normal completion, [Fail] an early [return Err(..)] (or [?]), [Panic]
    a panic of the task, [Pending] a loop that has not finished within its fuel.
    Effects that happened before an early return stay in the world. *)

From stdpp Require Import base tactics numbers list.
From S2P Require Import Prelude.

Inductive outcome (E A : Type) : Type :=
| Ret (a : A)
| Fail (e : E)
| Panic
| Pending.
Arguments Ret {E A} a.
Arguments Fail {E A} e.
Arguments Panic {E A}.
Arguments Pending {E A}.

Definition M (W E A : Type) : Type := W → outcome E A * W.

Section monad.
Context {W E : Type}.

#[export] Instance M_ret : MRet (M W E) := λ A a w, (Ret a, w).
#[export] Instance M_bind : MBind (M W E) := λ A B f m w,
  match m w with
  | (Ret a, w) => f a w
  | (Fail e, w) => (Fail e, w)
  | (Panic, w) => (Panic, w)
  | (Pending, w) => (Pending, w)
  end.
#[export] Instance M_fmap : FMap (M W E) := λ A B f m, m ≫= λ a, mret (f a).

Definition throw {A} (e : E) : M W E A := λ w, (Fail e, w).
Definition panic {A} : M W E A := λ w, (Panic, w).
Definition pending {A} : M W E A := λ w, (Pending, w).
Definition gets {A} (f : W → A) : M W E A := λ w, (Ret (f w), w).
Definition modify (f : W → W) : M W E unit := λ w, (Ret tt, f w).

(** An operation that panics when it has no result. *)
Definition or_panic {A} (o : option A) : M W E A :=
  match o with Some a => mret a | None => panic end.

(** The [?] operator on a result. *)
Definition of_result {A} (r : result A E) : M W E A :=
  match r with Ok a => mret a | Err e => throw e end.

(** [for x in l { f(x) }] *)
Fixpoint for_each {X} (f : X → M W E unit) (l : list X) : M W E unit :=
  match l with
  | [] => mret tt
  | x :: l => f x;; for_each f l
  end.
End monad.

(** ** Reasoning about what a computation emits

    [emits I log m Q]: from a world satisfying [I], [m] does not panic, keeps [I],
    and extends the log of events by some [l] such that [Q] holds of the outcome
    and [l].  The rules compose along binds and loops. *)

Section emits.
Context {W E Ev : Type} (I : W → Prop) (log : W → list Ev).

Definition emits {A} (m : M W E A) (Q : outcome E A → list Ev → Prop) : Prop :=
  ∀ w, I w → (m w).1 ≠ Panic ∧ I (m w).2 ∧
    ∃ l, log (m w).2 = log w ++ l ∧ Q (m w).1 l.

Lemma emits_mono {A} (m : M W E A) (P Q : outcome E A → list Ev → Prop) :
  emits m P → (∀ o l, o ≠ Panic → P o l → Q o l) → emits m Q.
Proof. intros Hm HPQ w Hw. destruct (Hm w Hw) as (? & ? & l & ? & ?). eauto 6. Qed.

Ltac quiet_step HQ Hw :=
  split; [discriminate|]; split; [exact Hw|]; exists [];
  split; [symmetry; apply app_nil_r|first [exact HQ|apply HQ]].

Lemma emits_ret {A} (a : A) (Q : outcome E A → list Ev → Prop) :
  Q (Ret a) [] → emits (mret a) Q.
Proof. intros HQ w Hw. quiet_step HQ Hw. Qed.

Lemma emits_throw {A} (e : E) (Q : outcome E A → list Ev → Prop) :
  Q (Fail e) [] → emits (throw e) Q.
Proof. intros HQ w Hw. quiet_step HQ Hw. Qed.

Lemma emits_pending {A} (Q : outcome E A → list Ev → Prop) :
  Q Pending [] → emits pending Q.
Proof. intros HQ w Hw. quiet_step HQ Hw. Qed.

Lemma emits_gets {A} (f : W → A) (Q : outcome E A → list Ev → Prop) :
  (∀ a, Q (Ret a) []) → emits (gets f) Q.
Proof. intros HQ w Hw. quiet_step HQ Hw. Qed.

Lemma emits_modify (f : W → W) (l : list Ev) (Q : outcome E unit → list Ev → Prop) :
  (∀ w, I w → I (f w) ∧ log (f w) = log w ++ l) → Q (Ret tt) l → emits (modify f) Q.
Proof. intros Hf HQ w Hw. destruct (Hf w Hw) as [Hi Hl].
  split; [discriminate|]. split; [exact Hi|]. exists l. split; [exact Hl|exact HQ].
Qed.

Lemma emits_bind {A B} (m : M W E A) (f : A → M W E B) P (Q : outcome E B → list Ev → Prop) :
  emits m P →
  (∀ a l1, P (Ret a) l1 → emits (f a) (λ o l2, Q o (l1 ++ l2))) →
  (∀ e l, P (Fail e) l → Q (Fail e) l) →
  (∀ l, P Pending l → Q Pending l) →
  emits (m ≫= f) Q.
Proof.
  intros Hm Hf HF HP w Hw. destruct (Hm w Hw) as (Hnp & Hw' & l1 & Hl1 & HPl).
  unfold mbind, M_bind. destruct (m w) as [[a|e| |] w'] eqn:Hmw; simpl in *; try done.
  - destruct (Hf a l1 HPl w' Hw') as (? & ? & l2 & Hl2 & ?).
    split_and!; [done..|]. exists (l1 ++ l2). by rewrite Hl2, Hl1, (assoc_L (++)).
  - split_and!; eauto.
  - split_and!; eauto.
Qed.

(** A step that always returns, and emits exactly the events [l0]. *)
Definition gives {A} (l0 : list Ev) (o : outcome E A) (l : list Ev) : Prop :=
  (∃ a, o = Ret a) ∧ l = l0.

Lemma emits_bind_gives {A B} (m : M W E A) (f : A → M W E B) l0 Q :
  emits m (gives l0) → (∀ a, emits (f a) (λ o l, Q o (l0 ++ l))) → emits (m ≫= f) Q.
Proof.
  intros Hm Hf. apply (emits_bind _ _ _ _ Hm).
  - intros a l1 [_ ->]. apply Hf.
  - by intros e l [[? ?] _].
  - by intros l [[? ?] _].
Qed.

Lemma emits_gives_ret {A} (a : A) : emits (mret a) (gives []).
Proof. apply emits_ret. split; [by eexists|done]. Qed.

Lemma emits_gives_gets {A} (f : W → A) : emits (gets f) (gives []).
Proof. apply emits_gets. intros a. split; [by eexists|done]. Qed.

Lemma emits_gives_modify (f : W → W) l0 :
  (∀ w, I w → I (f w) ∧ log (f w) = log w ++ l0) → emits (modify f) (gives l0).
Proof. intros Hf. apply (emits_modify f l0 _ Hf). split; [by eexists|done]. Qed.

(** A sequence of steps that emit nothing emits nothing. *)
Lemma emits_for_each_gives {X} (f : X → M W E unit) (l : list X) :
  (∀ x, emits (f x) (gives [])) → emits (for_each f l) (gives []).
Proof.
  intros Hf. induction l as [|x l IH]; simpl; [apply emits_gives_ret|].
  apply (emits_bind_gives _ _ _ _ (Hf x)). by intros _.
Qed.
End emits.

(** A known result goes straight on. *)
Lemma or_panic_bind {W E A B} (a : A) (f : A → M W E B) : (or_panic (Some a) ≫= f) = f a.
Proof. reflexivity. Qed.

(** A run, from its outcome. *)
Lemma run_eq {W E A} (m : M W E A) (w : W) o : (m w).1 = o → m w = (o, (m w).2).
Proof. intros <-. by destruct (m w). Qed.

(** Unfold one bind of a computation applied to a world. *)
Lemma bind_ret {W E A B} (m : M W E A) (f : A → M W E B) w a w' :
  m w = (Ret a, w') → (m ≫= f) w = f a w'.
Proof. intros H. unfold mbind, M_bind. by rewrite H. Qed.

Lemma bind_fail {W E A B} (m : M W E A) (f : A → M W E B) w e w' :
  m w = (Fail e, w') → (m ≫= f) w = (Fail e, w').
Proof. intros H. unfold mbind, M_bind. by rewrite H. Qed.

Lemma for_each_app {W E X} (f : X → M W E unit) l1 l2 w :
  for_each f (l1 ++ l2) w = (for_each f l1;; for_each f l2) w.
Proof.
  revert w. induction l1 as [|x l1 IH]; intros w; simpl; [done|].
  unfold mbind, M_bind in *. destruct (f x w) as [[[]| | |] w']; simpl; done.
Qed.

(** A loop whose body completes at every element from every world satisfying an
    invariant [I] completes and keeps [I]. *)
Lemma for_each_ret {W E X} (I : list X → W → Prop) (f : X → M W E unit) (l : list X) (w : W) :
  I l w →
  (∀ x l' w, I (x :: l') w → ∃ w', f x w = (Ret tt, w') ∧ I l' w') →
  ∃ w', for_each f l w = (Ret tt, w') ∧ I [] w'.
Proof.
  intros Hi Hf. revert w Hi. induction l as [|x l IH]; intros w Hi; simpl; [by eauto|].
  destruct (Hf _ _ _ Hi) as (w' & Hw' & Hi'). rewrite (bind_ret _ _ _ _ _ Hw'). by apply IH.
Qed.

(** ** Weakest preconditions

    [wp m Q w]: run from [w], the computation [m] ends in an outcome and a world
    that satisfy [Q]. *)

Section wp.
Context {W E : Type}.

Definition wp {A} (m : M W E A) (Q : outcome E A → W → Prop) (w : W) : Prop :=
  Q (m w).1 (m w).2.

(** What is left of a computation after an outcome of its first part. *)
Definition after {A B} (k : A → M W E B) (Q : outcome E B → W → Prop)
    (o : outcome E A) (w : W) : Prop :=
  match o with
  | Ret a => wp (k a) Q w
  | Fail e => Q (Fail e) w
  | Panic => Q Panic w
  | Pending => Q Pending w
  end.

Lemma wp_bind {A B} (m : M W E A) (k : A → M W E B) Q w :
  wp m (after k Q) w → wp (m ≫= k) Q w.
Proof.
  unfold wp. intros H. unfold mbind, M_bind. revert H.
  by destruct (m w) as [[a|e| |] w'].
Qed.

Lemma wp_mono {A} (m : M W E A) (P Q : outcome E A → W → Prop) w :
  wp m P w → (∀ o w', P o w' → Q o w') → wp m Q w.
Proof. unfold wp. auto. Qed.

Lemma wp_ret {A} (a : A) (Q : outcome E A → W → Prop) w : Q (Ret a) w → wp (mret a) Q w.
Proof. done. Qed.
Lemma wp_throw {A} (e : E) (Q : outcome E A → W → Prop) w : Q (Fail e) w → wp (throw e) Q w.
Proof. done. Qed.
Lemma wp_panic {A} (Q : outcome E A → W → Prop) w : Q Panic w → wp panic Q w.
Proof. done. Qed.
Lemma wp_pending {A} (Q : outcome E A → W → Prop) w : Q Pending w → wp pending Q w.
Proof. done. Qed.
Lemma wp_gets {A} (f : W → A) (Q : outcome E A → W → Prop) w : Q (Ret (f w)) w → wp (gets f) Q w.
Proof. done. Qed.
Lemma wp_modify (f : W → W) (Q : outcome E unit → W → Prop) w : Q (Ret tt) (f w) → wp (modify f) Q w.
Proof. done. Qed.

(** A run, from its weakest precondition. *)
Lemma wp_run {A} (m : M W E A) Q w o w' : wp m Q w → m w = (o, w') → Q o w'.
Proof. unfold wp. intros H Hm. by rewrite Hm in H. Qed.

Lemma wp_exists {A} (m : M W E A) Q w : wp m Q w → ∃ o w', m w = (o, w') ∧ Q o w'.
Proof. unfold wp. intros H. exists (m w).1, (m w).2. split; [by destruct (m w)|done]. Qed.

(** A loop that keeps an invariant from one element to the next. *)
Lemma wp_for_each {X} (I : list X → W → Prop) (f : X → M W E unit)
    (Q : outcome E unit → W → Prop) (l : list X) (w : W) :
  I l w →
  (∀ x l' w, I (x :: l') w →
     wp (f x) (λ o w', match o with Ret tt => I l' w' | _ => Q o w' end) w) →
  (∀ w, I [] w → Q (Ret tt) w) →
  wp (for_each f l) Q w.
Proof.
  intros Hi Hf HQ. revert w Hi. induction l as [|x l IH]; intros w Hi; simpl.
  { by apply wp_ret, HQ. }
  apply wp_bind. eapply wp_mono; [by apply Hf|].
  intros [[]|e| |] w'; simpl; auto.
Qed.
End wp.

(** ** Loops with enough fuel

    [eventually o a]: from some amount of fuel on, the computation ends, with [a]. *)

Definition eventually {A} (o : nat → option A) (a : A) : Prop :=
  ∃ n, ∀ fuel, (n ≤ fuel)%nat → o fuel = Some a.

Lemma eventually_unique {A} (o : nat → option A) a b : eventually o a → eventually o b → a = b.
Proof.
  intros [n Hn] [m Hm]. specialize (Hn (n `max` m)%nat ltac:(lia)).
  specialize (Hm (n `max` m)%nat ltac:(lia)). congruence.
Qed.

Lemma eventually_fmap {A B} (f : A → B) (o : nat → option A) a :
  eventually o a → eventually (λ fuel, f <$> o fuel) (f a).
Proof. intros [n Hn]. exists n. intros fuel Hf. by rewrite Hn. Qed.

Lemma eventually_mapM {A B} (F : nat → A → option B) (g : A → B) (l : list A) :
  (∀ x, x ∈ l → eventually (λ fuel, F fuel x) (g x)) →
  eventually (λ fuel, mapM (F fuel) l) (g <$> l).
Proof.
  induction l as [|x l IH]; intros Hl; [by exists 0%nat|].
  destruct (Hl x) as [n Hn]; [by left|].
  destruct IH as [m Hm]; [intros y Hy; apply Hl; by right|].
  exists (n `max` m)%nat. intros fuel Hf. simpl.
  rewrite Hn by lia. simpl. rewrite Hm by lia. done.
Qed.

(** ** What a computation may change

    [keeps I R fail panics m]: from a world satisfying [I], [m] leaves one satisfying
    [I] and related to the first by the preorder [R]; it fails only with an error
    satisfying [fail], and panics only if [panics]. *)

Section keeps.
Context {W E : Type} (I : W → Prop) (R : W → W → Prop) `{!PreOrder R}.
Context (fail : E → Prop) (panics : Prop).

Definition may_end {A} (o : outcome E A) : Prop :=
  match o with Ret _ | Pending => True | Fail e => fail e | Panic => panics end.

Definition keeps {A} (m : M W E A) : Prop :=
  ∀ w, I w → wp m (λ o w', I w' ∧ R w w' ∧ may_end o) w.

Lemma keeps_bind {A B} (m : M W E A) (k : A → M W E B) :
  keeps m → (∀ a, keeps (k a)) → keeps (m ≫= k).
Proof using All.
  intros Hm Hk w Hw. apply wp_bind. eapply wp_mono; [by apply Hm|].
  intros o w' (Hw' & HR & Ho). destruct o as [a|e| |]; simpl; [|done..].
  eapply wp_mono; [by apply Hk|]. intros o' w'' (Hw'' & HR' & Ho').
  split; [done|]. split; [by etrans|done].
Qed.

Lemma keeps_ret {A} (a : A) : keeps (mret a).
Proof using All. by intros w Hw. Qed.
Lemma keeps_pending {A} : keeps (pending (A:=A)).
Proof using All. by intros w Hw. Qed.
Lemma keeps_gets {A} (f : W → A) : keeps (gets f).
Proof using All. by intros w Hw. Qed.
Lemma keeps_throw {A} (e : E) : fail e → keeps (throw (A:=A) e).
Proof using All. by intros He w Hw. Qed.
Lemma keeps_modify (f : W → W) : (∀ w, I w → I (f w) ∧ R w (f w)) → keeps (modify f).
Proof using All. intros Hf w Hw. destruct (Hf w Hw). done. Qed.
Lemma keeps_or_panic {A} (o : option A) : (o = None → panics) → keeps (or_panic o).
Proof using All.
  intros Ho w Hw. destruct o; (split; [done|split; [done|]]); simpl; auto; done.
Qed.

Lemma keeps_for_each {X} (f : X → M W E unit) (l : list X) :
  (∀ x, x ∈ l → keeps (f x)) → keeps (for_each f l).
Proof using All.
  induction l as [|x l IH]; intros Hf; simpl; [apply keeps_ret|].
  apply keeps_bind; [apply Hf; by left|]. intros _. apply IH. intros y Hy. apply Hf. by right.
Qed.
End keeps.
