(* ===== verification/RustStd.v ===== *)
(** * The parts of Rust's standard library the bridge computes with

    Machine integers are integers [Z] kept in the range of their type, with the
    wrap-around of the release profile (the one the Dockerfile builds) written
    out; a [u8] buffer is a [list Z]; a [String] is the Rocq [string] of its
    UTF-8 bytes.  Strings are in [RustStr], slices in [RustSlice], [HashMap] in
    [RustMap]. *)

From stdpp Require Import base tactics numbers list gmap strings pretty sorting.
From Stdlib Require Import Ascii.
From S2P Require Import Prelude.
Local Open Scope Z_scope.

(** ** Machine integers *)

(** [x as u8], [x as u16], ...: the value modulo the width. *)
Definition as_u8 (z : Z) : Z := z mod 2 ^ 8.
Definition as_u16 (z : Z) : Z := z mod 2 ^ 16.
Definition as_u32 (z : Z) : Z := z mod 2 ^ 32.
Definition as_u64 (z : Z) : Z := z mod 2 ^ 64.

(** Two's complement reading of the low [w] bits. *)
Definition as_signed (w z : Z) : Z :=
  let m := z mod 2 ^ w in
  if m <? 2 ^ (w - 1) then m else m - 2 ^ w.
Definition as_i16 (z : Z) : Z := as_signed 16 z.
Definition as_i32 (z : Z) : Z := as_signed 32 z.
Definition as_i64 (z : Z) : Z := as_signed 64 z.

(** Ranges of the types. *)
Definition is_u8 (z : Z) : Prop := 0 ≤ z < 2 ^ 8.
Definition is_u16 (z : Z) : Prop := 0 ≤ z < 2 ^ 16.
Definition is_u32 (z : Z) : Prop := 0 ≤ z < 2 ^ 32.
Definition is_u64 (z : Z) : Prop := 0 ≤ z < 2 ^ 64.
Definition is_i16 (z : Z) : Prop := - 2 ^ 15 ≤ z < 2 ^ 15.
Definition is_i32 (z : Z) : Prop := - 2 ^ 31 ≤ z < 2 ^ 31.
Definition is_i64 (z : Z) : Prop := - 2 ^ 63 ≤ z < 2 ^ 63.

(** Release-profile [+] and [-], and the [saturating_] operations. *)
Definition u16_add (a b : Z) : Z := as_u16 (a + b).
Definition u16_sub (a b : Z) : Z := as_u16 (a - b).
Definition u32_add (a b : Z) : Z := as_u32 (a + b).
Definition u32_sub (a b : Z) : Z := as_u32 (a - b).
Definition u16_saturating_add (a b : Z) : Z := Z.min (2 ^ 16 - 1) (a + b).
Definition u16_saturating_sub (a b : Z) : Z := Z.max 0 (a - b).
Definition u32_saturating_add (a b : Z) : Z := Z.min (2 ^ 32 - 1) (a + b).
Definition u32_saturating_sub (a b : Z) : Z := Z.max 0 (a - b).
Definition u64_saturating_mul (a b : Z) : Z := Z.min (2 ^ 64 - 1) (a * b).

(** A buffer of bytes. *)
Definition is_bytes (l : list Z) : Prop := Forall is_u8 l.

Section machine_integers.
Lemma as_u8_id z : is_u8 z → as_u8 z = z.
Proof. apply Z.mod_small. Qed.
Lemma as_u16_id z : is_u16 z → as_u16 z = z.
Proof. apply Z.mod_small. Qed.
Lemma as_u32_id z : is_u32 z → as_u32 z = z.
Proof. apply Z.mod_small. Qed.
Lemma as_u64_id z : is_u64 z → as_u64 z = z.
Proof. apply Z.mod_small. Qed.

Lemma as_u8_range z : is_u8 (as_u8 z).
Proof. by apply Z.mod_pos_bound. Qed.
Lemma as_u16_range z : is_u16 (as_u16 z).
Proof. by apply Z.mod_pos_bound. Qed.
Lemma as_u32_range z : is_u32 (as_u32 z).
Proof. by apply Z.mod_pos_bound. Qed.
Lemma as_u64_range z : is_u64 (as_u64 z).
Proof. by apply Z.mod_pos_bound. Qed.

(** A signed value survives the trip through the unsigned type. *)
Lemma as_signed_mod w z :
  0 < w → - 2 ^ (w - 1) ≤ z < 2 ^ (w - 1) → as_signed w (z mod 2 ^ w) = z.
Proof.
  intros Hw Hz. unfold as_signed.
  assert (2 ^ w = 2 * 2 ^ (w - 1)) as Hp
    by (rewrite <- Z.pow_succ_r by lia; f_equal; lia).
  rewrite Z.mod_mod by lia.
  destruct (decide (0 ≤ z)).
  - rewrite Z.mod_small by lia. destruct (Z.ltb_spec z (2 ^ (w - 1))); lia.
  - assert (z mod 2 ^ w = z + 2 ^ w) as ->.
    { symmetry. apply Z.mod_unique with (-1); lia. }
    destruct (Z.ltb_spec (z + 2 ^ w) (2 ^ (w - 1))); lia.
Qed.

Lemma as_i16_u16 z : is_i16 z → as_i16 (as_u16 z) = z.
Proof. intros. by apply as_signed_mod. Qed.
Lemma as_i32_u32 z : is_i32 z → as_i32 (as_u32 z) = z.
Proof. intros. by apply as_signed_mod. Qed.
Lemma as_i64_u64 z : is_i64 z → as_i64 (as_u64 z) = z.
Proof. intros. by apply as_signed_mod. Qed.

Lemma as_signed_range w z :
  0 < w → - 2 ^ (w - 1) ≤ as_signed w z < 2 ^ (w - 1).
Proof.
  intros Hw. unfold as_signed.
  assert (2 ^ w = 2 * 2 ^ (w - 1)) as Hp
    by (rewrite <- Z.pow_succ_r by lia; f_equal; lia).
  pose proof (Z.mod_pos_bound z (2 ^ w) ltac:(lia)).
  destruct (Z.ltb_spec (z mod 2 ^ w) (2 ^ (w - 1))); lia.
Qed.
Lemma as_i16_range z : is_i16 (as_i16 z).
Proof. by apply (as_signed_range 16). Qed.
Lemma as_i32_range z : is_i32 (as_i32 z).
Proof. by apply (as_signed_range 32). Qed.
Lemma as_i64_range z : is_i64 (as_i64 z).
Proof. by apply (as_signed_range 64). Qed.
End machine_integers.
#[export] Hint Resolve as_i16_range as_i32_range as_i64_range : bridge.
#[export] Hint Resolve as_u8_range as_u16_range as_u32_range as_u64_range : bridge.

(** ** Words and bytes *)

(** The big-endian value of a byte string. *)
Definition be_value (l : list Z) : Z := fold_left (λ acc b, acc * 256 + b) l 0.

(** [(r >> 8) as u8] and [(r & 0xFF) as u8]. *)
Definition hi_byte (w : Z) : Z := as_u8 (Z.shiftr w 8).
Definition lo_byte (w : Z) : Z := as_u8 (Z.land w 255).

(** [((x >> s) & 0xFFFF) as u16] *)
Definition word_at (x s : Z) : Z := as_u16 (Z.land (Z.shiftr x s) 65535).

Section words.
Lemma hi_byte_div w : is_u16 w → hi_byte w = w / 256.
Proof.
  intros [? ?]. unfold hi_byte, as_u8. rewrite Z.shiftr_div_pow2 by lia.
  change (2 ^ 8) with 256 in *. rewrite Z.mod_small; [done|].
  split; [apply Z.div_pos; lia|]. apply Z.div_lt_upper_bound; lia.
Qed.

Lemma lo_byte_mod w : lo_byte w = w mod 256.
Proof.
  unfold lo_byte, as_u8. change 255 with (Z.ones 8).
  rewrite Z.land_ones by lia. change (2 ^ 8) with 256. by rewrite Z.mod_mod.
Qed.

Lemma hi_lo_byte w : is_u16 w → hi_byte w * 256 + lo_byte w = w.
Proof.
  intros Hw. rewrite hi_byte_div, lo_byte_mod by done.
  pose proof (Z.div_mod w 256). lia.
Qed.

Lemma hi_byte_range w : is_u8 (hi_byte w).
Proof. apply as_u8_range. Qed.
Lemma lo_byte_range w : is_u8 (lo_byte w).
Proof. apply as_u8_range. Qed.

Lemma hi_byte_make a b : is_u8 a → is_u8 b → hi_byte (a * 256 + b) = a.
Proof.
  unfold is_u8. change (2 ^ 8) with 256. intros Ha Hb.
  rewrite hi_byte_div by (unfold is_u16; change (2 ^ 16) with 65536; lia).
  rewrite Z.add_comm, Z.div_add, Z.div_small by lia. lia.
Qed.

Lemma lo_byte_make a b : is_u8 b → lo_byte (a * 256 + b) = b.
Proof.
  unfold is_u8. change (2 ^ 8) with 256. intros Hb.
  rewrite lo_byte_mod, Z.add_comm, Z.mod_add by lia. by apply Z.mod_small.
Qed.

Lemma make_word_range a b : is_u8 a → is_u8 b → is_u16 (a * 256 + b).
Proof. unfold is_u8, is_u16. change (2 ^ 8) with 256. change (2 ^ 16) with 65536. lia. Qed.

Lemma word_at_div x s : 0 ≤ s → word_at x s = (x / 2 ^ s) mod 65536.
Proof.
  intros. unfold word_at, as_u16. change 65535 with (Z.ones 16).
  rewrite Z.land_ones, Z.shiftr_div_pow2 by lia.
  change (2 ^ 16) with 65536. by rewrite Z.mod_mod.
Qed.

Lemma word_at_range x s : is_u16 (word_at x s).
Proof. apply as_u16_range. Qed.

(** The words of a 32-bit and of a 64-bit value put it together again. *)
Lemma words32 x : is_u32 x → word_at x 16 * 65536 + word_at x 0 = x.
Proof.
  unfold is_u32. intros ?. rewrite !word_at_div by lia.
  change (2 ^ 16) with 65536. change (2 ^ 32) with 4294967296 in *.
  change (2 ^ 0) with 1. rewrite Z.div_1_r.
  pose proof (Z.div_mod x 65536).
  assert (0 ≤ x / 65536 < 65536)
    by (split; [apply Z.div_pos; lia|apply Z.div_lt_upper_bound; lia]).
  rewrite (Z.mod_small (x / 65536)) by lia. lia.
Qed.

Lemma words64 x :
  is_u64 x →
  word_at x 48 * 281474976710656 + word_at x 32 * 4294967296
    + word_at x 16 * 65536 + word_at x 0 = x.
Proof.
  unfold is_u64. intros ?. rewrite !word_at_div by lia.
  change (2 ^ 64) with 18446744073709551616 in *.
  change (2 ^ 48) with 281474976710656. change (2 ^ 32) with 4294967296.
  change (2 ^ 16) with 65536. change (2 ^ 0) with 1.
  Z.to_euclidean_division_equations. lia.
Qed.
End words.
#[export] Hint Resolve hi_byte_range lo_byte_range word_at_range : bridge.

(** Or-ing in low bits that are free is an addition. *)
Lemma lor_shiftl a b n : 0 ≤ n → 0 ≤ b < 2 ^ n → Z.lor (Z.shiftl a n) b = a * 2 ^ n + b.
Proof.
  intros Hn Hb. rewrite <- Z.shiftl_mul_pow2 by done. rewrite Z.add_nocarry_lor; [done|].
  apply Z.bits_inj'. intros i Hi. rewrite Z.land_spec, Z.bits_0.
  destruct (decide (i < n)).
  - by rewrite Z.shiftl_spec_low.
  - destruct (decide (b = 0)) as [->|]; [by rewrite Z.bits_0, andb_false_r|].
    rewrite (Z.bits_above_log2 b), andb_false_r; [done|lia|].
    apply Z.log2_lt_pow2; [lia|]. eapply Z.lt_le_trans; [apply Hb|].
    apply Z.pow_le_mono_r; lia.
Qed.

(** Powers of two of the machine widths, as numerals. *)
Ltac pow2_numerals :=
  change (2 ^ 8) with 256 in *; change (2 ^ 15) with 32768 in *;
  change (2 ^ 16) with 65536 in *; change (2 ^ 31) with 2147483648 in *;
  change (2 ^ 32) with 4294967296 in *; change (2 ^ 48) with 281474976710656 in *;
  change (2 ^ 63) with 9223372036854775808 in *;
  change (2 ^ 64) with 18446744073709551616 in *.

(** Ranges of machine integers as inequalities between numerals. *)
Ltac int_ranges :=
  unfold is_u8, is_u16, is_u32, is_u64, is_i16, is_i32, is_i64 in *; pow2_numerals.

(** The bytes of an explicit buffer, one hypothesis each. *)
Ltac inv_bytes :=
  unfold is_bytes in *;
  repeat match goal with H : Forall is_u8 (_ :: _) |- _ => apply Forall_cons in H as [? H] end.
