(* ===== verification/RustStr.v ===== *)
(** * Rust strings: UTF-8 bytes, [trim], [contains], formatting

    A Rust [String] (or [&str], [Arc<str>]) is the Rocq [string] of its UTF-8
    bytes; [as_bytes] and [from_utf8] are the two conversions below. *)

From stdpp Require Import base tactics numbers list gmap strings pretty.
From Stdlib Require Import Ascii.
From S2P Require Import Prelude RustStd.
Local Open Scope Z_scope.

(** [s.as_bytes()] *)
Definition byte_of_ascii (c : ascii) : Z := Z.of_N (N_of_ascii c).
Definition as_bytes (s : string) : list Z :=
  byte_of_ascii <$> String.list_ascii_of_string s.

(** The string with the given bytes. *)
Definition ascii_of_byte (z : Z) : ascii := ascii_of_N (Z.to_N z).
Definition string_of_bytes (l : list Z) : string :=
  String.string_of_list_ascii (ascii_of_byte <$> l).

Lemma byte_of_ascii_range c : is_u8 (byte_of_ascii c).
Proof.
  unfold byte_of_ascii, is_u8. change (2 ^ 8) with (Z.of_N 256).
  pose proof (N_ascii_bounded c). lia.
Qed.

Lemma ascii_of_byte_of_ascii c : ascii_of_byte (byte_of_ascii c) = c.
Proof. unfold ascii_of_byte, byte_of_ascii. by rewrite N2Z.id, ascii_N_embedding. Qed.

Lemma byte_of_ascii_of_byte z : is_u8 z → byte_of_ascii (ascii_of_byte z) = z.
Proof.
  unfold is_u8. change (2 ^ 8) with 256. intros ?.
  unfold ascii_of_byte, byte_of_ascii. rewrite N_ascii_embedding by lia. lia.
Qed.

Lemma as_bytes_range s : is_bytes (as_bytes s).
Proof. unfold as_bytes. apply Forall_fmap, Forall_true. intros. apply byte_of_ascii_range. Qed.

Lemma string_of_as_bytes s : string_of_bytes (as_bytes s) = s.
Proof.
  unfold string_of_bytes, as_bytes. rewrite <- list_fmap_compose.
  rewrite (list_fmap_ext _ id).
  - by rewrite list_fmap_id, String.string_of_list_ascii_of_string.
  - intros. apply ascii_of_byte_of_ascii.
Qed.

Lemma as_bytes_of_bytes l : is_bytes l → as_bytes (string_of_bytes l) = l.
Proof.
  intros Hl. unfold string_of_bytes, as_bytes.
  rewrite String.list_ascii_of_string_of_list_ascii, <- list_fmap_compose.
  rewrite <- (list_fmap_id l) at 2. apply list_fmap_ext. intros i z Hz.
  apply byte_of_ascii_of_byte. by eapply Forall_lookup_1.
Qed.
#[export] Hint Resolve byte_of_ascii_range as_bytes_range : bridge.

Lemma as_bytes_app s1 s2 : as_bytes (s1 +:+ s2) = as_bytes s1 ++ as_bytes s2.
Proof.
  induction s1 as [|c s1 IH]; [done|].
  change (byte_of_ascii c :: as_bytes (s1 +:+ s2) = byte_of_ascii c :: as_bytes s1 ++ as_bytes s2).
  by rewrite IH.
Qed.

(** ** UTF-8: [std::str::from_utf8] *)

Definition in_range (lo hi b : Z) : bool := (lo <=? b) && (b <=? hi).
Definition is_cont (b : Z) : bool := in_range 128 191 b.

(** The well-formed byte sequences of the Unicode standard (table 3-7). *)
Fixpoint utf8_valid (l : list Z) : bool :=
  match l with
  | [] => true
  | b0 :: l1 =>
      if b0 <? 128 then utf8_valid l1 else
      match l1 with
      | [] => false
      | b1 :: l2 =>
          if in_range 194 223 b0 then is_cont b1 && utf8_valid l2 else
          match l2 with
          | [] => false
          | b2 :: l3 =>
              if b0 =? 224 then in_range 160 191 b1 && is_cont b2 && utf8_valid l3
              else if in_range 225 236 b0 || in_range 238 239 b0
              then is_cont b1 && is_cont b2 && utf8_valid l3
              else if b0 =? 237 then in_range 128 159 b1 && is_cont b2 && utf8_valid l3
              else
              match l3 with
              | [] => false
              | b3 :: l4 =>
                  (if b0 =? 240 then in_range 144 191 b1
                   else if in_range 241 243 b0 then is_cont b1
                   else (b0 =? 244) && in_range 128 143 b1)
                  && is_cont b2 && is_cont b3 && utf8_valid l4
              end
          end
      end
  end.

(** [str::from_utf8(bytes)], up to the contents of the error. *)
Definition from_utf8 (l : list Z) : option string :=
  if utf8_valid l then Some (string_of_bytes l) else None.

(** ** [str::trim] *)

(** One leading character with the Unicode property [White_Space], removed. *)
Definition strip_ws (l : list Z) : option (list Z) :=
  match l with
  | 194 :: 133 :: r | 194 :: 160 :: r => Some r
  | 225 :: 154 :: 128 :: r => Some r
  | 226 :: 129 :: 159 :: r => Some r
  | 226 :: 128 :: b :: r =>
      if in_range 128 138 b || (b =? 168) || (b =? 169) || (b =? 175)
      then Some r else None
  | 227 :: 128 :: 128 :: r => Some r
  | b :: r => if in_range 9 13 b || (b =? 32) then Some r else None
  | [] => None
  end.

(** The same at the end of the text, read from the last byte. *)
Definition strip_ws_rev (l : list Z) : option (list Z) :=
  match l with
  | 133 :: 194 :: r | 160 :: 194 :: r => Some r
  | 128 :: 154 :: 225 :: r => Some r
  | 159 :: 129 :: 226 :: r => Some r
  | 128 :: 128 :: 227 :: r => Some r
  | b :: 128 :: 226 :: r =>
      if in_range 128 138 b || (b =? 168) || (b =? 169) || (b =? 175)
      then Some r else None
  | b :: r => if in_range 9 13 b || (b =? 32) then Some r else None
  | [] => None
  end.

Fixpoint strip_all (strip : list Z → option (list Z)) (fuel : nat) (l : list Z) : list Z :=
  match fuel with
  | O => l
  | S fuel => match strip l with Some r => strip_all strip fuel r | None => l end
  end.

Definition trim_bytes (l : list Z) : list Z :=
  let l1 := strip_all strip_ws (length l) l in
  reverse (strip_all strip_ws_rev (length l1) (reverse l1)).

(** [s.trim()] and [s.is_empty()] *)
Definition trim (s : string) : string := string_of_bytes (trim_bytes (as_bytes s)).
Definition is_empty (s : string) : bool := bool_decide (s = "").

(** [s.trim_end_matches('\0')], on the bytes. *)
Fixpoint drop_zeros (l : list Z) : list Z :=
  match l with 0 :: r => drop_zeros r | _ => l end.
Definition trim_end_nul (l : list Z) : list Z := reverse (drop_zeros (reverse l)).

(** [s.contains(needle)] *)
Fixpoint contains (needle s : string) : bool :=
  String.prefix needle s ||
  match s with EmptyString => false | String _ s' => contains needle s' end.

(** ** Formatting of integers *)

(** [{}] *)
Definition fmt_dec (z : Z) : string := pretty z.

Definition hex_digit (d : Z) : ascii :=
  ascii_of_byte (if d <? 10 then 48 + d else 55 + d).

(** [{:02X}] of a [u8] and [{:04X}] of a [u16] *)
Definition fmt_02X (z : Z) : string :=
  String (hex_digit (z / 16)) (String (hex_digit (z mod 16)) EmptyString).
Definition fmt_04X (z : Z) : string :=
  fmt_02X (z / 256) +:+ fmt_02X (z mod 256).

(** [bytes.iter().map(|b| format!("{:02X}", b)).collect::<String>()] *)
Definition hex_upper (l : list Z) : string :=
  foldr (λ b acc, fmt_02X b +:+ acc) "" l.

(** ** Trailing zero bytes *)

Lemma drop_zeros_app_zeros n l : drop_zeros (replicate n 0 ++ l) = drop_zeros l.
Proof. by induction n. Qed.

Lemma drop_zeros_id l : head l ≠ Some 0 → drop_zeros l = l.
Proof. destruct l as [|[] ?]; naive_solver. Qed.

(** Padding with zero bytes is undone, provided the text does not itself end in
    a zero byte. *)
Lemma trim_end_nul_pad l n :
  last l ≠ Some 0 → trim_end_nul (l ++ replicate n 0) = l.
Proof.
  intros Hl. unfold trim_end_nul.
  rewrite reverse_app, reverse_replicate, drop_zeros_app_zeros, drop_zeros_id.
  - apply reverse_involutive.
  - by rewrite head_reverse.
Qed.

Lemma utf8_valid_app_zero l : utf8_valid l = true → utf8_valid (l ++ [0]) = true.
Proof.
  induction l as [l IH] using (induction_ltof1 _ (@length Z)).
  unfold ltof in IH.
  destruct l as [|b0 l1]; [done|]. simpl.
  destruct (b0 <? 128); [intros; apply IH; simpl; [lia|done]|].
  destruct l1 as [|b1 l2]; [done|]. simpl.
  destruct (in_range 194 223 b0).
  { intros [-> ?]%andb_true_iff. apply IH; simpl; [lia|done]. }
  destruct l2 as [|b2 l3]; [done|]. simpl.
  destruct (b0 =? 224).
  { intros [-> ?]%andb_true_iff. apply IH; simpl; [lia|done]. }
  destruct (_ || _)%bool.
  { intros [-> ?]%andb_true_iff. apply IH; simpl; [lia|done]. }
  destruct (b0 =? 237).
  { intros [-> ?]%andb_true_iff. apply IH; simpl; [lia|done]. }
  destruct l3 as [|b3 l4]; [done|]. simpl.
  intros [-> ?]%andb_true_iff. apply IH; simpl; [lia|done].
Qed.

(** Removing a final zero byte keeps a text valid, and so does removing all of
    them. *)
Lemma utf8_valid_drop_zero l : utf8_valid (l ++ [0]) = true → utf8_valid l = true.
Proof.
  induction l as [l IH] using (induction_ltof1 _ (@length Z)).
  unfold ltof in IH.
  destruct l as [|b0 l1]; [done|]. simpl.
  destruct (b0 <? 128); [intros; apply IH; simpl; [lia|done]|].
  destruct l1 as [|b1 l2]; [simpl|].
  { by destruct (in_range 194 223 b0). }
  simpl. destruct (in_range 194 223 b0).
  { intros [-> ?]%andb_true_iff. apply IH; simpl; [lia|done]. }
  destruct l2 as [|b2 l3]; [simpl|].
  { repeat case_match; rewrite ?andb_false_r; done. }
  simpl. destruct (b0 =? 224).
  { intros [-> ?]%andb_true_iff. apply IH; simpl; [lia|done]. }
  destruct (_ || _)%bool.
  { intros [-> ?]%andb_true_iff. apply IH; simpl; [lia|done]. }
  destruct (b0 =? 237).
  { intros [-> ?]%andb_true_iff. apply IH; simpl; [lia|done]. }
  destruct l3 as [|b3 l4]; [simpl|].
  { change (is_cont 0) with false. by rewrite andb_false_r, andb_false_l. }
  simpl. intros [-> ?]%andb_true_iff. apply IH; simpl; [lia|done].
Qed.

Lemma trim_end_nul_prefix l : ∃ n, l = trim_end_nul l ++ replicate n 0.
Proof.
  unfold trim_end_nul.
  assert (∀ r, ∃ n, r = replicate n 0 ++ drop_zeros r) as Hd.
  { induction r as [|z r [n IH]]; [by exists 0%nat|]. simpl.
    destruct z; try (by exists 0%nat). exists (S n). simpl. by f_equal. }
  destruct (Hd (reverse l)) as [n Hn]. exists n.
  rewrite <- (reverse_involutive l) at 1. rewrite Hn at 1.
  by rewrite reverse_app, reverse_replicate.
Qed.

Lemma utf8_valid_trim_end_nul l :
  utf8_valid l = true → utf8_valid (trim_end_nul l) = true.
Proof.
  destruct (trim_end_nul_prefix l) as [n Hn]. rewrite Hn at 1. clear Hn.
  induction n as [|n IH]; [by rewrite app_nil_r|].
  rewrite replicate_S_end, (assoc_L (++)). intros ?%utf8_valid_drop_zero. auto.
Qed.

Lemma trim_end_nul_bytes l : is_bytes l → is_bytes (trim_end_nul l).
Proof.
  destruct (trim_end_nul_prefix l) as [n Hn]. rewrite Hn at 1. by intros [? _]%Forall_app.
Qed.

(** Hexadecimal text is ASCII, hence valid. *)
Lemma hex_upper_valid l : is_bytes l → utf8_valid (as_bytes (hex_upper l)) = true.
Proof.
  assert (∀ d, 0 ≤ d < 16 → byte_of_ascii (hex_digit d) <? 128 = true) as Hd.
  { intros d Hd. unfold hex_digit. apply Z.ltb_lt.
    rewrite byte_of_ascii_of_byte; destruct (d <? 10) eqn:?; unfold is_u8; bool_to_prop; lia. }
  induction l as [|b l IH]; intros Hl; [done|].
  apply Forall_cons in Hl as [Hb Hl]. specialize (IH Hl). unfold is_u8 in Hb.
  change (2 ^ 8) with 256 in Hb. unfold as_bytes in *. simpl.
  rewrite !Hd; [done|..].
  - pose proof (Z.mod_pos_bound b 16). lia.
  - split; [apply Z.div_pos|apply Z.div_lt_upper_bound]; lia.
Qed.
