(* ===== verification/RustSlice.v ===== *)
(** * Rust slices: the stable sort and [binary_search_by] *)

From stdpp Require Import base tactics numbers list gmap strings sorting.
From S2P Require Import Prelude.

(** ** [sort_by] and [sort_by_key]

    The standard sort is stable; the list below, sorted by insertion from the
    right, is the only stable sorted rearrangement, so the algorithm used does not
    matter. *)

Fixpoint insert_by {A} (le : A → A → bool) (x : A) (l : list A) : list A :=
  match l with
  | [] => [x]
  | y :: r => if le x y then x :: y :: r else y :: insert_by le x r
  end.

Definition sort_by {A} (le : A → A → bool) (l : list A) : list A :=
  foldr (insert_by le) [] l.

(** [v.sort_by_key(|m| key(m))] for an integer key. *)
Definition sort_by_key {A} (key : A → Z) (l : list A) : list A :=
  sort_by (λ a b, (key a <=? key b)%Z) l.

(** [v.sort_by(|a, b| key(a).cmp(key(b)))] for a string key. *)
Definition sort_by_str {A} (key : A → string) (l : list A) : list A :=
  sort_by (λ a b, String.leb (key a) (key b)) l.

Section sort.
Context {A : Type} (le : A → A → bool).
Context (le_total : ∀ a b, le a b = true ∨ le b a = true).
Context (le_trans : ∀ a b c, le a b = true → le b c = true → le a c = true).

Lemma insert_by_perm x l : insert_by le x l ≡ₚ x :: l.
Proof.
  induction l as [|y l IH]; simpl; [done|].
  destruct (le x y); [done|]. by rewrite IH, Permutation_swap.
Qed.

Lemma sort_by_perm l : sort_by le l ≡ₚ l.
Proof. induction l as [|x l IH]; simpl; [done|]. by rewrite insert_by_perm, IH. Qed.

Lemma insert_by_sorted x l :
  StronglySorted (λ a b, le a b = true) l →
  StronglySorted (λ a b, le a b = true) (insert_by le x l).
Proof.
  induction l as [|y l IH]; intros Hs; simpl; [by repeat constructor|].
  apply StronglySorted_cons in Hs as [Hy Hs].
  destruct (le x y) eqn:Hxy.
  - repeat constructor; try done. eapply Forall_impl; eauto.
  - constructor; [by apply IH|]. rewrite insert_by_perm. constructor; [|done].
    destruct (le_total x y); congruence.
Qed.

Lemma sort_by_sorted l : StronglySorted (λ a b, le a b = true) (sort_by le l).
Proof. induction l; simpl; [constructor|by apply insert_by_sorted]. Qed.

(** Stability: elements that compare equal keep their order. *)
Lemma insert_by_filter (P : A → Prop) `{!∀ x, Decision (P x)} x l :
  (∀ a b, P a → P b → le a b = true) →
  filter P (insert_by le x l) = filter P (x :: l).
Proof.
  intros HP. induction l as [|y l IH]; [done|]. simpl insert_by.
  destruct (le x y) eqn:Hxy; [done|].
  rewrite filter_cons, IH, !filter_cons.
  destruct (decide (P x)), (decide (P y)); try done.
  by rewrite HP in Hxy.
Qed.

Lemma sort_by_stable (P : A → Prop) `{!∀ x, Decision (P x)} l :
  (∀ a b, P a → P b → le a b = true) → filter P (sort_by le l) = filter P l.
Proof.
  intros HP. induction l as [|x l IH]; [done|].
  change (sort_by le (x :: l)) with (insert_by le x (sort_by le l)).
  rewrite insert_by_filter by done. by rewrite !filter_cons, IH.
Qed.
End sort.

Lemma sort_by_key_perm {A} (key : A → Z) l : sort_by_key key l ≡ₚ l.
Proof. apply sort_by_perm. Qed.

Lemma sort_by_key_sorted {A} (key : A → Z) l :
  StronglySorted (λ a b, (key a ≤ key b)%Z) (sort_by_key key l).
Proof.
  eapply (StronglySorted_mono (λ a b, (key a <=? key b)%Z = true)).
  - intros a b. by rewrite Z.leb_le.
  - apply sort_by_sorted; intros *; rewrite !Z.leb_le; lia.
Qed.

Lemma sort_by_str_perm {A} (key : A → string) l : sort_by_str key l ≡ₚ l.
Proof. apply sort_by_perm. Qed.

Lemma sort_by_str_sorted {A} (key : A → string) l :
  StronglySorted (λ a b, String.le (key a) (key b)) (sort_by_str key l).
Proof.
  eapply (StronglySorted_mono (λ a b, String.leb (key a) (key b) = true)).
  - intros a b. unfold String.le. by intros ->.
  - apply sort_by_sorted.
    + intros a b. apply String.leb_total.
    + intros a b c Hab Hbc. apply Is_true_true.
      apply (transitivity (R := String.le) (y := key b)); by apply Is_true_true.
Qed.

(** ** [binary_search_by] *)

Inductive search_result :=
| Found (pos : nat)
| NotFound (pos : nat).

(** The standard library's loop: [size] shrinks by half of itself while the base
    moves to the middle whenever the element there is not greater. *)
Fixpoint binary_search_loop (fuel : nat) (f : nat → comparison) (size base : nat) : nat :=
  match fuel with
  | O => base
  | S fuel =>
      if (1 <? size)%nat then
        let half := Nat.div2 size in
        let mid := (base + half)%nat in
        let base := match f mid with Gt => base | _ => mid end in
        binary_search_loop fuel f (size - half)%nat base
      else base
  end.

Definition binary_search_by {A} (cmp : A → comparison) (l : list A) : search_result :=
  let f i := match l !! i with Some a => cmp a | None => Gt end in
  match length l with
  | O => NotFound 0
  | size =>
      let base := binary_search_loop size f size 0 in
      match f base with
      | Eq => Found base
      | Lt => NotFound (S base)
      | Gt => NotFound base
      end
  end.

(** The loop keeps [base] in range, on an element that is not greater than the
    target unless it is the first one, and ends when one candidate is left. *)
Lemma binary_search_loop_spec fuel f size base n :
  (1 ≤ size ≤ fuel)%nat → (base + size ≤ n)%nat →
  (∀ i j, (i ≤ j < n)%nat → f i = Gt → f j = Gt) →
  (base = 0 ∨ f base ≠ Gt)%nat →
  (∀ i, (base + size ≤ i < n)%nat → f i = Gt) →
  let r := binary_search_loop fuel f size base in
  (r < n)%nat ∧ (r = 0 ∨ f r ≠ Gt)%nat ∧ (∀ i, (r < i < n)%nat → f i = Gt).
Proof.
  revert size base. induction fuel as [|fuel IH]; intros size base Hf Hb Hm Hl Hr; simpl.
  { lia. }
  destruct (Nat.ltb_spec 1 size) as [Hs|Hs].
  - pose proof (Nat.div2_decr size (size - 1)).
    pose proof (Nat.div2_odd size) as Hodd.
    assert (Nat.b2n (Nat.odd size) ≤ 1)%nat by (destruct (Nat.odd size); simpl; lia).
    assert (1 ≤ Nat.div2 size)%nat by lia.
    destruct (f (base + Nat.div2 size)%nat) eqn:Hmid; apply IH;
      try lia; try done; try (right; congruence).
    1,2: intros i Hi; apply Hr; lia.
    intros i Hi. apply (Hm (base + Nat.div2 size)%nat i); [lia|done].
  - split; [lia|]. split; [done|]. intros i Hi. apply Hr. lia.
Qed.

(** ** The order of strings: [str::cmp] compares bytes lexicographically *)

Definition str_lt (a b : string) : Prop := String.compare a b = Lt.

Lemma str_compare_refl a : String.compare a a = Eq.
Proof.
  pose proof (String.compare_antisym a a). by destruct (String.compare a a).
Qed.

Lemma str_compare_eq a b : String.compare a b = Eq ↔ a = b.
Proof. split; [apply String.compare_eq_iff|intros ->; apply str_compare_refl]. Qed.

Lemma str_compare_gt a b : String.compare a b = Gt ↔ str_lt b a.
Proof. unfold str_lt. rewrite (String.compare_antisym a b). by destruct (String.compare b a). Qed.

Lemma str_lt_le a b : str_lt a b ↔ String.le a b ∧ a ≠ b.
Proof.
  unfold str_lt, String.le, String.leb. split.
  - intros H. rewrite H. split; [done|]. intros ->. by rewrite str_compare_refl in H.
  - intros [H Hne]. destruct (String.compare a b) eqn:E; try done.
    by apply str_compare_eq in E.
Qed.

#[export] Instance str_lt_strict : StrictOrder str_lt.
Proof.
  split.
  - intros a H. by apply str_lt_le in H as [_ ?].
  - intros a b c [Hab Hn]%str_lt_le [Hbc Hm]%str_lt_le. apply str_lt_le.
    split; [by etrans|]. intros ->. apply Hn. by apply (anti_symm String.le).
Qed.

Lemma str_lt_neq a b : str_lt a b → a ≠ b.
Proof. by intros [_ ?]%str_lt_le. Qed.

Lemma StronglySorted_str_lt_NoDup l : StronglySorted str_lt l → NoDup l.
Proof.
  induction 1 as [|x l Hs IH Hx]; constructor; [|done].
  intros Hin. rewrite Forall_forall in Hx. by eapply str_lt_neq; [apply Hx|].
Qed.

(** Sorting distinct keys sorts them strictly. *)
Lemma StronglySorted_le_lt l :
  StronglySorted String.le l → NoDup l → StronglySorted str_lt l.
Proof.
  induction 1 as [|x l Hs IH Hx]; intros Hnd; constructor.
  - apply IH. by inv Hnd.
  - apply NoDup_cons in Hnd as [Hnin _]. rewrite Forall_forall in *.
    intros y Hy. apply str_lt_le. split; [by apply Hx|]. by intros ->.
Qed.

Section binary_search.
Context (k : string).
Let cmp (a : string) := String.compare a k.

(** On a strictly sorted slice the search finds the key where it is, and
    otherwise returns the position that keeps the slice sorted. *)
Lemma binary_search_by_spec l :
  StronglySorted str_lt l →
  match binary_search_by cmp l with
  | Found pos => l !! pos = Some k
  | NotFound pos =>
      (pos ≤ length l)%nat ∧
      Forall (λ a, str_lt a k) (take pos l) ∧
      Forall (λ a, str_lt k a) (drop pos l)
  end.
Proof.
  intros Hs. unfold binary_search_by. cbv zeta.
  destruct (length l) as [|m] eqn:Hlen; [by apply nil_length_inv in Hlen as ->|].
  set (f := λ i, match l !! i with Some a => cmp a | None => Gt end).
  assert (∀ i j, (i ≤ j < S m)%nat → f i = Gt → f j = Gt) as Hmono.
  { intros i j Hij. unfold f.
    destruct (lookup_lt_is_Some_2 l i) as [a Ha]; [lia|].
    destruct (lookup_lt_is_Some_2 l j) as [b Hb]; [lia|]. rewrite Ha, Hb.
    unfold cmp. rewrite !str_compare_gt. intros Hk.
    destruct (decide (i = j)) as [->|]; [by simplify_eq|].
    etrans; [done|]. eapply StronglySorted_lookup; eauto; lia. }
  destruct (binary_search_loop_spec (S m) f (S m) 0 (S m)) as (Hr & Hlow & Hhigh);
    [lia|lia|done|by left|lia|].
  set (r := binary_search_loop (S m) f (S m) 0) in *.
  destruct (lookup_lt_is_Some_2 l r) as [a Ha]; [lia|].
  assert (∀ i b, l !! i = Some b → (r < i)%nat → str_lt k b) as Habove.
  { intros i b Hb Hi. apply str_compare_gt.
    pose proof (lookup_lt_Some _ _ _ Hb).
    specialize (Hhigh i ltac:(lia)). unfold f in Hhigh. by rewrite Hb in Hhigh. }
  assert (∀ i b, l !! i = Some b → (i < r)%nat → str_lt b a) as Hbelow.
  { intros i b Hb Hi. by eapply (StronglySorted_lookup _ _ i r). }
  rewrite Ha. destruct (cmp a) eqn:Hc; unfold cmp in Hc.
  - apply str_compare_eq in Hc as ->. done.
  - split; [lia|]. split; apply Forall_forall; intros b Hb.
    + apply list_elem_of_lookup in Hb as [i [Hb Hi]%lookup_take_Some].
      destruct (decide (i = r)) as [->|]; [by simplify_eq|].
      etrans; [|done]. eapply Hbelow; eauto; lia.
    + apply list_elem_of_lookup in Hb as [i Hb]. rewrite lookup_drop in Hb.
      eapply Habove; [done|lia].
  - apply str_compare_gt in Hc. split; [lia|]. split; apply Forall_forall; intros b Hb.
    + destruct Hlow as [H0|Hn]; [|unfold f in Hn; rewrite Ha in Hn; unfold cmp in Hn; by rewrite (proj2 (str_compare_gt _ _)) in Hn]. rewrite H0 in Hb. by inv Hb.
    + apply list_elem_of_lookup in Hb as [i Hb]. rewrite lookup_drop in Hb.
      destruct i as [|i]; [rewrite Nat.add_0_r in Hb; by simplify_eq|].
      eapply Habove; [done|lia].
Qed.
End binary_search.
