(* ===== verification/RustMap.v ===== *)
(** * [HashMap]: iteration order and grouping by key

    A [HashMap] is a [gmap].  Rust leaves its iteration order unspecified: it is
    a parameter, of which only the set of entries visited is known. *)

From stdpp Require Import base tactics numbers list gmap sorting.
From S2P Require Import Prelude RustSlice.

Class HashIter (K : Type) `{Countable K} := {
  (** [map.into_iter()] *)
  hash_iter : ∀ {V : Type}, gmap K V → list (K * V);
  hash_iter_perm {V} (m : gmap K V) : hash_iter m ≡ₚ map_to_list m;
}.

(** The iteration order of [gmap] itself is one possible order. *)
Definition hash_iter_ref (K : Type) `{Countable K} : HashIter K :=
  {| hash_iter V := map_to_list; hash_iter_perm V m := Permutation_refl _ |}.

(** Altering an absent key changes nothing. *)
Lemma alter_absent {K A} `{Countable K} (f : A → A) k (m : gmap K A) :
  m !! k = None → alter f k m = m.
Proof.
  intros Hk. apply map_eq. intros k'. rewrite lookup_alter. case_decide; [|done].
  subst. by rewrite Hk.
Qed.

Section group_by.
Context {K A : Type} `{Countable K} (key : A → K).

(** [for x in l { map.entry(key(x)).or_default().push(x) }] *)
Definition push_entry (m : gmap K (list A)) (x : A) : gmap K (list A) :=
  <[key x := default [] (m !! key x) ++ [x]]> m.
Definition group_by (l : list A) : gmap K (list A) := foldl push_entry ∅ l.

Lemma group_by_snoc l x : group_by (l ++ [x]) = push_entry (group_by l) x.
Proof. unfold group_by. by rewrite foldl_app. Qed.

(** An entry holds the elements with its key, in their order; a key without
    elements has no entry. *)
Lemma group_by_default l k : default [] (group_by l !! k) = filter (λ x, key x = k) l.
Proof.
  induction l as [|x l IH] using rev_ind; [done|].
  rewrite group_by_snoc, filter_app, filter_cons, filter_nil. unfold push_entry.
  destruct (decide (key x = k)) as [<-|Hne].
  - by rewrite lookup_insert_eq; simpl; rewrite IH.
  - by rewrite lookup_insert_ne, IH, app_nil_r.
Qed.

Lemma group_by_nonempty l k g : group_by l !! k = Some g → g ≠ [].
Proof.
  induction l as [|x l IH] using rev_ind; [done|].
  rewrite group_by_snoc. unfold push_entry.
  destruct (decide (key x = k)) as [<-|Hne].
  - rewrite lookup_insert_eq. intros [= <-]. by destruct (default _ _).
  - by rewrite lookup_insert_ne.
Qed.

Lemma group_by_Some l k g :
  group_by l !! k = Some g ↔ g = filter (λ x, key x = k) l ∧ g ≠ [].
Proof.
  pose proof (group_by_default l k) as Hd. split.
  - intros Hg. rewrite Hg in Hd. split; [done|]. by eapply group_by_nonempty.
  - intros [-> Hne]. destruct (group_by l !! k); simpl in Hd; congruence.
Qed.

(** Iterating over the groups visits every key once, with its elements. *)
Lemma hash_iter_group_by `{!HashIter K} l k g :
  (k, g) ∈ hash_iter (group_by l) ↔ g = filter (λ x, key x = k) l ∧ g ≠ [].
Proof. by rewrite hash_iter_perm, elem_of_map_to_list, group_by_Some. Qed.

Lemma hash_iter_NoDup `{!HashIter K} l : NoDup (hash_iter (group_by l)).*1.
Proof. rewrite hash_iter_perm. apply NoDup_fst_map_to_list. Qed.
End group_by.

(** [BTreeMap::into_iter()] with integer keys: the entries in the order of the keys. *)
Definition btree_iter {V} (m : gmap Z V) : list (Z * V) := sort_by_key fst (map_to_list m).

Lemma elem_of_btree_iter {V} (m : gmap Z V) k v : (k, v) ∈ btree_iter m ↔ m !! k = Some v.
Proof. unfold btree_iter. by rewrite sort_by_key_perm, elem_of_map_to_list. Qed.

Lemma btree_iter_sorted {V} (m : gmap Z V) :
  StronglySorted (λ a b, (a.1 < b.1)%Z) (btree_iter m).
Proof.
  pose proof (sort_by_key_sorted fst (map_to_list m)) as Hs.
  assert (NoDup (btree_iter m).*1) as Hnd.
  { unfold btree_iter. rewrite sort_by_key_perm. apply NoDup_fst_map_to_list. }
  unfold btree_iter in *. induction Hs as [|x l Hs IH Hx]; [constructor|].
  apply NoDup_cons in Hnd as [Hnin Hnd]. constructor; [by apply IH|].
  rewrite Forall_forall in *. intros y Hy. specialize (Hx y Hy).
  assert (x.1 ≠ y.1); [|lia]. intros Heq. apply Hnin. rewrite Heq. by apply list_elem_of_fmap_2.
Qed.

(** ** Properties of all pairs of a list *)

Section pairwise.
Context {A : Type} (R : A → A → Prop).

(** [R] holds between every element and every later one. *)
Fixpoint pairwise (l : list A) : Prop :=
  match l with [] => True | x :: l => Forall (R x) l ∧ pairwise l end.

Lemma pairwise_perm `{!Symmetric R} l1 l2 : l1 ≡ₚ l2 → pairwise l1 → pairwise l2.
Proof.
  induction 1 as [|x l1 l2 Hp IH|x y l|l1 l2 l3 _ IH1 _ IH2]; simpl; [done|..|by auto].
  - intros [Hx Hl]. rewrite Hp in Hx. by auto.
  - rewrite !Forall_cons. intros ((Hyx & Hy) & Hx & Hl). by repeat split.
Qed.

Lemma pairwise_lookup l :
  pairwise l ↔
  ∀ i j x y, l !! i = Some x → l !! j = Some y → (i < j)%nat → R x y.
Proof.
  induction l as [|z l IH]; simpl; [by split|]. rewrite IH, Forall_lookup. split.
  - intros [Hz Hl] [|i] [|j] x y Hx Hy Hij; simplify_eq/=; try lia; [eauto|].
    apply (Hl i j); [done..|lia].
  - intros Hl. split.
    + intros i x Hx. apply (Hl 0%nat (S i)); [done..|lia].
    + intros i j x y Hx Hy Hij. apply (Hl (S i) (S j)); [done..|lia].
Qed.

Lemma pairwise_StronglySorted l : pairwise l ↔ StronglySorted R l.
Proof.
  induction l as [|x l IH]; simpl; [by split; [constructor|]|].
  rewrite IH. split; [intros [? ?]; by constructor|]. by inversion 1.
Qed.
End pairwise.

Lemma pairwise_impl {A} (R S : A → A → Prop) l :
  (∀ x y, x ∈ l → y ∈ l → R x y → S x y) → pairwise R l → pairwise S l.
Proof.
  induction l as [|z l IH]; simpl; [done|]. intros HRS [Hz Hl]. split.
  - apply Forall_forall. intros y Hy. rewrite Forall_forall in Hz.
    apply HRS; [left|by right|auto].
  - apply IH; [|done]. intros x y ? ?. apply HRS; by right.
Qed.

(** Splitting a list by key: the pairs within each class are the pairs of equal
    keys. *)
Lemma pairwise_filter {A K} `{EqDecision K} (key : A → K) (R : A → A → Prop) l :
  pairwise (λ x y, key x = key y → R x y) l ↔
  ∀ k, pairwise R (filter (λ x, key x = k) l).
Proof.
  induction l as [|z l IH]; simpl; [by split|]. rewrite IH. split.
  - intros [Hz Hl] k. rewrite filter_cons. case_decide; [|done]. subst. simpl. split; [|done].
    apply Forall_forall. intros y [Hk Hy]%list_elem_of_filter.
    rewrite Forall_forall in Hz. auto.
  - intros Hl. split.
    + apply Forall_forall. intros y Hy Hk. specialize (Hl (key z)).
      rewrite filter_cons, decide_True in Hl by done. destruct Hl as [Hl _].
      rewrite Forall_forall in Hl. apply Hl. by apply list_elem_of_filter.
    + intros k. specialize (Hl k). rewrite filter_cons in Hl. by case_decide; [destruct Hl|].
Qed.
