(* ===== verification/RustText.v ===== *)
(** * Rust text functions of the configuration and address-space code

    [to_lowercase], [parse::<u32>], [split], [SocketAddr::from_str], and the error
    chains of [anyhow].  Lower-casing is exact on ASCII text; the Unicode tables,
    which only concern other characters, are a parameter. *)

From stdpp Require Import base tactics numbers list gmap strings.
From Stdlib Require Import Ascii.
From S2P Require Import Prelude RustStd RustStr.
Local Open Scope Z_scope.

(** ** [str::to_lowercase] *)

Class UnicodeTables := {
  (** [to_lowercase] of a text with characters outside ASCII *)
  lower_unicode : string → string;
}.

Definition ascii_lower (b : Z) : Z := if (65 <=? b) && (b <=? 90) then b + 32 else b.
Definition is_ascii (s : string) : bool := forallb (λ b, b <? 128) (as_bytes s).
Definition to_lowercase `{!UnicodeTables} (s : string) : string :=
  if is_ascii s then string_of_bytes (ascii_lower <$> as_bytes s) else lower_unicode s.

(** ** [s.parse::<u32>()], with the messages of [ParseIntError] *)

Definition digit_of (b : Z) : option Z := if (48 <=? b) && (b <=? 57) then Some (b - 48) else None.
Fixpoint parse_digits (max acc : Z) (l : list Z) : result Z string :=
  match l with
  | [] => Ok acc
  | b :: l =>
      match digit_of b with
      | None => Err "invalid digit found in string"%string
      | Some d =>
          if acc * 10 + d <=? max then parse_digits max (acc * 10 + d) l
          else Err "number too large to fit in target type"%string
      end
  end.
Definition parse_unsigned (max : Z) (s : string) : result Z string :=
  match as_bytes s with
  | [] => Err "cannot parse integer from empty string"%string
  | [43] | [45] => Err "invalid digit found in string"%string
  | 43 :: l => parse_digits max 0 l
  | l => parse_digits max 0 l
  end.
Definition parse_u32 (s : string) : result Z string := parse_unsigned (2 ^ 32 - 1) s.

(** [s.chars().all(|c| c.is_ascii_digit())] *)
Definition all_digits (s : string) : bool :=
  forallb (λ b, match digit_of b with Some _ => true | None => false end) (as_bytes s).

Lemma digit_of_range b d : digit_of b = Some d → 0 ≤ d ≤ 9.
Proof. unfold digit_of. destruct (_ && _) eqn:H; [|done]. intros [= <-]. zlia. Qed.

Lemma parse_digits_range max acc l n :
  0 ≤ acc ≤ max → parse_digits max acc l = Ok n → 0 ≤ n ≤ max.
Proof.
  revert acc. induction l as [|b l IH]; intros acc Hacc; simpl; [by intros [= <-]|].
  destruct (digit_of b) as [d|] eqn:Hd; [|done]. apply digit_of_range in Hd.
  destruct (Z.leb_spec (acc * 10 + d) max); [|done]. apply IH. lia.
Qed.

Lemma parse_unsigned_range max s n : 0 ≤ max → parse_unsigned max s = Ok n → 0 ≤ n ≤ max.
Proof.
  intros Hm. unfold parse_unsigned.
  destruct (as_bytes s) as [|b l]; [done|].
  repeat case_match; try done; apply parse_digits_range; lia.
Qed.

Lemma parse_u32_range s n : parse_u32 s = Ok n → is_u32 n.
Proof. intros H%parse_unsigned_range; unfold is_u32; lia. Qed.

(** ** [s.split(needle)], for a needle that is not empty *)

(** What follows the first occurrence of the needle. *)
Fixpoint after_first (needle s : string) : option string :=
  if String.prefix needle s
  then Some (String.substring (String.length needle) (String.length s - String.length needle) s)
  else match s with EmptyString => None | String _ s => after_first needle s end.
(** What precedes it, or the whole text. *)
Fixpoint before_first (needle s : string) : string :=
  if String.prefix needle s then ""
  else match s with EmptyString => "" | String c s => String c (before_first needle s) end.
(** [s.split(needle).nth(1)] *)
Definition split_second (needle s : string) : option string :=
  match after_first needle s with
  | Some rest => Some (before_first needle rest)
  | None => None
  end.

(** ** [anyhow::Error]: the chain of messages, outermost first *)

Definition anyhow_error := list string.
Definition anyhow {A} (msg : string) : result A anyhow_error := Err [msg].
(** [.with_context(|| msg)] *)
Definition with_context {A} (msg : string) (r : result A anyhow_error) : result A anyhow_error :=
  match r with Ok a => Ok a | Err e => Err (msg :: e) end.
(** An error of another type becomes the root of a chain. *)
Definition from_error {A E} (to_string : E → string) (r : result A E) : result A anyhow_error :=
  match r with Ok a => Ok a | Err e => Err [to_string e] end.

(** ** [SocketAddr::from_str] *)

Inductive SocketAddr :=
| V4 (octets : list Z) (port : Z)
| V6 (groups : list Z) (scope_id port : Z).

(** The parser works on the remaining bytes; a failed reading consumes nothing. *)
Definition parser (A : Type) : Type := list Z → option (A * list Z).

Definition read_given_char (c : Z) : parser unit := λ l,
  match l with b :: l => if b =? c then Some (tt, l) else None | [] => None end.

Definition to_digit (radix b : Z) : option Z :=
  let d := if (48 <=? b) && (b <=? 57) then b - 48
           else if (65 <=? b) && (b <=? 90) then b - 55
           else if (97 <=? b) && (b <=? 122) then b - 87 else 36 in
  if d <? radix then Some d else None.

(** The digits read: their number and value ([None]: beyond the maximum). *)
Fixpoint read_digits (radix max : Z) (count : nat) (acc : option Z) (l : list Z)
    : nat * option Z * list Z :=
  match l with
  | b :: l' =>
      match to_digit radix b with
      | Some d =>
          let acc := match acc with
                     | Some a => if a * radix + d <=? max then Some (a * radix + d) else None
                     | None => None
                     end in
          read_digits radix max (S count) acc l'
      | None => (count, acc, l)
      end
  | [] => (count, acc, l)
  end.
Definition read_number (radix : Z) (max_digits : option nat) (max : Z) (allow_zero_prefix : bool)
    : parser Z := λ l,
  let '(count, value, rest) := read_digits radix max 0 (Some 0) l in
  let leading_zero := match l with 48 :: _ => true | _ => false end in
  let too_long := match max_digits with Some m => (m <? count)%nat | None => false end in
  if too_long then None
  else if (count =? 0)%nat then None
  else if negb allow_zero_prefix && leading_zero && (1 <? count)%nat then None
  else match value with Some v => Some (v, rest) | None => None end.

(** The separator before every element but the first. *)
Definition read_separator {A} (sep : Z) (index : nat) (p : parser A) : parser A := λ l,
  match index with
  | O => p l
  | S _ => '(_, l) ← read_given_char sep l; p l
  end.

Definition read_octet : parser Z := read_number 10 (Some 3%nat) 255 false.
Definition read_ipv4_addr : parser (list Z) := λ l,
  '(a, l) ← read_octet l;
  '(b, l) ← read_separator 46 1 read_octet l;
  '(c, l) ← read_separator 46 2 read_octet l;
  '(d, l) ← read_separator 46 3 read_octet l;
  Some ([a; b; c; d], l).

Definition read_port : parser Z := λ l,
  '(_, l) ← read_given_char 58 l; read_number 10 None 65535 true l.

(** Up to [limit] groups; whether they end in an embedded IPv4 address. *)
Fixpoint read_groups (limit index : nat) (groups : list Z) (l : list Z)
    : list Z * bool * list Z :=
  match limit with
  | O => (groups, false, l)
  | S limit' =>
      let v4 := match limit' with
                | O => None
                | S _ => read_separator 58 index read_ipv4_addr l
                end in
      match v4 with
      | Some ([a; b; c; d], l) => (groups ++ [a * 256 + b; c * 256 + d], true, l)
      | _ =>
          match read_separator 58 index (read_number 16 (Some 4%nat) 65535 true) l with
          | Some (g, l) => read_groups limit' (S index) (groups ++ [g]) l
          | None => (groups, false, l)
          end
      end
  end.
Definition read_ipv6_addr : parser (list Z) := λ l,
  let '(head, head_ipv4, l) := read_groups 8 0 [] l in
  if (length head =? 8)%nat then Some (head, l)
  else if head_ipv4 : bool then None
  else
    '(_, l) ← read_given_char 58 l;
    '(_, l) ← read_given_char 58 l;
    let limit := (8 - (length head + 1))%nat in
    let '(tail, _, l) := read_groups limit 0 [] l in
    Some (head ++ replicate (8 - length head - length tail) 0 ++ tail, l).

Definition read_scope_id : parser Z := λ l,
  '(_, l) ← read_given_char 37 l; read_number 10 None (2 ^ 32 - 1) true l.

Definition read_socket_addr_v4 : parser SocketAddr := λ l,
  '(ip, l) ← read_ipv4_addr l;
  '(port, l) ← read_port l;
  Some (V4 ip port, l).
Definition read_socket_addr_v6 : parser SocketAddr := λ l,
  '(_, l) ← read_given_char 91 l;
  '(ip, l) ← read_ipv6_addr l;
  let '(scope, l) := match read_scope_id l with Some r => r | None => (0, l) end in
  '(_, l) ← read_given_char 93 l;
  '(port, l) ← read_port l;
  Some (V6 ip scope port, l).

(** The whole text must be read. *)
Definition socket_addr_from_str (s : string) : result SocketAddr string :=
  let l := as_bytes s in
  let r := match read_socket_addr_v4 l with Some r => Some r | None => read_socket_addr_v6 l end in
  match r with
  | Some (a, []) => Ok a
  | _ => Err "invalid socket address syntax"%string
  end.

Example parsed_v4 : socket_addr_from_str "0.0.0.0:4840" = Ok (V4 [0; 0; 0; 0] 4840).
Proof. reflexivity. Qed.
Example parsed_v6 :
  socket_addr_from_str "[fe80::1%3]:4840" = Ok (V6 [65152; 0; 0; 0; 0; 0; 0; 1] 3 4840).
Proof. reflexivity. Qed.
Example rejected :
  (λ s, is_ok (socket_addr_from_str s)) <$>
    ["localhost:4840"; "01.0.0.1:4840"; "1.2.3.256:1"; "1.2.3.4:65536"; "::1:4840"; "1.2.3:4"]%string
  = replicate 6 false.
Proof. reflexivity. Qed.

(** A text that starts neither with a digit nor with a bracket is no socket address. *)
Lemma socket_addr_not_name s b l :
  as_bytes s = b :: l → digit_of b = None → b ≠ 91 →
  socket_addr_from_str s = Err "invalid socket address syntax"%string.
Proof.
  intros Hs Hd Hb. unfold socket_addr_from_str. rewrite Hs.
  assert (to_digit 10 b = None) as Hdig.
  { unfold digit_of in Hd. unfold to_digit. destruct (_ && _); [done|].
    repeat case_match; bool_to_prop; lia || done. }
  unfold read_socket_addr_v4, read_ipv4_addr, read_octet, read_number. cbn [read_digits].
  rewrite Hdig. cbn.
  unfold read_socket_addr_v6, read_given_char. by rewrite (proj2 (Z.eqb_neq b 91)).
Qed.
