(* ===== verification/Ranges.v ===== *)
(** * Address ranges: overlap, groups and chunks

    What the read plans of the two drivers have in common: a mapping occupies a range
    of addresses; validation compares neighbours in address order; mappings are put
    together in groups whose range they tile; a range is read in consecutive chunks; a
    write changes a range of the memory. *)

From stdpp Require Import base tactics numbers list sorting.
From S2P Require Import Prelude RustMap.
Local Open Scope Z_scope.

Lemma StronglySorted_snoc_iff {A} (R : A → A → Prop) l x :
  StronglySorted R (l ++ [x]) ↔ StronglySorted R l ∧ Forall (λ y, R y x) l.
Proof.
  induction l as [|y l IH]; simpl.
  - split; [by repeat constructor|intros; by repeat constructor].
  - rewrite !StronglySorted_cons, IH, Forall_app, !Forall_cons, Forall_nil. tauto.
Qed.

Section ranges.
(** [x] occupies [len x] addresses from [start x] on, below [top]. *)
Context {A : Type} (start len : A → Z) (top : Z).

Definition occupies (x : A) (a : Z) : Prop := start x ≤ a < start x + len x.
Definition disjoint (x y : A) : Prop :=
  start x + len x ≤ start y ∨ start y + len y ≤ start x.
Definition fits (x : A) : Prop := 0 ≤ start x ∧ 1 ≤ len x ∧ start x + len x ≤ top.

(** As [fits], but a range may be empty at the top. *)
Definition below (x : A) : Prop := 0 ≤ len x ∧ start x + len x ≤ top ∧ (len x = 0 → start x = top).
Lemma fits_below x : fits x → below x.
Proof. unfold fits, below. lia. Qed.

#[export] Instance disjoint_symmetric : Symmetric disjoint.
Proof. unfold disjoint. intros x y []; [by right|by left]. Qed.

(** Non-empty ranges are disjoint when they share no address. *)
Lemma disjoint_no_common x y :
  1 ≤ len x → 1 ≤ len y → disjoint x y ↔ ¬ ∃ a, occupies x a ∧ occupies y a.
Proof.
  intros Hx Hy. unfold disjoint, occupies. split.
  - intros Hd (a & ? & ?). lia.
  - intros Hn.
    destruct (Z_lt_le_dec (start y) (start x + len x)); [|by left].
    destruct (Z_lt_le_dec (start x) (start y + len y)); [|by right].
    destruct Hn. exists (Z.max (start x) (start y)). lia.
Qed.

(** In address order, comparing neighbours compares all pairs. *)
Fixpoint apart (l : list A) : Prop :=
  match l with
  | x :: (y :: _) as rest => start x + len x ≤ start y ∧ apart rest
  | _ => True
  end.

Lemma apart_pairwise_below l :
  Forall below l → StronglySorted (λ x y, start x ≤ start y) l →
  apart l ↔ pairwise disjoint l.
Proof.
  intros Hf Hs. induction Hs as [|x rest Hs IH Hx]; [done|].
  apply Forall_cons in Hf as [Hfx Hf]. specialize (IH Hf).
  destruct rest as [|y rest]; [by simpl|].
  change (start x + len x ≤ start y ∧ apart (y :: rest) ↔
          Forall (disjoint x) (y :: rest) ∧ pairwise disjoint (y :: rest)).
  rewrite IH. pose proof (Forall_inv Hx) as Hxy. pose proof (Forall_inv Hf) as Hfy.
  apply StronglySorted_cons in Hs as [Hy Hs]. simpl in *. unfold below in *. split.
  - intros [Hle Hp]. split; [|done]. constructor; [by left|].
    eapply Forall_impl; [exact Hy|]. intros z Hz. left. simpl in Hz. lia.
  - intros [Hd Hp]. split; [|done]. apply Forall_inv in Hd. unfold disjoint in Hd. lia.
Qed.
Lemma apart_pairwise l :
  Forall fits l → StronglySorted (λ x y, start x ≤ start y) l →
  apart l ↔ pairwise disjoint l.
Proof. intros Hf. apply apart_pairwise_below. eapply Forall_impl; [exact Hf|apply fits_below]. Qed.

(** ** Tilings *)

(** The ranges of [l] follow one another from [a] to [b]. *)
Fixpoint tiles (a : Z) (l : list A) (b : Z) : Prop :=
  match l with
  | [] => a = b
  | x :: l => start x = a ∧ tiles (a + len x) l b
  end.

Lemma tiles_snoc a l x b :
  tiles a l (start x) → b = start x + len x → tiles a (l ++ [x]) b.
Proof.
  intros Ht ->. revert a Ht. induction l as [|y l IH]; intros a; simpl; [by intros ->|].
  intros [-> ?]. auto.
Qed.

Lemma tiles_end a l b : tiles a l b → Forall (λ x, 0 ≤ len x) l → a ≤ b.
Proof.
  revert a. induction l as [|x l IH]; intros a; simpl; [lia|].
  intros [<- Ht] [Hx Hl]%Forall_cons. specialize (IH _ Ht Hl). lia.
Qed.

Lemma tiles_elem a l b x :
  tiles a l b → Forall (λ x, 0 ≤ len x) l → x ∈ l → a ≤ start x ∧ start x + len x ≤ b.
Proof.
  revert a. induction l as [|y l IH]; intros a; simpl; [by intros _ _ ?%not_elem_of_nil|].
  intros [<- Ht] [Hy Hl]%Forall_cons. pose proof (tiles_end _ _ _ Ht Hl).
  intros [->|Hx]%elem_of_cons; [lia|]. specialize (IH _ Ht Hl Hx). lia.
Qed.

(** Every address of the range belongs to a member. *)
Lemma tiles_cover a l b z :
  tiles a l b → a ≤ z < b → ∃ x, x ∈ l ∧ occupies x z.
Proof.
  revert a. induction l as [|x l IH]; intros a; simpl; [intros ->; lia|].
  intros [<- Ht] Hz.
  destruct (decide (z < start x + len x)).
  - exists x. split; [left|]. unfold occupies. lia.
  - destruct (IH _ Ht ltac:(lia)) as (y & ? & ?). exists y. split; [by right|done].
Qed.

(** ** Groups *)

Section groups.
Context {G : Type} (gstart glen : G → Z) (members : G → list A).

(** A group reads the range its members tile. *)
Definition group_tiles (g : G) : Prop :=
  members g ≠ [] ∧ 0 ≤ gstart g ∧ 1 ≤ glen g ∧ gstart g + glen g ≤ top ∧
  tiles (gstart g) (members g) (gstart g + glen g).

(** What the grouping of an ordered list of disjoint ranges establishes. *)
Record grouped (l : list A) (gs : list G) : Prop := {
  (** no range is lost, added or moved *)
  grouped_members : concat (members <$> gs) = l;
  grouped_tiles : Forall group_tiles gs;
  (** between two groups there is a gap: the groups are maximal *)
  grouped_gaps : StronglySorted (λ g h, gstart g + glen g < gstart h) gs;
}.

Lemma grouped_elem l gs x :
  grouped l gs → x ∈ l ↔ ∃ g, g ∈ gs ∧ x ∈ members g.
Proof.
  intros [Hm _ _]. rewrite <- Hm, elem_of_concat. split.
  - intros (ms & Hx & (g & -> & Hg)%list_elem_of_fmap). eauto.
  - intros (g & Hg & Hx). eexists. split; [done|]. by apply list_elem_of_fmap_2.
Qed.

Lemma grouped_range l gs g x :
  grouped l gs → Forall fits l → g ∈ gs → x ∈ members g →
  gstart g ≤ start x ∧ start x + len x ≤ gstart g + glen g.
Proof.
  intros Hgr Hf Hg Hx. pose proof (grouped_tiles _ _ Hgr) as Ht.
  rewrite Forall_forall in Ht. destruct (Ht g Hg) as (_ & _ & _ & _ & Htl).
  apply (tiles_elem _ _ _ x) in Htl; [lia| |done].
  apply Forall_forall. intros y Hy. rewrite Forall_forall in Hf.
  destruct (Hf y) as (_ & ? & _); [|lia]. apply (grouped_elem l gs); eauto.
Qed.

(** A range is in one group only. *)
Lemma grouped_unique l gs g h x :
  grouped l gs → Forall fits l → g ∈ gs → h ∈ gs → x ∈ members g → x ∈ members h → g = h.
Proof.
  intros Hgr Hf Hg Hh Hx Hx'.
  assert (fits x) as (_ & Hlen & _).
  { rewrite Forall_forall in Hf. apply Hf, (grouped_elem l gs); eauto. }
  pose proof (grouped_range l gs g x Hgr Hf Hg Hx).
  pose proof (grouped_range l gs h x Hgr Hf Hh Hx').
  pose proof (grouped_gaps _ _ Hgr) as Hgap.
  apply list_elem_of_lookup in Hg as [i Hi]. apply list_elem_of_lookup in Hh as [j Hj].
  destruct (lt_eq_lt_dec i j) as [[Hij|Hij]|Hij].
  - pose proof (StronglySorted_lookup _ _ _ _ _ _ Hgap Hi Hj Hij) as Hlt. simpl in Hlt. lia.
  - subst. congruence.
  - pose proof (StronglySorted_lookup _ _ _ _ _ _ Hgap Hj Hi Hij) as Hlt. simpl in Hlt. lia.
Qed.
End groups.
End ranges.

(** ** Chunks *)

(** Consecutive chunks from [a] to [b]. *)
Fixpoint chain (a : Z) (cs : list (Z * Z)) (b : Z) : Prop :=
  match cs with
  | [] => a = b
  | (s, q) :: cs => s = a ∧ chain (a + q) cs b
  end.

Lemma chain_end a cs b : chain a cs b → Forall (λ c, 0 ≤ c.2) cs → a ≤ b.
Proof.
  revert a. induction cs as [|[s q] cs IH]; intros a; simpl; [lia|].
  intros [-> Hc] [Hq Hcs]%Forall_cons. specialize (IH _ Hc Hcs). simpl in *. lia.
Qed.

Lemma chain_bounds a cs b :
  chain a cs b → Forall (λ c, 0 ≤ c.2) cs → Forall (λ c, a ≤ c.1 ∧ c.1 + c.2 ≤ b) cs.
Proof.
  revert a. induction cs as [|[s q] cs IH]; intros a; simpl; [by constructor|].
  intros [-> Hc] [Hq Hcs]%Forall_cons. pose proof (chain_end _ _ _ Hc Hcs). simpl in *.
  constructor; [simpl; lia|]. eapply Forall_impl; [by apply IH|]. simpl. intros c. lia.
Qed.

Lemma chain_sorted a cs b :
  chain a cs b → Forall (λ c, 0 ≤ c.2) cs → StronglySorted (λ c d, c.1 + c.2 ≤ d.1) cs.
Proof.
  revert a. induction cs as [|[s q] cs IH]; intros a; simpl; [by constructor|].
  intros [-> Hc] [Hq Hcs]%Forall_cons. constructor; [by eapply IH|].
  eapply Forall_impl; [by eapply chain_bounds|]. simpl. intros c. lia.
Qed.

Lemma chain_cover a cs b z :
  chain a cs b → a ≤ z < b → ∃ c, c ∈ cs ∧ c.1 ≤ z < c.1 + c.2.
Proof.
  revert a. induction cs as [|[s q] cs IH]; intros a; simpl; [lia|].
  intros [-> Hc] Hz. destruct (decide (z < a + q)).
  - exists (a, q). split; [left|]. simpl. lia.
  - destruct (IH _ Hc ltac:(lia)) as (c & ? & ?). exists c. split; [by right|done].
Qed.

(** Lists built from an ordered list, each part ordered. *)
Lemma StronglySorted_concat_fmap {X Y} (RX : X → X → Prop) (R : Y → Y → Prop)
    (f : X → list Y) (l : list X) :
  StronglySorted RX l → (∀ x, x ∈ l → StronglySorted R (f x)) →
  (∀ x x' y y', x ∈ l → x' ∈ l → RX x x' → y ∈ f x → y' ∈ f x' → R y y') →
  StronglySorted R (concat (f <$> l)).
Proof.
  induction 1 as [|x l Hs IH Hx]; intros Hf Hc; simpl; [constructor|].
  apply StronglySorted_app_2.
  - intros y y' Hy (ys & Hy' & (x' & -> & Hx')%list_elem_of_fmap)%elem_of_concat.
    rewrite Forall_forall in Hx. apply (Hc x x'); [by left|by right|auto..].
  - apply Hf. by left.
  - apply IH.
    + intros x' Hx'. apply Hf. by right.
    + intros x1 x2 y1 y2 H1 H2. apply Hc; by right.
Qed.

(** The fewest chunks of at most [max] that make up [rem]. *)
Lemma div_up_step rem max :
  1 ≤ rem → 1 ≤ max → 1 + (rem - Z.min rem max + max - 1) / max = (rem + max - 1) / max.
Proof.
  intros. destruct (decide (rem ≤ max)).
  - rewrite Z.min_l, Z.sub_diag by lia. rewrite Z.div_small by lia.
    assert (rem + max - 1 = 1 * max + (rem - 1)) as -> by lia.
    rewrite Z.div_add_l, Z.div_small by lia. lia.
  - rewrite Z.min_r by lia.
    replace (rem + max - 1) with (rem - max + max - 1 + 1 * max) by lia.
    rewrite Z.div_add by lia. lia.
Qed.

(** A slice of the memory. *)
Lemma take_drop_seqZ (f : Z → Z) a n b k :
  a ≤ b → 0 ≤ k → b + k ≤ a + n →
  take (Z.to_nat k) (drop (Z.to_nat (b - a)) (f <$> seqZ a n)) = f <$> seqZ b k.
Proof.
  intros. apply list_eq. intros i.
  destruct (decide (Z.of_nat i < k)).
  - rewrite lookup_take_lt, lookup_drop, !list_lookup_fmap by lia.
    rewrite !lookup_seqZ_lt by lia. simpl. f_equal. f_equal. lia.
  - rewrite lookup_take_ge by lia. symmetry. apply lookup_ge_None.
    rewrite length_fmap, length_seqZ. lia.
Qed.

(** A memory with several areas, after a write of words. *)
Definition stored {K} `{EqDecision K} (area : K) (a : Z) (ws : list Z) (mem : K → Z → Z) : K → Z → Z :=
  λ ar x, if decide (ar = area ∧ a ≤ x) then default (mem ar x) (ws !! Z.to_nat (x - a)) else mem ar x.

Lemma stored_range {K} `{EqDecision K} (area : K) a ws mem :
  stored area a ws mem area <$> seqZ a (Z.of_nat (length ws)) = ws.
Proof.
  apply list_eq. intros i. rewrite list_lookup_fmap.
  destruct (decide (i < length ws)%nat) as [Hi|Hi].
  - rewrite lookup_seqZ_lt by lia. simpl. unfold stored. rewrite decide_True by (split; [done|lia]).
    replace (Z.to_nat (a + Z.of_nat i - a)) with i by lia.
    destruct (lookup_lt_is_Some_2 ws i Hi) as [x ->]. done.
  - rewrite lookup_seqZ_ge by lia. simpl. symmetry. apply lookup_ge_None_2. lia.
Qed.
