(* ===== verification/Crates.v ===== *)
(** * Third-party crates, as interfaces

    Code that is not in the repository is never defined here.  What the bridge
    calls of a crate is a class whose operations are parameters of the model and
    whose laws are the documented behaviour the bridge relies on.  The definitions
    of the other files are written against these classes; [CratesRef] gives
    concrete instances, on which the witnesses of the theorems are evaluated. *)

From stdpp Require Import base tactics numbers list gmap strings.
From S2P Require Import Prelude RustStd.
Local Open Scope Z_scope.

(** ** [chrono] *)

(** [DateTime<Utc>] is opaque; a [TimeDelta] is its number of nanoseconds. *)
Class Chrono := {
  DateTimeUtc : Type;
  (** [a.signed_duration_since(b)] *)
  signed_duration_since : DateTimeUtc → DateTimeUtc → Z;
  (** [TimeDelta::milliseconds(ms)]; [None] is its panic. *)
  delta_milliseconds : Z → option Z;
  (** [dt.timestamp_millis()], an [i64] *)
  timestamp_millis : DateTimeUtc → Z;
  (** [DateTime::from_timestamp_millis(ms)] *)
  from_timestamp_millis : Z → option DateTimeUtc;
  (** [DateTime::UNIX_EPOCH] *)
  unix_epoch : DateTimeUtc;
  (** [DateTime::<Utc>::from(UNIX_EPOCH + Duration::from_millis(ms))]; [None] is
      the panic of the conversion on an instant [chrono] cannot represent. *)
  from_system_millis : Z → option DateTimeUtc;
  (** [DateTime::parse_from_rfc3339(s)] followed by [with_timezone(&Utc)] *)
  parse_from_rfc3339 : string → option DateTimeUtc;
  (** [dt.timestamp_nanos_opt()] and [DateTime::from_timestamp_nanos(ns)] *)
  timestamp_nanos_opt : DateTimeUtc → option Z;
  from_timestamp_nanos : Z → DateTimeUtc;

  delta_milliseconds_ok ms : - 2 ^ 63 < ms < 2 ^ 63 → delta_milliseconds ms = Some (ms * 1000000);
  timestamp_millis_i64 dt : is_i64 (timestamp_millis dt);
  (** The millisecond count of an instant is representable, and reading it back
      gives an instant of the same millisecond. *)
  from_timestamp_millis_of dt :
    ∃ dt', from_timestamp_millis (timestamp_millis dt) = Some dt' ∧
           timestamp_millis dt' = timestamp_millis dt;
  (** For instants from the epoch on, the [SystemTime] route agrees. *)
  from_system_millis_of ms dt :
    0 ≤ ms → from_timestamp_millis ms = Some dt → from_system_millis ms = Some dt;
  (** Millisecond counts beyond the signed range are far beyond the last year. *)
  from_system_millis_large ms : 2 ^ 63 ≤ ms → from_system_millis ms = None;
  (** Nanosecond counts round-trip. *)
  from_timestamp_nanos_of dt ns :
    timestamp_nanos_opt dt = Some ns → is_i64 ns ∧ from_timestamp_nanos ns = dt;
}.

(** ** [byteorder] *)

(** [ReadBytesExt]/[WriteBytesExt] in [BigEndian], over an in-memory cursor: the
    remaining bytes are the state, and a read that meets the end of the buffer
    returns its error ([None]) and never gives bytes back. *)
Class ByteOrder := {
  read_u16 : list Z → option Z * list Z;
  read_i16 : list Z → option Z * list Z;
  read_u32 : list Z → option Z * list Z;
  read_i32 : list Z → option Z * list Z;
  read_u64 : list Z → option Z * list Z;
  read_i64 : list Z → option Z * list Z;
  (** [write_u16] appends to a [Vec<u8>]. *)
  write_u16 : list Z → Z → list Z;

  read_u16_ok a b l : read_u16 (a :: b :: l) = (Some (be_value [a; b]), l);
  read_i16_ok a b l : read_i16 (a :: b :: l) = (Some (as_i16 (be_value [a; b])), l);
  read_u32_ok a b c d l : read_u32 (a :: b :: c :: d :: l) = (Some (be_value [a; b; c; d]), l);
  read_i32_ok a b c d l :
    read_i32 (a :: b :: c :: d :: l) = (Some (as_i32 (be_value [a; b; c; d])), l);
  read_u64_ok a b c d e f g h l :
    read_u64 (a :: b :: c :: d :: e :: f :: g :: h :: l)
    = (Some (be_value [a; b; c; d; e; f; g; h]), l);
  read_i64_ok a b c d e f g h l :
    read_i64 (a :: b :: c :: d :: e :: f :: g :: h :: l)
    = (Some (as_i64 (be_value [a; b; c; d; e; f; g; h])), l);
  read_u16_eof l : (length l < 2)%nat → ∃ r, read_u16 l = (None, r) ∧ (length r ≤ length l)%nat;
  read_i16_eof l : (length l < 2)%nat → (read_i16 l).1 = None;
  write_u16_ok l w : write_u16 l w = l ++ [hi_byte w; lo_byte w];
}.

(** ** [bytes] *)

(** [BufMut] on a [BytesMut]: appending a slice and a big-endian [u32]. *)
Class Bytes := {
  put_slice : list Z → list Z → list Z;
  put_u32 : list Z → Z → list Z;
  put_slice_ok buf l : put_slice buf l = buf ++ l;
  put_u32_ok buf n :
    put_u32 buf n =
    buf ++ [hi_byte (word_at n 16); lo_byte (word_at n 16); hi_byte (word_at n 0); lo_byte (word_at n 0)];
}.

(** ** [serde_json] *)

(** The JSON values the bridge builds for health events. *)
Class SerdeJson := {
  JsonValue : Type;
  JNull : JsonValue;
  JString : string → JsonValue;
  (** An object from its entries, in insertion order. *)
  JObject : list (string * JsonValue) → JsonValue;
  (** [v.get(key).and_then(|v| v.as_str())] *)
  json_get_str : JsonValue → string → option string;
  json_get_str_ok entries k s :
    NoDup entries.*1 → (k, JString s) ∈ entries → json_get_str (JObject entries) k = Some s;
}.
