(* ===== verification/CratesRef.v ===== *)
(** * Concrete instances of the crates' interfaces

    Each class of [Crates] has an instance here, whose laws are proved: the
    hypotheses the development makes about third-party code can hold, and the
    witnesses of the theorems are evaluated on these instances.  They are plain
    definitions; no other file resolves them implicitly. *)

From stdpp Require Import base tactics numbers list gmap strings.
From S2P Require Import Prelude RustStd Crates.
Local Open Scope Z_scope.

(** ** [chrono]: an instant is a count of nanoseconds *)

(** The representable milliseconds, about 262000 years around the epoch. *)
Definition max_ms : Z := 8210266876799999.
Definition clamp_ms (z : Z) : Z := Z.max (- max_ms) (Z.min max_ms z).

Definition ref_from_millis (ms : Z) : option Z :=
  if (- max_ms <=? ms) && (ms <=? max_ms) then Some (ms * 1000000) else None.

Lemma ref_from_millis_of dt :
  ∃ dt', ref_from_millis (clamp_ms (dt / 1000000)) = Some dt' ∧
         clamp_ms (dt' / 1000000) = clamp_ms (dt / 1000000).
Proof.
  unfold ref_from_millis, clamp_ms, max_ms.
  rewrite (proj2 (Z.leb_le _ _)), (proj2 (Z.leb_le _ _)) by lia. simpl.
  eexists. split; [done|]. rewrite Z.div_mul by done. lia.
Qed.

Definition in_i64 (z : Z) : bool := (- 2 ^ 63 <=? z) && (z <? 2 ^ 63).

Lemma in_i64_spec z : in_i64 z = true ↔ is_i64 z.
Proof. unfold in_i64, is_i64. rewrite andb_true_iff, Z.leb_le, Z.ltb_lt. lia. Qed.

Program Definition chrono_ref : Chrono := {|
  DateTimeUtc := Z;
  signed_duration_since a b := a - b;
  delta_milliseconds ms :=
    if (- 2 ^ 63 <? ms) && (ms <? 2 ^ 63) then Some (ms * 1000000) else None;
  timestamp_millis dt := clamp_ms (dt / 1000000);
  from_timestamp_millis := ref_from_millis;
  unix_epoch := 0;
  from_system_millis := ref_from_millis;
  parse_from_rfc3339 s := if decide (s = "1970-01-01T00:00:00Z"%string) then Some 0 else None;
  timestamp_nanos_opt dt := if in_i64 dt then Some dt else None;
  from_timestamp_nanos ns := ns;
|}.
Next Obligation. intros ms [? ?]. cbn. by rewrite !(proj2 (Z.ltb_lt _ _)). Qed.
Next Obligation. intros dt. unfold is_i64, clamp_ms, max_ms. lia. Qed.
Next Obligation. intros dt. simpl. apply ref_from_millis_of. Qed.
Next Obligation. done. Qed.
Next Obligation.
  intros ms Hms. unfold ref_from_millis, max_ms. rewrite (proj2 (Z.leb_gt ms _)) by lia.
  by rewrite andb_false_r.
Qed.
Next Obligation.
  intros dt ns. simpl. destruct (in_i64 dt) eqn:H; [|done].
  intros [= <-]. split; [by apply in_i64_spec|done].
Qed.

(** ** [byteorder] *)

Definition ref_read (n : nat) (conv : Z → Z) (l : list Z) : option Z * list Z :=
  if (n <=? length l)%nat then (Some (conv (be_value (take n l))), drop n l) else (None, []).

Program Definition byteorder_ref : ByteOrder := {|
  read_u16 := ref_read 2 id;
  read_i16 := ref_read 2 as_i16;
  read_u32 := ref_read 4 id;
  read_i32 := ref_read 4 as_i32;
  read_u64 := ref_read 8 id;
  read_i64 := ref_read 8 as_i64;
  write_u16 l w := l ++ [hi_byte w; lo_byte w];
|}.
Solve Obligations with done.
Next Obligation.
  intros l Hl. exists []. unfold ref_read.
  rewrite (proj2 (Nat.leb_gt _ _)) by done. split; [done|simpl; lia].
Qed.
Next Obligation. intros l Hl. unfold ref_read. by rewrite (proj2 (Nat.leb_gt _ _)). Qed.

(** ** [bytes] *)

Definition bytes_ref : Bytes := {|
  put_slice buf l := buf ++ l;
  put_u32 buf n := buf ++ [hi_byte (word_at n 16); lo_byte (word_at n 16);
                           hi_byte (word_at n 0); lo_byte (word_at n 0)];
  put_slice_ok _ _ := eq_refl;
  put_u32_ok _ _ := eq_refl;
|}.

(** ** [serde_json] *)

Inductive RefJson :=
| RNull
| RString (s : string)
| RObject (entries : list (string * RefJson)).

Fixpoint ref_assoc (k : string) (l : list (string * RefJson)) : option RefJson :=
  match l with
  | [] => None
  | (k', v) :: l => if decide (k = k') then Some v else ref_assoc k l
  end.

Definition ref_get_str (j : RefJson) (k : string) : option string :=
  match j with
  | RObject l => match ref_assoc k l with Some (RString s) => Some s | _ => None end
  | _ => None
  end.

Lemma ref_get_str_ok entries k s :
  NoDup entries.*1 → (k, RString s) ∈ entries → ref_get_str (RObject entries) k = Some s.
Proof.
  intros Hnd Hin. simpl. enough (ref_assoc k entries = Some (RString s)) as -> by done.
  induction entries as [|[k' v] l IH]; [by apply not_elem_of_nil in Hin|].
  simpl in *. apply NoDup_cons in Hnd as [Hk' Hnd].
  apply elem_of_cons in Hin as [[= <- <-]|Hin]; [by rewrite decide_True|].
  rewrite decide_False; [by apply IH|].
  intros ->. apply Hk'. apply list_elem_of_fmap. by exists (k', RString s).
Qed.

Definition json_ref : SerdeJson := {|
  JsonValue := RefJson;
  JNull := RNull;
  JString := RString;
  JObject := RObject;
  json_get_str := ref_get_str;
  json_get_str_ok := ref_get_str_ok;
|}.
