(* ===== verification/TagValue.v ===== *)
(** * Tag values, data types, byte orders and qualities

    Models core-model/src/tag_value.rs.  The in-place byte reordering loops are
    kept as loops over indices on a buffer, with the panic of an out-of-range
    [swap] as [None]; the reference they are compared with is structural. *)

From stdpp Require Import base tactics numbers list gmap strings.
From S2P Require Import Prelude RustStd RustStr Crates.
Local Open Scope Z_scope.

Module TagDataType.
(** Configuration-oriented type descriptor. *)
Inductive TagDataType :=
| Bool | Int16 | UInt16 | Int32 | UInt32 | Int64 | UInt64
| Float | Double | String | DateTime | ByteString.
#[export] Instance TagDataType_eq_dec : EqDecision TagDataType.
Proof. solve_decision. Defined.
End TagDataType.
Notation TagDataType := TagDataType.TagDataType.
#[export] Existing Instance TagDataType.TagDataType_eq_dec.

Module TagValue.
Section defs.
Context {C : Chrono}.

(** Runtime value of a tag.  A float is its IEEE bit pattern, which is what
    [to_bits]/[from_bits] move around; a [DateTime] is [chrono]'s. *)
Inductive TagValue :=
| Bool (v : bool)
| Int16 (v : Z)
| UInt16 (v : Z)
| Int32 (v : Z)
| UInt32 (v : Z)
| Int64 (v : Z)
| UInt64 (v : Z)
| Float (bits : Z)
| Double (bits : Z)
| String (s : string)
| DateTime (dt : DateTimeUtc)
| ByteString (b : list Z).

(** [TagValue::data_type] *)
Definition data_type (v : TagValue) : TagDataType :=
  match v with
  | Bool _ => TagDataType.Bool
  | Int16 _ => TagDataType.Int16
  | UInt16 _ => TagDataType.UInt16
  | Int32 _ => TagDataType.Int32
  | UInt32 _ => TagDataType.UInt32
  | Int64 _ => TagDataType.Int64
  | UInt64 _ => TagDataType.UInt64
  | Float _ => TagDataType.Float
  | Double _ => TagDataType.Double
  | String _ => TagDataType.String
  | DateTime _ => TagDataType.DateTime
  | ByteString _ => TagDataType.ByteString
  end.

(** [TagValue::matches] *)
Definition matches (v : TagValue) (expected : TagDataType) : bool :=
  bool_decide (data_type v = expected).

(** The values Rust's types can hold. *)
Definition wf (v : TagValue) : Prop :=
  match v with
  | Bool _ | DateTime _ => True
  | Int16 v => is_i16 v
  | UInt16 v => is_u16 v
  | Int32 v => is_i32 v
  | UInt32 v => is_u32 v
  | Int64 v => is_i64 v
  | UInt64 v => is_u64 v
  | Float bits => is_u32 bits
  | Double bits => is_u64 bits
  | String s => utf8_valid (as_bytes s) = true
  | ByteString b => is_bytes b
  end.
#[global] Instance TagValue_wf_dec v : Decision (wf v).
Proof. destruct v; simpl; try apply _; unfold is_bytes; apply _. Defined.
End defs.
Arguments TagValue : clear implicits.
Arguments TagValue {_}.
End TagValue.
Notation TagValue := TagValue.TagValue.

Module TagQuality.
(** Quality of a tag's value. *)
Inductive TagQuality :=
| Good
| Initializing
| Stale
| CommLost
| ConfigError
| TypeMismatch
| Substitute
| Error (msg : string).
#[export] Instance TagQuality_eq_dec : EqDecision TagQuality.
Proof. solve_decision. Defined.
(** [#[default]] *)
Definition default : TagQuality := Initializing.
End TagQuality.
Notation TagQuality := TagQuality.TagQuality.
#[export] Existing Instance TagQuality.TagQuality_eq_dec.

Module WordOrder.
(** Byte/word order used when several 16-bit registers form one value. *)
Inductive WordOrder := ABCD | BADC | CDAB | DCBA.
#[export] Instance WordOrder_eq_dec : EqDecision WordOrder.
Proof. solve_decision. Defined.
(** [#[default]] *)
Definition default : WordOrder := ABCD.

(** [bytes.swap(i, j)]; [None] is the panic on an index out of range. *)
Definition slice_swap (i j : nat) (bytes : list Z) : option (list Z) :=
  a ← bytes !! i; b ← bytes !! j; Some (<[j := a]> (<[i := b]> bytes)).

(** [while i + 1 < len { bytes.swap(i, i + 1); i += 2 }] *)
Fixpoint swap_bytes_in_words_from (fuel i : nat) (bytes : list Z) : option (list Z) :=
  match fuel with
  | O => Some bytes
  | S fuel =>
      if (i + 1 <? length bytes)%nat then
        bytes ← slice_swap i (i + 1) bytes;
        swap_bytes_in_words_from fuel (i + 2) bytes
      else Some bytes
  end.
Definition swap_bytes_in_words (bytes : list Z) : option (list Z) :=
  swap_bytes_in_words_from (length bytes) 0 bytes.

(** [while i + 3 < len { swap(i, i + 2); swap(i + 1, i + 3); i += 4 }] *)
Fixpoint swap_word_pairs_from (fuel i : nat) (bytes : list Z) : option (list Z) :=
  match fuel with
  | O => Some bytes
  | S fuel =>
      if (i + 3 <? length bytes)%nat then
        bytes ← slice_swap i (i + 2) bytes;
        bytes ← slice_swap (i + 1) (i + 3) bytes;
        swap_word_pairs_from fuel (i + 4) bytes
      else Some bytes
  end.
Definition swap_word_pairs_in_4byte_chunks (bytes : list Z) : option (list Z) :=
  swap_word_pairs_from (length bytes) 0 bytes.

(** [while i + 3 < len { swap(i, i + 3); swap(i + 1, i + 2); i += 4 }], then the
    two-byte remainder. *)
Fixpoint reverse_chunks_from (fuel i : nat) (bytes : list Z) : option (list Z) :=
  match fuel with
  | O => Some bytes
  | S fuel =>
      if (i + 3 <? length bytes)%nat then
        bytes ← slice_swap i (i + 3) bytes;
        bytes ← slice_swap (i + 1) (i + 2) bytes;
        reverse_chunks_from fuel (i + 4) bytes
      else Some bytes
  end.
Definition reverse_bytes_in_4byte_chunks (bytes : list Z) : option (list Z) :=
  let len := length bytes in
  bytes ← reverse_chunks_from len 0 bytes;
  if (2 <=? len mod 4)%nat then
    let rem_start := (len - len mod 4)%nat in
    if (rem_start + 1 <? len)%nat then slice_swap rem_start (rem_start + 1) bytes
    else Some bytes
  else Some bytes.

(** [WordOrder::apply_to_bytes] *)
Definition apply_to_bytes (order : WordOrder) (bytes : list Z) : option (list Z) :=
  match order with
  | ABCD => Some bytes
  | BADC => swap_bytes_in_words bytes
  | CDAB => swap_word_pairs_in_4byte_chunks bytes
  | DCBA => reverse_bytes_in_4byte_chunks bytes
  end.

(** ** Reference: the reordering, read off the structure of the buffer *)

Fixpoint swap_words_spec (l : list Z) : list Z :=
  match l with a :: b :: r => b :: a :: swap_words_spec r | _ => l end.

Fixpoint swap_pairs_spec (l : list Z) : list Z :=
  match l with a :: b :: c :: d :: r => c :: d :: a :: b :: swap_pairs_spec r | _ => l end.

Fixpoint reverse_chunks_spec (l : list Z) : list Z :=
  match l with
  | a :: b :: c :: d :: r => d :: c :: b :: a :: reverse_chunks_spec r
  | a :: b :: r => b :: a :: r
  | _ => l
  end.

Definition order_spec (order : WordOrder) (l : list Z) : list Z :=
  match order with
  | ABCD => l
  | BADC => swap_words_spec l
  | CDAB => swap_pairs_spec l
  | DCBA => reverse_chunks_spec l
  end.

(** ** The loops never panic and compute the reference *)

Lemma slice_swap_app pre l i j :
  slice_swap (length pre + i) (length pre + j) (pre ++ l)
  = (λ r, pre ++ r) <$> slice_swap i j l.
Proof.
  unfold slice_swap. rewrite !lookup_app_r by lia.
  replace (length pre + i - length pre)%nat with i by lia.
  replace (length pre + j - length pre)%nat with j by lia.
  destruct (l !! i) as [a|]; [|done]. simpl. destruct (l !! j) as [b|]; [|done]. simpl.
  by rewrite !insert_app_r.
Qed.

(** A swap that is the first one of the part of the buffer after [pre]. *)
Ltac swap_after pre :=
  match goal with
  | |- context [slice_swap (length pre + ?i) (length pre + ?j) _] =>
      rewrite (slice_swap_app pre _ i j); simpl
  | |- context [slice_swap (length pre) (length pre + ?j) _] =>
      rewrite <- (Nat.add_0_r (length pre)) at 1;
      rewrite (slice_swap_app pre _ 0 j); simpl
  end.

Lemma swap_bytes_in_words_from_stop fuel i bytes :
  (length bytes ≤ i + 1)%nat → swap_bytes_in_words_from fuel i bytes = Some bytes.
Proof. intros. destruct fuel; simpl; [done|]. by rewrite (proj2 (Nat.ltb_ge _ _)). Qed.

Lemma swap_bytes_in_words_from_spec fuel pre l :
  (length l ≤ fuel)%nat →
  swap_bytes_in_words_from fuel (length pre) (pre ++ l) = Some (pre ++ swap_words_spec l).
Proof.
  revert fuel pre. induction l as [|a|a b l IH] using list_two_ind; intros fuel pre Hf.
  1,2: apply swap_bytes_in_words_from_stop; rewrite length_app; simpl; lia.
  destruct fuel as [|fuel]; simpl in *; [lia|].
  rewrite (proj2 (Nat.ltb_lt _ _)) by (rewrite length_app; simpl; lia).
  swap_after pre. specialize (IH fuel (pre ++ [b; a]) ltac:(lia)).
  rewrite length_app, <- !(assoc_L (++)) in IH. apply IH.
Qed.

Lemma swap_word_pairs_from_stop fuel i bytes :
  (length bytes ≤ i + 3)%nat → swap_word_pairs_from fuel i bytes = Some bytes.
Proof. intros. destruct fuel; simpl; [done|]. by rewrite (proj2 (Nat.ltb_ge _ _)). Qed.

Lemma swap_pairs_spec_short l : (length l < 4)%nat → swap_pairs_spec l = l.
Proof. destruct l as [|a [|b [|c [|d l]]]]; simpl; [done..|lia]. Qed.

Lemma swap_word_pairs_from_spec fuel pre l :
  (length l ≤ fuel)%nat →
  swap_word_pairs_from fuel (length pre) (pre ++ l) = Some (pre ++ swap_pairs_spec l).
Proof.
  revert fuel pre. induction l as [l Hl|a b c d l IH] using list_four_ind; intros fuel pre Hf.
  - rewrite swap_pairs_spec_short by done.
    apply swap_word_pairs_from_stop. rewrite length_app. lia.
  - destruct fuel as [|fuel]; simpl in *; [lia|].
    rewrite (proj2 (Nat.ltb_lt _ _)) by (rewrite length_app; simpl; lia).
    swap_after pre. swap_after pre.
    specialize (IH fuel (pre ++ [c; d; a; b]) ltac:(lia)).
    rewrite length_app, <- !(assoc_L (++)) in IH. apply IH.
Qed.

Lemma reverse_chunks_from_stop fuel i bytes :
  (length bytes ≤ i + 3)%nat → reverse_chunks_from fuel i bytes = Some bytes.
Proof. intros. destruct fuel; simpl; [done|]. by rewrite (proj2 (Nat.ltb_ge _ _)). Qed.

(** The chunks of four reversed, the remainder untouched. *)
Fixpoint reverse_full_chunks (l : list Z) : list Z :=
  match l with a :: b :: c :: d :: r => d :: c :: b :: a :: reverse_full_chunks r | _ => l end.

Lemma reverse_chunks_from_spec fuel pre l :
  (length l ≤ fuel)%nat →
  reverse_chunks_from fuel (length pre) (pre ++ l) = Some (pre ++ reverse_full_chunks l).
Proof.
  revert fuel pre. induction l as [l Hl|a b c d l IH] using list_four_ind; intros fuel pre Hf.
  - assert (reverse_full_chunks l = l) as ->
      by (destruct l as [|a [|b [|c [|d l]]]]; simpl in *; [done..|lia]).
    apply reverse_chunks_from_stop. rewrite length_app. lia.
  - destruct fuel as [|fuel]; simpl in *; [lia|].
    rewrite (proj2 (Nat.ltb_lt _ _)) by (rewrite length_app; simpl; lia).
    swap_after pre. swap_after pre.
    specialize (IH fuel (pre ++ [d; c; b; a]) ltac:(lia)).
    rewrite length_app, <- !(assoc_L (++)) in IH. apply IH.
Qed.

(** The two-byte remainder is swapped where it starts. *)
Lemma reverse_remainder l pre :
  (if (2 <=? length l mod 4)%nat then
     slice_swap (length pre + (length l - length l mod 4))
       (length pre + (length l - length l mod 4 + 1)) (pre ++ reverse_full_chunks l)
   else Some (pre ++ reverse_full_chunks l)) = Some (pre ++ reverse_chunks_spec l).
Proof.
  revert pre. induction l as [l Hl|a b c d l IH] using list_four_ind; intros pre.
  - destruct l as [|a [|b [|c [|d l]]]]; simpl in *; try done; try lia;
      by rewrite slice_swap_app.
  - replace (length (a :: b :: c :: d :: l)) with (length l + 1 * 4)%nat by (simpl; lia).
    rewrite Nat.Div0.mod_add.
    pose proof (Nat.Div0.mod_le (length l) 4).
    specialize (IH (pre ++ [d; c; b; a])).
    rewrite length_app, <- !(assoc_L (++)) in IH.
    change (length [d; c; b; a]) with 4%nat in IH.
    generalize dependent (length l mod 4)%nat. intros m IH Hm.
    replace (length pre + (length l + 1 * 4 - m))%nat
      with (length pre + 4 + (length l - m))%nat by lia.
    replace (length pre + (length l + 1 * 4 - m + 1))%nat
      with (length pre + 4 + (length l - m + 1))%nat by lia.
    apply IH.
Qed.

(** The implementation is the reference: no swap is out of range, the fuel (the
    length of the buffer) is enough, and the loops compute the structural spec. *)
Lemma apply_to_bytes_spec order l : apply_to_bytes order l = Some (order_spec order l).
Proof.
  destruct order; simpl; [done|..].
  - apply (swap_bytes_in_words_from_spec (length l) [] l). lia.
  - apply (swap_word_pairs_from_spec (length l) [] l). lia.
  - unfold reverse_bytes_in_4byte_chunks.
    pose proof (reverse_chunks_from_spec (length l) [] l ltac:(lia)) as Hc.
    change (reverse_chunks_from (length l) 0 l = Some (reverse_full_chunks l)) in Hc.
    rewrite Hc. pose proof (reverse_remainder l []) as Hr.
    change ([] ++ reverse_chunks_spec l) with (reverse_chunks_spec l) in Hr.
    rewrite <- Hr. cbn [length app Nat.add].
    change (Some (reverse_full_chunks l) ≫= ?f) with (f (reverse_full_chunks l)). cbv beta.
    destruct (Nat.leb_spec 2 (length l mod 4)); [|done].
    pose proof (Nat.Div0.mod_le (length l) 4).
    by rewrite (proj2 (Nat.ltb_lt _ _)) by lia.
Qed.

(** ** Properties of the reference *)

Lemma order_spec_involutive order l : order_spec order (order_spec order l) = l.
Proof.
  destruct order; simpl; [done|..].
  - induction l as [|a|a b l IH] using list_two_ind; simpl; by rewrite ?IH.
  - induction l as [l Hl|a b c d l IH] using list_four_ind; simpl; [|by rewrite IH].
    by rewrite !swap_pairs_spec_short by (rewrite ?swap_pairs_spec_short; done).
  - induction l as [l Hl|a b c d l IH] using list_four_ind; simpl; [|by rewrite IH].
    destruct l as [|a [|b [|c [|d l]]]]; simpl in *; [done..|lia].
Qed.

Lemma order_spec_perm order l : order_spec order l ≡ₚ l.
Proof.
  destruct order; simpl; [done|..].
  - induction l as [|a|a b l IH] using list_two_ind; simpl; [done..|].
    by rewrite IH, Permutation_swap.
  - induction l as [l Hl|a b c d l IH] using list_four_ind; simpl.
    + by rewrite swap_pairs_spec_short.
    + rewrite IH. solve_Permutation.
  - induction l as [l Hl|a b c d l IH] using list_four_ind; simpl.
    + destruct l as [|a [|b [|c [|d l]]]]; simpl in *; try done; try lia;
        by rewrite Permutation_swap.
    + rewrite IH. solve_Permutation.
Qed.

Lemma order_spec_length order l : length (order_spec order l) = length l.
Proof. by rewrite order_spec_perm. Qed.

Lemma order_spec_bytes order l : is_bytes l → is_bytes (order_spec order l).
Proof. unfold is_bytes. by rewrite order_spec_perm. Qed.

End WordOrder.
Notation WordOrder := WordOrder.WordOrder.
#[export] Existing Instance WordOrder.WordOrder_eq_dec.
#[export] Hint Resolve WordOrder.order_spec_bytes : bridge.
#[export] Hint Rewrite WordOrder.order_spec_length : bridge_len.
