(* ===== verification/Tag.v ===== *)
(** * Runtime tag state

    Models core-model/src/tag.rs.  Each call of [Utc::now()] is an argument [now]:
    the caller reads the clock.  [Arc<TagValue>] is the value itself, since the
    value behind the [Arc] is never mutated. *)

From stdpp Require Import base tactics numbers list gmap strings.
From S2P Require Import Prelude RustStd RustStr Crates TagValue.
Local Open Scope Z_scope.

Module Tag.
Section defs.
Context {C : Chrono}.

(** Runtime state for a tag. *)
Record Tag := mk {
  value : TagValue;
  quality : TagQuality;
  source_timestamp : DateTimeUtc;
  server_timestamp : DateTimeUtc;
}.

(** [Tag::new] *)
Definition new (v : TagValue) (now : DateTimeUtc) : Tag :=
  {| value := v; quality := TagQuality.Initializing;
     source_timestamp := now; server_timestamp := now |}.

(** [Tag::apply_read] *)
Definition apply_read (t : Tag) (v : TagValue) (q : TagQuality)
    (source_ts now : DateTimeUtc) : Tag :=
  {| value := v; quality := q; source_timestamp := source_ts; server_timestamp := now |}.

(** [Tag::set_quality] *)
Definition set_quality (t : Tag) (q : TagQuality) (now : DateTimeUtc) : Tag :=
  {| value := value t; quality := q;
     source_timestamp := source_timestamp t; server_timestamp := now |}.

(** [Tag::touch] *)
Definition touch (t : Tag) (now : DateTimeUtc) : Tag :=
  {| value := value t; quality := quality t;
     source_timestamp := source_timestamp t; server_timestamp := now |}.

(** [Tag::is_stale]: an age strictly above the timeout, or a source timestamp in
    the future. *)
Definition is_stale (t : Tag) (timeout : Z) (now : DateTimeUtc) : bool :=
  let d := signed_duration_since now (source_timestamp t) in
  if d <? 0 then true else timeout <? d.

(** With a non-negative timeout a tag is fresh exactly when its age is between
    zero and the timeout. *)
Lemma is_stale_false_iff t timeout now :
  is_stale t timeout now = false ↔
  0 ≤ signed_duration_since now (source_timestamp t) ≤ timeout.
Proof.
  unfold is_stale. cbv zeta.
  destruct (Z.ltb_spec (signed_duration_since now (source_timestamp t)) 0).
  - split; [done|lia].
  - rewrite Z.ltb_ge. lia.
Qed.
End defs.
Arguments Tag : clear implicits.
Arguments Tag {_}.
End Tag.
Notation Tag := Tag.Tag.
