(* ===== verification/TagDefinition.v ===== *)
(** * Tag definitions and their store

    Models core-model/src/error.rs, tag_definition.rs and tag_definition_store.rs.
    The [HashMap] of the store is a [gmap] with string keys. *)

From stdpp Require Import base tactics numbers list gmap strings sorting.
From S2P Require Import Prelude RustStd RustStr RustSlice Crates TagValue.

Module CoreError.
(** The error type of the core-model crate. *)
Inductive CoreError :=
| TagNotFound (id : string)
| DefinitionNotFound (id : string)
| TypeMismatch (id : string)
| InvalidConfig (msg : string)
| Internal (msg : string).
(** The [Display] of the errors ([#[error("...")]]). *)
Definition to_string (e : CoreError) : string :=
  match e with
  | TagNotFound s => "Tag not found: " +:+ s
  | DefinitionNotFound s => "Definition not found: " +:+ s
  | TypeMismatch s => "Type mismatch for tag " +:+ s
  | InvalidConfig s => "Invalid configuration: " +:+ s
  | Internal s => "Internal error: " +:+ s
  end.
End CoreError.
Notation CoreError := CoreError.CoreError.

Module TagDefinition.
Section defs.
Context {J : SerdeJson}.

(** Static metadata of a tag. *)
Record TagDefinition := mk {
  id : string;
  name : string;
  address : string;
  data_type : TagDataType;
  writable : bool;
  byte_order : WordOrder;
  stale_after_ms : option Z;
  metadata : option JsonValue;
  plc_name : string;
}.

(** [TagDefinition::new] *)
Definition new (id name address : string) (dt : TagDataType) (plc_name : string)
    : TagDefinition :=
  {| id := id; name := name; address := address; data_type := dt;
     writable := false; byte_order := WordOrder.default;
     stale_after_ms := None; metadata := None; plc_name := plc_name |}.

(** [TagDefinition::validate] *)
Definition validate (d : TagDefinition) : result unit CoreError :=
  if is_empty (trim (id d)) then
    Err (CoreError.InvalidConfig "TagDefinition.id is empty")
  else if is_empty (trim (name d)) then
    Err (CoreError.InvalidConfig
           ("TagDefinition.name is empty for id '" +:+ id d +:+ "'"))
  else if is_empty (trim (address d)) then
    Err (CoreError.InvalidConfig
           ("TagDefinition.address is empty for id '" +:+ id d +:+ "'"))
  else Ok tt.

Definition valid (d : TagDefinition) : bool :=
  negb (is_empty (trim (id d))) && negb (is_empty (trim (name d)))
  && negb (is_empty (trim (address d))).

Lemma validate_valid d : is_ok (validate d) = valid d.
Proof.
  unfold validate, valid.
  by destruct (is_empty (trim (id d))), (is_empty (trim (name d))),
    (is_empty (trim (address d))).
Qed.
End defs.
Arguments TagDefinition : clear implicits.
Arguments TagDefinition {_}.
End TagDefinition.
Notation TagDefinition := TagDefinition.TagDefinition.

Module TagDefinitionStore.
Section defs.
Context {J : SerdeJson}.

(** Read-only store, keyed by id. *)
Record TagDefinitionStore := mk { inner : gmap string TagDefinition }.

(** The loop of [TagDefinitionStore::from_definitions]. *)
Fixpoint insert_all (map : gmap string TagDefinition) (defs : list TagDefinition)
    : result (gmap string TagDefinition) CoreError :=
  match defs with
  | [] => Ok map
  | d :: defs =>
      let? _ := TagDefinition.validate d in
      match map !! TagDefinition.id d with
      | Some _ =>
          Err (CoreError.InvalidConfig
                 ("Duplicate TagDefinition id: " +:+ TagDefinition.id d))
      | None => insert_all (<[TagDefinition.id d := d]> map) defs
      end
  end.

(** [TagDefinitionStore::from_definitions] *)
Definition from_definitions (defs : list TagDefinition)
    : result TagDefinitionStore CoreError :=
  let? map := insert_all ∅ defs in Ok {| inner := map |}.

(** [len], [is_empty], [get], [contains] *)
Definition len (s : TagDefinitionStore) : nat := size (inner s).
Definition is_empty (s : TagDefinitionStore) : bool := bool_decide (len s = 0%nat).
Definition get (s : TagDefinitionStore) (id : string) : result TagDefinition CoreError :=
  match inner s !! id with
  | Some d => Ok d
  | None => Err (CoreError.DefinitionNotFound id)
  end.
Definition contains (s : TagDefinitionStore) (id : string) : bool :=
  bool_decide (is_Some (inner s !! id)).

(** [all_definitions_sorted]: the values, in the map's iteration order, sorted by
    id. *)
Definition all_definitions_sorted (s : TagDefinitionStore) : list TagDefinition :=
  sort_by_str TagDefinition.id (map_to_list (inner s)).*2.

(** Every definition is stored under its own id and passed [validate]. *)
Definition wf (s : TagDefinitionStore) : Prop :=
  map_Forall (λ k d, TagDefinition.id d = k ∧ TagDefinition.valid d = true) (inner s).

Lemma insert_all_spec map defs :
  match insert_all map defs with
  | Ok map' =>
      Forall (λ d, TagDefinition.valid d = true) defs ∧
      NoDup (TagDefinition.id <$> defs) ∧
      (∀ d, d ∈ defs → map !! TagDefinition.id d = None) ∧
      (∀ k, map' !! k = match map !! k with
                        | Some d => Some d
                        | None => head (filter (λ d, TagDefinition.id d = k) defs)
                        end)
  | Err e =>
      ∃ msg, e = CoreError.InvalidConfig msg ∧
      (¬ Forall (λ d, TagDefinition.valid d = true) defs ∨
       ¬ NoDup (TagDefinition.id <$> defs) ∨
       ∃ d, d ∈ defs ∧ is_Some (map !! TagDefinition.id d))
  end.
Proof.
  revert map. induction defs as [|d defs IH]; intros map; simpl.
  { repeat split; [constructor|constructor|by intros ? ?%not_elem_of_nil|].
    intros k. by destruct (map !! k). }
  pose proof (TagDefinition.validate_valid d) as Hv.
  destruct (TagDefinition.validate d) as [[]|e] eqn:Hd; simpl in Hv.
  2: { exists (match e with CoreError.InvalidConfig m => m | _ => "" end).
       split; [|left; intros [Hf _]%Forall_cons; congruence].
       unfold TagDefinition.validate in Hd.
       by repeat (case_match; simplify_eq). }
  destruct (map !! TagDefinition.id d) as [d0|] eqn:Hk.
  { eexists. split; [done|]. right; right. exists d. rewrite Hk. set_solver. }
  specialize (IH (<[TagDefinition.id d:=d]> map)).
  destruct (insert_all _ defs) as [map'|e].
  - destruct IH as (Hall & Hnd & Hfresh & Hlook).
    assert (∀ d', d' ∈ defs → TagDefinition.id d' ≠ TagDefinition.id d) as Hne.
    { intros d' Hin Heq. specialize (Hfresh d' Hin).
      by rewrite Heq, lookup_insert_eq in Hfresh. }
    split; [by constructor|]. split; [|split].
    + constructor; [|done]. intros (d' & Heq & Hin)%list_elem_of_fmap.
      by apply (Hne d').
    + intros d' [->|Hin]%elem_of_cons; [done|].
      specialize (Hfresh d' Hin). rewrite lookup_insert_ne in Hfresh; [done|].
      intros Heq. by apply (Hne d').
    + intros k. rewrite Hlook, filter_cons. case_decide as Heq; subst.
      * rewrite lookup_insert_eq. by rewrite Hk.
      * by rewrite lookup_insert_ne.
  - destruct IH as (msg & -> & Hor). exists msg. split; [done|].
    destruct Hor as [Hf|[Hf|(d' & Hin & Hs)]].
    + left. by intros [_ ?]%Forall_cons.
    + right; left. by intros [_ ?]%NoDup_cons.
    + destruct (decide (TagDefinition.id d' = TagDefinition.id d)) as [Heq|Hne].
      * right; left. simpl. intros [Hnin _]%NoDup_cons. apply Hnin.
        rewrite <- Heq. by apply list_elem_of_fmap_2.
      * right; right. exists d'. rewrite lookup_insert_ne in Hs by done. set_solver.
Qed.

Lemma from_definitions_wf defs s : from_definitions defs = Ok s → wf s.
Proof.
  unfold from_definitions. pose proof (insert_all_spec ∅ defs) as Hspec.
  destruct (insert_all ∅ defs) as [map|]; [|done]. intros ?; simplify_eq.
  destruct Hspec as (Hall & _ & _ & Hlook). intros k d Hk. simpl in *.
  rewrite Hlook, lookup_empty in Hk. apply head_Some_elem_of in Hk.
  apply list_elem_of_filter in Hk as [Hk Hin]. rewrite Forall_forall in Hall. auto.
Qed.

Lemma all_definitions_sorted_perm s :
  all_definitions_sorted s ≡ₚ (map_to_list (inner s)).*2.
Proof. apply sort_by_str_perm. Qed.

Lemma elem_of_all_definitions_sorted s d :
  wf s → d ∈ all_definitions_sorted s ↔ inner s !! TagDefinition.id d = Some d.
Proof.
  intros Hwf. rewrite all_definitions_sorted_perm, list_elem_of_fmap. split.
  - intros ([k d'] & -> & Hin%elem_of_map_to_list). simpl.
    by destruct (Hwf k d' Hin) as [-> _].
  - intros Hd. exists (TagDefinition.id d, d). by rewrite elem_of_map_to_list.
Qed.

(** The ids of the sorted list are strictly increasing: no id appears twice. *)
Lemma all_definitions_sorted_strict s :
  wf s → StronglySorted str_lt (TagDefinition.id <$> all_definitions_sorted s).
Proof.
  intros Hwf. apply StronglySorted_le_lt.
  - unfold all_definitions_sorted.
    pose proof (sort_by_str_sorted TagDefinition.id (map_to_list (inner s)).*2) as Hs.
    induction Hs as [|x l Hs IH Hx]; simpl; constructor; [done|]. by apply Forall_fmap.
  - rewrite all_definitions_sorted_perm.
    assert (TagDefinition.id <$> (map_to_list (inner s)).*2 = (map_to_list (inner s)).*1) as ->.
    { rewrite <- list_fmap_compose. apply list_fmap_ext. intros i [k d] Hi. simpl.
      apply list_elem_of_lookup_2, elem_of_map_to_list in Hi.
      by destruct (Hwf k d Hi). }
    apply NoDup_fst_map_to_list.
Qed.
End defs.
Arguments TagDefinitionStore : clear implicits.
Arguments TagDefinitionStore {_}.
End TagDefinitionStore.
Notation TagDefinitionStore := TagDefinitionStore.TagDefinitionStore.
