(* ===== verification/TagStore.v ===== *)
(** * The runtime tag store

    Models core-model/src/tag_store.rs.  A per-tag [ArcSwap<Tag>] holder is the
    tag it currently contains, at its index in [tags]; cloning a holder and storing
    through it is an update at that index.  An index out of bounds is a panic,
    written [None].  The operations below are the critical sections of the code:
    [insert] is split into its fast path (read lock) and its slow path (write
    lock), between which another thread may run.  *)

From stdpp Require Import base tactics numbers list gmap strings sorting.
From S2P Require Import Prelude RustStd RustStr RustSlice Crates TagValue Tag TagDefinition.

Module TagStore.
Section defs.
Context {C : Chrono}.

(** Event describing a tag change. *)
Record TagChange := mkChange { tag_id : string; tag : Tag }.

(** A subscriber's bounded channel: what is queued in it, and whether its receiver
    is still there. *)
Record Channel := mkChannel { queue : list TagChange; connected : bool }.

(** [Inner] *)
Record TagStore := mk {
  tags : list Tag;
  index : gmap string nat;
  sorted_ids : list string;
  subscribers : list Channel;
}.

(** [TagStore::new] *)
Definition new : TagStore :=
  {| tags := []; index := ∅; sorted_ids := []; subscribers := [] |}.

(** The bound of [sync_channel(128)]. *)
Definition channel_capacity : nat := 128.

(** [SyncSender::try_send] *)
Definition try_send (ch : Channel) (ev : TagChange) : Channel :=
  if connected ch then
    if (length (queue ch) <? channel_capacity)%nat
    then {| queue := queue ch ++ [ev]; connected := true |}
    else ch (* full: dropped with a warning *)
  else ch (* disconnected *).

(** [broadcast_change] and [broadcast_change_locked] *)
Definition broadcast_change (s : TagStore) (id : string) (t : Tag) : TagStore :=
  {| tags := tags s; index := index s; sorted_ids := sorted_ids s;
     subscribers :=
       (λ ch, try_send ch {| tag_id := id; tag := t |}) <$> subscribers s |}.

(** [handle.load_full()] and [handle.store(...)] on the holder at [idx]. *)
Definition load (s : TagStore) (idx : nat) : option Tag := tags s !! idx.
Definition store (s : TagStore) (idx : nat) (t : Tag) : TagStore :=
  {| tags := <[idx := t]> (tags s); index := index s; sorted_ids := sorted_ids s;
     subscribers := subscribers s |}.

(** The fast path of [insert]: [None] when the id is not there yet. *)
Definition insert_fast (s : TagStore) (id : string) (t : Tag) : option (option TagStore) :=
  match index s !! id with
  | Some idx =>
      _ ← load s idx;
      Some (Some (broadcast_change (store s idx t) id t))
  | None => Some None
  end.

(** [v.insert(pos, x)] *)
Definition vec_insert (pos : nat) (x : string) (l : list string) : option (list string) :=
  if (pos <=? length l)%nat then Some (take pos l ++ x :: drop pos l) else None.

(** The slow path of [insert], under the write lock. *)
Definition insert_slow (s : TagStore) (id : string) (t : Tag) : option TagStore :=
  match index s !! id with
  | Some idx => _ ← load s idx; Some (store s idx t)
  | None =>
      let idx := length (tags s) in
      let insert_pos :=
        match binary_search_by (λ a, String.compare a id) (sorted_ids s) with
        | Found pos => pos
        | NotFound pos => pos
        end in
      ids ← vec_insert insert_pos id (sorted_ids s);
      let s' := {| tags := tags s ++ [t]; index := <[id := idx]> (index s);
                   sorted_ids := ids; subscribers := subscribers s |} in
      t' ← load s' idx;
      Some (broadcast_change s' id t')
  end.

(** [TagStore::insert] with no other thread in between. *)
Definition insert (s : TagStore) (id : string) (t : Tag) : option TagStore :=
  r ← insert_fast s id t;
  match r with Some s' => Some s' | None => insert_slow s id t end.

(** [TagStore::get] *)
Definition get (s : TagStore) (id : string) : option (result Tag CoreError) :=
  match index s !! id with
  | Some idx => t ← load s idx; Some (Ok t)
  | None => Some (Err (CoreError.TagNotFound id))
  end.

(** [TagStore::subscribe]: the receiver is the position of its channel. *)
Definition subscribe (s : TagStore) : nat * TagStore :=
  (length (subscribers s),
   {| tags := tags s; index := index s; sorted_ids := sorted_ids s;
      subscribers := subscribers s ++ [{| queue := []; connected := true |}] |}).

(** [TagStore::update_value_with_expected] *)
Definition update_value_with_expected (s : TagStore) (id : string) (v : TagValue)
    (q : TagQuality) (source_ts : DateTimeUtc) (expected : TagDataType)
    (now : DateTimeUtc) : option (result Tag CoreError * TagStore) :=
  if negb (TagValue.matches v expected) then
    Some (Err (CoreError.TypeMismatch id), s)
  else
    match index s !! id with
    | None => Some (Err (CoreError.TagNotFound id), s)
    | Some idx =>
        current ← load s idx;
        let new_tag := Tag.apply_read current v q source_ts now in
        Some (Ok new_tag, broadcast_change (store s idx new_tag) id new_tag)
    end.

(** [TagStore::set_quality] *)
Definition set_quality (s : TagStore) (id : string) (q : TagQuality) (now : DateTimeUtc)
    : option (result unit CoreError * TagStore) :=
  match index s !! id with
  | None => Some (Err (CoreError.TagNotFound id), s)
  | Some idx =>
      current ← load s idx;
      let new_tag := Tag.set_quality current q now in
      Some (Ok tt, broadcast_change (store s idx new_tag) id new_tag)
  end.

(** [TagStore::list_ids_sorted] *)
Definition list_ids_sorted (s : TagStore) : list string := sorted_ids s.

(** [TagStore::try_update_with]: [f] mutates a clone, which is dropped when [f]
    fails. *)
Definition try_update_with {R} (s : TagStore) (id : string)
    (f : Tag → result R CoreError * Tag) (now : DateTimeUtc)
    : option (result R CoreError * TagStore) :=
  match index s !! id with
  | None => Some (Err (CoreError.TagNotFound id), s)
  | Some idx =>
      current ← load s idx;
      match f current with
      | (Err e, _) => Some (Err e, s)
      | (Ok res, t) =>
          let t := Tag.touch t now in
          Some (Ok res, broadcast_change (store s idx t) id t)
      end
  end.

(** [TagStore::len] and [TagStore::is_empty] *)
Definition len (s : TagStore) : nat := length (tags s).
Definition is_empty (s : TagStore) : bool := (len s =? 0)%nat.

(** ** Invariant *)

(** Every id has its own slot, every slot has an id, the cached id list is the
    strictly sorted list of the ids, and no channel holds more than its bound. *)
Record wf (s : TagStore) : Prop := {
  wf_range : ∀ id i, index s !! id = Some i → (i < length (tags s))%nat;
  wf_inj : ∀ id1 id2 i, index s !! id1 = Some i → index s !! id2 = Some i → id1 = id2;
  wf_size : size (index s) = length (tags s);
  wf_sorted : StronglySorted str_lt (sorted_ids s);
  wf_ids : ∀ id, id ∈ sorted_ids s ↔ is_Some (index s !! id);
  wf_bound : Forall (λ ch, (length (queue ch) ≤ channel_capacity)%nat) (subscribers s);
}.

(** ** Abstraction: the finite map from ids to tags *)

Definition view (s : TagStore) : gmap string Tag :=
  omap (λ i, tags s !! i) (index s).

Lemma view_lookup s id : view s !! id = i ← index s !! id; tags s !! i.
Proof. apply lookup_omap. Qed.

Lemma view_lookup_index s id i :
  index s !! id = Some i → view s !! id = tags s !! i.
Proof. intros H. by rewrite view_lookup, H. Qed.

Lemma view_None s id : wf s → view s !! id = None ↔ index s !! id = None.
Proof.
  intros Hwf. rewrite view_lookup. destruct (index s !! id) as [i|] eqn:Hi; simpl; [|done].
  destruct (lookup_lt_is_Some_2 (tags s) i) as [t Ht].
  { by eapply wf_range. }
  by rewrite Ht.
Qed.

(** Under the invariant an indexed slot can be loaded. *)
Lemma load_view s id i :
  wf s → index s !! id = Some i → ∃ t, load s i = Some t ∧ view s !! id = Some t.
Proof.
  intros Hwf Hi. destruct (lookup_lt_is_Some_2 (tags s) i) as [t Ht].
  { by eapply wf_range. }
  exists t. by rewrite (view_lookup_index s id i).
Qed.

Lemma view_broadcast s id t : view (broadcast_change s id t) = view s.
Proof. done. Qed.

Lemma try_send_bound ch ev :
  (length (queue ch) ≤ channel_capacity)%nat →
  (length (queue (try_send ch ev)) ≤ channel_capacity)%nat.
Proof.
  intros H. unfold try_send. destruct (connected ch); [|done].
  destruct (Nat.ltb_spec (length (queue ch)) channel_capacity); [|done].
  simpl. rewrite length_app. simpl. lia.
Qed.

Lemma broadcast_wf s id t : wf s → wf (broadcast_change s id t).
Proof.
  intros []. constructor; simpl; try done.
  apply Forall_fmap. eapply Forall_impl; [done|]. intros ch. apply try_send_bound.
Qed.

Lemma store_wf s i t : wf s → wf (store s i t).
Proof. intros []. constructor; simpl; try done; intros *; rewrite ?length_insert; eauto. Qed.

(** Storing through the holder of an id replaces the tag of that id only. *)
Lemma view_store s id i t :
  wf s → index s !! id = Some i → view (store s i t) = <[id := t]> (view s).
Proof.
  intros Hwf Hi. apply map_eq. intros id'.
  rewrite view_lookup. simpl. destruct (decide (id' = id)) as [->|Hne].
  - rewrite lookup_insert_eq, Hi. simpl. apply list_lookup_insert_eq.
    by eapply wf_range.
  - rewrite lookup_insert_ne by done. rewrite view_lookup.
    destruct (index s !! id') as [j|] eqn:Hj; [|done]. simpl.
    apply list_lookup_insert_ne. intros ->. apply Hne. by eapply wf_inj.
Qed.

(** ** Each operation against the map *)

Lemma vec_insert_sorted id l pos :
  StronglySorted str_lt l →
  (pos ≤ length l)%nat →
  Forall (λ a, str_lt a id) (take pos l) → Forall (λ a, str_lt id a) (drop pos l) →
  StronglySorted str_lt (take pos l ++ id :: drop pos l).
Proof.
  intros Hs Hpos Hbelow Habove. rewrite <- (take_drop pos l) in Hs.
  apply StronglySorted_app in Hs as (Hcross & Hl & Hr).
  apply StronglySorted_app_2; [|done|by constructor].
  rewrite Forall_forall in Hbelow. rewrite Forall_forall in Habove.
  intros x1 x2 H1 [->|H2]%elem_of_cons; auto.
Qed.

Lemma insert_slow_fresh s id t :
  wf s → index s !! id = None →
  ∃ s', insert_slow s id t = Some s' ∧ wf s' ∧ view s' = <[id := t]> (view s) ∧
        subscribers s' = (λ ch, try_send ch {| tag_id := id; tag := t |}) <$> subscribers s.
Proof.
  intros Hwf Hi. unfold insert_slow. rewrite Hi. cbv zeta.
  pose proof (binary_search_by_spec id (sorted_ids s) (wf_sorted _ Hwf)) as Hb.
  destruct (binary_search_by _ (sorted_ids s)) as [pos|pos].
  { apply list_elem_of_lookup_2, (wf_ids _ Hwf) in Hb. rewrite Hi in Hb. by destruct Hb. }
  destruct Hb as (Hpos & Hbelow & Habove).
  unfold vec_insert. rewrite (proj2 (Nat.leb_le _ _)) by done.
  unfold load. simpl. rewrite lookup_app_r, Nat.sub_diag by done. simpl.
  eexists. split; [done|]. split; [|split; [|done]].
  - apply broadcast_wf. destruct Hwf. constructor; simpl.
    + intros id' i [[<- <-]|[? ?]]%lookup_insert_Some; rewrite length_app; simpl; [lia|].
      assert (i < length (tags s))%nat by eauto. lia.
    + intros id1 id2 i [[<- <-]|[? H1]]%lookup_insert_Some
        [[<- H2]|[? H2]]%lookup_insert_Some; subst; eauto.
      * exfalso. apply wf_range0 in H2. lia.
      * exfalso. apply wf_range0 in H1. lia.
    + rewrite map_size_insert_None, length_app by done. simpl. lia.
    + by apply vec_insert_sorted.
    + intros id'. rewrite elem_of_app, elem_of_cons.
      rewrite <- (take_drop pos (sorted_ids s)) in wf_ids0.
      specialize (wf_ids0 id'). rewrite elem_of_app in wf_ids0.
      rewrite lookup_insert. case_decide; subst; [naive_solver|].
      rewrite <- wf_ids0. naive_solver.
    + done.
  - rewrite view_broadcast. apply map_eq. intros id'. rewrite view_lookup. simpl.
    rewrite !lookup_insert. case_decide as Hd; subst; simpl.
    + by rewrite lookup_app_r, Nat.sub_diag.
    + rewrite view_lookup. destruct (index s !! id') as [j|] eqn:Hj; [|done]. simpl.
      apply lookup_app_l. by eapply wf_range.
Qed.

Lemma insert_view s id t :
  wf s →
  ∃ s', insert s id t = Some s' ∧ wf s' ∧ view s' = <[id := t]> (view s) ∧
        subscribers s' = (λ ch, try_send ch {| tag_id := id; tag := t |}) <$> subscribers s.
Proof.
  intros Hwf. unfold insert, insert_fast.
  destruct (index s !! id) as [i|] eqn:Hi; simpl; [|by apply insert_slow_fresh].
  destruct (load_view s id i) as (t0 & -> & _); [done..|]. simpl.
  eexists. split; [done|]. split; [by apply broadcast_wf, store_wf|].
  split; [|done]. by rewrite view_broadcast, (view_store s id i).
Qed.

Lemma get_view s id :
  wf s →
  get s id = Some (match view s !! id with
                   | Some t => Ok t
                   | None => Err (CoreError.TagNotFound id)
                   end).
Proof.
  intros Hwf. unfold get. destruct (index s !! id) as [i|] eqn:Hi.
  - destruct (load_view s id i) as (t & Hl & ->); [done..|]. by rewrite Hl.
  - by rewrite (proj2 (view_None s id Hwf)).
Qed.

(** A mutation of the tag found under [id], as the map sees it. *)
Lemma mutate_view s id i t' :
  wf s → index s !! id = Some i →
  wf (broadcast_change (store s i t') id t') ∧
  view (broadcast_change (store s i t') id t') = <[id := t']> (view s).
Proof.
  intros Hwf Hi. split; [by apply broadcast_wf, store_wf|].
  by rewrite view_broadcast, (view_store s id i).
Qed.

Lemma update_view s id v q ts expected now :
  wf s →
  ∃ r s', update_value_with_expected s id v q ts expected now = Some (r, s') ∧ wf s' ∧
    (r, view s') =
      (if negb (TagValue.matches v expected) then (Err (CoreError.TypeMismatch id), view s)
       else match view s !! id with
            | None => (Err (CoreError.TagNotFound id), view s)
            | Some t => let t' := Tag.apply_read t v q ts now in (Ok t', <[id := t']> (view s))
            end).
Proof.
  intros Hwf. unfold update_value_with_expected.
  destruct (negb _); [by eauto 6|].
  destruct (index s !! id) as [i|] eqn:Hi.
  - destruct (load_view s id i) as (t & -> & ->); [done..|]. simpl.
    edestruct (mutate_view s id i) as [? Hv]; [done..|]. do 2 eexists.
    split; [done|]. split; [done|]. cbv zeta. by rewrite Hv.
  - rewrite (proj2 (view_None s id Hwf)) by done. eauto 6.
Qed.

Lemma set_quality_view s id q now :
  wf s →
  ∃ r s', set_quality s id q now = Some (r, s') ∧ wf s' ∧
    (r, view s') =
      match view s !! id with
      | None => (Err (CoreError.TagNotFound id), view s)
      | Some t => (Ok tt, <[id := Tag.set_quality t q now]> (view s))
      end.
Proof.
  intros Hwf. unfold set_quality.
  destruct (index s !! id) as [i|] eqn:Hi.
  - destruct (load_view s id i) as (t & -> & ->); [done..|]. simpl.
    edestruct (mutate_view s id i) as [? Hv]; [done..|]. do 2 eexists.
    split; [done|]. split; [done|]. by rewrite Hv.
  - rewrite (proj2 (view_None s id Hwf)) by done. eauto 6.
Qed.

Lemma try_update_with_view {R} s id (f : Tag → result R CoreError * Tag) now :
  wf s →
  ∃ r s', try_update_with s id f now = Some (r, s') ∧ wf s' ∧
    (r, view s') =
      match view s !! id with
      | None => (Err (CoreError.TagNotFound id), view s)
      | Some t =>
          match f t with
          | (Err e, _) => (Err e, view s)
          | (Ok res, t') => (Ok res, <[id := Tag.touch t' now]> (view s))
          end
      end.
Proof.
  intros Hwf. unfold try_update_with.
  destruct (index s !! id) as [i|] eqn:Hi.
  - destruct (load_view s id i) as (t & -> & ->); [done..|]. simpl.
    destruct (f t) as [[res|e] t']; [|by eauto 6].
    edestruct (mutate_view s id i) as [? Hv]; [done..|]. do 2 eexists.
    split; [done|]. split; [done|]. by rewrite Hv.
  - rewrite (proj2 (view_None s id Hwf)) by done. eauto 6.
Qed.

Lemma new_wf : wf new.
Proof.
  constructor; simpl; try done; try by constructor.
  intros id. rewrite lookup_empty. split; [by intros ?%not_elem_of_nil|by intros []].
Qed.

Lemma subscribe_wf s : wf s → wf (subscribe s).2 ∧ view (subscribe s).2 = view s.
Proof.
  intros []. split; [|done]. constructor; simpl; try done.
  apply Forall_app. split; [done|]. repeat constructor.
Qed.

Lemma list_ids_sorted_view s :
  wf s → list_ids_sorted s = sort_by_str id (elements (dom (view s))).
Proof.
  intros Hwf. unfold list_ids_sorted.
  apply (StronglySorted_unique String.le).
  - eapply StronglySorted_mono; [|by apply wf_sorted]. by intros ? ? [? _]%str_lt_le.
  - apply (sort_by_str_sorted id).
  - rewrite sort_by_str_perm. apply NoDup_Permutation.
    + by apply StronglySorted_str_lt_NoDup, wf_sorted.
    + apply NoDup_elements.
    + intros x. rewrite elem_of_elements, elem_of_dom, (wf_ids _ Hwf).
      rewrite <- !not_eq_None_Some. by rewrite view_None.
Qed.

Lemma len_view s : wf s → len s = size (view s).
Proof.
  intros Hwf. unfold len. rewrite <- (wf_size _ Hwf), <- !(size_dom (D := gset string)). f_equal.
  apply set_eq. intros x. rewrite !elem_of_dom, <- !not_eq_None_Some. by rewrite view_None.
Qed.
End defs.
End TagStore.
Notation TagStore := TagStore.TagStore.
Notation TagChange := TagStore.TagChange.
