(* ===== verification/Registry.v ===== *)
(** * The tag registry

    Models core-model/src/registry.rs: the read-only definitions next to the
    runtime store.  The clock is a function giving the successive results of
    [Utc::now()]. *)

From stdpp Require Import base tactics numbers list gmap strings sorting.
From S2P Require Import Prelude RustStd RustStr RustSlice Crates TagValue Tag TagDefinition TagStore.

Module TagRegistry.
Section defs.
Context {C : Chrono} {J : SerdeJson}.

(** [TagRegistry] *)
Record TagRegistry := mk {
  definitions : TagDefinitionStore;
  tags : TagStore;
}.

(** The zero-equivalent value of a data type; only [DateTime] reads the clock. *)
Definition initial_value (dt : TagDataType) (now : DateTimeUtc) : TagValue :=
  match dt with
  | TagDataType.Bool => TagValue.Bool false
  | TagDataType.Int16 => TagValue.Int16 0
  | TagDataType.UInt16 => TagValue.UInt16 0
  | TagDataType.Int32 => TagValue.Int32 0
  | TagDataType.UInt32 => TagValue.UInt32 0
  | TagDataType.Int64 => TagValue.Int64 0
  | TagDataType.UInt64 => TagValue.UInt64 0
  | TagDataType.Float => TagValue.Float 0
  | TagDataType.Double => TagValue.Double 0
  | TagDataType.DateTime => TagValue.DateTime now
  | TagDataType.ByteString => TagValue.ByteString []
  | TagDataType.String => TagValue.String ""
  end.

(** The loop of [from_definitions], from the [n]-th reading of the clock on. *)
Fixpoint populate (clock : nat → DateTimeUtc) (n : nat) (s : TagStore)
    (defs : list TagDefinition) : option TagStore :=
  match defs with
  | [] => Some s
  | d :: defs =>
      let v := initial_value (TagDefinition.data_type d) (clock n) in
      let n := match TagDefinition.data_type d with TagDataType.DateTime => S n | _ => n end in
      let t := Tag.new v (clock n) in
      s ← TagStore.insert s (TagDefinition.id d) t;
      populate clock (S n) s defs
  end.

(** [TagRegistry::from_definitions]; [None] would be a panic. *)
Definition from_definitions (clock : nat → DateTimeUtc) (defs : list TagDefinition)
    : option (result TagRegistry CoreError) :=
  match TagDefinitionStore.from_definitions defs with
  | Err e => Some (Err e)
  | Ok def_store =>
      tag_store ← populate clock 0 TagStore.new
                    (TagDefinitionStore.all_definitions_sorted def_store);
      Some (Ok {| definitions := def_store; tags := tag_store |})
  end.

(** [TagRegistry::get_tag] *)
Definition get_tag (r : TagRegistry) (id : string) : option (result Tag CoreError) :=
  TagStore.get (tags r) id.

(** [TagRegistry::get_definition] *)
Definition get_definition (r : TagRegistry) (id : string) : result TagDefinition CoreError :=
  TagDefinitionStore.get (definitions r) id.

(** [TagRegistry::update_tag_value] *)
Definition update_tag_value (r : TagRegistry) (id : string) (v : TagValue) (q : TagQuality)
    (source_ts now : DateTimeUtc) : option (result Tag CoreError * TagRegistry) :=
  match get_definition r id with
  | Err e => Some (Err e, r)
  | Ok def =>
      '(res, s) ← TagStore.update_value_with_expected (tags r) id v q source_ts
                    (TagDefinition.data_type def) now;
      Some (res, {| definitions := definitions r; tags := s |})
  end.

(** [TagRegistry::set_tag_quality] *)
Definition set_tag_quality (r : TagRegistry) (id : string) (q : TagQuality)
    (now : DateTimeUtc) : option (result unit CoreError * TagRegistry) :=
  '(res, s) ← TagStore.set_quality (tags r) id q now;
  Some (res, {| definitions := definitions r; tags := s |}).

(** [list_ids_sorted] and [all_definitions_sorted] *)
Definition list_ids_sorted (r : TagRegistry) : list string := TagStore.list_ids_sorted (tags r).
Definition all_definitions_sorted (r : TagRegistry) : list TagDefinition :=
  TagDefinitionStore.all_definitions_sorted (definitions r).

(** ** Invariant: the tags are those of the definitions, each of its declared type *)

Definition view (r : TagRegistry) : gmap string Tag := TagStore.view (tags r).
Definition defs (r : TagRegistry) : gmap string TagDefinition :=
  TagDefinitionStore.inner (definitions r).

Definition typed (ds : gmap string TagDefinition) (m : gmap string Tag) : Prop :=
  ∀ id, match ds !! id, m !! id with
        | Some d, Some t => TagValue.data_type (Tag.value t) = TagDefinition.data_type d
        | None, None => True
        | _, _ => False
        end.

Record wf (r : TagRegistry) : Prop := {
  wf_defs : TagDefinitionStore.wf (definitions r);
  wf_store : TagStore.wf (tags r);
  wf_typed : typed (defs r) (view r);
}.

Lemma typed_insert ds m id d t :
  typed ds m → ds !! id = Some d →
  TagValue.data_type (Tag.value t) = TagDefinition.data_type d →
  typed ds (<[id := t]> m).
Proof.
  intros Ht Hd Hty id'. specialize (Ht id').
  rewrite lookup_insert. case_decide; subst; [|done]. by rewrite Hd.
Qed.

Lemma typed_tag ds m id d :
  typed ds m → ds !! id = Some d →
  ∃ t, m !! id = Some t ∧ TagValue.data_type (Tag.value t) = TagDefinition.data_type d.
Proof. intros Ht Hd. specialize (Ht id). rewrite Hd in Ht. destruct (m !! id); naive_solver. Qed.

Lemma typed_def ds m id t : typed ds m → m !! id = Some t → ∃ d, ds !! id = Some d.
Proof. intros Ht Hm. specialize (Ht id). rewrite Hm in Ht. destruct (ds !! id); naive_solver. Qed.

Lemma get_tag_view r id :
  wf r →
  get_tag r id = Some (match view r !! id with
                       | Some t => Ok t
                       | None => Err (CoreError.TagNotFound id)
                       end).
Proof. intros Hwf. by apply TagStore.get_view, wf_store. Qed.

Lemma get_definition_view r id :
  get_definition r id = match defs r !! id with
                        | Some d => Ok d
                        | None => Err (CoreError.DefinitionNotFound id)
                        end.
Proof. done. Qed.

(** What an update does to a well-formed registry. *)
Lemma update_tag_value_view r id v q ts now :
  wf r →
  ∃ res r', update_tag_value r id v q ts now = Some (res, r') ∧ wf r' ∧
    defs r' = defs r ∧
    (res, view r') =
      match defs r !! id with
      | None => (Err (CoreError.DefinitionNotFound id), view r)
      | Some d =>
          if negb (TagValue.matches v (TagDefinition.data_type d))
          then (Err (CoreError.TypeMismatch id), view r)
          else match view r !! id with
               | None => (Err (CoreError.TagNotFound id), view r)
               | Some t =>
                   let t' := Tag.apply_read t v q ts now in (Ok t', <[id := t']> (view r))
               end
      end.
Proof.
  intros Hwf. unfold update_tag_value. rewrite get_definition_view.
  destruct (defs r !! id) as [d|] eqn:Hd; [|by eauto 6].
  destruct (TagStore.update_view (tags r) id v q ts (TagDefinition.data_type d) now)
    as (res & s & -> & Hs & Heq); [by apply wf_store|]. simpl.
  do 2 eexists. split; [done|]. split; [|split; [done|exact Heq]].
  destruct Hwf. constructor; simpl; try done. unfold view; simpl.
  destruct (TagValue.matches v (TagDefinition.data_type d)) eqn:Hm; simpl in Heq;
    [|injection Heq as _ ->; done].
  destruct (TagStore.view (tags r) !! id); injection Heq as _ ->; [|done].
  eapply typed_insert; [done..|]. simpl. by apply bool_decide_eq_true in Hm.
Qed.

Lemma set_tag_quality_view r id q now :
  wf r →
  ∃ res r', set_tag_quality r id q now = Some (res, r') ∧ wf r' ∧
    defs r' = defs r ∧
    (res, view r') =
      match view r !! id with
      | None => (Err (CoreError.TagNotFound id), view r)
      | Some t => (Ok tt, <[id := Tag.set_quality t q now]> (view r))
      end.
Proof.
  intros Hwf. unfold set_tag_quality.
  destruct (TagStore.set_quality_view (tags r) id q now)
    as (res & s & -> & Hs & Heq); [by apply wf_store|]. simpl.
  do 2 eexists. split; [done|]. split; [|split; [done|exact Heq]].
  destruct Hwf. constructor; simpl; try done. unfold view; simpl.
  destruct (TagStore.view (tags r) !! id) as [t|] eqn:Ht; injection Heq as _ ->; [|done].
  destruct (typed_def _ _ _ _ wf_typed0 Ht) as [d Hd].
  eapply typed_insert; [done..|]. simpl.
  destruct (typed_tag _ _ _ _ wf_typed0 Hd) as (t' & Ht' & Hty).
  unfold view in Ht'. rewrite Ht in Ht'. by simplify_eq.
Qed.

(** ** Construction *)

Lemma initial_value_type dt now : TagValue.data_type (initial_value dt now) = dt.
Proof. by destruct dt. Qed.

Lemma initial_value_wf dt now : TagValue.wf (initial_value dt now).
Proof. destruct dt; simpl; try done; by constructor. Qed.

(** A tag made after [k] readings of the clock: the value of an instant takes one reading,
    the timestamps the next. *)
Definition fresh_tag (clock : nat → DateTimeUtc) (dt : TagDataType) (k : nat) : Tag :=
  Tag.new (initial_value dt (clock k)) (clock match dt with TagDataType.DateTime => S k | _ => k end).

(** The store built from a list of definitions holds one fresh tag per id. *)
Lemma populate_view clock ds n s :
  TagStore.wf s →
  ∃ s', populate clock n s ds = Some s' ∧ TagStore.wf s' ∧
    (∀ id, id ∉ (TagDefinition.id <$> ds) → TagStore.view s' !! id = TagStore.view s !! id) ∧
    (NoDup (TagDefinition.id <$> ds) →
     ∀ d, d ∈ ds → ∃ k, TagStore.view s' !! TagDefinition.id d =
       Some (fresh_tag clock (TagDefinition.data_type d) k)).
Proof.
  revert n s. induction ds as [|d ds IH]; intros n s Hwf; simpl.
  { exists s. split; [done|]. split; [done|]. split; [done|]. by intros _ ? ?%not_elem_of_nil. }
  set (n' := match TagDefinition.data_type d with TagDataType.DateTime => S n | _ => n end).
  destruct (TagStore.insert_view s (TagDefinition.id d)
    (Tag.new (initial_value (TagDefinition.data_type d) (clock n)) (clock n')) Hwf)
    as (s1 & -> & Hwf1 & Hv1 & _). simpl.
  destruct (IH (S n') s1 Hwf1) as (s' & -> & Hwf' & Hout & Hin).
  exists s'. split; [done|]. split; [done|]. split.
  - intros id [Hne Hnin]%not_elem_of_cons. rewrite Hout, Hv1 by done.
    by apply lookup_insert_ne.
  - intros [Hnin Hnd]%NoDup_cons d' [->|Hd]%elem_of_cons; [|by apply Hin].
    rewrite Hout, Hv1, lookup_insert_eq by done. by exists n.
Qed.

Lemma from_definitions_view clock ds r :
  from_definitions clock ds = Some (Ok r) →
  wf r ∧ TagDefinitionStore.from_definitions ds = Ok (definitions r) ∧
  ∀ id d, defs r !! id = Some d →
    ∃ k, view r !! id = Some (fresh_tag clock (TagDefinition.data_type d) k).
Proof.
  unfold from_definitions.
  destruct (TagDefinitionStore.from_definitions ds) as [ds'|] eqn:Hds; [|done].
  pose proof (TagDefinitionStore.from_definitions_wf _ _ Hds) as Hwf.
  destruct (populate_view clock (TagDefinitionStore.all_definitions_sorted ds') 0
              TagStore.new TagStore.new_wf) as (s & -> & Hs & Hout & Hin).
  simpl. intros ?; simplify_eq. simpl.
  specialize (Hin (StronglySorted_str_lt_NoDup _
    (TagDefinitionStore.all_definitions_sorted_strict _ Hwf))).
  assert (∀ id d, defs {| definitions := ds'; tags := s |} !! id = Some d →
    ∃ k, view {| definitions := ds'; tags := s |} !! id =
      Some (fresh_tag clock (TagDefinition.data_type d) k)) as Hget.
  { intros id d Hd. destruct (Hwf id d Hd) as [<- _]. apply Hin.
    apply TagDefinitionStore.elem_of_all_definitions_sorted; [done|].
    exact Hd. }
  split; [|by split]. constructor; [done..|]. intros id.
  destruct (defs _ !! id) as [d|] eqn:Hd.
  - destruct (Hget id d Hd) as (? & ->). simpl. apply initial_value_type.
  - enough (view {| definitions := ds'; tags := s |} !! id = None) as -> by done.
    unfold view. simpl. assert (TagStore.view TagStore.new !! id = None) as Hemp.
    { unfold TagStore.view. by rewrite lookup_omap. }
    rewrite <- Hemp. apply Hout.
    intros (d & -> & Hin')%list_elem_of_fmap.
    apply TagDefinitionStore.elem_of_all_definitions_sorted in Hin'; [|done].
    unfold defs in Hd. simpl in Hd. congruence.
Qed.

(** Construction never panics. *)
Lemma from_definitions_total clock ds :
  ∃ res, from_definitions clock ds = Some res ∧
    is_ok res = is_ok (TagDefinitionStore.from_definitions ds).
Proof.
  unfold from_definitions.
  destruct (TagDefinitionStore.from_definitions ds) as [ds'|]; [|by eauto].
  destruct (populate_view clock (TagDefinitionStore.all_definitions_sorted ds') 0
              TagStore.new TagStore.new_wf) as (s & -> & _). simpl. eauto.
Qed.
End defs.
Arguments TagRegistry : clear implicits.
Arguments TagRegistry {_ _}.
End TagRegistry.
Notation TagRegistry := TagRegistry.TagRegistry.
