(* ===== verification/RegistryRef.v ===== *)
(** * A concrete registry, for the witnesses

    The registry built from a list of definitions on the reference clock, whose n-th
    reading is the n-th nanosecond of the epoch. *)

From stdpp Require Import base tactics numbers list gmap strings.
From S2P Require Import Prelude RustStd Crates CratesRef TagValue Tag TagDefinition TagStore Registry.
Local Open Scope Z_scope.

Module RegistryRef.
#[local] Existing Instances CratesRef.chrono_ref CratesRef.json_ref.

Definition ref_clock : nat → DateTimeUtc := λ n, Z.of_nat n.
Definition ref_registry (defs : list TagDefinition) : TagRegistry :=
  match TagRegistry.from_definitions ref_clock defs with
  | Some (Ok r) => r
  | _ => TagRegistry.mk {| TagDefinitionStore.inner := ∅ |} TagStore.new
  end.

Lemma ref_registry_wf defs :
  is_ok (TagDefinitionStore.from_definitions defs) = true → TagRegistry.wf (ref_registry defs).
Proof.
  intros Hok. unfold ref_registry.
  destruct (TagRegistry.from_definitions_total ref_clock defs) as (res & Hr & Hres).
  rewrite Hr. rewrite Hok in Hres. destruct res as [r|]; [|done].
  by apply TagRegistry.from_definitions_view in Hr as [? _].
Qed.
End RegistryRef.
