(* ===== verification/CoreModel.v ===== *)
(** * Core model: its contract

    The abstract specification of the core-model crate: a registry is a finite map from
    the ids of its definitions to tags, each of its declared type, and its operations are
    updates of that map.  The theorems say that the detailed definitions (the slots, the
    index and the cached ids of [TagStore], the in-place loops of [WordOrder]) implement
    it, for any sequence of operations. *)

From stdpp Require Import base tactics numbers list gmap strings sorting.
From S2P Require Import Prelude RustStd RustStr RustSlice Crates CratesRef TagValue Tag TagDefinition TagStore Registry RegistryRef.

Module CoreModel.

(** ** Sequences of operations on a registry *)

Section operations.
Context {C : Chrono} {J : SerdeJson}.

(** The operations of the registry, with the reading of the clock they make. *)
Inductive operation :=
| Get (id : string)
| Update (id : string) (v : TagValue) (q : TagQuality) (source_ts now : DateTimeUtc)
| SetQuality (id : string) (q : TagQuality) (now : DateTimeUtc).
Inductive answer :=
| Got (r : result Tag CoreError)
| Updated (r : result Tag CoreError)
| QualitySet (r : result unit CoreError).

(** One operation on the registry; [None] is a panic. *)
Definition run_operation (r : TagRegistry) (op : operation) : option (answer * TagRegistry) :=
  match op with
  | Get id => t ← TagRegistry.get_tag r id; Some (Got t, r)
  | Update id v q ts now => '(t, r) ← TagRegistry.update_tag_value r id v q ts now; Some (Updated t, r)
  | SetQuality id q now => '(u, r) ← TagRegistry.set_tag_quality r id q now; Some (QualitySet u, r)
  end.
Fixpoint run_operations (r : TagRegistry) (ops : list operation) : option (list answer * TagRegistry) :=
  match ops with
  | [] => Some ([], r)
  | op :: ops =>
      '(a, r) ← run_operation r op;
      '(l, r) ← run_operations r ops;
      Some (a :: l, r)
  end.

(** The same on the abstract map, for the definitions [ds]. *)
Definition spec_operation (ds : gmap string TagDefinition) (m : gmap string Tag) (op : operation)
    : answer * gmap string Tag :=
  match op with
  | Get id =>
      (Got (match m !! id with Some t => Ok t | None => Err (CoreError.TagNotFound id) end), m)
  | Update id v q ts now =>
      match ds !! id, m !! id with
      | None, _ => (Updated (Err (CoreError.DefinitionNotFound id)), m)
      | Some d, Some t =>
          if decide (TagValue.data_type v = TagDefinition.data_type d)
          then let t' := Tag.apply_read t v q ts now in (Updated (Ok t'), <[id := t']> m)
          else (Updated (Err (CoreError.TypeMismatch id)), m)
      | Some _, None => (Updated (Err (CoreError.TagNotFound id)), m)
      end
  | SetQuality id q now =>
      match m !! id with
      | Some t => (QualitySet (Ok tt), <[id := Tag.set_quality t q now]> m)
      | None => (QualitySet (Err (CoreError.TagNotFound id)), m)
      end
  end.
Fixpoint spec_operations (ds : gmap string TagDefinition) (m : gmap string Tag)
    (ops : list operation) : list answer * gmap string Tag :=
  match ops with
  | [] => ([], m)
  | op :: ops =>
      let '(a, m) := spec_operation ds m op in
      let '(l, m) := spec_operations ds m ops in
      (a :: l, m)
  end.

Lemma run_operation_spec r op :
  TagRegistry.wf r →
  ∃ a r', run_operation r op = Some (a, r') ∧ TagRegistry.wf r' ∧
    TagRegistry.defs r' = TagRegistry.defs r ∧
    (a, TagRegistry.view r') = spec_operation (TagRegistry.defs r) (TagRegistry.view r) op.
Proof.
  intros Hwf. destruct op as [id|id v q ts now|id q now]; simpl.
  - rewrite TagRegistry.get_tag_view by done. simpl. by eauto 6.
  - destruct (TagRegistry.update_tag_value_view r id v q ts now Hwf) as (res & r' & -> & Hwf' & Hd & Hv).
    do 2 eexists. split; [done|]. split; [done|]. split; [done|].
    destruct (TagRegistry.defs r !! id) as [d|] eqn:Hdef; [|by injection Hv as -> ->].
    destruct (TagRegistry.typed_tag _ _ _ _ (TagRegistry.wf_typed _ Hwf) Hdef) as (t & Ht & _).
    rewrite Ht in *. unfold TagValue.matches in Hv.
    repeat case_decide; case_bool_decide; try done; simpl in Hv; by injection Hv as -> ->.
  - destruct (TagRegistry.set_tag_quality_view r id q now Hwf) as (res & r' & -> & Hwf' & Hd & Hv).
    do 2 eexists. split; [done|]. split; [done|]. split; [done|].
    destruct (TagRegistry.view r !! id); by injection Hv as -> ->.
Qed.

Lemma run_operations_spec r ops :
  TagRegistry.wf r →
  ∃ l r', run_operations r ops = Some (l, r') ∧ TagRegistry.wf r' ∧
    TagRegistry.defs r' = TagRegistry.defs r ∧
    (l, TagRegistry.view r') = spec_operations (TagRegistry.defs r) (TagRegistry.view r) ops.
Proof.
  revert r. induction ops as [|op ops IH]; intros r Hwf; simpl; [by eauto 6|].
  destruct (run_operation_spec r op Hwf) as (a & r1 & -> & Hwf1 & Hd1 & Hv1). simpl.
  destruct (IH r1 Hwf1) as (l & r2 & -> & Hwf2 & Hd2 & Hv2). simpl.
  do 2 eexists. split; [done|]. split; [done|]. split; [congruence|].
  rewrite <- Hv1. rewrite Hd1 in Hv2. by rewrite <- Hv2.
Qed.

(** The registry built from definitions. *)
Lemma ids_sorted r :
  TagRegistry.wf r →
  TagRegistry.list_ids_sorted r = TagDefinition.id <$> TagRegistry.all_definitions_sorted r.
Proof.
  intros Hwf. pose proof (TagRegistry.wf_defs _ Hwf) as Hd. unfold TagRegistry.list_ids_sorted.
  apply (StronglySorted_unique String.le).
  - eapply StronglySorted_mono; [|by apply TagStore.wf_sorted, Hwf]. by intros ? ? [? _]%str_lt_le.
  - eapply StronglySorted_mono; [|by apply TagDefinitionStore.all_definitions_sorted_strict].
    by intros ? ? [? _]%str_lt_le.
  - apply NoDup_Permutation.
    + by apply StronglySorted_str_lt_NoDup, TagStore.wf_sorted, Hwf.
    + by apply StronglySorted_str_lt_NoDup, TagDefinitionStore.all_definitions_sorted_strict.
    + intros x. rewrite (TagStore.wf_ids _ (TagRegistry.wf_store _ Hwf)).
      rewrite <- not_eq_None_Some, <- (TagStore.view_None _ _ (TagRegistry.wf_store _ Hwf)).
      pose proof (TagRegistry.wf_typed _ Hwf x) as Hty. fold (TagRegistry.view r).
      rewrite list_elem_of_fmap. split.
      * intros Hx. destruct (TagRegistry.defs r !! x) as [d|] eqn:Hdx.
        -- destruct (Hd x d Hdx) as [Hid _]. exists d. split; [done|].
           apply TagDefinitionStore.elem_of_all_definitions_sorted; [done|]. by rewrite Hid.
        -- by destruct (TagRegistry.view r !! x).
      * intros (d & -> & Hin%TagDefinitionStore.elem_of_all_definitions_sorted); [|done].
        assert (TagRegistry.defs r !! TagDefinition.id d = Some d) as Hdx by exact Hin.
        rewrite Hdx in Hty. by destruct (TagRegistry.view r !! TagDefinition.id d).
Qed.
End operations.

(** ** Properties *)

Section properties.
Context {C : Chrono} {J : SerdeJson}.

(** C1: refinement.  From a registry built from any definitions, any sequence of reads,
    value updates and quality changes runs without a panic and gives the answers and
    the tags of the abstract map of tags by id, on which an update is refused for an
    unknown id or a value of another type than declared; throughout, the registry stays
    consistent, every tag keeps the type of its definition, and the ids listed are those
    of the definitions, sorted. *)
Theorem registry_refines (clock : nat → DateTimeUtc) (ds : list TagDefinition) (r : TagRegistry)
    (ops : list operation) :
  TagRegistry.from_definitions clock ds = Some (Ok r) →
  ∃ answers r', run_operations r ops = Some (answers, r') ∧ TagRegistry.wf r' ∧
    (answers, TagRegistry.view r') =
      spec_operations (TagRegistry.defs r) (TagRegistry.view r) ops ∧
    TagRegistry.list_ids_sorted r' = TagDefinition.id <$> TagRegistry.all_definitions_sorted r ∧
    ∀ id t, TagRegistry.view r' !! id = Some t →
      ∃ d, TagRegistry.defs r !! id = Some d ∧
           TagValue.data_type (Tag.value t) = TagDefinition.data_type d.
Proof.
  intros (Hwf & _ & _)%TagRegistry.from_definitions_view.
  destruct (run_operations_spec r ops Hwf) as (l & r' & Hrun & Hwf' & Hd & Hv).
  exists l, r'. split; [done|]. split; [done|]. split; [done|]. split.
  - rewrite ids_sorted by done. unfold TagRegistry.all_definitions_sorted,
      TagDefinitionStore.all_definitions_sorted. unfold TagRegistry.defs in Hd. by rewrite Hd.
  - intros id t Ht. rewrite <- Hd. pose proof (TagRegistry.wf_typed _ Hwf' id) as Hty.
    rewrite Ht in Hty. destruct (TagRegistry.defs r' !! id) as [d|]; [by exists d|done].
Qed.

(** C37: building a registry never panics, and succeeds exactly when every definition has
    an id, a name and an address that are not blank and no id is used twice.  The registry
    then has exactly the tags of the definitions; every tag waits for its first value,
    shows the zero of its declared type (an instant the moment of creation), and has both
    timestamps at its creation. *)
Theorem registry_built (clock : nat → DateTimeUtc) (ds : list TagDefinition) :
  ∃ res, TagRegistry.from_definitions clock ds = Some res ∧
    (is_ok res = true ↔
     Forall (λ d, trim (TagDefinition.id d) ≠ ""%string ∧ trim (TagDefinition.name d) ≠ ""%string ∧
                  trim (TagDefinition.address d) ≠ ""%string) ds ∧
     NoDup (TagDefinition.id <$> ds)) ∧
    ∀ r, res = Ok r →
      (∀ id, is_Some (TagRegistry.view r !! id) ↔ id ∈ TagDefinition.id <$> ds) ∧
      ∀ d, d ∈ ds →
        TagRegistry.defs r !! TagDefinition.id d = Some d ∧
        ∃ t k, TagRegistry.view r !! TagDefinition.id d = Some t ∧
          Tag.quality t = TagQuality.Initializing ∧
          Tag.value t =
            match TagDefinition.data_type d with
            | TagDataType.Bool => TagValue.Bool false
            | TagDataType.Int16 => TagValue.Int16 0 | TagDataType.UInt16 => TagValue.UInt16 0
            | TagDataType.Int32 => TagValue.Int32 0 | TagDataType.UInt32 => TagValue.UInt32 0
            | TagDataType.Int64 => TagValue.Int64 0 | TagDataType.UInt64 => TagValue.UInt64 0
            | TagDataType.Float => TagValue.Float 0 | TagDataType.Double => TagValue.Double 0
            | TagDataType.DateTime => TagValue.DateTime (clock k)
            | TagDataType.ByteString => TagValue.ByteString []
            | TagDataType.String => TagValue.String ""
            end ∧
          let now := clock (if decide (TagDefinition.data_type d = TagDataType.DateTime)
                            then S k else k) in
          Tag.source_timestamp t = now ∧ Tag.server_timestamp t = now.
Proof.
  destruct (TagRegistry.from_definitions_total clock ds) as (res & Hres & Hok).
  exists res. split; [done|]. unfold TagDefinitionStore.from_definitions in Hok.
  pose proof (TagDefinitionStore.insert_all_spec ∅ ds) as Hspec.
  assert (∀ d, TagDefinition.valid d = true ↔ trim (TagDefinition.id d) ≠ ""%string ∧
    trim (TagDefinition.name d) ≠ ""%string ∧ trim (TagDefinition.address d) ≠ ""%string) as Hvalid.
  { intros d. unfold TagDefinition.valid, is_empty.
    rewrite !andb_true_iff, !negb_true_iff, !bool_decide_eq_false. tauto. }
  split.
  - assert (∀ P, (∀ d, TagDefinition.valid d = true ↔ P d) →
      Forall P ds ↔ Forall (λ d, TagDefinition.valid d = true) ds) as Hall.
    { intros P HP. rewrite !Forall_forall. split; intros H d Hd; by apply HP, H. }
    rewrite (Hall _ Hvalid), Hok.
    destruct (TagDefinitionStore.insert_all ∅ ds) as [map|e]; simpl.
    + destruct Hspec as (? & ? & _). done.
    + split; [done|]. intros [Hv Hnd].
      destruct Hspec as (_ & _ & [?|[?|(d & _ & Hd)]]); [done..|].
      rewrite lookup_empty in Hd. by destruct Hd.
  - intros r ->.
    destruct (TagRegistry.from_definitions_view _ _ _ Hres) as (Hwf & Hstore & Hinit).
    assert (∀ d, d ∈ ds → TagRegistry.defs r !! TagDefinition.id d = Some d) as Hdefs.
    { intros d Hin. unfold TagDefinitionStore.from_definitions in Hstore. unfold TagRegistry.defs.
      destruct (TagDefinitionStore.insert_all ∅ ds) as [map|e]; [|done]. injection Hstore as <-.
      destruct Hspec as (_ & Hnd & _ & Hlook). simpl. rewrite Hlook, lookup_empty.
      clear -Hnd Hin. induction ds as [|d' ds IH]; [by apply not_elem_of_nil in Hin|].
      csimpl in Hnd. apply NoDup_cons in Hnd as [Hnin Hnd]. rewrite filter_cons.
      apply elem_of_cons in Hin as [->|Hin]; [by rewrite decide_True|].
      rewrite decide_False; [by apply IH|]. intros Heq. apply Hnin. rewrite Heq.
      by apply list_elem_of_fmap_2. }
    split.
    + intros id. split.
      * intros [t Ht]. destruct (TagRegistry.typed_def _ _ _ _ (TagRegistry.wf_typed _ Hwf) Ht) as [d Hd].
        unfold TagDefinitionStore.from_definitions in Hstore. unfold TagRegistry.defs in Hd.
        destruct (TagDefinitionStore.insert_all ∅ ds) as [map|e]; [|done]. injection Hstore as Hst.
        rewrite <- Hst in Hd. simpl in Hd. destruct Hspec as (_ & _ & _ & Hlook).
        rewrite Hlook, lookup_empty in Hd.
        apply head_Some_elem_of, list_elem_of_filter in Hd as [<- Hd]. by apply list_elem_of_fmap_2.
      * intros (d & -> & Hd)%list_elem_of_fmap. destruct (Hinit _ d (Hdefs d Hd)) as [k Hk]. by eexists.
    + intros d Hin. specialize (Hdefs d Hin). split; [done|].
      destruct (Hinit _ d Hdefs) as (k & Ht). exists (TagRegistry.fresh_tag clock (TagDefinition.data_type d) k), k.
      split; [exact Ht|]. by destruct (TagDefinition.data_type d).
Qed.

(** The reordering loops never index out of range and compute the reordering read off
    the structure of the buffer, whatever its length; a reordering is its own inverse,
    so what an encoder reorders a decoder puts back, and it only moves bytes. *)
Theorem word_order_reference (order : WordOrder) (bytes : list Z) :
  ∃ l, WordOrder.apply_to_bytes order bytes = Some l ∧ l = WordOrder.order_spec order bytes ∧
    WordOrder.apply_to_bytes order l = Some bytes ∧ l ≡ₚ bytes.
Proof.
  exists (WordOrder.order_spec order bytes). rewrite !WordOrder.apply_to_bytes_spec.
  split; [done|]. split; [done|]. rewrite WordOrder.order_spec_involutive.
  split; [done|apply WordOrder.order_spec_perm].
Qed.

(** When another thread inserts the same id between the two locks of an insertion,
    the insertion still stores its tag, but, unlike on every other path, tells no
    subscriber: the last change they have seen is the other thread's. *)
Theorem insert_race_not_broadcast (s s1 : TagStore) (id : string) (t t1 : Tag) :
  TagStore.wf s → TagStore.insert_fast s id t = Some None → TagStore.insert s id t1 = Some s1 →
  (∃ s2, TagStore.insert_slow s1 id t = Some s2 ∧
     TagStore.view s2 = <[id := t]> (TagStore.view s) ∧
     TagStore.subscribers s2 = TagStore.subscribers s1) ∧
  TagStore.subscribers s1 =
    (λ ch, TagStore.try_send ch {| TagStore.tag_id := id; TagStore.tag := t1 |})
      <$> TagStore.subscribers s.
Proof.
  intros Hwf Hfast Hins.
  destruct (TagStore.insert_view s id t1 Hwf) as (s1' & Hins' & Hwf1 & Hv1 & Hsub).
  rewrite Hins in Hins'. injection Hins' as <-. split; [|done].
  assert (∃ i, TagStore.index s1 !! id = Some i) as [i Hi].
  { apply not_eq_None_Some. rewrite <- (TagStore.view_None s1 id Hwf1), Hv1.
    by rewrite lookup_insert_eq. }
  destruct (TagStore.load_view s1 id i Hwf1 Hi) as (t0 & Hload & _).
  unfold TagStore.insert_slow. rewrite Hi, Hload. simpl. eexists. split; [done|]. split; [|done].
  rewrite (TagStore.view_store s1 id i t Hwf1 Hi), Hv1. by rewrite insert_insert_eq.
Qed.
End properties.

Section witnesses.
Import RegistryRef.
Local Existing Instances CratesRef.chrono_ref CratesRef.json_ref.

Definition pump : TagDefinition := TagDefinition.new "pump" "pump" "1" TagDataType.Bool "plc".
Definition pumps : TagRegistry := ref_registry [pump].
Lemma pumps_built : TagRegistry.from_definitions ref_clock [pump] = Some (Ok pumps).
Proof. vm_refl. Qed.
Definition pump_operations : list operation :=
  [Update "pump" (TagValue.Bool true) TagQuality.Good (7%Z : DateTimeUtc) (8%Z : DateTimeUtc);
   Update "pump" (TagValue.UInt16 1) TagQuality.Good (9%Z : DateTimeUtc) (9%Z : DateTimeUtc);
   SetQuality "valve" TagQuality.Stale (10%Z : DateTimeUtc)].
Lemma registry_refines_witness :
  ∃ answers r', run_operations pumps pump_operations = Some (answers, r') ∧ TagRegistry.wf r'.
Proof.
  destruct (registry_refines ref_clock [pump] pumps pump_operations pumps_built)
    as (answers & r' & Hrun & Hwf & _).
  exists answers, r'. split; [exact Hrun|exact Hwf].
Defined.

(** A definition of an instant beside that of the pump: both are there, and a name that is
    blank is refused. *)
Definition since : TagDefinition := TagDefinition.new "since" "since" "2" TagDataType.DateTime "plc".
Definition since_registry : TagRegistry := ref_registry [pump; since].
Lemma since_built : TagRegistry.from_definitions ref_clock [pump; since] = Some (Ok since_registry).
Proof. vm_refl. Qed.
Definition nameless : TagDefinition := TagDefinition.new "pump" " " "1" TagDataType.Bool "plc".
Lemma registry_built_witness :
  (∃ t k, TagRegistry.view since_registry !! "since"%string = Some t ∧
          Tag.value t = TagValue.DateTime (ref_clock k)) ∧
  ∃ e, TagRegistry.from_definitions ref_clock [nameless] = Some (Err e).
Proof.
  split.
  - destruct (registry_built ref_clock [pump; since]) as (res & Hres & _ & Hr).
    pose proof (eq_trans (eq_sym since_built) Hres) as Heq. injection Heq as <-.
    destruct (Hr since_registry eq_refl) as [_ Hds].
    destruct (Hds since (list_elem_of_further _ _ _ (list_elem_of_here _ _))) as (_ & t & k & Ht & _ & Hv & _).
    exists t, k. split; [exact Ht|exact Hv].
  - destruct (registry_built ref_clock [nameless]) as (res & Hres & Hok & _).
    destruct res as [r|e]; [exfalso|exists e; exact Hres].
    destruct (proj1 Hok eq_refl) as [Hf _]. apply Forall_inv in Hf as (_ & Hname & _).
    apply Hname. reflexivity.
Defined.

(** Two threads insert the id "pump" into a store with a subscriber. *)
Definition watched : TagStore := (TagStore.subscribe TagStore.new).2.
Definition on (b : bool) : Tag := Tag.new (TagValue.Bool b) (0%Z : DateTimeUtc).
Definition first_in : TagStore := default TagStore.new (TagStore.insert watched "pump" (on true)).
Lemma insert_race_not_broadcast_witness :
  ∃ s2, TagStore.insert_slow first_in "pump" (on false) = Some s2 ∧
    TagStore.subscribers s2 = TagStore.subscribers first_in.
Proof.
  destruct (insert_race_not_broadcast watched first_in "pump" (on false) (on true)
    (proj1 (TagStore.subscribe_wf _ TagStore.new_wf)) eq_refl eq_refl) as [(s2 & Hs2 & _ & Hsub) _].
  exists s2. split; [exact Hs2|exact Hsub].
Defined.
End witnesses.
End CoreModel.
