(* ===== verification/ArcStrSerde.v ===== *)
(** * Core model: strings in serialized form

    Models core-model/src/arcstr_serde.rs, the helpers by which the shared strings of tag
    definitions and mappings are serialized and deserialized.  An [Arc<str>] is its text.
    The serializer and the deserializer of a data format are the class [SerdeFormat]. *)

From stdpp Require Import base tactics numbers list strings.
From Stdlib Require Import Ascii.
From S2P Require Import Prelude.

Module ArcStrSerde.

(** What the helpers call of a format, and the documented behaviour of every format: what
    it writes for a text, for an absent value and for a present one, it reads back as
    that. *)
Class SerdeFormat := {
  Doc : Type;
  SerError : Type;
  DeError : Type;
  (** [s.serialize_str(v)], [s.serialize_none()] and [s.serialize_some(v)] *)
  serialize_str : string → result Doc SerError;
  serialize_none : result Doc SerError;
  serialize_some : string → result Doc SerError;
  (** [Cow::<str>::deserialize(d)] and [Option::<Cow<str>>::deserialize(d)] *)
  deserialize_cow : Doc → result string DeError;
  deserialize_option : Doc → result (option string) DeError;
  str_read_back v d : serialize_str v = Ok d → deserialize_cow d = Ok v;
  none_read_back d : serialize_none = Ok d → deserialize_option d = Ok None;
  some_read_back v d : serialize_some v = Ok d → deserialize_option d = Ok (Some v);
}.

(** The formats that describe themselves (JSON, TOML, YAML) write a present value as the
    value. *)
Class SelfDescribing (F : SerdeFormat) : Prop :=
  some_transparent v : serialize_some v = serialize_str v.

Section defs.
Context {F : SerdeFormat}.

(** [serialize] and [deserialize] *)
Definition serialize (v : string) : result Doc SerError := serialize_str v.
Definition deserialize (d : Doc) : result string DeError :=
  let? cow := deserialize_cow d in Ok cow.

(** [option::serialize] and [option::deserialize] *)
Definition option_serialize (v : option string) : result Doc SerError :=
  match v with
  | Some arc => serialize arc
  | None => serialize_none
  end.
Definition option_deserialize (d : Doc) : result (option string) DeError :=
  let? opt := deserialize_option d in Ok ((λ cow, cow) <$> opt).

(** What is written of a text is read back as the text. *)
Theorem arcstr_round_trip (v : string) (d : Doc) : serialize v = Ok d → deserialize d = Ok v.
Proof. intros H. unfold deserialize. by rewrite (str_read_back v d H). Qed.

(** In a format that describes itself, so is what is written of an optional text. *)
Theorem option_round_trip `{!SelfDescribing F} (v : option string) (d : Doc) :
  option_serialize v = Ok d → option_deserialize d = Ok v.
Proof.
  unfold option_serialize, option_deserialize, serialize. destruct v as [v|]; intros H.
  - rewrite <- some_transparent in H. by rewrite (some_read_back v d H).
  - by rewrite (none_read_back d H).
Qed.
End defs.

(** ** Two formats *)

(** A format that describes itself: a text is quoted, an absent value is the word null. *)
Inductive JsonDoc := Null | Quoted (s : string).
Program Definition json_format : SerdeFormat := {|
  Doc := JsonDoc; SerError := Empty_set; DeError := unit;
  serialize_str v := Ok (Quoted v); serialize_none := Ok Null; serialize_some v := Ok (Quoted v);
  deserialize_cow d := match d with Quoted s => Ok s | Null => Err tt end;
  deserialize_option d := match d with Quoted s => Ok (Some s) | Null => Ok None end;
|}.
Solve Obligations with (cbn; intros; by simplify_eq).
#[export] Instance json_describes : SelfDescribing json_format.
Proof. by intros v. Qed.

(** A compact format: an optional value is tagged with whether it is there. *)
Program Definition tagged_format : SerdeFormat := {|
  Doc := string; SerError := Empty_set; DeError := unit;
  serialize_str v := Ok v; serialize_none := Ok "0"%string;
  serialize_some v := Ok (String.append "1" v);
  deserialize_cow d := Ok d;
  deserialize_option d :=
    match d with
    | String t s => if bool_decide (t = "1"%char) then Ok (Some s) else Ok None
    | EmptyString => Err tt
    end;
|}.
Solve Obligations with (cbn; intros; by simplify_eq).

Lemma option_round_trip_witness :
  option_deserialize (F := json_format) (Quoted "level") = Ok (Some "level"%string) ∧
  option_deserialize (F := json_format) Null = Ok None.
Proof.
  split; [apply (option_round_trip (F := json_format) (Some "level"%string))
         |apply (option_round_trip (F := json_format) None)]; reflexivity.
Defined.

(** In such a format the optional helper does not read back what it wrote: it leaves the
    tag of a present value out. *)
Theorem option_untagged :
  option_serialize (F := tagged_format) (Some "level"%string) = Ok "level"%string ∧
  option_deserialize (F := tagged_format) "level"%string = Ok None.
Proof. split; vm_refl. Qed.
End ArcStrSerde.
