(* ===== verification/TagThreads.v ===== *)
(** * The tag store under concurrent threads

    The methods of core-model/src/tag_store.rs are not atomic: each takes the handle of a
    tag under a read lock, and then loads, changes and stores the tag, and tells the
    subscribers, without any lock.  A thread is a program of registry operations, which may
    go on as the answers tell it; its steps are the accesses to shared memory an operation
    makes, and the threads' steps interleave in any order.  When no two threads write the
    same tag, every interleaving behaves as some order of whole operations, and a thread
    that keeps to its own tags behaves as if it were alone. *)

From stdpp Require Import base tactics numbers list gmap strings relations.
From S2P Require Import Prelude RustStd RustStr Crates CratesRef TagValue Tag TagDefinition TagStore Registry RegistryRef CoreModel.

Module TagThreads.
Import CoreModel.

(** ** Threads *)

Section threads.
Context {C : Chrono} {J : SerdeJson}.

(** A program: it ends with a result, or calls an operation and goes on with its answer. *)
Inductive prog (A : Type) : Type :=
| Done (a : A)
| Do (op : operation) (k : answer → prog A).
Arguments Done {A} a.
Arguments Do {A} op k.

Fixpoint bind {A B} (p : prog A) (f : A → prog B) : prog B :=
  match p with Done a => f a | Do op k => Do op (λ x, bind (k x) f) end.

(** The tag an operation is about, and the one it may write. *)
Definition subject (op : operation) : string :=
  match op with Get id | Update id _ _ _ _ | SetQuality id _ _ => id end.
Definition target (op : operation) : option string :=
  match op with Get _ => None | Update id _ _ _ _ | SetQuality id _ _ => Some id end.

(** *** Inside an operation *)

(** Where a thread is in an operation: called; with the handle of the slot, the read lock
    released; with the tag it loaded; with the tag it stored, the subscribers still to be
    told, and the answer. *)
Inductive stage :=
| Called (op : operation)
| Holding (op : operation) (idx : nat)
| Loaded (op : operation) (idx : nat) (t : Tag)
| Stored (op : operation) (t : Tag) (a : answer).

(** What an update is checked for before the slot is looked up: its definition, and its
    type.  The definitions never change. *)
Definition refused (r : TagRegistry) (op : operation) : option answer :=
  match op with
  | Update id v _ _ _ =>
      match TagRegistry.get_definition r id with
      | Err e => Some (Updated (Err e))
      | Ok d => if negb (TagValue.matches v (TagDefinition.data_type d))
                then Some (Updated (Err (CoreError.TypeMismatch id))) else None
      end
  | _ => None
  end.
Definition unknown (op : operation) : answer :=
  match op with
  | Get id => Got (Err (CoreError.TagNotFound id))
  | Update id _ _ _ _ => Updated (Err (CoreError.TagNotFound id))
  | SetQuality id _ _ => QualitySet (Err (CoreError.TagNotFound id))
  end.
(** The mutation of the clone, and the answer. *)
Definition mutate (op : operation) (t : Tag) : option (Tag * answer) :=
  match op with
  | Get _ => None
  | Update _ v q ts now => let t' := Tag.apply_read t v q ts now in Some (t', Updated (Ok t'))
  | SetQuality _ q now => Some (Tag.set_quality t q now, QualitySet (Ok tt))
  end.
Definition with_tags (s : TagStore) (r : TagRegistry) : TagRegistry :=
  {| TagRegistry.definitions := TagRegistry.definitions r; TagRegistry.tags := s |}.

(** One access to the shared registry; [None] is a panic. *)
Definition advance (r : TagRegistry) (s : stage) : option ((stage + answer) * TagRegistry) :=
  match s with
  | Called op =>
      match refused r op with
      | Some a => Some (inr a, r)
      | None =>
          match TagStore.index (TagRegistry.tags r) !! subject op with
          | Some idx => Some (inl (Holding op idx), r)
          | None => Some (inr (unknown op), r)
          end
      end
  | Holding op idx =>
      t ← TagStore.load (TagRegistry.tags r) idx;
      Some (match mutate op t with None => inr (Got (Ok t)) | Some _ => inl (Loaded op idx t) end, r)
  | Loaded op idx t =>
      match mutate op t with
      | Some (t', a) =>
          Some (inl (Stored op t' a), with_tags (TagStore.store (TagRegistry.tags r) idx t') r)
      | None => None
      end
  | Stored op t a =>
      Some (inr a, with_tags (TagStore.broadcast_change (TagRegistry.tags r) (subject op) t) r)
  end.

(** *** The steps of several threads *)

Inductive thread (A : Type) : Type :=
| Finished (a : A)
| Running (s : stage) (k : answer → prog A).
Arguments Finished {A} a.
Arguments Running {A} s k.

Definition start {A} (p : prog A) : thread A :=
  match p with Done a => Finished a | Do op k => Running (Called op) k end.
Definition resume {A} (x : stage + answer) (k : answer → prog A) : thread A :=
  match x with inl s => Running s k | inr a => start (k a) end.

(** A registry, and the threads that share it; any of them makes the next access. *)
Definition config (A : Type) : Type := TagRegistry * list (thread A).
Inductive step {A} : config A → config A → Prop :=
| Step i r ths s k x r' :
    ths !! i = Some (Running s k) → advance r s = Some (x, r') →
    step (r, ths) (r', <[i := resume x k]> ths).

(** ** Whole operations *)

(** A program alone on a registry, and on the abstract map of tags. *)
Fixpoint run_prog {A} (r : TagRegistry) (p : prog A) : option (A * TagRegistry) :=
  match p with
  | Done a => Some (a, r)
  | Do op k => '(x, r) ← run_operation r op; run_prog r (k x)
  end.
Fixpoint spec_prog {A} (ds : gmap string TagDefinition) (m : gmap string Tag) (p : prog A)
    : A * gmap string Tag :=
  match p with
  | Done a => (a, m)
  | Do op k => let '(x, m) := spec_operation ds m op in spec_prog ds m (k x)
  end.
(** Several programs, a whole operation of one of them at a time. *)
Inductive atomic {A} (ds : gmap string TagDefinition)
    : gmap string Tag * list (prog A) → gmap string Tag * list (prog A) → Prop :=
| Atomic i m ps op k x m' :
    ps !! i = Some (Do op k) → spec_operation ds m op = (x, m') →
    atomic ds (m, ps) (m', <[i := k x]> ps).

(** A program that writes, or reads and writes, no tags but those of a set. *)
Fixpoint writes_in {A} (T : gset string) (p : prog A) : Prop :=
  match p with
  | Done _ => True
  | Do op k => (∀ id, target op = Some id → id ∈ T) ∧ ∀ x, writes_in T (k x)
  end.
Fixpoint touches {A} (T : gset string) (p : prog A) : Prop :=
  match p with Done _ => True | Do op k => subject op ∈ T ∧ ∀ x, touches T (k x) end.
(** Each thread writes tags of its own. *)
Record single_writer {A} (Ts : list (gset string)) (ps : list (prog A)) : Prop := {
  sw_disjoint i j Ti Tj : i ≠ j → Ts !! i = Some Ti → Ts !! j = Some Tj → Ti ## Tj;
  sw_writes : Forall2 writes_in Ts ps;
}.

(** ** Programs *)

Lemma run_prog_spec {A} (p : prog A) r :
  TagRegistry.wf r →
  ∃ r', run_prog r p = Some ((spec_prog (TagRegistry.defs r) (TagRegistry.view r) p).1, r') ∧
    TagRegistry.wf r' ∧ TagRegistry.defs r' = TagRegistry.defs r ∧
    TagRegistry.view r' = (spec_prog (TagRegistry.defs r) (TagRegistry.view r) p).2.
Proof.
  revert r. induction p as [a|op k IH]; intros r Hwf; simpl; [by exists r|].
  destruct (run_operation_spec r op Hwf) as (x & r1 & -> & Hwf1 & Hd1 & <-). simpl.
  destruct (IH x r1 Hwf1) as (r2 & -> & Hwf2 & Hd2 & Hv2).
  rewrite Hd1 in *. exists r2. by split_and!.
Qed.

Lemma run_prog_bind {A B} (p : prog A) (f : A → prog B) r :
  run_prog r (bind p f) = '(a, r) ← run_prog r p; run_prog r (f a).
Proof.
  revert r. induction p as [a|op k IH]; intros r; simpl; [done|].
  destruct (run_operation r op) as [[x r1]|]; simpl; [apply IH|done].
Qed.

Lemma bind_touches {A B} T (p : prog A) (f : A → prog B) :
  touches T p → (∀ a, touches T (f a)) → touches T (bind p f).
Proof. intros Hp Hf. induction p as [a|op k IH]; simpl in *; [done|]. naive_solver. Qed.

Lemma touches_writes {A} T (p : prog A) : touches T p → writes_in T p.
Proof.
  induction p as [a|op k IH]; simpl; [done|]. intros [Hop Hk]. split; [|naive_solver].
  intros id Hid. by destruct op; simplify_eq/=.
Qed.

(** An operation changes no tag but its target. *)
Lemma spec_operation_frame ds m op id :
  target op ≠ Some id → (spec_operation ds m op).2 !! id = m !! id.
Proof.
  intros Hop. destruct op; simplify_eq/=; repeat case_match; try done;
    simpl; rewrite lookup_insert_ne; congruence.
Qed.

(** What it does depends on the tag it is about only. *)
Lemma spec_operation_local ds m m' op (T : gset string) :
  subject op ∈ T → (∀ id, id ∈ T → m !! id = m' !! id) →
  (spec_operation ds m op).1 = (spec_operation ds m' op).1 ∧
  ∀ id, id ∈ T → (spec_operation ds m op).2 !! id = (spec_operation ds m' op).2 !! id.
Proof.
  intros Hop Hm. pose proof (Hm _ Hop) as Hs.
  destruct op as [i|i v q ts now|i q now]; simpl in *; rewrite <- Hs.
  - done.
  - destruct (ds !! i); [|done]. destruct (m !! i); [|done]. case_decide; [|done].
    split; [done|]. intros id Hid. simpl. rewrite !lookup_insert. case_decide; auto.
  - destruct (m !! i); [|done]. split; [done|]. intros id Hid. simpl.
    rewrite !lookup_insert. case_decide; auto.
Qed.

Lemma spec_prog_local {A} ds (p : prog A) (T : gset string) m m' :
  touches T p → (∀ id, id ∈ T → m !! id = m' !! id) →
  (spec_prog ds m p).1 = (spec_prog ds m' p).1 ∧
  ∀ id, id ∈ T → (spec_prog ds m p).2 !! id = (spec_prog ds m' p).2 !! id.
Proof.
  revert m m'. induction p as [a|op k IH]; intros m m' Ht Hm; simpl in *; [done|].
  destruct Ht as [Hop Hk]. destruct (spec_operation_local ds m m' op T Hop Hm) as [Hx Hm1].
  destruct (spec_operation ds m op) as [x m1], (spec_operation ds m' op) as [x' m1']. simpl in *.
  subst x'. by apply IH.
Qed.

(** ** Whole operations of programs on tags of their own *)

Lemma atomic_writers {A} ds Ts m (ps : list (prog A)) m' ps' :
  single_writer Ts ps → atomic ds (m, ps) (m', ps') → single_writer Ts ps'.
Proof.
  intros [Hd Hw] Hs. inversion Hs as [i m0 ps0 op k x m0' Hi Hop]; subst. split; [done|].
  destruct (Forall2_lookup_r _ _ _ _ _ Hw Hi) as (T & HT & _ & Hk).
  rewrite <- (list_insert_id Ts i T) by done. by apply Forall2_insert.
Qed.

(** A program that keeps to its own tags still does what it did alone on the first map. *)
Definition on_course {A} ds (m0 : gmap string Tag) (p0 : prog A) (T : gset string)
    (m : gmap string Tag) (p : prog A) : Prop :=
  touches T p ∧ (spec_prog ds m p).1 = (spec_prog ds m0 p0).1 ∧
  ∀ id, id ∈ T → (spec_prog ds m p).2 !! id = (spec_prog ds m0 p0).2 !! id.

Lemma atomic_on_course {A} ds Ts m (ps : list (prog A)) m' ps' i T p m0 p0 :
  single_writer Ts ps → atomic ds (m, ps) (m', ps') → Ts !! i = Some T → ps !! i = Some p →
  on_course ds m0 p0 T m p → ∃ p', ps' !! i = Some p' ∧ on_course ds m0 p0 T m' p'.
Proof.
  intros [Hd Hw] Hs HT Hp (Ht & Hres & Hmap). inversion Hs as [j m1 ps1 op k x m1' Hj Hop]; subst.
  destruct (decide (i = j)) as [->|Hne].
  - simplify_eq. exists (k x). rewrite list_lookup_insert_eq by by eapply lookup_lt_Some.
    split; [done|]. simpl in *. rewrite Hop in Hres, Hmap. destruct Ht as [_ Hk]. by split_and!.
  - exists p. rewrite list_lookup_insert_ne by done. split; [done|].
    destruct (Forall2_lookup_r _ _ _ _ _ Hw Hj) as (Tj & HTj & Hwj & _).
    specialize (Hd i j T Tj Hne HT HTj).
    destruct (spec_prog_local ds p T m' m Ht) as [Hr Hm].
    { intros id Hid. replace m' with (spec_operation ds m op).2 by by rewrite Hop.
      apply spec_operation_frame. intros Heq. apply Hwj in Heq. set_solver. }
    split; [done|]. split; [congruence|]. intros id Hid. by rewrite Hm, Hmap.
Qed.

Lemma atomics_on_course {A} ds Ts m (ps : list (prog A)) m' ps' i T p :
  single_writer Ts ps → rtc (atomic ds) (m, ps) (m', ps') → Ts !! i = Some T → ps !! i = Some p →
  touches T p → ∃ p', ps' !! i = Some p' ∧ on_course ds m p T m' p'.
Proof.
  intros Hsw Hs HT Hp Ht.
  eapply (rtc_invariant (λ c, single_writer Ts c.2 ∧ ∃ p', c.2 !! i = Some p' ∧
    on_course ds m p T c.1 p')) in Hs as [_ ?]; [done|..].
  - split; [done|]. exists p. by split_and!.
  - intros [m1 ps1] [m2 ps2] [Hsw1 (p1 & Hp1 & Hc1)] Hstep. split; [by eapply atomic_writers|].
    by eapply atomic_on_course.
Qed.

(** A tag nobody writes keeps its value. *)
Lemma atomics_frame {A} ds Ts m (ps : list (prog A)) m' ps' id :
  single_writer Ts ps → rtc (atomic ds) (m, ps) (m', ps') → (∀ T, T ∈ Ts → id ∉ T) →
  m' !! id = m !! id.
Proof.
  intros Hsw Hs Hid.
  eapply (rtc_invariant (λ c, single_writer Ts c.2 ∧ c.1 !! id = m !! id)) in Hs as [_ ?];
    [done|done|].
  intros [m1 ps1] [m2 ps2] [Hsw1 Heq] Hstep. split; [by eapply atomic_writers|]. simpl in *.
  rewrite <- Heq. inversion Hstep as [j m0 ps0 op k x m0' Hj Hop]; subst.
  replace m2 with (spec_operation ds m1 op).2 by by rewrite Hop. apply spec_operation_frame.
  intros Hop'. destruct Hsw1 as [_ Hw].
  destruct (Forall2_lookup_r _ _ _ _ _ Hw Hj) as (Tj & HTj & Hwj & _).
  eapply Hid; [by eapply list_elem_of_lookup_2|by apply Hwj].
Qed.
(** ** Interleaved accesses against whole operations

    A mutation counts as done when its tag is stored, a read when the tag is loaded, an
    operation that is refused when it is. *)

(** What a thread still has to do. *)
Definition ahead {A} (th : thread A) : prog A :=
  match th with
  | Finished a => Done a
  | Running (Stored _ _ a) k => k a
  | Running (Called op | Holding op _ | Loaded op _ _) k => Do op k
  end.
Lemma ahead_start {A} (p : prog A) : ahead (start p) = p.
Proof. by destruct p. Qed.
Lemma ahead_starts {A} (ps : list (prog A)) : ahead <$> (start <$> ps) = ps.
Proof. induction ps as [|p ps IH]; [done|]. csimpl. by rewrite ahead_start, IH. Qed.

(** What a thread inside an operation relies on: its handle is the one of the tag, and a
    tag it is about to replace is the one it loaded. *)
Definition in_step {A} (r : TagRegistry) (th : thread A) : Prop :=
  match th with
  | Running (Holding op idx) _ =>
      refused r op = None ∧ TagStore.index (TagRegistry.tags r) !! subject op = Some idx
  | Running (Loaded op idx t) _ =>
      refused r op = None ∧ TagStore.index (TagRegistry.tags r) !! subject op = Some idx ∧
      target op = Some (subject op) ∧ TagRegistry.view r !! subject op = Some t
  | _ => True
  end.
Lemma in_step_start {A} r (p : prog A) : in_step r (start p).
Proof. by destruct p. Qed.

(** What never changes: the definitions, and which slot is whose. *)
Definition same_slots (r r' : TagRegistry) : Prop :=
  TagRegistry.definitions r' = TagRegistry.definitions r ∧
  TagStore.index (TagRegistry.tags r') = TagStore.index (TagRegistry.tags r).
#[local] Instance same_slots_preorder : PreOrder same_slots.
Proof. split; [done|]. intros r1 r2 r3 [] []. split; congruence. Qed.

Lemma refused_slots r r' op : same_slots r r' → refused r' op = refused r op.
Proof. intros [Hd _]. unfold refused, TagRegistry.get_definition. by rewrite Hd. Qed.

Lemma spec_refused r op m x :
  TagRegistry.wf r → refused r op = Some x → TagRegistry.typed (TagRegistry.defs r) m →
  spec_operation (TagRegistry.defs r) m op = (x, m).
Proof.
  intros Hwf Hx Hty. destruct op as [|id v q ts now|]; simplify_eq/=.
  rewrite TagRegistry.get_definition_view in Hx.
  destruct (TagRegistry.defs r !! id) as [d|] eqn:Hd; [|by simplify_eq].
  destruct (TagRegistry.typed_tag _ _ _ _ Hty Hd) as (t & -> & _). unfold TagValue.matches in Hx.
  destruct (negb _) eqn:Hn; simplify_eq. apply negb_true_iff, bool_decide_eq_false in Hn.
  by rewrite decide_False.
Qed.
Lemma spec_unknown ds m op :
  TagRegistry.typed ds m → m !! subject op = None →
  (∀ id v q ts now, op = Update id v q ts now → is_Some (ds !! id)) →
  spec_operation ds m op = (unknown op, m).
Proof.
  intros Hty Hm Hd. destruct op as [|id v q ts now|]; simpl in *; rewrite ?Hm; [done| |done].
  destruct (Hd _ _ _ _ _ eq_refl) as [d Hid].
  destruct (TagRegistry.typed_tag _ _ _ _ Hty Hid) as (t & Ht & _). congruence.
Qed.
Lemma not_refused_definition r op id v q ts now :
  refused r op = None → op = Update id v q ts now →
  ∃ d, TagRegistry.defs r !! id = Some d ∧ TagValue.data_type v = TagDefinition.data_type d.
Proof.
  intros Hr ->. simpl in Hr. rewrite TagRegistry.get_definition_view in Hr.
  destruct (TagRegistry.defs r !! id) as [d|]; [|done]. exists d. split; [done|].
  destruct (negb _) eqn:Hn; [done|]. by apply negb_false_iff, bool_decide_eq_true in Hn.
Qed.

(** A mutation of the tag it is about. *)
Lemma mutate_spec r op t :
  TagRegistry.wf r → refused r op = None → target op = Some (subject op) →
  TagRegistry.view r !! subject op = Some t →
  ∃ t' x, mutate op t = Some (t', x) ∧
    spec_operation (TagRegistry.defs r) (TagRegistry.view r) op =
      (x, <[subject op := t']> (TagRegistry.view r)) ∧
    TagRegistry.typed (TagRegistry.defs r) (<[subject op := t']> (TagRegistry.view r)).
Proof.
  intros Hwf Hr Htg Ht. pose proof (TagRegistry.wf_typed _ Hwf) as Hty.
  destruct op as [id|id v q ts now|id q now]; simplify_eq/=; do 2 eexists; (split; [done|]).
  - destruct (not_refused_definition r (Update id v q ts now) id v q ts now Hr eq_refl) as (d & Hd & Hvd).
    rewrite Hd, Ht, decide_True by done. split; [done|]. by eapply TagRegistry.typed_insert.
  - rewrite Ht. split; [done|].
    destruct (TagRegistry.typed_def _ _ _ _ Hty Ht) as [d Hd].
    eapply TagRegistry.typed_insert; [done..|]. simpl.
    destruct (TagRegistry.typed_tag _ _ _ _ Hty Hd) as (t' & Ht' & ?). congruence.
Qed.

(** One access: nothing happens to the tags and to what lies ahead, or the operation of
    the thread takes place. *)
Lemma access_spec {A} r s (k : answer → prog A) :
  TagRegistry.wf r → in_step r (Running s k) →
  ∃ x r', advance r s = Some (x, r') ∧ TagRegistry.wf r' ∧ same_slots r r' ∧
    in_step r' (resume x k) ∧
    ((TagRegistry.view r' = TagRegistry.view r ∧ ahead (resume x k) = ahead (Running s k)) ∨
     ∃ op y, ahead (Running s k) = Do op k ∧ ahead (resume x k) = k y ∧
       spec_operation (TagRegistry.defs r) (TagRegistry.view r) op = (y, TagRegistry.view r')).
Proof.
  intros Hwf Hin. pose proof (TagRegistry.wf_store _ Hwf) as Hst.
  pose proof (TagRegistry.wf_typed _ Hwf) as Hty.
  destruct s as [op|op idx|op idx t|op t a]; simpl in *.
  - destruct (refused r op) as [x|] eqn:Hr.
    { exists (inr x), r. split_and!; try done; [apply in_step_start|]. right. exists op, x.
      split; [done|]. split; [apply ahead_start|]. by apply spec_refused. }
    destruct (TagStore.index _ !! subject op) as [idx|] eqn:Hi.
    { exists (inl (Holding op idx)), r. split_and!; try done. by left. }
    exists (inr (unknown op)), r. split_and!; try done; [apply in_step_start|]. right.
    exists op, (unknown op). split; [done|]. split; [apply ahead_start|]. apply spec_unknown; [done|..].
    + by apply TagStore.view_None.
    + intros id v q ts now Hop. destruct (not_refused_definition r _ _ _ _ _ _ Hr Hop) as (d & Hd & _).
      by exists d.
  - destruct Hin as [Hr Hi]. destruct (TagStore.load_view _ _ _ Hst Hi) as (t & -> & Ht). simpl.
    destruct op as [id|id v q ts now|id q now]; simpl in *.
    + exists (inr (Got (Ok t))), r. split_and!; try done; [apply in_step_start|]. right.
      exists (Get id), (Got (Ok t)). split; [done|]. split; [apply ahead_start|]. simpl.
      unfold TagRegistry.view. by rewrite Ht.
    + eexists (inl _), r. split_and!; try done. by left.
    + eexists (inl _), r. split_and!; try done. by left.
  - destruct Hin as (Hr & Hi & Htg & Ht).
    destruct (mutate_spec r op t Hwf Hr Htg Ht) as (t' & x & -> & Hspec & Hty').
    pose proof (TagStore.view_store _ _ _ t' Hst Hi) as Hv.
    eexists (inl _), _. split; [done|]. split; [|split; [done|split; [done|]]].
    + constructor; [apply Hwf|by apply TagStore.store_wf|]. unfold TagRegistry.view. simpl.
      by rewrite Hv.
    + right. exists op, x. split; [done|]. split; [done|].
      unfold TagRegistry.view at 2. simpl. by rewrite Hv.
  - eexists (inr a), _. split; [done|].
    split; [constructor; [apply Hwf|by apply TagStore.broadcast_wf|apply Hty]|].
    split; [done|]. split; [apply in_step_start|]. left. split; [done|]. apply ahead_start.
Qed.

(** The state of the threads: everything that holds in every interleaving. *)
Record consistent {A} (Ts : list (gset string)) (r0 : TagRegistry) (c : config A) : Prop := {
  con_wf : TagRegistry.wf c.1;
  con_slots : same_slots r0 c.1;
  con_in_step i th : c.2 !! i = Some th → in_step c.1 th;
  con_writers : single_writer Ts (ahead <$> c.2);
}.

(** A step of another thread leaves what a thread relies on as it is. *)
Lemma in_step_other {A} Ts r r' i j (th : thread A) (ps : list (prog A)) op k y :
  single_writer Ts ps → same_slots r r' → i ≠ j → ps !! i = Some (ahead th) → ps !! j = Some (Do op k) →
  spec_operation (TagRegistry.defs r) (TagRegistry.view r) op = (y, TagRegistry.view r') →
  in_step r th → in_step r' th.
Proof.
  intros [Hd Hw] Hslots Hne Hi Hj Hspec Hin. pose proof Hslots as [_ Hix].
  destruct th as [|[op'|op' idx|op' idx t|op' t a] k']; simpl in *; try done;
    rewrite (refused_slots r r') by done; rewrite Hix; [done|].
  destruct Hin as (Hr & Hidx & Htg & Ht). split_and!; try done. rewrite <- Ht.
  replace (TagRegistry.view r') with (spec_operation (TagRegistry.defs r) (TagRegistry.view r) op).2
    by by rewrite Hspec.
  apply spec_operation_frame. intros Heq.
  destruct (Forall2_lookup_r _ _ _ _ _ Hw Hi) as (Ti & HTi & Hwi & _).
  destruct (Forall2_lookup_r _ _ _ _ _ Hw Hj) as (Tj & HTj & Hwj & _).
  specialize (Hd i j Ti Tj Hne HTi HTj). apply Hwi in Htg. apply Hwj in Heq. set_solver.
Qed.
Lemma in_step_view {A} r r' (th : thread A) :
  same_slots r r' → TagRegistry.view r' = TagRegistry.view r → in_step r th → in_step r' th.
Proof.
  intros Hs Hv. pose proof Hs as [_ Hix]. destruct th as [|[] ?]; simpl; try done;
    rewrite (refused_slots r r') by done; by rewrite Hix, ?Hv.
Qed.

(** Every access keeps the threads consistent, and is a whole operation or nothing. *)
Lemma step_consistent {A} Ts r0 (c c' : config A) :
  consistent Ts r0 c → step c c' →
  consistent Ts r0 c' ∧
  rtc (atomic (TagRegistry.defs r0)) (TagRegistry.view c.1, ahead <$> c.2)
                                     (TagRegistry.view c'.1, ahead <$> c'.2).
Proof.
  intros [Hwf Hslots Hin Hw] Hs. inversion Hs as [i r ths s k x r' Hi Hadv]; subst. simpl in *.
  destruct (access_spec r s k Hwf (Hin i _ Hi)) as (x' & r1 & Hadv' & Hwf' & Hsl & Hin' & Hahead).
  rewrite Hadv in Hadv'. injection Hadv' as <- <-.
  assert (TagRegistry.defs r0 = TagRegistry.defs r) as Hdefs
    by (destruct Hslots as [Hd _]; unfold TagRegistry.defs; by rewrite Hd).
  assert ((ahead <$> ths) !! i = Some (ahead (Running s k))) as Hai by by rewrite list_lookup_fmap, Hi.
  destruct Hahead as [[Hv Ha]|(op & y & Hop & Ha & Hspec)].
  - assert (ahead <$> <[i := resume x k]> ths = ahead <$> ths) as Hsame.
    { rewrite list_fmap_insert, Ha. by apply list_insert_id. }
    split; [|simpl; by rewrite Hsame, Hv].
    split; simpl; [done|by etrans| |by rewrite Hsame].
    intros j th [(<- & <- & _)|[Hne Hj]]%list_lookup_insert_Some; [done|].
    by eapply in_step_view, Hin.
  - assert (atomic (TagRegistry.defs r0) (TagRegistry.view r, ahead <$> ths)
      (TagRegistry.view r', ahead <$> <[i := resume x k]> ths)) as Hatom.
    { rewrite list_fmap_insert, Ha, Hdefs. econstructor; [by rewrite Hai, Hop|done]. }
    split; [|by apply rtc_once].
    split; simpl; [done|by etrans| |by eapply atomic_writers].
    intros j th [(<- & <- & _)|[Hne Hj]]%list_lookup_insert_Some; [done|].
    eapply (in_step_other _ _ _ j i); [done|done|done| |by rewrite Hai, Hop|done|by eapply Hin].
    by rewrite list_lookup_fmap, Hj.
Qed.

Lemma consistent_start {A} Ts r (ps : list (prog A)) :
  TagRegistry.wf r → single_writer Ts ps → consistent Ts r (r, start <$> ps).
Proof.
  intros Hwf Hw. split; simpl; [done|done| |by rewrite ahead_starts].
  intros i th (p & -> & _)%list_lookup_fmap_Some. apply in_step_start.
Qed.

Lemma steps_consistent {A} Ts r (ps : list (prog A)) c :
  TagRegistry.wf r → single_writer Ts ps → rtc step (r, start <$> ps) c →
  consistent Ts r c ∧
  rtc (atomic (TagRegistry.defs r)) (TagRegistry.view r, ps) (TagRegistry.view c.1, ahead <$> c.2).
Proof.
  intros Hwf Hw Hs.
  eapply (rtc_invariant (λ c, consistent Ts r c ∧
    rtc (atomic (TagRegistry.defs r)) (TagRegistry.view r, ps)
      (TagRegistry.view c.1, ahead <$> c.2))) in Hs; [done|..].
  - split; [by apply consistent_start|]. simpl. by rewrite ahead_starts.
  - intros c1 c2 [Hc1 Hr1] Hstep. destruct (step_consistent _ _ _ _ Hc1 Hstep) as [Hc2 Hr2].
    split; [done|by etrans].
Qed.

(** No thread is ever stuck. *)
Lemma consistent_runs {A} Ts r0 (c : config A) i s k :
  consistent Ts r0 c → c.2 !! i = Some (Running s k) → ∃ x r', advance c.1 s = Some (x, r').
Proof.
  intros Hc Hi. destruct (access_spec c.1 s k (con_wf _ _ _ Hc) (con_in_step _ _ _ Hc i _ Hi))
    as (x & r' & Hadv & _). by exists x, r'.
Qed.
(** A thread that keeps to tags nobody else writes ends with the result, and leaves its tags
    the way, it has alone. *)
Lemma isolated {A} Ts r (ps : list (prog A)) c i T p a :
  TagRegistry.wf r → single_writer Ts ps → rtc step (r, start <$> ps) c →
  Ts !! i = Some T → ps !! i = Some p → touches T p → c.2 !! i = Some (Finished a) →
  ∃ ri, run_prog r p = Some (a, ri) ∧
    ∀ id, id ∈ T → TagRegistry.view c.1 !! id = TagRegistry.view ri !! id.
Proof.
  intros Hwf Hw Hs HT Hp Ht Hi. destruct (steps_consistent _ _ _ _ Hwf Hw Hs) as [_ Hatoms].
  destruct (atomics_on_course _ _ _ _ _ _ _ _ _ Hw Hatoms HT Hp Ht) as (p' & Hp' & _ & Hres & Hmap).
  rewrite list_lookup_fmap, Hi in Hp'. injection Hp' as <-. simpl in *.
  destruct (run_prog_spec p r Hwf) as (ri & Hrun & _ & _ & Hv). exists ri.
  rewrite Hrun, <- Hres. split; [done|]. intros id Hid. by rewrite Hv, <- Hmap.
Qed.

(** The accesses of an operation, one after the other, are the operation. *)
Lemma with_tags_eta r : with_tags (TagRegistry.tags r) r = r.
Proof. by destruct r. Qed.
Lemma accesses_alone {A} r op x r' (k : answer → prog A) :
  run_operation r op = Some (x, r') →
  rtc step (r, [Running (Called op) k]) (r', [start (k x)]).
Proof.
  assert (∀ s (k : answer → prog A) y r1 r2 th, advance r1 s = Some (y, r2) → rtc step (r2, [resume y k]) (r', [th]) →
    rtc step (r1, [Running s k]) (r', [th])) as Hstep.
  { intros s k' y r1 r2 th Hadv. apply rtc_l. by apply (Step 0 r1 [Running s k'] s k'). }
  intros Hrun. destruct op as [id|id v q ts now|id q now]; simpl in Hrun.
  - unfold TagRegistry.get_tag, TagStore.get in Hrun.
    destruct (TagStore.index _ !! id) as [i|] eqn:Hi; simpl in Hrun.
    + destruct (TagStore.load _ i) as [t|] eqn:Ht; [|done]. simplify_eq/=.
      eapply Hstep; [simpl; by rewrite Hi|]. eapply Hstep; [simpl; by rewrite Ht|]. apply rtc_refl.
    + simplify_eq. eapply Hstep; [simpl; by rewrite Hi|]. apply rtc_refl.
  - unfold TagRegistry.update_tag_value, TagStore.update_value_with_expected in Hrun.
    destruct (TagRegistry.get_definition r id) as [d|e] eqn:Hd; simpl in Hrun.
    2: { simplify_eq. eapply Hstep; [simpl; by rewrite Hd|]. apply rtc_refl. }
    destruct (negb _) eqn:Hm; simpl in Hrun.
    { fold (with_tags (TagRegistry.tags r) r) in Hrun. rewrite with_tags_eta in Hrun. simplify_eq.
      eapply Hstep; [simpl; by rewrite Hd, Hm|]. apply rtc_refl. }
    destruct (TagStore.index _ !! id) as [i|] eqn:Hi; simpl in Hrun.
    + destruct (TagStore.load _ i) as [t|] eqn:Ht; [|done]. simplify_eq/=.
      eapply Hstep; [simpl; by rewrite Hd, Hm, Hi|]. eapply Hstep; [simpl; by rewrite Ht|].
      do 2 (eapply Hstep; [done|]). apply rtc_refl.
    + fold (with_tags (TagRegistry.tags r) r) in Hrun. rewrite with_tags_eta in Hrun. simplify_eq.
      eapply Hstep; [simpl; by rewrite Hd, Hm, Hi|]. apply rtc_refl.
  - unfold TagRegistry.set_tag_quality, TagStore.set_quality in Hrun.
    destruct (TagStore.index _ !! id) as [i|] eqn:Hi; simpl in Hrun.
    + destruct (TagStore.load _ i) as [t|] eqn:Ht; [|done]. simplify_eq/=.
      eapply Hstep; [simpl; by rewrite Hi|]. eapply Hstep; [simpl; by rewrite Ht|].
      do 2 (eapply Hstep; [done|]). apply rtc_refl.
    + fold (with_tags (TagRegistry.tags r) r) in Hrun. rewrite with_tags_eta in Hrun. simplify_eq.
      eapply Hstep; [simpl; by rewrite Hi|]. apply rtc_refl.
Qed.

(** ** Every execution ends *)

Lemma rtc_sn {X} {R : X → X → Prop} x y : rtc R x y → sn R x → sn R y.
Proof. intros Hs Hx. eapply (rtc_invariant (sn R)) in Hs; [done..|]. intros ? ? [H] ?. by apply H. Qed.

(** The steps of one thread, whatever it finds in the registry. *)
Definition thread_step {A} (th th' : thread A) : Prop :=
  ∃ s k x r r', th = Running s k ∧ advance r s = Some (x, r') ∧ th' = resume x k.

Lemma stage_ends {A} (k : answer → prog A) s :
  (∀ x, sn thread_step (start (k x))) → sn thread_step (Running s k).
Proof.
  intros Hk.
  assert (∀ s, (∀ r x r', advance r s = Some (x, r') → sn thread_step (resume x k)) →
    sn thread_step (Running s k)) as Hstep.
  { intros s' Hs'. constructor. intros th (s1 & k1 & x & r & r' & [= <- <-] & Hadv & ->). eauto. }
  assert (∀ op t a, sn thread_step (Running (Stored op t a) k)) as Hstored.
  { intros op t a. apply Hstep. intros r x r' [= <- <-]. apply Hk. }
  assert (∀ op idx t, sn thread_step (Running (Loaded op idx t) k)) as Hloaded.
  { intros op idx t. apply Hstep. intros r x r'. simpl. destruct (mutate op t) as [[t' a]|]; [|done].
    intros [= <- <-]. apply Hstored. }
  assert (∀ op idx, sn thread_step (Running (Holding op idx) k)) as Hholding.
  { intros op idx. apply Hstep. intros r x r'. simpl. destruct (TagStore.load _ _) as [t|]; [|done].
    simpl. intros [= <- <-]. destruct (mutate op t); [apply Hloaded|apply Hk]. }
  destruct s as [op|op idx|op idx t|op t a]; auto.
  apply Hstep. intros r x r'. simpl. repeat case_match; intros [= <- <-]; try apply Hk. apply Hholding.
Qed.

Lemma thread_ends {A} (p : prog A) : sn thread_step (start p).
Proof.
  induction p as [a|op k IH]; simpl; [|by apply stage_ends].
  constructor. by intros th (s & k & x & r & r' & [=] & _).
Qed.

(** Threads that each end, end together, in whatever order they run. *)
Definition threads_step {A} (ths ths' : list (thread A)) : Prop :=
  ∃ i th th', ths !! i = Some th ∧ thread_step th th' ∧ ths' = <[i := th']> ths.
Lemma threads_end {A} (ths : list (thread A)) : Forall (sn thread_step) ths → sn threads_step ths.
Proof.
  induction 1 as [|th ths Hth _ IH].
  { constructor. by intros ths (i & th & th' & ? & _). }
  revert ths IH. induction Hth as [th _ IHth]. intros ths Hths. induction Hths as [ths Hths IHths].
  constructor. intros ths' ([|i] & th1 & th2 & Hi & Hstep & ->); simplify_eq/=.
  - apply IHth; [done|]. by constructor.
  - apply IHths. by exists i, th1, th2.
Qed.

Lemma steps_end {A} r (ps : list (prog A)) : sn step (r, start <$> ps).
Proof.
  assert (sn threads_step (start <$> ps)) as H.
  { apply threads_end, Forall_fmap, Forall_true. intros p. apply thread_ends. }
  revert r. induction H as [ths _ IH]. intros r. constructor. intros c Hs.
  inversion Hs as [i r1 ths1 s k x r' Hi Hadv]; subst. apply IH.
  exists i, (Running s k), (resume x k). split; [done|]. split; [|done].
  by exists s, k, x, r, r'.
Qed.

(** An execution goes on until every thread is done. *)
Lemma done_or_running {A} (ths : list (thread A)) :
  (∃ xs, ths = Finished <$> xs) ∨ ∃ i s k, ths !! i = Some (Running s k).
Proof.
  induction ths as [|[a|s k] ths IH]; [left; by exists []| |right; by exists 0%nat, s, k].
  destruct IH as [[xs ->]|(i & s & k & Hi)]; [left; by exists (a :: xs)|right; by exists (S i), s, k].
Qed.
Lemma consistent_finishes {A} Ts r (c : config A) :
  consistent Ts r c → sn step c →
  ∃ r' xs, rtc step c (r', Finished <$> xs) ∧ length xs = length c.2.
Proof.
  intros Hc Hsn. induction Hsn as [c _ IH].
  destruct (done_or_running c.2) as [[xs Hxs]|(i & s & k & Hi)].
  { exists c.1, xs. rewrite Hxs, length_fmap. split; [|done]. rewrite <- Hxs. by destruct c. }
  destruct (consistent_runs _ _ _ _ _ _ Hc Hi) as (x & r' & Hadv).
  assert (step c (r', <[i := resume x k]> c.2)) as Hstep by (destruct c; by econstructor).
  destruct (IH _ Hstep) as (r1 & xs & Hs & Hl); [by eapply step_consistent|].
  exists r1, xs. split; [by eapply rtc_l|]. simpl in Hl. by rewrite length_insert in Hl.
Qed.
Lemma finishes {A} Ts r (ps : list (prog A)) :
  TagRegistry.wf r → single_writer Ts ps →
  ∃ r' xs, rtc step (r, start <$> ps) (r', Finished <$> xs) ∧ length xs = length ps.
Proof.
  intros Hwf Hw.
  destruct (consistent_finishes Ts r (r, start <$> ps)) as (r' & xs & Hs & Hl);
    [by apply consistent_start|apply steps_end|].
  exists r', xs. split; [done|]. cbn [snd] in Hl. by rewrite length_fmap in Hl.
Qed.
End threads.
Arguments prog {_} A.
Arguments Done {_ A} a.
Arguments Do {_ A} op k.
Arguments thread {_} A.
Arguments Finished {_ A} a.
Arguments Running {_ A} s k.
Arguments config {_ _} A.

(** ** Properties *)

Section properties.
Context {C : Chrono} {J : SerdeJson}.

(** C10: reads and mutations of the store interleave, yet each takes place at once: when no two
    threads write the same tag, every state the threads reach, access by access, is one
    that whole operations reach, in some order that keeps each thread's own; what lies
    ahead of each thread is what it has left of its program.  The registry stays
    consistent, no thread is ever stuck or panics, and every execution ends. *)
Theorem interleavings_linearize {A} (Ts : list (gset string)) (r : TagRegistry)
    (ps : list (prog A)) (c : config A) :
  TagRegistry.wf r → single_writer Ts ps → rtc step (r, start <$> ps) c →
  rtc (atomic (TagRegistry.defs r)) (TagRegistry.view r, ps) (TagRegistry.view c.1, ahead <$> c.2) ∧
  TagRegistry.wf c.1 ∧ TagRegistry.defs c.1 = TagRegistry.defs r ∧
  (∀ i s k, c.2 !! i = Some (Running s k) → ∃ x r', advance c.1 s = Some (x, r')) ∧
  sn step c.
Proof.
  intros Hwf Hw Hs. destruct (steps_consistent _ _ _ _ Hwf Hw Hs) as [Hc Hatoms].
  split; [done|]. split; [apply Hc|]. split; [|split].
  - destruct Hc as [_ [Hd _] _ _]. unfold TagRegistry.defs. by rewrite Hd.
  - intros i s k. by eapply consistent_runs.
  - by apply (rtc_sn _ _ Hs), steps_end.
Qed.

(** Without that discipline an update can be lost: while one thread updates the value of a
    tag and another sets its quality, the accesses can interleave so that the tag ends with
    its old value, though the update was answered with success and whole operations, in
    either order, leave the new value. *)
Theorem lost_update (r : TagRegistry) (id : string) (d : TagDefinition) (t : Tag) (v : TagValue)
    (q q' : TagQuality) (ts now now' : DateTimeUtc) :
  TagRegistry.wf r → TagRegistry.defs r !! id = Some d →
  TagValue.data_type v = TagDefinition.data_type d → TagRegistry.view r !! id = Some t →
  let ps := [Do (Update id v q ts now) Done; Do (SetQuality id q' now') Done] in
  (∃ r', rtc step (r, start <$> ps)
           (r', [Finished (Updated (Ok (Tag.apply_read t v q ts now))); Finished (QualitySet (Ok tt))]) ∧
     TagRegistry.view r' !! id = Some (Tag.set_quality t q' now')) ∧
  (∀ m x y, rtc (atomic (TagRegistry.defs r)) (TagRegistry.view r, ps) (m, [Done x; Done y]) →
     ∃ t', m !! id = Some t' ∧ Tag.value t' = v).
Proof.
  intros Hwf Hd Hty Ht ps. pose proof (TagRegistry.wf_store _ Hwf) as Hst. split.
  - assert (∃ idx, TagStore.index (TagRegistry.tags r) !! id = Some idx) as [idx Hidx].
    { destruct (TagStore.index _ !! id) as [idx|] eqn:Hi; [by exists idx|].
      apply (TagStore.view_None _ _ Hst) in Hi. unfold TagRegistry.view in Ht. congruence. }
    destruct (TagStore.load_view _ _ _ Hst Hidx) as (t0 & Hl & Ht0).
    assert (t0 = t) as -> by (unfold TagRegistry.view in Ht; congruence).
    assert (idx < length (TagStore.tags (TagRegistry.tags r)))%nat as Hlt by by eapply TagStore.wf_range.
    assert (refused r (Update id v q ts now) = None) as Hr.
    { simpl. rewrite TagRegistry.get_definition_view, Hd. unfold TagValue.matches.
      by rewrite bool_decide_true. }
    eexists. split.
    + eapply rtc_l; [eapply (Step 0); [done|simpl in *; rewrite Hr, Hidx; done]|].
      eapply rtc_l; [eapply (Step 0); [done|simpl; rewrite Hl; done]|].
      eapply rtc_l; [eapply (Step 1); [done|simpl; rewrite Hidx; done]|].
      eapply rtc_l; [eapply (Step 1); [done|simpl; rewrite Hl; done]|].
      eapply rtc_l; [by eapply (Step 0)|]. eapply rtc_l; [by eapply (Step 0)|].
      eapply rtc_l; [by eapply (Step 1)|]. eapply rtc_l; [by eapply (Step 1)|]. apply rtc_refl.
    + unfold TagRegistry.view. rewrite TagStore.view_lookup. simpl. rewrite Hidx. simpl.
      rewrite list_lookup_insert_eq; [done|]. by rewrite length_insert.
  - intros m x y Hs.
    eapply (rtc_invariant (λ c, ∃ p1 p2 t', c.2 = [p1; p2] ∧ c.1 !! id = Some t' ∧
      (p1 = Do (Update id v q ts now) Done ∨ (∃ x, p1 = Done x) ∧ Tag.value t' = v) ∧
      (p2 = Do (SetQuality id q' now') Done ∨ ∃ y, p2 = Done y))) in Hs.
    + destruct Hs as (? & ? & t' & [= <- <-] & Ht' & [?|[_ Hv]] & _); [done|]. by exists t'.
    + exists (Do (Update id v q ts now) Done), (Do (SetQuality id q' now') Done), t.
      split_and!; try done; by left.
    + intros [m1 ps1] [m2 ps2] (p1 & p2 & t' & Hps & Ht' & H1 & H2) Hstep. simpl in *.
      inversion Hstep as [i m0 ps0 op k x1 m0' Hi Hop]; subst.
      destruct i as [|[|i]]; simpl in Hi; simplify_eq.
      * destruct H1 as [[= -> ->]|[[? ?] _]]; [|done]. simpl in Hop.
        rewrite Hd, Ht', decide_True in Hop by done. simplify_eq.
        do 3 eexists. rewrite lookup_insert_eq. split_and!; [done..| |done]. right. by split; [eexists|].
      * destruct H2 as [[= -> ->]|[? ?]]; [|done]. simpl in Hop. rewrite Ht' in Hop. simplify_eq.
        do 3 eexists. rewrite lookup_insert_eq. split_and!; [done..| |right; by eexists].
        destruct H1 as [->|[? ?]]; [by left|]. by right.
Qed.
End properties.

Section witnesses.
Import RegistryRef.
Local Existing Instances CratesRef.chrono_ref CratesRef.json_ref.

Definition at_time (n : Z) : DateTimeUtc := n.
(** One thread updates the pump and reads it back, the other watches it. *)
Definition updater : prog answer :=
  Do (Update "pump" (TagValue.Bool true) TagQuality.Good (at_time 7) (at_time 8))
    (λ _, Do (Get "pump") Done).
Definition watcher : prog answer := Do (Get "pump") Done.
Definition pump_threads : list (prog answer) := [updater; watcher].
Lemma pump_writers : single_writer [{["pump"%string]}; ∅] pump_threads.
Proof.
  split.
  - intros [|[|i]] [|[|j]] Ti Tj Hne Hi Hj; simplify_eq/=; set_solver.
  - repeat constructor; simpl; intros; simplify_eq; set_solver.
Qed.
Lemma pumps_wf : TagRegistry.wf pumps.
Proof. by eapply TagRegistry.from_definitions_view, pumps_built. Qed.
(** After the first access of each. *)
Definition pump_midway : config answer :=
  (pumps, [Running (Holding (Update "pump" (TagValue.Bool true) TagQuality.Good
                     (at_time 7) (at_time 8)) 0) (λ _, Do (Get "pump") Done);
           Running (Holding (Get "pump") 0) Done]).
Lemma pump_steps : rtc step (pumps, start <$> pump_threads) pump_midway.
Proof.
  eapply rtc_l; [by eapply (Step 0)|]. eapply rtc_l; [by eapply (Step 1)|]. apply rtc_refl.
Qed.
Lemma interleavings_linearize_witness :
  TagRegistry.wf pump_midway.1 ∧ sn step pump_midway.
Proof.
  destruct (interleavings_linearize _ pumps pump_threads pump_midway pumps_wf pump_writers pump_steps)
    as (_ & Hwf & _ & _ & Hsn).
  split; [exact Hwf|exact Hsn].
Defined.

Definition idle_pump : Tag := Tag.new (TagValue.Bool false) (at_time 0).
Definition running_pump : Tag := Tag.apply_read idle_pump (TagValue.Bool true) TagQuality.Good (at_time 7) (at_time 8).
Definition racing : list (prog answer) :=
  [Do (Update "pump" (TagValue.Bool true) TagQuality.Good (at_time 7) (at_time 8)) Done;
   Do (SetQuality "pump" TagQuality.Stale (at_time 9)) Done].
Lemma lost_update_witness :
  ∃ r' t, TagRegistry.view r' !! "pump" = Some t ∧ Tag.value t = TagValue.Bool false ∧
    rtc step (pumps, start <$> racing)
      (r', [Finished (Updated (Ok running_pump)); Finished (QualitySet (Ok tt))]).
Proof.
  destruct (lost_update pumps "pump" pump idle_pump (TagValue.Bool true) TagQuality.Good
    TagQuality.Stale (at_time 7) (at_time 8) (at_time 9) pumps_wf) as [(r' & Hs & Hv) _];
    [vm_refl|reflexivity|vm_refl|].
  eexists r', _. split; [exact Hv|]. split; [reflexivity|exact Hs].
Defined.
End witnesses.
End TagThreads.
