(* ===== verification/DriverWorld.v ===== *)
(** * The registry and the clock, as the drivers use them

    Both drivers keep a handle on the shared registry and read the clock whenever
    they touch a tag.  A driver's world is any type with those two parts: the class
    states what they are and that they are independent, and the two registry
    operations, with their laws, are written once against it. *)

From stdpp Require Import base tactics numbers list gmap strings.
From S2P Require Import Prelude Effects RustStd RustStr RustMap Crates TagValue Tag TagDefinition TagStore Registry.

(** A world with a registry and a clock; [rest] is everything else in it. *)
Class DriverWorld {C : Chrono} {J : SerdeJson} (W Env Rest : Type) := {
  dw_registry : W → TagRegistry;
  dw_env : W → Env;
  dw_rest : W → Rest;
  dw_set_registry : TagRegistry → W → W;
  dw_set_env : Env → W → W;
  (** [Utc::now()] *)
  dw_now : Env → DateTimeUtc * Env;
  dw_registry_set r w : dw_registry (dw_set_registry r w) = r;
  dw_env_set e w : dw_env (dw_set_env e w) = e;
  dw_registry_env e w : dw_registry (dw_set_env e w) = dw_registry w;
  dw_env_registry r w : dw_env (dw_set_registry r w) = dw_env w;
  dw_rest_registry r w : dw_rest (dw_set_registry r w) = dw_rest w;
  dw_rest_env e w : dw_rest (dw_set_env e w) = dw_rest w;
  dw_set_registry_twice r r' w : dw_set_registry r (dw_set_registry r' w) = dw_set_registry r w;
  dw_set_env_registry e r w : dw_set_env e (dw_set_registry r w) = dw_set_registry r (dw_set_env e w);
}.

(** ** What a client of the registry sees: values and qualities *)

Module Shown.
Section defs.
Context {C : Chrono} {J : SerdeJson}.

(** The value and the quality of every tag. *)
Notation shown_map := (gmap string (TagValue * TagQuality)).
Definition of_registry (r : TagRegistry) : shown_map :=
  (λ t, (Tag.value t, Tag.quality t)) <$> TagRegistry.view r.

(** The two registry operations on what is seen. *)
Definition mark (id : string) (q : TagQuality) (s : shown_map) : shown_map :=
  alter (λ p, (p.1, q)) id s.
Definition put (ds : gmap string TagDefinition) (id : string) (v : TagValue) (q : TagQuality)
    (s : shown_map) : shown_map :=
  match ds !! id with
  | Some d => if TagValue.matches v (TagDefinition.data_type d)
              then alter (λ _, (v, q)) id s else s
  | None => s
  end.
(** Marking several tags. *)
Definition marks (ids : list string) (q : TagQuality) (s : shown_map) : shown_map :=
  foldl (λ s id, mark id q s) s ids.

Lemma mark_lookup id q id' (s : shown_map) :
  mark id q s !! id' = if decide (id = id') then (λ p, (p.1, q)) <$> s !! id else s !! id'.
Proof. unfold mark. by rewrite lookup_alter. Qed.

Lemma mark_lookup_eq id q (s : shown_map) : mark id q s !! id = (λ p, (p.1, q)) <$> s !! id.
Proof. by rewrite mark_lookup, decide_True. Qed.

Lemma put_lookup_ne ds id v q id' (s : shown_map) : id ≠ id' → put ds id v q s !! id' = s !! id'.
Proof. intros. unfold put. repeat case_match; try done. by rewrite lookup_alter_ne. Qed.

Lemma put_lookup_eq ds id v q d p (s : shown_map) :
  ds !! id = Some d → TagValue.data_type v = TagDefinition.data_type d → s !! id = Some p →
  put ds id v q s !! id = Some (v, q).
Proof.
  intros Hd Hty Hs. unfold put, TagValue.matches. rewrite Hd, bool_decide_true by done.
  by rewrite lookup_alter_eq, Hs.
Qed.

(** After marking, every marked tag that exists has the quality, the others are
    unchanged, and no value changes. *)
Lemma marks_lookup ids q id (s : shown_map) :
  marks ids q s !! id =
    if decide (id ∈ ids) then (λ p, (p.1, q)) <$> s !! id else s !! id.
Proof.
  revert s. induction ids as [|i ids IH]; intros s; [done|]. unfold marks in *. simpl.
  rewrite IH, !mark_lookup.
  destruct (decide (i = id)) as [->|Hne].
  - rewrite (decide_True (P := id ∈ id :: ids)) by by left.
    case_decide; [|done]. by destruct (s !! id).
  - destruct (decide (id ∈ ids)).
    + rewrite decide_True by by right. done.
    + rewrite decide_False; [done|]. by intros [?|?]%elem_of_cons.
Qed.
End defs.
End Shown.
Notation shown_map := (gmap string (TagValue * TagQuality)).

Module RegistryOps.
Section ops.
Context {C : Chrono} {J : SerdeJson} {W Env Rest E : Type} {DW : DriverWorld W Env Rest}.
Notation MW := (M W E).

(** An operation of the environment. *)
Definition env_op {A} (f : Env → A * Env) : MW A :=
  λ w, let '(a, e) := f (dw_env w) in (Ret a, dw_set_env e w).

(** An operation that may never complete, [None]: whoever awaits it is stuck. *)
Definition await_op {A} (f : Env → option (A * Env)) : MW A :=
  λ w, match f (dw_env w) with
       | Some (a, e) => (Ret a, dw_set_env e w)
       | None => (Pending, w)
       end.

(** [Utc::now()] *)
Definition now : MW DateTimeUtc := env_op dw_now.

(** [let _ = registry.set_tag_quality(id, q)] *)
Definition set_tag_quality (id : string) (q : TagQuality) : MW unit :=
  t ← now;
  r ← gets dw_registry;
  '(_, r) ← or_panic (TagRegistry.set_tag_quality r id q t);
  modify (dw_set_registry r).

(** [registry.update_tag_value(id, v, q, source_ts)] *)
Definition update_tag_value (id : string) (v : TagValue) (q : TagQuality)
    (source_ts : DateTimeUtc) : MW (result Tag CoreError) :=
  t ← now;
  r ← gets dw_registry;
  '(res, r) ← or_panic (TagRegistry.update_tag_value r id v q source_ts t);
  modify (dw_set_registry r);;
  mret res.

(** The definitions and what is shown. *)
Definition defs (w : W) : gmap string TagDefinition := TagRegistry.defs (dw_registry w).
Definition shown (w : W) : shown_map := Shown.of_registry (dw_registry w).

(** The invariant: a consistent registry, and a fact about the environment that
    reading the clock preserves. *)
Context (U : Env → Prop) (HU : ∀ e, U e → U (dw_now e).2).
Record good (w : W) : Prop := { good_wf : TagRegistry.wf (dw_registry w); good_env : U (dw_env w) }.

(** From [w] to [w'] only the registry's tags and the clock moved, and what is shown
    went through [f]. *)
Record moved (f : shown_map → shown_map) (w w' : W) : Prop := {
  moved_good : good w';
  moved_defs : defs w' = defs w;
  moved_rest : dw_rest w' = dw_rest w;
  moved_shown : shown w' = f (shown w);
}.

Lemma moved_refl w : good w → moved (λ s, s) w w.
Proof. by constructor. Qed.

Lemma moved_trans f g w1 w2 w3 : moved f w1 w2 → moved g w2 w3 → moved (λ s, g (f s)) w1 w3.
Proof. intros [] []. constructor; congruence. Qed.

Lemma wp_now (Q : outcome E DateTimeUtc → W → Prop) w :
  good w → (∀ t w', moved (λ s, s) w w' → Q (Ret t) w') → wp now Q w.
Proof.
  intros [Hw HUw] HQ. specialize (HU _ HUw). unfold wp, now, env_op.
  destruct (dw_now (dw_env w)) as [t e]. simpl in *. apply HQ.
  constructor; [constructor|..]; unfold defs, shown;
    rewrite ?dw_registry_env, ?dw_env_set, ?dw_rest_env; done.
Qed.

Lemma wp_set_tag_quality id q (Q : outcome E unit → W → Prop) w :
  good w → (∀ w', moved (Shown.mark id q) w w' → Q (Ret tt) w') →
  wp (set_tag_quality id q) Q w.
Proof.
  intros Hw HQ. unfold set_tag_quality. apply wp_bind, wp_now; [done|]. intros t w1 M1.
  apply wp_bind, wp_gets. simpl after.
  destruct (TagRegistry.set_tag_quality_view (dw_registry w1) id q t)
    as (res & r' & Hr & Hwf' & Hdefs & Hview); [apply M1|].
  rewrite Hr, or_panic_bind. apply wp_modify, HQ. destruct M1 as [[] Hd1 Hr1 Hs1].
  unfold defs, shown, Shown.of_registry in *. constructor; [constructor|..];
    unfold defs, shown, Shown.of_registry;
    rewrite ?dw_registry_set, ?dw_env_registry, ?dw_rest_registry; try done; [congruence|].
  rewrite <- Hs1. unfold Shown.mark.
  destruct (TagRegistry.view (dw_registry w1) !! id) as [tag|] eqn:Hid; injection Hview as _ ->.
  - apply map_eq. intros id'. rewrite lookup_fmap, lookup_insert, lookup_alter, lookup_fmap.
    case_decide; subst; [by rewrite Hid|by rewrite lookup_fmap].
  - symmetry. apply alter_absent. by rewrite lookup_fmap, Hid.
Qed.

Lemma wp_update_tag_value id v q ts (Q : outcome E (result Tag CoreError) → W → Prop) w :
  good w →
  (∀ res w', moved (Shown.put (defs w) id v q) w w' →
     is_ok res = match defs w !! id with
                 | Some d => TagValue.matches v (TagDefinition.data_type d)
                 | None => false
                 end → Q (Ret res) w') →
  wp (update_tag_value id v q ts) Q w.
Proof.
  intros Hw HQ. unfold update_tag_value. apply wp_bind, wp_now; [done|]. intros t w1 M1.
  apply wp_bind, wp_gets. simpl after.
  destruct (TagRegistry.update_tag_value_view (dw_registry w1) id v q ts t)
    as (res & r' & Hr & Hwf' & Hdefs & Hview); [apply M1|].
  rewrite Hr, or_panic_bind. apply wp_bind, wp_modify, wp_ret.
  destruct M1 as [[Hwf1 HU1] Hd1 Hr1 Hs1]. specialize (HQ res (dw_set_registry r' w1)).
  unfold defs, shown, Shown.of_registry in *. rewrite <- Hd1 in *. apply HQ.
  - constructor; [constructor|..];
      unfold defs, shown, Shown.of_registry;
      rewrite ?dw_registry_set, ?dw_env_registry, ?dw_rest_registry; try done; [congruence|].
    rewrite <- Hs1. unfold Shown.put.
    destruct (TagRegistry.defs (dw_registry w1) !! id) as [d|] eqn:Hdef.
    2: { by injection Hview as _ ->. }
    destruct (TagRegistry.typed_tag _ _ _ _ (TagRegistry.wf_typed _ Hwf1) Hdef) as (tag & Htag & _).
    rewrite Htag in Hview.
    destruct (TagValue.matches v (TagDefinition.data_type d)); injection Hview as _ ->; [|done].
    apply map_eq. intros id'. rewrite lookup_fmap, lookup_insert, lookup_alter, lookup_fmap.
    case_decide; subst; [by rewrite Htag|by rewrite lookup_fmap].
  - destruct (TagRegistry.defs (dw_registry w1) !! id) as [d|] eqn:Hdef.
    2: { by injection Hview as -> _. }
    destruct (TagRegistry.typed_tag _ _ _ _ (TagRegistry.wf_typed _ Hwf1) Hdef) as (tag & Htag & _).
    rewrite Htag in Hview.
    by destruct (TagValue.matches v (TagDefinition.data_type d)); injection Hview as -> _.
Qed.

(** An operation of the environment whose result is known. *)
Lemma wp_env_op {A} (f : Env → A * Env) (Q : outcome E A → W → Prop) a e w :
  f (dw_env w) = (a, e) → Q (Ret a) (dw_set_env e w) → wp (env_op f) Q w.
Proof. intros Hf HQ. unfold wp, env_op. by rewrite Hf. Qed.

Lemma wp_await_op {A} (f : Env → option (A * Env)) (Q : outcome E A → W → Prop) a e w :
  f (dw_env w) = Some (a, e) → Q (Ret a) (dw_set_env e w) → wp (await_op f) Q w.
Proof. intros Hf HQ. unfold wp, await_op. by rewrite Hf. Qed.

(** Marking several tags, one after the other. *)
Lemma wp_mark_all {X} (id : X → string) q (l : list X) (Q : outcome E unit → W → Prop) w :
  good w → (∀ w', moved (Shown.marks (id <$> l) q) w w' → Q (Ret tt) w') →
  wp (for_each (λ x, set_tag_quality (id x) q) l) Q w.
Proof.
  revert w. induction l as [|x l IH]; intros w Hw HQ; simpl.
  { apply wp_ret, HQ. by apply moved_refl. }
  apply wp_bind, wp_set_tag_quality; [done|]. intros w1 M1. simpl.
  apply IH; [apply M1|]. intros w2 M2. apply HQ. exact (moved_trans _ _ _ _ _ M1 M2).
Qed.
End ops.
End RegistryOps.
