(* ===== verification/Locality.v ===== *)
(** * Computations as programs of registry operations

    A poller's code shares the registry with the other threads and keeps everything else
    to itself.  A computation is local when it is such a program: whatever the registry
    holds, running it is running the operations of a program on the registry, one after
    the other, between steps on its own state.  The rules derive this along the structure
    of a computation, and with it the tags the computation may touch.  *)

From stdpp Require Import base tactics numbers list gmap strings.
From S2P Require Import Prelude Effects RustStd Crates TagValue Tag TagDefinition TagStore Registry CoreModel TagThreads DriverWorld.

Module Locality.

Lemma find_elem {X} (f : X → bool) l x : find f l = Some x → x ∈ l.
Proof. intros H. apply find_some in H as [H _]. by apply list_elem_of_In. Qed.

(** Programs all of whose results satisfy a predicate. *)
Fixpoint yields {C : Chrono} {A} (P : A → Prop) (p : TagThreads.prog A) : Prop :=
  match p with TagThreads.Done a => P a | TagThreads.Do _ k => ∀ x, yields P (k x) end.

Lemma yields_bind {C : Chrono} {A B} (P : A → Prop) (Q : B → Prop) (p : TagThreads.prog A)
    (f : A → TagThreads.prog B) :
  yields P p → (∀ a, P a → yields Q (f a)) → yields Q (TagThreads.bind p f).
Proof. intros Hp Hf. induction p as [a|op k IH]; simpl in *; eauto. Qed.

(** A program goes on from a result with the tags of a set, if every result lets it. *)
Lemma touches_bind {C : Chrono} {J : SerdeJson} {A B} T (P : A → Prop) (p : TagThreads.prog A)
    (f : A → TagThreads.prog B) :
  TagThreads.touches T p → yields P p → (∀ a, P a → TagThreads.touches T (f a)) →
  TagThreads.touches T (TagThreads.bind p f).
Proof.
  intros Ht Hp Hf. induction p as [a|op k IH]; simpl in *; [by apply Hf|]. naive_solver.
Qed.

(** ** Local computations *)

Section local.
Context {C : Chrono} {J : SerdeJson} {W E : Type}.
(** A world with its registry replaced; the definitions; the tags. *)
Context (put : TagRegistry → W → W) (D : TagDefinitionStore) (T : gset string).
Import TagThreads.

Record local {A} (m : M W E A) : Type := {
  tree : W → prog (outcome E A * W);
  tree_touches w : touches T (tree w);
  tree_runs w r x r' :
    TagRegistry.wf r → TagRegistry.definitions r = D →
    run_prog r (tree w) = Some (x, r') → m (put r w) = (x.1, put r' x.2);
}.

Lemma run_prog_keeps {A} (p : prog A) r x r' :
  TagRegistry.wf r → run_prog r p = Some (x, r') →
  TagRegistry.wf r' ∧ TagRegistry.definitions r' = TagRegistry.definitions r.
Proof.
  revert r. induction p as [a|op k IH]; intros r Hwf Hr; simpl in Hr; [by simplify_eq|].
  destruct (CoreModel.run_operation_spec r op Hwf) as (a & r1 & Hop & Hwf1 & _).
  rewrite Hop in Hr. destruct (IH a r1 Hwf1 Hr) as [? ->]. split; [done|].
  destruct op; simpl in Hop.
  - destruct (TagRegistry.get_tag r id); [|done]. by simplify_eq/=.
  - unfold TagRegistry.update_tag_value in Hop.
    destruct (TagRegistry.get_definition r id); [|by simplify_eq/=].
    destruct (TagStore.update_value_with_expected _ _ _ _ _ _ _) as [[]|]; by simplify_eq/=.
  - unfold TagRegistry.set_tag_quality in Hop.
    destruct (TagStore.set_quality _ _ _ _) as [[]|]; by simplify_eq/=.
Qed.

(** A computation on the thread's own state. *)
Definition own {A} (m : M W E A) : Prop := ∀ r w, m (put r w) = ((m w).1, put r (m w).2).
Definition local_own {A} (m : M W E A) (H : own m) : local m.
Proof.
  refine {| tree w := Done (m w) |}; [done|]. intros w r x r' _ _ [= <- <-]. apply H.
Defined.
Definition local_ret {A} (a : A) : local (mret a) := local_own (mret a) (λ r w, eq_refl).
Definition local_throw {A} (e : E) : local (throw (A:=A) e) := local_own (throw e) (λ r w, eq_refl).
Definition local_pending {A} : local (pending (A:=A)) := local_own pending (λ r w, eq_refl).
Definition local_or_panic {A} (o : option A) : local (or_panic o).
Proof. apply local_own. by destruct o. Defined.

Definition local_bind {A B} (m : M W E A) (k : A → M W E B)
    (Hm : local m) (Hk : ∀ a, local (k a)) : local (m ≫= k).
Proof.
  refine {| tree w := bind (tree m Hm w) (λ x, match x.1 with
                        | Ret a => tree (k a) (Hk a) x.2
                        | Fail e => Done (Fail e, x.2)
                        | Panic => Done (Panic, x.2)
                        | Pending => Done (Pending, x.2)
                        end) |}.
  - intros w. apply bind_touches; [apply tree_touches|].
    intros [[a|e| |] w']; simpl; [apply tree_touches|done..].
  - intros w r x r' Hwf HD Hrun. rewrite run_prog_bind in Hrun.
    destruct (run_prog r (tree m Hm w)) as [[y r1]|] eqn:H1; [|done]. simpl in Hrun.
    destruct (run_prog_keeps _ _ _ _ Hwf H1) as [Hwf1 HD1].
    pose proof (tree_runs m Hm w r y r1 Hwf HD H1) as Hm1.
    unfold mbind, M_bind. rewrite Hm1. destruct y as [[a|e| |] w1]; simpl in *; [|by simplify_eq/=..].
    eapply tree_runs; [done|congruence|done].
Defined.

Definition local_for_each {X} (f : X → M W E unit) (l : list X) (Hf : ∀ x, x ∈ l → local (f x)) :
  local (for_each f l).
Proof.
  induction l as [|x l IH]; simpl; [apply local_ret|].
  apply local_bind; [apply Hf; by left|]. intros _. apply IH. intros y Hy. apply Hf. by right.
Defined.

(** Computations that agree wherever the definitions are these. *)
Definition local_eq {A} (m m' : M W E A) (Hm : local m')
    (H : ∀ r w, TagRegistry.wf r → TagRegistry.definitions r = D → m (put r w) = m' (put r w)) : local m.
Proof.
  refine {| tree := tree m' Hm |}; [apply tree_touches|].
  intros w r x r' Hwf HD Hrun. rewrite H by done. by eapply tree_runs.
Defined.
End local.
Arguments own {_ _ _ _} put {A} m.
Arguments local {_ _ _ _} put D T {A} m.
Arguments tree {_ _ _ _ put D T A m} l w.
Arguments tree_touches {_ _ _ _ put D T A m} l w.
Arguments tree_runs {_ _ _ _ put D T A m} l w.

(** ** The operations of a driver on the registry *)

Section registry.
Context {C : Chrono} {J : SerdeJson} {W Env Rest E : Type} {DW : DriverWorld W Env Rest}.
Context (D : TagDefinitionStore) (T : gset string).
Import TagThreads.
Notation MW := (M W E).
Notation local := (local (E:=E) dw_set_registry D T).

Definition local_env_op {A} (f : Env → A * Env) : local (RegistryOps.env_op f).
Proof.
  apply local_own. intros r w. unfold RegistryOps.env_op. rewrite dw_env_registry.
  destruct (f (dw_env w)) as [a e]. simpl. by rewrite dw_set_env_registry.
Defined.
Definition local_await_op {A} (f : Env → option (A * Env)) : local (RegistryOps.await_op f).
Proof.
  apply local_own. intros r w. unfold RegistryOps.await_op. rewrite dw_env_registry.
  destruct (f (dw_env w)) as [[a e]|]; simpl; [by rewrite dw_set_env_registry|done].
Defined.
Definition local_now : local RegistryOps.now := local_env_op dw_now.

(** An operation and what is done with its answer. *)
Definition local_set_tag_quality id q : id ∈ T → local (RegistryOps.set_tag_quality id q).
Proof.
  intros Hid. unfold RegistryOps.set_tag_quality. apply local_bind; [apply local_now|]. intros t.
  refine {| tree w := Do (CoreModel.SetQuality id q t) (λ _, Done (Ret tt, w)) |}.
  - intros w. split; done.
  - intros w r x r' Hwf HD Hrun. simpl in Hrun. unfold mbind, M_bind, gets. rewrite dw_registry_set.
    destruct (TagRegistry.set_tag_quality r id q t) as [[res r1]|]; [|done]. simplify_eq/=.
    unfold modify. simpl. by rewrite dw_set_registry_twice.
Defined.

Definition local_update_tag_value id v q ts : id ∈ T → local (RegistryOps.update_tag_value id v q ts).
Proof.
  intros Hid. unfold RegistryOps.update_tag_value. apply local_bind; [apply local_now|]. intros t.
  refine {| tree w := Do (CoreModel.Update id v q ts t)
              (λ x, Done (match x with
                          | CoreModel.Updated res => Ret res
                          | _ => Panic (* not an answer to an update *)
                          end, w)) |}.
  - intros w. split; done.
  - intros w r x r' Hwf HD Hrun. simpl in Hrun. unfold mbind, M_bind, gets. rewrite dw_registry_set.
    destruct (TagRegistry.update_tag_value r id v q ts t) as [[res r1]|]; [|done]. simplify_eq/=.
    unfold modify. simpl. by rewrite dw_set_registry_twice.
Defined.

(** Reading a tag of the live registry. *)
Definition local_get_tag {A} id (k : result Tag CoreError → MW A) :
  id ∈ T → (∀ x, local (k x)) →
  local (r ← gets dw_registry; tag ← or_panic (TagRegistry.get_tag r id); k tag).
Proof.
  intros Hid Hk.
  refine {| tree w := Do (CoreModel.Get id)
              (λ x, match x with
                    | CoreModel.Got res => tree (Hk res) w
                    | _ => Done (Panic, w) (* not an answer to a read *)
                    end) |}.
  - intros w. split; [done|]. intros [res| |]; [apply tree_touches|done..].
  - intros w r x r' Hwf HD Hrun. simpl in Hrun. unfold mbind, M_bind, gets. rewrite dw_registry_set.
    destruct (TagRegistry.get_tag r id) as [res|]; [|done]. simpl in *. by eapply tree_runs.
Defined.

(** A look at the definitions, which never change. *)
Definition local_definitions {A} (k : TagRegistry → MW A) (m : MW A) :
  local m →
  (∀ r w, TagRegistry.definitions r = D → dw_registry w = r → k r w = m w) →
  local (gets dw_registry ≫= k).
Proof.
  intros Hm Hk. apply (local_eq _ _ _ _ m Hm). intros r w _ HD.
  unfold mbind, M_bind, gets. rewrite dw_registry_set. apply Hk; [done|apply dw_registry_set].
Defined.
End registry.
End Locality.
