(* ===== verification/Arrivals.v ===== *)
(** * Requests that arrive during a cycle

    The senders put requests into a driver's queue at any time, also while a cycle runs.
    Here two runs of the same code are compared: in the first, requests arrive during the
    run; in the second none does.  A computation [follows] when it does not look at the
    queue, and what arrives is found behind it; it [splits] when what arrived falls in two
    parts: the run is one that found the first part in the queue from the start, and left
    the second part untouched behind its queue.  The write loop of a driver splits, and so
    does a cycle. *)

From stdpp Require Import base tactics list.
From S2P Require Import Prelude Effects.

Module Arrivals.
Section arrivals.
Context {W1 W2 E Req : Type}.
(** The worlds agree on everything but their queues; the requests in the queue and those
    that are still to come. *)
Context (same : W1 → W2 → Prop) (queue1 coming : W1 → list Req) (queue2 : W2 → list Req).

Definition grows (w w' : W1) : Prop :=
  ∃ x, queue1 w' = queue1 w ++ x ∧ coming w = x ++ coming w'.
#[export] Instance grows_preorder : PreOrder grows.
Proof.
  split; [intros w; exists []; by rewrite app_nil_r|].
  intros w w' w'' (x & H1 & H2) (y & H3 & H4). exists (x ++ y).
  by rewrite H3, H1, H2, H4, !(assoc_L (++)).
Qed.

Record follows {A} (m1 : M W1 E A) (m2 : M W2 E A) : Prop := {
  fo_grows w1 : grows w1 (m1 w1).2;
  fo_same w1 w2 : same w1 w2 →
    (m1 w1).1 = (m2 w2).1 ∧ same (m1 w1).2 (m2 w2).2 ∧ queue2 (m2 w2).2 = queue2 w2;
}.

Definition splits {A} (m1 : M W1 E A) (m2 : M W2 E A) : Prop :=
  ∀ w1, ∃ before after, coming w1 = before ++ after ++ coming (m1 w1).2 ∧
    ∀ w2, same w1 w2 → queue2 w2 = queue1 w1 ++ before →
      (m1 w1).1 = (m2 w2).1 ∧ same (m1 w1).2 (m2 w2).2 ∧ queue1 (m1 w1).2 = queue2 (m2 w2).2 ++ after.

(** ** Computations that do not look at the queue *)

(** A step that no request arrives in. *)
Lemma follows_quiet {A} (m1 : M W1 E A) (m2 : M W2 E A) :
  (∀ w1, queue1 (m1 w1).2 = queue1 w1 ∧ coming (m1 w1).2 = coming w1) →
  (∀ w1 w2, same w1 w2 →
     (m1 w1).1 = (m2 w2).1 ∧ same (m1 w1).2 (m2 w2).2 ∧ queue2 (m2 w2).2 = queue2 w2) →
  follows m1 m2.
Proof.
  intros Hq Hs. split; [|done]. intros w1. unfold grows. destruct (Hq w1) as [-> ->]. exists []. by rewrite app_nil_r.
Qed.
Lemma follows_ret {A} (a : A) : follows (mret a) (mret a).
Proof. by apply follows_quiet. Qed.
Lemma follows_throw {A} e : follows (throw (A:=A) e) (throw e).
Proof. by apply follows_quiet. Qed.
Lemma follows_pending {A} : follows (pending (A:=A)) pending.
Proof. by apply follows_quiet. Qed.
Lemma follows_or_panic {A} (o : option A) : follows (or_panic o) (or_panic o).
Proof. destruct o; by apply follows_quiet. Qed.

Lemma follows_eq {A} (m1 m1' : M W1 E A) (m2 m2' : M W2 E A) :
  follows m1' m2' → (∀ w, m1 w = m1' w) → (∀ w, m2 w = m2' w) → follows m1 m2.
Proof. intros [H1 H2] E1 E2. split; intros w1; rewrite E1; [done|]. intros w2. rewrite E2. by apply H2. Qed.
Lemma follows_bind {A B} (m1 : M W1 E A) (m2 : M W2 E A) (k1 : A → M W1 E B) (k2 : A → M W2 E B) :
  follows m1 m2 → (∀ a, follows (k1 a) (k2 a)) → follows (m1 ≫= k1) (m2 ≫= k2).
Proof.
  intros Hm Hk. split.
  - intros w1. unfold mbind, M_bind. pose proof (fo_grows _ _ Hm w1) as Hg.
    destruct (m1 w1) as [[a|e| |] w1']; try done. etrans; [exact Hg|apply (fo_grows _ _ (Hk a))].
  - intros w1 w2 Hw. unfold mbind, M_bind. pose proof (fo_same _ _ Hm w1 w2 Hw) as (Ho & Hs & Hq).
    destruct (m1 w1) as [o1 w1'], (m2 w2) as [o2 w2']. simpl in *. subst o2.
    destruct o1 as [a|e| |]; try done.
    destruct (fo_same _ _ (Hk a) w1' w2' Hs) as (? & ? & Hq'). rewrite Hq', Hq. done.
Qed.
Lemma follows_for_each {X} (f1 : X → M W1 E unit) (f2 : X → M W2 E unit) l :
  (∀ x, follows (f1 x) (f2 x)) → follows (for_each f1 l) (for_each f2 l).
Proof.
  intros Hf. induction l as [|x l IH]; simpl; [apply follows_ret|]. by apply follows_bind.
Qed.

(** ** Computations that take from the queue *)

Lemma follows_splits {A} (m1 : M W1 E A) (m2 : M W2 E A) : follows m1 m2 → splits m1 m2.
Proof.
  intros Hm w1. destruct (fo_grows _ _ Hm w1) as (x & Hq & Hc). exists [], x. split; [done|].
  intros w2 Hw Hw2. destruct (fo_same _ _ Hm w1 w2 Hw) as (? & ? & Hq2).
  rewrite app_nil_r in Hw2. by rewrite Hq, Hq2, Hw2.
Qed.

(** What arrives before the queue is looked at counts as found in it. *)
Lemma splits_after {A B} (m1 : M W1 E A) (m2 : M W2 E A) (k1 : A → M W1 E B) (k2 : A → M W2 E B) :
  follows m1 m2 → (∀ a, splits (k1 a) (k2 a)) → splits (m1 ≫= k1) (m2 ≫= k2).
Proof.
  intros Hm Hk w1. destruct (fo_grows _ _ Hm w1) as (x & Hq & Hc).
  pose proof (fo_same _ _ Hm w1) as Hsame. unfold mbind, M_bind.
  destruct (m1 w1) as [[a|e| |] w1'] eqn:Hm1; simpl in *.
  2-4: exists [], x; split; [done|]; intros w2 Hw Hw2; rewrite app_nil_r in Hw2;
    specialize (Hsame w2 Hw); destruct (m2 w2) as [o2 w2']; simpl in *;
    destruct Hsame as (<- & Hs & Hq2); split_and!; try done; simpl; congruence.
  destruct (Hk a w1') as (before & after & Hc' & Hgo).
  exists (x ++ before), after. split; [by rewrite Hc, Hc', (assoc_L (++))|].
  intros w2 Hw Hw2. specialize (Hsame w2 Hw). destruct (m2 w2) as [o2 w2']. simpl in *.
  destruct Hsame as (<- & Hs & Hq2). apply Hgo; [done|]. by rewrite Hq2, Hw2, Hq, (assoc_L (++)).
Qed.

(** What arrives after it was looked at for the last time is left for the next cycle. *)
Lemma splits_then {A B} (m1 : M W1 E A) (m2 : M W2 E A) (k1 : A → M W1 E B) (k2 : A → M W2 E B) :
  splits m1 m2 → (∀ a, follows (k1 a) (k2 a)) → splits (m1 ≫= k1) (m2 ≫= k2).
Proof.
  intros Hm Hk w1. destruct (Hm w1) as (before & after & Hc & Hgo). unfold mbind, M_bind.
  destruct (m1 w1) as [[a|e| |] w1'] eqn:Hm1; simpl in *.
  2-4: exists before, after; split; [done|]; intros w2 Hw Hw2; specialize (Hgo w2 Hw Hw2);
    destruct (m2 w2) as [o2 w2']; simpl in *; by destruct Hgo as (<- & ? & ?).
  destruct (fo_grows _ _ (Hk a) w1') as (x & Hq & Hc').
  exists before, (after ++ x). split; [by rewrite Hc, Hc', !(assoc_L (++))|].
  intros w2 Hw Hw2. specialize (Hgo w2 Hw Hw2). destruct (m2 w2) as [o2 w2']. simpl in *.
  destruct Hgo as (<- & Hs & Hq1). destruct (fo_same _ _ (Hk a) w1' w2' Hs) as (? & ? & Hq2).
  by rewrite Hq, Hq1, Hq2, (assoc_L (++)).
Qed.

(** A look at the queue: after the arrivals, the first request of it, or [none]. *)
Definition pops {X} (none : X) (some : Req → X) (pop1 : M W1 E X) (pop2 : M W2 E X) : Prop :=
  ∀ w1, ∃ x, coming w1 = x ++ coming (pop1 w1).2 ∧
    match queue1 w1 ++ x with
    | [] => (pop1 w1).1 = Ret none ∧ queue1 (pop1 w1).2 = [] ∧
        ∀ w2, same w1 w2 → queue2 w2 = [] →
          (pop2 w2).1 = Ret none ∧ same (pop1 w1).2 (pop2 w2).2 ∧ queue2 (pop2 w2).2 = []
    | r :: q => (pop1 w1).1 = Ret (some r) ∧ queue1 (pop1 w1).2 = q ∧
        ∀ w2 rest, same w1 w2 → queue2 w2 = r :: q ++ rest →
          (pop2 w2).1 = Ret (some r) ∧ same (pop1 w1).2 (pop2 w2).2 ∧ queue2 (pop2 w2).2 = q ++ rest
    end.

Lemma splits_pop {X A} none some (pop1 : M W1 E X) (pop2 : M W2 E X) (k1 : X → M W1 E A) (k2 : X → M W2 E A) :
  pops none some pop1 pop2 → follows (k1 none) (k2 none) → (∀ r, splits (k1 (some r)) (k2 (some r))) →
  splits (pop1 ≫= k1) (pop2 ≫= k2).
Proof.
  intros Hpop Hnone Hsome w1. destruct (Hpop w1) as (x & Hc & Hx). unfold mbind, M_bind.
  destruct (pop1 w1) as [o1 w1']. simpl in *.
  destruct (queue1 w1 ++ x) as [|r q] eqn:Hq; destruct Hx as (-> & Hq1 & Hx).
  - apply app_eq_nil in Hq as [Hq ->].
    destruct (fo_grows _ _ Hnone w1') as (y & Hy & Hcy). exists [], y. split; [by rewrite Hc, Hcy|].
    intros w2 Hw Hw2. rewrite Hq in Hw2. specialize (Hx w2 Hw Hw2).
    destruct (pop2 w2) as [o2 w2']. simpl in *. destruct Hx as (-> & Hs & Hq2).
    destruct (fo_same _ _ Hnone w1' w2' Hs) as (? & ? & Hq2').
    by rewrite Hy, Hq1, Hq2', Hq2.
  - destruct (Hsome r w1') as (before & after & Hc' & Hgo).
    exists (x ++ before), after. split; [by rewrite Hc, Hc', (assoc_L (++))|].
    intros w2 Hw Hw2. rewrite (assoc_L (++)), Hq in Hw2. specialize (Hx w2 before Hw Hw2).
    destruct (pop2 w2) as [o2 w2']. simpl in *. destruct Hx as (-> & Hs & Hq2).
    apply Hgo; [done|]. by rewrite Hq2, Hq1.
Qed.
End arrivals.
End Arrivals.
