(* ===== verification/ModbusTypes.v ===== *)
(** * Modbus driver: mappings, configuration, requests, errors

    Models driver/modbus/src/{mapping,config,write_request,errors}.rs and the
    byte-order helper of driver/common.  A [u16] field is a [Z] in its range; the
    [SocketAddr] of the endpoint is opaque; a oneshot sender is the number of its
    channel. *)

From stdpp Require Import base tactics numbers list gmap strings.
From S2P Require Import Prelude RustStd RustStr Crates TagValue.
Local Open Scope Z_scope.

Module DriverCommon.
(** [driver_common::apply_byte_order]; [None] is a panic. *)
Definition apply_byte_order (bytes : list Z) (order : WordOrder) : option (list Z) :=
  WordOrder.apply_to_bytes order bytes.
End DriverCommon.

Module ModbusFunction.
(** Modbus function selector. *)
Inductive ModbusFunction := Coils | DiscreteInputs | HoldingRegisters | InputRegisters.
#[export] Instance ModbusFunction_eq_dec : EqDecision ModbusFunction.
Proof. solve_decision. Defined.

(** [#[derive(Hash)]]: the functions are keys of a hash map. *)
Definition to_nat (f : ModbusFunction) : nat :=
  match f with Coils => 0 | DiscreteInputs => 1 | HoldingRegisters => 2 | InputRegisters => 3 end.
Definition of_nat (n : nat) : option ModbusFunction :=
  match n with
  | 0%nat => Some Coils | 1%nat => Some DiscreteInputs
  | 2%nat => Some HoldingRegisters | 3%nat => Some InputRegisters | _ => None
  end.
#[export] Program Instance ModbusFunction_countable : Countable ModbusFunction :=
  inj_countable to_nat of_nat _.
Next Obligation. by intros []. Qed.

(** [{}] and [{:?}], which agree. *)
Definition to_string (f : ModbusFunction) : string :=
  match f with
  | Coils => "Coils"
  | DiscreteInputs => "DiscreteInputs"
  | HoldingRegisters => "HoldingRegisters"
  | InputRegisters => "InputRegisters"
  end.
End ModbusFunction.
Notation ModbusFunction := ModbusFunction.ModbusFunction.
#[export] Existing Instance ModbusFunction.ModbusFunction_eq_dec.
#[export] Existing Instance ModbusFunction.ModbusFunction_countable.

Module ModbusMapping.
(** Per-tag mapping to Modbus addressing details. *)
Record ModbusMapping := mk {
  tag_id : string;
  data_type : TagDataType;
  address : Z;
  quantity : Z;
  function : ModbusFunction;
  bit_offset : Z;
  writable : bool;
  byte_order : WordOrder;
}.
#[export] Instance ModbusMapping_eq_dec : EqDecision ModbusMapping.
Proof. solve_decision. Defined.

(** [default_quantity], [default_bit_offset] *)
Definition default_quantity : Z := 1.
Definition default_bit_offset : Z := 0.

(** [ModbusMapping::new] *)
Definition new (tag_id : string) (address quantity : Z) (function : ModbusFunction)
    (data_type : TagDataType) (bit_offset : Z) (writable : bool) (byte_order : WordOrder)
    : ModbusMapping :=
  {| tag_id := tag_id; data_type := data_type; address := address; quantity := quantity;
     function := function; bit_offset := bit_offset; writable := writable;
     byte_order := byte_order |}.

(** What the field types guarantee. *)
Definition in_range (m : ModbusMapping) : Prop :=
  is_u16 (address m) ∧ is_u16 (quantity m) ∧ is_u8 (bit_offset m).
End ModbusMapping.
Notation ModbusMapping := ModbusMapping.ModbusMapping.
#[export] Existing Instance ModbusMapping.ModbusMapping_eq_dec.

Module ModbusConfig.
(** Configuration of a Modbus/TCP driver instance. *)
Record ModbusConfig {SocketAddr : Type} := mk {
  name : string;
  endpoint : SocketAddr;
  unit_id : Z;
  cycle_ms : Z;
  mappings : list ModbusMapping;
  keepalive_secs : Z;
  max_backoff_secs : Z;
  io_timeout_ms : Z;
}.
Arguments ModbusConfig : clear implicits.

Definition default_keepalive_secs : Z := 30.
Definition default_max_backoff_secs : Z := 30.
Definition default_io_timeout_ms : Z := 2000.

(** [ModbusConfig::new] *)
Definition new {SocketAddr} (name : string) (endpoint : SocketAddr) (unit_id cycle_ms : Z)
    (mappings : list ModbusMapping) : ModbusConfig SocketAddr :=
  {| name := name; endpoint := endpoint; unit_id := unit_id; cycle_ms := cycle_ms;
     mappings := mappings; keepalive_secs := default_keepalive_secs;
     max_backoff_secs := default_max_backoff_secs; io_timeout_ms := default_io_timeout_ms |}.
End ModbusConfig.
Notation ModbusConfig := ModbusConfig.ModbusConfig.

Module ModbusError.
(** [DriverError] of the Modbus crate; an [io::Error] is its message. *)
Inductive DriverError :=
| Io (msg : string)
| Modbus (msg : string)
| Timeout
| Mapping (msg : string)
| Other (msg : string).
#[export] Instance DriverError_eq_dec : EqDecision DriverError.
Proof. solve_decision. Defined.

(** The [Display] of the errors. *)
Definition to_string (e : DriverError) : string :=
  match e with
  | Io s => "IO/network error: " +:+ s
  | Modbus s => "Modbus protocol error: " +:+ s
  | Timeout => "Timeout"
  | Mapping s => "Mapping error: " +:+ s
  | Other s => "Other: " +:+ s
  end.
End ModbusError.

Module WriteRequest.
Section defs.
Context {C : Chrono}.
(** A queued write request with an optional reply channel. *)
Record WriteRequest := mk {
  tag_id : string;
  value : TagValue;
  reply : option nat;
}.

(** [WriteRequest::new], [with_reply], [take_reply] *)
Definition new (tag_id : string) (value : TagValue) : WriteRequest :=
  {| tag_id := tag_id; value := value; reply := None |}.
Definition with_reply (r : WriteRequest) (tx : nat) : WriteRequest :=
  {| tag_id := tag_id r; value := value r; reply := Some tx |}.
Definition take_reply (r : WriteRequest) : option nat * WriteRequest :=
  (reply r, {| tag_id := tag_id r; value := value r; reply := None |}).
End defs.
Arguments WriteRequest : clear implicits.
Arguments WriteRequest {_}.
End WriteRequest.
Notation WriteRequest := WriteRequest.WriteRequest.
