(* ===== verification/ModbusCodec.v ===== *)
(** * Modbus driver: tag values and registers

    Models the pure codec of driver/modbus/src/driver.rs: [registers_to_bytes],
    [decode_bytes_to_tagvalue], [tagvalue_to_registers], and the byte reordering
    of the write path of [run_read_cycle_impl]. *)

From stdpp Require Import base tactics numbers list gmap strings.
From S2P Require Import Prelude RustStd RustStr Crates CratesRef TagValue ModbusTypes.
Local Open Scope Z_scope.

Module ModbusCodec.
Import ModbusError.

(** [ModbusDriver::registers_to_bytes] *)
Definition registers_to_bytes (registers : list Z) : list Z :=
  foldl (λ b r, b ++ [hi_byte r; lo_byte r]) [] registers.

Section defs.
Context {C : Chrono} {B : ByteOrder}.

(** [cur.read_u16::<BigEndian>().unwrap_or(0)] *)
Definition next_u16 (cur : list Z) : Z * list Z :=
  let '(r, cur) := read_u16 cur in (default 0 r, cur).

(** Two words as a [u32] and four words as a [u64]: [(hi << 16) | lo], ... *)
Definition next_u32 (cur : list Z) : Z * list Z :=
  let '(hi, cur) := next_u16 cur in
  let '(lo, cur) := next_u16 cur in
  (Z.lor (as_u32 (Z.shiftl hi 16)) lo, cur).
Definition next_u64 (cur : list Z) : Z * list Z :=
  let '(w0, cur) := next_u16 cur in
  let '(w1, cur) := next_u16 cur in
  let '(w2, cur) := next_u16 cur in
  let '(w3, cur) := next_u16 cur in
  (Z.lor (Z.lor (Z.lor (as_u64 (Z.shiftl w0 48)) (as_u64 (Z.shiftl w1 32)))
            (as_u64 (Z.shiftl w2 16))) w3, cur).

(** [ModbusDriver::decode_bytes_to_tagvalue] *)
Definition decode_bytes_to_tagvalue (data_type : TagDataType) (bytes : list Z)
    (bit_offset : Z) : result TagValue DriverError :=
  match data_type with
  | TagDataType.Bool =>
      let w := (next_u16 bytes).1 in
      Ok (TagValue.Bool (negb (Z.land (Z.shiftr w (bit_offset mod 16)) 1 =? 0)))
  | TagDataType.UInt16 => Ok (TagValue.UInt16 (next_u16 bytes).1)
  | TagDataType.Int16 => Ok (TagValue.Int16 (default 0 (read_i16 bytes).1))
  | TagDataType.UInt32 => Ok (TagValue.UInt32 (next_u32 bytes).1)
  | TagDataType.Int32 => Ok (TagValue.Int32 (as_i32 (next_u32 bytes).1))
  | TagDataType.Float => Ok (TagValue.Float (next_u32 bytes).1)
  | TagDataType.Double => Ok (TagValue.Double (next_u64 bytes).1)
  | TagDataType.Int64 => Ok (TagValue.Int64 (as_i64 (next_u64 bytes).1))
  | TagDataType.UInt64 => Ok (TagValue.UInt64 (next_u64 bytes).1)
  | TagDataType.DateTime =>
      if (8 <=? length bytes)%nat then
        let ms := default 0 (read_i64 (take 8 bytes)).1 in
        Ok (TagValue.DateTime (default unix_epoch (from_timestamp_millis ms)))
      else
        match from_utf8 bytes with
        | None => Err (Other "Not enough data for DateTime and not valid UTF-8")
        | Some s =>
            match parse_from_rfc3339 s with
            | None => Err (Other "Invalid DateTime format")
            | Some parsed => Ok (TagValue.DateTime parsed)
            end
        end
  | TagDataType.ByteString => Ok (TagValue.ByteString bytes)
  | TagDataType.String =>
      Ok (TagValue.String
            match from_utf8 bytes with
            | Some st => string_of_bytes (trim_end_nul (as_bytes st))
            | None => hex_upper bytes
            end)
  end.

(** [for chunk in bytes.chunks(2)]: a last chunk of one byte has no [chunk[1]]. *)
Fixpoint chunks_to_regs (bytes : list Z) : option (list Z) :=
  match bytes with
  | [] => Some []
  | [_] => None
  | a :: b :: bytes =>
      regs ← chunks_to_regs bytes; Some (Z.lor (as_u16 (Z.shiftl a 8)) b :: regs)
  end.

(** [if bytes.len() % 2 != 0 { bytes.push(0) }] *)
Definition pad_even (bytes : list Z) : list Z :=
  if (length bytes mod 2 =? 0)%nat then bytes else bytes ++ [0].

(** The registers of a 32-bit and of a 64-bit pattern. *)
Definition words_of_u32 (ux : Z) : list Z := [word_at ux 16; word_at ux 0].
Definition words_of_u64 (bits : Z) : list Z :=
  [word_at bits 48; word_at bits 32; word_at bits 16; word_at bits 0].

(** [tagvalue_to_registers]; [None] is a panic. *)
Definition tagvalue_to_registers (value : TagValue)
    : option (result (list Z) DriverError) :=
  match value with
  | TagValue.Bool b => Some (Ok [if b then 1 else 0])
  | TagValue.UInt16 v => Some (Ok [v])
  | TagValue.Int16 v => Some (Ok [as_u16 v])
  | TagValue.UInt32 v => Some (Ok (words_of_u32 v))
  | TagValue.Int32 v => Some (Ok (words_of_u32 (as_u32 v)))
  | TagValue.Float f => Some (Ok (words_of_u32 f))
  | TagValue.Double d => Some (Ok (words_of_u64 d))
  | TagValue.UInt64 v => Some (Ok (words_of_u64 v))
  | TagValue.Int64 v => Some (Ok (words_of_u64 (as_u64 v)))
  | TagValue.DateTime dt => Some (Ok (words_of_u64 (as_u64 (timestamp_millis dt))))
  | TagValue.ByteString b => Ok <$> chunks_to_regs (pad_even b)
  | TagValue.String s => Ok <$> chunks_to_regs (pad_even (as_bytes s))
  end.

(** [while let Ok(w) = cur.read_u16() { ordered_words.push(w) }] *)
Fixpoint read_words (fuel : nat) (cur : list Z) : list Z :=
  match fuel with
  | O => []
  | S fuel =>
      match read_u16 cur with
      | (Some w, cur) => w :: read_words fuel cur
      | (None, _) => []
      end
  end.

(** The write path: words to bytes, byte order of the mapping, back to words;
    the inner [None] is the branch "Ordered bytes length not even". *)
Definition order_words (words : list Z) (order : WordOrder) : option (option (list Z)) :=
  let tx_bytes := registers_to_bytes words in
  ordered_bytes ← DriverCommon.apply_byte_order tx_bytes order;
  if (length ordered_bytes mod 2 =? 0)%nat
  then Some (Some (read_words (length ordered_bytes) ordered_bytes))
  else Some None.

(** The read path of one mapping: byte order, then decoding. *)
Definition decode_slice (data_type : TagDataType) (order : WordOrder) (bit_offset : Z)
    (slice : list Z) : option (result TagValue DriverError) :=
  ordered ← DriverCommon.apply_byte_order slice order;
  Some (decode_bytes_to_tagvalue data_type ordered bit_offset).

(** ** Registers and bytes *)

Lemma registers_to_bytes_cons r rs :
  registers_to_bytes (r :: rs) = hi_byte r :: lo_byte r :: registers_to_bytes rs.
Proof.
  assert (∀ acc, foldl (λ b r, b ++ [hi_byte r; lo_byte r]) acc rs
                 = acc ++ registers_to_bytes rs) as Hacc.
  { unfold registers_to_bytes. induction rs as [|x rs IH]; intros acc; simpl.
    - by rewrite app_nil_r.
    - rewrite IH, (IH [_; _]). by rewrite <- (assoc_L (++)). }
  unfold registers_to_bytes. simpl. by rewrite Hacc.
Qed.

Lemma registers_to_bytes_app r1 r2 :
  registers_to_bytes (r1 ++ r2) = registers_to_bytes r1 ++ registers_to_bytes r2.
Proof.
  induction r1 as [|r r1 IH]; [done|]. simpl. by rewrite !registers_to_bytes_cons, IH.
Qed.

Lemma registers_to_bytes_length rs : length (registers_to_bytes rs) = (2 * length rs)%nat.
Proof. induction rs as [|r rs IH]; [done|]. rewrite registers_to_bytes_cons. simpl. lia. Qed.

Lemma registers_to_bytes_bytes rs : is_bytes (registers_to_bytes rs).
Proof.
  induction rs as [|r rs IH]; [constructor|]. rewrite registers_to_bytes_cons.
  unfold is_bytes in *. auto with bridge.
Qed.

Lemma be_value_two a b : be_value [a; b] = a * 256 + b.
Proof. done. Qed.

Lemma read_words_cons fuel a b l :
  read_words (S fuel) (a :: b :: l) = (a * 256 + b) :: read_words fuel l.
Proof. simpl. by rewrite read_u16_ok. Qed.

Lemma read_words_short fuel l : (length l < 2)%nat → read_words fuel l = [].
Proof.
  intros Hl. destruct fuel; simpl; [done|].
  by destruct (read_u16_eof l Hl) as (r & -> & _).
Qed.

(** Splitting an even buffer into words and writing them out gives it back. *)
Lemma registers_to_bytes_read_words l fuel :
  is_bytes l → Nat.Even (length l) → (length l ≤ fuel)%nat →
  registers_to_bytes (read_words fuel l) = l.
Proof.
  revert fuel. induction l as [|a|a b l IH] using list_two_ind; intros fuel Hb He Hf.
  - by rewrite read_words_short by (simpl; lia).
  - destruct He as [k Hk]. simpl in Hk. lia.
  - destruct fuel as [|fuel]; simpl in Hf; [lia|].
    apply Forall_cons in Hb as [Ha Hb]. apply Forall_cons in Hb as [Hb Hl].
    rewrite read_words_cons, registers_to_bytes_cons, hi_byte_make, lo_byte_make by done.
    rewrite IH; [done|done| |lia]. destruct He as [k Hk]. exists (k - 1)%nat. simpl in Hk. lia.
Qed.

Lemma read_words_length l fuel :
  (length l ≤ fuel)%nat → length (read_words fuel l) = (length l / 2)%nat.
Proof.
  revert fuel. induction l as [|a|a b l IH] using list_two_ind; intros fuel Hf.
  1,2: by rewrite read_words_short by (simpl; lia).
  destruct fuel as [|fuel]; simpl in Hf; [lia|].
  rewrite read_words_cons. cbn [length]. rewrite IH by lia.
  replace (S (S (length l))) with (length l + 1 * 2)%nat by lia.
  rewrite Nat.div_add by done. lia.
Qed.

Lemma read_words_u16 l fuel : is_bytes l → Forall is_u16 (read_words fuel l).
Proof.
  revert fuel. induction l as [|a|a b l IH] using list_two_ind; intros fuel Hb.
  1,2: rewrite read_words_short by (simpl; lia); constructor.
  destruct fuel as [|fuel]; [constructor|].
  apply Forall_cons in Hb as [Ha Hb]. apply Forall_cons in Hb as [Hb Hl].
  rewrite read_words_cons. constructor; [by apply make_word_range|by apply IH].
Qed.

(** The write path never takes the "not even" branch and never panics, and the
    bytes of the words it sends are the reordered bytes of the words it got. *)
Lemma order_words_spec words order :
  ∃ ordered, order_words words order = Some (Some ordered) ∧
    registers_to_bytes ordered = WordOrder.order_spec order (registers_to_bytes words) ∧
    length ordered = length words ∧ Forall is_u16 ordered.
Proof.
  unfold order_words, DriverCommon.apply_byte_order.
  rewrite WordOrder.apply_to_bytes_spec. cbn [mbind option_bind].
  rewrite WordOrder.order_spec_length, registers_to_bytes_length.
  assert ((2 * length words) mod 2 = 0)%nat as -> by (rewrite Nat.mul_comm; apply Nat.Div0.mod_mul).
  rewrite Nat.eqb_refl. eexists. split; [done|]. split; [|split].
  - apply registers_to_bytes_read_words;
      rewrite ?WordOrder.order_spec_length, ?registers_to_bytes_length;
      auto using WordOrder.order_spec_bytes, registers_to_bytes_bytes.
    by exists (length words).
  - rewrite read_words_length;
      rewrite WordOrder.order_spec_length, registers_to_bytes_length; [|lia].
    by rewrite (Nat.mul_comm 2), Nat.div_mul.
  - apply read_words_u16, WordOrder.order_spec_bytes, registers_to_bytes_bytes.
Qed.

(** ** Decoding what was encoded *)

Lemma next_u16_word w l : is_u16 w → next_u16 (registers_to_bytes [w] ++ l) = (w, l).
Proof.
  intros Hw. rewrite registers_to_bytes_cons. unfold next_u16. simpl.
  rewrite read_u16_ok, be_value_two, hi_lo_byte by done. done.
Qed.

Lemma next_u16_cons w ws :
  is_u16 w → next_u16 (registers_to_bytes (w :: ws)) = (w, registers_to_bytes ws).
Proof.
  intros Hw. change (w :: ws) with ([w] ++ ws). rewrite registers_to_bytes_app.
  by apply next_u16_word.
Qed.

Lemma lor_words32 hi lo :
  is_u16 hi → is_u16 lo → Z.lor (as_u32 (Z.shiftl hi 16)) lo = hi * 65536 + lo.
Proof.
  intros Hh Hl. rewrite as_u32_id.
  - by rewrite lor_shiftl.
  - rewrite Z.shiftl_mul_pow2 by done. int_ranges. lia.
Qed.

Lemma next_u32_words x ws :
  is_u32 x → next_u32 (registers_to_bytes (words_of_u32 x ++ ws)) = (x, registers_to_bytes ws).
Proof.
  intros Hx. unfold next_u32, words_of_u32. simpl.
  rewrite !next_u16_cons by auto with bridge.
  rewrite lor_words32 by auto with bridge. by rewrite words32.
Qed.

Lemma lor_words64 w0 w1 w2 w3 :
  is_u16 w0 → is_u16 w1 → is_u16 w2 → is_u16 w3 →
  Z.lor (Z.lor (Z.lor (as_u64 (Z.shiftl w0 48)) (as_u64 (Z.shiftl w1 32)))
           (as_u64 (Z.shiftl w2 16))) w3
  = w0 * 281474976710656 + w1 * 4294967296 + w2 * 65536 + w3.
Proof.
  intros H0 H1 H2 H3.
  assert (∀ w s, is_u16 w → (s = 48 ∨ s = 32 ∨ s = 16) →
    as_u64 (Z.shiftl w s) = Z.shiftl w s) as Hid.
  { intros w s Hw Hs. apply as_u64_id. rewrite Z.shiftl_mul_pow2 by lia.
    destruct Hs as [->|[->| ->]]; int_ranges; lia. }
  rewrite !Hid by auto. rewrite <- !Z.lor_assoc.
  rewrite (lor_shiftl w2 w3 16) by done.
  rewrite (lor_shiftl w1 _ 32) by (int_ranges; lia).
  rewrite (lor_shiftl w0 _ 48) by (int_ranges; lia).
  pow2_numerals. lia.
Qed.

Lemma next_u64_words x ws :
  is_u64 x → next_u64 (registers_to_bytes (words_of_u64 x ++ ws)) = (x, registers_to_bytes ws).
Proof.
  intros Hx. unfold next_u64, words_of_u64. simpl.
  rewrite !next_u16_cons by auto with bridge.
  rewrite lor_words64 by auto with bridge. by rewrite words64.
Qed.

Lemma be_value_words64 x :
  is_u64 x →
  be_value (registers_to_bytes (words_of_u64 x)) = x.
Proof.
  intros Hx. unfold words_of_u64. rewrite !registers_to_bytes_cons.
  unfold registers_to_bytes, be_value. simpl.
  pose proof (hi_lo_byte (word_at x 48) (word_at_range _ _)).
  pose proof (hi_lo_byte (word_at x 32) (word_at_range _ _)).
  pose proof (hi_lo_byte (word_at x 16) (word_at_range _ _)).
  pose proof (hi_lo_byte (word_at x 0) (word_at_range _ _)).
  rewrite <- (words64 x) at 9 by done. lia.
Qed.

Lemma read_i64_words x ws :
  is_i64 x → (read_i64 (take 8 (registers_to_bytes (words_of_u64 (as_u64 x) ++ ws)))).1 = Some x.
Proof.
  intros Hx. rewrite registers_to_bytes_app, take_app_le by done.
  rewrite take_ge by done. unfold words_of_u64. rewrite !registers_to_bytes_cons.
  change (registers_to_bytes []) with (@nil Z). rewrite read_i64_ok. simpl. f_equal.
  pose proof (be_value_words64 (as_u64 x) (as_u64_range x)) as Hb.
  unfold words_of_u64 in Hb. rewrite !registers_to_bytes_cons in Hb.
  change (registers_to_bytes []) with (@nil Z) in Hb. rewrite Hb. by apply as_i64_u64.
Qed.

Lemma pad_even_even l : Nat.Even (length (pad_even l)).
Proof.
  unfold pad_even. destruct (Nat.eqb_spec (length l mod 2) 0) as [H|H].
  - by apply Nat.Div0.mod_divides in H as [k Hk]; exists k.
  - rewrite length_app. simpl. pose proof (Nat.mod_upper_bound (length l) 2 ltac:(lia)).
    exists (length l / 2 + 1)%nat. pose proof (Nat.div_mod_eq (length l) 2). lia.
Qed.

Lemma pad_even_bytes l : is_bytes l → is_bytes (pad_even l).
Proof.
  intros Hl. unfold pad_even. case_match; [done|]. apply Forall_app. split; [done|].
  by repeat constructor.
Qed.

(** The padding adds nothing or one zero byte. *)
Lemma pad_even_replicate l : ∃ n, (n ≤ 1)%nat ∧ pad_even l = l ++ replicate n 0.
Proof.
  unfold pad_even. destruct (_ =? _)%nat; [exists 0%nat|exists 1%nat]; split; try lia; [|done].
  by rewrite app_nil_r.
Qed.

(** Even buffers are cut into registers that write out to the buffer. *)
Lemma chunks_to_regs_spec l :
  is_bytes l → Nat.Even (length l) →
  ∃ regs, chunks_to_regs l = Some regs ∧ registers_to_bytes regs = l ∧ Forall is_u16 regs.
Proof.
  induction l as [|a|a b l IH] using list_two_ind; intros Hb He.
  - by exists [].
  - destruct He as [k Hk]. simpl in Hk. lia.
  - apply Forall_cons in Hb as [Ha Hb]. apply Forall_cons in Hb as [Hb Hl].
    destruct IH as (regs & Hr & Hbytes & Hu); [done| |].
    { destruct He as [k Hk]. exists (k - 1)%nat. simpl in Hk. lia. }
    assert (Z.lor (as_u16 (Z.shiftl a 8)) b = a * 256 + b) as Hlor.
    { rewrite as_u16_id; [by rewrite lor_shiftl|].
      rewrite Z.shiftl_mul_pow2 by done. int_ranges. lia. }
    exists ((a * 256 + b) :: regs). simpl. rewrite Hr. simpl. rewrite Hlor.
    split; [done|]. split; [|by constructor; [apply make_word_range|]].
    by rewrite registers_to_bytes_cons, hi_byte_make, lo_byte_make, Hbytes by done.
Qed.

(** The value a tag shows after [v] was written and read back: an instant keeps
    its milliseconds, a byte string is padded to whole registers, a string loses
    its trailing NULs; every other value is unchanged. *)
Definition read_back (v v' : TagValue) : Prop :=
  match v with
  | TagValue.DateTime dt =>
      ∃ dt', v' = TagValue.DateTime dt' ∧ timestamp_millis dt' = timestamp_millis dt
  | TagValue.ByteString b => v' = TagValue.ByteString (pad_even b)
  | TagValue.String s => v' = TagValue.String (string_of_bytes (trim_end_nul (as_bytes s)))
  | _ => v' = v
  end.

Lemma trim_end_nul_zeros l n : trim_end_nul (l ++ replicate n 0) = trim_end_nul l.
Proof.
  unfold trim_end_nul. by rewrite reverse_app, reverse_replicate, drop_zeros_app_zeros.
Qed.

Lemma utf8_valid_pad l : utf8_valid l = true → utf8_valid (pad_even l) = true.
Proof.
  intros Hl. unfold pad_even. case_match; [done|]. by apply utf8_valid_app_zero.
Qed.

Lemma decode_string s :
  utf8_valid (as_bytes s) = true →
  decode_bytes_to_tagvalue TagDataType.String (pad_even (as_bytes s)) 0
  = Ok (TagValue.String (string_of_bytes (trim_end_nul (as_bytes s)))).
Proof.
  intros Hs. simpl. unfold from_utf8. rewrite utf8_valid_pad by done.
  rewrite as_bytes_of_bytes by (apply pad_even_bytes; auto with bridge).
  destruct (pad_even_replicate (as_bytes s)) as (n & _ & ->).
  by rewrite trim_end_nul_zeros.
Qed.

Lemma decode_datetime dt :
  ∃ dt', decode_bytes_to_tagvalue TagDataType.DateTime
           (registers_to_bytes (words_of_u64 (as_u64 (timestamp_millis dt)))) 0
         = Ok (TagValue.DateTime dt') ∧ timestamp_millis dt' = timestamp_millis dt.
Proof.
  destruct (from_timestamp_millis_of dt) as (dt' & Hdt' & Hms). exists dt'. split; [|done].
  unfold decode_bytes_to_tagvalue.
  rewrite registers_to_bytes_length. cbn [length words_of_u64 Nat.leb Nat.mul Nat.add].
  pose proof (read_i64_words (timestamp_millis dt) [] (timestamp_millis_i64 dt)) as Hr.
  rewrite app_nil_r in Hr. rewrite Hr. simpl. by rewrite Hdt'.
Qed.

(** One-word values. *)
Lemma decode_word w :
  is_u16 w → next_u16 (registers_to_bytes [w]) = (w, []) ∧
  (read_i16 (registers_to_bytes [w])).1 = Some (as_i16 w).
Proof.
  intros Hw. split; [by rewrite next_u16_cons|].
  rewrite registers_to_bytes_cons, read_i16_ok, be_value_two, hi_lo_byte by done. done.
Qed.

Lemma next_u32_of x :
  is_u32 x → next_u32 (registers_to_bytes (words_of_u32 x)) = (x, []).
Proof. intros Hx. rewrite <- (app_nil_r (words_of_u32 x)). by rewrite next_u32_words. Qed.

Lemma next_u64_of x :
  is_u64 x → next_u64 (registers_to_bytes (words_of_u64 x)) = (x, []).
Proof. intros Hx. rewrite <- (app_nil_r (words_of_u64 x)). by rewrite next_u64_words. Qed.

Lemma words_of_u32_u16 x : Forall is_u16 (words_of_u32 x).
Proof. unfold words_of_u32. auto with bridge. Qed.

Lemma words_of_u64_u16 x : Forall is_u16 (words_of_u64 x).
Proof. unfold words_of_u64. auto 6 with bridge. Qed.

(** What [tagvalue_to_registers] produces decodes, byte for byte, to the value. *)
Lemma decode_encode v :
  TagValue.wf v →
  ∃ words v', tagvalue_to_registers v = Some (Ok words) ∧ Forall is_u16 words ∧
    decode_bytes_to_tagvalue (TagValue.data_type v) (registers_to_bytes words) 0 = Ok v' ∧
    read_back v v'.
Proof.
  pose proof words_of_u32_u16. pose proof words_of_u64_u16.
  destruct v as [b|v|v|v|v|v|v|v|v|s|dt|b]; intros Hwf; simpl in Hwf;
    unfold tagvalue_to_registers.
  10: { destruct (chunks_to_regs_spec (pad_even (as_bytes s))) as (regs & -> & Hb & Hu);
          [by apply pad_even_bytes; auto with bridge|apply pad_even_even|].
        do 2 eexists. rewrite Hb, decode_string by done. done. }
  11: { destruct (chunks_to_regs_spec (pad_even b)) as (regs & -> & Hb & Hu);
          [by apply pad_even_bytes|apply pad_even_even|].
        do 2 eexists. rewrite Hb. done. }
  10: { destruct (decode_datetime dt) as (dt' & Hdec & Hms).
        exists (words_of_u64 (as_u64 (timestamp_millis dt))), (TagValue.DateTime dt').
        cbn [TagValue.data_type]. rewrite Hdec.
        split; [done|]. split; [done|]. split; [done|]. by exists dt'. }
  1: { exists [if b then 1 else 0], (TagValue.Bool b). split; [done|].
       split; [destruct b; by repeat constructor|]. split; [|done].
       unfold decode_bytes_to_tagvalue. rewrite next_u16_cons by (by destruct b).
       by destruct b. }
  1: { assert (is_u16 (as_u16 v)) as Hu by auto with bridge.
       exists [as_u16 v], (TagValue.Int16 v). unfold decode_bytes_to_tagvalue, TagValue.data_type.
       rewrite (proj2 (decode_word _ Hu)). simpl. rewrite as_i16_u16 by done.
       split; [done|]. split; [by apply Forall_singleton|done]. }
  1: { exists [v], (TagValue.UInt16 v). unfold decode_bytes_to_tagvalue, TagValue.data_type.
       rewrite (proj1 (decode_word _ Hwf)).
       split; [done|]. split; [by apply Forall_singleton|done]. }
  all: do 2 eexists; split; [done|]; split; [done|];
    unfold decode_bytes_to_tagvalue, TagValue.data_type;
    rewrite ?next_u32_of, ?next_u64_of by auto with bridge; simpl;
    rewrite ?as_i32_u32, ?as_i64_u64 by done; done.
Qed.

(** ** Whatever the bytes, the decoded value is one of the declared type *)

(** A cursor whose next word is a [u16]: over bytes, or at its end. *)
Definition readable (cur : list Z) : Prop := is_bytes cur ∨ (length cur < 2)%nat.

Lemma next_u16_range cur :
  readable cur → is_u16 (next_u16 cur).1 ∧ readable (next_u16 cur).2.
Proof.
  intros Hr. unfold next_u16. destruct (decide (length cur < 2)%nat) as [Hl|Hl].
  - destruct (read_u16_eof cur Hl) as (r & -> & Hlen). split; [done|]. right. simpl. lia.
  - destruct cur as [|a [|b cur]]; simpl in Hl; [lia..|].
    destruct Hr as [Hb|]; [|simpl in *; lia].
    apply Forall_cons in Hb as [Ha Hb]. apply Forall_cons in Hb as [Hb Hc].
    rewrite read_u16_ok. split; [by apply make_word_range|by left].
Qed.

Lemma next_u32_range cur : readable cur → is_u32 (next_u32 cur).1.
Proof.
  intros Hr. unfold next_u32.
  pose proof (next_u16_range cur Hr) as [H1 Hr1].
  destruct (next_u16 cur) as [hi cur1]. simpl in *.
  pose proof (next_u16_range cur1 Hr1) as [H2 _].
  destruct (next_u16 cur1) as [lo cur2]. simpl in *.
  rewrite lor_words32 by done. int_ranges. lia.
Qed.

Lemma next_u64_range cur : readable cur → is_u64 (next_u64 cur).1.
Proof.
  intros Hr. unfold next_u64.
  pose proof (next_u16_range cur Hr) as [H1 Hr1].
  destruct (next_u16 cur) as [w0 cur1]. simpl in *.
  pose proof (next_u16_range cur1 Hr1) as [H2 Hr2].
  destruct (next_u16 cur1) as [w1 cur2]. simpl in *.
  pose proof (next_u16_range cur2 Hr2) as [H3 Hr3].
  destruct (next_u16 cur2) as [w2 cur3]. simpl in *.
  pose proof (next_u16_range cur3 Hr3) as [H4 _].
  destruct (next_u16 cur3) as [w3 cur4]. simpl in *.
  rewrite lor_words64 by done. int_ranges. lia.
Qed.

Lemma read_i16_range l : is_bytes l → is_i16 (default 0 (read_i16 l).1).
Proof.
  intros Hl. destruct l as [|a [|b l]].
  1,2: by rewrite read_i16_eof by (simpl; lia).
  rewrite read_i16_ok. simpl. auto with bridge.
Qed.

Lemma decode_string_wf bytes :
  is_bytes bytes →
  utf8_valid (as_bytes
    match from_utf8 bytes with
    | Some st => string_of_bytes (trim_end_nul (as_bytes st))
    | None => hex_upper bytes
    end) = true.
Proof.
  intros Hb. unfold from_utf8. destruct (utf8_valid bytes) eqn:Hv.
  - rewrite as_bytes_of_bytes by (apply trim_end_nul_bytes; auto with bridge).
    apply utf8_valid_trim_end_nul. by rewrite as_bytes_of_bytes.
  - by apply hex_upper_valid.
Qed.

Lemma decode_typed dt bytes bit v :
  is_bytes bytes → decode_bytes_to_tagvalue dt bytes bit = Ok v →
  TagValue.data_type v = dt ∧ TagValue.wf v.
Proof.
  intros Hb. assert (readable bytes) as Hr by by left.
  pose proof (next_u16_range bytes Hr) as [H16 _].
  pose proof (next_u32_range bytes Hr) as H32.
  pose proof (next_u64_range bytes Hr) as H64.
  pose proof (read_i16_range bytes Hb) as Hi16.
  pose proof (decode_string_wf bytes Hb) as Hs.
  destruct dt; unfold decode_bytes_to_tagvalue.
  11: { repeat case_match; by intros [= <-]. }
  all: intros [= <-]; split; [done|]; simpl; auto with bridge.
Qed.

(** Only an instant given by fewer than eight bytes can fail to decode. *)
Lemma decode_err dt bytes bit e :
  decode_bytes_to_tagvalue dt bytes bit = Err e →
  dt = TagDataType.DateTime ∧ (length bytes < 8)%nat.
Proof.
  destruct dt; try done. unfold decode_bytes_to_tagvalue.
  destruct (Nat.leb_spec 8 (length bytes)); [done|]. intros _. by split.
Qed.

(** [Bool] tags show one bit of the first register. *)
Lemma decode_bool w ws k :
  is_u16 w → 0 ≤ k < 16 →
  decode_bytes_to_tagvalue TagDataType.Bool (registers_to_bytes (w :: ws)) k
  = Ok (TagValue.Bool (Z.testbit w k)).
Proof.
  intros Hw Hk. unfold decode_bytes_to_tagvalue. rewrite next_u16_cons by done. simpl.
  rewrite Z.mod_small by done. do 2 f_equal.
  change 1 with (Z.ones 1). rewrite Z.land_ones, Z.shiftr_div_pow2 by lia.
  rewrite Z.testbit_eqb by lia. change (2 ^ 1) with 2.
  pose proof (Z.mod_pos_bound (w / 2 ^ k) 2).
  destruct (Z.eqb_spec ((w / 2 ^ k) mod 2) 0), (Z.eqb_spec ((w / 2 ^ k) mod 2) 1); lia || done.
Qed.
End defs.

(** ** Properties *)

Section properties.
Context {C : Chrono} {B : ByteOrder}.

(** C11: writing any value and reading the same registers back gives the value
    again, for each of the four word orders: the conversion and the reordering of
    the write path never fail, every word sent is a 16-bit word, and the read path
    inverts them up to [read_back] (milliseconds of an instant, padding of an odd
    byte string, trailing NULs of a string). *)
Theorem modbus_write_read_back (v : TagValue) (order : WordOrder) :
  TagValue.wf v →
  ∃ words sent v',
    tagvalue_to_registers v = Some (Ok words) ∧
    order_words words order = Some (Some sent) ∧
    Forall is_u16 sent ∧ length sent = length words ∧
    decode_slice (TagValue.data_type v) order 0 (registers_to_bytes sent) = Some (Ok v') ∧
    read_back v v'.
Proof.
  intros Hwf. destruct (decode_encode v Hwf) as (words & v' & He & _ & Hd & Hrb).
  destruct (order_words_spec words order) as (sent & Ho & Hs & Hl & Hu).
  exists words, sent, v'. repeat split; try done.
  unfold decode_slice, DriverCommon.apply_byte_order.
  rewrite WordOrder.apply_to_bytes_spec. cbn [mbind option_bind].
  by rewrite Hs, WordOrder.order_spec_involutive, Hd.
Qed.

(** Decoding is total and type-sound: whatever 16-bit registers the PLC
    returns, the read path yields either a value of the declared data type that
    fits its machine width (and is valid UTF-8 if it is a string), or an error,
    which only an instant given by fewer than four registers can produce. *)
Theorem modbus_decode_typed (dt : TagDataType) (order : WordOrder) (bit : Z) (regs : list Z) :
  ∃ r, decode_slice dt order bit (registers_to_bytes regs) = Some r ∧
    match r with
    | Ok v => TagValue.data_type v = dt ∧ TagValue.wf v
    | Err _ => dt = TagDataType.DateTime ∧ (length regs < 4)%nat
    end.
Proof.
  unfold decode_slice, DriverCommon.apply_byte_order.
  rewrite WordOrder.apply_to_bytes_spec. cbn [mbind option_bind].
  eexists. split; [done|]. destruct (decode_bytes_to_tagvalue _ _ _) eqn:Hd.
  - eapply decode_typed; [|done].
    apply WordOrder.order_spec_bytes, registers_to_bytes_bytes.
  - apply decode_err in Hd as [-> Hl].
    rewrite WordOrder.order_spec_length, registers_to_bytes_length in Hl. split; [done|lia].
Qed.

(** A [Bool] tag shows bit [bit_offset] of its register, but writing it sets
    the whole register to 0 or 1: what is read back is the value written only at
    bit 0, and false at every other offset. *)
Theorem modbus_bool_bit (w k : Z) (b : bool) :
  is_u16 w → 0 ≤ k < 16 →
  decode_slice TagDataType.Bool WordOrder.ABCD k (registers_to_bytes [w])
    = Some (Ok (TagValue.Bool (Z.testbit w k))) ∧
  ∃ word, tagvalue_to_registers (TagValue.Bool b) = Some (Ok [word]) ∧
    decode_slice TagDataType.Bool WordOrder.ABCD k (registers_to_bytes [word])
    = Some (Ok (TagValue.Bool (b && (k =? 0)))).
Proof.
  intros Hw Hk. assert (∀ w, is_u16 w →
    decode_slice TagDataType.Bool WordOrder.ABCD k (registers_to_bytes [w])
    = Some (Ok (TagValue.Bool (Z.testbit w k)))) as Hdec.
  { intros w' Hw'. unfold decode_slice. cbn -[decode_bytes_to_tagvalue registers_to_bytes].
    by rewrite decode_bool. }
  split; [by apply Hdec|]. exists (if b then 1 else 0). split; [done|].
  rewrite Hdec by (by destruct b). do 3 f_equal. destruct b; simpl.
  - destruct (Z.eqb_spec k 0) as [->|]; [done|]. by apply (Z.pow2_bits_false 0).
  - apply Z.bits_0.
Qed.
End properties.

Section witnesses.
Local Existing Instances CratesRef.chrono_ref CratesRef.byteorder_ref.

Lemma modbus_write_read_back_witness :
  TagValue.wf (TagValue.String "pump-1!") ∧
  ∃ words sent v',
    tagvalue_to_registers (TagValue.String "pump-1!") = Some (Ok words) ∧
    order_words words WordOrder.CDAB = Some (Some sent) ∧
    Forall is_u16 sent ∧ length sent = length words ∧
    decode_slice TagDataType.String WordOrder.CDAB 0 (registers_to_bytes sent)
      = Some (Ok v') ∧ read_back (TagValue.String "pump-1!") v'.
Proof.
  assert (TagValue.wf (TagValue.String "pump-1!")) as Hwf by (vm_compute; done).
  split; [exact Hwf|].
  exact (modbus_write_read_back (TagValue.String "pump-1!") WordOrder.CDAB Hwf).
Defined.

Lemma modbus_bool_bit_witness :
  decode_slice TagDataType.Bool WordOrder.ABCD 3 (registers_to_bytes [8])
    = Some (Ok (TagValue.Bool true)) ∧
  ∃ word, tagvalue_to_registers (TagValue.Bool true) = Some (Ok [word]) ∧
    decode_slice TagDataType.Bool WordOrder.ABCD 3 (registers_to_bytes [word])
    = Some (Ok (TagValue.Bool false)).
Proof. apply (modbus_bool_bit 8 3 true); [split; reflexivity || done|lia]. Defined.

(** The codec on concrete values. *)
Example encode_int32 :
  tagvalue_to_registers (TagValue.Int32 (-2)) = Some (Ok [65535; 65534]).
Proof. reflexivity. Qed.
Example send_cdab : order_words [4660; 22136] WordOrder.CDAB = Some (Some [22136; 4660]).
Proof. reflexivity. Qed.
Example decode_uint32_dcba :
  decode_slice TagDataType.UInt32 WordOrder.DCBA 0 (registers_to_bytes [30806; 13330])
  = Some (Ok (TagValue.UInt32 305419896)).
Proof. reflexivity. Qed.
End witnesses.
End ModbusCodec.
