(* ===== verification/ModbusPlan.v ===== *)
(** * Modbus driver: validation and the read plan

    Models the pure parts of driver/modbus/src/driver.rs that decide what is read:
    [validate] with its overlap check, the grouping of the mappings of a function
    into contiguous ranges, the split of a range into chunks, and the extraction of
    the part of a mapping a chunk covers.  [u16] and [u32] arithmetic wraps as in
    the release profile. *)

From stdpp Require Import base tactics numbers list gmap strings sorting.
From S2P Require Import Prelude RustStd RustStr RustSlice RustMap Ranges Crates CratesRef TagValue ModbusTypes ModbusCodec.
Local Open Scope Z_scope.

Module ModbusPlan.
Import ModbusError.

(** The mappings by function: [by_func.entry(m.function.clone()).or_default().push(m)]. *)
Definition by_func (mappings : list ModbusMapping) : gmap ModbusFunction (list ModbusMapping) :=
  group_by ModbusMapping.function mappings.

(** ** [validate] *)

(** [{:?}] of a word order. *)
Definition word_order_debug (o : WordOrder) : string :=
  match o with
  | WordOrder.ABCD => "ABCD" | WordOrder.BADC => "BADC"
  | WordOrder.CDAB => "CDAB" | WordOrder.DCBA => "DCBA"
  end.

Definition quote (s : string) : string := "'" +:+ s +:+ "'".

(** The checks on one mapping, in the order of the code. *)
Definition check_mapping (m : ModbusMapping) : result unit DriverError :=
  let id := ModbusMapping.tag_id m in
  let err s := Err (Mapping ("Mapping " +:+ quote id +:+ s)) in
  if ModbusMapping.quantity m =? 0 then err " has zero quantity"
  else if 16 <=? ModbusMapping.bit_offset m then
    err (" has invalid bit_offset " +:+ fmt_dec (ModbusMapping.bit_offset m)
         +:+ " (must be 0..15)")
  else
    let? _ :=
      match ModbusMapping.data_type m with
      | TagDataType.Float | TagDataType.Int32 | TagDataType.UInt32 =>
          if ModbusMapping.quantity m <? 2
          then err " data_type requires quantity >= 2" else Ok tt
      | TagDataType.Double =>
          if ModbusMapping.quantity m <? 4
          then err " data_type 'Double' requires quantity >= 4" else Ok tt
      | _ => Ok tt
      end in
    let? _ :=
      match ModbusMapping.function m with
      | ModbusFunction.InputRegisters | ModbusFunction.DiscreteInputs =>
          if ModbusMapping.writable m
          then err (" marked writable but uses read-only function "
                    +:+ ModbusFunction.to_string (ModbusMapping.function m)) else Ok tt
      | _ => Ok tt
      end in
    if bool_decide (ModbusMapping.byte_order m = WordOrder.CDAB
                    ∨ ModbusMapping.byte_order m = WordOrder.DCBA)
       && (ModbusMapping.quantity m <? 2)
    then err (" uses byte_order " +:+ word_order_debug (ModbusMapping.byte_order m)
              +:+ " which requires quantity >= 2")
    else Ok tt.

Fixpoint check_mappings (ms : list ModbusMapping) : result unit DriverError :=
  match ms with
  | [] => Ok tt
  | m :: ms => let? _ := check_mapping m in check_mappings ms
  end.

(** [m.address.saturating_add(m.quantity).saturating_sub(1)] *)
Definition saturating_end (m : ModbusMapping) : Z :=
  u16_saturating_sub (u16_saturating_add (ModbusMapping.address m) (ModbusMapping.quantity m)) 1.

Definition overlap_error (func : ModbusFunction) (cur next : ModbusMapping) : DriverError :=
  let range m :=
    quote (ModbusMapping.tag_id m) +:+ "[" +:+ fmt_dec (ModbusMapping.address m) +:+ ".."
    +:+ fmt_dec (saturating_end m) +:+ "]" in
  Mapping ("Overlapping Modbus ranges for function " +:+ ModbusFunction.to_string func
           +:+ ": " +:+ range cur +:+ " overlaps " +:+ range next).

(** [for w in 0..vecm.len().saturating_sub(1)]: neighbours in address order. *)
Fixpoint check_neighbours (func : ModbusFunction) (vecm : list ModbusMapping)
    : result unit DriverError :=
  match vecm with
  | cur :: (next :: _) as rest =>
      if ModbusMapping.address next <=? saturating_end cur
      then Err (overlap_error func cur next)
      else check_neighbours func rest
  | _ => Ok tt
  end.

Fixpoint check_functions (groups : list (ModbusFunction * list ModbusMapping))
    : result unit DriverError :=
  match groups with
  | [] => Ok tt
  | (func, vecm) :: groups =>
      let? _ := check_neighbours func (sort_by_key ModbusMapping.address vecm) in
      check_functions groups
  end.

(** [ModbusDriver::validate] *)
Definition validate `{!HashIter ModbusFunction} (mappings : list ModbusMapping)
    : result unit DriverError :=
  let? _ := check_mappings mappings in check_functions (hash_iter (by_func mappings)).

(** ** Contiguous groups *)

(** [(start_addr, quantity, mappings)] *)
Record Group := mkGroup { start : Z; qty : Z; members : list ModbusMapping }.

Definition single (m : ModbusMapping) : Group :=
  {| start := ModbusMapping.address m; qty := ModbusMapping.quantity m; members := [m] |}.

(** One iteration of the grouping loop, on the last group. *)
Definition merge (g : Group) (m : ModbusMapping) : list Group :=
  let end_ := u16_sub (u16_add (start g) (qty g)) 1 in
  if ModbusMapping.address m <=? u16_add end_ 1 then
    let new_end := Z.max end_
      (u16_sub (u16_add (ModbusMapping.address m) (ModbusMapping.quantity m)) 1) in
    [{| start := start g; qty := u16_add (u16_sub new_end (start g)) 1;
        members := members g ++ [m] |}]
  else [g; single m].

Definition push_mapping (groups : list Group) (m : ModbusMapping) : list Group :=
  match last groups with
  | Some g => removelast groups ++ merge g m
  | None => [single m]
  end.

Definition build_groups (maps : list ModbusMapping) : list Group := foldl push_mapping [] maps.

(** ** Chunks *)

Definition MAX_REGISTERS : Z := 125.
Definition MAX_COILS : Z := 2000.

Definition max_allowed (func : ModbusFunction) : Z :=
  match func with
  | ModbusFunction.HoldingRegisters | ModbusFunction.InputRegisters => MAX_REGISTERS
  | ModbusFunction.Coils | ModbusFunction.DiscreteInputs => MAX_COILS
  end.

(** [std::cmp::min(remaining as u16, max_allowed)] *)
Definition chunk_qty (remaining max : Z) : Z := Z.min (as_u16 remaining) max.

(** The chunk after the one at [chunk_start]; [None] where the address space ends. *)
Definition advance (chunk_start remaining max : Z) : option (Z * Z) :=
  let q := chunk_qty remaining max in
  let next := u32_add chunk_start q in
  if 65535 <? next then None else Some (as_u16 next, u32_saturating_sub remaining q).

(** The sequence of [(chunk_start, chunk_qty)] the loop goes through. *)
Fixpoint chunks (fuel : nat) (chunk_start remaining max : Z) : list (Z * Z) :=
  match fuel with
  | O => []
  | S fuel =>
      if 0 <? remaining then
        (chunk_start, chunk_qty remaining max) ::
        match advance chunk_start remaining max with
        | Some (next, remaining) => chunks fuel next remaining max
        | None => []
        end
      else []
  end.

(** ** The part of a mapping that a chunk covers *)

Inductive extraction :=
| Outside
| Short
| Slice (bytes : list Z).

Definition extract (chunk_start chunk_qty : Z) (raw_bytes : list Z) (m : ModbusMapping)
    : extraction :=
  let chunk_end := u32_sub (u32_add chunk_start chunk_qty) 1 in
  let map_start := ModbusMapping.address m in
  let map_end := u32_sub (u32_add map_start (ModbusMapping.quantity m)) 1 in
  if (map_end <? chunk_start) || (chunk_end <? map_start) then Outside
  else
    let overlap_start := Z.max map_start chunk_start in
    let overlap_end := Z.min map_end chunk_end in
    let off_bytes := Z.to_nat ((overlap_start - chunk_start) * 2) in
    let len_bytes := Z.to_nat ((overlap_end - overlap_start + 1) * 2) in
    if (length raw_bytes <? off_bytes + len_bytes)%nat then Short
    else Slice (take len_bytes (drop off_bytes raw_bytes)).

(** [for bit in 0..16 { if i + bit < bits.len() && bits[i + bit] { w |= 1 << bit } }] *)
Definition pack_word (bits : list bool) (i : nat) : Z :=
  foldl (λ w bit, if default false (bits !! (i + bit)%nat)
                  then Z.lor w (Z.shiftl 1 (Z.of_nat bit)) else w) 0 (seq 0 16).

(** [while i < bits.len() { ...; regs.push(w); i += 16 }] *)
Fixpoint pack_from (fuel : nat) (bits : list bool) (i : nat) : list Z :=
  match fuel with
  | O => []
  | S fuel =>
      if (i <? length bits)%nat then pack_word bits i :: pack_from fuel bits (i + 16) else []
  end.
Definition pack_bits (bits : list bool) : list Z := pack_from (length bits) bits 0.

(** ** Validation *)

(** The registers or coils a mapping occupies; [fits]: below the last address, where
    the saturating arithmetic of the check and the wrapping arithmetic of the grouping
    are exact. *)
Notation occupies := (Ranges.occupies ModbusMapping.address ModbusMapping.quantity).
Notation disjoint := (Ranges.disjoint ModbusMapping.address ModbusMapping.quantity).
Notation fits := (Ranges.fits ModbusMapping.address ModbusMapping.quantity 65535).
Notation tiles := (Ranges.tiles ModbusMapping.address ModbusMapping.quantity).

(** The requirements on one mapping, as a predicate. *)
Definition mapping_valid (m : ModbusMapping) : bool :=
  negb (ModbusMapping.quantity m =? 0) && (ModbusMapping.bit_offset m <? 16)
  && match ModbusMapping.data_type m with
     | TagDataType.Float | TagDataType.Int32 | TagDataType.UInt32 => 2 <=? ModbusMapping.quantity m
     | TagDataType.Double => 4 <=? ModbusMapping.quantity m
     | _ => true
     end
  && negb (ModbusMapping.writable m
           && bool_decide (ModbusMapping.function m = ModbusFunction.InputRegisters
                           ∨ ModbusMapping.function m = ModbusFunction.DiscreteInputs))
  && (bool_decide (ModbusMapping.byte_order m = WordOrder.ABCD
                   ∨ ModbusMapping.byte_order m = WordOrder.BADC)
      || (2 <=? ModbusMapping.quantity m)).

Lemma check_mapping_valid m : is_ok (check_mapping m) = mapping_valid m.
Proof.
  unfold check_mapping, mapping_valid. rewrite !Z.leb_antisym.
  destruct (ModbusMapping.quantity m =? 0); [done|].
  destruct (ModbusMapping.bit_offset m <? 16); [|done].
  destruct (ModbusMapping.quantity m <? 2), (ModbusMapping.quantity m <? 4),
    (ModbusMapping.writable m), (ModbusMapping.data_type m), (ModbusMapping.function m),
    (ModbusMapping.byte_order m); reflexivity.
Qed.

Lemma check_mappings_ok ms :
  check_mappings ms = Ok tt ↔ Forall (λ m, mapping_valid m = true) ms.
Proof.
  induction ms as [|m ms IH]; simpl; [done|].
  rewrite Forall_cons, <- IH, <- check_mapping_valid.
  destruct (check_mapping m) as [[]|]; simpl; naive_solver.
Qed.

(** The part of a range the check sees: below the last address, since the saturating
    sum stops there. *)
Definition capped (m : ModbusMapping) : Z :=
  Z.min (ModbusMapping.address m + ModbusMapping.quantity m) 65535 - ModbusMapping.address m.
Definition ranged (m : ModbusMapping) : Prop :=
  0 ≤ ModbusMapping.address m ≤ 65535 ∧ 1 ≤ ModbusMapping.quantity m.

Lemma saturating_end_ranged m : ranged m → saturating_end m = ModbusMapping.address m + capped m - 1.
Proof.
  intros (? & ?). unfold saturating_end, capped, u16_saturating_sub, u16_saturating_add. int_ranges. lia.
Qed.
Lemma ranged_below m : ranged m → Ranges.below ModbusMapping.address capped 65535 m.
Proof. unfold ranged, Ranges.below, capped. lia. Qed.
Lemma fits_ranged m : fits m → ranged m.
Proof. unfold Ranges.fits, ranged. lia. Qed.
Lemma capped_fits m : fits m → capped m = ModbusMapping.quantity m.
Proof. unfold Ranges.fits, capped. lia. Qed.
(** Two such parts are disjoint when the mappings share no address below the last. *)
Lemma capped_disjoint m1 m2 :
  ranged m1 → ranged m2 →
  Ranges.disjoint ModbusMapping.address capped m1 m2 ↔
  ¬ ∃ a, a < 65535 ∧ occupies m1 a ∧ occupies m2 a.
Proof.
  unfold ranged, Ranges.disjoint, Ranges.occupies, capped. intros H1 H2. split.
  - intros Hd (a & ? & ? & ?). lia.
  - intros Hn. set (a := Z.max (ModbusMapping.address m1) (ModbusMapping.address m2)).
    destruct (decide (a < 65535 ∧
      a < Z.min (ModbusMapping.address m1 + ModbusMapping.quantity m1)
                (ModbusMapping.address m2 + ModbusMapping.quantity m2))); [|lia].
    destruct Hn. exists a. lia.
Qed.

(** The loop over the neighbours in address order looks for a gap violated. *)
Lemma check_neighbours_apart func l :
  Forall ranged l →
  check_neighbours func l = Ok tt ↔ Ranges.apart ModbusMapping.address capped l.
Proof.
  induction 1 as [|cur rest Hc Hf IH]; [done|]. destruct rest as [|next rest]; [done|].
  change (check_neighbours func (cur :: next :: rest)) with
    (if ModbusMapping.address next <=? saturating_end cur
     then Err (overlap_error func cur next) else check_neighbours func (next :: rest)).
  change (Ranges.apart ModbusMapping.address capped (cur :: next :: rest)) with
    (ModbusMapping.address cur + capped cur ≤ ModbusMapping.address next ∧
     Ranges.apart ModbusMapping.address capped (next :: rest)).
  rewrite saturating_end_ranged, <- IH by done.
  destruct (Z.leb_spec (ModbusMapping.address next) (ModbusMapping.address cur + capped cur - 1)).
  - split; [done|]. lia.
  - split; [intros ?; split; [lia|done]|by intros [_ ?]].
Qed.

Section validate.
Context `{!HashIter ModbusFunction}.

Lemma check_functions_ok gs :
  check_functions gs = Ok tt ↔
  Forall (λ fg, check_neighbours fg.1 (sort_by_key ModbusMapping.address fg.2) = Ok tt) gs.
Proof.
  induction gs as [|[f g] gs IH]; simpl; [done|]. rewrite Forall_cons, <- IH. simpl.
  destruct (check_neighbours _ _) as [[]|]; naive_solver.
Qed.

Lemma check_overlaps_ok ms :
  Forall ranged ms →
  check_functions (hash_iter (by_func ms)) = Ok tt ↔
  pairwise (λ a b, ModbusMapping.function a = ModbusMapping.function b →
                   Ranges.disjoint ModbusMapping.address capped a b) ms.
Proof.
  intros Hf. rewrite check_functions_ok, (pairwise_filter ModbusMapping.function), Forall_forall.
  assert (∀ f, check_neighbours f (sort_by_key ModbusMapping.address
      (filter (λ m, ModbusMapping.function m = f) ms)) = Ok tt ↔
    pairwise (Ranges.disjoint ModbusMapping.address capped)
      (filter (λ m, ModbusMapping.function m = f) ms)) as Hfun.
  { intros f.
    assert (Forall ranged (sort_by_key ModbusMapping.address
              (filter (λ m, ModbusMapping.function m = f) ms))) as Hfs.
    { rewrite sort_by_key_perm. apply Forall_forall. intros m [_ Hm]%list_elem_of_filter.
      by eapply Forall_forall in Hf. }
    rewrite check_neighbours_apart, (Ranges.apart_pairwise_below _ _ 65535) by
      (done || apply sort_by_key_sorted || (eapply Forall_impl; [exact Hfs|apply ranged_below])).
    split; apply pairwise_perm; try apply _; [|symmetry]; apply sort_by_key_perm. }
  split.
  - intros Hall f. apply Hfun.
    destruct (decide (filter (λ m, ModbusMapping.function m = f) ms = [])) as [->|Hne]; [done|].
    apply (Hall (f, filter (λ m, ModbusMapping.function m = f) ms)).
    by apply hash_iter_group_by.
  - intros Hall [f g] [-> _]%hash_iter_group_by. simpl. by apply Hfun.
Qed.
(** Where every range ends before the last address, the check is exact. *)
Lemma check_overlaps_fits ms :
  Forall fits ms → check_functions (hash_iter (by_func ms)) = Ok tt →
  pairwise (λ a b, ModbusMapping.function a = ModbusMapping.function b → disjoint a b) ms.
Proof.
  intros Hf Hc. apply check_overlaps_ok in Hc; [|eapply Forall_impl; [exact Hf|apply fits_ranged]].
  rewrite pairwise_lookup in *. intros i j m1 m2 H1 H2 Hij Hfun.
  specialize (Hc i j m1 m2 H1 H2 Hij Hfun). rewrite Forall_forall in Hf.
  unfold Ranges.disjoint in *.
  rewrite !capped_fits in Hc by (apply Hf; by eapply list_elem_of_lookup_2). done.
Qed.
End validate.

(** ** Groups *)

(** The groups of an ordered list of disjoint mappings. *)
Notation group_tiles := (Ranges.group_tiles ModbusMapping.address ModbusMapping.quantity 65535
                           start qty members).
Notation grouped := (Ranges.grouped ModbusMapping.address ModbusMapping.quantity 65535
                       start qty members).

Lemma single_group m : fits m → group_tiles (single m).
Proof. intros (? & ? & ?). unfold Ranges.group_tiles. simpl. repeat split; try done; lia. Qed.

(** One step: a mapping at the end of the last group extends it, one beyond the end
    starts a new group. *)
Lemma merge_spec g m :
  0 ≤ start g → 1 ≤ qty g → start g + qty g ≤ 65535 → fits m →
  start g + qty g ≤ ModbusMapping.address m →
  merge g m =
    if ModbusMapping.address m =? start g + qty g
    then [{| start := start g; qty := qty g + ModbusMapping.quantity m;
             members := members g ++ [m] |}]
    else [g; single m].
Proof.
  intros Hs Hq Hb (Ha & Hmq & Hf) Hle. unfold merge, u16_sub, u16_add.
  assert (∀ z, 0 ≤ z ≤ 65535 → as_u16 z = z) as Hid
    by (intros; apply as_u16_id; int_ranges; lia).
  rewrite (Hid (start g + qty g)), (Hid (start g + qty g - 1)),
    (Hid (start g + qty g - 1 + 1)), (Hid (ModbusMapping.address m + _)) by lia.
  rewrite (Hid (ModbusMapping.address m + _ - 1)), Z.leb_antisym by lia.
  destruct (Z.eqb_spec (ModbusMapping.address m) (start g + qty g)) as [Heq|].
  - rewrite (proj2 (Z.ltb_ge _ _)) by lia. simpl. rewrite Z.max_r by lia.
    rewrite (Hid (_ - start g)) by lia. rewrite Hid by lia. do 2 f_equal. lia.
  - by rewrite (proj2 (Z.ltb_lt _ _)) by lia.
Qed.

Lemma push_mapping_grouped ms gs m :
  grouped ms gs → fits m →
  Forall (λ x, ModbusMapping.address x + ModbusMapping.quantity x ≤ ModbusMapping.address m) ms →
  grouped (ms ++ [m]) (push_mapping gs m).
Proof.
  intros [Hm Ht Hg] Hfit Hle. unfold push_mapping.
  destruct gs as [|g gs _] using rev_ind.
  { simpl in *. subst ms. constructor; simpl; [done| |by repeat constructor].
    apply Forall_singleton. by apply single_group. }
  rewrite last_snoc, removelast_last.
  rewrite fmap_app, concat_app in Hm. simpl in Hm. rewrite app_nil_r in Hm.
  apply Forall_app in Ht as [Hts Htg]. apply Forall_singleton in Htg as (Hne & Hs & Hq & Hb & Htg).
  apply StronglySorted_snoc_iff in Hg as [Hgs Hgl].
  assert (start g + qty g ≤ ModbusMapping.address m) as Hend.
  { destruct (Ranges.tiles_cover _ _ _ _ _ (start g + qty g - 1) Htg ltac:(lia)) as (x & Hx & Ho).
    rewrite Forall_forall in Hle. specialize (Hle x). rewrite <- Hm, elem_of_app in Hle.
    specialize (Hle (or_intror Hx)). unfold Ranges.occupies in Ho. lia. }
  rewrite merge_spec by done. unfold Ranges.fits in Hfit.
  destruct (Z.eqb_spec (ModbusMapping.address m) (start g + qty g)) as [Heq|Hneq].
  - constructor.
    + rewrite fmap_app, concat_app. simpl. rewrite app_nil_r, (assoc_L (++)). by rewrite Hm.
    + apply Forall_app. split; [done|]. apply Forall_singleton. unfold Ranges.group_tiles. simpl.
      split; [by destruct (members g)|]. repeat split; try lia.
      apply Ranges.tiles_snoc; [by rewrite Heq|lia].
    + by apply StronglySorted_snoc_iff.
  - constructor.
    + rewrite fmap_app, concat_app. simpl. rewrite <- Hm. by rewrite (assoc_L (++)).
    + apply Forall_app. split; [done|]. apply Forall_cons. split; [done|].
      apply Forall_singleton. by apply single_group.
    + change [g; single m] with ([g] ++ [single m]). rewrite (assoc_L (++)).
      apply StronglySorted_snoc_iff. split; [by apply StronglySorted_snoc_iff|].
      apply Forall_app. split; [|apply Forall_singleton; simpl; lia].
      eapply Forall_impl; [exact Hgl|]. simpl. intros h Hh. lia.
Qed.

Lemma build_groups_spec ms :
  Forall fits ms → StronglySorted (λ a b, ModbusMapping.address a ≤ ModbusMapping.address b) ms →
  pairwise disjoint ms → grouped ms (build_groups ms).
Proof.
  intros Hf Hs Hd. apply pairwise_StronglySorted in Hd.
  unfold build_groups. induction ms as [|m ms IH] using rev_ind.
  { split; simpl; [done|constructor..]. }
  apply Forall_app in Hf as [Hf Hm]. apply Forall_inv in Hm.
  apply StronglySorted_snoc_iff in Hs as [Hs Hle]. apply StronglySorted_snoc_iff in Hd as [Hd Hdm].
  rewrite foldl_app. simpl. apply push_mapping_grouped; [by apply IH|done|].
  rewrite Forall_forall in Hf, Hle, Hdm. apply Forall_forall. intros x Hx.
  specialize (Hf x Hx). specialize (Hle x Hx). specialize (Hdm x Hx).
  simpl in *. unfold Ranges.disjoint, Ranges.fits in *. lia.
Qed.

(** ** Chunks *)

Lemma max_allowed_range func : 1 ≤ max_allowed func ≤ 2000.
Proof. by destruct func. Qed.

Lemma chunk_qty_min rem max : 0 ≤ rem ≤ 65535 → chunk_qty rem max = Z.min rem max.
Proof. intros. unfold chunk_qty. rewrite as_u16_id; [done|]. int_ranges. lia. Qed.

Lemma advance_spec a rem max :
  0 ≤ a → 1 ≤ rem → a + rem ≤ 65535 → 1 ≤ max →
  advance a rem max = Some (a + Z.min rem max, rem - Z.min rem max).
Proof.
  intros. unfold advance. rewrite chunk_qty_min by lia.
  unfold u32_add, u32_saturating_sub. rewrite as_u32_id by (int_ranges; lia).
  rewrite (proj2 (Z.ltb_ge _ _)) by lia.
  rewrite as_u16_id by (int_ranges; lia). do 2 f_equal. lia.
Qed.

Lemma chunks_step fuel a rem max :
  0 ≤ a → 1 ≤ rem → a + rem ≤ 65535 → 1 ≤ max →
  chunks (S fuel) a rem max =
    (a, Z.min rem max) :: chunks fuel (a + Z.min rem max) (rem - Z.min rem max) max.
Proof.
  intros. cbn [chunks]. rewrite (proj2 (Z.ltb_lt _ _)) by lia.
  rewrite advance_spec, chunk_qty_min by lia. done.
Qed.

Lemma chunks_done fuel a max : chunks fuel a 0 max = [].
Proof. by destruct fuel. Qed.

(** The chunks cover the range without gap or overlap, none is longer than the
    protocol allows, and there are as few as possible. *)
Lemma chunks_spec fuel a rem max :
  0 ≤ a → 0 ≤ rem → a + rem ≤ 65535 → 1 ≤ max → (Z.to_nat rem ≤ fuel)%nat →
  chain a (chunks fuel a rem max) (a + rem) ∧
  Forall (λ c, 1 ≤ c.2 ≤ max ∧ a ≤ c.1 ∧ c.1 + c.2 ≤ a + rem) (chunks fuel a rem max) ∧
  Z.of_nat (length (chunks fuel a rem max)) = (rem + max - 1) / max.
Proof.
  revert a rem. induction fuel as [|fuel IH]; intros a rem Ha Hr Hb Hm Hf.
  { assert (rem = 0) as -> by lia. simpl. rewrite Z.div_small by lia.
    split; [lia|split; [constructor|done]]. }
  destruct (decide (rem = 0)) as [->|Hne].
  { rewrite chunks_done. simpl. rewrite Z.div_small by lia.
    split; [lia|split; [constructor|done]]. }
  rewrite chunks_step by lia.
  destruct (IH (a + Z.min rem max) (rem - Z.min rem max)) as (Hc & Hall & Hlen); try lia.
  split; [|split].
  - simpl. split; [done|]. by replace (a + rem) with (a + Z.min rem max + (rem - Z.min rem max)) by lia.
  - constructor; [simpl; lia|]. eapply Forall_impl; [exact Hall|]. intros c. simpl. lia.
  - simpl length. rewrite Nat2Z.inj_succ, Hlen, <- (Ranges.div_up_step rem) by lia. lia.
Qed.

(** A range within the limit is read at once. *)
Lemma chunks_single fuel a rem max :
  0 ≤ a → 1 ≤ rem ≤ max → a + rem ≤ 65535 → (1 ≤ fuel)%nat →
  chunks fuel a rem max = [(a, rem)].
Proof.
  intros. destruct fuel as [|fuel]; [lia|]. rewrite chunks_step by lia.
  rewrite Z.min_l by lia. by rewrite Z.sub_diag, chunks_done.
Qed.

(** ** Extraction *)

Lemma registers_to_bytes_take n rs :
  take (2 * n) (ModbusCodec.registers_to_bytes rs) = ModbusCodec.registers_to_bytes (take n rs).
Proof.
  revert n. induction rs as [|r rs IH]; intros n; [by unfold ModbusCodec.registers_to_bytes; rewrite take_nil; destruct (2 * n)%nat|].
  rewrite ModbusCodec.registers_to_bytes_cons. destruct n as [|n]; [done|].
  replace (2 * S n)%nat with (S (S (2 * n))) by lia.
  simpl take. by rewrite ModbusCodec.registers_to_bytes_cons, <- IH.
Qed.

Lemma registers_to_bytes_drop n rs :
  drop (2 * n) (ModbusCodec.registers_to_bytes rs) = ModbusCodec.registers_to_bytes (drop n rs).
Proof.
  revert n. induction rs as [|r rs IH]; intros n; [by unfold ModbusCodec.registers_to_bytes; rewrite drop_nil; destruct (2 * n)%nat|].
  destruct n as [|n]; [done|]. rewrite ModbusCodec.registers_to_bytes_cons.
  replace (2 * S n)%nat with (S (S (2 * n))) by lia. simpl drop. by rewrite <- IH.
Qed.

(** The slice of a mapping, from the registers of the chunk: nothing when the two do
    not meet, and otherwise exactly the registers of the intersection. *)
Lemma extract_spec cs cq regs m :
  0 ≤ cs → 1 ≤ cq → cs + cq ≤ 65536 → length regs = Z.to_nat cq → fits m →
  extract cs cq (ModbusCodec.registers_to_bytes regs) m =
    let lo := Z.max (ModbusMapping.address m) cs in
    let hi := Z.min (ModbusMapping.address m + ModbusMapping.quantity m) (cs + cq) in
    if hi <=? lo then Outside
    else Slice (ModbusCodec.registers_to_bytes
                  (take (Z.to_nat (hi - lo)) (drop (Z.to_nat (lo - cs)) regs))).
Proof.
  intros Hs Hq Hb Hl (Ha & Hmq & Hf). unfold extract, u32_sub, u32_add.
  assert (∀ z, 0 ≤ z ≤ 65536 → as_u32 z = z) as Hid
    by (intros; apply as_u32_id; int_ranges; lia).
  rewrite (Hid (cs + cq)), (Hid (cs + cq - 1)), (Hid (ModbusMapping.address m + _)) by lia.
  rewrite (Hid (ModbusMapping.address m + _ - 1)) by lia. cbv zeta.
  set (hi := Z.min (ModbusMapping.address m + ModbusMapping.quantity m) (cs + cq)).
  set (lo := Z.max (ModbusMapping.address m) cs).
  replace (Z.min (ModbusMapping.address m + ModbusMapping.quantity m - 1) (cs + cq - 1))
    with (hi - 1) by lia.
  destruct (Z.leb_spec hi lo) as [Hout|Hin].
  { destruct (Z.ltb_spec (ModbusMapping.address m + ModbusMapping.quantity m - 1) cs); [done|].
    simpl. by rewrite (proj2 (Z.ltb_lt _ _)) by lia. }
  rewrite (proj2 (Z.ltb_ge _ cs)), (proj2 (Z.ltb_ge _ (ModbusMapping.address m))) by lia. simpl orb.
  replace (Z.to_nat ((lo - cs) * 2)) with (2 * Z.to_nat (lo - cs))%nat by lia.
  replace (Z.to_nat ((hi - 1 - lo + 1) * 2)) with (2 * Z.to_nat (hi - lo))%nat by lia.
  rewrite ModbusCodec.registers_to_bytes_length, (proj2 (Nat.ltb_ge _ _)) by lia.
  by rewrite registers_to_bytes_drop, registers_to_bytes_take.
Qed.

(** ** Packing of coils *)

Lemma pack_from_length fuel bits i :
  (length bits ≤ i + 16 * fuel)%nat →
  length (pack_from fuel bits i) = ((length bits - i + 15) / 16)%nat.
Proof.
  revert i. induction fuel as [|fuel IH]; intros i Hf; cbn [pack_from].
  { cbn [length]. by rewrite Nat.div_small by lia. }
  destruct (Nat.ltb_spec i (length bits)).
  - cbn [length]. rewrite IH by lia.
    replace (length bits - i + 15)%nat with (length bits - i - 1 + 1 * 16)%nat by lia.
    rewrite Nat.div_add by done.
    destruct (decide (length bits - i ≤ 16)%nat).
    + by rewrite !Nat.div_small by lia.
    + replace (length bits - i - 1)%nat with (length bits - (i + 16) + 15)%nat by lia. lia.
  - cbn [length]. by rewrite Nat.div_small by lia.
Qed.

Lemma pack_bits_length bits : length (pack_bits bits) = ((length bits + 15) / 16)%nat.
Proof. unfold pack_bits. rewrite pack_from_length by lia. f_equal. lia. Qed.

Lemma pack_word_testbit bits i k :
  (k < 16)%nat → Z.testbit (pack_word bits i) (Z.of_nat k) = default false (bits !! (i + k)%nat).
Proof.
  intros Hk. unfold pack_word.
  assert (∀ n, (n ≤ 16)%nat →
    Z.testbit (foldl (λ w bit, if default false (bits !! (i + bit)%nat)
                  then Z.lor w (Z.shiftl 1 (Z.of_nat bit)) else w) 0 (seq 0 n)) (Z.of_nat k)
    = (k <? n)%nat && default false (bits !! (i + k)%nat)) as Hn.
  { induction n as [|n IH]; intros Hle; [by rewrite Z.bits_0|].
    rewrite seq_S, foldl_app. simpl. specialize (IH ltac:(lia)).
    destruct (Nat.ltb_spec k (S n)), (Nat.ltb_spec k n); try lia; simpl in *.
    - destruct (default false (bits !! (i + n)%nat)); [|done].
      rewrite Z.lor_spec, IH, Z.shiftl_spec by lia.
      rewrite Z.testbit_neg_r by lia. by rewrite orb_false_r.
    - assert (k = n) as -> by lia. destruct (default false (bits !! (i + n)%nat)) eqn:Hb.
      + rewrite Z.lor_spec, IH, Z.shiftl_spec, Z.sub_diag by lia. done.
      + done.
    - destruct (default false (bits !! (i + n)%nat)); [|done].
      rewrite Z.lor_spec, IH, Z.shiftl_spec by lia. simpl.
      destruct (Z.of_nat k - Z.of_nat n) eqn:?; try lia. done. }
  rewrite Hn by done. by rewrite (proj2 (Nat.ltb_lt _ _)).
Qed.

(** What validation gives to the read phase: for each function visited, the groups of
    its mappings. *)
Lemma validated_groups `{!HashIter ModbusFunction} ms func maps :
  Forall fits ms → validate ms = Ok tt → (func, maps) ∈ hash_iter (by_func ms) →
  maps = filter (λ m, ModbusMapping.function m = func) ms ∧
  grouped (sort_by_key ModbusMapping.address maps)
    (build_groups (sort_by_key ModbusMapping.address maps)).
Proof.
  intros Hf Hv Hin. apply hash_iter_group_by in Hin as [-> _]. split; [done|].
  unfold validate in Hv. destruct (check_mappings ms); [|done].
  apply check_overlaps_fits in Hv; [|done].
  apply (pairwise_filter ModbusMapping.function) with (k := func) in Hv.
  apply build_groups_spec.
  - rewrite sort_by_key_perm. apply Forall_forall. intros m [_ Hm]%list_elem_of_filter.
    by eapply Forall_forall in Hf.
  - apply sort_by_key_sorted.
  - exact (pairwise_perm _ _ _ (Permutation_sym (sort_by_key_perm _ _)) Hv).
Qed.

(** ** Properties *)

Section properties.
Context `{!HashIter ModbusFunction}.

(** C15: validation accepts a configuration exactly when every mapping meets its own
    requirements (non-zero quantity, bit offset below 16, enough registers for its type
    and word order, not writable on a read-only function) and no two mappings of the
    same function share an address below 65535, whatever the order in which the hash map
    of functions is visited.  The last address is the exception: the saturating end of a
    range stops short of it, so mappings that share nothing else are accepted. *)
Theorem modbus_validate_spec (ms : list ModbusMapping) :
  Forall (λ m, is_u16 (ModbusMapping.address m) ∧ is_u16 (ModbusMapping.quantity m)) ms →
  validate ms = Ok tt ↔
    Forall (λ m, mapping_valid m = true) ms ∧
    ∀ i j m1 m2, ms !! i = Some m1 → ms !! j = Some m2 → (i < j)%nat →
      ModbusMapping.function m1 = ModbusMapping.function m2 →
      ¬ ∃ a, a < 65535 ∧ occupies m1 a ∧ occupies m2 a.
Proof.
  intros Hr. unfold validate.
  assert (Forall (λ m, mapping_valid m = true) ms → Forall ranged ms) as Hranged.
  { intros Hv. rewrite !Forall_forall in *. intros m Hm. specialize (Hv m Hm).
    specialize (Hr m Hm). unfold mapping_valid, ranged in *. int_ranges. zlia. }
  pose proof (check_mappings_ok ms) as Hc.
  destruct (check_mappings ms) as [[]|]; [|naive_solver].
  assert (Forall (λ m, mapping_valid m = true) ms) as Hv by naive_solver.
  specialize (Hranged Hv). rewrite check_overlaps_ok, pairwise_lookup by done.
  rewrite Forall_forall in Hranged.
  split; [intros Hp; split; [done|]|intros [_ Hp]];
    intros i j m1 m2 H1 H2 Hij Hf; specialize (Hp i j m1 m2 H1 H2 Hij Hf);
    apply capped_disjoint; try done; apply Hranged; by eapply list_elem_of_lookup_2.
Qed.

(** At the last address the saturating end of a range falls one short: two
    mappings of the same function both at address 65535 are accepted, although
    they occupy the same register. *)
Theorem modbus_validate_misses_last_register (m1 m2 : ModbusMapping) :
  mapping_valid m1 = true → mapping_valid m2 = true →
  0 ≤ ModbusMapping.quantity m1 → 0 ≤ ModbusMapping.quantity m2 →
  ModbusMapping.function m1 = ModbusMapping.function m2 →
  ModbusMapping.address m1 = 65535 → ModbusMapping.address m2 = 65535 →
  validate [m1; m2] = Ok tt ∧ occupies m1 65535 ∧ occupies m2 65535.
Proof.
  intros Hv1 Hv2 Hp1 Hp2 Hf Ha1 Ha2.
  assert (1 ≤ ModbusMapping.quantity m1 ∧ 1 ≤ ModbusMapping.quantity m2) as [Hq1 Hq2].
  { unfold mapping_valid in Hv1, Hv2. zlia. }
  split; [|unfold Ranges.occupies; lia]. unfold validate.
  rewrite (proj2 (check_mappings_ok [m1; m2])) by (by repeat constructor).
  apply check_functions_ok, Forall_forall. intros [f g] [-> _]%hash_iter_group_by. simpl.
  rewrite !filter_cons, filter_nil, Hf.
  case_decide; [|done]. unfold sort_by_key, sort_by. simpl.
  rewrite Ha1, Ha2. simpl. rewrite Ha2.
  unfold saturating_end, u16_saturating_add, u16_saturating_sub. rewrite Ha1.
  rewrite Z.min_l by (pow2_numerals; lia). done.
Qed.

(** The groups read for a function partition its mappings in address order;
    the range of each group is tiled by its members, so that nothing outside the
    mappings is read, and any two groups are separated by a gap, so that the number
    of requests is minimal. *)
Theorem modbus_groups_partition (ms : list ModbusMapping) (func : ModbusFunction)
    (maps : list ModbusMapping) :
  Forall fits ms → validate ms = Ok tt → (func, maps) ∈ hash_iter (by_func ms) →
  let gs := build_groups (sort_by_key ModbusMapping.address maps) in
  (∀ m, m ∈ ms ∧ ModbusMapping.function m = func ↔ ∃ g, g ∈ gs ∧ m ∈ members g) ∧
  concat (members <$> gs) ≡ₚ maps ∧
  (∀ g, g ∈ gs →
     tiles (start g) (members g) (start g + qty g) ∧ 1 ≤ qty g ∧ start g + qty g ≤ 65535) ∧
  StronglySorted (λ g h, start g + qty g < start h) gs.
Proof.
  intros Hf Hv Hin gs. destruct (validated_groups ms func maps Hf Hv Hin) as [-> [Hm Ht Hg]].
  fold gs in Hm, Ht, Hg.
  assert (concat (members <$> gs) ≡ₚ filter (λ m, ModbusMapping.function m = func) ms) as Hperm.
  { rewrite Hm. apply sort_by_key_perm. }
  split; [|split; [done|split; [|done]]].
  - intros m. trans (m ∈ filter (λ m, ModbusMapping.function m = func) ms).
    { rewrite list_elem_of_filter. tauto. }
    rewrite <- Hperm. split.
    + intros (l & Hml & (g & -> & Hg')%list_elem_of_fmap)%elem_of_concat. by exists g.
    + intros (g & Hg' & Hm'). apply elem_of_concat. exists (members g).
      split; [done|]. by apply list_elem_of_fmap_2.
  - rewrite Forall_forall in Ht. intros g Hgin. destruct (Ht g Hgin) as (_ & _ & ? & ? & ?).
    done.
Qed.

End properties.

Section witnesses.
Local Existing Instance ModbusFunction.ModbusFunction_countable.
Local Instance iter : HashIter ModbusFunction := hash_iter_ref ModbusFunction.

Definition example_mappings : list ModbusMapping :=
  [ModbusMapping.new "b" 12 2 ModbusFunction.HoldingRegisters TagDataType.Float 0 true WordOrder.CDAB;
   ModbusMapping.new "a" 10 2 ModbusFunction.HoldingRegisters TagDataType.Int32 0 false WordOrder.ABCD;
   ModbusMapping.new "c" 10 1 ModbusFunction.Coils TagDataType.Bool 0 false WordOrder.ABCD;
   ModbusMapping.new "d" 20 1 ModbusFunction.HoldingRegisters TagDataType.Int16 0 false WordOrder.BADC].

Lemma example_fits : Forall fits example_mappings.
Proof. repeat (constructor; [unfold Ranges.fits; simpl; lia|]). constructor. Qed.

Lemma modbus_validate_spec_witness :
  validate example_mappings = Ok tt ∧ Forall (λ m, mapping_valid m = true) example_mappings.
Proof.
  assert (validate example_mappings = Ok tt) as Hv by (vm_compute; reflexivity).
  split; [exact Hv|]. apply modbus_validate_spec; [|exact Hv].
  repeat (constructor; [by split; vm_compute|]). constructor.
Defined.

Lemma modbus_validate_misses_last_register_witness :
  let m id := ModbusMapping.new id 65535 1 ModbusFunction.HoldingRegisters TagDataType.UInt16 0
                true WordOrder.ABCD in
  validate [m "a"; m "b"] = Ok tt ∧ occupies (m "a") 65535 ∧ occupies (m "b") 65535.
Proof. intros m. apply modbus_validate_misses_last_register; try reflexivity; simpl; lia. Defined.

Lemma modbus_groups_partition_witness :
  let maps := filter (λ m, ModbusMapping.function m = ModbusFunction.HoldingRegisters)
                example_mappings in
  let gs := build_groups (sort_by_key ModbusMapping.address maps) in
  ((λ g, (start g, qty g, ModbusMapping.tag_id <$> members g)) <$> gs
   = [(10, 4, ["a"; "b"]%string); (20, 1, ["d"]%string)]) ∧
  concat (members <$> gs) ≡ₚ maps.
Proof.
  intros maps gs. split; [vm_compute; reflexivity|].
  refine (proj1 (proj2 (modbus_groups_partition example_mappings
    ModbusFunction.HoldingRegisters maps example_fits _ _))).
  - vm_compute; reflexivity.
  - apply hash_iter_group_by. split; [reflexivity|vm_compute; discriminate].
Defined.

End witnesses.
End ModbusPlan.
