(* ===== verification/ModbusDriver.v ===== *)
(** * Modbus driver: the read/write cycle

    Models the effectful part of driver/modbus/src/driver.rs: the reconnect loop,
    the queued writes, the grouped reads and their error paths.  The network, the
    write queue and the clock are an environment whose operations are parameters;
    every call the driver makes on it, and every reply and health event it sends,
    is an event of the log, in order. *)

From stdpp Require Import base tactics numbers list gmap strings.
From S2P Require Import Prelude Effects RustStd RustStr RustSlice RustMap Crates CratesRef TagValue Tag TagDefinition TagStore Registry RegistryRef ModbusTypes ModbusCodec ModbusPlan.
Local Open Scope Z_scope.

Module ModbusIO.
Section defs.
Context {C : Chrono}.

(** How a request under [time::timeout] ends: a value, a Modbus exception (its
    [Debug] text), a transport error (its [Display] text), or the timeout. *)
Inductive response (A : Type) :=
| Answer (a : A)
| Exception (debug : string)
| TransportError (display : string)
| Elapsed.
Arguments Answer {A} a.
Arguments Exception {A} debug.
Arguments TransportError {A} display.
Arguments Elapsed {A}.

(** [try_recv] of the write queue. *)
Inductive recv := Received (req : WriteRequest) | Empty | Disconnected.

(** [tokio], [tokio_modbus] and the clock. *)
Class ModbusIO := {
  Env : Type;
  SocketAddr : Type;
  ClientContext : Type;
  (** [tokio_modbus::client::tcp::connect(endpoint).await] *)
  tcp_connect : SocketAddr → Env → result ClientContext string * Env;
  (** [ctx.set_slave(Slave(unit))] *)
  set_slave : ClientContext → Z → ClientContext;
  (** The requests, under [time::timeout(Duration::from_millis(t), ..)]. *)
  write_multiple_registers : Z → ClientContext → Z → list Z → Env →
    response unit * ClientContext * Env;
  read_holding_registers : Z → ClientContext → Z → Z → Env →
    response (list Z) * ClientContext * Env;
  read_input_registers : Z → ClientContext → Z → Z → Env →
    response (list Z) * ClientContext * Env;
  read_coils : Z → ClientContext → Z → Z → Env →
    response (list bool) * ClientContext * Env;
  read_discrete_inputs : Z → ClientContext → Z → Z → Env →
    response (list bool) * ClientContext * Env;
  (** [write_rx.try_recv()] *)
  try_recv : Env → recv * Env;
  (** [time::sleep(Duration::from_secs(s)).await] *)
  sleep : Z → Env → Env;
  (** [Utc::now()] *)
  utc_now : Env → DateTimeUtc * Env;
  (** Rust's types: a request's value is one its type can hold. *)
  try_recv_wf e req e' : try_recv e = (Received req, e') → TagValue.wf (WriteRequest.value req);
}.
End defs.
Arguments response : clear implicits.
Arguments Answer {A} a.
Arguments Exception {A} debug.
Arguments TransportError {A} display.
Arguments Elapsed {A}.
Arguments recv : clear implicits.
Arguments recv {_}.
Arguments ModbusIO : clear implicits.
Arguments ModbusIO {_}.
End ModbusIO.
Export ModbusIO (response, Answer, Exception, TransportError, Elapsed).
Notation ModbusIO := ModbusIO.ModbusIO.

Module ModbusDriver.
Import ModbusError ModbusIO.
Section defs.
Context {C : Chrono} {B : ByteOrder} {J : SerdeJson} {IO : ModbusIO}.
Context `{!HashIter ModbusFunction}.

(** What the driver does on the outside. *)
Inductive event :=
| EvConnect (ok : bool)
| EvSleep (secs : Z)
| EvReceived (req : WriteRequest)
| EvWrite (address : Z) (words : list Z)
| EvAnswer (res : response unit)
| EvRead (func : ModbusFunction) (address qty : Z)
| EvReply (chan : nat) (r : result unit string)
| EvHealth (obj : JsonValue).

(** The driver's mutable state, and the environment. *)
Record World := mkWorld {
  registry : TagRegistry;
  client : option ClientContext;
  (** whether [set_health_sender] was called *)
  health_tx : bool;
  env : Env;
  log : list event;
}.

Definition set_registry (r : TagRegistry) (w : World) : World :=
  {| registry := r; client := client w; health_tx := health_tx w; env := env w; log := log w |}.
Definition set_client (c : option ClientContext) (w : World) : World :=
  {| registry := registry w; client := c; health_tx := health_tx w; env := env w; log := log w |}.
Definition set_env (e : Env) (w : World) : World :=
  {| registry := registry w; client := client w; health_tx := health_tx w; env := e; log := log w |}.
Definition add_event (ev : event) (w : World) : World :=
  {| registry := registry w; client := client w; health_tx := health_tx w; env := env w;
     log := log w ++ [ev] |}.
(** [ModbusDriver::set_health_sender] *)
Definition set_health_sender (w : World) : World :=
  {| registry := registry w; client := client w; health_tx := true; env := env w; log := log w |}.

(** [ModbusDriver::new] *)
Definition new (r : TagRegistry) (e : Env) : World :=
  {| registry := r; client := None; health_tx := false; env := e; log := [] |}.

Notation MD := (M World DriverError).

Definition emit (ev : event) : MD unit := modify (add_event ev).
Definition env_op {A} (f : Env → A * Env) : MD A :=
  λ w, let '(a, e) := f (env w) in (Ret a, set_env e w).
Definition now : MD DateTimeUtc := env_op utc_now.

(** [let _ = self.registry.set_tag_quality(id, q)] *)
Definition set_tag_quality (id : string) (q : TagQuality) : MD unit :=
  t ← now;
  r ← gets registry;
  '(_, r) ← or_panic (TagRegistry.set_tag_quality r id q t);
  modify (set_registry r).

(** [let _ = self.registry.update_tag_value(id, v, q, source_ts)] *)
Definition update_tag_value (id : string) (v : TagValue) (q : TagQuality)
    (source_ts : DateTimeUtc) : MD unit :=
  t ← now;
  r ← gets registry;
  '(_, r) ← or_panic (TagRegistry.update_tag_value r id v q source_ts t);
  modify (set_registry r).

(** [if let Some(reply) = req.reply { let _ = reply.send(r); }] *)
Definition send_reply (reply : option nat) (r : result unit string) : MD unit :=
  match reply with Some chan => emit (EvReply chan r) | None => mret tt end.

Section cycle.
Context (config : ModbusConfig SocketAddr).

(** [ModbusDriver::send_health_event] *)
Definition health_object (status : string) (detail : option string) : JsonValue :=
  let message := match detail with Some d => d | None => status end in
  JObject [("plc", JString (ModbusConfig.name config)); ("status", JString status);
           ("detail", JObject [("message", JString message); ("data", JNull)])].
Definition send_health_event (status : string) (detail : option string) : MD unit :=
  tx ← gets health_tx;
  if (tx : bool) then emit (EvHealth (health_object status detail)) else mret tt.

(** The loop of [connect_with_backoff], with the current backoff in seconds. *)
Fixpoint connect_loop (fuel : nat) (backoff : Z) : MD (result ClientContext DriverError) :=
  match fuel with
  | O => pending
  | S fuel =>
      r ← env_op (tcp_connect (ModbusConfig.endpoint config));
      match r with
      | Ok ctx => emit (EvConnect true);; mret (Ok (set_slave ctx (ModbusConfig.unit_id config)))
      | Err _ =>
          emit (EvConnect false);;
          emit (EvSleep backoff);;
          modify (λ w, set_env (sleep backoff (env w)) w);;
          connect_loop fuel (Z.min (ModbusConfig.max_backoff_secs config)
                               (u64_saturating_mul backoff 2))
      end
  end.
Definition connect_with_backoff (fuel : nat) : MD (result ClientContext DriverError) :=
  connect_loop fuel 1.

(** Whether an error text names an illegal function, address or value. *)
Definition is_illegal (s : string) : bool :=
  contains "Illegal" s || contains "Address" s || contains "IllegalDataAddress" s.
Definition is_device_failure (s : string) : bool :=
  contains "Slave" s && (contains "Failure" s || contains "Device" s || contains "Unavailable" s).

(** ** Queued writes *)

(** Lines 390-469: the result of the write request. *)
Definition write_result (id : string) (req : WriteRequest) (write_res : response unit)
    : MD unit :=
  let reply := WriteRequest.reply req in
  match write_res with
  | Answer tt =>
      source_ts ← now;
      update_tag_value id (WriteRequest.value req) TagQuality.Good source_ts;;
      send_reply reply (Ok tt)
  | Exception emsg =>
      if is_illegal emsg then
        set_tag_quality id TagQuality.ConfigError;;
        send_reply reply (Err ("Modbus exception: " +:+ emsg))
      else
        set_tag_quality id TagQuality.CommLost;;
        send_reply reply (Err ("Modbus error: " +:+ emsg));;
        send_health_event "write_error" (Some emsg);;
        modify (set_client None);;
        throw (Modbus emsg)
  | TransportError transport =>
      let emsg := "Transport: " +:+ transport in
      set_tag_quality id TagQuality.CommLost;;
      send_reply reply (Err emsg);;
      modify (set_client None);;
      throw (Modbus emsg)
  | Elapsed =>
      set_tag_quality id TagQuality.CommLost;;
      send_reply reply (Err "Timeout");;
      modify (set_client None);;
      throw Timeout
  end.

(** Lines 349-375: take the context out of its slot, or reconnect. *)
Definition write_context (fuel : nat) (id : string) (reply : option nat) : MD ClientContext :=
  guard_ctx ← gets client;
  modify (set_client None);;
  match guard_ctx with
  | Some c => mret c
  | None =>
      r ← connect_with_backoff fuel;
      match r with
      | Ok c => mret c
      | Err e =>
          set_tag_quality id TagQuality.CommLost;;
          send_reply reply (Err ("Reconnect failed: " +:+ ModbusError.to_string e));;
          modify (set_client None);;
          throw (Io "Reconnect failed during write")
      end
  end.

(** Lines 349-469: the write of [words] to a holding register. *)
Definition write_registers (fuel : nat) (req : WriteRequest) (mapping : ModbusMapping)
    (words : list Z) : MD unit :=
  let id := ModbusMapping.tag_id mapping in
  ctx ← write_context fuel id (WriteRequest.reply req);
  emit (EvWrite (ModbusMapping.address mapping) words);;
  '(write_res, ctx) ← env_op (λ e,
     write_multiple_registers (ModbusConfig.io_timeout_ms config) ctx
       (ModbusMapping.address mapping) words e);
  emit (EvAnswer write_res);;
  modify (set_client (Some ctx));;
  write_result id req write_res.

(** Lines 276-482: one dequeued request. *)
Definition process_write (fuel : nat) (req : WriteRequest) : MD unit :=
  let reply := WriteRequest.reply req in
  match find (λ m, bool_decide (ModbusMapping.tag_id m = WriteRequest.tag_id req))
          (ModbusConfig.mappings config) with
  | None => send_reply reply (Err "Unknown tag mapping")
  | Some mapping =>
      let id := ModbusMapping.tag_id mapping in
      if negb (ModbusMapping.writable mapping) then
        send_reply reply (Err "Tag not writable")
      else
        conv ← or_panic (ModbusCodec.tagvalue_to_registers (WriteRequest.value req));
        match conv with
        | Err e =>
            set_tag_quality id TagQuality.CommLost;;
            send_reply reply (Err ("Conversion error: " +:+ ModbusError.to_string e))
        | Ok words =>
            match ModbusMapping.function mapping with
            | ModbusFunction.HoldingRegisters =>
                ordered ← or_panic (ModbusCodec.order_words words
                                      (ModbusMapping.byte_order mapping));
                match ordered with
                | None =>
                    set_tag_quality id TagQuality.CommLost;;
                    send_reply reply (Err "Ordered bytes length not even")
                | Some ordered_words => write_registers fuel req mapping ordered_words
                end
            | _ =>
                set_tag_quality id TagQuality.CommLost;;
                send_reply reply (Err "Unsupported write function")
            end
        end
  end.

(** [for _ in 0..64 { match rx.try_recv() { .. } }] *)
Fixpoint process_writes (fuel n : nat) : MD unit :=
  match n with
  | O => mret tt
  | S n =>
      r ← env_op try_recv;
      match r with
      | Received req => emit (EvReceived req);; process_write fuel req;; process_writes fuel n
      | Empty | Disconnected => mret tt
      end
  end.

(** ** Reads *)

(** The outcome of a read as the code turns it into [Result<(bytes, _), String>]. *)
Definition read_result (r : response (list Z)) : result (list Z) string :=
  match r with
  | Answer regs => Ok (ModbusCodec.registers_to_bytes regs)
  | Exception e => Err e
  | TransportError transport => Err ("Transport: " +:+ transport)
  | Elapsed => Err "Timeout"
  end.

Definition pack_response (r : response (list bool)) : response (list Z) :=
  match r with
  | Answer bits => Answer (ModbusPlan.pack_bits bits)
  | Exception e => Exception e
  | TransportError t => TransportError t
  | Elapsed => Elapsed
  end.

(** Lines 581-675: the read of one chunk with the function's request. *)
Definition read_chunk (func : ModbusFunction) (ctx : ClientContext) (chunk_start chunk_qty : Z)
    : MD (result (list Z) string * ClientContext) :=
  let io_timeout := ModbusConfig.io_timeout_ms config in
  emit (EvRead func chunk_start chunk_qty);;
  env_op (λ e,
    match func with
    | ModbusFunction.HoldingRegisters =>
        let '(r, ctx, e) := read_holding_registers io_timeout ctx chunk_start chunk_qty e in
        (read_result r, ctx, e)
    | ModbusFunction.InputRegisters =>
        let '(r, ctx, e) := read_input_registers io_timeout ctx chunk_start chunk_qty e in
        (read_result r, ctx, e)
    | ModbusFunction.Coils =>
        let '(r, ctx, e) := read_coils io_timeout ctx chunk_start chunk_qty e in
        (read_result (pack_response r), ctx, e)
    | ModbusFunction.DiscreteInputs =>
        let '(r, ctx, e) := read_discrete_inputs io_timeout ctx chunk_start chunk_qty e in
        (read_result (pack_response r), ctx, e)
    end).

(** Lines 682-754: one mapping of the group, against the bytes of a chunk. *)
Definition update_mapping (chunk_start chunk_qty : Z) (raw_bytes : list Z)
    (mapping : ModbusMapping) : MD unit :=
  let id := ModbusMapping.tag_id mapping in
  match ModbusPlan.extract chunk_start chunk_qty raw_bytes mapping with
  | ModbusPlan.Outside => mret tt
  | ModbusPlan.Short => set_tag_quality id TagQuality.ConfigError
  | ModbusPlan.Slice slice =>
      ordered ← or_panic (DriverCommon.apply_byte_order slice (ModbusMapping.byte_order mapping));
      r ← gets registry;
      if is_err (TagRegistry.get_definition r id) then
        set_tag_quality id TagQuality.ConfigError
      else
        existing ← or_panic (TagRegistry.get_tag r id);
        match existing with
        | Ok _ =>
            match ModbusCodec.decode_bytes_to_tagvalue (ModbusMapping.data_type mapping)
                    ordered (ModbusMapping.bit_offset mapping) with
            | Ok tv => source_ts ← now; update_tag_value id tv TagQuality.Good source_ts
            | Err _ => set_tag_quality id TagQuality.ConfigError
            end
        | Err _ => set_tag_quality id TagQuality.CommLost
        end
  end.

(** Lines 756-786: a failed read of a chunk of the group. *)
Definition read_failed (members : list ModbusMapping) (err_str : string) : MD unit :=
  if is_illegal err_str then
    for_each (λ m, set_tag_quality (ModbusMapping.tag_id m) TagQuality.ConfigError) members
  else if is_device_failure err_str || bool_decide (err_str = "Timeout") then
    for_each (λ m, set_tag_quality (ModbusMapping.tag_id m) TagQuality.CommLost) members;;
    send_health_event "read_error" (Some err_str);;
    modify (set_client None);;
    throw (Modbus err_str)
  else mret tt.

(** Lines 578-798: [while remaining > 0]. *)
Fixpoint chunk_loop (fuel : nat) (func : ModbusFunction) (members : list ModbusMapping)
    (ctx : ClientContext) (chunk_start remaining : Z) : MD ClientContext :=
  if 0 <? remaining then
    match fuel with
    | O => pending
    | S fuel =>
        let max := ModbusPlan.max_allowed func in
        let chunk_qty := ModbusPlan.chunk_qty remaining max in
        '(res, ctx) ← read_chunk func ctx chunk_start chunk_qty;
        match res with
        | Ok raw_bytes => for_each (update_mapping chunk_start chunk_qty raw_bytes) members
        | Err err_str => read_failed members err_str
        end;;
        match ModbusPlan.advance chunk_start remaining max with
        | Some (next, remaining) => chunk_loop fuel func members ctx next remaining
        | None => mret ctx
        end
    end
  else mret ctx.

Definition read_group (func : ModbusFunction) (ctx : ClientContext) (g : ModbusPlan.Group)
    : MD ClientContext :=
  chunk_loop (Z.to_nat (ModbusPlan.qty g)) func (ModbusPlan.members g) ctx
    (ModbusPlan.start g) (ModbusPlan.qty g).

Fixpoint read_groups (func : ModbusFunction) (ctx : ClientContext) (gs : list ModbusPlan.Group)
    : MD ClientContext :=
  match gs with
  | [] => mret ctx
  | g :: gs => ctx ← read_group func ctx g; read_groups func ctx gs
  end.

(** Lines 540-800: [for (func, mut maps) in by_func.into_iter()]. *)
Fixpoint read_functions (ctx : ClientContext) (fs : list (ModbusFunction * list ModbusMapping))
    : MD ClientContext :=
  match fs with
  | [] => mret ctx
  | (func, maps) :: fs =>
      ctx ← read_groups func ctx
              (ModbusPlan.build_groups (sort_by_key ModbusMapping.address maps));
      read_functions ctx fs
  end.

(** Lines 493-525: reuse or establish the client context, and take it. *)
Definition obtain_context (fuel : nat) : MD ClientContext :=
  guard ← gets client;
  match guard with
  | Some _ => mret tt
  | None =>
      r ← connect_with_backoff fuel;
      match r with
      | Ok ctx => modify (set_client (Some ctx))
      | Err e => throw e
      end
  end;;
  maybe_ctx ← gets client;
  modify (set_client None);;
  match maybe_ctx with
  | Some ctx => mret ctx
  | None =>
      r ← connect_with_backoff fuel;
      match r with Ok ctx => mret ctx | Err e => throw e end
  end.

(** [run_read_cycle_impl]; [fuel] bounds each reconnect loop. *)
Definition run_read_cycle_impl (fuel : nat) : MD unit :=
  process_writes fuel 64;;
  ctx ← obtain_context fuel;
  ctx ← read_functions ctx (hash_iter (ModbusPlan.by_func (ModbusConfig.mappings config)));
  modify (set_client (Some ctx)).

(** ** What each step emits *)

Definition inv (w : World) : Prop := TagRegistry.wf (registry w).
Notation emits := (Effects.emits (E:=DriverError) inv log).

Lemma env_op_gives {A} (f : Env → A * Env) : emits (env_op f) (gives []).
Proof.
  intros w Hw. unfold env_op. destruct (f (env w)) as [a e]. simpl.
  split; [discriminate|]. split; [exact Hw|]. exists [].
  split; [symmetry; apply app_nil_r|]. split; [by eexists|done].
Qed.

(** An environment call, keeping what its result is. *)
Lemma emits_bind_env {A D} (f : Env → A * Env) (k : A → MD D) Q :
  (∀ e a e', f e = (a, e') → emits (k a) Q) → emits (env_op f ≫= k) Q.
Proof.
  intros Hk w Hw. unfold env_op, mbind, M_bind. destruct (f (env w)) as [a e] eqn:Hf.
  exact (Hk _ _ _ Hf (set_env e w) Hw).
Qed.

Lemma emit_gives ev : emits (emit ev) (gives [ev]).
Proof. by apply emits_gives_modify. Qed.

Lemma set_client_gives c : emits (modify (set_client c)) (gives []).
Proof. apply emits_gives_modify. intros w Hw. split; [done|]. simpl. by rewrite app_nil_r. Qed.

Lemma set_env_gives (f : World → Env) : emits (modify (λ w, set_env (f w) w)) (gives []).
Proof. apply emits_gives_modify. intros w Hw. split; [done|]. simpl. by rewrite app_nil_r. Qed.

(** What the two registry operations do to the world. *)
Lemma set_tag_quality_step id q w :
  inv w →
  ∃ r' t e,
    set_tag_quality id q w = (Ret tt, set_registry r' (set_env e w)) ∧
    utc_now (env w) = (t, e) ∧ TagRegistry.wf r' ∧
    TagRegistry.defs r' = TagRegistry.defs (registry w) ∧
    TagRegistry.view r' =
      match TagRegistry.view (registry w) !! id with
      | Some tag => <[id := Tag.set_quality tag q t]> (TagRegistry.view (registry w))
      | None => TagRegistry.view (registry w)
      end.
Proof.
  intros Hw. unfold set_tag_quality, now, env_op.
  destruct (utc_now (env w)) as [t e] eqn:Hnow.
  destruct (TagRegistry.set_tag_quality_view (registry w) id q t Hw)
    as (res & r' & Hr & Hwf' & Hdefs & Hview).
  exists r', t, e. split; [|split_and!; try done].
  - unfold mbind, M_bind, gets, modify. rewrite Hnow. simpl. rewrite Hr. done.
  - destruct (TagRegistry.view (registry w) !! id); by injection Hview as _ ->.
Qed.

Lemma update_tag_value_step id v q ts w :
  inv w →
  ∃ r' t e,
    update_tag_value id v q ts w = (Ret tt, set_registry r' (set_env e w)) ∧
    utc_now (env w) = (t, e) ∧ TagRegistry.wf r' ∧
    TagRegistry.defs r' = TagRegistry.defs (registry w) ∧
    TagRegistry.view r' =
      match TagRegistry.defs (registry w) !! id, TagRegistry.view (registry w) !! id with
      | Some d, Some tag =>
          if TagValue.matches v (TagDefinition.data_type d)
          then <[id := Tag.apply_read tag v q ts t]> (TagRegistry.view (registry w))
          else TagRegistry.view (registry w)
      | _, _ => TagRegistry.view (registry w)
      end.
Proof.
  intros Hw. unfold update_tag_value, now, env_op.
  destruct (utc_now (env w)) as [t e] eqn:Hnow.
  destruct (TagRegistry.update_tag_value_view (registry w) id v q ts t Hw)
    as (res & r' & Hr & Hwf' & Hdefs & Hview).
  exists r', t, e. split; [|split_and!; try done].
  - unfold mbind, M_bind, gets, modify. rewrite Hnow. simpl. rewrite Hr. done.
  - destruct (TagRegistry.defs (registry w) !! id) as [d|]; [|by injection Hview as _ ->].
    destruct (TagRegistry.view (registry w) !! id), (TagValue.matches v (TagDefinition.data_type d));
      simpl in Hview; by injection Hview as _ ->.
Qed.

Lemma set_tag_quality_gives id q : emits (set_tag_quality id q) (gives []).
Proof.
  intros w Hw. destruct (set_tag_quality_step id q w Hw) as (r' & t & e & -> & _ & Hwf & _).
  split; [discriminate|]. split; [exact Hwf|]. exists [].
  split; [symmetry; apply app_nil_r|]. split; [by eexists|done].
Qed.

Lemma update_tag_value_gives id v q ts : emits (update_tag_value id v q ts) (gives []).
Proof.
  intros w Hw. destruct (update_tag_value_step id v q ts w Hw) as (r' & t & e & -> & _ & Hwf & _).
  split; [discriminate|]. split; [exact Hwf|]. exists [].
  split; [symmetry; apply app_nil_r|]. split; [by eexists|done].
Qed.

(** The event a reply is, if the request asked for one. *)
Definition reply_events (reply : option nat) (r : result unit string) : list event :=
  match reply with Some chan => [EvReply chan r] | None => [] end.

Lemma send_reply_gives reply r : emits (send_reply reply r) (gives (reply_events reply r)).
Proof. destruct reply; [apply emit_gives|apply emits_gives_ret]. Qed.

Lemma send_health_event_emits status detail :
  emits (send_health_event status detail)
    (λ o l, o = Ret tt ∧ (l = [] ∨ l = [EvHealth (health_object status detail)])).
Proof.
  unfold send_health_event. eapply emits_bind_gives; [apply emits_gives_gets|].
  intros [] ; [|by apply emits_ret; auto].
  eapply emits_mono; [apply emit_gives|]. intros o l _ [[[] ->] ->]. auto.
Qed.

Lemma now_gives : emits now (gives []).
Proof. apply env_op_gives. Qed.

(** ** Reconnecting *)

(** The successive pauses of the reconnect loop, from the first one on. *)
Fixpoint backoffs (n : nat) (b : Z) : list Z :=
  match n with
  | O => []
  | S n => b :: backoffs n (Z.min (ModbusConfig.max_backoff_secs config) (u64_saturating_mul b 2))
  end.
Definition retry_events (pauses : list Z) : list event :=
  concat ((λ s, [EvConnect false; EvSleep s]) <$> pauses).

(** The loop only ends by connecting, after some failed attempts; it never returns
    an error. *)
Definition connect_trace (fuel : nat) (b : Z)
    (o : outcome DriverError (result ClientContext DriverError)) (l : list event) : Prop :=
  (∃ n ctx, (n < fuel)%nat ∧ o = Ret (Ok ctx) ∧
     l = retry_events (backoffs n b) ++ [EvConnect true]) ∨
  (o = Pending ∧ l = retry_events (backoffs fuel b)).

Lemma connect_loop_emits fuel b : emits (connect_loop fuel b) (connect_trace fuel b).
Proof.
  revert b. induction fuel as [|fuel IH]; intros b; simpl.
  { apply emits_pending. by right. }
  eapply emits_bind_gives; [apply env_op_gives|]. intros [ctx|e].
  - eapply emits_bind_gives; [apply emit_gives|]. intros _.
    apply emits_ret. left. exists 0%nat. eexists. split; [lia|]. by split.
  - eapply emits_bind_gives; [apply emit_gives|]. intros _.
    eapply emits_bind_gives; [apply emit_gives|]. intros _.
    eapply emits_bind_gives; [apply set_env_gives|]. intros _.
    eapply emits_mono; [apply IH|]. intros o l _ [(n & ctx & Hn & -> & ->)|[-> ->]].
    + left. exists (S n), ctx. split; [lia|]. by split.
    + right. by split.
Qed.

(** ** Queued writes *)

(** How a write that was answered ends: the outcome, and the reply and health events. *)
Inductive write_end (reply : option nat)
    : response unit → outcome DriverError unit → list event → Prop :=
| WriteDone : write_end reply (Answer tt) (Ret tt) (reply_events reply (Ok tt))
| WriteIllegal e :
    is_illegal e = true →
    write_end reply (Exception e) (Ret tt) (reply_events reply (Err ("Modbus exception: " +:+ e)))
| WriteException e health :
    is_illegal e = false →
    health = [] ∨ health = [EvHealth (health_object "write_error" (Some e))] →
    write_end reply (Exception e) (Fail (Modbus e))
      (reply_events reply (Err ("Modbus error: " +:+ e)) ++ health)
| WriteTransport t :
    write_end reply (TransportError t) (Fail (Modbus ("Transport: " +:+ t)))
      (reply_events reply (Err ("Transport: " +:+ t)))
| WriteTimeout :
    write_end reply Elapsed (Fail Timeout) (reply_events reply (Err "Timeout")).

(** Everything a dequeued request can do: refused requests get their one reply and
    send nothing; an accepted one (re)connects if needed, sends exactly one write of
    the value's words in the mapping's byte order, and ends as above. *)
Definition write_trace (fuel : nat) (req : WriteRequest)
    (o : outcome DriverError unit) (l : list event) : Prop :=
  let refused msg := o = Ret tt ∧ l = reply_events (WriteRequest.reply req) (Err msg) in
  match find (λ m, bool_decide (ModbusMapping.tag_id m = WriteRequest.tag_id req))
          (ModbusConfig.mappings config) with
  | None => refused "Unknown tag mapping"%string
  | Some m =>
      if negb (ModbusMapping.writable m) then refused "Tag not writable"%string
      else if bool_decide (ModbusMapping.function m = ModbusFunction.HoldingRegisters) then
        ∃ words sent,
          ModbusCodec.tagvalue_to_registers (WriteRequest.value req) = Some (Ok words) ∧
          ModbusCodec.order_words words (ModbusMapping.byte_order m) = Some (Some sent) ∧
          ((o = Pending ∧ l = retry_events (backoffs fuel 1)) ∨
           ∃ conn res ending,
             (conn = [] ∨ ∃ n, (n < fuel)%nat ∧
                conn = retry_events (backoffs n 1) ++ [EvConnect true]) ∧
             write_end (WriteRequest.reply req) res o ending ∧
             l = conn ++ EvWrite (ModbusMapping.address m) sent :: EvAnswer res :: ending)
      else refused "Unsupported write function"%string
  end.

Create HintDb emits.
Hint Resolve emits_gives_ret emits_gives_gets env_op_gives emit_gives set_client_gives
  set_env_gives set_tag_quality_gives update_tag_value_gives send_reply_gives now_gives : emits.

(** Run the next step, whose events are known. *)
Ltac step := eapply emits_bind_gives; [solve [eauto with emits]|intros ?; cbn beta].
Ltac finish :=
  eapply emits_mono; [solve [eauto with emits]|intros ? ? _ [[[] ->] ->]].

Lemma write_result_emits id req res :
  emits (write_result id req res) (write_end (WriteRequest.reply req) res).
Proof.
  unfold write_result. destruct res as [[]|e|t|]; cbv zeta.
  - step. step. finish. constructor.
  - destruct (is_illegal e) eqn:Hi.
    + step. finish. by constructor.
    + step. step. eapply emits_bind; [apply send_health_event_emits|..].
      * intros [] l1 [_ Hl1]. step. apply emits_throw. simpl. rewrite app_nil_r.
        by constructor.
      * by intros ? ? [? _].
      * by intros ? [? _].
  - step. step. step. apply emits_throw. simpl. rewrite app_nil_r. constructor.
  - step. step. step. apply emits_throw. simpl. rewrite app_nil_r. constructor.
Qed.

Lemma write_context_emits fuel id reply :
  emits (write_context fuel id reply)
    (λ o l, (o = Pending ∧ l = retry_events (backoffs fuel 1)) ∨
            (∃ ctx, o = Ret ctx) ∧
            (l = [] ∨ ∃ n, (n < fuel)%nat ∧ l = retry_events (backoffs n 1) ++ [EvConnect true])).
Proof.
  unfold write_context. step. step. simpl app. destruct a as [c|].
  - apply emits_ret. right. eauto.
  - eapply emits_bind; [apply connect_loop_emits|..].
    + intros r l1 [(n & ctx & Hn & [= ->] & ->)|[? _]]; [|done].
      apply emits_ret. right. rewrite app_nil_r. split; [by eexists|]. right. by exists n.
    + intros e l [(n & ctx & _ & ? & _)|[? _]]; done.
    + intros l [(n & ctx & _ & ? & _)|[_ ->]]; [done|]. by left.
Qed.

Lemma write_registers_emits fuel req m sent :
  emits (write_registers fuel req m sent)
    (λ o l, (o = Pending ∧ l = retry_events (backoffs fuel 1)) ∨
       ∃ conn res ending,
         (conn = [] ∨ ∃ n, (n < fuel)%nat ∧
            conn = retry_events (backoffs n 1) ++ [EvConnect true]) ∧
         write_end (WriteRequest.reply req) res o ending ∧
         l = conn ++ EvWrite (ModbusMapping.address m) sent :: EvAnswer res :: ending).
Proof.
  unfold write_registers. eapply emits_bind; [apply write_context_emits|..].
  - intros ctx conn [[? _]|[_ Hconn]]; [done|]. step. step. destruct a0 as [res ctx'].
    step. step. eapply emits_mono; [apply write_result_emits|]. intros o ending _ Hend.
    right. exists conn, res, ending. split; [exact Hconn|]. split; [exact Hend|done].
  - intros e l [[? _]|[[? ?] _]]; done.
  - intros l [[_ ->]|[[? ?] _]]; [by left|done].
Qed.

Lemma process_write_emits fuel req :
  TagValue.wf (WriteRequest.value req) → emits (process_write fuel req) (write_trace fuel req).
Proof.
  intros Hwf. unfold process_write, write_trace.
  destruct (find _ _) as [m|]; [|by finish].
  destruct (ModbusMapping.writable m); simpl negb; cbv match; [|by finish].
  destruct (ModbusCodec.decode_encode _ Hwf) as (words & _ & Hc & _). rewrite Hc.
  rewrite or_panic_bind.
  destruct (ModbusMapping.function m); try (step; simpl app; by finish).
  destruct (ModbusCodec.order_words_spec words (ModbusMapping.byte_order m))
    as (sent & Hs & _). rewrite Hs, or_panic_bind.
  eapply emits_mono; [apply write_registers_emits|]. intros o l _ Hl. rewrite bool_decide_true by done.
  exists words, sent. split; [done|]. split; [done|]. exact Hl.
Qed.

(** ** The requests of a log, and the replies *)

Definition received (l : list event) : list WriteRequest :=
  omap (λ ev, match ev with EvReceived req => Some req | _ => None end) l.
Definition sent_writes (l : list event) : list (Z * list Z) :=
  omap (λ ev, match ev with EvWrite a ws => Some (a, ws) | _ => None end) l.
Definition replied (l : list event) : list nat :=
  omap (λ ev, match ev with EvReply chan _ => Some chan | _ => None end) l.
(** The channels on which the requests wait for a confirmation. *)
Definition awaited (l : list event) : list nat := omap WriteRequest.reply (received l).

Lemma received_app l1 l2 : received (l1 ++ l2) = received l1 ++ received l2.
Proof. apply omap_app. Qed.
Lemma sent_writes_app l1 l2 : sent_writes (l1 ++ l2) = sent_writes l1 ++ sent_writes l2.
Proof. apply omap_app. Qed.
Lemma replied_app l1 l2 : replied (l1 ++ l2) = replied l1 ++ replied l2.
Proof. apply omap_app. Qed.

Lemma retry_events_quiet pauses :
  received (retry_events pauses) = [] ∧ sent_writes (retry_events pauses) = [] ∧
  replied (retry_events pauses) = [].
Proof. unfold retry_events. by induction pauses. Qed.

Lemma reply_events_log reply r :
  received (reply_events reply r) = [] ∧ sent_writes (reply_events reply r) = [] ∧
  replied (reply_events reply r) = option_list reply.
Proof. by destruct reply. Qed.

Lemma write_end_log reply res o l :
  write_end reply res o l →
  received l = [] ∧ sent_writes l = [] ∧ replied l = option_list reply.
Proof.
  destruct 1 as [| |e health _ [-> | ->]| |]; rewrite ?app_nil_r; try apply reply_events_log.
  by destruct reply.
Qed.

(** The write of [words] that a request is entitled to. *)
Definition entitled (req : WriteRequest) (address : Z) (sent : list Z) : Prop :=
  ∃ m words,
    find (λ m, bool_decide (ModbusMapping.tag_id m = WriteRequest.tag_id req))
      (ModbusConfig.mappings config) = Some m ∧
    ModbusMapping.writable m = true ∧
    ModbusMapping.function m = ModbusFunction.HoldingRegisters ∧
    ModbusMapping.address m = address ∧
    ModbusCodec.tagvalue_to_registers (WriteRequest.value req) = Some (Ok words) ∧
    ModbusCodec.order_words words (ModbusMapping.byte_order m) = Some (Some sent).

Lemma write_trace_log fuel req o l :
  write_trace fuel req o l →
  received l = [] ∧
  (∀ a ws, (a, ws) ∈ sent_writes l → entitled req a ws) ∧
  (o ≠ Pending → replied l = option_list (WriteRequest.reply req)).
Proof.
  unfold write_trace.
  pose proof (λ msg, reply_events_log (WriteRequest.reply req) (Err msg)) as Href.
  destruct (find _ _) as [m|] eqn:Hfind.
  2: { intros [-> ->]. destruct (Href "Unknown tag mapping"%string) as (-> & -> & ->).
       split; [done|]. split; [by intros ? ? ?%not_elem_of_nil|done]. }
  destruct (ModbusMapping.writable m) eqn:Hw; simpl negb; cbv match.
  2: { intros [-> ->]. destruct (Href "Tag not writable"%string) as (-> & -> & ->).
       split; [done|]. split; [by intros ? ? ?%not_elem_of_nil|done]. }
  case_bool_decide as Hh.
  2: { intros [-> ->]. destruct (Href "Unsupported write function"%string) as (-> & -> & ->).
       split; [done|]. split; [by intros ? ? ?%not_elem_of_nil|done]. }
  intros (words & sent & Hc & Ho & [[-> ->]|(conn & res & ending & Hconn & Hend & ->)]).
  { destruct (retry_events_quiet (backoffs fuel 1)) as (-> & -> & _).
    split; [done|]. split; [by intros ? ? ?%not_elem_of_nil|done]. }
  assert (received conn = [] ∧ sent_writes conn = [] ∧ replied conn = []) as (Hr & Hs & Hp).
  { destruct Hconn as [->|(n & _ & ->)]; [done|].
    destruct (retry_events_quiet (backoffs n 1)) as (H1 & H2 & H3).
    by rewrite received_app, sent_writes_app, replied_app, H1, H2, H3. }
  destruct (write_end_log _ _ _ _ Hend) as (Hr' & Hs' & Hp').
  rewrite received_app, sent_writes_app, replied_app, Hr, Hs, Hp.
  assert (∀ a ws l, received (EvWrite a ws :: EvAnswer res :: l) = received l ∧
    sent_writes (EvWrite a ws :: EvAnswer res :: l) = (a, ws) :: sent_writes l ∧
    replied (EvWrite a ws :: EvAnswer res :: l) = replied l) as Hcons by done.
  destruct (Hcons (ModbusMapping.address m) sent ending) as (Hc1 & Hc2 & Hc3).
  cbn [app]. rewrite Hc1, Hc2, Hc3.
  rewrite Hr', Hs', Hp'. split; [done|]. split; [|done].
  intros a ws Hin. apply list_elem_of_singleton in Hin as [= -> ->]. by exists m, words.
Qed.

(** The whole write phase: at most [n] requests, each write one that a received
    request is entitled to, and one reply per awaited confirmation, in order. *)
Lemma process_writes_emits fuel n :
  emits (process_writes fuel n)
    (λ o l, (length (received l) ≤ n)%nat ∧
       (∀ a ws, (a, ws) ∈ sent_writes l → ∃ req, req ∈ received l ∧ entitled req a ws) ∧
       (o ≠ Pending → replied l = awaited l)).
Proof.
  assert (∀ n o, (length (received []) ≤ n)%nat ∧
       (∀ a ws, (a, ws) ∈ sent_writes [] → ∃ req, req ∈ received [] ∧ entitled req a ws) ∧
       (o ≠ Pending (E:=DriverError) (A:=unit) → replied [] = awaited [])) as Hnil.
  { intros n' o. split; [simpl; lia|]. split; [by intros ? ? ?%not_elem_of_nil|done]. }
  induction n as [|n IH]; simpl; [by apply emits_ret|].
  apply emits_bind_env. intros e r e' Hrecv.
  destruct r as [req| |]; [|by apply emits_ret..].
  apply try_recv_wf in Hrecv. step.
  eapply emits_bind; [by apply process_write_emits|..].
  - intros [] l1 (Hr1 & Hs1 & Hp1)%write_trace_log.
    eapply emits_mono; [exact IH|]. intros o l2 _ (Hlen & Hs & Hp).
    unfold awaited. rewrite !received_app, !sent_writes_app, !replied_app, Hr1.
    change (received [EvReceived req]) with [req]. change (sent_writes [EvReceived req]) with
      (@nil (Z * list Z)). change (replied [EvReceived req]) with (@nil nat).
    cbn [app]. split; [simpl; lia|]. split.
    + intros addr ws [Hin|Hin]%elem_of_app.
      * exists req. split; [left|by apply Hs1].
      * destruct (Hs addr ws Hin) as (req' & ? & ?). exists req'. split; [by right|done].
    + intros Ho. rewrite Hp1 by done. rewrite Hp by done. unfold awaited.
      by destruct req as [? ? []].
  - intros err l1 (Hr1 & Hs1 & Hp1)%write_trace_log.
    unfold awaited. rewrite !received_app, !sent_writes_app, !replied_app, Hr1.
    change (received [EvReceived req]) with [req]. change (sent_writes [EvReceived req]) with
      (@nil (Z * list Z)). change (replied [EvReceived req]) with (@nil nat).
    cbn [app]. split; [simpl; lia|]. split.
    + intros addr ws Hin. exists req. split; [left|by apply Hs1].
    + intros _. rewrite Hp1 by done. by destruct req as [? ? []].
  - intros l1 (Hr1 & Hs1 & _)%write_trace_log.
    rewrite !received_app, !sent_writes_app, Hr1.
    change (received [EvReceived req]) with [req]. change (sent_writes [EvReceived req]) with
      (@nil (Z * list Z)).
    cbn [app]. split; [simpl; lia|]. split; [|done].
    intros addr ws Hin. exists req. split; [left|by apply Hs1].
Qed.

(** ** What a client of the registry sees: values and qualities *)

Definition shown (w : World) : gmap string (TagValue * TagQuality) :=
  (λ t, (Tag.value t, Tag.quality t)) <$> TagRegistry.view (registry w).

(** The two registry operations on what is seen. *)
Definition mark (id : string) (q : TagQuality)
    (s : gmap string (TagValue * TagQuality)) : gmap string (TagValue * TagQuality) :=
  alter (λ p, (p.1, q)) id s.
Definition put (ds : gmap string TagDefinition) (id : string) (v : TagValue) (q : TagQuality)
    (s : gmap string (TagValue * TagQuality)) : gmap string (TagValue * TagQuality) :=
  match ds !! id with
  | Some d => if TagValue.matches v (TagDefinition.data_type d)
              then alter (λ _, (v, q)) id s else s
  | None => s
  end.

(** Steps that touch the registry and read the clock, and nothing else; [U] is any
    fact about the environment that reading the clock preserves. *)
Section frame.
Context (U : Env → Prop) (HU : ∀ e, U e → U (utc_now e).2).

(** A step that emitted [l], kept the definitions, the slot of the client and the
    health sender, and took what is seen from [s] to [s']. *)
Record frame (l : list event) (w w' : World) : Prop := {
  frame_inv : inv w';
  frame_U : U (env w');
  frame_defs : TagRegistry.defs (registry w') = TagRegistry.defs (registry w);
  frame_client : client w' = client w;
  frame_health : health_tx w' = health_tx w;
  frame_log : log w' = log w ++ l;
}.

Lemma frame_refl w : inv w → U (env w) → frame [] w w.
Proof. constructor; try done. by rewrite app_nil_r. Qed.

Lemma frame_trans l1 l2 w1 w2 w3 : frame l1 w1 w2 → frame l2 w2 w3 → frame (l1 ++ l2) w1 w3.
Proof. intros [] []. constructor; try congruence. by rewrite (assoc_L (++)); congruence. Qed.

(** The common shape: a registry update under the current clock reading. *)
Lemma frame_registry r' t e w :
  utc_now (env w) = (t, e) → U (env w) → TagRegistry.wf r' →
  TagRegistry.defs r' = TagRegistry.defs (registry w) →
  frame [] w (set_registry r' (set_env e w)).
Proof.
  intros Hn HUw Hwf Hd. specialize (HU _ HUw). rewrite Hn in HU.
  constructor; try done. simpl. by rewrite app_nil_r.
Qed.

(** [m] returns from [w], emitting [l] and applying [f] to what is seen. *)
Definition runs {A} (m : MD A) (l : list event)
    (f : gmap string (TagValue * TagQuality) → gmap string (TagValue * TagQuality))
    (w : World) : Prop :=
  ∃ a w', m w = (Ret a, w') ∧ frame l w w' ∧ shown w' = f (shown w).

Lemma runs_bind {A D} (m : MD A) (k : A → MD D) l1 l2 f1 f2 w :
  runs m l1 f1 w →
  (∀ a w', frame l1 w w' → runs (k a) l2 f2 w') →
  runs (m ≫= k) (l1 ++ l2) (λ s, f2 (f1 s)) w.
Proof.
  intros (a & w1 & Hm & F1 & S1) Hk. destruct (Hk a w1 F1) as (b & w2 & H2 & F2 & S2).
  exists b, w2. rewrite (bind_ret _ _ _ _ _ Hm). split; [done|].
  split; [by eapply frame_trans|]. by rewrite S2, S1.
Qed.

Lemma runs_ret {A} (a : A) w : inv w → U (env w) → runs (mret a) [] (λ s, s) w.
Proof. intros. exists a, w. split; [done|]. split; [by apply frame_refl|done]. Qed.

Lemma set_tag_quality_frame id q w :
  inv w → U (env w) →
  runs (set_tag_quality id q) [] (mark id q) w.
Proof.
  intros Hw HUw. destruct (set_tag_quality_step id q w Hw) as (r' & t & e & Hs & Hn & Hwf & Hd & Hv).
  do 2 eexists. split; [exact Hs|]. clear Hs. split; [by eapply frame_registry|].
  unfold shown, mark. simpl. rewrite Hv.
  destruct (TagRegistry.view (registry w) !! id) as [tag|] eqn:Hid.
  - apply map_eq. intros id'. rewrite lookup_fmap, lookup_insert, lookup_alter, lookup_fmap.
    case_decide; subst; [by rewrite Hid|by rewrite lookup_fmap].
  - symmetry. apply alter_absent. by rewrite lookup_fmap, Hid.
Qed.

Lemma now_frame w :
  inv w → U (env w) → runs now [] (λ s, s) w.
Proof.
  intros Hw HUw. specialize (HU _ HUw). unfold runs, now, env_op.
  destruct (utc_now (env w)) as [t e]. exists t, (set_env e w).
  split; [done|]. split; [|done]. constructor; try done. simpl. by rewrite app_nil_r.
Qed.

Lemma update_tag_value_frame id v q ts w :
  inv w → U (env w) →
  runs (update_tag_value id v q ts) [] (put (TagRegistry.defs (registry w)) id v q) w.
Proof.
  intros Hw HUw.
  destruct (update_tag_value_step id v q ts w Hw) as (r' & t & e & Hs & Hn & Hwf & Hd & Hv).
  do 2 eexists. split; [exact Hs|]. clear Hs. split; [by eapply frame_registry|].
  unfold shown, put. simpl. rewrite Hv.
  destruct (TagRegistry.defs (registry w) !! id) as [d|] eqn:Hdef; [|done].
  destruct (TagRegistry.typed_tag _ _ _ _ (TagRegistry.wf_typed _ Hw) Hdef) as (tag & Htag & _).
  rewrite Htag. destruct (TagValue.matches v (TagDefinition.data_type d)); [|done].
  apply map_eq. intros id'. rewrite lookup_fmap, lookup_insert, lookup_alter, lookup_fmap.
  case_decide; subst; [by rewrite Htag|by rewrite lookup_fmap].
Qed.

Lemma send_reply_frame reply r w :
  inv w → U (env w) →
  runs (send_reply reply r) (reply_events reply r) (λ s, s) w.
Proof.
  intros Hw HUw. destruct reply as [chan|]; (do 2 eexists; split; [done|]; split; [|done]).
  - by constructor.
  - by apply frame_refl.
Qed.

Lemma send_health_event_frame status detail w :
  inv w → U (env w) →
  runs (send_health_event status detail)
    (if health_tx w then [EvHealth (health_object status detail)] else []) (λ s, s) w.
Proof.
  intros Hw HUw. unfold runs, send_health_event.
  rewrite (bind_ret (gets health_tx) _ w (health_tx w) w) by done.
  destruct (health_tx w); do 2 eexists; (split; [done|]; split; [|done]).
  - by constructor.
  - by apply frame_refl.
Qed.
End frame.
End cycle.
End defs.

(** Run the next step of a goal [∃ o w', (m ≫= k) w = (o, w') ∧ ..], known by its
    [runs] lemma. *)
Ltac side := eassumption || (eapply frame_inv; eassumption) || (eapply frame_U; eassumption)
  || done.
Ltac run_step lem :=
  match goal with
  | |- context [(?m ≫= ?k) ?w] =>
      let R := fresh "R" in let H := fresh "H" in let F := fresh "F" in let S := fresh "S" in
      eassert (R : runs _ m _ _ w) by (eapply lem; side);
      destruct R as (? & ? & H & F & S); rewrite (bind_ret _ _ _ _ _ H); clear H
  end.
(** The last step. *)
Ltac run_last lem :=
  match goal with
  | |- context [?m ?w = (_, _)] =>
      let R := fresh "R" in let H := fresh "H" in let F := fresh "F" in let S := fresh "S" in
      eassert (R : runs _ m _ _ w) by (eapply lem; side);
      destruct R as ([] & ? & H & F & S); rewrite H; clear H
  end.

Section effects.
Context {C : Chrono} {B : ByteOrder} {J : SerdeJson} {IO : ModbusIO}.
Context `{!HashIter ModbusFunction} (config : ModbusConfig SocketAddr).
Notation MD := (M World DriverError).

(** The value and quality a write leaves behind, what it replies, and how the driver
    goes on. *)
Definition write_effect (id : string) (req : WriteRequest) (res : response unit)
    (o : outcome DriverError unit) (w w' : World) : Prop :=
  let reply := reply_events (WriteRequest.reply req) in
  match res with
  | Answer tt =>
      o = Ret tt ∧ client w' = client w ∧ log w' = log w ++ reply (Ok tt) ∧
      shown w' = put (TagRegistry.defs (registry w)) id (WriteRequest.value req)
                   TagQuality.Good (shown w)
  | Exception e =>
      if is_illegal e
      then o = Ret tt ∧ client w' = client w ∧
           log w' = log w ++ reply (Err ("Modbus exception: " +:+ e)) ∧
           shown w' = mark id TagQuality.ConfigError (shown w)
      else o = Fail (Modbus e) ∧ client w' = None ∧
           log w' = log w ++ reply (Err ("Modbus error: " +:+ e)) ++
             (if health_tx w then [EvHealth (health_object config "write_error" (Some e))] else []) ∧
           shown w' = mark id TagQuality.CommLost (shown w)
  | TransportError t =>
      o = Fail (Modbus ("Transport: " +:+ t)) ∧ client w' = None ∧
      log w' = log w ++ reply (Err ("Transport: " +:+ t)) ∧
      shown w' = mark id TagQuality.CommLost (shown w)
  | Elapsed =>
      o = Fail Timeout ∧ client w' = None ∧ log w' = log w ++ reply (Err "Timeout"%string) ∧
      shown w' = mark id TagQuality.CommLost (shown w)
  end.

Lemma write_result_effect id req res w :
  inv w →
  ∃ o w', write_result config id req res w = (o, w') ∧ inv w' ∧
    TagRegistry.defs (registry w') = TagRegistry.defs (registry w) ∧
    write_effect id req res o w w'.
Proof.
  intros Hw. pose (U := λ _ : Env, True). assert (U (env w)) as HUw by done.
  assert (∀ e, U e → U (utc_now e).2) as HU by done.
  assert (∀ c w, log (set_client c w) = log w) as Hlog by done.
  unfold write_result, write_effect. destruct res as [[]|e|t|].
  - run_step now_frame. run_step update_tag_value_frame. run_last send_reply_frame.
    do 2 eexists. split; [done|]. destruct F, F0, F1. split; [done|]. split; [congruence|].
    split_and!; try congruence. rewrite frame_log2, frame_log1, frame_log0. by rewrite !app_nil_r.
  - destruct (is_illegal e).
    + run_step set_tag_quality_frame. run_last send_reply_frame.
      do 2 eexists. split; [done|]. destruct F, F0. split; [done|]. split; [congruence|].
      split_and!; try congruence. rewrite frame_log1, frame_log0. by rewrite app_nil_r.
    + run_step set_tag_quality_frame. run_step send_reply_frame. run_step send_health_event_frame.
      do 2 eexists. split; [reflexivity|]. destruct F, F0, F1. split; [done|].
      split; [simpl; congruence|]. split_and!; try done; [|unfold shown in *; simpl; congruence].
      simpl. rewrite frame_log2, frame_log1, frame_log0, app_nil_r, <- (assoc_L (++)).
      by rewrite frame_health1, frame_health0.
  - run_step set_tag_quality_frame. run_step send_reply_frame.
    do 2 eexists. split; [reflexivity|]. destruct F, F0. split; [done|].
    split; [simpl; congruence|]. split_and!; try done; [|unfold shown in *; simpl; congruence].
    simpl. by rewrite frame_log1, frame_log0, app_nil_r.
  - run_step set_tag_quality_frame. run_step send_reply_frame.
    do 2 eexists. split; [reflexivity|]. destruct F, F0. split; [done|].
    split; [simpl; congruence|]. split_and!; try done; [|unfold shown in *; simpl; congruence].
    simpl. by rewrite frame_log1, frame_log0, app_nil_r.
Qed.

(** ** The pauses of the reconnect loop *)

Lemma backoffs_lookup n k i :
  0 ≤ ModbusConfig.max_backoff_secs config < 2 ^ 64 → (i < n)%nat →
  backoffs config n (Z.min (ModbusConfig.max_backoff_secs config) (2 ^ Z.of_nat k)) !! i
  = Some (Z.min (ModbusConfig.max_backoff_secs config) (2 ^ Z.of_nat (k + i))).
Proof.
  intros Hm. revert k i. induction n as [|n IH]; intros k i Hi; [lia|].
  destruct i as [|i]; cbn [backoffs lookup list_lookup]; [by rewrite Nat.add_0_r|].
  replace (Z.min (ModbusConfig.max_backoff_secs config)
    (u64_saturating_mul (Z.min (ModbusConfig.max_backoff_secs config) (2 ^ Z.of_nat k)) 2))
    with (Z.min (ModbusConfig.max_backoff_secs config) (2 ^ Z.of_nat (S k))).
  - rewrite IH by lia. do 3 f_equal. f_equal. lia.
  - unfold u64_saturating_mul. rewrite Nat2Z.inj_succ, Z.pow_succ_r by lia.
    pose proof (Z.pow_pos_nonneg 2 (Z.of_nat k)). lia.
Qed.

Lemma backoffs_first n i :
  0 ≤ ModbusConfig.max_backoff_secs config < 2 ^ 64 → (i < n)%nat →
  backoffs config n 1 !! i =
    Some (if (i =? 0)%nat then 1
          else Z.min (ModbusConfig.max_backoff_secs config) (2 ^ Z.of_nat i)).
Proof.
  intros Hm Hi. destruct n as [|n]; [lia|]. destruct i as [|i]; [done|].
  cbn [backoffs lookup list_lookup Nat.eqb].
  replace (Z.min (ModbusConfig.max_backoff_secs config) (u64_saturating_mul 1 2))
    with (Z.min (ModbusConfig.max_backoff_secs config) (2 ^ Z.of_nat 1)) by done.
  rewrite backoffs_lookup by lia. done.
Qed.
End effects.
End ModbusDriver.

(** ** A concrete environment, for the witnesses

    A PLC with holding registers, a link that is up or down, a queue of requests and
    a clock that advances by one nanosecond per reading. *)
Module ModbusRef.
Import ModbusIO.
Export RegistryRef.
#[local] Existing Instances CratesRef.chrono_ref CratesRef.json_ref.

Definition wf_request : Type := { req : WriteRequest | TagValue.wf (WriteRequest.value req) }.

Record RefEnv := mkRef {
  queue : list wf_request;
  plc : Z → Z;
  link : bool;
  reads : response unit;
  writes : response unit;
  time : Z;
}.

Definition ref_store (address : Z) (words : list Z) (mem : Z → Z) : Z → Z :=
  λ a, match words !! Z.to_nat (a - address) with
       | Some w => if address <=? a then w else mem a
       | None => mem a
       end.

Definition ref_recv (e : RefEnv) : recv * RefEnv :=
  match queue e with
  | [] => (Empty, e)
  | req :: rest =>
      (Received (proj1_sig req), {| queue := rest; plc := plc e; link := link e;
         reads := reads e; writes := writes e; time := time e |})
  end.

Definition ref_answer {A} (r : response unit) (a : A) : response A :=
  match r with
  | Answer tt => Answer a
  | Exception d => Exception d
  | TransportError t => TransportError t
  | Elapsed => Elapsed
  end.

Definition ref_read (e : RefEnv) (start qty : Z) : response (list Z) :=
  ref_answer (reads e) (plc e <$> seqZ start qty).
Definition ref_bits (e : RefEnv) (start qty : Z) : response (list bool) :=
  ref_answer (reads e) ((λ a, negb (plc e a =? 0)) <$> seqZ start qty).

Program Definition modbus_io_ref : ModbusIO := {|
  Env := RefEnv;
  SocketAddr := unit;
  ClientContext := Z;
  tcp_connect _ e := (if link e then Ok 0 else Err "connection refused"%string, e);
  set_slave _ unit := unit;
  write_multiple_registers _ ctx address words e :=
    (writes e, ctx, {| queue := queue e; plc := ref_store address words (plc e); link := link e;
                       reads := reads e; writes := writes e; time := time e |});
  read_holding_registers _ ctx start qty e := (ref_read e start qty, ctx, e);
  read_input_registers _ ctx start qty e := (ref_read e start qty, ctx, e);
  read_coils _ ctx start qty e := (ref_bits e start qty, ctx, e);
  read_discrete_inputs _ ctx start qty e := (ref_bits e start qty, ctx, e);
  try_recv := ref_recv;
  sleep _ e := e;
  utc_now e := (time e, {| queue := queue e; plc := plc e; link := link e;
                           reads := reads e; writes := writes e; time := time e + 1 |});
|}.
Next Obligation.
  intros e req e'. unfold ref_recv. destruct (queue e) as [|[r Hr] l]; [done|].
  by intros [= <- _].
Qed.

Definition ref_env (queue : list wf_request) (mem : Z → Z) : RefEnv :=
  {| queue := queue; plc := mem; link := true; reads := Answer tt; writes := Answer tt; time := 0 |}.

(** The tag definition of a mapping. *)
Definition definition_of (m : ModbusMapping) : TagDefinition :=
  let id := ModbusMapping.tag_id m in
  TagDefinition.new id id "addr" (ModbusMapping.data_type m) "plc".
End ModbusRef.

(** ** Properties of the write phase and of the reconnect loop *)

Module ModbusWrites.
Import ModbusIO ModbusDriver ModbusError.
Section properties.
Context {C : Chrono} {B : ByteOrder} {J : SerdeJson} {IO : ModbusIO}.
Context `{!HashIter ModbusFunction} (config : ModbusConfig SocketAddr).

(** C6: the write phase of a cycle never panics and keeps the registry consistent;
    it takes at most 64 requests; every write that reaches the PLC is one a received
    request is entitled to (a mapped, writable tag of the holding registers, at the
    mapping's address, with the words of the requested value in the mapping's byte
    order); and, unless it is still waiting for a connection, the requests that await
    a confirmation have each got exactly one reply, in order. *)
Theorem modbus_writes_accounted (fuel : nat) (w w' : World) (o : outcome DriverError unit) :
  inv w → process_writes config fuel 64 w = (o, w') →
  o ≠ Panic ∧ inv w' ∧
  ∃ l, log w' = log w ++ l ∧
    (length (received l) ≤ 64)%nat ∧
    (∀ a ws, (a, ws) ∈ sent_writes l → ∃ req, req ∈ received l ∧ entitled config req a ws) ∧
    (o ≠ Pending → replied l = awaited l).
Proof.
  intros Hw Hrun. pose proof (process_writes_emits config fuel 64 w Hw) as Hl.
  by rewrite Hrun in Hl.
Qed.

(** C19: an accepted write on a live connection issues exactly one request, with the
    value's words in the mapping's byte order, and the PLC's response decides the
    rest: success shows the value as Good and confirms it; an "Illegal" exception
    marks the tag ConfigError and keeps the connection; any other exception, a
    transport error or a timeout marks it CommLost, drops the connection and ends
    the cycle with the error.  The requester is told in every case. *)
Theorem modbus_write_outcome (fuel : nat) (req : WriteRequest) (m : ModbusMapping)
    (ctx ctx' : ClientContext) (res : response unit) (e' : Env) (words sent : list Z) (w : World) :
  inv w → client w = Some ctx →
  find (λ m, bool_decide (ModbusMapping.tag_id m = WriteRequest.tag_id req))
    (ModbusConfig.mappings config) = Some m →
  ModbusMapping.writable m = true →
  ModbusMapping.function m = ModbusFunction.HoldingRegisters →
  ModbusCodec.tagvalue_to_registers (WriteRequest.value req) = Some (Ok words) →
  ModbusCodec.order_words words (ModbusMapping.byte_order m) = Some (Some sent) →
  write_multiple_registers (ModbusConfig.io_timeout_ms config) ctx (ModbusMapping.address m)
    sent (env w) = (res, ctx', e') →
  ∃ o w', process_write config fuel req w = (o, w') ∧ inv w' ∧
    write_effect config (ModbusMapping.tag_id m) req res o
      (set_client (Some ctx') (add_event (EvAnswer res)
         (set_env e' (add_event (EvWrite (ModbusMapping.address m) sent) w))))
      w'.
Proof.
  intros Hw Hc Hf Hwr Hh Hwords Hsent Hres.
  set (w1 := set_client (Some ctx') _).
  destruct (write_result_effect config (ModbusMapping.tag_id m) req res w1)
    as (o & w' & Ho & Hw' & _ & He); [done|].
  exists o, w'. split; [|done]. rewrite <- Ho.
  unfold process_write. rewrite Hf, Hwr. simpl negb. cbv match.
  rewrite Hwords, or_panic_bind, Hh, Hsent, or_panic_bind. unfold write_registers, write_context.
  unfold mbind, M_bind, gets, modify, emit, env_op, mret, M_ret. simpl.
  rewrite Hc. simpl. by rewrite Hres.
Qed.

(** A writable mapping of any other function, in particular of a coil, is never
    written: the request gets "Unsupported write function", no request is sent, and
    the tag is marked CommLost although the connection was not even used. *)
Theorem modbus_coil_write_unsupported (fuel : nat) (req : WriteRequest) (m : ModbusMapping)
    (w : World) :
  inv w → TagValue.wf (WriteRequest.value req) →
  find (λ m, bool_decide (ModbusMapping.tag_id m = WriteRequest.tag_id req))
    (ModbusConfig.mappings config) = Some m →
  ModbusMapping.writable m = true →
  ModbusMapping.function m ≠ ModbusFunction.HoldingRegisters →
  ∃ w', process_write config fuel req w = (Ret tt, w') ∧
    log w' = log w ++ reply_events (WriteRequest.reply req) (Err "Unsupported write function"%string) ∧
    client w' = client w ∧
    shown w' = mark (ModbusMapping.tag_id m) TagQuality.CommLost (shown w).
Proof.
  intros Hw Hwf Hf Hwr Hh. pose (U := λ _ : Env, True). assert (U (env w)) as HUw by done.
  assert (∀ e, U e → U (utc_now e).2) as HU by done.
  destruct (ModbusCodec.decode_encode _ Hwf) as (words & _ & Hc & _).
  unfold process_write. rewrite Hf, Hwr. simpl negb. cbv match. rewrite Hc, or_panic_bind.
  destruct (ModbusMapping.function m); try done.
  all: cbn [negb]; cbv match; run_step set_tag_quality_frame; run_last send_reply_frame;
    eexists; split; [done|]; destruct F, F0;
    rewrite frame_log1, frame_log0, app_nil_r; split_and!; congruence.
Qed.

(** The reconnect loop never gives up with an error and never panics: it either
    connects, after some failed attempts, or has failed as often as it was allowed
    to; it pauses one second after the first failure and min(max_backoff, 2^i)
    seconds after the (i+1)-th. *)
Theorem modbus_connect_backoff (fuel : nat) (w w' : World)
    (o : outcome DriverError (result ClientContext DriverError)) :
  inv w → 0 ≤ ModbusConfig.max_backoff_secs config < 2 ^ 64 →
  connect_with_backoff config fuel w = (o, w') →
  ∃ n,
    ((o = Pending ∧ n = fuel ∧ log w' = log w ++ retry_events (backoffs config n 1)) ∨
     (∃ ctx, o = Ret (Ok ctx)) ∧ (n < fuel)%nat ∧
       log w' = log w ++ retry_events (backoffs config n 1) ++ [EvConnect true]) ∧
    ∀ i, (i < n)%nat → backoffs config n 1 !! i =
      Some (if (i =? 0)%nat then 1
            else Z.min (ModbusConfig.max_backoff_secs config) (2 ^ Z.of_nat i)).
Proof.
  intros Hw Hmax Hrun. pose proof (connect_loop_emits config fuel 1 w Hw) as (_ & _ & l & Hl & Ht).
  unfold connect_with_backoff in Hrun. rewrite Hrun in Hl, Ht. simpl in *. subst. destruct Ht as [(n & ctx & Hn & -> & ->)|[-> ->]].
  - exists n. split; [right; split_and!; eauto|]. intros i Hi. by apply backoffs_first.
  - exists fuel. split; [by left|]. intros i Hi. by apply backoffs_first.
Qed.
End properties.

Section witnesses.
Import ModbusRef.
Local Existing Instances CratesRef.chrono_ref CratesRef.byteorder_ref CratesRef.json_ref
  modbus_io_ref.
Local Instance iter : HashIter ModbusFunction := hash_iter_ref ModbusFunction.

Definition speed : ModbusMapping :=
  ModbusMapping.new "speed" 100 2 ModbusFunction.HoldingRegisters TagDataType.Int32 0 true
    WordOrder.CDAB.
Definition valve : ModbusMapping :=
  ModbusMapping.new "valve" 7 1 ModbusFunction.Coils TagDataType.Bool 0 true WordOrder.ABCD.
Definition config : ModbusConfig SocketAddr := ModbusConfig.new "plc" tt 9 100 [speed; valve].

Lemma speed_value_wf : TagValue.wf (TagValue.Int32 (-2)).
Proof. simpl. int_ranges. lia. Qed.
Definition set_speed : wf_request :=
  exist (λ r, TagValue.wf (WriteRequest.value r))
    (WriteRequest.mk "speed" (TagValue.Int32 (-2)) (Some 1%nat)) speed_value_wf.
Definition set_valve : wf_request :=
  exist (λ r, TagValue.wf (WriteRequest.value r))
    (WriteRequest.mk "valve" (TagValue.Bool true) (Some 2%nat)) I.

Definition world (c : option Z) : World :=
  set_client c (new (ref_registry [definition_of speed; definition_of valve])
    (ref_env [set_speed; set_valve] (λ _, 0))).

Definition link_down : Env := mkRef [] (λ _, 0) false (Answer tt) (Answer tt) 0.

Lemma world_inv c : inv (world c).
Proof. apply ref_registry_wf. vm_compute. reflexivity. Qed.

(** The concrete run: one connection, one write, two replies. *)
Example write_phase_log :
  log (process_writes config 5 64 (world None)).2 =
    [EvReceived (proj1_sig set_speed); EvConnect true; EvWrite 100 [65534; 65535];
     EvAnswer (Answer tt); EvReply 1 (Ok tt); EvReceived (proj1_sig set_valve);
     EvReply 2 (Err "Unsupported write function"%string)].
Proof. vm_refl. Qed.

(** The run whose log is above, and a run without a PLC. *)
Definition after_writes : World := (process_writes config 5 64 (world None)).2.
Lemma write_phase_returns : (process_writes config 5 64 (world None)).1 = Ret tt.
Proof. vm_refl. Qed.
Lemma write_phase_run : process_writes config 5 64 (world None) = (Ret tt, after_writes).
Proof. exact (run_eq (process_writes config 5 64) (world None) (Ret tt) write_phase_returns). Qed.

Definition unplugged : World := set_env link_down (world None).
Definition after_connect : World := (connect_with_backoff config 3 unplugged).2.
Lemma unplugged_waits : (connect_with_backoff config 3 unplugged).1 = Pending.
Proof. vm_refl. Qed.
Lemma unplugged_run : connect_with_backoff config 3 unplugged = (Pending, after_connect).
Proof. exact (run_eq (connect_with_backoff config 3) unplugged Pending unplugged_waits). Qed.
Example unplugged_log : log after_connect = retry_events [1; 2; 4].
Proof. vm_refl. Qed.

Lemma modbus_writes_accounted_witness :
  inv after_writes ∧ ∃ l, log after_writes = [] ++ l ∧ replied l = awaited l.
Proof.
  destruct (modbus_writes_accounted config 5 (world None) after_writes (Ret tt) (world_inv None)
    write_phase_run) as (_ & Hinv & l & Hl & _ & _ & Hp).
  split; [exact Hinv|]. exists l. split; [exact Hl|]. apply Hp. discriminate.
Defined.

Lemma modbus_write_outcome_witness :
  ∃ o w', process_write config 5 (proj1_sig set_speed) (world (Some 9)) = (o, w') ∧ inv w' ∧
    write_effect config "speed" (proj1_sig set_speed) (Answer tt) o
      (set_client (Some 9) (add_event (EvAnswer (Answer tt))
         (set_env (ref_env [set_speed; set_valve] (ref_store 100 [65534; 65535] (λ _, 0)))
            (add_event (EvWrite 100 [65534; 65535]) (world (Some 9))))))
      w'.
Proof.
  exact (modbus_write_outcome config 5 (proj1_sig set_speed) speed 9 9 (Answer tt)
    (ref_env [set_speed; set_valve] (ref_store 100 [65534; 65535] (λ _, 0)))
    [65535; 65534] [65534; 65535] (world (Some 9)) (world_inv _)
    eq_refl eq_refl eq_refl eq_refl eq_refl eq_refl eq_refl).
Defined.

Lemma modbus_coil_write_unsupported_witness :
  ∃ w', process_write config 5 (proj1_sig set_valve) (world None) = (Ret tt, w') ∧
    log w' = [EvReply 2 (Err "Unsupported write function"%string)] ∧
    client w' = None ∧
    shown w' = mark "valve" TagQuality.CommLost (shown (world None)).
Proof.
  apply (modbus_coil_write_unsupported config 5 (proj1_sig set_valve) valve (world None)
    (world_inv _) I eq_refl eq_refl). discriminate.
Defined.

Lemma modbus_connect_backoff_witness :
  ∃ n, (n = 3%nat ∨ log after_connect = retry_events (backoffs config n 1) ++ [EvConnect true]) ∧
    ∀ i, (i < n)%nat → backoffs config n 1 !! i =
      Some (if (i =? 0)%nat then 1
            else Z.min (ModbusConfig.max_backoff_secs config) (2 ^ Z.of_nat i)).
Proof.
  destruct (modbus_connect_backoff config 3 unplugged after_connect Pending
    (world_inv None) ltac:(by vm_compute) unplugged_run) as (n & [(_ & Hn & _)|(_ & _ & Hl)] & Hb);
    exists n; (split; [|exact Hb]); [by left|by right].
Defined.
End witnesses.
End ModbusWrites.
