(* ===== verification/ModbusReads.v ===== *)
(** * Modbus driver: the read phase refines a pure specification

    The read phase of driver/modbus/src/driver.rs, seen through the registry, is a
    fold over the mappings: [read_steps] lists which mapping is looked at in which
    chunk, and [apply_step] says what each look does to the values and qualities
    shown.  The file proves this refinement against a PLC that answers from a memory,
    and derives from it what a cycle leaves in every tag, and how the error paths
    go. *)

From stdpp Require Import base tactics numbers list gmap strings sorting.
From S2P Require Import Prelude Effects RustStd RustStr RustSlice RustMap Ranges Crates CratesRef TagValue Tag TagDefinition TagStore Registry ModbusTypes ModbusCodec ModbusPlan ModbusDriver.
Local Open Scope Z_scope.

Module ModbusReads.
Import ModbusIO ModbusDriver ModbusError.

Section spec.
Context {C : Chrono} {B : ByteOrder} {J : SerdeJson}.
Notation shown_map := (gmap string (TagValue * TagQuality)).

(** ** The specification *)

(** What looking at a mapping in a chunk does to the values shown. *)
Definition apply_mapping (ds : gmap string TagDefinition) (chunk_start chunk_qty : Z)
    (raw_bytes : list Z) (m : ModbusMapping) (s : shown_map) : shown_map :=
  let id := ModbusMapping.tag_id m in
  match ModbusPlan.extract chunk_start chunk_qty raw_bytes m with
  | ModbusPlan.Outside => s
  | ModbusPlan.Short => mark id TagQuality.ConfigError s
  | ModbusPlan.Slice slice =>
      match ds !! id with
      | None => mark id TagQuality.ConfigError s
      | Some _ =>
          match ModbusCodec.decode_bytes_to_tagvalue (ModbusMapping.data_type m)
                  (WordOrder.order_spec (ModbusMapping.byte_order m) slice)
                  (ModbusMapping.bit_offset m) with
          | Ok v => put ds id v TagQuality.Good s
          | Err _ => mark id TagQuality.ConfigError s
          end
      end
  end.

(** The bytes the driver makes of the PLC's memory. *)
Definition chunk_bytes (mem : ModbusFunction → Z → Z) (func : ModbusFunction)
    (chunk_start chunk_qty : Z) : list Z :=
  let addresses := seqZ chunk_start chunk_qty in
  ModbusCodec.registers_to_bytes
    match func with
    | ModbusFunction.HoldingRegisters | ModbusFunction.InputRegisters => mem func <$> addresses
    | ModbusFunction.Coils | ModbusFunction.DiscreteInputs =>
        ModbusPlan.pack_bits ((λ a, negb (mem func a =? 0)) <$> addresses)
    end.

(** One look: a function, a chunk and a mapping. *)
Definition look : Type := ModbusFunction * (Z * Z) * ModbusMapping.

Definition apply_look (mem : ModbusFunction → Z → Z) (ds : gmap string TagDefinition)
    (s : shown_map) (l : look) : shown_map :=
  let '(func, (cs, cq), m) := l in
  apply_mapping ds cs cq (chunk_bytes mem func cs cq) m s.

Definition group_chunks (func : ModbusFunction) (g : ModbusPlan.Group) : list (Z * Z) :=
  ModbusPlan.chunks (Z.to_nat (ModbusPlan.qty g)) (ModbusPlan.start g) (ModbusPlan.qty g)
    (ModbusPlan.max_allowed func).
Definition chunk_looks (func : ModbusFunction) (ms : list ModbusMapping) (c : Z * Z) : list look :=
  (λ m, (func, c, m)) <$> ms.
Definition group_looks (func : ModbusFunction) (g : ModbusPlan.Group) : list look :=
  concat (chunk_looks func (ModbusPlan.members g) <$> group_chunks func g).
Definition function_groups (maps : list ModbusMapping) : list ModbusPlan.Group :=
  ModbusPlan.build_groups (sort_by_key ModbusMapping.address maps).
Definition function_looks (fm : ModbusFunction * list ModbusMapping) : list look :=
  concat (group_looks fm.1 <$> function_groups fm.2).
Definition read_looks `{!HashIter ModbusFunction} (mappings : list ModbusMapping) : list look :=
  concat (function_looks <$> hash_iter (ModbusPlan.by_func mappings)).

(** The requests of the read phase. *)
Definition group_requests (func : ModbusFunction) (g : ModbusPlan.Group)
    : list (ModbusFunction * (Z * Z)) := (λ c, (func, c)) <$> group_chunks func g.
Definition read_requests `{!HashIter ModbusFunction} (mappings : list ModbusMapping)
    : list (ModbusFunction * (Z * Z)) :=
  concat ((λ fm, concat (group_requests fm.1 <$> function_groups fm.2))
            <$> hash_iter (ModbusPlan.by_func mappings)).
End spec.

(** ** The refinement *)

Section refine.
Context {C : Chrono} {B : ByteOrder} {J : SerdeJson} {IO : ModbusIO}.
Context `{!HashIter ModbusFunction} (config : ModbusConfig SocketAddr).
Context (U : Env → Prop) (HU : ∀ e, U e → U (utc_now e).2).
Notation MD := (M World DriverError).
Notation frame := (ModbusDriver.frame U).
Notation runs := (ModbusDriver.runs U).

Lemma runs_ext {A} (m : MD A) l l' f f' w :
  runs m l f w → l = l' → f (shown w) = f' (shown w) → runs m l' f' w.
Proof. intros (a & w' & H & F & S) <- Hf. exists a, w'. by rewrite <- Hf. Qed.

(** Sequencing, with the events and the effect given by equations. *)
Lemma runs_seq {A D} (m : MD A) (k : A → MD D) l1 l2 l f1 f2 f w :
  runs m l1 f1 w →
  (∀ a w', frame l1 w w' → runs (k a) l2 f2 w') →
  l = l1 ++ l2 → f (shown w) = f2 (f1 (shown w)) →
  runs (m ≫= k) l f w.
Proof.
  intros Hm Hk -> Hf. destruct (runs_bind U _ _ _ _ _ _ _ Hm Hk) as (a & w' & H & F & S).
  exists a, w'. by rewrite Hf.
Qed.

(** The worlds the read phase goes through: consistent, over the definitions [ds]. *)
Definition ready (ds : gmap string TagDefinition) (w : World) : Prop :=
  inv w ∧ U (env w) ∧ TagRegistry.defs (registry w) = ds.

Lemma ready_frame ds l w w' : frame l w w' → ready ds w → ready ds w'.
Proof. intros [] (? & ? & <-). split; [done|]. by split. Qed.

Lemma get_tag_ok w id d :
  inv w → TagRegistry.defs (registry w) !! id = Some d →
  ∃ t, TagRegistry.get_tag (registry w) id = Some (Ok t).
Proof.
  intros Hw Hd. destruct (TagRegistry.typed_tag _ _ _ _ (TagRegistry.wf_typed _ Hw) Hd)
    as (t & Ht & _).
  exists t. by rewrite TagRegistry.get_tag_view, Ht.
Qed.

Lemma update_mapping_runs ds cs cq raw m w :
  ready ds w → runs (update_mapping cs cq raw m) [] (apply_mapping ds cs cq raw m) w.
Proof.
  intros (Hw & HUw & <-). unfold update_mapping, apply_mapping.
  destruct (ModbusPlan.extract cs cq raw m) as [| |slice].
  - by apply runs_ret.
  - by apply set_tag_quality_frame.
  - unfold DriverCommon.apply_byte_order. rewrite WordOrder.apply_to_bytes_spec, or_panic_bind.
    set (ordered := WordOrder.order_spec _ _).
    unfold ModbusDriver.runs. rewrite (bind_ret (gets registry) _ w (registry w) w) by done.
    rewrite TagRegistry.get_definition_view.
    destruct (TagRegistry.defs (registry w) !! ModbusMapping.tag_id m) as [d|] eqn:Hd.
    2: { cbn [is_err is_ok negb]. by apply set_tag_quality_frame. }
    cbn [is_err is_ok negb]. destruct (get_tag_ok w _ _ Hw Hd) as (t & Ht).
    rewrite Ht, or_panic_bind.
    destruct (ModbusCodec.decode_bytes_to_tagvalue _ _ _) as [v|e].
    2: { by apply set_tag_quality_frame. }
    destruct (now_frame U HU w Hw HUw) as (ts & w1 & H1 & F1 & S1).
    rewrite (bind_ret _ _ _ _ _ H1).
    destruct (update_tag_value_frame U HU (ModbusMapping.tag_id m) v TagQuality.Good ts w1)
      as (a & w2 & H2 & F2 & S2); [by eapply frame_inv|by eapply frame_U|].
    exists a, w2. split; [exact H2|]. split; [exact (frame_trans U _ _ _ _ _ F1 F2)|].
    by rewrite S2, S1, (frame_defs _ _ _ _ F1).
Qed.

Lemma update_members_runs ds cs cq raw ms w :
  ready ds w →
  runs (for_each (update_mapping cs cq raw) ms) []
    (λ s, foldl (λ s m, apply_mapping ds cs cq raw m s) s ms) w.
Proof.
  revert w. induction ms as [|m ms IH]; intros w Hw; [by apply runs_ret; apply Hw|].
  simpl for_each. eapply runs_seq; [by apply update_mapping_runs| |done|].
  - intros a w' F. apply IH. by eapply ready_frame.
  - done.
Qed.

(** A PLC that answers every read from its memory, as long as [U] holds. *)
Definition serves (mem : ModbusFunction → Z → Z) : Prop :=
  ∀ t ctx cs cq e, U e →
    (∃ ctx' e', read_holding_registers t ctx cs cq e =
       (Answer (mem ModbusFunction.HoldingRegisters <$> seqZ cs cq), ctx', e') ∧ U e') ∧
    (∃ ctx' e', read_input_registers t ctx cs cq e =
       (Answer (mem ModbusFunction.InputRegisters <$> seqZ cs cq), ctx', e') ∧ U e') ∧
    (∃ ctx' e', read_coils t ctx cs cq e =
       (Answer ((λ a, negb (mem ModbusFunction.Coils a =? 0)) <$> seqZ cs cq), ctx', e') ∧ U e') ∧
    (∃ ctx' e', read_discrete_inputs t ctx cs cq e =
       (Answer ((λ a, negb (mem ModbusFunction.DiscreteInputs a =? 0)) <$> seqZ cs cq), ctx', e')
     ∧ U e').

Section serving.
Context (mem : ModbusFunction → Z → Z) (Hserves : serves mem).

Lemma read_chunk_serves func ctx cs cq w :
  inv w → U (env w) →
  ∃ ctx' w', read_chunk config func ctx cs cq w =
      (Ret (Ok (chunk_bytes mem func cs cq), ctx'), w') ∧
    frame [EvRead func cs cq] w w' ∧ shown w' = shown w.
Proof.
  intros Hw HUw.
  destruct (Hserves (ModbusConfig.io_timeout_ms config) ctx cs cq (env w) HUw)
    as ((c1 & e1 & H1 & U1) & (c2 & e2 & H2 & U2) & (c3 & e3 & H3 & U3) & (c4 & e4 & H4 & U4)).
  unfold read_chunk, emit.
  rewrite (bind_ret (modify (add_event (EvRead func cs cq))) _ w tt
             (add_event (EvRead func cs cq) w)) by done.
  unfold env_op. simpl env.
  assert (∀ e', U e' → frame [EvRead func cs cq] w (set_env e' (add_event (EvRead func cs cq) w)))
    as Hframe by (intros; by constructor).
  unfold chunk_bytes.
  destruct func; rewrite ?H1, ?H2, ?H3, ?H4; do 2 eexists;
    (split; [reflexivity|]; split; [by apply Hframe|done]).
Qed.

Definition read_event (r : ModbusFunction * (Z * Z)) : event := EvRead r.1 r.2.1 r.2.2.

Lemma foldl_look ds func c ms s :
  foldl (apply_look mem ds) s (chunk_looks func ms c) =
  foldl (λ s m, apply_mapping ds c.1 c.2 (chunk_bytes mem func c.1 c.2) m s) s ms.
Proof.
  unfold chunk_looks. revert s. induction ms as [|m ms IH]; intros s; [done|]. simpl.
  rewrite IH. by destruct c.
Qed.

Lemma chunk_loop_runs ds fuel func ms ctx cs rem w :
  ready ds w → 0 ≤ cs → 0 ≤ rem → cs + rem ≤ 65535 → (Z.to_nat rem ≤ fuel)%nat →
  let chunks := ModbusPlan.chunks fuel cs rem (ModbusPlan.max_allowed func) in
  runs (chunk_loop config fuel func ms ctx cs rem)
    ((λ c, read_event (func, c)) <$> chunks)
    (λ s, foldl (apply_look mem ds) s (concat (chunk_looks func ms <$> chunks))) w.
Proof.
  pose proof (ModbusPlan.max_allowed_range func) as Hmax.
  revert ctx cs rem w. induction fuel as [|fuel IH]; intros ctx cs rem w Hw Hcs Hrem Hb Hf.
  { assert (rem = 0) as -> by lia. by apply runs_ret; apply Hw. }
  destruct (decide (rem = 0)) as [->|Hne].
  { rewrite ModbusPlan.chunks_done. by apply runs_ret; apply Hw. }
  cbv zeta. rewrite ModbusPlan.chunks_step by lia. cbn [chunk_loop].
  rewrite (proj2 (Z.ltb_lt _ _)) by lia.
  rewrite ModbusPlan.chunk_qty_min, ModbusPlan.advance_spec by lia.
  set (q := Z.min rem (ModbusPlan.max_allowed func)) in *.
  destruct (read_chunk_serves func ctx cs q w) as (ctx' & w1 & H1 & F1 & S1); [apply Hw..|].
  unfold ModbusDriver.runs. rewrite (bind_ret _ _ _ _ _ H1).
  destruct (update_members_runs ds cs q (chunk_bytes mem func cs q) ms w1)
    as (a & w2 & H2 & F2 & S2); [by eapply ready_frame|].
  rewrite (bind_ret _ _ _ _ _ H2).
  destruct (IH ctx' (cs + q) (rem - q) w2) as (b & w3 & H3 & F3 & S3); try lia.
  { eapply ready_frame; [done|]. by eapply ready_frame. }
  exists b, w3. split; [exact H3|]. split.
  - exact (frame_trans U _ _ _ _ _ F1 (frame_trans U _ _ _ _ _ F2 F3)).
  - simpl concat. rewrite foldl_app, foldl_look. simpl. by rewrite S3, S2, S1.
Qed.

Lemma read_group_runs ds func g ctx w :
  ready ds w → 0 ≤ ModbusPlan.start g → 0 ≤ ModbusPlan.qty g →
  ModbusPlan.start g + ModbusPlan.qty g ≤ 65535 →
  runs (read_group config func ctx g) (read_event <$> group_requests func g)
    (λ s, foldl (apply_look mem ds) s (group_looks func g)) w.
Proof.
  intros Hw H1 H2 H3. unfold group_requests. rewrite <- list_fmap_compose.
  by apply chunk_loop_runs.
Qed.

(** The groups the plan can handle, those validation guarantees. *)
Definition group_ok (g : ModbusPlan.Group) : Prop :=
  0 ≤ ModbusPlan.start g ∧ 1 ≤ ModbusPlan.qty g ∧
  ModbusPlan.start g + ModbusPlan.qty g ≤ 65535.

Lemma read_groups_runs ds func gs ctx w :
  ready ds w → Forall group_ok gs →
  runs (read_groups config func ctx gs) (read_event <$> concat (group_requests func <$> gs))
    (λ s, foldl (apply_look mem ds) s (concat (group_looks func <$> gs))) w.
Proof.
  intros Hw Hg. revert ctx w Hw. induction Hg as [|g gs Hg Hgs IH]; intros ctx w Hw.
  { by apply runs_ret; apply Hw. }
  destruct Hg as (? & ? & ?). simpl.
  eapply runs_seq; [apply read_group_runs; try done; lia| |by rewrite fmap_app|].
  - intros ctx' w' F. apply IH. by eapply ready_frame.
  - by rewrite foldl_app.
Qed.

Lemma read_functions_runs ds fs ctx w :
  ready ds w → Forall (λ fm, Forall group_ok (function_groups fm.2)) fs →
  runs (read_functions config ctx fs)
    (read_event <$> concat ((λ fm, concat (group_requests fm.1 <$> function_groups fm.2)) <$> fs))
    (λ s, foldl (apply_look mem ds) s (concat (function_looks <$> fs))) w.
Proof.
  intros Hw Hf. revert ctx w Hw. induction Hf as [|[func maps] fs Hf Hfs IH]; intros ctx w Hw.
  { by apply runs_ret; apply Hw. }
  simpl. eapply runs_seq; [by apply read_groups_runs| |by rewrite fmap_app|].
  - intros ctx' w' F. apply IH. by eapply ready_frame.
  - by rewrite foldl_app.
Qed.
End serving.
End refine.

(** ** What the specification leaves in a tag *)

Section tags.
Context {C : Chrono} {B : ByteOrder} {J : SerdeJson} `{!HashIter ModbusFunction}.
Context (mem : ModbusFunction → Z → Z) (ds : gmap string TagDefinition).
Notation shown_map := (gmap string (TagValue * TagQuality)).

Lemma modbus_mark_lookup id q id' (s : shown_map) :
  mark id q s !! id' = if decide (id = id') then (λ p, (p.1, q)) <$> s !! id else s !! id'.
Proof. unfold mark. by rewrite lookup_alter. Qed.

Lemma modbus_put_lookup_ne id v q id' (s : shown_map) : id ≠ id' → put ds id v q s !! id' = s !! id'.
Proof. intros. unfold put. repeat case_match; try done. by rewrite lookup_alter_ne. Qed.

(** A look changes no other tag, and no look makes a tag appear or disappear. *)
Lemma apply_look_other s (l : look) id :
  ModbusMapping.tag_id l.2 ≠ id → apply_look mem ds s l !! id = s !! id.
Proof.
  destruct l as [[func [cs cq]] m]. simpl. intros Hne. unfold apply_mapping.
  repeat case_match; rewrite ?modbus_put_lookup_ne, ?modbus_mark_lookup, ?decide_False by done; done.
Qed.

Lemma apply_look_dom s l id : is_Some (apply_look mem ds s l !! id) ↔ is_Some (s !! id).
Proof.
  destruct l as [[func [cs cq]] m]. simpl. unfold apply_mapping, put, mark.
  repeat case_match; rewrite ?lookup_alter_is_Some; done.
Qed.

(** The tag of a mapping is what the one look at it that is not idle makes of it. *)
Lemma foldl_look_one looks (s : shown_map) (l : look) (F : option (TagValue * TagQuality) → option (TagValue * TagQuality)) :
  let id := ModbusMapping.tag_id l.2 in
  l ∈ looks → is_Some (s !! id) → (∀ p, F (F p) = F p) →
  (∀ l', l' ∈ looks → ModbusMapping.tag_id l'.2 = id → l' = l ∨ ∀ s, apply_look mem ds s l' = s) →
  (∀ s, is_Some (s !! id) → apply_look mem ds s l !! id = F (s !! id)) →
  foldl (apply_look mem ds) s looks !! id = F (s !! id).
Proof.
  intros id Hin Hs HF Honly Hl.
  assert (∀ ls, is_Some (foldl (apply_look mem ds) s ls !! id)) as Hsome.
  { intros ls. induction ls as [|x ls IHl] using rev_ind; [done|].
    rewrite foldl_app. simpl. by rewrite apply_look_dom. }
  enough ((foldl (apply_look mem ds) s looks !! id = s !! id ∨
           foldl (apply_look mem ds) s looks !! id = F (s !! id)) ∧
          (l ∈ looks → foldl (apply_look mem ds) s looks !! id = F (s !! id))) as [_ H] by auto.
  clear Hin. induction looks as [|x looks IH] using rev_ind.
  { split; [by left|]. by intros ?%not_elem_of_nil. }
  destruct IH as [Hor Hlast]; [intros l' Hl'; apply Honly, elem_of_app; by left|].
  specialize (Hl (foldl (apply_look mem ds) s looks) (Hsome looks)).
  assert (F (foldl (apply_look mem ds) s looks !! id) = F (s !! id)) as HFs
    by (destruct Hor as [-> | ->]; [done|apply HF]).
  rewrite foldl_app. simpl.
  destruct (decide (ModbusMapping.tag_id x.2 = id)) as [Heq|Hne].
  - destruct (Honly x) as [->|Hidle]; [apply elem_of_app; right; by left|done|rewrite Hl, HFs; auto|].
    rewrite Hidle. split; [done|]. intros [Hin|Hin]%elem_of_app; [auto|].
    apply list_elem_of_singleton in Hin as ->. by rewrite <- HFs, <- Hl, Hidle.
  - rewrite apply_look_other by done. split; [done|].
    intros [Hin|Hin]%elem_of_app; [auto|]. apply list_elem_of_singleton in Hin as ->. done.
Qed.

Lemma elem_of_read_requests ms func c :
  (func, c) ∈ read_requests ms ↔
  ∃ maps g, (func, maps) ∈ hash_iter (ModbusPlan.by_func ms) ∧ g ∈ function_groups maps ∧
    c ∈ group_chunks func g.
Proof.
  unfold read_requests. rewrite elem_of_concat. split.
  - intros (l1 & H1 & ([f maps] & -> & Hfm)%list_elem_of_fmap).
    apply elem_of_concat in H1 as (l2 & H2 & (g & -> & Hg)%list_elem_of_fmap).
    apply list_elem_of_fmap in H2 as (c' & Heq & Hc). simplify_eq/=. by exists maps, g.
  - intros (maps & g & Hf & Hg & Hc). eexists. split; [|by apply list_elem_of_fmap_2].
    apply elem_of_concat. eexists. split; [|by apply list_elem_of_fmap_2].
    by apply list_elem_of_fmap_2.
Qed.

Lemma elem_of_read_looks ms func c m :
  (func, c, m) ∈ read_looks ms ↔
  ∃ maps g, (func, maps) ∈ hash_iter (ModbusPlan.by_func ms) ∧ g ∈ function_groups maps ∧
    c ∈ group_chunks func g ∧ m ∈ ModbusPlan.members g.
Proof.
  unfold read_looks, function_looks, group_looks, chunk_looks. rewrite elem_of_concat. split.
  - intros (l1 & H1 & ([f maps] & -> & Hf)%list_elem_of_fmap).
    apply elem_of_concat in H1 as (l2 & H2 & (g & -> & Hg)%list_elem_of_fmap).
    apply elem_of_concat in H2 as (l3 & H3 & (c' & -> & Hc)%list_elem_of_fmap).
    apply list_elem_of_fmap in H3 as (m' & Heq & Hm). simplify_eq/=. eauto 6.
  - intros (maps & g & Hf & Hg & Hc & Hm). eexists. split; [|by apply list_elem_of_fmap_2].
    apply elem_of_concat. eexists. split; [|by apply list_elem_of_fmap_2].
    apply elem_of_concat. eexists. split; [|by apply list_elem_of_fmap_2].
    by apply list_elem_of_fmap_2.
Qed.

(** The groups of a valid function: their members are its mappings, inside the range of
    the group, and a mapping belongs to one group only. *)
Lemma function_groups_spec ms func maps :
  Forall ModbusPlan.fits ms → ModbusPlan.validate ms = Ok tt →
  (func, maps) ∈ hash_iter (ModbusPlan.by_func ms) →
  maps = filter (λ m, ModbusMapping.function m = func) ms ∧
  Forall group_ok (function_groups maps) ∧
  (∀ m, m ∈ maps ↔ ∃ g, g ∈ function_groups maps ∧ m ∈ ModbusPlan.members g) ∧
  (∀ g m, g ∈ function_groups maps → m ∈ ModbusPlan.members g →
     ModbusPlan.start g ≤ ModbusMapping.address m ∧
     ModbusMapping.address m + ModbusMapping.quantity m ≤ ModbusPlan.start g + ModbusPlan.qty g) ∧
  (∀ g g' m, g ∈ function_groups maps → g' ∈ function_groups maps →
     m ∈ ModbusPlan.members g → m ∈ ModbusPlan.members g' → g = g').
Proof.
  intros Hf Hv Hin.
  destruct (ModbusPlan.validated_groups ms func maps Hf Hv Hin) as [Hmaps Hgr].
  fold (function_groups maps) in Hgr.
  assert (Forall ModbusPlan.fits (sort_by_key ModbusMapping.address maps)) as Hfits.
  { rewrite sort_by_key_perm, Hmaps. apply Forall_forall. intros m [_ Hm]%list_elem_of_filter.
    by eapply Forall_forall in Hf. }
  split; [done|]. split; [|split; [|split]].
  - eapply Forall_impl; [exact (Ranges.grouped_tiles _ _ _ _ _ _ _ _ Hgr)|].
    intros g (_ & ? & ? & ? & _). unfold group_ok. lia.
  - intros m. rewrite <- (sort_by_key_perm ModbusMapping.address maps).
    by apply (Ranges.grouped_elem _ _ _ _ _ _ _ _ _ Hgr).
  - intros g m. by apply (Ranges.grouped_range _ _ _ _ _ _ _ _ _ _ Hgr).
  - intros g g' m. by apply (Ranges.grouped_unique _ _ _ _ _ _ _ _ _ _ _ Hgr).
Qed.

Lemma tag_ids_unique ms m m' :
  NoDup (ModbusMapping.tag_id <$> ms) → m ∈ ms → m' ∈ ms →
  ModbusMapping.tag_id m = ModbusMapping.tag_id m' → m = m'.
Proof.
  intros Hnd [i Hi]%list_elem_of_lookup [j Hj]%list_elem_of_lookup Heq.
  assert (i = j) as ->; [|congruence].
  apply (NoDup_lookup _ _ _ (ModbusMapping.tag_id m) Hnd); rewrite list_lookup_fmap.
  - by rewrite Hi.
  - rewrite Hj. simpl. congruence.
Qed.

(** The chunks of a group: within the limit and the group, in order and disjoint. *)
Lemma group_chunks_spec func g :
  group_ok g →
  Ranges.chain (ModbusPlan.start g) (group_chunks func g) (ModbusPlan.start g + ModbusPlan.qty g) ∧
  Forall (λ c, 1 ≤ c.2 ≤ ModbusPlan.max_allowed func ∧ ModbusPlan.start g ≤ c.1 ∧
               c.1 + c.2 ≤ ModbusPlan.start g + ModbusPlan.qty g) (group_chunks func g) ∧
  StronglySorted (λ c d, c.1 + c.2 ≤ d.1) (group_chunks func g).
Proof.
  intros (? & ? & ?). pose proof (ModbusPlan.max_allowed_range func).
  destruct (ModbusPlan.chunks_spec (Z.to_nat (ModbusPlan.qty g)) (ModbusPlan.start g)
    (ModbusPlan.qty g) (ModbusPlan.max_allowed func)) as (Hc & Hall & _); try lia.
  split; [exact Hc|]. split; [exact Hall|].
  eapply Ranges.chain_sorted; [exact Hc|]. eapply Forall_impl; [exact Hall|]. simpl. intros c. lia.
Qed.

(** A chunk that does not meet a mapping is not looked at. *)
Lemma chunk_outside cs cq raw m :
  0 ≤ cs → 1 ≤ cq → cs + cq ≤ 65535 → ModbusPlan.fits m →
  ModbusMapping.address m + ModbusMapping.quantity m ≤ cs ∨ cs + cq ≤ ModbusMapping.address m →
  ModbusPlan.extract cs cq raw m = ModbusPlan.Outside.
Proof.
  intros Hcs Hcq Hb (Ha & Hq & Hf) Hout. unfold ModbusPlan.extract, u32_sub, u32_add.
  assert (∀ z, 0 ≤ z ≤ 65536 → as_u32 z = z) as Hid
    by (intros; apply as_u32_id; int_ranges; lia).
  rewrite (Hid (cs + cq)), (Hid (cs + cq - 1)), (Hid (ModbusMapping.address m + _)) by lia.
  rewrite (Hid (ModbusMapping.address m + _ - 1)) by lia. cbv zeta. destruct Hout.
  - by rewrite (proj2 (Z.ltb_lt _ cs)) by lia.
  - rewrite (proj2 (Z.ltb_lt (cs + cq - 1) _)) by lia. by rewrite orb_true_r.
Qed.

(** The looks of a mapping of a valid configuration all of whose addresses are in one
    request: the one in that request, and idle ones. *)
Lemma read_looks_of ms m cs cq :
  Forall ModbusPlan.fits ms → ModbusPlan.validate ms = Ok tt →
  NoDup (ModbusMapping.tag_id <$> ms) → m ∈ ms →
  (ModbusMapping.function m, (cs, cq)) ∈ read_requests ms →
  cs ≤ ModbusMapping.address m →
  ModbusMapping.address m + ModbusMapping.quantity m ≤ cs + cq →
  0 ≤ cs ∧ 1 ≤ cq ∧ cs + cq ≤ 65535 ∧
  let l : look := (ModbusMapping.function m, (cs, cq), m) in
  l ∈ read_looks ms ∧
  ∀ l', l' ∈ read_looks ms → ModbusMapping.tag_id l'.2 = ModbusMapping.tag_id m →
    l' = l ∨ ∀ s, apply_look mem ds s l' = s.
Proof.
  intros Hf Hv Hnd Hm Hreq Hlo Hhi.
  apply elem_of_read_requests in Hreq as (maps & g & Hin & Hg & Hc).
  assert (∀ maps', (ModbusMapping.function m, maps') ∈ hash_iter (ModbusPlan.by_func ms) →
    maps' = maps) as Hsame.
  { intros maps' [-> _]%hash_iter_group_by. by apply hash_iter_group_by in Hin as [-> _]. }
  destruct (function_groups_spec ms _ maps Hf Hv Hin) as (Hmaps & Hok & Helem & Hrange & Huniq).
  pose proof (proj1 (Forall_forall _ _) Hok g Hg) as Hgok.
  destruct (group_chunks_spec (ModbusMapping.function m) g Hgok) as (_ & Hall & Hsorted).
  destruct (proj1 (Forall_forall _ _) Hall _ Hc) as (Hcq & Hcs & Hce). simpl in Hcq, Hcs, Hce.
  destruct Hgok as (Hg0 & Hg1 & Hg2).
  assert (ModbusPlan.fits m) as Hfit by (by eapply Forall_forall in Hf).
  pose proof Hfit as (_ & Hlen & _).
  assert (m ∈ ModbusPlan.members g) as Hmg.
  { assert (m ∈ maps) as Hmm by (rewrite Hmaps; by apply list_elem_of_filter).
    apply Helem in Hmm as (g' & Hg' & Hmg'). destruct (Hrange g' m Hg' Hmg') as [Hr1 Hr2].
    destruct (ModbusPlan.validated_groups ms _ maps Hf Hv Hin) as [_ [_ _ Hgaps]].
    fold (function_groups maps) in Hgaps.
    apply list_elem_of_lookup in Hg as [i Hi]. apply list_elem_of_lookup in Hg' as [j Hj].
    destruct (lt_eq_lt_dec i j) as [[Hij|Hij]|Hij]; [|congruence|].
    - pose proof (StronglySorted_lookup _ _ _ _ _ _ Hgaps Hi Hj Hij) as Hlt. simpl in Hlt. lia.
    - pose proof (StronglySorted_lookup _ _ _ _ _ _ Hgaps Hj Hi Hij) as Hlt. simpl in Hlt. lia. }
  split; [lia|]. split; [lia|]. split; [lia|]. split.
  { apply elem_of_read_looks. by exists maps, g. }
  intros [[f' [cs' cq']] m'] (maps' & g' & Hin' & Hg' & Hc' & Hm')%elem_of_read_looks Hid. simpl in Hid.
  destruct (function_groups_spec ms _ maps' Hf Hv Hin') as (Hmaps' & _ & Helem' & _).
  assert (m' ∈ maps') as Hm1 by (apply Helem'; eauto).
  rewrite Hmaps' in Hm1. apply list_elem_of_filter in Hm1 as [Hf' Hm1].
  assert (m' = m) as -> by by eapply tag_ids_unique. subst f'.
  rewrite (Hsame maps' Hin') in Hg'.
  assert (g' = g) as -> by by eapply Huniq.
  destruct (decide ((cs', cq') = (cs, cq))) as [[= -> ->]|Hne]; [by left|]. right. intros s.
  destruct (proj1 (Forall_forall _ _) Hall _ Hc') as (Hcq' & Hcs' & Hce'). simpl in Hcq', Hcs', Hce'.
  simpl. unfold apply_mapping. rewrite chunk_outside; [done|lia..|done|].
  apply list_elem_of_lookup in Hc as [i Hi]. apply list_elem_of_lookup in Hc' as [j Hj].
  destruct (lt_eq_lt_dec i j) as [[Hij|Hij]|Hij]; [|congruence|].
  - pose proof (StronglySorted_lookup _ _ _ _ _ _ Hsorted Hi Hj Hij) as Hlt. simpl in Hlt. lia.
  - pose proof (StronglySorted_lookup _ _ _ _ _ _ Hsorted Hj Hi Hij) as Hlt. simpl in Hlt. lia.
Qed.

(** The requests: within the limit, on mapped addresses, all of them, none twice. *)
Lemma read_requests_spec ms func cs cq :
  Forall ModbusPlan.fits ms → ModbusPlan.validate ms = Ok tt →
  (func, (cs, cq)) ∈ read_requests ms →
  1 ≤ cq ≤ ModbusPlan.max_allowed func ∧
  ∀ a, cs ≤ a < cs + cq →
    ∃ m, m ∈ ms ∧ ModbusMapping.function m = func ∧ ModbusPlan.occupies m a.
Proof.
  intros Hf Hv (maps & g & Hfm & Hg & Hc)%elem_of_read_requests.
  destruct (function_groups_spec ms _ maps Hf Hv Hfm) as (Hmaps & Hok & Helem & _ & _).
  pose proof (proj1 (Forall_forall _ _) Hok g Hg) as Hgok.
  destruct (group_chunks_spec func g Hgok) as (_ & Hall & _).
  destruct (proj1 (Forall_forall _ _) Hall _ Hc) as (Hcq & Hcs & Hce). simpl in *.
  split; [done|]. intros a Ha.
  destruct (ModbusPlan.validated_groups ms func maps Hf Hv Hfm) as [_ [_ Ht _]].
  destruct (proj1 (Forall_forall _ _) Ht g Hg) as (_ & _ & _ & _ & Htl).
  destruct (Ranges.tiles_cover _ _ _ _ _ a Htl) as (m & Hm & Ho); [lia|].
  exists m. assert (m ∈ maps) as Hmm by (apply Helem; eauto).
  rewrite Hmaps in Hmm. by apply list_elem_of_filter in Hmm as [? ?].
Qed.

Lemma read_requests_cover ms m a :
  Forall ModbusPlan.fits ms → ModbusPlan.validate ms = Ok tt →
  m ∈ ms → ModbusPlan.occupies m a →
  ∃ cs cq, (ModbusMapping.function m, (cs, cq)) ∈ read_requests ms ∧ cs ≤ a < cs + cq.
Proof.
  intros Hf Hv Hm Ho.
  set (maps := filter (λ m', ModbusMapping.function m' = ModbusMapping.function m) ms).
  assert (m ∈ maps) as Hmm by (by apply list_elem_of_filter).
  assert ((ModbusMapping.function m, maps) ∈ hash_iter (ModbusPlan.by_func ms)) as Hin.
  { apply hash_iter_group_by. split; [done|]. intros Hnil. fold maps in Hnil.
    rewrite Hnil in Hmm. by apply not_elem_of_nil in Hmm. }
  destruct (function_groups_spec ms _ maps Hf Hv Hin) as (_ & Hok & Helem & Hrange & _).
  apply Helem in Hmm as (g & Hg & Hmg). destruct (Hrange g m Hg Hmg) as [Hr1 Hr2].
  destruct (group_chunks_spec (ModbusMapping.function m) g) as (Hchain & _);
    [by apply (proj1 (Forall_forall _ _) Hok)|].
  destruct (Ranges.chain_cover _ _ _ a Hchain) as ([cs cq] & Hc & Ha).
  { unfold Ranges.occupies in Ho. lia. }
  exists cs, cq. split; [|done]. apply elem_of_read_requests. by exists maps, g.
Qed.

Lemma read_requests_sorted ms :
  Forall ModbusPlan.fits ms → ModbusPlan.validate ms = Ok tt →
  StronglySorted (λ r r', r.1 = r'.1 → r.2.1 + r.2.2 ≤ r'.2.1) (read_requests ms).
Proof.
  intros Hf Hv. unfold read_requests.
  eapply (Ranges.StronglySorted_concat_fmap (λ fm fm', fm.1 ≠ fm'.1)).
  - pose proof (hash_iter_NoDup ModbusMapping.function ms) as Hnd.
    induction (hash_iter _) as [|fm l IH]; [constructor|]. csimpl in Hnd.
    apply NoDup_cons in Hnd as [Hn Hnd]. constructor; [by apply IH|].
    apply Forall_forall. intros fm' Hfm' Heq. apply Hn. rewrite Heq. by apply list_elem_of_fmap_2.
  - intros [func maps] Hin. simpl.
    destruct (function_groups_spec ms _ maps Hf Hv Hin) as (_ & Hok & _).
    rewrite Forall_forall in Hok.
    destruct (ModbusPlan.validated_groups ms func maps Hf Hv Hin) as [_ [_ _ Hgaps]].
    fold (function_groups maps) in Hgaps.
    eapply Ranges.StronglySorted_concat_fmap; [exact Hgaps|..].
    + intros g Hg. destruct (group_chunks_spec func g (Hok g Hg)) as (_ & _ & Hs).
      unfold group_requests. induction Hs as [|c cs Hs IH Hc]; simpl; constructor; [done|].
      apply Forall_fmap. eapply Forall_impl; [exact Hc|]. simpl. intros d Hd _. exact Hd.
    + intros g g' r r' Hg Hg' Hgap (c & -> & Hc)%list_elem_of_fmap (c' & -> & Hc')%list_elem_of_fmap _.
      destruct (group_chunks_spec func g (Hok g Hg)) as (_ & Ha & _).
      destruct (group_chunks_spec func g' (Hok g' Hg')) as (_ & Ha' & _).
      rewrite Forall_forall in Ha, Ha'. specialize (Ha c Hc). specialize (Ha' c' Hc'). simpl in *. lia.
  - intros [func maps] [func' maps'] r r' _ _ Hne Hr Hr' Heq. exfalso. apply Hne. simpl in *.
    apply elem_of_concat in Hr as (? & Hr & (g & -> & _)%list_elem_of_fmap).
    apply elem_of_concat in Hr' as (? & Hr' & (g' & -> & _)%list_elem_of_fmap).
    apply list_elem_of_fmap in Hr as (c & -> & _). apply list_elem_of_fmap in Hr' as (c' & -> & _).
    exact Heq.
Qed.

(** Looking at a register mapping in a request that covers it shows what its registers
    decode to. *)
Lemma apply_look_registers s func cs cq m d v :
  func = ModbusFunction.HoldingRegisters ∨ func = ModbusFunction.InputRegisters →
  0 ≤ cs → 1 ≤ cq → cs + cq ≤ 65536 → ModbusPlan.fits m →
  cs ≤ ModbusMapping.address m →
  ModbusMapping.address m + ModbusMapping.quantity m ≤ cs + cq →
  ds !! ModbusMapping.tag_id m = Some d → TagValue.data_type v = TagDefinition.data_type d →
  ModbusCodec.decode_slice (ModbusMapping.data_type m) (ModbusMapping.byte_order m)
    (ModbusMapping.bit_offset m)
    (ModbusCodec.registers_to_bytes
       (mem func <$> seqZ (ModbusMapping.address m) (ModbusMapping.quantity m))) = Some (Ok v) →
  is_Some (s !! ModbusMapping.tag_id m) →
  apply_look mem ds s (func, (cs, cq), m) !! ModbusMapping.tag_id m = Some (v, TagQuality.Good).
Proof.
  intros Hfunc Hcs Hcq Hb Hfit Hlo Hhi Hd Hty Hdec [p Hs].
  assert (chunk_bytes mem func cs cq = ModbusCodec.registers_to_bytes (mem func <$> seqZ cs cq))
    as Hbytes by (by destruct Hfunc as [->| ->]).
  unfold apply_look, apply_mapping. rewrite Hbytes.
  rewrite ModbusPlan.extract_spec; try done; [|by rewrite length_fmap, length_seqZ].
  cbv zeta. rewrite Z.max_l, Z.min_l by lia.
  destruct Hfit as (? & ? & ?). rewrite (proj2 (Z.leb_gt _ _)) by lia.
  replace (ModbusMapping.address m + ModbusMapping.quantity m - ModbusMapping.address m)
    with (ModbusMapping.quantity m) by lia.
  rewrite take_drop_seqZ, Hd by lia.
  unfold ModbusCodec.decode_slice, DriverCommon.apply_byte_order in Hdec.
  rewrite WordOrder.apply_to_bytes_spec in Hdec. cbn [mbind option_bind] in Hdec.
  injection Hdec as ->. unfold put. rewrite Hd. unfold TagValue.matches.
  rewrite bool_decide_true by done. by rewrite lookup_alter_eq, Hs.
Qed.

(** Coils come packed, sixteen to a word. *)
Lemma pack_from_lookup fuel bits i k :
  (length bits ≤ i + 16 * fuel)%nat → (i + 16 * k < length bits)%nat →
  ModbusPlan.pack_from fuel bits i !! k = Some (ModbusPlan.pack_word bits (i + 16 * k)).
Proof.
  revert i k. induction fuel as [|fuel IH]; intros i k Hf Hk; [lia|]. cbn [ModbusPlan.pack_from].
  rewrite (proj2 (Nat.ltb_lt _ _)) by lia. destruct k as [|k]; [by rewrite Nat.mul_0_r, Nat.add_0_r|].
  simpl lookup. rewrite IH by lia. do 2 f_equal. lia.
Qed.

(** The word that packed bits form. *)
Lemma pack_word_u16 bits i : is_u16 (ModbusPlan.pack_word bits i).
Proof.
  unfold ModbusPlan.pack_word.
  enough (∀ n, 0 ≤ foldl (λ w bit, if default false (bits !! (i + bit)%nat)
    then Z.lor w (Z.shiftl 1 (Z.of_nat bit)) else w) 0 (seq 0 n) < 2 ^ Z.of_nat n) as H
    by exact (H 16%nat).
  induction n as [|n IH]; [done|]. rewrite seq_S, foldl_app.
  set (acc := foldl _ 0 (seq 0 n)) in *. cbn [foldl Nat.add].
  rewrite Nat2Z.inj_succ, Z.pow_succ_r by lia.
  destruct (default false (bits !! (i + n)%nat)); [|lia].
  rewrite Z.lor_comm, lor_shiftl by lia. lia.
Qed.

(** A single coil, by its position in the request, takes the word at that position. *)
Lemma word_extract m cs cq ws :
  0 ≤ cs → 1 ≤ cq → cs + cq ≤ 65535 → cs ≤ ModbusMapping.address m < cs + cq →
  ModbusMapping.quantity m = 1 →
  ModbusPlan.extract cs cq (ModbusCodec.registers_to_bytes ws) m =
    match ws !! Z.to_nat (ModbusMapping.address m - cs) with
    | Some w => ModbusPlan.Slice (ModbusCodec.registers_to_bytes [w])
    | None => ModbusPlan.Short
    end.
Proof.
  intros Hcs Hcq Hb Ha Hq. unfold ModbusPlan.extract, u32_sub, u32_add. rewrite Hq.
  assert (∀ z, 0 ≤ z ≤ 65536 → as_u32 z = z) as Hid
    by (intros; apply as_u32_id; int_ranges; lia).
  rewrite (Hid (cs + cq)), (Hid (cs + cq - 1)), (Hid (ModbusMapping.address m + 1)) by lia.
  rewrite (Hid (ModbusMapping.address m + 1 - 1)) by lia. cbv zeta.
  rewrite (proj2 (Z.ltb_ge _ cs)), (proj2 (Z.ltb_ge _ (ModbusMapping.address m))) by lia.
  cbn [orb]. rewrite Z.max_l, Z.min_l by lia.
  set (k := Z.to_nat (ModbusMapping.address m - cs)).
  replace (Z.to_nat ((ModbusMapping.address m - cs) * 2)) with (2 * k)%nat by lia.
  replace (Z.to_nat ((ModbusMapping.address m + 1 - 1 - ModbusMapping.address m + 1) * 2))
    with (2 * 1)%nat by lia.
  rewrite ModbusCodec.registers_to_bytes_length.
  destruct (ws !! k) as [w|] eqn:Hk.
  - pose proof (lookup_lt_Some _ _ _ Hk). rewrite (proj2 (Nat.ltb_ge _ _)) by lia.
    rewrite ModbusPlan.registers_to_bytes_drop, ModbusPlan.registers_to_bytes_take.
    by rewrite (drop_S _ _ _ Hk).
  - pose proof (lookup_ge_None_1 _ _ Hk). by rewrite (proj2 (Nat.ltb_lt _ _)) by lia.
Qed.

(** So the coil at position [k] shows the state of the coil [16 * k] after the start of
    the request, or is marked when the request ends before that one. *)
Definition coil_shown_as (func : ModbusFunction) (cs cq k : Z) (p : option (TagValue * TagQuality))
    : option (TagValue * TagQuality) :=
  if cs + 16 * k <? cs + cq
  then (λ _, (TagValue.Bool (negb (mem func (cs + 16 * k) =? 0)), TagQuality.Good)) <$> p
  else (λ q, (q.1, TagQuality.ConfigError)) <$> p.

Lemma apply_look_coil s func cs cq m d :
  func = ModbusFunction.Coils ∨ func = ModbusFunction.DiscreteInputs →
  0 ≤ cs → 1 ≤ cq → cs + cq ≤ 65535 →
  cs ≤ ModbusMapping.address m < cs + cq → ModbusMapping.quantity m = 1 →
  ModbusMapping.bit_offset m = 0 → ModbusMapping.byte_order m = WordOrder.ABCD →
  ModbusMapping.data_type m = TagDataType.Bool →
  ds !! ModbusMapping.tag_id m = Some d → TagDefinition.data_type d = TagDataType.Bool →
  apply_look mem ds s (func, (cs, cq), m) !! ModbusMapping.tag_id m =
    coil_shown_as func cs cq (ModbusMapping.address m - cs) (s !! ModbusMapping.tag_id m).
Proof.
  intros Hfunc Hcs Hcq Hb Ha Hq Hbit Hord Hty Hd Hdty.
  set (bits := (λ a, negb (mem func a =? 0)) <$> seqZ cs cq).
  assert (chunk_bytes mem func cs cq = ModbusCodec.registers_to_bytes (ModbusPlan.pack_bits bits))
    as Hbytes by (by destruct Hfunc as [->| ->]).
  assert (length bits = Z.to_nat cq) as Hlen by (unfold bits; by rewrite length_fmap, length_seqZ).
  unfold apply_look, apply_mapping, coil_shown_as. rewrite Hbytes, word_extract by done.
  set (k := ModbusMapping.address m - cs). destruct (Z.ltb_spec (cs + 16 * k) (cs + cq)).
  - unfold ModbusPlan.pack_bits. rewrite pack_from_lookup by lia.
    rewrite Nat.add_0_l, Hd, Hord, Hty, Hbit. cbn [WordOrder.order_spec].
    rewrite ModbusCodec.decode_bool by (try apply pack_word_u16; lia).
    unfold put. rewrite Hd. unfold TagValue.matches. cbn [TagValue.data_type].
    rewrite bool_decide_true by done. rewrite lookup_alter_eq.
    change 0 with (Z.of_nat 0) at 1. rewrite ModbusPlan.pack_word_testbit by lia.
    unfold bits. rewrite list_lookup_fmap, lookup_seqZ_lt by lia.
    replace (cs + Z.of_nat (16 * Z.to_nat k + 0)%nat) with (cs + 16 * k) by lia. done.
  - rewrite lookup_ge_None_2, modbus_mark_lookup, decide_True; [done|done|].
    rewrite ModbusPlan.pack_bits_length.
    enough ((length bits + 15) / 16 < S (Z.to_nat k))%nat by lia.
    apply Nat.Div0.div_lt_upper_bound. lia.
Qed.
End tags.

(** ** A whole cycle against a reachable PLC *)

Section cycle.
Context {C : Chrono} {B : ByteOrder} {J : SerdeJson} {IO : ModbusIO}.
Context `{!HashIter ModbusFunction} (config : ModbusConfig SocketAddr).

(** [U] describes environments whose PLC accepts connections and answers reads from
    [mem], and whose write queue is empty. *)
Record reachable (U : Env → Prop) (mem : ModbusFunction → Z → Z) : Prop := {
  up_now : ∀ e, U e → U (utc_now e).2;
  up_serves : serves U mem;
  up_connect : ∀ e, U e →
    ∃ ctx e', tcp_connect (ModbusConfig.endpoint config) e = (Ok ctx, e') ∧ U e';
  up_idle : ∀ e, U e →
    ∃ r e', try_recv e = (r, e') ∧ (r = Empty ∨ r = Disconnected) ∧ U e';
}.

Context (U : Env → Prop) (mem : ModbusFunction → Z → Z) (Hup : reachable U mem).

(** The connection a cycle opens when it has none. *)
Definition connect_events (w : World) : list event :=
  match client w with Some _ => [] | None => [EvConnect true] end.

Lemma obtain_context_up fuel w :
  inv w → U (env w) → (1 ≤ fuel)%nat →
  ∃ ctx w', obtain_context config fuel w = (Ret ctx, w') ∧ inv w' ∧ U (env w') ∧
    TagRegistry.defs (registry w') = TagRegistry.defs (registry w) ∧
    client w' = None ∧ log w' = log w ++ connect_events w ∧ shown w' = shown w.
Proof.
  intros Hw HUw Hf. destruct fuel as [|fuel]; [lia|].
  destruct (up_connect _ _ Hup _ HUw) as (ctx & e' & Hc & HU').
  unfold obtain_context, connect_events, connect_with_backoff.
  destruct (client w) as [c|] eqn:Hcl.
  - exists c, (set_client None w).
    unfold mbind, M_bind, gets, modify, mret, M_ret. simpl. rewrite Hcl. simpl. rewrite Hcl.
    split; [done|]. by rewrite app_nil_r.
  - eexists _, _. split.
    { unfold mbind, M_bind, gets, modify, mret, M_ret. simpl. rewrite Hcl. simpl.
      unfold env_op, mbind, M_bind. rewrite Hc. simpl. reflexivity. }
    done.
Qed.

Lemma process_writes_idle fuel w :
  inv w → U (env w) →
  ∃ e, process_writes config fuel 64 w = (Ret tt, set_env e w) ∧ U e.
Proof.
  intros Hw HUw. destruct (up_idle _ _ Hup _ HUw) as (r & e & Hr & Hor & HU').
  exists e. split; [|done]. cbn [process_writes]. unfold env_op, mbind, M_bind. rewrite Hr.
  by destruct Hor as [->| ->].
Qed.

Lemma valid_groups_ok ms :
  Forall ModbusPlan.fits ms → ModbusPlan.validate ms = Ok tt →
  Forall (λ fm, Forall group_ok (function_groups fm.2)) (hash_iter (ModbusPlan.by_func ms)).
Proof.
  intros Hf Hv. apply Forall_forall. intros [func maps] Hin.
  by destruct (function_groups_spec ms func maps Hf Hv Hin) as (_ & ? & _).
Qed.

Lemma cycle_up fuel w :
  let ms := ModbusConfig.mappings config in
  Forall ModbusPlan.fits ms → ModbusPlan.validate ms = Ok tt →
  inv w → U (env w) → (1 ≤ fuel)%nat →
  ∃ w', run_read_cycle_impl config fuel w = (Ret tt, w') ∧ inv w' ∧
    (∃ ctx, client w' = Some ctx) ∧
    TagRegistry.defs (registry w') = TagRegistry.defs (registry w) ∧
    log w' = log w ++ connect_events w ++ (read_event <$> read_requests ms) ∧
    shown w' = foldl (apply_look mem (TagRegistry.defs (registry w))) (shown w) (read_looks ms).
Proof.
  intros ms Hf Hv Hw HUw Hfuel.
  destruct (process_writes_idle fuel w Hw HUw) as (e & H1 & HU1).
  destruct (obtain_context_up fuel (set_env e w)) as (ctx & w2 & H2 & Hi2 & HU2 & Hd2 & _ & Hl2 & S2);
    [done..|].
  destruct (read_functions_runs config U (up_now _ _ Hup) mem (up_serves _ _ Hup)
    (TagRegistry.defs (registry w)) (hash_iter (ModbusPlan.by_func ms)) ctx w2)
    as (ctx' & w3 & H3 & F3 & S3); [by split|by apply valid_groups_ok|].
  exists (set_client (Some ctx') w3). split.
  { unfold run_read_cycle_impl. rewrite (bind_ret _ _ _ _ _ H1), (bind_ret _ _ _ _ _ H2).
    by rewrite (bind_ret _ _ _ _ _ H3). }
  destruct F3. split; [done|]. split; [by exists ctx'|]. simpl.
  split; [by rewrite frame_defs0, Hd2|]. split.
  - rewrite frame_log0, Hl2. by rewrite <- (assoc_L (++)).
  - change (shown (set_client (Some ctx') w3)) with (shown w3). rewrite S3, S2. done.
Qed.
End cycle.

(** ** Failed reads *)

Section failures.
Context {C : Chrono} {B : ByteOrder} {J : SerdeJson} {IO : ModbusIO}.
Context `{!HashIter ModbusFunction} (config : ModbusConfig SocketAddr).

(** An error text that the read phase neither reports nor acts on. *)
Definition ignored (e : string) : Prop :=
  is_illegal e = false ∧ is_device_failure e = false ∧ e ≠ "Timeout"%string.

Lemma read_failed_ignored ms e w : ignored e → read_failed config ms e w = (Ret tt, w).
Proof.
  intros (H1 & H2 & H3). unfold read_failed. rewrite H1, H2. simpl.
  by rewrite bool_decide_false.
Qed.

Definition marks (ids : list string) (q : TagQuality)
    (s : gmap string (TagValue * TagQuality)) : gmap string (TagValue * TagQuality) :=
  foldl (λ s id, mark id q s) s ids.

Lemma mark_members_runs (U : Env → Prop) (HU : ∀ e, U e → U (utc_now e).2) q ms w :
  inv w → U (env w) →
  runs U (for_each (λ m, set_tag_quality (ModbusMapping.tag_id m) q) ms) []
    (marks (ModbusMapping.tag_id <$> ms) q) w.
Proof.
  revert w. induction ms as [|m ms IH]; intros w Hw HUw; [by apply runs_ret|].
  simpl for_each. eapply runs_seq; [by apply set_tag_quality_frame| |done|].
  - intros a w' F. apply IH; [by eapply frame_inv|by eapply frame_U].
  - done.
Qed.

(** A PLC every read of which fails with the text [e]. *)
Definition fails (U : Env → Prop) (e : string) : Prop :=
  ∀ func ctx cs cq w, inv w → U (env w) →
    ∃ ctx' env', read_chunk config func ctx cs cq w =
      (Ret (Err e, ctx'), set_env env' (add_event (EvRead func cs cq) w)) ∧ U env'.

Context (U : Env → Prop) (e : string) (Hfails : fails U e) (He : ignored e).

(** The parts of the world that ignored errors leave alone. *)
Definition unchanged (w w' : World) : Prop :=
  registry w' = registry w ∧ client w' = client w ∧ U (env w').

Lemma unchanged_refl w : U (env w) → unchanged w w.
Proof. by repeat split. Qed.

Lemma unchanged_trans w1 w2 w3 : unchanged w1 w2 → unchanged w2 w3 → unchanged w1 w3.
Proof. intros (? & ? & ?) (? & ? & ?). split; [congruence|]. split; [congruence|done]. Qed.

Lemma chunk_loop_ignored fuel func ms ctx cs rem w :
  inv w → U (env w) → 0 ≤ cs → 0 ≤ rem → cs + rem ≤ 65535 → (Z.to_nat rem ≤ fuel)%nat →
  ∃ ctx' w', chunk_loop config fuel func ms ctx cs rem w = (Ret ctx', w') ∧ unchanged w w'.
Proof.
  pose proof (ModbusPlan.max_allowed_range func) as Hmax.
  revert ctx cs rem w. induction fuel as [|fuel IH]; intros ctx cs rem w Hw HUw Hcs Hrem Hb Hf.
  { assert (rem = 0) as -> by lia. exists ctx, w. split; [done|by apply unchanged_refl]. }
  cbn [chunk_loop]. destruct (Z.ltb_spec 0 rem) as [Hpos|]; [|exists ctx, w; split; [done|by apply unchanged_refl]].
  rewrite ModbusPlan.chunk_qty_min, ModbusPlan.advance_spec by lia.
  destruct (Hfails func ctx cs (Z.min rem (ModbusPlan.max_allowed func)) w Hw HUw)
    as (ctx1 & e1 & H1 & HU1).
  rewrite (bind_ret _ _ _ _ _ H1).
  set (w1 := set_env e1 _) in *.
  rewrite (bind_ret (read_failed config ms e) _ w1 tt w1) by (by apply read_failed_ignored).
  destruct (IH ctx1 (cs + Z.min rem (ModbusPlan.max_allowed func))
    (rem - Z.min rem (ModbusPlan.max_allowed func)) w1) as (ctx2 & w2 & H2 & Hu); try done; try lia.
  exists ctx2, w2. split; [exact H2|]. eapply unchanged_trans; [|exact Hu]. by repeat split.
Qed.

Lemma read_groups_ignored func gs ctx w :
  inv w → U (env w) → Forall group_ok gs →
  ∃ ctx' w', read_groups config func ctx gs w = (Ret ctx', w') ∧ unchanged w w'.
Proof.
  intros Hw HUw Hg. revert ctx w Hw HUw.
  induction Hg as [|g gs (Hg1 & Hg2 & Hg3) Hgs IH]; intros ctx w Hw HUw; [exists ctx, w; split; [done|by apply unchanged_refl]|].
  destruct (chunk_loop_ignored (Z.to_nat (ModbusPlan.qty g)) func (ModbusPlan.members g) ctx
    (ModbusPlan.start g) (ModbusPlan.qty g) w) as (ctx1 & w1 & H1 & Hu1); try done; try lia.
  simpl. unfold read_group. rewrite (bind_ret _ _ _ _ _ H1).
  destruct Hu1 as (Hr1 & Hc1 & HU1). destruct (IH ctx1 w1) as (ctx2 & w2 & H2 & Hu2); [|done|].
  { unfold inv. by rewrite Hr1. }
  exists ctx2, w2. split; [done|]. by eapply unchanged_trans.
Qed.

Lemma read_functions_ignored fs ctx w :
  inv w → U (env w) → Forall (λ fm, Forall group_ok (function_groups fm.2)) fs →
  ∃ ctx' w', read_functions config ctx fs w = (Ret ctx', w') ∧ unchanged w w'.
Proof.
  intros Hw HUw Hg. revert ctx w Hw HUw.
  induction Hg as [|[func maps] fs Hg Hgs IH]; intros ctx w Hw HUw; [exists ctx, w; split; [done|by apply unchanged_refl]|].
  destruct (read_groups_ignored func (function_groups maps) ctx w)
    as (ctx1 & w1 & H1 & Hu1); try done.
  simpl. rewrite (bind_ret _ _ _ _ _ H1).
  destruct Hu1 as (Hr1 & Hc1 & HU1). destruct (IH ctx1 w1) as (ctx2 & w2 & H2 & Hu2); [|done|].
  { unfold inv. by rewrite Hr1. }
  exists ctx2, w2. split; [done|]. by eapply unchanged_trans.
Qed.
End failures.

(** ** No panic, and nothing but the reconnect loop can keep a cycle from ending *)

Section progress.
Context {C : Chrono} {B : ByteOrder} {J : SerdeJson} {IO : ModbusIO}.
Context `{!HashIter ModbusFunction} (config : ModbusConfig SocketAddr).
Notation emits := (Effects.emits (E:=DriverError) inv log).

(** A step that ends: it returns or fails. *)
Definition ends {A} (o : outcome DriverError A) (l : list event) : Prop := o ≠ Pending.

Lemma emits_ends_bind {A D} (m : M World DriverError A) (k : A → M World DriverError D) :
  emits m ends → (∀ a, emits (k a) ends) → emits (m ≫= k) ends.
Proof.
  intros Hm Hk. eapply emits_bind; [exact Hm|..].
  - intros a l _. eapply emits_mono; [apply Hk|]. by unfold ends.
  - by unfold ends.
  - intros l Hl. by destruct Hl.
Qed.

Lemma gives_ends {A} (m : M World DriverError A) l : emits m (gives l) → emits m ends.
Proof. intros Hm. eapply emits_mono; [exact Hm|]. by intros o l' _ [[a ->] _]. Qed.

Lemma for_each_ends {X} (f : X → M World DriverError unit) l :
  (∀ x, emits (f x) ends) → emits (for_each f l) ends.
Proof.
  intros Hf. induction l; simpl; [by apply emits_ret|]. by apply emits_ends_bind.
Qed.

Lemma update_mapping_ends cs cq raw m : emits (update_mapping cs cq raw m) ends.
Proof.
  intros w Hw.
  destruct (update_mapping_runs (λ _, True) (λ _ _, Logic.I) (TagRegistry.defs (registry w))
    cs cq raw m w) as (a & w' & H & F & _); [by split; [|split]|].
  rewrite H. split; [discriminate|]. split; [exact (frame_inv _ _ _ _ F)|].
  exists []. split; [exact (frame_log _ _ _ _ F)|discriminate].
Qed.

Lemma read_failed_ends ms e : emits (read_failed config ms e) ends.
Proof.
  unfold read_failed. destruct (is_illegal e).
  { apply for_each_ends. intros m. eapply gives_ends, set_tag_quality_gives. }
  destruct (_ || _)%bool; [|by apply emits_ret].
  apply emits_ends_bind.
  { apply for_each_ends. intros m. eapply gives_ends, set_tag_quality_gives. }
  intros _. apply emits_ends_bind.
  { eapply emits_mono; [apply send_health_event_emits|]. by intros o l _ [-> _]. }
  intros _. apply emits_ends_bind; [eapply gives_ends, set_client_gives|].
  intros _. by apply emits_throw.
Qed.

Lemma chunk_loop_ends fuel func ms ctx cs rem :
  0 ≤ rem ≤ 65535 → (Z.to_nat rem ≤ fuel)%nat →
  emits (chunk_loop config fuel func ms ctx cs rem) ends.
Proof.
  pose proof (ModbusPlan.max_allowed_range func) as Hmax.
  revert ctx cs rem. induction fuel as [|fuel IH]; intros ctx cs rem Hrem Hf; cbn [chunk_loop];
    (destruct (Z.ltb_spec 0 rem); [|by apply emits_ret]); [lia|].
  apply emits_ends_bind.
  { unfold read_chunk. apply emits_ends_bind; [eapply gives_ends, emit_gives|].
    intros _. eapply gives_ends, env_op_gives. }
  intros [res ctx1]. apply emits_ends_bind.
  { destruct res; [apply for_each_ends; intros; apply update_mapping_ends|apply read_failed_ends]. }
  intros _. unfold ModbusPlan.advance. rewrite ModbusPlan.chunk_qty_min by lia.
  destruct (_ <? _); [by apply emits_ret|]. unfold u32_saturating_sub. apply IH; lia.
Qed.

Lemma read_groups_ends func gs ctx :
  Forall (λ g, is_u16 (ModbusPlan.qty g)) gs → emits (read_groups config func ctx gs) ends.
Proof.
  intros Hg. revert ctx. induction Hg as [|g gs Hg Hgs IH]; intros ctx; simpl; [by apply emits_ret|].
  apply emits_ends_bind; [|done]. unfold is_u16 in Hg. pow2_numerals.
  apply chunk_loop_ends; lia.
Qed.

(** The [u16] quantity of a group, whatever the mappings. *)
Lemma build_groups_u16 maps :
  Forall (λ m, is_u16 (ModbusMapping.quantity m)) maps →
  Forall (λ g, is_u16 (ModbusPlan.qty g)) (ModbusPlan.build_groups maps).
Proof.
  unfold ModbusPlan.build_groups. induction maps as [|m maps IH] using rev_ind; [by constructor|].
  intros [Hms Hm]%Forall_app. apply Forall_inv in Hm. specialize (IH Hms).
  rewrite foldl_app. simpl. unfold ModbusPlan.push_mapping.
  destruct (foldl _ _ _) as [|g gs _] using rev_ind; [by apply Forall_singleton|].
  rewrite last_snoc, removelast_last. apply Forall_app in IH as [Hgs Hg]. apply Forall_app.
  split; [done|]. unfold ModbusPlan.merge. destruct (_ <=? _).
  - apply Forall_singleton, as_u16_range.
  - apply Forall_inv in Hg. by apply Forall_cons; split; [|apply Forall_singleton].
Qed.

Lemma read_functions_ends fs ctx :
  Forall (λ fm, Forall (λ m, is_u16 (ModbusMapping.quantity m)) fm.2) fs →
  emits (read_functions config ctx fs) ends.
Proof.
  intros Hf. revert ctx. induction Hf as [|[func maps] fs Hg Hgs IH]; intros ctx; simpl;
    [by apply emits_ret|].
  apply emits_ends_bind; [|done]. apply read_groups_ends, build_groups_u16.
  by rewrite sort_by_key_perm.
Qed.

(** A step that, if it does not end, is waiting for a connection: the last thing it did
    is to fail to connect as often as its fuel allows. *)
Definition waits (fuel : nat) {A} (o : outcome DriverError A) (l : list event) : Prop :=
  o = Pending → ∃ l0, l = l0 ++ retry_events (backoffs config fuel 1).

Lemma emits_waits_bind fuel {A D} (m : M World DriverError A) (k : A → M World DriverError D) :
  emits m (waits fuel) → (∀ a, emits (k a) (waits fuel)) → emits (m ≫= k) (waits fuel).
Proof.
  intros Hm Hk. eapply emits_bind; [exact Hm|..].
  - intros a l1 _. eapply emits_mono; [apply Hk|]. intros o l _ Hw Ho.
    destruct (Hw Ho) as (l0 & ->). exists (l1 ++ l0). by rewrite (assoc_L (++)).
  - done.
  - intros l Hl _. by apply Hl.
Qed.

Lemma ends_waits fuel {A} (m : M World DriverError A) : emits m ends → emits m (waits fuel).
Proof. intros Hm. eapply emits_mono; [exact Hm|]. by intros o l _ He ?. Qed.

Lemma gives_waits fuel {A} (m : M World DriverError A) l :
  emits m (gives l) → emits m (waits fuel).
Proof. intros Hm. by eapply ends_waits, gives_ends. Qed.

Lemma connect_waits fuel : emits (connect_with_backoff config fuel) (waits fuel).
Proof.
  eapply emits_mono; [apply connect_loop_emits|].
  intros o l _ [(n & ctx & _ & -> & _)|[-> ->]]; [done|]. intros _. by exists [].
Qed.

Lemma process_write_waits fuel req :
  TagValue.wf (WriteRequest.value req) → emits (process_write config fuel req) (waits fuel).
Proof.
  intros Hwf. eapply emits_mono; [by apply process_write_emits|].
  intros o l _. unfold write_trace.
  destruct (find _ _) as [m|]; [|by intros [-> _]].
  destruct (negb _); [by intros [-> _]|]. case_bool_decide; [|by intros [-> _]].
  intros (words & sent & _ & _ & [[-> ->]|(conn & res & ending & _ & Hend & _)]).
  - intros _. by exists [].
  - intros ->. inversion Hend.
Qed.

Lemma process_writes_waits fuel n : emits (process_writes config fuel n) (waits fuel).
Proof.
  induction n as [|n IH]; simpl; [by apply emits_ret|].
  apply emits_bind_env. intros e r e' Hrecv.
  destruct r as [req| |]; [|by apply emits_ret..]. apply try_recv_wf in Hrecv.
  apply emits_waits_bind; [eapply gives_waits, emit_gives|]. intros _.
  apply emits_waits_bind; [by apply process_write_waits|]. done.
Qed.

Lemma obtain_context_waits fuel : emits (obtain_context config fuel) (waits fuel).
Proof.
  unfold obtain_context.
  apply emits_waits_bind; [eapply gives_waits, emits_gives_gets|]. intros guard.
  apply emits_waits_bind.
  { destruct guard; [by apply emits_ret|].
    apply emits_waits_bind; [apply connect_waits|]. intros [ctx|e]; [|by apply emits_throw].
    eapply gives_waits, set_client_gives. }
  intros _. apply emits_waits_bind; [eapply gives_waits, emits_gives_gets|]. intros maybe.
  apply emits_waits_bind; [eapply gives_waits, set_client_gives|]. intros _.
  destruct maybe; [by apply emits_ret|].
  apply emits_waits_bind; [apply connect_waits|].
  intros [ctx|e]; [by apply emits_ret|by apply emits_throw].
Qed.

Lemma cycle_waits fuel :
  Forall (λ m, is_u16 (ModbusMapping.quantity m)) (ModbusConfig.mappings config) →
  emits (run_read_cycle_impl config fuel) (waits fuel).
Proof.
  intros Hq. unfold run_read_cycle_impl.
  apply emits_waits_bind; [apply process_writes_waits|]. intros _.
  apply emits_waits_bind; [apply obtain_context_waits|]. intros ctx.
  apply emits_waits_bind; [|intros; eapply gives_waits, set_client_gives].
  apply ends_waits, read_functions_ends, Forall_forall. intros [func maps] Hin.
  apply hash_iter_group_by in Hin as [-> _]. simpl. apply Forall_forall.
  intros m [_ Hm]%list_elem_of_filter. by eapply Forall_forall in Hq.
Qed.
End progress.

(** ** Properties of the cycle *)

Section properties.
Context {C : Chrono} {B : ByteOrder} {J : SerdeJson} {IO : ModbusIO}.
Context `{!HashIter ModbusFunction} (config : ModbusConfig SocketAddr).

(** The bytes of a mapping's registers in the PLC's memory. *)
Definition mapped_bytes (mem : ModbusFunction → Z → Z) (m : ModbusMapping) : list Z :=
  ModbusCodec.registers_to_bytes (mem (ModbusMapping.function m) <$>
    seqZ (ModbusMapping.address m) (ModbusMapping.quantity m)).

(** The group [m] is read with fits in one request. *)
Definition in_one_request (ms : list ModbusMapping) (m : ModbusMapping) : Prop :=
  ∀ g, g ∈ function_groups (filter (λ m', ModbusMapping.function m' = ModbusMapping.function m) ms) →
    m ∈ ModbusPlan.members g → ModbusPlan.qty g ≤ ModbusPlan.MAX_REGISTERS.

Lemma decode_slice_typed dt order bit bytes v :
  is_bytes bytes → ModbusCodec.decode_slice dt order bit bytes = Some (Ok v) →
  TagValue.data_type v = dt.
Proof.
  unfold ModbusCodec.decode_slice, DriverCommon.apply_byte_order.
  rewrite WordOrder.apply_to_bytes_spec. cbn [mbind option_bind]. intros Hb [= Hd].
  eapply ModbusCodec.decode_typed; [|exact Hd]. by apply WordOrder.order_spec_bytes.
Qed.

(** A tag without a mapping has no look at all. *)
Lemma unmapped_tag (mem : ModbusFunction → Z → Z) ds ms s id :
  Forall ModbusPlan.fits ms → ModbusPlan.validate ms = Ok tt → id ∉ ModbusMapping.tag_id <$> ms →
  foldl (apply_look mem ds) s (read_looks ms) !! id = s !! id.
Proof.
  intros Hf Hv Hid.
  assert (∀ l, l ∈ read_looks ms → ModbusMapping.tag_id l.2 ≠ id) as Hno.
  { intros [[func c] m] (maps & g & Hin & Hg & _ & Hm)%elem_of_read_looks <-. apply Hid.
    destruct (function_groups_spec ms _ maps Hf Hv Hin) as (-> & _ & Helem & _).
    apply list_elem_of_fmap_2. by eapply (list_elem_of_filter _ ms m), Helem; eauto. }
  induction (read_looks ms) as [|l ls IH] using rev_ind; [done|]. rewrite foldl_app. simpl.
  rewrite apply_look_other; [|apply Hno, elem_of_app; right; by left].
  apply IH. intros l' Hl'. apply Hno, elem_of_app. by left.
Qed.

(** A tag with a look that is not idle. *)
Lemma looked_at (mem : ModbusFunction → Z → Z) (w : World) (m : ModbusMapping) (d : TagDefinition)
    (cs cq : Z) (F : option (TagValue * TagQuality) → option (TagValue * TagQuality)) :
  let ms := ModbusConfig.mappings config in
  let ds := TagRegistry.defs (registry w) in
  inv w → Forall ModbusPlan.fits ms → ModbusPlan.validate ms = Ok tt →
  NoDup (ModbusMapping.tag_id <$> ms) → m ∈ ms → ds !! ModbusMapping.tag_id m = Some d →
  (ModbusMapping.function m, (cs, cq)) ∈ read_requests ms →
  cs ≤ ModbusMapping.address m →
  ModbusMapping.address m + ModbusMapping.quantity m ≤ cs + cq → (∀ p, F (F p) = F p) →
  (0 ≤ cs → 1 ≤ cq → cs + cq ≤ 65535 → ∀ s, is_Some (s !! ModbusMapping.tag_id m) →
     apply_look mem ds s (ModbusMapping.function m, (cs, cq), m) !! ModbusMapping.tag_id m =
       F (s !! ModbusMapping.tag_id m)) →
  foldl (apply_look mem ds) (shown w) (read_looks ms) !! ModbusMapping.tag_id m =
    F (shown w !! ModbusMapping.tag_id m).
Proof.
  intros ms ds Hw Hf Hv Hnd Hm Hd Hreq Hlo Hhi HF Hl.
  destruct (read_looks_of mem ds ms m cs cq) as (H0 & H1 & H2 & Hin & Honly); [done..|].
  apply (foldl_look_one mem ds _ _ _ F Hin); [|done|exact Honly|by apply Hl].
  destruct (TagRegistry.typed_tag _ _ _ _ (TagRegistry.wf_typed _ Hw) Hd) as (t & Ht & _).
  unfold shown. simpl. by rewrite lookup_fmap, Ht.
Qed.

Lemma looked_at_registers (mem : ModbusFunction → Z → Z) (w : World) (m : ModbusMapping)
    (d : TagDefinition) (v : TagValue) (cs cq : Z) :
  let ms := ModbusConfig.mappings config in
  let ds := TagRegistry.defs (registry w) in
  inv w → Forall ModbusPlan.fits ms → ModbusPlan.validate ms = Ok tt →
  NoDup (ModbusMapping.tag_id <$> ms) → m ∈ ms →
  ModbusMapping.function m = ModbusFunction.HoldingRegisters ∨
    ModbusMapping.function m = ModbusFunction.InputRegisters →
  (ModbusMapping.function m, (cs, cq)) ∈ read_requests ms →
  cs ≤ ModbusMapping.address m →
  ModbusMapping.address m + ModbusMapping.quantity m ≤ cs + cq →
  ds !! ModbusMapping.tag_id m = Some d → TagDefinition.data_type d = ModbusMapping.data_type m →
  ModbusCodec.decode_slice (ModbusMapping.data_type m) (ModbusMapping.byte_order m)
    (ModbusMapping.bit_offset m) (mapped_bytes mem m) = Some (Ok v) →
  foldl (apply_look mem ds) (shown w) (read_looks ms) !! ModbusMapping.tag_id m =
    Some (v, TagQuality.Good).
Proof.
  intros ms ds Hw Hf Hv Hnd Hm Hfunc Hreq Hlo Hhi Hd Hty Hdec.
  assert (TagValue.data_type v = TagDefinition.data_type d) as Hvty.
  { rewrite Hty. eapply decode_slice_typed; [|exact Hdec].
    apply ModbusCodec.registers_to_bytes_bytes. }
  apply (looked_at mem w m d cs cq (λ _, Some (v, TagQuality.Good))); try done.
  intros H0 H1 H2 s Hs. apply (apply_look_registers mem ds s _ _ _ m d v); try done; [lia|].
  by apply (proj1 (Forall_forall _ _) Hf).
Qed.

(** A mapping whose group fits in one request is in one. *)
Lemma one_request_in ms m :
  Forall ModbusPlan.fits ms → ModbusPlan.validate ms = Ok tt → m ∈ ms →
  ModbusMapping.function m = ModbusFunction.HoldingRegisters ∨
    ModbusMapping.function m = ModbusFunction.InputRegisters →
  in_one_request ms m →
  ∃ cs cq, (ModbusMapping.function m, (cs, cq)) ∈ read_requests ms ∧ cs ≤ ModbusMapping.address m ∧
    ModbusMapping.address m + ModbusMapping.quantity m ≤ cs + cq.
Proof.
  intros Hf Hv Hm Hfunc Hq.
  set (maps := filter (λ m', ModbusMapping.function m' = ModbusMapping.function m) ms) in *.
  assert (m ∈ maps) as Hmm by (by apply list_elem_of_filter).
  assert ((ModbusMapping.function m, maps) ∈ hash_iter (ModbusPlan.by_func ms)) as Hin.
  { apply hash_iter_group_by. split; [done|]. intros Hnil. fold maps in Hnil.
    rewrite Hnil in Hmm. by apply not_elem_of_nil in Hmm. }
  destruct (function_groups_spec ms _ maps Hf Hv Hin) as (_ & Hok & Helem & Hrange & _).
  apply Helem in Hmm as (g & Hg & Hmg). specialize (Hq g Hg Hmg).
  destruct (proj1 (Forall_forall _ _) Hok g Hg) as (? & ? & ?).
  pose proof (Hrange g m Hg Hmg) as [? ?].
  exists (ModbusPlan.start g), (ModbusPlan.qty g). split; [|done].
  apply elem_of_read_requests. exists maps, g. split; [done|]. split; [done|].
  unfold group_chunks. rewrite ModbusPlan.chunks_single; [by left|lia| |lia|lia].
  by destruct Hfunc as [-> | ->].
Qed.

Lemma cycle_reads_tag (U : Env → Prop) (mem : ModbusFunction → Z → Z)
    (fuel : nat) (w : World) (m : ModbusMapping) (d : TagDefinition) (v : TagValue) :
  let ms := ModbusConfig.mappings config in
  reachable config U mem → inv w → U (env w) → (1 ≤ fuel)%nat →
  Forall ModbusPlan.fits ms → ModbusPlan.validate ms = Ok tt →
  NoDup (ModbusMapping.tag_id <$> ms) → m ∈ ms →
  ModbusMapping.function m = ModbusFunction.HoldingRegisters ∨
    ModbusMapping.function m = ModbusFunction.InputRegisters →
  in_one_request ms m →
  TagRegistry.defs (registry w) !! ModbusMapping.tag_id m = Some d →
  TagDefinition.data_type d = ModbusMapping.data_type m →
  ModbusCodec.decode_slice (ModbusMapping.data_type m) (ModbusMapping.byte_order m)
    (ModbusMapping.bit_offset m) (mapped_bytes mem m) = Some (Ok v) →
  ∃ w', run_read_cycle_impl config fuel w = (Ret tt, w') ∧ inv w' ∧
    shown w' !! ModbusMapping.tag_id m = Some (v, TagQuality.Good).
Proof.
  intros ms Hup Hw HUw Hfuel Hf Hv Hnd Hm Hfunc Hq Hd Hty Hdec.
  destruct (cycle_up config U mem Hup fuel w Hf Hv Hw HUw Hfuel)
    as (w' & Hrun & Hw' & _ & _ & _ & Hshown).
  exists w'. split; [done|]. split; [done|]. rewrite Hshown.
  destruct (one_request_in ms m) as (cs & cq & Hreq & Hlo & Hhi); [done..|].
  by apply (looked_at_registers mem w m d v cs cq).
Qed.

(** End to end, from the PLC's memory to the registry.  With a valid
    configuration and a reachable PLC, a cycle completes, and every tag mapped to
    registers whose group fits in one request shows, with quality Good, exactly the
    value its registers decode to, whatever was shown before and whatever the order
    in which the functions are visited. *)
Theorem modbus_cycle_reads_tag (U : Env → Prop) (mem : ModbusFunction → Z → Z)
    (fuel : nat) (w : World) (m : ModbusMapping) (d : TagDefinition) (v : TagValue) :
  let ms := ModbusConfig.mappings config in
  reachable config U mem → inv w → U (env w) → (1 ≤ fuel)%nat →
  Forall ModbusPlan.fits ms → ModbusPlan.validate ms = Ok tt →
  NoDup (ModbusMapping.tag_id <$> ms) → m ∈ ms →
  ModbusMapping.function m = ModbusFunction.HoldingRegisters ∨
    ModbusMapping.function m = ModbusFunction.InputRegisters →
  in_one_request ms m →
  TagRegistry.defs (registry w) !! ModbusMapping.tag_id m = Some d →
  TagDefinition.data_type d = ModbusMapping.data_type m →
  ModbusCodec.decode_slice (ModbusMapping.data_type m) (ModbusMapping.byte_order m)
    (ModbusMapping.bit_offset m) (mapped_bytes mem m) = Some (Ok v) →
  ∃ w', run_read_cycle_impl config fuel w = (Ret tt, w') ∧ inv w' ∧
    shown w' !! ModbusMapping.tag_id m = Some (v, TagQuality.Good).
Proof.
  intros. by eapply cycle_reads_tag.
Qed.

(** What a write put into the registers is shown by a cycle. *)
Lemma cycle_shows_written (U : Env → Prop) (mem : ModbusFunction → Z → Z)
    (fuel : nat) (w : World) (m : ModbusMapping) (d : TagDefinition) (v : TagValue)
    (words sent : list Z) :
  let ms := ModbusConfig.mappings config in
  reachable config U mem → inv w → U (env w) → (1 ≤ fuel)%nat →
  Forall ModbusPlan.fits ms → ModbusPlan.validate ms = Ok tt →
  NoDup (ModbusMapping.tag_id <$> ms) → m ∈ ms → in_one_request ms m →
  ModbusMapping.function m = ModbusFunction.HoldingRegisters →
  ModbusMapping.bit_offset m = 0 →
  TagRegistry.defs (registry w) !! ModbusMapping.tag_id m = Some d →
  TagDefinition.data_type d = ModbusMapping.data_type m →
  TagValue.wf v → TagValue.data_type v = ModbusMapping.data_type m →
  ModbusCodec.tagvalue_to_registers v = Some (Ok words) →
  ModbusCodec.order_words words (ModbusMapping.byte_order m) = Some (Some sent) →
  ModbusMapping.quantity m = Z.of_nat (length sent) →
  mem ModbusFunction.HoldingRegisters <$>
    seqZ (ModbusMapping.address m) (ModbusMapping.quantity m) = sent →
  ∃ w' v', run_read_cycle_impl config fuel w = (Ret tt, w') ∧
    shown w' !! ModbusMapping.tag_id m = Some (v', TagQuality.Good) ∧
    ModbusCodec.read_back v v'.
Proof.
  intros ms Hup Hw HUw Hfuel Hf Hv Hnd Hm Hone Hfunc Hbit Hd Hty Hwf Hvt Hwords Hsent Hq Hmem.
  destruct (ModbusCodec.decode_encode v Hwf) as (words' & v' & Hwords' & _ & Hdec & Hrb).
  rewrite Hwords in Hwords'. injection Hwords' as <-.
  destruct (ModbusCodec.order_words_spec words (ModbusMapping.byte_order m))
    as (sent' & Hsent' & Hbytes & _ & _).
  rewrite Hsent in Hsent'. injection Hsent' as <-.
  destruct (cycle_reads_tag U mem fuel w m d v') as (w' & Hrun & _ & Hshown); try done;
    [by left| |by exists w', v'].
  unfold mapped_bytes, ModbusCodec.decode_slice, DriverCommon.apply_byte_order.
  rewrite Hfunc, Hmem, WordOrder.apply_to_bytes_spec. cbn [mbind option_bind].
  by rewrite Hbytes, WordOrder.order_spec_involutive, Hbit, <- Hvt, Hdec.
Qed.

(** What a write put into the registers is what the next cycle shows: if the
    registers of a writable tag hold the words the driver sends for [v], a cycle
    shows [v] again, up to [read_back], with quality Good. *)
Theorem modbus_cycle_shows_written (U : Env → Prop) (mem : ModbusFunction → Z → Z)
    (fuel : nat) (w : World) (m : ModbusMapping) (d : TagDefinition) (v : TagValue)
    (words sent : list Z) :
  let ms := ModbusConfig.mappings config in
  reachable config U mem → inv w → U (env w) → (1 ≤ fuel)%nat →
  Forall ModbusPlan.fits ms → ModbusPlan.validate ms = Ok tt →
  NoDup (ModbusMapping.tag_id <$> ms) → m ∈ ms → in_one_request ms m →
  ModbusMapping.function m = ModbusFunction.HoldingRegisters →
  ModbusMapping.bit_offset m = 0 →
  TagRegistry.defs (registry w) !! ModbusMapping.tag_id m = Some d →
  TagDefinition.data_type d = ModbusMapping.data_type m →
  TagValue.wf v → TagValue.data_type v = ModbusMapping.data_type m →
  ModbusCodec.tagvalue_to_registers v = Some (Ok words) →
  ModbusCodec.order_words words (ModbusMapping.byte_order m) = Some (Some sent) →
  ModbusMapping.quantity m = Z.of_nat (length sent) →
  mem ModbusFunction.HoldingRegisters <$>
    seqZ (ModbusMapping.address m) (ModbusMapping.quantity m) = sent →
  ∃ w' v', run_read_cycle_impl config fuel w = (Ret tt, w') ∧
    shown w' !! ModbusMapping.tag_id m = Some (v', TagQuality.Good) ∧
    ModbusCodec.read_back v v'.
Proof. intros. by eapply cycle_shows_written. Qed.


(** C14: whatever the network does, a cycle does not panic and keeps the registry
    consistent, even after an early return; and the only thing that can keep it from
    ending is the reconnect loop, which then has failed as often as it was allowed
    to. *)
Theorem modbus_cycle_safe (fuel : nat) (w w' : World) (o : outcome DriverError unit) :
  Forall (λ m, is_u16 (ModbusMapping.quantity m)) (ModbusConfig.mappings config) →
  inv w → run_read_cycle_impl config fuel w = (o, w') →
  o ≠ Panic ∧ inv w' ∧
  (o = Pending → ∃ l, log w' = log w ++ l ++ retry_events (backoffs config fuel 1)).
Proof.
  intros Hq Hw Hrun. destruct (cycle_waits config fuel Hq w Hw) as (Hp & Hw' & l & Hl & Hwait).
  rewrite Hrun in *. simpl in *. split; [done|]. split; [done|].
  intros ->. destruct Hwait as (l0 & ->); [done|]. by exists l0.
Qed.

(** How a failed read of a chunk is handled, by its text: an illegal address or
    value marks the whole group ConfigError and the cycle goes on; a device failure
    or a timeout marks the group CommLost, reports it if a health sender is set,
    drops the connection and ends the cycle with the error; any other text has no
    effect at all. *)
Theorem modbus_read_error (members : list ModbusMapping) (e : string) (w : World) :
  inv w →
  let ids := ModbusMapping.tag_id <$> members in
  if is_illegal e then
    ∃ w', read_failed config members e w = (Ret tt, w') ∧ client w' = client w ∧
      log w' = log w ∧ shown w' = marks ids TagQuality.ConfigError (shown w)
  else if is_device_failure e || bool_decide (e = "Timeout"%string) then
    ∃ w', read_failed config members e w = (Fail (Modbus e), w') ∧ client w' = None ∧
      log w' = log w ++ (if health_tx w
                         then [EvHealth (health_object config "read_error" (Some e))] else []) ∧
      shown w' = marks ids TagQuality.CommLost (shown w)
  else read_failed config members e w = (Ret tt, w).
Proof.
  intros Hw ids. pose (U := λ _ : Env, True). assert (U (env w)) as HUw by done.
  assert (∀ e, U e → U (utc_now e).2) as HU by done.
  unfold read_failed. destruct (is_illegal e).
  { destruct (mark_members_runs U HU TagQuality.ConfigError members w Hw HUw)
      as ([] & w' & H & F & S). exists w'. destruct F.
    split; [done|]. by rewrite frame_log0, app_nil_r. }
  destruct (_ || _)%bool; [|done].
  destruct (mark_members_runs U HU TagQuality.CommLost members w Hw HUw) as ([] & w1 & H & F & S).
  rewrite (bind_ret _ _ _ _ _ H). run_step send_health_event_frame.
  eexists. split; [reflexivity|]. destruct F, F0. split; [done|]. simpl.
  rewrite frame_log1, frame_log0, app_nil_r, frame_health0. split; [done|].
  change (shown w1 = marks ids TagQuality.CommLost (shown w)) in S.
  rewrite <- S. unfold shown in *. simpl. congruence.
Qed.

(** A transport error that does not happen to contain one of the keywords (a
    reset connection, say) goes unnoticed: when every read of the cycle fails that
    way, the cycle still returns [Ok], the dead connection is kept for the next
    cycle, and no tag changes its value or its quality. *)
Theorem modbus_transport_error_ignored (U : Env → Prop) (e : string) (fuel : nat)
    (ctx : ClientContext) (w : World) :
  let ms := ModbusConfig.mappings config in
  Forall ModbusPlan.fits ms → ModbusPlan.validate ms = Ok tt →
  fails config U e → ignored e →
  (∃ e', try_recv (env w) = (Empty, e') ∧ U e') →
  inv w → client w = Some ctx →
  ∃ w', run_read_cycle_impl config fuel w = (Ret tt, w') ∧
    (∃ ctx', client w' = Some ctx') ∧ registry w' = registry w.
Proof.
  intros ms Hf Hv Hfails He (e' & Hrecv & HUe') Hw Hc.
  destruct (read_functions_ignored config U e Hfails He (hash_iter (ModbusPlan.by_func ms)) ctx
    (set_client None (set_env e' w))) as (ctx' & w2 & H2 & Hr & _ & _);
    [done|done|by apply valid_groups_ok|].
  exists (set_client (Some ctx') w2). split.
  - unfold run_read_cycle_impl.
    rewrite (bind_ret (process_writes config fuel 64) _ w tt (set_env e' w)).
    2: { cbn [process_writes]. unfold env_op, mbind, M_bind. by rewrite Hrecv. }
    rewrite (bind_ret (obtain_context config fuel) _ _ ctx (set_client None (set_env e' w))).
    2: { unfold obtain_context, mbind, M_bind, gets, modify, mret, M_ret. simpl.
         rewrite Hc. simpl. by rewrite Hc. }
    by rewrite (bind_ret _ _ _ _ _ H2).
  - split; [by exists ctx'|]. exact Hr.
Qed.
End properties.

Section mapping_properties.
Context {C : Chrono} {B : ByteOrder} {J : SerdeJson}.
Context (mem : ModbusFunction → Z → Z) (ds : gmap string TagDefinition).

Lemma pack_bits_first bits :
  (0 < length bits ≤ 16)%nat → ModbusPlan.pack_bits bits = [ModbusPlan.pack_word bits 0].
Proof.
  intros Hl. pose proof (ModbusPlan.pack_bits_length bits) as Hlen.
  unfold ModbusPlan.pack_bits in *. destruct (length bits) as [|n] eqn:Hn; [lia|].
  cbn [ModbusPlan.pack_from] in *. rewrite Hn in *. change (0 <? S n)%nat with true in *. cbv match in *.
  destruct (ModbusPlan.pack_from n bits (0 + 16)) as [|x r]; [done|].
  cbn [length] in Hlen. assert ((S n + 15) / 16 < 2)%nat by (apply Nat.Div0.div_lt_upper_bound; lia).
  lia.
Qed.

Lemma single_extract m cs cq w :
  0 ≤ cs → 1 ≤ cq → cs + cq ≤ 65535 → cs ≤ ModbusMapping.address m < cs + cq →
  ModbusMapping.quantity m = 1 →
  ModbusPlan.extract cs cq (ModbusCodec.registers_to_bytes [w]) m =
    if ModbusMapping.address m =? cs
    then ModbusPlan.Slice (ModbusCodec.registers_to_bytes [w]) else ModbusPlan.Short.
Proof.
  intros Hcs Hcq Hb Ha Hq. unfold ModbusPlan.extract, u32_sub, u32_add. rewrite Hq.
  assert (∀ z, 0 ≤ z ≤ 65536 → as_u32 z = z) as Hid
    by (intros; apply as_u32_id; int_ranges; lia).
  rewrite (Hid (cs + cq)), (Hid (cs + cq - 1)), (Hid (ModbusMapping.address m + 1)) by lia.
  rewrite (Hid (ModbusMapping.address m + 1 - 1)) by lia. cbv zeta.
  rewrite (proj2 (Z.ltb_ge _ cs)), (proj2 (Z.ltb_ge _ (ModbusMapping.address m))) by lia.
  cbn [orb]. rewrite Z.max_l, Z.min_l by lia.
  rewrite ModbusCodec.registers_to_bytes_length. cbn [length].
  replace (Z.to_nat ((ModbusMapping.address m + 1 - 1 - ModbusMapping.address m + 1) * 2))
    with 2%nat by lia.
  destruct (Z.eqb_spec (ModbusMapping.address m) cs) as [->|Hne].
  - rewrite Z.sub_diag. reflexivity.
  - by rewrite (proj2 (Nat.ltb_lt _ _)) by lia.
Qed.

(** Bits read from the PLC are packed sixteen to a word, but a mapping's position
    is taken in words: of the coils read in one request of at most sixteen, only the
    one at the start of the request shows its state; every other one is marked
    ConfigError, whatever the PLC answered. *)
Theorem modbus_coil_only_first (s : gmap string (TagValue * TagQuality)) (func : ModbusFunction)
    (cs cq : Z) (m : ModbusMapping) (d : TagDefinition) :
  func = ModbusFunction.Coils ∨ func = ModbusFunction.DiscreteInputs →
  0 ≤ cs → 1 ≤ cq ≤ 16 → cs + cq ≤ 65535 →
  cs ≤ ModbusMapping.address m < cs + cq → ModbusMapping.quantity m = 1 →
  ModbusMapping.bit_offset m = 0 → ModbusMapping.byte_order m = WordOrder.ABCD →
  ModbusMapping.data_type m = TagDataType.Bool →
  ds !! ModbusMapping.tag_id m = Some d → TagDefinition.data_type d = TagDataType.Bool →
  apply_look mem ds s (func, (cs, cq), m) =
    if ModbusMapping.address m =? cs
    then put ds (ModbusMapping.tag_id m) (TagValue.Bool (negb (mem func cs =? 0))) TagQuality.Good s
    else mark (ModbusMapping.tag_id m) TagQuality.ConfigError s.
Proof.
  intros Hfunc Hcs Hcq Hb Ha Hq Hbit Hord Hty Hd Hdty.
  set (bits := (λ a, negb (mem func a =? 0)) <$> seqZ cs cq).
  assert (chunk_bytes mem func cs cq =
    ModbusCodec.registers_to_bytes [ModbusPlan.pack_word bits 0]) as Hbytes.
  { rewrite <- pack_bits_first; [by destruct Hfunc as [->| ->]|].
    unfold bits. rewrite length_fmap, length_seqZ. lia. }
  unfold apply_look, apply_mapping. rewrite Hbytes, single_extract by lia.
  destruct (Z.eqb_spec (ModbusMapping.address m) cs) as [Heq|]; [|done].
  rewrite Hd, Hord, Hty, Hbit. cbn [WordOrder.order_spec].
  rewrite ModbusCodec.decode_bool by (try apply pack_word_u16; lia).
  do 2 f_equal. change 0 with (Z.of_nat 0) at 1. rewrite ModbusPlan.pack_word_testbit by lia.
  unfold bits. rewrite list_lookup_fmap, lookup_seqZ_lt by lia. simpl. by rewrite Z.add_0_r.
Qed.

(** A value whose registers straddle two requests is decoded from each part
    alone: the second request shows, as Good, a value made of the second part padded
    with zeros, so a two-register unsigned integer shows its low word shifted into
    the high one. *)
Theorem modbus_straddling_value (s : gmap string (TagValue * TagQuality)) (func : ModbusFunction)
    (cs cq : Z) (m : ModbusMapping) (d : TagDefinition) :
  func = ModbusFunction.HoldingRegisters ∨ func = ModbusFunction.InputRegisters →
  1 ≤ cs → 1 ≤ cq → cs + cq ≤ 65535 →
  ModbusMapping.address m = cs - 1 → ModbusMapping.quantity m = 2 →
  ModbusMapping.byte_order m = WordOrder.ABCD →
  ModbusMapping.data_type m = TagDataType.UInt32 → is_u16 (mem func cs) →
  ds !! ModbusMapping.tag_id m = Some d → TagDefinition.data_type d = TagDataType.UInt32 →
  is_Some (s !! ModbusMapping.tag_id m) →
  apply_look mem ds s (func, (cs, cq), m) !! ModbusMapping.tag_id m
  = Some (TagValue.UInt32 (mem func cs * 65536), TagQuality.Good).
Proof.
  intros Hfunc Hcs Hcq Hb Ha Hq Hord Hty Hu Hd Hdty [p Hs].
  assert (chunk_bytes mem func cs cq = ModbusCodec.registers_to_bytes (mem func <$> seqZ cs cq))
    as Hbytes by (by destruct Hfunc as [->| ->]).
  unfold apply_look, apply_mapping. rewrite Hbytes.
  rewrite ModbusPlan.extract_spec;
    [|lia..|by rewrite length_fmap, length_seqZ|unfold Ranges.fits; lia].
  cbv zeta. rewrite Ha, Hq. rewrite Z.max_r, Z.min_l by lia.
  rewrite (proj2 (Z.leb_gt _ _)) by lia.
  replace (cs - 1 + 2 - cs) with 1 by lia.
  rewrite take_drop_seqZ, Hd, Hord, Hty by lia. cbn [WordOrder.order_spec].
  rewrite (seqZ_cons cs 1), (seqZ_nil (Z.succ cs)) by lia. cbn [fmap list_fmap].
  unfold ModbusCodec.decode_bytes_to_tagvalue, ModbusCodec.next_u32.
  rewrite ModbusCodec.next_u16_cons by done.
  assert (ModbusCodec.next_u16 (ModbusCodec.registers_to_bytes []) = (0, (ModbusCodec.next_u16 []).2))
    as ->.
  { unfold ModbusCodec.next_u16. destruct (read_u16_eof [] ltac:(simpl; lia)) as (r & Hr & _).
    change (ModbusCodec.registers_to_bytes []) with (@nil Z). by rewrite Hr. }
  cbn [fst]. rewrite ModbusCodec.lor_words32 by done.
  unfold put. rewrite Hd. unfold TagValue.matches. cbn [TagValue.data_type].
  rewrite bool_decide_true by done. rewrite lookup_alter_eq, Hs. cbn. do 3 f_equal. lia.
Qed.
End mapping_properties.

(** ** Witnesses, on the reference environment *)

Section witnesses.
Import ModbusRef.
Local Existing Instances CratesRef.chrono_ref CratesRef.byteorder_ref CratesRef.json_ref
  modbus_io_ref.
Local Instance iter : HashIter ModbusFunction := hash_iter_ref ModbusFunction.

Definition speed : ModbusMapping :=
  ModbusMapping.new "speed" 100 2 ModbusFunction.HoldingRegisters TagDataType.Int32 0 true
    WordOrder.CDAB.
Definition level : ModbusMapping :=
  ModbusMapping.new "level" 102 1 ModbusFunction.HoldingRegisters TagDataType.UInt16 0 false
    WordOrder.BADC.
Definition valve : ModbusMapping :=
  ModbusMapping.new "valve" 7 1 ModbusFunction.Coils TagDataType.Bool 0 false WordOrder.ABCD.
Definition plant : ModbusConfig SocketAddr := ModbusConfig.new "plc" tt 9 100 [valve; level; speed].

Definition plant_mem (a : Z) : Z :=
  if a =? 100 then 65534 else if a =? 101 then 65535 else if a =? 102 then 1792 else 0.
Definition plant_world (mem : Z → Z) : World :=
  new (ref_registry (definition_of <$> [valve; level; speed])) (ref_env [] mem).
Definition plant_up (mem : Z → Z) (e : Env) : Prop :=
  queue e = [] ∧ plc e = mem ∧ link e = true ∧ reads e = Answer tt.

Lemma plant_reachable mem : reachable plant (plant_up mem) (λ _, mem).
Proof.
  split.
  - intros e (? & ? & ? & ?). by repeat split.
  - intros t ctx cs cq e (Hq & Hp & Hl & Hr). simpl. unfold ref_read, ref_bits. rewrite Hr, Hp.
    simpl. split_and!; do 2 eexists; (split; [reflexivity|by repeat split]).
  - intros e (Hq & Hp & Hl & Hr). simpl. rewrite Hl. do 2 eexists.
    split; [reflexivity|by repeat split].
  - intros e (Hq & Hp & Hl & Hr). simpl. unfold ref_recv. rewrite Hq. do 2 eexists.
    split; [reflexivity|]. split; [by left|by repeat split].
Qed.

Lemma plant_inv mem : inv (plant_world mem).
Proof. apply ref_registry_wf. vm_refl. Qed.
Lemma plant_up_env mem : plant_up mem (env (plant_world mem)).
Proof. by repeat split. Qed.
Lemma plant_fits : Forall ModbusPlan.fits (ModbusConfig.mappings plant).
Proof. repeat (apply Forall_cons; split; [unfold Ranges.fits; simpl; lia|]). constructor. Qed.
Lemma plant_valid : ModbusPlan.validate (ModbusConfig.mappings plant) = Ok tt.
Proof. vm_refl. Qed.
Lemma plant_ids : NoDup (ModbusMapping.tag_id <$> ModbusConfig.mappings plant).
Proof. apply (bool_decide_unpack _). by vm_compute. Qed.
Lemma plant_u16 :
  Forall (λ m, is_u16 (ModbusMapping.quantity m)) (ModbusConfig.mappings plant).
Proof. repeat (apply Forall_cons; split; [by vm_compute|]). constructor. Qed.
Lemma speed_in : speed ∈ ModbusConfig.mappings plant.
Proof. apply (bool_decide_unpack _). by vm_compute. Qed.
Lemma speed_group : in_one_request (ModbusConfig.mappings plant) speed.
Proof.
  unfold in_one_request.
  change (∀ g, g ∈ [ModbusPlan.mkGroup 100 3 [speed; level]] → speed ∈ ModbusPlan.members g →
    ModbusPlan.qty g ≤ ModbusPlan.MAX_REGISTERS).
  intros g ->%list_elem_of_singleton _. simpl. unfold ModbusPlan.MAX_REGISTERS. lia.
Qed.
Definition speed_definition : TagDefinition := definition_of speed.
Lemma speed_defined mem :
  TagRegistry.defs (registry (plant_world mem)) !! "speed"%string = Some speed_definition.
Proof. vm_refl. Qed.

(** One cycle, evaluated. *)
Example plant_cycle_log :
  log (run_read_cycle_impl plant 1 (plant_world plant_mem)).2 =
    [EvConnect true; EvRead ModbusFunction.HoldingRegisters 100 3; EvRead ModbusFunction.Coils 7 1].
Proof. vm_refl. Qed.
Example plant_cycle_level :
  shown (run_read_cycle_impl plant 1 (plant_world plant_mem)).2 !! "level"%string
  = Some (TagValue.UInt16 7, TagQuality.Good).
Proof. vm_refl. Qed.

Lemma modbus_cycle_reads_tag_witness :
  ∃ w', run_read_cycle_impl plant 1 (plant_world plant_mem) = (Ret tt, w') ∧ inv w' ∧
    shown w' !! "speed"%string = Some (TagValue.Int32 (-2), TagQuality.Good).
Proof.
  exact (modbus_cycle_reads_tag plant (plant_up plant_mem) (λ _, plant_mem) 1
    (plant_world plant_mem) speed speed_definition (TagValue.Int32 (-2))
    (plant_reachable plant_mem) (plant_inv _) (plant_up_env _) (Nat.le_refl 1)
    plant_fits plant_valid plant_ids speed_in (or_introl eq_refl) speed_group
    (speed_defined _) eq_refl eq_refl).
Defined.

Lemma plant_speed_wf : TagValue.wf (TagValue.Int32 (-2)).
Proof. simpl. int_ranges. lia. Qed.
Lemma modbus_cycle_shows_written_witness :
  ∃ w' v', run_read_cycle_impl plant 1 (plant_world (ref_store 100 [65534; 65535] (λ _, 0)))
             = (Ret tt, w') ∧
    shown w' !! "speed"%string = Some (v', TagQuality.Good) ∧
    ModbusCodec.read_back (TagValue.Int32 (-2)) v'.
Proof.
  set (mem := ref_store 100 [65534; 65535] (λ _, 0)).
  exact (modbus_cycle_shows_written plant (plant_up mem) (λ _, mem) 1
    (plant_world mem) speed speed_definition (TagValue.Int32 (-2)) [65535; 65534] [65534; 65535]
    (plant_reachable mem) (plant_inv _) (plant_up_env _) (Nat.le_refl 1)
    plant_fits plant_valid plant_ids speed_in speed_group eq_refl eq_refl
    (speed_defined _) eq_refl plant_speed_wf eq_refl eq_refl eq_refl eq_refl eq_refl).
Defined.

(** The requests are known from the evaluated cycle. *)
Lemma plant_requests w' (reqs : list (ModbusFunction * (Z * Z))) :
  run_read_cycle_impl plant 1 (plant_world plant_mem) = (Ret tt, w') →
  log w' = [EvConnect true] ++ ((λ r, EvRead r.1 r.2.1 r.2.2) <$> reqs) →
  (ModbusFunction.HoldingRegisters, (100, 3)) ∈ reqs.
Proof.
  intros Hrun Hlog. pose proof plant_cycle_log as H. rewrite Hrun in H. cbn [snd] in H.
  rewrite Hlog in H. destruct reqs as [|[f1 [a1 q1]] reqs]; [done|]. simpl in H.
  injection H as -> -> -> _. by left.
Qed.


(** The same plant, unplugged. *)
Definition unplugged : World :=
  set_env (mkRef [] (λ _, 0) false (Answer tt) (Answer tt) 0 : Env) (plant_world (λ _, 0)).
Definition unplugged_after : World := (run_read_cycle_impl plant 2 unplugged).2.
Lemma unplugged_pending : (run_read_cycle_impl plant 2 unplugged).1 = Pending.
Proof. vm_refl. Qed.

Lemma modbus_cycle_safe_witness :
  inv unplugged_after ∧
  ∃ l, log unplugged_after = [] ++ l ++ retry_events (backoffs plant 2 1).
Proof.
  destruct (modbus_cycle_safe plant 2 unplugged unplugged_after Pending plant_u16 (plant_inv _)
    (run_eq (run_read_cycle_impl plant 2) unplugged Pending unplugged_pending))
    as (_ & Hinv & Hwait).
  split; [exact Hinv|]. exact (Hwait eq_refl).
Defined.

Lemma modbus_read_error_witness :
  ∃ w', read_failed plant [speed; level] "Timeout" (plant_world plant_mem)
          = (Fail (Modbus "Timeout"), w') ∧
    client w' = None ∧ log w' = [] ∧
    shown w' = marks ["speed"%string; "level"%string] TagQuality.CommLost
                 (shown (plant_world plant_mem)).
Proof.
  exact (modbus_read_error plant [speed; level] "Timeout" (plant_world plant_mem) (plant_inv _)).
Defined.

(** A PLC whose connection was reset. *)
Definition reset_env : Env :=
  mkRef [] (λ _, 0) true (TransportError "Connection reset by peer") (Answer tt) 0.
Definition reset_world : World := set_client (Some 9 : option ClientContext)
  (set_env reset_env (plant_world (λ _, 0))).
Lemma reset_fails : fails plant (λ e, e = reset_env) "Transport: Connection reset by peer".
Proof. intros func ctx cs cq w _ He. exists ctx, reset_env. rewrite <- He at 2.
  split; [|done]. unfold read_chunk, emit, env_op, modify, mbind, M_bind. simpl.
  rewrite He. by destruct func.
Qed.

Lemma modbus_transport_error_ignored_witness :
  ∃ w', run_read_cycle_impl plant 1 reset_world = (Ret tt, w') ∧
    (∃ ctx', client w' = Some ctx') ∧ registry w' = registry reset_world.
Proof.
  apply (modbus_transport_error_ignored plant (λ e, e = reset_env)
    "Transport: Connection reset by peer" 1 9 reset_world plant_fits plant_valid reset_fails).
  - split; [reflexivity|]. split; [reflexivity|discriminate].
  - exists reset_env. by split.
  - exact (plant_inv (λ _, 0)).
  - reflexivity.
Defined.

(** Two neighbouring coils, both on. *)
Definition coil (id : string) (a : Z) : ModbusMapping :=
  ModbusMapping.new id a 1 ModbusFunction.Coils TagDataType.Bool 0 false WordOrder.ABCD.
Definition coil_shown : gmap string (TagValue * TagQuality) :=
  {["b"%string := (TagValue.Bool false, TagQuality.Initializing)]}.
Definition coil_defs : gmap string TagDefinition := {["b"%string := definition_of (coil "b" 8)]}.

Lemma modbus_coil_only_first_witness :
  read_requests [coil "a" 7; coil "b" 8] = [(ModbusFunction.Coils, (7, 2))] ∧
  apply_look (λ _ _, 1) coil_defs coil_shown (ModbusFunction.Coils, (7, 2), coil "b" 8)
  = mark "b" TagQuality.ConfigError coil_shown.
Proof.
  split; [vm_refl|].
  refine (modbus_coil_only_first (λ _ _, 1) coil_defs coil_shown ModbusFunction.Coils 7 2
    (coil "b" 8) (definition_of (coil "b" 8)) (or_introl eq_refl) _ _ _ _ eq_refl eq_refl eq_refl
    eq_refl eq_refl eq_refl); simpl; lia.
Defined.

(** A counter whose low register starts the second request of a long group. *)
Definition counter : ModbusMapping :=
  ModbusMapping.new "b" 124 2 ModbusFunction.HoldingRegisters TagDataType.UInt32 0 false
    WordOrder.ABCD.
Definition block : ModbusMapping :=
  ModbusMapping.new "a" 0 124 ModbusFunction.HoldingRegisters TagDataType.ByteString 0 false
    WordOrder.ABCD.
Definition counter_defs : gmap string TagDefinition := {["b"%string := definition_of counter]}.

Lemma modbus_straddling_value_witness :
  ModbusPlan.validate [block; counter] = Ok tt ∧
  read_requests [block; counter] =
    [(ModbusFunction.HoldingRegisters, (0, 125)); (ModbusFunction.HoldingRegisters, (125, 1))] ∧
  apply_look (λ _ _, 1) counter_defs coil_shown
    (ModbusFunction.HoldingRegisters, (125, 1), counter) !! "b"%string
  = Some (TagValue.UInt32 65536, TagQuality.Good).
Proof.
  split; [vm_refl|]. split; [vm_refl|].
  apply (modbus_straddling_value (λ _ _, 1) counter_defs coil_shown ModbusFunction.HoldingRegisters
    125 1 counter (definition_of counter) (or_introl eq_refl)); try reflexivity; try (simpl; lia);
    [by vm_compute|by eexists].
Defined.
End witnesses.
End ModbusReads.
