(* ===== verification/FinsTypes.v ===== *)
(** * FINS driver: mappings, configuration, requests, errors

    Models driver/fins/src/{mapping,config,write_request,errors}.rs.  A memory area
    is a [u8], a word address a [u32], kept as integers in their ranges. *)

From stdpp Require Import base tactics numbers list gmap strings.
From S2P Require Import Prelude RustStd RustStr Crates TagValue.
Local Open Scope Z_scope.

Module TagMapping.
(** How a tag maps to a FINS memory area and address. *)
Record TagMapping := mk {
  tag_id : string;
  area : Z;
  address : Z;
  bit_offset : Z;
  word_count : Z;
  writable : bool;
  byte_order : WordOrder;
  data_type : TagDataType;
}.
#[export] Instance TagMapping_eq_dec : EqDecision TagMapping.
Proof. solve_decision. Defined.

(** [default_word_count], [default_bit_offset] *)
Definition default_word_count : Z := 1.
Definition default_bit_offset : Z := 0.

(** [TagMapping::new] *)
Definition new (tag_id : string) (area address bit_offset word_count : Z) (writable : bool)
    (byte_order : WordOrder) (data_type : TagDataType) : TagMapping :=
  {| tag_id := tag_id; area := area; address := address; bit_offset := bit_offset;
     word_count := word_count; writable := writable; byte_order := byte_order;
     data_type := data_type |}.

(** What the field types guarantee. *)
Definition in_range (m : TagMapping) : Prop :=
  is_u8 (area m) ∧ is_u32 (address m) ∧ is_u8 (bit_offset m) ∧ is_u16 (word_count m).
End TagMapping.
Notation TagMapping := TagMapping.TagMapping.
#[export] Existing Instance TagMapping.TagMapping_eq_dec.

Module FinsConfig.
(** Configuration of a FINS/TCP driver instance. *)
Record FinsConfig {SocketAddr : Type} := mk {
  name : string;
  endpoint : SocketAddr;
  cycle_ms : Z;
  keepalive_secs : Z;
  max_backoff_secs : Z;
  mappings : list TagMapping;
  max_words_per_request : Z;
}.
Arguments FinsConfig : clear implicits.

Definition default_keepalive_secs : Z := 30.
Definition default_max_backoff_secs : Z := 30.
Definition default_max_fins_words : Z := 960.

(** [FinsConfig::new] *)
Definition new {SocketAddr} (name : string) (endpoint : SocketAddr) (cycle_ms : Z)
    (mappings : list TagMapping) : FinsConfig SocketAddr :=
  {| name := name; endpoint := endpoint; cycle_ms := cycle_ms;
     keepalive_secs := default_keepalive_secs; max_backoff_secs := default_max_backoff_secs;
     mappings := mappings; max_words_per_request := default_max_fins_words |}.
End FinsConfig.
Notation FinsConfig := FinsConfig.FinsConfig.

Module FinsError.
(** [DriverError] of the FINS crate; an [io::Error] is its message. *)
Inductive DriverError :=
| Io (msg : string)
| Timeout
| Protocol (msg : string)
| Mapping (msg : string)
| Other (msg : string).
#[export] Instance DriverError_eq_dec : EqDecision DriverError.
Proof. solve_decision. Defined.

(** The [Display] of the errors. *)
Definition to_string (e : DriverError) : string :=
  match e with
  | Io s => "IO error: " +:+ s
  | Timeout => "Timeout"
  | Protocol s => "Protocol error: " +:+ s
  | Mapping s => "Mapping error: " +:+ s
  | Other s => "Other: " +:+ s
  end.

(** The convenience constructors. *)
Definition protocol (s : string) : DriverError := Protocol s.
Definition mapping (s : string) : DriverError := Mapping s.
Definition other (s : string) : DriverError := Other s.
End FinsError.

Module FinsWriteRequest.
Section defs.
Context {C : Chrono}.
(** [WriteRequest] of the FINS crate: a queued write with an optional reply channel. *)
Record FinsWriteRequest := mk {
  tag_id : string;
  value : TagValue;
  reply : option nat;
}.

(** [WriteRequest::new], [with_reply], [take_reply] *)
Definition new (tag_id : string) (value : TagValue) : FinsWriteRequest :=
  {| tag_id := tag_id; value := value; reply := None |}.
Definition with_reply (r : FinsWriteRequest) (tx : nat) : FinsWriteRequest :=
  {| tag_id := tag_id r; value := value r; reply := Some tx |}.
Definition take_reply (r : FinsWriteRequest) : option nat * FinsWriteRequest :=
  (reply r, {| tag_id := tag_id r; value := value r; reply := None |}).
End defs.
Arguments FinsWriteRequest : clear implicits.
Arguments FinsWriteRequest {_}.
End FinsWriteRequest.
Notation FinsWriteRequest := FinsWriteRequest.FinsWriteRequest.
