(* ===== verification/FinsCodec.v ===== *)
(** * FINS driver: frames and tag values

    Models the pure parts of driver/fins/src/driver.rs: the FINS/TCP frames the
    driver builds and parses, the words of a tag value, and the decoding of
    [decode_fixed] and [decode_and_update_tag]. *)

From stdpp Require Import base tactics numbers list gmap strings.
From S2P Require Import Prelude RustStd RustStr Crates CratesRef TagValue ModbusTypes ModbusCodec FinsTypes.
Local Open Scope Z_scope.

Module FinsFrame.
Import FinsError.
Section defs.
Context {BY : Bytes} {B : ByteOrder}.

(** [FinsDriver::wrap_fins_tcp]: the magic, the length of the payload, the payload. *)
Definition wrap_fins_tcp (payload : list Z) : list Z :=
  let buf := put_slice [] (as_bytes "FINS") in
  let buf := put_u32 buf (as_u32 (Z.of_nat (length payload))) in
  put_slice buf payload.

(** [FinsDriver::build_fins_frame] *)
Definition build_fins_frame (sid : Z) (command : Z * Z) (params : list Z) : list Z :=
  let v := [128] ++ [0] ++ [2] in
  let v := v ++ [0; 0; 0; 0; 0; 0] in
  v ++ [sid] ++ [command.1] ++ [command.2] ++ params.

(** [((address >> s) & 0xFF) as u8] *)
Definition address_byte (address s : Z) : Z := as_u8 (Z.land (Z.shiftr address s) 255).

(** [FinsDriver::build_memory_read] *)
Definition build_memory_read (area address bit_offset word_count : Z) : list Z :=
  let p := [area; address_byte address 16; address_byte address 8; address_byte address 0;
            bit_offset] in
  write_u16 p word_count.

(** [FinsDriver::build_memory_write] *)
Definition build_memory_write (area address bit_offset : Z) (words : list Z) : list Z :=
  let p := [area; address_byte address 16; address_byte address 8; address_byte address 0;
            bit_offset] in
  let p := write_u16 p (as_u16 (Z.of_nat (length words))) in
  foldl write_u16 p words.

(** [FinsDriver::parse_fins_response]: session id, end code and data.  The indices
    are in range after the length test. *)
Definition parse_fins_response (frame : list Z) : result (Z * Z * list Z) DriverError :=
  if (length frame <? 14)%nat then Err (Protocol "Frame too short")
  else
    let sid := frame !!! 9%nat in
    let end_code := be_value [frame !!! 12%nat; frame !!! 13%nat] in
    let data := drop 14 frame in
    Ok (sid, end_code, data).

(** The commands of the driver. *)
Definition cmd_memory_read : Z * Z := (1, 1).
Definition cmd_memory_write : Z * Z := (1, 2).

(** The eight-byte header of a response: [read_u32] of its last four bytes, as the
    number of payload bytes to read. *)
Definition header_len (header : list Z) : Z :=
  default 0 (read_u32 (take 4 (drop 4 header))).1.

(** ** What the frames contain *)

Lemma wrap_fins_tcp_eq payload :
  Z.of_nat (length payload) < 2 ^ 32 →
  wrap_fins_tcp payload =
    [70; 73; 78; 83]
    ++ ModbusCodec.registers_to_bytes [word_at (Z.of_nat (length payload)) 16;
                                       word_at (Z.of_nat (length payload)) 0]
    ++ payload.
Proof.
  intros Hl. unfold wrap_fins_tcp. rewrite !put_slice_ok, put_u32_ok.
  rewrite as_u32_id by (int_ranges; lia). done.
Qed.

(** The header a driver reads from a wrapped payload announces its length. *)
Lemma header_len_wrap payload :
  Z.of_nat (length payload) < 2 ^ 32 →
  header_len (take 8 (wrap_fins_tcp payload)) = Z.of_nat (length payload) ∧
  drop 8 (wrap_fins_tcp payload) = payload.
Proof.
  intros Hl. rewrite wrap_fins_tcp_eq by done. unfold header_len.
  set (n := Z.of_nat (length payload)) in *.
  rewrite !ModbusCodec.registers_to_bytes_cons. simpl. rewrite read_u32_ok. simpl.
  split; [|by rewrite drop_0].
  pose proof (words32 n ltac:(unfold is_u32; lia)) as Hw.
  pose proof (hi_lo_byte (word_at n 16) (word_at_range _ _)).
  pose proof (hi_lo_byte (word_at n 0) (word_at_range _ _)).
  unfold be_value. simpl. lia.
Qed.

Lemma be_value_address a :
  0 ≤ a →
  be_value [address_byte a 16; address_byte a 8; address_byte a 0] = a mod 2 ^ 24.
Proof.
  intros Ha. unfold address_byte, as_u8, be_value. simpl.
  change 255 with (Z.ones 8). rewrite !Z.land_ones, !Z.shiftr_div_pow2 by done.
  change (2 ^ 8) with 256. change (2 ^ 16) with 65536. change (2 ^ 24) with 16777216.
  change (2 ^ 0) with 1. rewrite Z.div_1_r. Z.to_euclidean_division_equations. lia.
Qed.

Lemma foldl_write_u16 words p :
  foldl write_u16 p words = p ++ ModbusCodec.registers_to_bytes words.
Proof.
  revert p. induction words as [|w words IH]; intros p; simpl.
  { by rewrite app_nil_r. }
  rewrite IH, write_u16_ok, ModbusCodec.registers_to_bytes_cons. by rewrite <- (assoc_L (++)).
Qed.

(** A parsed frame is nine bytes of addressing, the session id, two bytes of command,
    the end code and the data. *)
Lemma parse_fins_response_app hd sid c0 c1 e0 e1 data :
  length hd = 9%nat →
  parse_fins_response (hd ++ [sid; c0; c1; e0; e1] ++ data) = Ok (sid, e0 * 256 + e1, data).
Proof.
  intros Hl. do 9 (destruct hd as [|? hd]; [done|]). destruct hd; [|done]. reflexivity.
Qed.

Lemma parse_fins_response_ok frame sid e data :
  parse_fins_response frame = Ok (sid, e, data) →
  ∃ hd c0 c1 e0 e1, length hd = 9%nat ∧ e = e0 * 256 + e1 ∧
    frame = hd ++ [sid; c0; c1; e0; e1] ++ data.
Proof.
  unfold parse_fins_response. destruct (Nat.ltb_spec (length frame) 14) as [|Hl]; [done|].
  do 14 (destruct frame as [|? frame]; [simpl in Hl; lia|]). simpl. rewrite drop_0.
  intros [= <- <- <-].
  eexists [_; _; _; _; _; _; _; _; _], _, _, _, _. split; [done|]. split; [|reflexivity]. done.
Qed.
End defs.
End FinsFrame.

(** ** The wire

    The frames of the driver as the bytes of the protocol, most significant first; this is
    what the builders are held against, not how they work. *)
Module FinsWire.

Definition be2 (n : Z) : list Z := [n / 256 mod 256; n mod 256].
Definition be3 (n : Z) : list Z := [n / 65536 mod 256; n / 256 mod 256; n mod 256].
Definition be4 (n : Z) : list Z :=
  [n / 16777216 mod 256; n / 65536 mod 256; n / 256 mod 256; n mod 256].
Definition words (ws : list Z) : list Z := concat (be2 <$> ws).

(** "FINS", the length of the body, the body. *)
Definition tcp (body : list Z) : list Z := [70; 73; 78; 83] ++ be4 (Z.of_nat (length body)) ++ body.

(** A command for the memory: information and gateway bytes, a zero network, node and
    unit at both ends, the session id, the code, and where. *)
Definition command (sid code area address bit count : Z) : list Z :=
  [128; 0; 2; 0; 0; 0; 0; 0; 0; sid; 1; code; area] ++ be3 address ++ [bit] ++ be2 count.
Definition read_request (sid area address bit count : Z) : list Z :=
  tcp (command sid 1 area address bit count).
Definition write_request (sid area address bit : Z) (ws : list Z) : list Z :=
  tcp (command sid 2 area address bit (Z.of_nat (length ws)) ++ words ws).

(** An answer: nine bytes of addressing, the session id, the command, the end code, data. *)
Definition answer (addressing : list Z) (sid c0 c1 e0 e1 : Z) (data : list Z) : list Z :=
  addressing ++ [sid; c0; c1; e0; e1] ++ data.

Section builders.
Context {BY : Bytes} {B : ByteOrder}.

Lemma be2_word w : is_u16 w → [hi_byte w; lo_byte w] = be2 w.
Proof.
  intros Hw. unfold be2. rewrite hi_byte_div, lo_byte_mod by done.
  unfold is_u16 in Hw. change (2 ^ 16) with 65536 in Hw. rewrite (Z.mod_small (w / 256)); [done|].
  split; [apply Z.div_pos; lia|apply Z.div_lt_upper_bound; lia].
Qed.
Lemma be3_address a :
  [FinsFrame.address_byte a 16; FinsFrame.address_byte a 8; FinsFrame.address_byte a 0] = be3 a.
Proof.
  unfold FinsFrame.address_byte, as_u8, be3. change 255 with (Z.ones 8).
  rewrite !Z.land_ones, !Z.shiftr_div_pow2 by done.
  change (2 ^ 8) with 256. change (2 ^ 16) with 65536. change (2 ^ 0) with 1.
  by rewrite Z.div_1_r, !Z.mod_mod.
Qed.
Lemma be4_length n :
  0 ≤ n < 2 ^ 32 → ModbusCodec.registers_to_bytes [word_at n 16; word_at n 0] = be4 n.
Proof.
  intros Hn. rewrite !ModbusCodec.registers_to_bytes_cons. unfold ModbusCodec.registers_to_bytes, be4.
  simpl. unfold hi_byte, lo_byte, word_at, as_u8, as_u16. change 255 with (Z.ones 8).
  change 65535 with (Z.ones 16). rewrite !Z.land_ones, !Z.shiftr_div_pow2 by done.
  change (2 ^ 8) with 256. change (2 ^ 16) with 65536. change (2 ^ 0) with 1.
  change (2 ^ 32) with 4294967296 in Hn.
  match goal with |- [?a; ?b; ?c; ?d] = [?a'; ?b'; ?c'; ?d'] =>
    cut (a = a' ∧ b = b' ∧ c = c' ∧ d = d'); [by intros (-> & -> & -> & ->)|] end.
  split_and!; Z.to_euclidean_division_equations; lia.
Qed.
Lemma words_bytes ws : Forall is_u16 ws → ModbusCodec.registers_to_bytes ws = words ws.
Proof.
  induction 1 as [|w ws Hw Hws IH]; [done|]. rewrite ModbusCodec.registers_to_bytes_cons, IH.
  change (words (w :: ws)) with (be2 w ++ words ws). by rewrite <- be2_word.
Qed.
Lemma words_length ws : length (words ws) = (2 * length ws)%nat.
Proof. induction ws as [|w ws IH]; [done|]. change (words (w :: ws)) with (be2 w ++ words ws). rewrite length_app, IH. simpl. lia. Qed.

Lemma wrap_tcp payload :
  Z.of_nat (length payload) < 2 ^ 32 → FinsFrame.wrap_fins_tcp payload = tcp payload.
Proof.
  intros Hl. rewrite FinsFrame.wrap_fins_tcp_eq by done.
  rewrite (be4_length (Z.of_nat (length payload))) by lia. done.
Qed.

Lemma build_read sid area address bit count :
  is_u16 count →
  FinsFrame.wrap_fins_tcp (FinsFrame.build_fins_frame sid FinsFrame.cmd_memory_read
    (FinsFrame.build_memory_read area address bit count))
  = read_request sid area address bit count.
Proof.
  intros Hc. rewrite wrap_tcp.
  - unfold read_request, command, FinsFrame.build_fins_frame, FinsFrame.build_memory_read.
    rewrite write_u16_ok, be2_word, <- be3_address by done. done.
  - unfold FinsFrame.build_fins_frame, FinsFrame.build_memory_read. rewrite write_u16_ok. simpl. lia.
Qed.
Lemma build_write sid area address bit ws :
  Z.of_nat (length ws) < 2 ^ 16 → Forall is_u16 ws →
  FinsFrame.wrap_fins_tcp (FinsFrame.build_fins_frame sid FinsFrame.cmd_memory_write
    (FinsFrame.build_memory_write area address bit ws))
  = write_request sid area address bit ws.
Proof.
  intros Hl Hws. assert (is_u16 (Z.of_nat (length ws))) as Hu by (unfold is_u16; lia).
  assert (FinsFrame.build_fins_frame sid FinsFrame.cmd_memory_write
    (FinsFrame.build_memory_write area address bit ws)
    = command sid 2 area address bit (Z.of_nat (length ws)) ++ words ws) as Hf.
  { unfold command, FinsFrame.build_fins_frame, FinsFrame.build_memory_write.
    rewrite FinsFrame.foldl_write_u16, write_u16_ok, as_u16_id, be2_word, words_bytes by done.
    rewrite <- be3_address. by rewrite <- !(assoc_L (++)). }
  rewrite Hf. apply wrap_tcp. rewrite length_app, words_length. simpl length. pow2_numerals. lia.
Qed.

(** The length in the header of an answer. *)
Lemma header_len_tcp magic n :
  length magic = 4%nat → 0 ≤ n < 2 ^ 32 → FinsFrame.header_len (magic ++ be4 n) = n.
Proof.
  intros Hm Hn. do 4 (destruct magic as [|? magic]; [done|]). destruct magic; [|done].
  unfold FinsFrame.header_len, be4. simpl. rewrite read_u32_ok. simpl. unfold be_value. simpl.
  change (2 ^ 32) with 4294967296 in Hn. Z.to_euclidean_division_equations. lia.
Qed.
End builders.
End FinsWire.

Module FinsCodec.
Import FinsError.
Section defs.
Context {C : Chrono} {B : ByteOrder}.

(** [FinsDriver::u64_to_words], [u32_to_words] *)
Definition u64_to_words (v : Z) : list Z :=
  [word_at v 48; word_at v 32; word_at v 16; word_at v 0].
Definition u32_to_words (v : Z) : list Z := [word_at v 16; word_at v 0].

(** [while let Ok(w) = read_u16(&mut rdr) { words.push(w) }]: the loop ends since each
    iteration consumes two bytes; the length of the buffer is fuel enough. *)
Fixpoint drain_words (fuel : nat) (rdr : list Z) : list Z :=
  match fuel with
  | O => []
  | S fuel =>
      match read_u16 rdr with
      | (Some w, rdr) => w :: drain_words fuel rdr
      | (None, _) => []
      end
  end.

(** [FinsDriver::bytes_to_words] *)
Definition bytes_to_words (bytes : list Z) : list Z :=
  let b := if (length bytes mod 2 =? 0)%nat then bytes else bytes ++ [0] in
  drain_words (length b) b.

(** [FinsDriver::tagvalue_to_words_standard] *)
Definition tagvalue_to_words_standard (v : TagValue) : result (list Z) DriverError :=
  match v with
  | TagValue.Bool b => Ok [if b then 1 else 0]
  | TagValue.UInt16 x => Ok [x]
  | TagValue.Int16 x => Ok [as_u16 x]
  | TagValue.UInt32 x => Ok (u32_to_words x)
  | TagValue.Int32 x => Ok (u32_to_words (as_u32 x))
  | TagValue.Float f => Ok (u32_to_words f)
  | TagValue.Double d => Ok (u64_to_words d)
  | TagValue.UInt64 x => Ok (u64_to_words x)
  | TagValue.Int64 x => Ok (u64_to_words (as_u64 x))
  | TagValue.DateTime dt => Ok (u64_to_words (as_u64 (timestamp_millis dt)))
  | TagValue.ByteString b => Ok (bytes_to_words b)
  | TagValue.String s => Ok (bytes_to_words (as_bytes s))
  end.

(** [for w in &words { bytes.push((w >> 8) as u8); bytes.push((w & 0xFF) as u8) }] *)
Definition words_to_bytes (words : list Z) : list Z :=
  foldl (λ bytes w, (bytes ++ [hi_byte w]) ++ [lo_byte w]) [] words.

(** Lines 567-586: byte order of the mapping; the outer [None] is a panic, the inner
    one the branch "Ordered bytes length not even". *)
Definition order_words (words : list Z) (order : WordOrder) : option (option (list Z)) :=
  ordered ← DriverCommon.apply_byte_order (words_to_bytes words) order;
  if (length ordered mod 2 =? 0)%nat
  then Some (Some (drain_words (length ordered) ordered))
  else Some None.

(** [FinsDriver::decode_fixed], up to the update of the tag.  The text of a failed
    read is that of [read_exact] at the end of its input. *)
Definition decode_fixed (data_bytes : list Z) (size : nat) (type_name : string)
    (read : list Z → option Z * list Z) (into_value : Z → TagValue)
    : result TagValue DriverError :=
  if (length data_bytes <? size)%nat then
    Err (Protocol ("Not enough data for " +:+ type_name))
  else
    match (read (take size data_bytes)).1 with
    | Some v => Ok (into_value v)
    | None => Err (Protocol ("Failed to decode " +:+ type_name +:+ ": failed to fill whole buffer"))
    end.

(** The match of [decode_and_update_tag], up to the update of the tag; [None] is the
    panic of the conversion of an instant [chrono] cannot represent. *)
Definition decode (data_type : TagDataType) (bit_offset : Z) (data_bytes : list Z)
    : option (result TagValue DriverError) :=
  match data_type with
  | TagDataType.Bool =>
      Some (if (length data_bytes <? 2)%nat then Err (Protocol "Not enough data for Bool")
            else
              let word := default 0 (read_u16 (take 2 data_bytes)).1 in
              Ok (TagValue.Bool (negb (Z.land (Z.shiftr word (bit_offset mod 16)) 1 =? 0))))
  | TagDataType.UInt16 => Some (decode_fixed data_bytes 2 "UInt16" read_u16 TagValue.UInt16)
  | TagDataType.Int16 => Some (decode_fixed data_bytes 2 "Int16" read_i16 TagValue.Int16)
  | TagDataType.UInt32 => Some (decode_fixed data_bytes 4 "UInt32" read_u32 TagValue.UInt32)
  | TagDataType.Int32 => Some (decode_fixed data_bytes 4 "Int32" read_i32 TagValue.Int32)
  | TagDataType.Float => Some (decode_fixed data_bytes 4 "Float" read_u32 TagValue.Float)
  | TagDataType.Double => Some (decode_fixed data_bytes 8 "Double" read_u64 TagValue.Double)
  | TagDataType.UInt64 => Some (decode_fixed data_bytes 8 "UInt64" read_u64 TagValue.UInt64)
  | TagDataType.Int64 => Some (decode_fixed data_bytes 8 "Int64" read_i64 TagValue.Int64)
  | TagDataType.DateTime =>
      if (8 <=? length data_bytes)%nat then
        let ms := default 0 (read_u64 (take 8 data_bytes)).1 in
        dt ← from_system_millis ms;
        Some (Ok (TagValue.DateTime dt))
      else
        Some match from_utf8 data_bytes with
             | Some st =>
                 match parse_from_rfc3339 st with
                 | Some dt => Ok (TagValue.DateTime dt)
                 | None => Err (Protocol "Invalid DateTime format")
                 end
             | None => Err (Protocol "Not enough data for DateTime")
             end
  | TagDataType.ByteString => Some (Ok (TagValue.ByteString data_bytes))
  | TagDataType.String =>
      Some (Ok (TagValue.String
        match from_utf8 data_bytes with
        | Some st => string_of_bytes (trim_end_nul (as_bytes st))
        | None => hex_upper data_bytes
        end))
  end.

(** Byte order, then decoding. *)
Definition decode_slice (data_type : TagDataType) (order : WordOrder) (bit_offset : Z)
    (slice : list Z) : option (result TagValue DriverError) :=
  data_bytes ← DriverCommon.apply_byte_order slice order;
  decode data_type bit_offset data_bytes.

(** ** The same words as the Modbus driver *)

Lemma words_to_bytes_eq words : words_to_bytes words = ModbusCodec.registers_to_bytes words.
Proof.
  assert (∀ acc, foldl (λ bytes w, (bytes ++ [hi_byte w]) ++ [lo_byte w]) acc words
                 = acc ++ ModbusCodec.registers_to_bytes words) as Hacc.
  { induction words as [|w words IH]; intros acc; simpl; [by rewrite app_nil_r|].
    rewrite IH, ModbusCodec.registers_to_bytes_cons. by rewrite <- !(assoc_L (++)). }
  apply (Hacc []).
Qed.

Lemma drain_words_eq fuel rdr : drain_words fuel rdr = ModbusCodec.read_words fuel rdr.
Proof.
  revert rdr. induction fuel as [|fuel IH]; intros rdr; simpl; [done|].
  destruct (read_u16 rdr) as [[w|] rdr']; [by rewrite IH|done].
Qed.

Lemma order_words_eq words order : order_words words order = ModbusCodec.order_words words order.
Proof.
  unfold order_words, ModbusCodec.order_words. rewrite words_to_bytes_eq.
  unfold DriverCommon.apply_byte_order. rewrite WordOrder.apply_to_bytes_spec. cbn [mbind option_bind].
  by rewrite drain_words_eq.
Qed.

(** Reading a padded buffer word by word gives what the Modbus driver gets by cutting
    it in pairs. *)
Lemma chunks_to_regs_drain l fuel :
  is_bytes l → Nat.Even (length l) → (length l ≤ fuel)%nat →
  ModbusCodec.chunks_to_regs l = Some (drain_words fuel l).
Proof.
  revert fuel. induction l as [|a|a b l IH] using list_two_ind; intros fuel Hb He Hf.
  - by rewrite drain_words_eq, ModbusCodec.read_words_short by (simpl; lia).
  - destruct He as [k Hk]. simpl in Hk. lia.
  - destruct fuel as [|fuel]; simpl in Hf; [lia|].
    apply Forall_cons in Hb as [Ha Hb]. apply Forall_cons in Hb as [Hb Hl].
    simpl. rewrite read_u16_ok, (IH fuel); [|done| |lia].
    + simpl. do 2 f_equal. rewrite as_u16_id; [by rewrite lor_shiftl|].
      rewrite Z.shiftl_mul_pow2 by done. int_ranges. lia.
    + destruct He as [k Hk]. exists (k - 1)%nat. simpl in Hk. lia.
Qed.

Lemma bytes_to_words_eq b :
  is_bytes b → ModbusCodec.chunks_to_regs (ModbusCodec.pad_even b) = Some (bytes_to_words b).
Proof.
  intros Hb. apply chunks_to_regs_drain;
    [by apply ModbusCodec.pad_even_bytes|apply ModbusCodec.pad_even_even|done].
Qed.

Lemma encode_agree v :
  TagValue.wf v →
  ∃ words, tagvalue_to_words_standard v = Ok words ∧
           ModbusCodec.tagvalue_to_registers v = Some (Ok words).
Proof.
  destruct v; intros Hwf; try (by eexists).
  - exists (bytes_to_words (as_bytes s)). split; [done|]. simpl.
    by rewrite bytes_to_words_eq by auto with bridge.
  - exists (bytes_to_words b). split; [done|]. simpl. by rewrite bytes_to_words_eq.
Qed.

(** ** The same decoding, given enough data *)

(** The bytes a value of the type takes. *)
Definition size_of (dt : TagDataType) : nat :=
  match dt with
  | TagDataType.Bool | TagDataType.Int16 | TagDataType.UInt16 => 2
  | TagDataType.Int32 | TagDataType.UInt32 | TagDataType.Float => 4
  | TagDataType.Int64 | TagDataType.UInt64 | TagDataType.Double | TagDataType.DateTime => 8
  | TagDataType.String | TagDataType.ByteString => 0
  end.

Lemma next_u32_be a b c d l :
  is_bytes [a; b; c; d] → (ModbusCodec.next_u32 (a :: b :: c :: d :: l)).1 = be_value [a; b; c; d].
Proof.
  intros Hb. inv_bytes. unfold ModbusCodec.next_u32, ModbusCodec.next_u16. rewrite !read_u16_ok.
  simpl. rewrite ModbusCodec.lor_words32 by (by apply make_word_range).
  unfold be_value. simpl. lia.
Qed.

Lemma next_u64_be a b c d e f g h l :
  is_bytes [a; b; c; d; e; f; g; h] →
  (ModbusCodec.next_u64 (a :: b :: c :: d :: e :: f :: g :: h :: l)).1
  = be_value [a; b; c; d; e; f; g; h].
Proof.
  intros Hb. inv_bytes. unfold ModbusCodec.next_u64, ModbusCodec.next_u16. rewrite !read_u16_ok.
  simpl. rewrite ModbusCodec.lor_words64 by (by apply make_word_range).
  unfold be_value. simpl. lia.
Qed.

(** Name the bytes of a buffer that is known to have some. *)
Ltac split_buffer l Hl := repeat (destruct l as [|? l]; [simpl in Hl; lia|]).

Lemma decode_agree dt bit bytes :
  dt ≠ TagDataType.DateTime → is_bytes bytes → (size_of dt ≤ length bytes)%nat →
  ∃ v, ModbusCodec.decode_bytes_to_tagvalue dt bytes bit = Ok v ∧
       decode dt bit bytes = Some (Ok v).
Proof.
  intros Hdt Hb Hl. destruct dt; try done; eexists; (split; [reflexivity|]);
    unfold decode, decode_fixed, size_of in *;
    try (rewrite (proj2 (Nat.ltb_ge _ _)) by done); try reflexivity;
    split_buffer bytes Hl; simpl; unfold ModbusCodec.next_u16; inv_bytes;
    rewrite ?next_u32_be, ?next_u64_be by (by repeat (assumption || constructor));
    rewrite ?read_u16_ok, ?read_i16_ok, ?read_u32_ok, ?read_i32_ok, ?read_u64_ok, ?read_i64_ok; done.
Qed.

Lemma decode_datetime_value ms rest bit :
  is_u64 ms →
  decode TagDataType.DateTime bit
    (ModbusCodec.registers_to_bytes (ModbusCodec.words_of_u64 ms ++ rest))
  = (dt ← from_system_millis ms; Some (Ok (TagValue.DateTime dt))).
Proof.
  intros Hms. unfold decode.
  rewrite (proj2 (Nat.leb_le _ _))
    by (rewrite ModbusCodec.registers_to_bytes_length, length_app; simpl; lia).
  rewrite ModbusCodec.registers_to_bytes_app, take_app_le by done.
  rewrite take_ge by (by rewrite ModbusCodec.registers_to_bytes_length).
  pose proof (ModbusCodec.be_value_words64 ms Hms) as Hv. unfold ModbusCodec.words_of_u64 in *.
  rewrite !ModbusCodec.registers_to_bytes_cons in *.
  change (ModbusCodec.registers_to_bytes []) with (@nil Z) in *.
  rewrite read_u64_ok. unfold fst, default, from_option. by rewrite Hv.
Qed.

(** Only an instant can panic. *)
Lemma decode_none dt bit bytes : decode dt bit bytes = None → dt = TagDataType.DateTime.
Proof. by destruct dt. Qed.

(** What is left of short data, and of bytes that are not text. *)
Lemma decode_short dt bit bytes :
  dt ≠ TagDataType.DateTime → (length bytes < size_of dt)%nat →
  ∃ e, decode dt bit bytes = Some (Err (Protocol e)).
Proof.
  intros Hdt Hl. destruct dt; try done; unfold decode, decode_fixed, size_of in *; try lia;
    rewrite (proj2 (Nat.ltb_lt _ _)) by done; eauto.
Qed.

(** The Modbus driver decodes whatever it gets, but for the text of an instant. *)
Lemma modbus_decodes dt bit bytes :
  dt ≠ TagDataType.DateTime →
  ∃ v, Some (ModbusCodec.decode_bytes_to_tagvalue dt bytes bit) = Some (Ok v).
Proof. intros Hdt. destruct dt; try done; by eexists. Qed.

(** Instants, as the count of milliseconds since 1970, without or with a sign. *)
Lemma be_value_range l : is_bytes l → 0 ≤ be_value l < 256 ^ Z.of_nat (length l).
Proof.
  intros Hb. unfold be_value.
  assert (∀ acc, 0 ≤ acc → acc * 256 ^ Z.of_nat (length l) ≤ fold_left (λ acc b, acc * 256 + b) l acc
    < (acc + 1) * 256 ^ Z.of_nat (length l)) as H.
  { induction Hb as [|b l Hb Hl IH]; intros acc Hacc; [simpl; lia|]. simpl fold_left.
    unfold is_u8 in Hb. change (2 ^ 8) with 256 in Hb. specialize (IH (acc * 256 + b) ltac:(lia)).
    change (length (b :: l)) with (S (length l)). rewrite Nat2Z.inj_succ, Z.pow_succ_r by lia.
    pose proof (Z.pow_pos_nonneg 256 (Z.of_nat (length l)) ltac:(lia) ltac:(lia)). nia. }
  specialize (H 0 ltac:(lia)). lia.
Qed.

Lemma decode_instant bit bytes :
  is_bytes bytes → (8 ≤ length bytes)%nat →
  let n := be_value (take 8 bytes) in
  let fins := decode TagDataType.DateTime bit bytes in
  let modbus := Some (ModbusCodec.decode_bytes_to_tagvalue TagDataType.DateTime bytes bit) in
  ∀ t,
    (n < 2 ^ 63 → from_timestamp_millis n = Some t →
       fins = Some (Ok (TagValue.DateTime t)) ∧ modbus = Some (Ok (TagValue.DateTime t))) ∧
    (2 ^ 63 ≤ n → from_timestamp_millis (n - 2 ^ 64) = Some t →
       fins = None ∧ modbus = Some (Ok (TagValue.DateTime t))).
Proof.
  intros Hb Hl n fins modbus t.
  assert (0 ≤ n < 2 ^ 64) as Hn.
  { pose proof (be_value_range (take 8 bytes) ltac:(by apply Forall_take)) as H.
    rewrite length_take, Nat.min_l in H by done. exact H. }
  assert (fins = (dt ← from_system_millis n; Some (Ok (TagValue.DateTime dt))) ∧
    modbus = Some (Ok (TagValue.DateTime (default unix_epoch (from_timestamp_millis (as_i64 n))))))
    as [-> ->].
  { unfold fins, modbus, n, decode, ModbusCodec.decode_bytes_to_tagvalue.
    rewrite (proj2 (Nat.leb_le _ _)) by done. split_buffer bytes Hl. simpl take.
    by rewrite read_u64_ok, read_i64_ok. }
  unfold as_i64, as_signed. rewrite (Z.mod_small n) by done. split; intros Hr Ht.
  - rewrite (from_system_millis_of n t) by (done || lia).
    rewrite (proj2 (Z.ltb_lt _ _)) by done. by rewrite Ht.
  - rewrite from_system_millis_large by done. rewrite (proj2 (Z.ltb_ge _ _)) by done. by rewrite Ht.
Qed.

Lemma decode_instant_text bit bytes :
  (length bytes < 8)%nat →
  let fins := decode TagDataType.DateTime bit bytes in
  let modbus := Some (ModbusCodec.decode_bytes_to_tagvalue TagDataType.DateTime bytes bit) in
  (∃ t, fins = Some (Ok (TagValue.DateTime t)) ∧ modbus = Some (Ok (TagValue.DateTime t))) ∨
  (∃ e e', fins = Some (Err e) ∧ modbus = Some (Err e')).
Proof.
  intros Hl. cbv zeta. unfold decode, ModbusCodec.decode_bytes_to_tagvalue.
  rewrite (proj2 (Nat.leb_gt _ _)) by done. destruct (from_utf8 bytes); [|right; eauto].
  destruct (parse_from_rfc3339 _); [left|right]; eauto.
Qed.

(** The decoded value is one of the declared type; only short data and instants out of
    [chrono]'s range do not decode. *)
Lemma decode_spec dt bit bytes :
  is_bytes bytes →
  match decode dt bit bytes with
  | Some (Ok v) => TagValue.data_type v = dt ∧ TagValue.wf v
  | Some (Err _) => (length bytes < size_of dt)%nat
  | None => dt = TagDataType.DateTime ∧ (8 <= length bytes)%nat ∧
      ∃ ms, (read_u64 (take 8 bytes)).1 = Some ms ∧ from_system_millis ms = None
  end.
Proof.
  intros Hb. destruct (decide (dt = TagDataType.DateTime)) as [->|Hdt].
  - unfold decode. destruct (Nat.leb_spec 8 (length bytes)) as [Hl|Hl].
    + split_buffer bytes Hl. simpl. rewrite read_u64_ok. simpl.
      destruct (from_system_millis _) as [dt|] eqn:Hdt; [done|]. simpl.
      split; [done|]. split; [lia|]. eauto.
    + repeat case_match; simplify_eq; done.
  - destruct (decide (size_of dt ≤ length bytes)%nat) as [Hl|Hl].
    + destruct (decode_agree dt bit bytes Hdt Hb Hl) as (v & Hv & ->).
      by eapply ModbusCodec.decode_typed.
    + destruct (decode_short dt bit bytes Hdt) as (e & ->); lia.
Qed.
End defs.

(** ** Properties *)

Section properties.
Context {C : Chrono} {BY : Bytes} {B : ByteOrder}.

(** C40: the frames, byte by byte: a memory read and a memory write are the FINS/TCP
    header with the length of what follows, the FINS header with the session id, the
    command, the area, the low 24 bits of the address (a higher address is silently
    reduced), the bit offset, the number of words and, for a write, the words, most
    significant byte first.  Of an answer the driver takes the length from the last four
    bytes of its header, and parsing accepts exactly the frames of at least 14 bytes and
    takes the session id, the end code and the data from their places. *)
Theorem fins_frames (sid area address bit : Z) :
  (∀ count, is_u16 count →
     FinsFrame.wrap_fins_tcp (FinsFrame.build_fins_frame sid FinsFrame.cmd_memory_read
       (FinsFrame.build_memory_read area address bit count))
     = FinsWire.read_request sid area address bit count) ∧
  (∀ words, Z.of_nat (length words) < 2 ^ 16 → Forall is_u16 words →
     FinsFrame.wrap_fins_tcp (FinsFrame.build_fins_frame sid FinsFrame.cmd_memory_write
       (FinsFrame.build_memory_write area address bit words))
     = FinsWire.write_request sid area address bit words) ∧
  (∀ magic n, length magic = 4%nat → 0 ≤ n < 2 ^ 32 →
     FinsFrame.header_len (magic ++ FinsWire.be4 n) = n) ∧
  ∀ response s e data,
    FinsFrame.parse_fins_response response = Ok (s, e, data) ↔
    ∃ hd c0 c1 e0 e1, length hd = 9%nat ∧ e = e0 * 256 + e1 ∧
      response = FinsWire.answer hd s c0 c1 e0 e1 data.
Proof.
  split; [intros count; apply FinsWire.build_read|]. split; [intros ws; apply FinsWire.build_write|].
  split; [intros magic n; apply FinsWire.header_len_tcp|].
  intros. split; [apply FinsFrame.parse_fins_response_ok|].
  intros (hd & c0 & c1 & e0 & e1 & Hl & -> & ->). by apply FinsFrame.parse_fins_response_app.
Qed.


(** Decoding the words of a value. *)
Lemma decode_words v words :
  TagValue.wf v → (∀ dt, v = TagValue.DateTime dt → 0 ≤ timestamp_millis dt) →
  tagvalue_to_words_standard v = Ok words →
  ∃ v', decode (TagValue.data_type v) 0 (ModbusCodec.registers_to_bytes words) = Some (Ok v') ∧
    ModbusCodec.read_back v v'.
Proof.
  intros Hv Hdate Hw. destruct (encode_agree v Hv) as (words1 & Hw1 & Hm).
  rewrite Hw in Hw1. injection Hw1 as <-.
  destruct (decide (TagValue.data_type v = TagDataType.DateTime)) as [Hty|Hty].
  - destruct v as [| | | | | | | | | |dt|]; try done. specialize (Hdate dt eq_refl).
    injection Hw as <-.
    pose proof (timestamp_millis_i64 dt). pose proof (decode_datetime_value
      (as_u64 (timestamp_millis dt)) [] 0 (as_u64_range _)) as Hd.
    rewrite app_nil_r in Hd. simpl TagValue.data_type. unfold u64_to_words.
    unfold ModbusCodec.words_of_u64 in Hd. rewrite Hd.
    destruct (from_timestamp_millis_of dt) as (dt' & Hdt' & Hms).
    rewrite as_u64_id by (int_ranges; lia). rewrite (from_system_millis_of _ dt') by done.
    exists (TagValue.DateTime dt'). split; [done|]. by exists dt'.
  - destruct (ModbusCodec.decode_encode v Hv) as (words' & v' & Hw' & _ & Hd & Hr).
    rewrite Hm in Hw'. injection Hw' as <-. exists v'. split; [|done].
    destruct (decode_agree (TagValue.data_type v) 0 (ModbusCodec.registers_to_bytes words))
      as (v2 & Hv2 & ->); [done|apply ModbusCodec.registers_to_bytes_bytes| |congruence].
    rewrite ModbusCodec.registers_to_bytes_length.
    destruct v; injection Hw as <-; simpl; lia.
Qed.

(** Decoding what was sent for a value. *)
Lemma decode_sent v order words sent :
  TagValue.wf v → (∀ dt, v = TagValue.DateTime dt → 0 ≤ timestamp_millis dt) →
  tagvalue_to_words_standard v = Ok words → order_words words order = Some (Some sent) →
  ∃ v', decode_slice (TagValue.data_type v) order 0 (ModbusCodec.registers_to_bytes sent)
      = Some (Ok v') ∧ ModbusCodec.read_back v v'.
Proof.
  intros Hv Hdate Hw Ho. destruct (decode_words v words Hv Hdate Hw) as (v' & Hd & Hr).
  exists v'. split; [|done]. destruct (ModbusCodec.order_words_spec words order) as (sent' & Ho' & Hs & _).
  rewrite order_words_eq, Ho' in Ho. injection Ho as <-.
  unfold decode_slice, DriverCommon.apply_byte_order.
  rewrite WordOrder.apply_to_bytes_spec. cbn [mbind option_bind].
  by rewrite Hs, WordOrder.order_spec_involutive.
Qed.

(** Writing a value and reading the same words back gives the value again, for
    each word order, as long as an instant is not before 1970. *)
Theorem fins_write_read_back (v : TagValue) (order : WordOrder) :
  TagValue.wf v → (∀ dt, v = TagValue.DateTime dt → 0 ≤ timestamp_millis dt) →
  ∃ words sent v',
    tagvalue_to_words_standard v = Ok words ∧ order_words words order = Some (Some sent) ∧
    Forall is_u16 sent ∧ length sent = length words ∧
    decode_slice (TagValue.data_type v) order 0 (ModbusCodec.registers_to_bytes sent)
      = Some (Ok v') ∧
    ModbusCodec.read_back v v'.
Proof.
  intros Hv Hdate. destruct (encode_agree v Hv) as (words & Hw & _).
  destruct (ModbusCodec.order_words_spec words order) as (sent & Ho & _ & Hl & Hu).
  rewrite <- order_words_eq in Ho.
  destruct (decode_sent v order words sent Hv Hdate Hw Ho) as (v' & Hd & Hr).
  exists words, sent, v'. by split_and!.
Qed.

(** Decoding is type-sound: whatever the bytes of a mapping, the driver shows a
    value of the declared type that fits its machine width, or reports that the data
    is shorter than the type, or, for an instant of at least eight bytes whose
    millisecond count [chrono] cannot represent, panics. *)
Theorem fins_decode_typed (dt : TagDataType) (order : WordOrder) (bit : Z) (bytes : list Z) :
  is_bytes bytes →
  match decode_slice dt order bit bytes with
  | Some (Ok v) => TagValue.data_type v = dt ∧ TagValue.wf v
  | Some (Err _) => (length bytes < size_of dt)%nat
  | None => dt = TagDataType.DateTime ∧ (8 <= length bytes)%nat ∧
      ∃ ms, (read_u64 (take 8 (WordOrder.order_spec order bytes))).1 = Some ms ∧
            from_system_millis ms = None
  end.
Proof.
  intros Hb. unfold decode_slice, DriverCommon.apply_byte_order.
  rewrite WordOrder.apply_to_bytes_spec. cbn [mbind option_bind].
  pose proof (decode_spec dt bit (WordOrder.order_spec order bytes)
                ltac:(auto with bridge)) as Hd.
  by rewrite WordOrder.order_spec_length in Hd.
Qed.

(** An instant before 1970 is written as the two's complement of its negative
    millisecond count, which the read path takes for an unsigned count far beyond the
    calendar: reading the tag back panics, where the Modbus driver reads the instant
    correctly. *)
Theorem fins_datetime_before_epoch_panics (dt : DateTimeUtc) (order : WordOrder) :
  timestamp_millis dt < 0 →
  ∃ words sent,
    tagvalue_to_words_standard (TagValue.DateTime dt) = Ok words ∧
    order_words words order = Some (Some sent) ∧
    decode_slice TagDataType.DateTime order 0 (ModbusCodec.registers_to_bytes sent) = None ∧
    ∃ dt', ModbusCodec.decode_slice TagDataType.DateTime order 0
             (ModbusCodec.registers_to_bytes sent) = Some (Ok (TagValue.DateTime dt')) ∧
           timestamp_millis dt' = timestamp_millis dt.
Proof.
  intros Hneg. set (words := u64_to_words (as_u64 (timestamp_millis dt))).
  destruct (ModbusCodec.order_words_spec words order) as (sent & Ho & Hs & _).
  exists words, sent. split; [done|]. rewrite order_words_eq. split; [done|].
  unfold decode_slice, ModbusCodec.decode_slice, DriverCommon.apply_byte_order.
  rewrite WordOrder.apply_to_bytes_spec. cbn [mbind option_bind].
  rewrite Hs, WordOrder.order_spec_involutive. split.
  - pose proof (decode_datetime_value (as_u64 (timestamp_millis dt)) [] 0 (as_u64_range _)) as Hd.
    rewrite app_nil_r in Hd. unfold words, u64_to_words. unfold ModbusCodec.words_of_u64 in Hd.
    rewrite Hd, from_system_millis_large; [done|].
    pose proof (timestamp_millis_i64 dt). unfold as_u64. int_ranges.
    assert (timestamp_millis dt mod 18446744073709551616
            = timestamp_millis dt + 18446744073709551616) as ->; [|lia].
    symmetry. apply Z.mod_unique with (-1); lia.
  - destruct (ModbusCodec.decode_datetime dt) as (dt' & Hd & Hms). exists dt'.
    unfold ModbusCodec.words_of_u64 in Hd. unfold words, u64_to_words. by rewrite Hd.
Qed.
End properties.

Section witnesses.
Local Existing Instances CratesRef.chrono_ref CratesRef.byteorder_ref CratesRef.bytes_ref.

(** The frame of a concrete write, and a response to it. *)
Definition write_params : list Z := FinsFrame.build_memory_write 130 100 0 [4660; 22136].
Definition write_frame : list Z :=
  FinsFrame.build_fins_frame 5 FinsFrame.cmd_memory_write write_params.

Example wrapped_write :
  FinsFrame.wrap_fins_tcp write_frame =
    [70; 73; 78; 83; 0; 0; 0; 23; 128; 0; 2; 0; 0; 0; 0; 0; 0; 5; 1; 2; 130; 0; 0; 100; 0; 0; 2;
     18; 52; 86; 120].
Proof. reflexivity. Qed.
Example parsed_response :
  FinsFrame.parse_fins_response [192; 0; 2; 0; 0; 0; 0; 0; 0; 5; 1; 1; 0; 0; 18; 52]
  = Ok (5, 0, [18; 52]).
Proof. reflexivity. Qed.

Lemma fins_frames_witness :
  FinsFrame.wrap_fins_tcp (FinsFrame.build_fins_frame 5 FinsFrame.cmd_memory_read
    (FinsFrame.build_memory_read 130 66051 0 258)) =
    [70; 73; 78; 83; 0; 0; 0; 19; 128; 0; 2; 0; 0; 0; 0; 0; 0; 5; 1; 1; 130; 1; 2; 3; 0; 1; 2] ∧
  FinsFrame.wrap_fins_tcp write_frame = FinsWire.write_request 5 130 100 0 [4660; 22136] ∧
  FinsFrame.header_len ([70; 73; 78; 83] ++ FinsWire.be4 23) = 23.
Proof.
  split; [|split].
  - exact (proj1 (fins_frames 5 130 66051 0) 258 ltac:(unfold is_u16; lia)).
  - exact (proj1 (proj2 (fins_frames 5 130 100 0)) [4660; 22136] ltac:(simpl; lia)
      ltac:(repeat constructor; lia)).
  - exact (proj1 (proj2 (proj2 (fins_frames 5 130 100 0))) [70; 73; 78; 83] 23 eq_refl ltac:(lia)).
Defined.

Lemma low_bytes : is_bytes [254; 255; 255; 255].
Proof. repeat (apply Forall_cons_2; [by vm_compute|]). apply Forall_nil_2. Qed.
Lemma high_bytes : is_bytes [255; 255; 255; 255; 255; 255; 255; 255].
Proof. repeat (apply Forall_cons_2; [by vm_compute|]). apply Forall_nil_2. Qed.


Lemma fins_write_read_back_witness :
  ∃ words sent v',
    tagvalue_to_words_standard (TagValue.Int64 (-3)) = Ok words ∧
    order_words words WordOrder.CDAB = Some (Some sent) ∧
    Forall is_u16 sent ∧ length sent = length words ∧
    decode_slice TagDataType.Int64 WordOrder.CDAB 0 (ModbusCodec.registers_to_bytes sent)
      = Some (Ok v') ∧ v' = TagValue.Int64 (-3).
Proof.
  apply (fins_write_read_back (TagValue.Int64 (-3)) WordOrder.CDAB); [|discriminate].
  simpl. int_ranges. lia.
Defined.

Lemma fins_decode_typed_witness :
  ∃ v, decode_slice TagDataType.UInt16 WordOrder.BADC 0 [52; 18] = Some (Ok v) ∧
    TagValue.data_type v = TagDataType.UInt16 ∧ TagValue.wf v.
Proof.
  exists (TagValue.UInt16 4660). split; [reflexivity|].
  exact (fins_decode_typed TagDataType.UInt16 WordOrder.BADC 0 [52; 18]
    ltac:(repeat constructor; lia)).
Defined.

Lemma fins_datetime_before_epoch_panics_witness :
  ∃ words sent,
    tagvalue_to_words_standard (TagValue.DateTime (C := CratesRef.chrono_ref) (-5000000))
      = Ok words ∧
    order_words words WordOrder.ABCD = Some (Some sent) ∧
    decode_slice TagDataType.DateTime WordOrder.ABCD 0 (ModbusCodec.registers_to_bytes sent)
      = None ∧
    ∃ dt', ModbusCodec.decode_slice TagDataType.DateTime WordOrder.ABCD 0
             (ModbusCodec.registers_to_bytes sent) = Some (Ok (TagValue.DateTime dt')) ∧
           timestamp_millis dt' = timestamp_millis (Chrono := CratesRef.chrono_ref) (-5000000).
Proof.
  apply (fins_datetime_before_epoch_panics (C := CratesRef.chrono_ref) (-5000000)).
  reflexivity.
Defined.
End witnesses.
End FinsCodec.
