(* ===== verification/FinsPlan.v ===== *)
(** * FINS driver: validation and the read groups

    Models the pure parts of driver/fins/src/driver.rs that decide what is read: the
    precomputation of the read groups in [FinsDriver::new], with its loops over
    indices and its split into chunks, and [validate].  [u32] arithmetic wraps as in
    the release profile. *)

From stdpp Require Import base tactics numbers list gmap strings sorting.
From S2P Require Import Prelude Effects RustStd RustStr RustSlice RustMap Ranges Crates CratesRef TagValue ModbusTypes ModbusPlan FinsTypes.
Local Open Scope Z_scope.

Module FinsPlan.
Import FinsError.

(** [by_area.entry(m.area).or_default().push(m.clone())] *)
Definition by_area (mappings : list TagMapping) : gmap Z (list TagMapping) :=
  group_by TagMapping.area mappings.

(** ** The read groups of [FinsDriver::new] *)

(** [ReadGroup]: one request and the mappings that may look at its answer. *)
Record ReadGroup := mkReadGroup {
  area : Z;
  start_address : Z;
  word_count : Z;
  mappings : list TagMapping;
}.

(** [m.address + (m.word_count as u32) - 1] *)
Definition end_address (m : TagMapping) : Z :=
  u32_sub (u32_add (TagMapping.address m) (TagMapping.word_count m)) 1.

(** [while j < maps.len()]: the end of the group, the mappings it takes, the others. *)
Fixpoint grow (end_addr : Z) (maps : list TagMapping) : Z * list TagMapping * list TagMapping :=
  match maps with
  | [] => (end_addr, [], [])
  | next :: rest =>
      if TagMapping.address next <=? u32_add end_addr 1 then
        let candidate_end := end_address next in
        let end_addr := if end_addr <? candidate_end then candidate_end else end_addr in
        let '(end_addr, taken, others) := grow end_addr rest in
        (end_addr, next :: taken, others)
      else (end_addr, [], maps)
  end.

(** A contiguous range and its mappings. *)
Record Group := mkGroup { start : Z; total_words : Z; members : list TagMapping }.

(** [while i < maps.len()]: each turn takes at least one mapping. *)
Fixpoint build_groups (fuel : nat) (maps : list TagMapping) : list Group :=
  match fuel, maps with
  | S fuel, m :: rest =>
      let start_addr := TagMapping.address m in
      let '(end_addr, taken, others) := grow (end_address m) rest in
      let group_mappings := m :: taken in
      {| start := start_addr; total_words := u32_add (u32_sub end_addr start_addr) 1;
         members := group_mappings |} :: build_groups fuel others
  | _, _ => []
  end.

(** [std::cmp::min(remaining, max_fins_words) as u16] *)
Definition chunk_words (remaining max_fins_words : Z) : Z := as_u16 (Z.min remaining max_fins_words).

(** [while remaining > 0]: the chunks of a range; [None] when the loop has not ended
    within the fuel. *)
Fixpoint split_chunks (fuel : nat) (chunk_start remaining max_fins_words : Z)
    : option (list (Z * Z)) :=
  if 0 <? remaining then
    match fuel with
    | O => None
    | S fuel =>
        let chunk_words := chunk_words remaining max_fins_words in
        let advance := chunk_words in
        rest ← split_chunks fuel (u32_add chunk_start advance)
                 (u32_saturating_sub remaining advance) max_fins_words;
        Some ((chunk_start, chunk_words) :: rest)
    end
  else Some [].

(** The [ReadGroup] of a chunk: it carries all the mappings of its group. *)
Definition request_of (area : Z) (g : Group) (c : Z * Z) : ReadGroup :=
  {| area := area; start_address := c.1; word_count := c.2; mappings := members g |}.

Definition requests_of (area : Z) (g : Group) (chunks : list (Z * Z)) : list ReadGroup :=
  request_of area g <$> chunks.

(** The requests of one group. *)
Definition group_requests (area max_fins_words : Z) (fuel : nat) (g : Group)
    : option (list ReadGroup) :=
  requests_of area g <$> split_chunks fuel (start g) (total_words g) max_fins_words.

(** The requests of one area. *)
Definition area_requests (max_fins_words : Z) (fuel : nat) (am : Z * list TagMapping)
    : option (list ReadGroup) :=
  let maps := sort_by_key TagMapping.address am.2 in
  (@concat ReadGroup) <$>
    mapM (group_requests am.1 max_fins_words fuel) (build_groups (length maps) maps).

(** The [read_groups] of [FinsDriver::new]; [None] when it does not end within [fuel]
    chunks per group. *)
Definition read_groups (max_fins_words : Z) (mappings : list TagMapping) (fuel : nat)
    : option (list ReadGroup) :=
  (@concat ReadGroup) <$> mapM (area_requests max_fins_words fuel) (btree_iter (by_area mappings)).

(** ** [validate] *)

(** The checks on one mapping, in the order of the code. *)
Definition check_mapping (m : TagMapping) : result unit DriverError :=
  let id := TagMapping.tag_id m in
  let err s := Err (FinsError.mapping ("Mapping " +:+ ModbusPlan.quote id +:+ s)) in
  if TagMapping.word_count m =? 0 then err " has zero word_count"
  else if 16 <=? TagMapping.bit_offset m then
    err (" has invalid bit_offset " +:+ fmt_dec (TagMapping.bit_offset m)
         +:+ " (must be 0..15)")
  else
    let? _ :=
      match TagMapping.data_type m with
      | TagDataType.Float | TagDataType.Int32 | TagDataType.UInt32 =>
          if TagMapping.word_count m <? 2
          then err " data_type requires word_count >= 2" else Ok tt
      | TagDataType.Double =>
          if TagMapping.word_count m <? 4
          then err " data_type 'Double' requires word_count >= 4" else Ok tt
      | _ => Ok tt
      end in
    if bool_decide (TagMapping.byte_order m = WordOrder.CDAB
                    ∨ TagMapping.byte_order m = WordOrder.DCBA)
       && (TagMapping.word_count m <? 2)
    then err (" uses byte_order " +:+ ModbusPlan.word_order_debug (TagMapping.byte_order m)
              +:+ " which requires word_count >= 2")
    else Ok tt.

Fixpoint check_mappings (ms : list TagMapping) : result unit DriverError :=
  match ms with
  | [] => Ok tt
  | m :: ms => let? _ := check_mapping m in check_mappings ms
  end.

(** [m.address.saturating_add(m.word_count as u32).saturating_sub(1)] *)
Definition saturating_end (m : TagMapping) : Z :=
  u32_saturating_sub (u32_saturating_add (TagMapping.address m) (TagMapping.word_count m)) 1.

Definition overlap_error (area : Z) (cur next : TagMapping) : DriverError :=
  let range m :=
    ModbusPlan.quote (TagMapping.tag_id m) +:+ "[" +:+ fmt_dec (TagMapping.address m) +:+ ".."
    +:+ fmt_dec (saturating_end m) +:+ "]" in
  FinsError.mapping ("Overlapping FINS ranges for area 0x" +:+ fmt_02X area
                     +:+ ": " +:+ range cur +:+ " overlaps " +:+ range next).

(** [for w in 0..vecm.len().saturating_sub(1)]: neighbours in address order. *)
Fixpoint check_neighbours (area : Z) (vecm : list TagMapping) : result unit DriverError :=
  match vecm with
  | cur :: (next :: _) as rest =>
      if TagMapping.address next <=? saturating_end cur
      then Err (overlap_error area cur next)
      else check_neighbours area rest
  | _ => Ok tt
  end.

Fixpoint check_areas (groups : list (Z * list TagMapping)) : result unit DriverError :=
  match groups with
  | [] => Ok tt
  | (area, vecm) :: groups =>
      let? _ := check_neighbours area (sort_by_key TagMapping.address vecm) in
      check_areas groups
  end.

(** [FinsDriver::validate] *)
Definition validate `{!HashIter Z} (mappings : list TagMapping) : result unit DriverError :=
  let? _ := check_mappings mappings in check_areas (hash_iter (by_area mappings)).

(** ** The part of a mapping that a request covers *)

Inductive extraction :=
| Outside
| Short
| Slice (bytes : list Z).

(** Whether a mapping meets a request: [!(map_end < chunk_start || map_start > chunk_end)]. *)
Definition overlaps (g : ReadGroup) (m : TagMapping) : bool :=
  let chunk_start := start_address g in
  let chunk_end := u32_sub (u32_add (start_address g) (word_count g)) 1 in
  negb ((end_address m <? chunk_start) || (chunk_end <? TagMapping.address m)).

(** Lines 858-879: the slice of a mapping in a payload. *)
Definition extract (g : ReadGroup) (payload : list Z) (m : TagMapping) : extraction :=
  let chunk_start := start_address g in
  let chunk_end := u32_sub (u32_add (start_address g) (word_count g)) 1 in
  let map_start := TagMapping.address m in
  let map_end := end_address m in
  if (map_end <? chunk_start) || (chunk_end <? map_start) then Outside
  else
    let overlap_start := Z.max map_start chunk_start in
    let overlap_end := Z.min map_end chunk_end in
    let offset_words := overlap_start - chunk_start in
    let len_words := overlap_end - overlap_start + 1 in
    let off_bytes := Z.to_nat (offset_words * 2) in
    let len_bytes := Z.to_nat (len_words * 2) in
    if (length payload <? off_bytes + len_bytes)%nat then Short
    else Slice (take len_bytes (drop off_bytes payload)).

(** ** Validation *)

(** The words a mapping occupies; [fits]: below the last address, where saturating and
    wrapping arithmetic are exact. *)
Notation occupies := (Ranges.occupies TagMapping.address TagMapping.word_count).
Notation disjoint := (Ranges.disjoint TagMapping.address TagMapping.word_count).
Notation fits := (Ranges.fits TagMapping.address TagMapping.word_count 4294967295).
Notation tiles := (Ranges.tiles TagMapping.address TagMapping.word_count).

(** The requirements on one mapping, as a predicate. *)
Definition mapping_valid (m : TagMapping) : bool :=
  negb (TagMapping.word_count m =? 0) && (TagMapping.bit_offset m <? 16)
  && match TagMapping.data_type m with
     | TagDataType.Float | TagDataType.Int32 | TagDataType.UInt32 => 2 <=? TagMapping.word_count m
     | TagDataType.Double => 4 <=? TagMapping.word_count m
     | _ => true
     end
  && (bool_decide (TagMapping.byte_order m = WordOrder.ABCD
                   ∨ TagMapping.byte_order m = WordOrder.BADC)
      || (2 <=? TagMapping.word_count m)).

Lemma fins_check_mapping_valid m : is_ok (check_mapping m) = mapping_valid m.
Proof.
  unfold check_mapping, mapping_valid. rewrite !Z.leb_antisym.
  destruct (TagMapping.word_count m =? 0); [done|].
  destruct (TagMapping.bit_offset m <? 16); [|done].
  destruct (TagMapping.word_count m <? 2), (TagMapping.word_count m <? 4),
    (TagMapping.data_type m), (TagMapping.byte_order m); reflexivity.
Qed.

Lemma fins_check_mappings_ok ms :
  check_mappings ms = Ok tt ↔ Forall (λ m, mapping_valid m = true) ms.
Proof.
  induction ms as [|m ms IH]; simpl; [done|].
  rewrite Forall_cons, <- IH, <- fins_check_mapping_valid.
  destruct (check_mapping m) as [[]|]; simpl; naive_solver.
Qed.

Lemma fins_saturating_end_fits m :
  fits m → saturating_end m = TagMapping.address m + TagMapping.word_count m - 1.
Proof.
  intros (? & ? & ?). unfold saturating_end, u32_saturating_sub, u32_saturating_add.
  int_ranges. lia.
Qed.

Lemma fins_check_neighbours_apart area l :
  Forall fits l →
  check_neighbours area l = Ok tt ↔ Ranges.apart TagMapping.address TagMapping.word_count l.
Proof.
  induction 1 as [|cur rest Hc Hf IH]; [done|]. destruct rest as [|next rest]; [done|].
  change (check_neighbours area (cur :: next :: rest)) with
    (if TagMapping.address next <=? saturating_end cur
     then Err (overlap_error area cur next) else check_neighbours area (next :: rest)).
  change (Ranges.apart TagMapping.address TagMapping.word_count (cur :: next :: rest)) with
    (TagMapping.address cur + TagMapping.word_count cur ≤ TagMapping.address next ∧
     Ranges.apart TagMapping.address TagMapping.word_count (next :: rest)).
  rewrite fins_saturating_end_fits, <- IH by done.
  destruct (Z.leb_spec (TagMapping.address next)
    (TagMapping.address cur + TagMapping.word_count cur - 1)).
  - split; [done|]. lia.
  - split; [intros ?; split; [lia|done]|by intros [_ ?]].
Qed.

Lemma area_sorted_fits ms a :
  Forall fits ms →
  Forall fits (sort_by_key TagMapping.address (filter (λ m, TagMapping.area m = a) ms)).
Proof.
  intros Hf. rewrite sort_by_key_perm. apply Forall_forall. intros m [_ Hm]%list_elem_of_filter.
  by eapply Forall_forall in Hf.
Qed.

Section validate.
Context `{!HashIter Z}.

Lemma check_areas_ok gs :
  check_areas gs = Ok tt ↔
  Forall (λ am, check_neighbours am.1 (sort_by_key TagMapping.address am.2) = Ok tt) gs.
Proof.
  induction gs as [|[a g] gs IH]; simpl; [done|]. rewrite Forall_cons, <- IH. simpl.
  destruct (check_neighbours _ _) as [[]|]; naive_solver.
Qed.

Lemma fins_check_overlaps_ok ms :
  Forall fits ms →
  check_areas (hash_iter (by_area ms)) = Ok tt ↔
  ∀ a, pairwise disjoint (sort_by_key TagMapping.address
                            (filter (λ m, TagMapping.area m = a) ms)).
Proof.
  intros Hf. rewrite check_areas_ok, Forall_forall.
  assert (∀ a, check_neighbours a (sort_by_key TagMapping.address
      (filter (λ m, TagMapping.area m = a) ms)) = Ok tt ↔
    pairwise disjoint (sort_by_key TagMapping.address
      (filter (λ m, TagMapping.area m = a) ms))) as Harea.
  { intros a. rewrite fins_check_neighbours_apart by by apply area_sorted_fits.
    rewrite (Ranges.apart_pairwise _ _ 4294967295); [done|by apply area_sorted_fits|].
    apply sort_by_key_sorted. }
  split.
  - intros Hall a. apply Harea.
    destruct (decide (filter (λ m, TagMapping.area m = a) ms = [])) as [->|Hne]; [done|].
    apply (Hall (a, filter (λ m, TagMapping.area m = a) ms)). by apply hash_iter_group_by.
  - intros Hall [a g] [-> _]%hash_iter_group_by. simpl. by apply Harea.
Qed.

(** What validation gives to the read plan. *)
Lemma validate_disjoint ms a :
  Forall fits ms → validate ms = Ok tt →
  pairwise disjoint (sort_by_key TagMapping.address (filter (λ m, TagMapping.area m = a) ms)).
Proof.
  intros Hf Hv. unfold validate in Hv. destruct (check_mappings ms); [|done].
  by apply fins_check_overlaps_ok.
Qed.
End validate.

(** ** Groups *)

Notation group_tiles := (Ranges.group_tiles TagMapping.address TagMapping.word_count 4294967295
                           start total_words members).
Notation grouped := (Ranges.grouped TagMapping.address TagMapping.word_count 4294967295
                       start total_words members).

Lemma u32_small z : 0 ≤ z ≤ 4294967295 → as_u32 z = z.
Proof. intros. apply as_u32_id. int_ranges. lia. Qed.

Lemma end_address_fits m :
  fits m → end_address m = TagMapping.address m + TagMapping.word_count m - 1.
Proof.
  intros (? & ? & ?). unfold end_address, u32_sub, u32_add. by rewrite !u32_small by (rewrite ?u32_small; lia).
Qed.

(** The inner loop takes the longest run of mappings that continue the range. *)
Lemma grow_spec e l :
  0 ≤ e → e + 1 ≤ 4294967295 → Forall fits l → pairwise disjoint l →
  StronglySorted (λ a b, TagMapping.address a ≤ TagMapping.address b) l →
  Forall (λ m, e + 1 ≤ TagMapping.address m) l →
  ∃ e' taken others, grow e l = (e', taken, others) ∧ l = taken ++ others ∧
    e ≤ e' ∧ e' + 1 ≤ 4294967295 ∧ tiles (e + 1) taken (e' + 1) ∧
    Forall (λ m, e' + 1 < TagMapping.address m) others.
Proof.
  revert e. induction l as [|m l IH]; intros e He Ht Hf Hd Hs Hle; simpl.
  { exists e, [], []. repeat split; try done; lia. }
  apply Forall_cons in Hf as [Hm Hf]. destruct Hd as [Hdm Hd].
  apply StronglySorted_cons in Hs as [Hms Hs]. apply Forall_cons in Hle as [Hem Hle].
  unfold u32_add. rewrite u32_small by lia.
  destruct (Z.leb_spec (TagMapping.address m) (e + 1)) as [Hc|Hc].
  - rewrite end_address_fits by done. pose proof Hm as (Hm0 & Hm1 & Hm2).
    rewrite (proj2 (Z.ltb_lt _ _)) by lia.
    destruct (IH (TagMapping.address m + TagMapping.word_count m - 1))
      as (e' & taken & others & -> & -> & Hee & Hte & Htl & Ho); [lia|lia|done..| |].
    { rewrite Forall_forall in *. intros x Hx. specialize (Hdm x Hx). specialize (Hf x Hx).
      specialize (Hms x Hx). unfold Ranges.disjoint, Ranges.fits in *. simpl in *. lia. }
    exists e', (m :: taken), others. repeat split; try done; try lia.
    by replace (e + 1 + TagMapping.word_count m)
      with (TagMapping.address m + TagMapping.word_count m - 1 + 1) by lia.
  - exists e, [], (m :: l). repeat split; try done; try lia.
    constructor; [lia|]. eapply Forall_impl; [exact Hms|]. simpl. intros. lia.
Qed.

Lemma fins_build_groups_spec fuel l :
  (length l ≤ fuel)%nat → Forall fits l → pairwise disjoint l →
  StronglySorted (λ a b, TagMapping.address a ≤ TagMapping.address b) l →
  grouped l (build_groups fuel l).
Proof.
  revert l. induction fuel as [|fuel IH]; intros [|m l] Hl Hf Hd Hs; simpl in Hl; try lia;
    try (by constructor; simpl; constructor).
  apply Forall_cons in Hf as [Hm Hf]. destruct Hd as [Hdm Hd].
  apply StronglySorted_cons in Hs as [Hms Hs]. pose proof Hm as (Hm0 & Hm1 & Hm2).
  simpl. rewrite end_address_fits by done.
  destruct (grow_spec (TagMapping.address m + TagMapping.word_count m - 1) l)
    as (e & taken & others & -> & -> & Hee & Hte & Htl & Ho); [lia|lia|done..| |].
  { rewrite Forall_forall in *. intros x Hx. specialize (Hdm x Hx). specialize (Hf x Hx).
    specialize (Hms x Hx). unfold Ranges.disjoint, Ranges.fits in *. simpl in *. lia. }
  apply pairwise_StronglySorted, StronglySorted_app_1_r in Hd.
  apply StronglySorted_app_1_r in Hs.
  apply Forall_app in Hf as [Hft Hfo]. rewrite length_app in Hl.
  destruct (IH others) as [Hmem Htile Hgap]; [lia|done| |done|].
  { by apply pairwise_StronglySorted. }
  unfold u32_add, u32_sub. rewrite !u32_small by (rewrite ?u32_small; lia).
  constructor.
  - change (m :: taken ++ concat (members <$> build_groups fuel others) = m :: taken ++ others).
    by rewrite Hmem.
  - constructor; [|done]. unfold Ranges.group_tiles. simpl.
    repeat split; try done; try lia.
    replace (TagMapping.address m + TagMapping.word_count m)
      with (TagMapping.address m + TagMapping.word_count m - 1 + 1) by lia.
    by replace (TagMapping.address m + (e - TagMapping.address m + 1)) with (e + 1) by lia.
  - constructor; [done|]. simpl. apply Forall_forall. intros g Hg.
    rewrite Forall_forall in Htile. destruct (Htile g Hg) as (Hne & _ & _ & _ & Htg).
    destruct (members g) as [|x ms] eqn:Hx; [done|]. destruct Htg as [<- _].
    rewrite Forall_forall in Ho. specialize (Ho x).
    enough (x ∈ others) as Hxo by (specialize (Ho Hxo); lia).
    rewrite <- Hmem. apply elem_of_concat. exists (members g). rewrite Hx.
    split; [by left|]. rewrite <- Hx. by apply list_elem_of_fmap_2.
Qed.

(** ** Chunks *)

Lemma chunk_words_min rem max :
  0 ≤ rem → 1 ≤ max ≤ 65535 → chunk_words rem max = Z.min rem max.
Proof. intros. unfold chunk_words. apply as_u16_id. int_ranges. lia. Qed.

Lemma split_chunks_spec fuel a rem max :
  0 ≤ a → 0 ≤ rem → a + rem ≤ 4294967295 → 1 ≤ max ≤ 65535 → (Z.to_nat rem ≤ fuel)%nat →
  ∃ cs, split_chunks fuel a rem max = Some cs ∧ chain a cs (a + rem) ∧
    Forall (λ c, 1 ≤ c.2 ≤ max ∧ a ≤ c.1 ∧ c.1 + c.2 ≤ a + rem) cs ∧
    Z.of_nat (length cs) = (rem + max - 1) / max.
Proof.
  revert a rem. induction fuel as [|fuel IH]; intros a rem Ha Hr Hb Hm Hf.
  { assert (rem = 0) as -> by lia. exists []. simpl. rewrite Z.div_small by lia.
    repeat split; try done; lia. }
  simpl. destruct (Z.ltb_spec 0 rem) as [Hrem|Hrem].
  2: { assert (rem = 0) as -> by lia. exists []. simpl. rewrite Z.div_small by lia.
       repeat split; try done; lia. }
  rewrite chunk_words_min by lia. unfold u32_add, u32_saturating_sub.
  rewrite u32_small by lia.
  destruct (IH (a + Z.min rem max) (Z.max 0 (rem - Z.min rem max)))
    as (cs & Hcs & Hc & Hall & Hlen); try lia.
  rewrite Hcs. simpl. eexists. split; [done|]. rewrite Z.max_r in * by lia. split; [|split].
  - split; [done|]. by replace (a + rem) with (a + Z.min rem max + (rem - Z.min rem max)) by lia.
  - constructor; [simpl; lia|]. eapply Forall_impl; [exact Hall|]. intros c. simpl. lia.
  - cbn [length]. rewrite Nat2Z.inj_succ, Hlen, <- (Ranges.div_up_step rem) by lia. lia.
Qed.

(** A range within the limit is read at once. *)
Lemma split_chunks_single fuel a rem max :
  1 ≤ rem ≤ max → 1 ≤ max ≤ 65535 → (1 ≤ fuel)%nat →
  split_chunks fuel a rem max = Some [(a, rem)].
Proof.
  intros. destruct fuel as [|fuel]; [lia|]. cbn [split_chunks].
  rewrite (proj2 (Z.ltb_lt _ _)) by lia. rewrite chunk_words_min, Z.min_l by lia.
  unfold u32_saturating_sub. rewrite Z.sub_diag. by destruct fuel.
Qed.

(** A chunk of no words makes no progress: the loop never ends. *)
Lemma split_chunks_stuck fuel a rem max :
  0 ≤ a < 4294967296 → 1 ≤ rem → chunk_words rem max = 0 → split_chunks fuel a rem max = None.
Proof.
  intros Ha Hr Hc. revert a Ha. induction fuel as [|fuel IH]; intros a Ha; cbn [split_chunks];
    rewrite (proj2 (Z.ltb_lt _ _)) by lia; [done|].
  rewrite Hc. unfold u32_add, u32_saturating_sub. rewrite Z.sub_0_r, Z.add_0_r, Z.max_r by lia.
  rewrite u32_small by lia. by rewrite IH.
Qed.

(** ** The read plan *)

Lemma split_chunks_mono fuel fuel' a rem max cs :
  (fuel ≤ fuel')%nat → split_chunks fuel a rem max = Some cs → split_chunks fuel' a rem max = Some cs.
Proof.
  revert fuel' a rem cs. induction fuel as [|fuel IH]; intros fuel' a rem cs Hf.
  - cbn [split_chunks]. destruct (0 <? rem) eqn:Hr; [done|]. destruct fuel'; cbn [split_chunks]; by rewrite Hr.
  - destruct fuel' as [|fuel']; [lia|]. cbn [split_chunks]. destruct (0 <? rem); [|done].
    destruct (split_chunks fuel _ _ _) as [cs'|] eqn:Hcs; [|done].
    by rewrite (IH fuel' _ _ cs') by (done || lia).
Qed.

(** The groups of an area, the chunks of a group, and the requests they make up. *)
Definition groups_of (maps : list TagMapping) : list Group :=
  build_groups (length (sort_by_key TagMapping.address maps)) (sort_by_key TagMapping.address maps).
Definition area_groups (ms : list TagMapping) (a : Z) : list Group :=
  groups_of (filter (λ m, TagMapping.area m = a) ms).
Definition chunk_list (max : Z) (g : Group) : list (Z * Z) :=
  default [] (split_chunks (Z.to_nat (total_words g)) (start g) (total_words g) max).
Definition area_plan (max : Z) (am : Z * list TagMapping) : list ReadGroup :=
  concat ((λ g, requests_of am.1 g (chunk_list max g)) <$> groups_of am.2).
Definition plan (max : Z) (ms : list TagMapping) : list ReadGroup :=
  concat (area_plan max <$> btree_iter (by_area ms)).

(** Whatever the mappings, a request only carries mappings of the configuration. *)
Lemma grow_split e l : l = (grow e l).1.2 ++ (grow e l).2.
Proof.
  revert e. induction l as [|m l IH]; intros e; simpl; [done|].
  destruct (_ <=? _); [|done].
  match goal with |- context [grow ?e' l] => specialize (IH e'); destruct (grow e' l) as [[e'' t] o] end.
  simpl in *. by rewrite IH.
Qed.
Lemma build_groups_mappings fuel l g m : g ∈ build_groups fuel l → m ∈ members g → m ∈ l.
Proof.
  revert l. induction fuel as [|fuel IH]; intros [|x l]; simpl; try (by intros ?%not_elem_of_nil).
  pose proof (grow_split (end_address x) l) as Hl.
  destruct (grow (end_address x) l) as [[e t] o]. simpl in Hl.
  intros [->|Hg]%elem_of_cons Hm; simpl in Hm.
  - apply elem_of_cons in Hm as [->|Hm]; [by left|]. right. rewrite Hl. apply elem_of_app. by left.
  - right. rewrite Hl. apply elem_of_app. right. by eapply IH.
Qed.
Lemma concat_mapM_elem {X Y} (f : X → option (list Y)) (l : list X) ys y :
  (@concat Y) <$> mapM f l = Some ys → y ∈ ys → ∃ x k, x ∈ l ∧ f x = Some k ∧ y ∈ k.
Proof.
  intros (ks & Hks%mapM_Some & ->)%fmap_Some (k & Hy & [i Hi]%list_elem_of_lookup)%elem_of_concat.
  destruct (Forall2_lookup_r _ _ _ _ _ Hks Hi) as (x & Hx & Hf).
  exists x, k. split; [by eapply list_elem_of_lookup_2|done].
Qed.
Lemma read_groups_mappings max ms fuel rgs r m :
  read_groups max ms fuel = Some rgs → r ∈ rgs → m ∈ mappings r → m ∈ ms.
Proof.
  intros Hrgs Hr Hm.
  destruct (concat_mapM_elem _ _ _ _ Hrgs Hr) as ([a maps] & k & Hin & Hk & Hrk).
  destruct (concat_mapM_elem _ _ _ _ Hk Hrk) as (g & k' & Hg & Hk' & Hrk').
  apply fmap_Some in Hk' as (cs & _ & ->). apply list_elem_of_fmap in Hrk' as (c & -> & _).
  apply build_groups_mappings with (m := m) in Hg; [|done]. simpl in Hg.
  rewrite sort_by_key_perm in Hg. apply elem_of_btree_iter, group_by_Some in Hin as [-> _].
  by apply list_elem_of_filter in Hg as [_ ?].
Qed.

Section plan.
Context `{!HashIter Z} (ms : list TagMapping) (max : Z).
Context (Hfits : Forall fits ms) (Hvalid : validate ms = Ok tt) (Hmax : 1 ≤ max ≤ 65535).

Lemma area_grouped a :
  grouped (sort_by_key TagMapping.address (filter (λ m, TagMapping.area m = a) ms))
    (area_groups ms a).
Proof using All.
  apply fins_build_groups_spec; [done|by apply area_sorted_fits|by apply validate_disjoint|].
  apply sort_by_key_sorted.
Qed.

Lemma area_group_tiles a g : g ∈ area_groups ms a → group_tiles g.
Proof using All.
  intros Hg. pose proof (Ranges.grouped_tiles _ _ _ _ _ _ _ _ (area_grouped a)) as Ht.
  rewrite Forall_forall in Ht. by apply Ht.
Qed.

Lemma area_group_elem a m :
  m ∈ ms ∧ TagMapping.area m = a ↔ ∃ g, g ∈ area_groups ms a ∧ m ∈ members g.
Proof using All.
  rewrite <- (Ranges.grouped_elem _ _ _ _ _ _ _ _ _ (area_grouped a)).
  rewrite sort_by_key_perm, list_elem_of_filter. tauto.
Qed.

Lemma chunk_list_spec g :
  group_tiles g →
  split_chunks (Z.to_nat (total_words g)) (start g) (total_words g) max = Some (chunk_list max g) ∧
  chain (start g) (chunk_list max g) (start g + total_words g) ∧
  Forall (λ c, 1 ≤ c.2 ≤ max) (chunk_list max g) ∧
  Z.of_nat (length (chunk_list max g)) = (total_words g + max - 1) / max.
Proof using All.
  intros (_ & ? & ? & ? & _). unfold chunk_list.
  destruct (split_chunks_spec (Z.to_nat (total_words g)) (start g) (total_words g) max)
    as (cs & Hcs & Hc & Hall & Hlen); try lia.
  rewrite Hcs. split; [done|]. split; [done|]. split; [|done].
  eapply Forall_impl; [exact Hall|]. simpl. intros c. lia.
Qed.

Lemma elem_of_by_area a maps :
  (a, maps) ∈ btree_iter (by_area ms) → maps = filter (λ m, TagMapping.area m = a) ms.
Proof. by intros [-> _]%elem_of_btree_iter%group_by_Some. Qed.

(** The construction ends, with the plan. *)
Lemma read_groups_eventually : eventually (read_groups max ms) (plan max ms).
Proof using All.
  apply (eventually_fmap (@concat ReadGroup)), eventually_mapM.
  intros [a maps] ->%elem_of_by_area.
  apply (eventually_fmap (@concat ReadGroup)), eventually_mapM. intros g Hg.
  apply (eventually_fmap (requests_of a g)). exists (Z.to_nat (total_words g)). intros fuel Hf.
  destruct (chunk_list_spec g) as [Hc _]; [by eapply area_group_tiles|].
  by eapply split_chunks_mono.
Qed.

Lemma elem_of_plan r :
  r ∈ plan max ms ↔
  ∃ g c, g ∈ area_groups ms (area r) ∧ c ∈ chunk_list max g ∧ r = request_of (area r) g c.
Proof using All.
  unfold plan, area_plan. rewrite elem_of_concat. split.
  - intros (rs & Hr & ([a maps] & -> & Ha)%list_elem_of_fmap).
    pose proof (elem_of_by_area _ _ Ha) as ->. simpl in Hr.
    apply elem_of_concat in Hr as (rs' & Hr & (g & -> & Hg)%list_elem_of_fmap).
    apply list_elem_of_fmap in Hr as (c & -> & Hc). by exists g, c.
  - intros (g & c & Hg & Hc & Hr).
    exists (area_plan max (area r, filter (λ m, TagMapping.area m = area r) ms)). split.
    + unfold area_plan. apply elem_of_concat. exists (requests_of (area r) g (chunk_list max g)).
      split; [apply list_elem_of_fmap; by exists c|].
      apply (list_elem_of_fmap_2 (λ g, requests_of (area r) g (chunk_list max g))). exact Hg.
    + apply list_elem_of_fmap_2, elem_of_btree_iter, group_by_Some. split; [done|].
      intros Hnil. unfold area_groups, groups_of in Hg. rewrite Hnil in Hg.
      by apply not_elem_of_nil in Hg.
Qed.

(** The requests of an area do not overlap, and come in address order. *)
Lemma plan_sorted :
  StronglySorted (λ r s, area r < area s ∨
    (area r = area s ∧ start_address r + word_count r ≤ start_address s)) (plan max ms).
Proof using All.
  eapply Ranges.StronglySorted_concat_fmap; [apply btree_iter_sorted|..].
  - intros [a maps] ->%elem_of_by_area. unfold area_plan. simpl.
    eapply Ranges.StronglySorted_concat_fmap;
      [exact (Ranges.grouped_gaps _ _ _ _ _ _ _ _ (area_grouped a))|..].
    + intros g Hg. destruct (chunk_list_spec g) as (_ & Hc & Hall & _);
        [by eapply area_group_tiles|].
      apply Ranges.chain_sorted in Hc; [|eapply Forall_impl; [exact Hall|]; simpl; intros; lia].
      unfold requests_of. induction Hc as [|c cs Hs IH Hc]; simpl; constructor.
      * apply IH. by apply Forall_cons in Hall as [_ ?].
      * apply Forall_fmap. eapply Forall_impl; [exact Hc|]. simpl. by right.
    + intros g h r s Hg Hh Hgap (c & -> & Hc)%list_elem_of_fmap (d & -> & Hd)%list_elem_of_fmap.
      destruct (chunk_list_spec g) as (_ & Hcg & Hallg & _); [by eapply area_group_tiles|].
      destruct (chunk_list_spec h) as (_ & Hch & Hallh & _); [by eapply area_group_tiles|].
      apply Ranges.chain_bounds in Hcg; [|eapply Forall_impl; [exact Hallg|]; simpl; intros; lia].
      apply Ranges.chain_bounds in Hch; [|eapply Forall_impl; [exact Hallh|]; simpl; intros; lia].
      rewrite Forall_forall in Hcg, Hch. specialize (Hcg c Hc). specialize (Hch d Hd).
      right. simpl in *. lia.
  - intros [a maps] [b maps'] r s _ _ Hab Hr Hs. left. simpl in Hab.
    apply elem_of_concat in Hr as (? & Hr & (g & -> & _)%list_elem_of_fmap).
    apply elem_of_concat in Hs as (? & Hs & (h & -> & _)%list_elem_of_fmap).
    apply list_elem_of_fmap in Hr as (c & -> & _). apply list_elem_of_fmap in Hs as (d & -> & _).
    done.
Qed.

(** The words of a request belong to its mappings, and there are at most [max] of them. *)
Lemma plan_occupied r :
  r ∈ plan max ms → 1 ≤ word_count r ≤ max ∧
  ∀ a, start_address r ≤ a < start_address r + word_count r →
    ∃ m, m ∈ mappings r ∧ m ∈ ms ∧ TagMapping.area m = area r ∧ occupies m a.
Proof using All.
  intros (g & c & Hg & Hc & ->)%elem_of_plan.
  set (a0 := area r) in *. clearbody a0. simpl.
  pose proof (area_group_tiles a0 g Hg) as Ht.
  destruct (chunk_list_spec g Ht) as (_ & Hchain & Hall & _).
  apply Ranges.chain_bounds in Hchain; [|eapply Forall_impl; [exact Hall|]; simpl; intros; lia].
  rewrite Forall_forall in Hchain, Hall. specialize (Hchain c Hc). specialize (Hall c Hc).
  split; [lia|]. intros a Ha. destruct Ht as (_ & _ & _ & _ & Ht).
  destruct (Ranges.tiles_cover _ _ _ _ _ a Ht) as (m & Hmg & Ho); [simpl in *; lia|].
  exists m. split; [done|]. destruct (proj2 (area_group_elem a0 m)); eauto.
Qed.
Lemma plan_counts : Forall (λ r, is_u16 (word_count r)) (plan max ms).
Proof using All.
  apply Forall_forall. intros r [Hc _]%plan_occupied. int_ranges. lia.
Qed.

(** Every word of a mapping is in a request that has the mapping. *)
Lemma plan_covers m a :
  m ∈ ms → occupies m a →
  ∃ r, r ∈ plan max ms ∧ area r = TagMapping.area m ∧ m ∈ mappings r ∧
    start_address r ≤ a < start_address r + word_count r.
Proof using All.
  intros Hin Ho.
  destruct (proj1 (area_group_elem (TagMapping.area m) m)) as (g & Hg & Hmg); [done|].
  pose proof (Ranges.grouped_range _ _ _ _ _ _ _ _ g m
    (area_grouped (TagMapping.area m)) (area_sorted_fits _ _ Hfits) Hg Hmg) as Hrange.
  pose proof (area_group_tiles _ g Hg) as Ht.
  destruct (chunk_list_spec g Ht) as (_ & Hchain & _ & _).
  destruct (Ranges.chain_cover _ _ _ a Hchain) as (c & Hc & Hac).
  { unfold Ranges.occupies in Ho. lia. }
  exists (request_of (TagMapping.area m) g c). split; [|done].
  apply elem_of_plan. by exists g, c.
Qed.
End plan.

(** ** Properties *)

Section properties.
Context `{!HashIter Z}.

(** For mappings below the last address, validation accepts a configuration
    exactly when every mapping meets its own requirements and no two mappings of the
    same area share a word. *)
Theorem fins_validate_spec (ms : list TagMapping) :
  Forall (λ m, 0 ≤ TagMapping.address m ∧ 0 ≤ TagMapping.word_count m ∧
               TagMapping.address m + TagMapping.word_count m ≤ 4294967295) ms →
  validate ms = Ok tt ↔
    Forall (λ m, mapping_valid m = true) ms ∧
    ∀ i j m1 m2, ms !! i = Some m1 → ms !! j = Some m2 → (i < j)%nat →
      TagMapping.area m1 = TagMapping.area m2 →
      ¬ ∃ a, occupies m1 a ∧ occupies m2 a.
Proof.
  intros Hr. unfold validate.
  assert (Forall (λ m, mapping_valid m = true) ms → Forall fits ms) as Hfits.
  { intros Hv. rewrite !Forall_forall in *. intros m Hm. specialize (Hv m Hm).
    specialize (Hr m Hm). unfold mapping_valid, Ranges.fits in *. zlia. }
  pose proof (fins_check_mappings_ok ms) as Hc.
  destruct (check_mappings ms) as [[]|]; [|naive_solver].
  assert (Forall (λ m, mapping_valid m = true) ms) as Hv by naive_solver.
  specialize (Hfits Hv). rewrite fins_check_overlaps_ok by done.
  trans (pairwise (λ a b, TagMapping.area a = TagMapping.area b → disjoint a b) ms).
  { rewrite (pairwise_filter TagMapping.area). apply forall_proper. intros a.
    split; apply pairwise_perm; try apply _; [|symmetry]; apply sort_by_key_perm. }
  rewrite pairwise_lookup.
  assert (∀ i m, ms !! i = Some m → 1 ≤ TagMapping.word_count m) as Hlen.
  { intros i m Hi. rewrite Forall_lookup in Hfits. by destruct (Hfits i m Hi) as (_ & ? & _). }
  split.
  - intros Hp. split; [done|]. intros i j m1 m2 H1 H2 Hij Ha.
    apply Ranges.disjoint_no_common; eauto.
  - intros [_ Hp] i j m1 m2 H1 H2 Hij Ha.
    apply Ranges.disjoint_no_common; eauto.
Qed.

(** C16: for a valid configuration and a request limit between 1 and 65535 words, the
    precomputation of the read groups ends, and its requests are sound and complete:
    no request exceeds the limit; every word requested belongs to a mapping the
    request carries; every word of every mapping is requested, by a request that
    carries the mapping; and the requests of an area come in address order without
    overlapping, so that no word is read twice in a cycle. *)
Theorem fins_read_groups_cover (ms : list TagMapping) (max : Z) :
  Forall fits ms → validate ms = Ok tt → 1 ≤ max ≤ 65535 →
  ∃ rgs, eventually (read_groups max ms) rgs ∧
    (∀ r, r ∈ rgs → 1 ≤ word_count r ≤ max ∧
       ∀ a, start_address r ≤ a < start_address r + word_count r →
         ∃ m, m ∈ mappings r ∧ m ∈ ms ∧ TagMapping.area m = area r ∧ occupies m a) ∧
    (∀ m a, m ∈ ms → occupies m a →
       ∃ r, r ∈ rgs ∧ area r = TagMapping.area m ∧ m ∈ mappings r ∧
         start_address r ≤ a < start_address r + word_count r) ∧
    StronglySorted (λ r s, area r < area s ∨
      (area r = area s ∧ start_address r + word_count r ≤ start_address s)) rgs.
Proof.
  intros Hf Hv Hm. exists (plan max ms).
  split; [by apply read_groups_eventually|]. split; [|split; [|by apply plan_sorted]].
  - intros r. by apply plan_occupied.
  - intros m a. by apply plan_covers.
Qed.

(** With a request limit of zero, which nothing rejects, the constructor of the
    driver never returns as soon as there is a mapping: each turn of the loop pushes a
    read group of no words. *)
Theorem fins_new_diverges (ms : list TagMapping) (fuel : nat) :
  Forall fits ms → validate ms = Ok tt → ms ≠ [] → read_groups 0 ms fuel = None.
Proof.
  intros Hf Hv Hne. assert (∃ m, m ∈ ms) as [m Hm].
  { destruct ms as [|m ms']; [done|]. exists m. by left. }
  assert (1 ≤ 1 ≤ 65535) as H1 by lia.
  destruct (proj1 (area_group_elem ms 1 Hf Hv H1 (TagMapping.area m) m)) as (g & Hg & _); [done|].
  destruct (area_group_tiles ms 1 Hf Hv H1 _ g Hg) as (_ & Hs & Ht & Hb & _).
  assert (∀ B C (f : list B → C) (o : option (list B)), o = None → f <$> o = None) as Hnone
    by (by intros ? ? ? ? ->).
  apply Hnone, mapM_None, Exists_exists.
  exists (TagMapping.area m, filter (λ x, TagMapping.area x = TagMapping.area m) ms). split.
  { apply elem_of_btree_iter, group_by_Some. split; [done|]. intros Hnil.
    apply (not_elem_of_nil m). rewrite <- Hnil. by apply list_elem_of_filter. }
  apply Hnone, mapM_None, Exists_exists. exists g. split; [exact Hg|].
  apply Hnone, split_chunks_stuck; [lia|done|].
  unfold chunk_words. by rewrite Z.min_r by lia.
Qed.
End properties.

Section witnesses.
Local Instance iter : HashIter Z := hash_iter_ref Z.

Definition example_mappings : list TagMapping :=
  [TagMapping.new "b" 130 12 0 2 true WordOrder.CDAB TagDataType.Float;
   TagMapping.new "a" 130 10 0 2 false WordOrder.ABCD TagDataType.Int32;
   TagMapping.new "c" 177 10 3 1 false WordOrder.ABCD TagDataType.Bool;
   TagMapping.new "d" 130 20 0 1 false WordOrder.BADC TagDataType.Int16].

Lemma fins_example_fits : Forall fits example_mappings.
Proof. repeat (constructor; [unfold Ranges.fits; simpl; lia|]). constructor. Qed.

(** With requests of at most three words: the range 10..13 is read in two. *)
Example example_groups :
  option_map (map (λ r, (area r, start_address r, word_count r,
                         map TagMapping.tag_id (mappings r))))
    (read_groups 3 example_mappings 10)
  = Some [(130, 10, 3, ["a"; "b"]%string); (130, 13, 1, ["a"; "b"]%string);
          (130, 20, 1, ["d"]%string); (177, 10, 1, ["c"]%string)].
Proof. vm_refl. Qed.

Lemma fins_validate_spec_witness :
  validate example_mappings = Ok tt ∧ Forall (λ m, mapping_valid m = true) example_mappings.
Proof.
  assert (validate example_mappings = Ok tt) as Hv by vm_refl.
  split; [exact Hv|]. apply fins_validate_spec; [|exact Hv].
  repeat (constructor; [simpl; lia|]). constructor.
Defined.

Lemma fins_read_groups_cover_witness :
  ∃ rgs, eventually (read_groups 3 example_mappings) rgs ∧
    ∀ r, r ∈ rgs → 1 ≤ word_count r ≤ 3.
Proof.
  destruct (fins_read_groups_cover example_mappings 3 fins_example_fits ltac:(vm_refl) ltac:(lia))
    as (rgs & He & Hr & _ & _).
  exists rgs. split; [exact He|]. intros r Hin. exact (proj1 (Hr r Hin)).
Defined.

Lemma fins_new_diverges_witness : read_groups 0 example_mappings 1000 = None.
Proof.
  apply (fins_new_diverges example_mappings 1000 fins_example_fits); [vm_refl|discriminate].
Defined.
End witnesses.
End FinsPlan.
