(* ===== verification/FinsDriver.v ===== *)
(** * FINS driver: the read/write cycle

    Models the effectful part of driver/fins/src/driver.rs: the reconnect loop, the
    request/response exchange over the TCP stream, the queued writes, the grouped
    reads and their error paths.  The network, the write queue and the clock are an
    environment whose operations are parameters; what the driver does on the outside
    is an event of the log, in order. *)

From stdpp Require Import base tactics numbers list gmap strings.
From S2P Require Import Prelude Effects RustStd RustStr RustSlice RustMap Ranges Crates CratesRef TagValue Tag TagDefinition TagStore Registry DriverWorld ModbusTypes ModbusCodec FinsTypes FinsCodec FinsPlan.
Local Open Scope Z_scope.

Module FinsIO.
Section defs.
Context {C : Chrono}.

(** [try_recv] of the write queue. *)
Inductive recv := Received (req : FinsWriteRequest) | Empty | Disconnected.

(** [tokio] and the clock; an [io::Error] is its message. *)
Class FinsIO := {
  Env : Type;
  SocketAddr : Type;
  TcpStream : Type;
  (** [TcpStream::connect(endpoint).await] *)
  connect : SocketAddr → Env → result TcpStream string * Env;
  (** [stream.write_all(&bytes).await]; there is no time limit: [None] when it never
      completes, because the other side takes nothing *)
  write_all : TcpStream → list Z → Env → option (result unit string * TcpStream * Env);
  (** [stream.read_exact(&mut buf).await], for a buffer of the given length; [None] when
      it never completes, because the other side keeps silent *)
  read_exact : TcpStream → Z → Env → option (result (list Z) string * TcpStream * Env);
  (** [rx.try_recv()] *)
  try_recv : Env → recv * Env;
  (** [time::sleep(Duration::from_secs(s)).await] *)
  sleep : Z → Env → Env;
  (** [Utc::now()] *)
  utc_now : Env → DateTimeUtc * Env;
  (** A filled buffer has its length and holds bytes. *)
  read_exact_ok st n e bytes st' e' :
    read_exact st n e = Some (Ok bytes, st', e') → Z.of_nat (length bytes) = n ∧ is_bytes bytes;
  (** Rust's types: a request's value is one its type can hold. *)
  try_recv_wf e req e' :
    try_recv e = (Received req, e') → TagValue.wf (FinsWriteRequest.value req);
}.
End defs.
Arguments recv : clear implicits.
Arguments recv {_}.
Arguments FinsIO : clear implicits.
Arguments FinsIO {_}.
End FinsIO.
Notation FinsIO := FinsIO.FinsIO.

Module FinsDriver.
Import FinsError FinsIO FinsPlan RegistryOps.
Section defs.
Context {C : Chrono} {BY : Bytes} {B : ByteOrder} {J : SerdeJson} {IO : FinsIO}.

(** What the driver does on the outside. *)
Inductive event :=
| EvConnect (ok : bool)
| EvSleep (secs : Z)
| EvReceived (req : FinsWriteRequest)
| EvSend (bytes : list Z)
| EvAnswer (res : result (list Z) string)
| EvReply (chan : nat) (r : result unit string)
| EvHealth (obj : JsonValue).

(** The driver's mutable state, and the environment. *)
Record World := mkWorld {
  registry : TagRegistry;
  conn : option TcpStream;
  (** [AtomicU8] *)
  sid_counter : Z;
  (** whether [set_health_sender] was called *)
  health_tx : bool;
  env : Env;
  log : list event;
}.

Definition set_registry (r : TagRegistry) (w : World) : World :=
  {| registry := r; conn := conn w; sid_counter := sid_counter w; health_tx := health_tx w;
     env := env w; log := log w |}.
Definition set_conn (c : option TcpStream) (w : World) : World :=
  {| registry := registry w; conn := c; sid_counter := sid_counter w; health_tx := health_tx w;
     env := env w; log := log w |}.
Definition set_sid (s : Z) (w : World) : World :=
  {| registry := registry w; conn := conn w; sid_counter := s; health_tx := health_tx w;
     env := env w; log := log w |}.
Definition set_env (e : Env) (w : World) : World :=
  {| registry := registry w; conn := conn w; sid_counter := sid_counter w;
     health_tx := health_tx w; env := e; log := log w |}.
Definition add_event (ev : event) (w : World) : World :=
  {| registry := registry w; conn := conn w; sid_counter := sid_counter w;
     health_tx := health_tx w; env := env w; log := log w ++ [ev] |}.
(** [FinsDriver::set_health_sender] *)
Definition set_health_sender (w : World) : World :=
  {| registry := registry w; conn := conn w; sid_counter := sid_counter w; health_tx := true;
     env := env w; log := log w |}.

(** Everything but the registry and the environment. *)
Definition Rest : Type := option TcpStream * Z * bool * list event.
Definition rest (w : World) : Rest := (conn w, sid_counter w, health_tx w, log w).

#[export] Program Instance fins_world : DriverWorld World Env Rest := {|
  dw_registry := registry; dw_env := env; dw_rest := rest;
  dw_set_registry := set_registry; dw_set_env := set_env; dw_now := utc_now;
|}.
Solve Obligations with done.

Notation MF := (M World DriverError).

Definition emit (ev : event) : MF unit := modify (add_event ev).

(** [if let Some(reply) = req.reply { let _ = reply.send(r); }] *)
Definition send_reply (reply : option nat) (r : result unit string) : MF unit :=
  match reply with Some chan => emit (EvReply chan r) | None => mret tt end.

(** [FinsDriver::next_sid]: [fetch_add] on an [AtomicU8] wraps. *)
Definition next_sid : MF Z :=
  sid ← gets sid_counter;
  modify (set_sid (as_u8 (sid + 1)));;
  mret sid.

Section cycle.
Context (config : FinsConfig SocketAddr) (read_groups : list ReadGroup).

(** [FinsDriver::new], whose read groups are those of [FinsPlan.read_groups]; [None] when
    their precomputation has not ended within [fuel] chunks per group. *)
Definition new (r : TagRegistry) (e : Env) (fuel : nat) : option (World * list ReadGroup) :=
  rgs ← FinsPlan.read_groups (FinsConfig.max_words_per_request config)
          (FinsConfig.mappings config) fuel;
  Some ({| registry := r; conn := None; sid_counter := 1; health_tx := false; env := e;
           log := [] |}, rgs).

(** [FinsDriver::send_health_event] *)
Definition health_object (status : string) (detail : option string) : JsonValue :=
  let message := match detail with Some d => d | None => status end in
  JObject [("plc", JString (FinsConfig.name config)); ("status", JString status);
           ("detail", JObject [("message", JString message); ("data", JNull)])].
Definition send_health_event (status : string) (detail : option string) : MF unit :=
  tx ← gets health_tx;
  if (tx : bool) then emit (EvHealth (health_object status detail)) else mret tt.

(** The loop of [connect_with_backoff], with the current backoff in seconds. *)
Fixpoint connect_loop (fuel : nat) (backoff : Z) : MF (result TcpStream DriverError) :=
  match fuel with
  | O => pending
  | S fuel =>
      r ← env_op (connect (FinsConfig.endpoint config));
      match r with
      | Ok stream => emit (EvConnect true);; mret (Ok stream)
      | Err _ =>
          emit (EvConnect false);;
          emit (EvSleep backoff);;
          modify (λ w, set_env (sleep backoff (env w)) w);;
          connect_loop fuel (Z.min (u64_saturating_mul backoff 2)
                               (FinsConfig.max_backoff_secs config))
      end
  end.
Definition connect_with_backoff (fuel : nat) : MF (result TcpStream DriverError) :=
  connect_loop fuel 1.

(** One request and its response on a stream: write the frame, read the header of eight
    bytes, read as many bytes as it announces; each may never complete. *)
Definition exchange (stream : TcpStream) (wrapped : list Z)
    : MF (result (list Z) string * TcpStream) :=
  '(res, stream) ← await_op (write_all stream wrapped);
  match res with
  | Err err => mret (Err err, stream)
  | Ok tt =>
      '(res, stream) ← await_op (read_exact stream 8);
      match res with
      | Err err => mret (Err err, stream)
      | Ok header => await_op (read_exact stream (FinsFrame.header_len header))
      end
  end.

(** What an exchange comes to on an environment; [None] when it never completes. *)
Definition exchanged (stream : TcpStream) (wrapped : list Z) (e : Env)
    : option (result (list Z) string * TcpStream * Env) :=
  '(res, stream, e) ← write_all stream wrapped e;
  match res with
  | Err err => Some (Err err, stream, e)
  | Ok tt =>
      '(res, stream, e) ← read_exact stream 8 e;
      match res with
      | Err err => Some (Err err, stream, e)
      | Ok header => read_exact stream (FinsFrame.header_len header) e
      end
  end.

Definition comm_lost (ms : list TagMapping) : MF unit :=
  for_each (λ m, set_tag_quality (TagMapping.tag_id m) TagQuality.CommLost) ms.
Definition all_error (ms : list TagMapping) (msg : string) : MF unit :=
  for_each (λ m, set_tag_quality (TagMapping.tag_id m) (TagQuality.Error msg)) ms.

Definition end_code_text (end_code : Z) : string := "FINS end code: 0x" +:+ fmt_04X end_code.

(** ** Queued writes *)

(** Lines 674-729: the response to a write. *)
Definition write_response (req : FinsWriteRequest) (id : string) (sid : Z) (payload : list Z)
    : MF unit :=
  let reply := FinsWriteRequest.reply req in
  match FinsFrame.parse_fins_response payload with
  | Ok (resp_sid, end_code, _) =>
      if negb (resp_sid =? sid) then
        set_tag_quality id TagQuality.CommLost;;
        send_reply reply (Err "SID mismatch"%string)
      else if negb (end_code =? 0) then
        set_tag_quality id (TagQuality.Error (end_code_text end_code));;
        send_reply reply (Err (end_code_text end_code))
      else
        source_ts ← now;
        update_tag_value id (FinsWriteRequest.value req) TagQuality.Good source_ts;;
        send_reply reply (Ok tt)
  | Err e =>
      set_tag_quality id (TagQuality.Error ("parse_write_resp: " +:+ FinsError.to_string e));;
      send_reply reply (Err ("Parse error: " +:+ FinsError.to_string e))
  end.

(** Lines 598-622: take the stream, or reconnect; [None] is the [continue] after a
    failure to reconnect. *)
Definition write_stream (fuel : nat) (req : FinsWriteRequest) (id : string)
    : MF (option TcpStream) :=
  maybe_stream ← gets conn;
  modify (set_conn None);;
  match maybe_stream with
  | Some s => mret (Some s)
  | None =>
      r ← connect_with_backoff fuel;
      match r with
      | Ok s => mret (Some s)
      | Err e =>
          set_tag_quality id TagQuality.CommLost;;
          send_health_event "connect_failed" (Some (FinsError.to_string e));;
          send_reply (FinsWriteRequest.reply req)
            (Err ("Reconnect failed: " +:+ FinsError.to_string e));;
          mret None
      end
  end.

(** The frame of a write request. *)
Definition write_frame (sid : Z) (mapping : TagMapping) (ordered_words : list Z) : list Z :=
  let params := FinsFrame.build_memory_write (TagMapping.area mapping)
                  (TagMapping.address mapping) (TagMapping.bit_offset mapping) ordered_words in
  FinsFrame.wrap_fins_tcp (FinsFrame.build_fins_frame sid FinsFrame.cmd_memory_write params).

(** Lines 588-729: the write of [words]. *)
Definition write_words (fuel : nat) (req : FinsWriteRequest) (mapping : TagMapping)
    (ordered_words : list Z) : MF unit :=
  let id := TagMapping.tag_id mapping in
  sid ← next_sid;
  let wrapped := write_frame sid mapping ordered_words in
  maybe_stream ← write_stream fuel req id;
  match maybe_stream with
  | None => mret tt
  | Some stream =>
      emit (EvSend wrapped);;
      '(res, stream) ← exchange stream wrapped;
      emit (EvAnswer res);;
      match res with
      | Err e =>
          set_tag_quality id TagQuality.CommLost;;
          send_reply (FinsWriteRequest.reply req) (Err ("IO error: " +:+ e));;
          modify (set_conn None)
      | Ok payload =>
          modify (set_conn (Some stream));;
          write_response req id sid payload
      end
  end.

(** Lines 530-730: one dequeued request. *)
Definition process_write (fuel : nat) (req : FinsWriteRequest) : MF unit :=
  let reply := FinsWriteRequest.reply req in
  match find (λ m, bool_decide (TagMapping.tag_id m = FinsWriteRequest.tag_id req))
          (FinsConfig.mappings config) with
  | None => send_reply reply (Err "Unknown tag id"%string)
  | Some mapping =>
      if negb (TagMapping.writable mapping) then send_reply reply (Err "Not writable"%string)
      else
        match FinsCodec.tagvalue_to_words_standard (FinsWriteRequest.value req) with
        | Err e => send_reply reply (Err ("Conversion error: " +:+ FinsError.to_string e))
        | Ok words =>
            ordered ← or_panic (FinsCodec.order_words words (TagMapping.byte_order mapping));
            match ordered with
            | None => send_reply reply (Err "Ordered bytes length not even"%string)
            | Some ordered_words => write_words fuel req mapping ordered_words
            end
        end
  end.

(** [for _ in 0..64 { match rx.try_recv() { .. } }] *)
Fixpoint process_writes (fuel n : nat) : MF unit :=
  match n with
  | O => mret tt
  | S n =>
      r ← env_op try_recv;
      match r with
      | Received req => emit (EvReceived req);; process_write fuel req;; process_writes fuel n
      | Empty | Disconnected => mret tt
      end
  end.

(** ** Reads *)

(** [FinsDriver::decode_and_update_tag] *)
Definition decode_and_update_tag (mapping : TagMapping) (bytes : list Z)
    : MF (result unit DriverError) :=
  let id := TagMapping.tag_id mapping in
  data_bytes ← or_panic (DriverCommon.apply_byte_order bytes (TagMapping.byte_order mapping));
  r ← gets registry;
  if is_err (TagRegistry.get_definition r id) then
    mret (Err (Mapping ("Tag id not found in registry: " +:+ id)))
  else
    source_ts ← now;
    v ← or_panic (FinsCodec.decode (TagMapping.data_type mapping)
                    (TagMapping.bit_offset mapping) data_bytes);
    match v with
    | Ok v => update_tag_value id v TagQuality.Good source_ts;; mret (Ok tt)
    | Err e => mret (Err e)
    end.

Definition decode_failed (e : DriverError) : string := "decode_failed: " +:+ FinsError.to_string e.

(** Lines 858-887: one mapping against the payload of a request. *)
Definition update_mapping (g : ReadGroup) (payload : list Z) (mapping : TagMapping) : MF unit :=
  let id := TagMapping.tag_id mapping in
  match extract g payload mapping with
  | Outside => mret tt
  | Short => set_tag_quality id (TagQuality.Error "short_payload")
  | Slice slice =>
      r ← decode_and_update_tag mapping slice;
      match r with
      | Ok tt => mret tt
      | Err e => set_tag_quality id (TagQuality.Error (decode_failed e))
      end
  end.

(** Lines 843-888: the payload of a request. *)
Definition read_payload (g : ReadGroup) (payload : list Z) : MF unit :=
  let expected_len := Z.to_nat (word_count g * 2) in
  if (length payload <? expected_len)%nat then
    for_each (λ m, if overlaps g m
                   then set_tag_quality (TagMapping.tag_id m) (TagQuality.Error "short_payload")
                   else mret tt) (mappings g)
  else for_each (update_mapping g payload) (mappings g).

(** Lines 815-901: the response to a read; [false] is [break]. *)
Definition read_response (g : ReadGroup) (sid : Z) (payload : list Z) : MF bool :=
  match FinsFrame.parse_fins_response payload with
  | Ok (resp_sid, end_code, payload_bytes) =>
      if negb (resp_sid =? sid) then comm_lost (mappings g);; mret true
      else if negb (end_code =? 0) then
        all_error (mappings g) (end_code_text end_code);; mret false
      else read_payload g payload_bytes;; mret true
  | Err e =>
      all_error (mappings g) ("parse_fins_resp: " +:+ FinsError.to_string e);; mret false
  end.

(** Lines 747-767: take the stream, or reconnect; [None] is the [break] after a failure
    to reconnect. *)
Definition read_stream (fuel : nat) (g : ReadGroup) : MF (option TcpStream) :=
  maybe_stream ← gets conn;
  modify (set_conn None);;
  match maybe_stream with
  | Some s => mret (Some s)
  | None =>
      r ← connect_with_backoff fuel;
      match r with
      | Ok s => mret (Some s)
      | Err e =>
          comm_lost (mappings g);;
          send_health_event "connect_failed" (Some (FinsError.to_string e));;
          mret None
      end
  end.

(** The frame of a read request. *)
Definition read_frame (sid : Z) (g : ReadGroup) : list Z :=
  let params := FinsFrame.build_memory_read (area g) (start_address g) 0 (word_count g) in
  FinsFrame.wrap_fins_tcp (FinsFrame.build_fins_frame sid FinsFrame.cmd_memory_read params).

(** Lines 741-901: one read group; [false] is [break]. *)
Definition read_group (fuel : nat) (g : ReadGroup) : MF bool :=
  sid ← next_sid;
  let wrapped := read_frame sid g in
  maybe_stream ← read_stream fuel g;
  match maybe_stream with
  | None => mret false
  | Some stream =>
      emit (EvSend wrapped);;
      '(res, stream) ← exchange stream wrapped;
      match res with
      | Err _ => comm_lost (mappings g);; modify (set_conn None);; mret false
      | Ok payload => modify (set_conn (Some stream));; read_response g sid payload
      end
  end.

(** [for group in &self.read_groups] *)
Fixpoint read_loop (fuel : nat) (gs : list ReadGroup) : MF unit :=
  match gs with
  | [] => mret tt
  | g :: gs =>
      continue ← read_group fuel g;
      if (continue : bool) then read_loop fuel gs else mret tt
  end.

(** Lines 504-523: make sure there is a connection. *)
Definition ensure_connection (fuel : nat) : MF unit :=
  maybe_conn ← gets conn;
  modify (set_conn None);;
  match maybe_conn with
  | None =>
      r ← connect_with_backoff fuel;
      match r with
      | Ok s => modify (set_conn (Some s))
      | Err e => throw e
      end
  | Some _ => modify (set_conn maybe_conn)
  end.

(** [run_read_cycle_impl]; [fuel] bounds each reconnect loop. *)
Definition run_read_cycle_impl (fuel : nat) : MF unit :=
  ensure_connection fuel;;
  process_writes fuel 64;;
  read_loop fuel read_groups.
End cycle.
End defs.
End FinsDriver.
