(* ===== verification/FinsRef.v ===== *)
(** * A concrete FINS environment, for the witnesses

    A PLC with word-addressed memory areas behind a link that is up or down, a queue
    of write requests, and a clock that advances by one nanosecond per reading.  It
    parses the frames it is sent, serves reads and writes from its memory, and answers
    with end code zero under the request's session id; the answer waits in an inbox. *)

From stdpp Require Import base tactics numbers list gmap strings.
From S2P Require Import Prelude Effects RustStd RustStr RustSlice RustMap Ranges Crates CratesRef TagValue Tag TagDefinition TagStore Registry RegistryRef DriverWorld ModbusTypes ModbusCodec ModbusPlan FinsTypes FinsCodec FinsPlan FinsDriver.
Local Open Scope Z_scope.

Module FinsRef.
Import FinsIO.
Export RegistryRef.
#[local] Existing Instances CratesRef.chrono_ref CratesRef.json_ref CratesRef.byteorder_ref
  CratesRef.bytes_ref.

Definition wf_request : Type := { req : FinsWriteRequest | TagValue.wf (FinsWriteRequest.value req) }.

Record RefEnv := mkRef {
  queue : list wf_request;
  memory : Z → Z → Z;
  link : bool;
  inbox : list Z;
  time : Z;
}.

Definition set_queue (q : list wf_request) (e : RefEnv) : RefEnv :=
  {| queue := q; memory := memory e; link := link e; inbox := inbox e; time := time e |}.
Definition set_inbox (l : list Z) (e : RefEnv) : RefEnv :=
  {| queue := queue e; memory := memory e; link := link e; inbox := l; time := time e |}.
Definition set_memory (m : Z → Z → Z) (e : RefEnv) : RefEnv :=
  {| queue := queue e; memory := m; link := link e; inbox := inbox e; time := time e |}.
Definition tick (e : RefEnv) : RefEnv :=
  {| queue := queue e; memory := memory e; link := link e; inbox := inbox e; time := time e + 1 |}.

Definition ref_recv (e : RefEnv) : recv * RefEnv :=
  match queue e with
  | [] => (Empty, e)
  | req :: rest => (Received (proj1_sig req), set_queue rest e)
  end.

(** The words of a write request. *)
Fixpoint ref_words (l : list Z) : list Z :=
  match l with
  | a :: b :: l => be_value [a; b] :: ref_words l
  | _ => []
  end.
Definition ref_store (area address : Z) (words : list Z) (mem : Z → Z → Z) : Z → Z → Z :=
  λ ar a,
    match words !! Z.to_nat (a - address) with
    | Some w => if (ar =? area) && (address <=? a) then w else mem ar a
    | None => mem ar a
    end.

(** The answer to a frame. *)
Definition ref_reply (sid command : Z) (data : list Z) : list Z :=
  FinsFrame.wrap_fins_tcp ([192; 0; 2; 0; 0; 0; 0; 0; 0] ++ [sid; 1; command; 0; 0] ++ data).
Definition ref_handle (frame : list Z) (e : RefEnv) : RefEnv :=
  let sid := frame !!! 9%nat in
  let command := frame !!! 11%nat in
  let area := frame !!! 12%nat in
  let address := be_value [frame !!! 13%nat; frame !!! 14%nat; frame !!! 15%nat] in
  let count := be_value [frame !!! 17%nat; frame !!! 18%nat] in
  if command =? 1 then
    set_inbox (ref_reply sid command
      (ModbusCodec.registers_to_bytes (memory e area <$> seqZ address count))) e
  else
    set_inbox (ref_reply sid command [])
      (set_memory (ref_store area address (ref_words (drop 19 frame)) (memory e)) e).

Definition ref_write_all (bytes : list Z) (e : RefEnv) : result unit string * RefEnv :=
  if link e then (Ok tt, ref_handle (drop 8 bytes) e) else (Err "Broken pipe"%string, e).
Definition ref_read_exact (n : Z) (e : RefEnv) : result (list Z) string * RefEnv :=
  if (0 <=? n) && (Z.to_nat n <=? length (inbox e))%nat
  then (Ok (as_u8 <$> take (Z.to_nat n) (inbox e)), set_inbox (drop (Z.to_nat n) (inbox e)) e)
  else (Err "early eof"%string, e).

Definition with_stream {A B} (stream : B) (p : A * RefEnv) : A * B * RefEnv :=
  (p.1, stream, p.2).

Program Definition fins_io_ref : FinsIO := {|
  Env := RefEnv;
  SocketAddr := unit;
  TcpStream := unit;
  connect _ e := (if link e then Ok tt else Err "connection refused"%string, e);
  write_all stream bytes e := Some (with_stream stream (ref_write_all bytes e));
  read_exact stream n e := Some (with_stream stream (ref_read_exact n e));
  try_recv := ref_recv;
  sleep _ e := e;
  utc_now e := (time e, tick e);
|}.
Next Obligation.
  intros stream n e bytes stream' e'. unfold ref_read_exact.
  destruct (0 <=? n) eqn:Hn; [|done]. destruct (_ <=? _)%nat eqn:Hl; [|done]. simpl.
  apply Z.leb_le in Hn. apply Nat.leb_le in Hl. intros [= <- _ _]. split.
  - rewrite length_fmap, length_take. lia.
  - apply Forall_fmap, Forall_true. intros x. simpl. auto with bridge.
Qed.
Next Obligation.
  intros e req e'. unfold ref_recv. destruct (queue e) as [|[r Hr] l]; [done|].
  by intros [= <- _].
Qed.
#[local] Existing Instance fins_io_ref.

Definition ref_env (queue : list wf_request) (mem : Z → Z → Z) : RefEnv :=
  {| queue := queue; memory := mem; link := true; inbox := []; time := 0 |}.

(** The tag definition of a mapping. *)
Definition definition_of (m : TagMapping) : TagDefinition :=
  let id := TagMapping.tag_id m in
  TagDefinition.new id id "addr" (TagMapping.data_type m) "plc".

(** ** Its answers *)

Lemma as_u8_bytes l : is_bytes l → as_u8 <$> l = l.
Proof. induction 1 as [|x l Hx Hl IH]; [done|]. rewrite fmap_cons, IH. by rewrite as_u8_id. Qed.

(** Reading back a wrapped answer: the header announces the rest. *)
Lemma read_reply payload e :
  is_bytes payload → Z.of_nat (length payload) < 2 ^ 32 →
  inbox e = FinsFrame.wrap_fins_tcp payload →
  ∃ header, header = take 8 (FinsFrame.wrap_fins_tcp payload) ∧
    ref_read_exact 8 e = (Ok header, set_inbox payload e) ∧
    FinsFrame.header_len header = Z.of_nat (length payload) ∧
    ref_read_exact (Z.of_nat (length payload)) (set_inbox payload e)
      = (Ok payload, set_inbox [] e).
Proof.
  intros Hb Hl Hin. destruct (FinsFrame.header_len_wrap payload Hl) as [Hh Hd].
  exists (take 8 (FinsFrame.wrap_fins_tcp payload)).
  assert (is_bytes (take 8 (FinsFrame.wrap_fins_tcp payload)) ∧
          (8 ≤ length (FinsFrame.wrap_fins_tcp payload))%nat) as [Hb8 Hl8].
  { rewrite FinsFrame.wrap_fins_tcp_eq by done. rewrite !ModbusCodec.registers_to_bytes_cons.
    split; [|simpl; lia]. cbn [app take]. unfold is_bytes.
    repeat apply Forall_cons_2; try apply Forall_nil_2; auto with bridge; done. }
  split_and!; [done| |done|].
  - unfold ref_read_exact. rewrite Hin. change (Z.to_nat 8) with 8%nat.
    rewrite (proj2 (Nat.leb_le _ _)) by done. cbn [Z.leb andb Z.compare].
    rewrite as_u8_bytes by done. by rewrite Hd.
  - unfold ref_read_exact. simpl inbox. rewrite (proj2 (Z.leb_le _ _)) by lia.
    rewrite Nat2Z.id, (proj2 (Nat.leb_le _ _)) by done. simpl.
    rewrite firstn_all, drop_all, as_u8_bytes by done. done.
Qed.

(** The exchange of a frame the PLC answers with [payload]. *)
Lemma ref_exchange stream frame payload e e1 :
  link e = true → ref_handle (drop 8 frame) e = set_inbox (FinsFrame.wrap_fins_tcp payload) e1 →
  is_bytes payload → Z.of_nat (length payload) < 2 ^ 32 →
  FinsDriver.exchanged stream frame e = Some (Ok payload, stream, set_inbox [] e1).
Proof.
  intros Hl Hhandle Hb Hlen. unfold FinsDriver.exchanged.
  destruct (read_reply payload (set_inbox (FinsFrame.wrap_fins_tcp payload) e1)) as
    (header & _ & H8 & Hh & Hn); [done..|].
  change (write_all stream ?l e) with (Some (with_stream stream (ref_write_all l e))).
  unfold ref_write_all. rewrite Hl, Hhandle. cbn [with_stream fst snd mbind option_bind].
  change (read_exact stream ?n ?x) with (Some (with_stream stream (ref_read_exact n x))).
  rewrite H8. cbn [with_stream fst snd mbind option_bind]. rewrite Hh.
  change (read_exact stream ?n ?x) with (Some (with_stream stream (ref_read_exact n x))).
  by rewrite Hn.
Qed.

(** A read request is answered from the memory. *)
Lemma ref_handle_read sid area address count e :
  is_u16 count → 0 ≤ address < 2 ^ 24 →
  ref_handle (drop 8 (FinsWire.read_request sid area address 0 count)) e =
    set_inbox (ref_reply sid 1
      (ModbusCodec.registers_to_bytes (memory e area <$> seqZ address count))) e.
Proof.
  intros Hc Ha. transitivity (set_inbox (ref_reply sid 1 (ModbusCodec.registers_to_bytes
    (memory e area <$> seqZ (be_value (FinsWire.be3 address)) (be_value (FinsWire.be2 count))))) e);
    [reflexivity|].
  assert (be_value (FinsWire.be3 address) = address) as ->.
  { rewrite <- FinsWire.be3_address, FinsFrame.be_value_address by lia. by apply Z.mod_small. }
  assert (be_value (FinsWire.be2 count) = count) as ->; [|done].
  rewrite <- FinsWire.be2_word by done. exact (hi_lo_byte _ Hc).
Qed.

(** The request on the wire, and the answer behind it. *)
Lemma ref_wire_read stream sid area address count e :
  link e = true → is_u8 sid → is_u16 count → 0 ≤ address < 2 ^ 24 →
  (∀ a, is_u16 (memory e area a)) →
  let answer := FinsWire.answer [192; 0; 2; 0; 0; 0; 0; 0; 0] sid 1 1 0 0
                  (FinsWire.words (memory e area <$> seqZ address count)) in
  ∃ e1 e2,
    write_all stream (FinsWire.read_request sid area address 0 count) e = Some (Ok tt, stream, e1) ∧
    read_exact stream 8 e1 =
      Some (Ok ([70; 73; 78; 83] ++ FinsWire.be4 (Z.of_nat (length answer))), stream, e2) ∧
    read_exact stream (Z.of_nat (length answer)) e2 = Some (Ok answer, stream, set_inbox [] e).
Proof.
  intros Hl Hsid Hc Ha Hmem answer.
  assert (answer = [192; 0; 2; 0; 0; 0; 0; 0; 0] ++ [sid; 1; 1; 0; 0] ++
    ModbusCodec.registers_to_bytes (memory e area <$> seqZ address count)) as Hans.
  { unfold answer, FinsWire.answer. rewrite FinsWire.words_bytes; [done|].
    apply Forall_fmap, Forall_true. intros a. apply Hmem. }
  assert (is_bytes answer) as Hb.
  { rewrite Hans. unfold is_bytes. cbn [app]. repeat (apply Forall_cons_2; [done|]).
    apply ModbusCodec.registers_to_bytes_bytes. }
  assert (Z.of_nat (length answer) < 2 ^ 32) as Hlen.
  { rewrite Hans. simpl. rewrite ModbusCodec.registers_to_bytes_length, length_fmap, length_seqZ.
    unfold is_u16 in Hc. lia. }
  destruct (read_reply answer (set_inbox (FinsFrame.wrap_fins_tcp answer) e)) as
    (header & Hheader & H8 & Hh & Hn); [done..|].
  assert (header = [70; 73; 78; 83] ++ FinsWire.be4 (Z.of_nat (length answer))) as ->.
  { by rewrite Hheader, FinsWire.wrap_tcp. }
  exists (set_inbox (FinsFrame.wrap_fins_tcp answer) e), (set_inbox answer e).
  change (write_all stream ?l e) with (Some (with_stream stream (ref_write_all l e))).
  change (read_exact stream ?n ?x) with (Some (with_stream stream (ref_read_exact n x))).
  unfold ref_write_all. rewrite Hl, ref_handle_read by done.
  split; [unfold ref_reply; by rewrite Hans|].
  split; [exact (f_equal (λ p, Some (with_stream stream p)) H8)|].
  exact (f_equal (λ p, Some (with_stream stream p)) Hn).
Qed.

(** The exchange of a read request is answered from the memory. *)
Lemma ref_exchange_read stream sid g e :
  link e = true → is_u8 sid → is_u16 (FinsPlan.word_count g) →
  0 ≤ FinsPlan.start_address g < 2 ^ 24 →
  FinsDriver.exchanged stream (FinsDriver.read_frame sid g) e =
    Some (Ok ([192; 0; 2; 0; 0; 0; 0; 0; 0] ++ [sid; 1; 1; 0; 0] ++
         ModbusCodec.registers_to_bytes (memory e (FinsPlan.area g) <$>
           seqZ (FinsPlan.start_address g) (FinsPlan.word_count g))), stream, set_inbox [] e).
Proof.
  intros Hl Hsid Hw Ha.
  set (data := ModbusCodec.registers_to_bytes _).
  set (payload := _ ++ _ ++ data).
  assert (is_bytes payload) as Hb.
  { unfold payload, data, is_bytes. cbn [app]. repeat (apply Forall_cons_2; [done|]).
    apply ModbusCodec.registers_to_bytes_bytes. }
  assert (Z.of_nat (length payload) < 2 ^ 32) as Hlen.
  { unfold payload, data. simpl. rewrite ModbusCodec.registers_to_bytes_length, length_fmap, length_seqZ.
    unfold is_u16 in Hw. lia. }
  assert (ref_handle (drop 8 (FinsDriver.read_frame sid g)) e
          = set_inbox (FinsFrame.wrap_fins_tcp payload) e) as Hhandle.
  { unfold FinsDriver.read_frame. rewrite FinsWire.build_read by done. by apply ref_handle_read. }
  by apply ref_exchange.
Qed.
End FinsRef.
