(* ===== verification/FinsCycle.v ===== *)
(** * FINS driver: properties of the cycle

    What a cycle of [FinsDriver] can do: which frames it sends, which requests it
    confirms, how it ends, and what the response to each request leaves in the
    registry. *)

From stdpp Require Import base tactics numbers list gmap strings.
From S2P Require Import Prelude Effects RustStd RustStr RustSlice RustMap Ranges Crates CratesRef TagValue Tag TagDefinition TagStore Registry RegistryRef DriverWorld ModbusTypes ModbusCodec FinsTypes FinsCodec FinsPlan FinsDriver FinsRef.
Local Open Scope Z_scope.

Module FinsCycle.
Import FinsError FinsIO FinsPlan RegistryOps FinsDriver.
Section lemmas.
Context {C : Chrono} {BY : Bytes} {B : ByteOrder} {J : SerdeJson} {IO : FinsIO}.
Context (config : FinsConfig SocketAddr).
Notation MF := (M World DriverError).

(** ** The requests of a log, and the replies *)

Definition received (l : list event) : list FinsWriteRequest :=
  omap (λ ev, match ev with EvReceived req => Some req | _ => None end) l.
Definition sent (l : list event) : list (list Z) :=
  omap (λ ev, match ev with EvSend f => Some f | _ => None end) l.
Definition replied (l : list event) : list nat :=
  omap (λ ev, match ev with EvReply chan _ => Some chan | _ => None end) l.
(** The channels on which the requests wait for a confirmation. *)
Definition awaited (l : list event) : list nat := omap FinsWriteRequest.reply (received l).

Lemma fins_received_app l1 l2 : received (l1 ++ l2) = received l1 ++ received l2.
Proof. apply omap_app. Qed.
Lemma sent_app l1 l2 : sent (l1 ++ l2) = sent l1 ++ sent l2.
Proof. apply omap_app. Qed.
Lemma fins_replied_app l1 l2 : replied (l1 ++ l2) = replied l1 ++ replied l2.
Proof. apply omap_app. Qed.
Lemma awaited_app l1 l2 : awaited (l1 ++ l2) = awaited l1 ++ awaited l2.
Proof. unfold awaited. by rewrite fins_received_app, omap_app. Qed.

(** ** What each step emits *)

Definition inv (w : World) : Prop := TagRegistry.wf (registry w).
Notation emits := (Effects.emits (E:=DriverError) inv log).

(** The trivial fact about the environment. *)
Definition any (_ : Env) : Prop := True.
Lemma any_now e : any e → any (dw_now (W:=World) e).2.
Proof. done. Qed.

Lemma inv_good w : inv w → good (W:=World) any w.
Proof. by constructor. Qed.

Lemma moved_inv U f w w' :
  moved (W:=World) U f w w' →
  inv w' ∧ conn w' = conn w ∧ sid_counter w' = sid_counter w ∧ health_tx w' = health_tx w ∧
  log w' = log w.
Proof.
  intros [[Hwf _] _ Hrest _]. cbn in Hrest. unfold rest in Hrest. by injection Hrest as -> -> -> ->.
Qed.

Lemma fins_set_tag_quality_gives id q : emits (set_tag_quality id q) (gives []).
Proof.
  intros w Hw. eapply (wp_set_tag_quality any any_now id q
    (λ o w', o ≠ Panic ∧ inv w' ∧ ∃ l, log w' = log w ++ l ∧ gives [] o l) w (inv_good w Hw)).
  intros w' (? & _ & _ & _ & Hl)%moved_inv. split; [done|]. split; [done|].
  exists []. rewrite app_nil_r. split; [done|]. split; [by eexists|done].
Qed.

Lemma fins_update_tag_value_gives id v q ts : emits (update_tag_value id v q ts) (gives []).
Proof.
  intros w Hw. eapply (wp_update_tag_value any any_now id v q ts
    (λ o w', o ≠ Panic ∧ inv w' ∧ ∃ l, log w' = log w ++ l ∧ gives [] o l) w (inv_good w Hw)).
  intros res w' (? & _ & _ & _ & Hl)%moved_inv _. split; [done|]. split; [done|].
  exists []. rewrite app_nil_r. split; [done|]. split; [by eexists|done].
Qed.

Lemma fins_env_op_gives {A} (f : Env → A * Env) : emits (env_op f) (gives []).
Proof.
  intros w Hw. unfold env_op. cbn. destruct (f (env w)) as [a e]. simpl.
  split; [discriminate|]. split; [exact Hw|]. exists [].
  split; [symmetry; apply app_nil_r|]. split; [by eexists|done].
Qed.

(** A call that may never complete. *)
Lemma fins_await_gives {A} (f : Env → option (A * Env)) :
  emits (await_op f) (λ o l, ((∃ a, o = Ret a) ∨ o = Pending) ∧ l = []).
Proof.
  intros w Hw. unfold await_op. cbn. destruct (f (env w)) as [[a e]|]; simpl;
    (split; [discriminate|]; split; [exact Hw|]; exists []; split; [symmetry; apply app_nil_r|]);
    (split; [|done]); [left; by eexists|by right].
Qed.

(** An exchange emits nothing; its result is that of [exchanged], if it has one. *)
Lemma exchange_emits stream frame :
  emits (exchange stream frame) (λ o l, ((∃ a, o = Ret a) ∨ o = Pending) ∧ l = []).
Proof.
  unfold exchange. eapply emits_bind; [apply fins_await_gives|..].
  - intros [[[]|e] st] l [_ ->]; [|apply emits_ret; by eauto].
    eapply emits_bind; [apply fins_await_gives|..].
    + intros [[h|e] st'] l [_ ->]; [|apply emits_ret; by eauto]. apply fins_await_gives.
    + by intros e l [[[? ?]|?] _].
    + intros l [_ ->]. by eauto.
  - by intros e l [[[? ?]|?] _].
  - intros l [_ ->]. by eauto.
Qed.
Lemma exchange_run stream frame w :
  match exchanged stream frame (env w) with
  | Some (res, stream', e') => exchange stream frame w = (Ret (res, stream'), set_env e' w)
  | None => ∃ e', exchange stream frame w = (Pending, set_env e' w)
  end.
Proof.
  assert (w = set_env (env w) w) as Hw by by destruct w.
  unfold exchange, exchanged, mbind, M_bind, await_op. simpl.
  destruct (write_all stream frame (env w)) as [[[[[]|err] st] e]|]; simpl;
    [|done|exists (env w); by rewrite <- Hw].
  destruct (read_exact st 8 e) as [[[[h|err] st'] e']|]; simpl; [|done|by exists e].
  by destruct (read_exact st' _ e') as [[[r st''] e'']|]; simpl; [|exists e'].
Qed.
Lemma wp_exchange stream frame Q res stream' e' w :
  exchanged stream frame (env w) = Some (res, stream', e') → Q (Ret (res, stream')) (set_env e' w) →
  wp (exchange stream frame) Q w.
Proof. intros Hex HQ. pose proof (exchange_run stream frame w) as H. rewrite Hex in H. unfold wp. by rewrite H. Qed.
Lemma wp_exchange_never stream frame Q w :
  exchanged stream frame (env w) = None → (∀ e', Q Pending (set_env e' w)) → wp (exchange stream frame) Q w.
Proof.
  intros Hex HQ. pose proof (exchange_run stream frame w) as H. rewrite Hex in H.
  destruct H as [e' H]. unfold wp. rewrite H. exact (HQ e').
Qed.

(** An environment call, keeping what its result is. *)
Lemma fins_emits_bind_env {A D} (f : Env → A * Env) (k : A → MF D) Q :
  (∀ e a e', f e = (a, e') → emits (k a) Q) → emits (env_op f ≫= k) Q.
Proof.
  intros Hk w Hw. unfold env_op, mbind, M_bind. cbn. destruct (f (env w)) as [a e] eqn:Hf.
  exact (Hk _ _ _ Hf (set_env e w) Hw).
Qed.

Lemma fins_emit_gives ev : emits (emit ev) (gives [ev]).
Proof. by apply emits_gives_modify. Qed.
Lemma set_conn_gives c : emits (modify (set_conn c)) (gives []).
Proof. apply emits_gives_modify. intros w Hw. split; [done|]. simpl. by rewrite app_nil_r. Qed.
Lemma fins_set_env_gives (f : World → Env) : emits (modify (λ w, set_env (f w) w)) (gives []).
Proof. apply emits_gives_modify. intros w Hw. split; [done|]. simpl. by rewrite app_nil_r. Qed.
Lemma set_sid_gives n : emits (modify (set_sid n)) (gives []).
Proof. apply emits_gives_modify. intros w Hw. split; [done|]. simpl. by rewrite app_nil_r. Qed.

Lemma next_sid_gives : emits next_sid (gives []).
Proof.
  eapply (emits_bind_gives _ _ _ _ []); [apply emits_gives_gets|]. intros sid.
  eapply (emits_bind_gives _ _ _ _ []); [apply set_sid_gives|]. intros _. apply emits_gives_ret.
Qed.

(** The event a reply is, if the request asked for one. *)
Definition reply_events (reply : option nat) (r : result unit string) : list event :=
  match reply with Some chan => [EvReply chan r] | None => [] end.

Lemma fins_send_reply_gives reply r : emits (send_reply reply r) (gives (reply_events reply r)).
Proof. destruct reply; [apply fins_emit_gives|apply emits_gives_ret]. Qed.

Create HintDb femits.
Hint Resolve emits_gives_ret emits_gives_gets fins_env_op_gives fins_emit_gives set_conn_gives
  fins_set_env_gives fins_set_tag_quality_gives fins_update_tag_value_gives fins_send_reply_gives next_sid_gives
  : femits.

(** Run the next step, whose events are known. *)
Ltac step := eapply emits_bind_gives; [solve [eauto with femits]|intros ?; cbn beta].
Ltac finish :=
  eapply emits_mono; [solve [eauto with femits]|intros ? ? _ [[? ->] ->]].

(** ** Reconnecting *)

(** The successive pauses of the reconnect loop, from the first one on. *)
Fixpoint backoffs (n : nat) (b : Z) : list Z :=
  match n with
  | O => []
  | S n => b :: backoffs n (Z.min (u64_saturating_mul b 2) (FinsConfig.max_backoff_secs config))
  end.
Definition retry_events (pauses : list Z) : list event :=
  concat ((λ s, [EvConnect false; EvSleep s]) <$> pauses).

(** The loop only ends by connecting, after some failed attempts; it never returns an
    error. *)
Definition connect_trace (fuel : nat) (b : Z)
    (o : outcome DriverError (result TcpStream DriverError)) (l : list event) : Prop :=
  (∃ n s, (n < fuel)%nat ∧ o = Ret (Ok s) ∧ l = retry_events (backoffs n b) ++ [EvConnect true]) ∨
  (o = Pending ∧ l = retry_events (backoffs fuel b)).

Lemma fins_connect_loop_emits fuel b : emits (connect_loop config fuel b) (connect_trace fuel b).
Proof.
  revert b. induction fuel as [|fuel IH]; intros b; simpl.
  { apply emits_pending. by right. }
  step. destruct a as [s|e].
  - step. apply emits_ret. left. exists 0%nat, s. split; [lia|]. by split.
  - step. step. step. eapply emits_mono; [apply IH|]. intros o l _ [(n & s & Hn & -> & ->)|[-> ->]].
    + left. exists (S n), s. split; [lia|]. by split.
    + right. by split.
Qed.

Lemma fins_retry_events_quiet pauses :
  received (retry_events pauses) = [] ∧ sent (retry_events pauses) = [] ∧
  replied (retry_events pauses) = [].
Proof. unfold retry_events. by induction pauses. Qed.

(** What (re)connecting for a request emits: nothing, or attempts up to a success. *)
Definition connected (l : list event) : Prop :=
  l = [] ∨ ∃ n, l = retry_events (backoffs n 1) ++ [EvConnect true].

Lemma connected_quiet l : connected l → received l = [] ∧ sent l = [] ∧ replied l = [].
Proof.
  intros [->|(n & ->)]; [done|]. rewrite fins_received_app, sent_app, fins_replied_app.
  by destruct (fins_retry_events_quiet (backoffs n 1)) as (-> & -> & ->).
Qed.

Lemma ensure_connection_emits fuel :
  emits (ensure_connection config fuel)
    (λ o l, (o = Ret tt ∧ connected l) ∨ (o = Pending ∧ l = retry_events (backoffs fuel 1))).
Proof.
  unfold ensure_connection. step. step. destruct a as [s|].
  - finish. destruct x. left. split; [done|]. by left.
  - eapply emits_bind; [apply fins_connect_loop_emits|..].
    + intros r l1 [(n & s & Hn & [= ->] & ->)|[? _]]; [|done].
      finish. destruct x. left. split; [done|]. right. exists n. by rewrite app_nil_r.
    + by intros e l [(? & ? & _ & ? & _)|[? _]].
    + intros l [(? & ? & _ & ? & _)|[_ ->]]; [done|]. by right.
Qed.

(** ** Queued writes *)

(** The frame a request is entitled to: that of a mapped, writable tag, at the mapping's
    place, with the words of the requested value in the mapping's byte order. *)
Definition entitled (req : FinsWriteRequest) (frame : list Z) : Prop :=
  ∃ m words ordered sid,
    find (λ m, bool_decide (TagMapping.tag_id m = FinsWriteRequest.tag_id req))
      (FinsConfig.mappings config) = Some m ∧
    TagMapping.writable m = true ∧
    FinsCodec.tagvalue_to_words_standard (FinsWriteRequest.value req) = Ok words ∧
    FinsCodec.order_words words (TagMapping.byte_order m) = Some (Some ordered) ∧
    frame = write_frame sid m ordered.

(** Everything a dequeued request can do: it sends at most one frame, one it is entitled
    to; it never ends the cycle; and once it is done, its requester has been told. *)
Record write_trace (req : FinsWriteRequest) (o : outcome DriverError unit) (l : list event)
    : Prop := {
  wt_ends : o = Ret tt ∨ o = Pending;
  wt_received : received l = [];
  wt_sent : (length (sent l) ≤ 1)%nat ∧ Forall (entitled req) (sent l);
  wt_replied : o = Ret tt → replied l = option_list (FinsWriteRequest.reply req);
}.

Lemma reply_trace req o r : o = Ret tt → write_trace req o (reply_events (FinsWriteRequest.reply req) r).
Proof.
  intros ->. destruct req as [? ? [chan|]]; simpl;
    (constructor; simpl; [by left|done|split; [lia|constructor]|done]).
Qed.

(** The quality a response marks the tag with ([None]: the value is shown as good), and
    what the requester is told. *)
Definition write_verdict (sid : Z) (res : result (list Z) string)
    : option TagQuality * result unit string :=
  match res with
  | Err e => (Some TagQuality.CommLost, Err ("IO error: " +:+ e))
  | Ok payload =>
      match FinsFrame.parse_fins_response payload with
      | Err e => (Some (TagQuality.Error ("parse_write_resp: " +:+ FinsError.to_string e)),
                  Err ("Parse error: " +:+ FinsError.to_string e))
      | Ok (resp_sid, end_code, _) =>
          if resp_sid =? sid then
            if end_code =? 0 then (None, Ok tt)
            else (Some (TagQuality.Error (end_code_text end_code)), Err (end_code_text end_code))
          else (Some TagQuality.CommLost, Err "SID mismatch"%string)
      end
  end.

(** The PLC consents to the request in a frame: its answer has the session id of the
    frame, and end code zero. *)
Definition consents (frame payload : list Z) : Prop :=
  ∃ hd c0 c1 e0 e1 data, length hd = 9%nat ∧ e0 * 256 + e1 = 0 ∧
    payload = FinsWire.answer hd (frame !!! 17%nat) c0 c1 e0 e1 data.

Lemma write_frame_sid sid m ordered : write_frame sid m ordered !!! 17%nat = sid.
Proof.
  unfold write_frame, FinsFrame.wrap_fins_tcp.
  by rewrite !put_slice_ok, put_u32_ok by apply as_u32_range.
Qed.
Lemma verdict_consents sid m ordered res :
  (write_verdict sid res).2 = Ok tt →
  ∃ payload, res = Ok payload ∧ consents (write_frame sid m ordered) payload.
Proof.
  destruct res as [payload|e]; simpl; [|done].
  destruct (FinsFrame.parse_fins_response payload) as [[[s e] data]|e] eqn:Hp; [|done].
  destruct (Z.eqb_spec s sid) as [->|]; [|done]. destruct (Z.eqb_spec e 0) as [->|]; [|done].
  intros _. exists payload. split; [done|]. unfold consents. rewrite write_frame_sid.
  apply FinsFrame.parse_fins_response_ok in Hp as (hd & c0 & c1 & e0 & e1 & Hl & He & ->).
  by exists hd, c0, c1, e0, e1, data.
Qed.

Lemma write_response_emits req id sid payload :
  emits (write_response req id sid payload)
    (λ o l, o = Ret tt ∧
       l = reply_events (FinsWriteRequest.reply req) (write_verdict sid (Ok payload)).2).
Proof.
  unfold write_response, write_verdict.
  destruct (FinsFrame.parse_fins_response payload) as [[[resp_sid end_code] data]|e]; cbv zeta.
  - destruct (resp_sid =? sid); simpl negb; cbv match.
    + destruct (end_code =? 0); simpl negb; cbv match.
      * step. step. finish. by destruct x.
      * step. finish. by destruct x.
    + step. finish. by destruct x.
  - step. finish. by destruct x.
Qed.

Lemma write_stream_emits fuel req id :
  emits (write_stream config fuel req id)
    (λ o l, ((∃ s, o = Ret (Some s)) ∧ connected l) ∨
            (o = Pending ∧ l = retry_events (backoffs fuel 1))).
Proof.
  unfold write_stream. step. step. destruct a as [s|].
  - apply emits_ret. left. split; [by eexists|by left].
  - eapply emits_bind; [apply fins_connect_loop_emits|..].
    + intros r l1 [(n & s & Hn & [= ->] & ->)|[? _]]; [|done].
      apply emits_ret. left. split; [by eexists|]. right. exists n. by rewrite app_nil_r.
    + by intros e l [(? & ? & _ & ? & _)|[? _]].
    + intros l [(? & ? & _ & ? & _)|[_ ->]]; [done|]. by right.
Qed.

Lemma write_words_emits fuel req m ordered :
  emits (write_words config fuel req m ordered)
    (λ o l, (o = Pending ∧ l = retry_events (backoffs fuel 1)) ∨
       ∃ sid pre, connected pre ∧
         ((o = Pending ∧ l = pre ++ [EvSend (write_frame sid m ordered)]) ∨
          ∃ res, o = Ret tt ∧
            l = pre ++ EvSend (write_frame sid m ordered) :: EvAnswer res ::
                  reply_events (FinsWriteRequest.reply req) (write_verdict sid res).2)).
Proof.
  unfold write_words. step. cbv zeta.
  eapply emits_bind; [apply write_stream_emits|..].
  - intros s pre [[[s' [= ->]] Hpre]|[? _]]; [|done]. step.
    eapply emits_bind; [apply exchange_emits|..].
    + intros [res stream] l1 [_ ->]. step. destruct res as [payload|e].
      * step. eapply emits_mono; [apply write_response_emits|].
        intros o l _ [-> ->]. right. exists a, pre. split; [done|]. right. by exists (Ok payload).
      * step. step. finish. destruct x. right. exists a, pre. split; [done|]. right. exists (Err e).
        split; [done|]. simpl. by rewrite app_nil_r.
    + by intros e l [[[? ?]|?] _].
    + intros l [_ ->]. right. exists a, pre. split; [done|]. by left.
  - intros e l [[[? ?] _]|[? _]]; done.
  - intros l [[[? ?] _]|[_ ->]]; [done|]. by left.
Qed.

Lemma fins_process_write_emits fuel req :
  TagValue.wf (FinsWriteRequest.value req) → emits (process_write config fuel req) (write_trace req).
Proof.
  intros Hwf. unfold process_write.
  destruct (find _ _) as [m|] eqn:Hfind.
  2: { finish. destruct x. by apply reply_trace. }
  destruct (TagMapping.writable m) eqn:Hw; simpl negb; cbv match.
  2: { finish. destruct x. by apply reply_trace. }
  destruct (FinsCodec.encode_agree _ Hwf) as (words & Hc & _). rewrite Hc.
  destruct (ModbusCodec.order_words_spec words (TagMapping.byte_order m)) as (ordered & Ho & _).
  rewrite <- FinsCodec.order_words_eq in Ho. rewrite Ho, or_panic_bind.
  eapply emits_mono; [apply write_words_emits|].
  intros o l _ [[-> ->]|(sid & pre & Hpre & [[-> ->]|(res & -> & ->)])].
  - destruct (fins_retry_events_quiet (backoffs fuel 1)) as (Hr & Hs & _).
    constructor; rewrite ?Hr, ?Hs; [by right|done|split; [simpl; lia|constructor]|done].
  - destruct (connected_quiet _ Hpre) as (Hr & Hs & _).
    constructor; rewrite ?fins_received_app, ?sent_app, ?Hr, ?Hs; [by right|done| |done].
    split; [done|]. apply Forall_singleton. by exists m, words, ordered, sid.
  - destruct (connected_quiet _ Hpre) as (Hr & Hs & Hp).
    set (r := (write_verdict sid res).2).
    destruct (reply_trace req (Ret tt) r eq_refl) as [_ Hr' _ Hp'].
    assert (sent (reply_events (FinsWriteRequest.reply req) r) = []) as Hs'
      by (by destruct (FinsWriteRequest.reply req)).
    constructor; rewrite ?fins_received_app, ?sent_app, ?fins_replied_app, ?Hr, ?Hs, ?Hp; [by left|exact Hr'| |].
    + change ((length (write_frame sid m ordered :: sent (reply_events (FinsWriteRequest.reply req) r)) ≤ 1)%nat
        ∧ Forall (entitled req) (write_frame sid m ordered :: sent (reply_events (FinsWriteRequest.reply req) r))).
      rewrite Hs'. split; [done|]. apply Forall_singleton. by exists m, words, ordered, sid.
    + intros _. by apply Hp'.
Qed.

(** The whole write phase: at most [n] requests, each frame one that a received request
    is entitled to, and one reply per awaited confirmation, in order. *)
Record writes_trace (n : nat) (o : outcome DriverError unit) (l : list event) : Prop := {
  wst_ends : o = Ret tt ∨ o = Pending;
  wst_received : (length (received l) ≤ n)%nat;
  wst_sent : (length (sent l) ≤ length (received l))%nat ∧
    Forall (λ f, ∃ req, req ∈ received l ∧ entitled req f) (sent l);
  wst_replied : o = Ret tt → replied l = awaited l;
}.

Lemma writes_trace_cons n req o o' l l' :
  write_trace req o l → (o = Ret tt → writes_trace n o' l') → (o = Pending → o' = Pending ∧ l' = []) →
  writes_trace (S n) o' (EvReceived req :: l ++ l').
Proof.
  intros [Hends Hr [Hlen Hs] Hp] Hret Hpend.
  change (EvReceived req :: l ++ l') with ([EvReceived req] ++ l ++ l').
  assert (received ([EvReceived req] ++ l ++ l') = req :: received l') as Hrec
    by (rewrite !fins_received_app, Hr; done).
  assert (sent ([EvReceived req] ++ l ++ l') = sent l ++ sent l') as Hsent
    by (rewrite !sent_app; done).
  assert (Forall (λ f, ∃ req', req' ∈ req :: received l' ∧ entitled req' f) (sent l)) as Hfl.
  { eapply Forall_impl; [exact Hs|]. intros f Hf. exists req. split; [by left|done]. }
  destruct Hends as [-> | ->].
  - destruct (Hret eq_refl) as [Hends' Hr' [Hlen' Hs'] Hp']. constructor; [done|..];
      rewrite ?Hrec, ?Hsent.
    + simpl. lia.
    + split; [rewrite length_app; simpl; lia|]. apply Forall_app. split; [done|].
      eapply Forall_impl; [exact Hs'|]. intros f (req' & ? & ?). exists req'.
      split; [by right|done].
    + intros Ho. rewrite !fins_replied_app, Hp, Hp' by done. unfold awaited. rewrite Hrec.
      by destruct req as [? ? []].
  - destruct (Hpend eq_refl) as [-> ->]. constructor; [by right|..]; rewrite ?Hrec, ?Hsent.
    + simpl. lia.
    + rewrite app_nil_r. split; [simpl; lia|]. done.
    + done.
Qed.

Lemma fins_process_writes_emits fuel n :
  emits (process_writes config fuel n) (writes_trace n).
Proof.
  assert (∀ n, writes_trace n (Ret tt) []) as Hnil
    by (intros; constructor; [by left|simpl; lia|split; [done|constructor]|done]).
  induction n as [|n IH]; simpl; [by apply emits_ret|].
  apply fins_emits_bind_env. intros e r e' Hrecv.
  destruct r as [req| |]; [|by apply emits_ret..].
  apply try_recv_wf in Hrecv. step. 
  eapply emits_bind; [by apply fins_process_write_emits|..].
  - intros [] l1 Ht. eapply emits_mono; [exact IH|]. intros o l2 _ Hl2.
    apply (writes_trace_cons n req (Ret tt) o l1 l2 Ht); done.
  - by intros err l1 [[H|H] _ _ _].
  - intros l1 Ht. rewrite <- (app_nil_r l1).
    by apply (writes_trace_cons n req Pending Pending l1 [] Ht).
Qed.

(** ** Reads *)

Section reads.
Context (rgs : list ReadGroup).

(** A read step dequeues and confirms nothing, and sends only read requests of the
    plan. *)
Definition read_only (l : list event) : Prop :=
  received l = [] ∧ replied l = [] ∧
  Forall (λ f, ∃ sid g, g ∈ rgs ∧ f = read_frame sid g) (sent l).
Definition reads (w w' : World) : Prop := ∃ l, log w' = log w ++ l ∧ read_only l.
(** Only the conversion of an instant can panic. *)
Definition has_date : Prop :=
  ∃ g m, g ∈ rgs ∧ m ∈ mappings g ∧ TagMapping.data_type m = TagDataType.DateTime.
Notation keeps := (Effects.keeps inv reads (λ _ : DriverError, False) has_date).

#[local] Instance reads_preorder : PreOrder reads.
Proof.
  split.
  - intros w. exists []. rewrite app_nil_r. by repeat split; try constructor.
  - intros w1 w2 w3 (l & Hl & Hr & Hp & Hs) (l' & Hl' & Hr' & Hp' & Hs').
    exists (l ++ l'). rewrite Hl', Hl, (assoc_L (++)). split; [done|]. unfold read_only.
    rewrite fins_received_app, fins_replied_app, sent_app, Hr, Hr', Hp, Hp'.
    split; [done|]. split; [done|]. by apply Forall_app.
Qed.

(** Steps whose events are known and quiet. *)
Lemma emits_keeps {A} (m : MF A) (Q : outcome DriverError A → list event → Prop) :
  emits m Q → (∀ o l, Q o l → read_only l ∧ ∀ e, o ≠ Fail e) → keeps m.
Proof.
  intros Hm HQ w Hw. destruct (Hm w Hw) as (Hp & Hw' & l & Hl & Hq).
  destruct (HQ _ _ Hq) as [Hro Hf]. unfold wp. split; [done|]. split; [by exists l|].
  destruct (m w) as [[a|e| |] w']; simpl in *; try done. by destruct (Hf e).
Qed.

Lemma gives_keeps {A} (m : MF A) l : emits m (gives l) → read_only l → keeps m.
Proof. intros Hm Hl. eapply emits_keeps; [exact Hm|]. by intros o l' [[a ->] ->]. Qed.

Lemma read_only_nil : read_only [].
Proof. by repeat split; try constructor. Qed.
Lemma read_only_send sid g : g ∈ rgs → read_only [EvSend (read_frame sid g)].
Proof.
  intros Hg. split; [done|]. split; [done|]. apply Forall_singleton. eauto.
Qed.
Lemma read_only_quiet l : received l = [] ∧ sent l = [] ∧ replied l = [] → read_only l.
Proof. intros (Hr & Hs & Hp). unfold read_only. by rewrite Hr, Hs, Hp. Qed.

Hint Resolve read_only_nil read_only_send : femits.
(** The next step is one whose events are known and quiet. *)
Ltac kstep :=
  apply keeps_bind; [apply _|eapply gives_keeps; solve [eauto with femits]|intros ?; cbn beta].
Ltac kfinish := eapply gives_keeps; solve [eauto with femits].

Lemma comm_lost_keeps ms : keeps (comm_lost ms).
Proof. apply keeps_for_each; [apply _|]. intros m _. kfinish. Qed.
Lemma all_error_keeps ms msg : keeps (all_error ms msg).
Proof. apply keeps_for_each; [apply _|]. intros m _. kfinish. Qed.
Lemma send_health_event_keeps status detail : keeps (send_health_event config status detail).
Proof.
  unfold send_health_event. kstep. destruct a; [|kfinish].
  eapply gives_keeps; [apply fins_emit_gives|]. by apply read_only_quiet.
Qed.

Lemma read_stream_keeps fuel g : keeps (read_stream config fuel g).
Proof.
  unfold read_stream. kstep. kstep. destruct a as [s|]; [kfinish|].
  apply keeps_bind; [apply _| |].
  - eapply emits_keeps; [apply fins_connect_loop_emits|].
    intros o l [(n & s & _ & -> & ->)|[-> ->]]; (split; [|done]); apply read_only_quiet.
    + rewrite fins_received_app, sent_app, fins_replied_app.
      by destruct (fins_retry_events_quiet (backoffs n 1)) as (-> & -> & ->).
    + apply fins_retry_events_quiet.
  - intros [s|e]; [kfinish|]. apply keeps_bind; [apply _|apply comm_lost_keeps|]. intros _.
    apply keeps_bind; [apply _|apply send_health_event_keeps|]. intros _. kfinish.
Qed.

Lemma decode_and_update_tag_keeps g m bytes :
  g ∈ rgs → m ∈ mappings g → keeps (decode_and_update_tag m bytes).
Proof.
  intros Hg Hm. unfold decode_and_update_tag, DriverCommon.apply_byte_order.
  rewrite WordOrder.apply_to_bytes_spec, or_panic_bind. kstep.
  destruct (is_err _); [kfinish|].
  apply keeps_bind; [apply _|eapply gives_keeps; [apply fins_env_op_gives|apply read_only_nil]|].
  intros ts. apply keeps_bind; [apply _| |].
  - apply keeps_or_panic; [apply _|]. intros Hnone%FinsCodec.decode_none. by exists g, m.
  - intros [v|e]; [|kfinish]. kstep. kfinish.
Qed.

Lemma update_mapping_keeps g payload m :
  g ∈ rgs → m ∈ mappings g → keeps (update_mapping g payload m).
Proof.
  intros Hg Hm. unfold update_mapping. destruct (extract g payload m); [kfinish|kfinish|].
  apply keeps_bind; [apply _|by eapply decode_and_update_tag_keeps|].
  intros [[]|e]; kfinish.
Qed.

Lemma read_response_keeps g sid payload : g ∈ rgs → keeps (read_response g sid payload).
Proof.
  intros Hg. unfold read_response.
  destruct (FinsFrame.parse_fins_response payload) as [[[resp_sid end_code] data]|e].
  - destruct (negb (resp_sid =? sid)); [|destruct (negb (end_code =? 0))].
    + apply keeps_bind; [apply _|apply comm_lost_keeps|intros _; kfinish].
    + apply keeps_bind; [apply _|apply all_error_keeps|intros _; kfinish].
    + apply keeps_bind; [apply _| |intros _; kfinish]. unfold read_payload.
      destruct (_ <? _)%nat; apply keeps_for_each; try apply _; intros m Hm.
      * destruct (overlaps g m); kfinish.
      * by apply update_mapping_keeps.
  - apply keeps_bind; [apply _|apply all_error_keeps|intros _; kfinish].
Qed.

Lemma read_group_keeps fuel g : g ∈ rgs → keeps (read_group config fuel g).
Proof.
  intros Hg. unfold read_group. kstep.
  apply keeps_bind; [apply _|apply read_stream_keeps|]. intros [stream|]; [|kfinish].
  kstep. apply keeps_bind; [apply _| |].
  { eapply emits_keeps; [apply exchange_emits|]. intros o l [Ho ->].
    split; [apply read_only_nil|]. intros e ->. by destruct Ho as [[? ?]|?]. }
  intros [[payload|e] stream'].
  - kstep. by apply read_response_keeps.
  - apply keeps_bind; [apply _|apply comm_lost_keeps|intros _]. kstep. kfinish.
Qed.

Lemma read_loop_keeps fuel gs : gs ⊆ rgs → keeps (read_loop config fuel gs).
Proof.
  induction gs as [|g gs IH]; intros Hgs; simpl; [kfinish|].
  apply keeps_bind; [apply _|apply read_group_keeps, Hgs; by left|].
  intros []; [|kfinish]. apply IH. intros x Hx. apply Hgs. by right.
Qed.
End reads.

(** ** What a write leaves behind *)

(** The tag is marked, or the value is shown. *)
Definition verdict_shown (ds : gmap string TagDefinition) (id : string) (v : TagValue)
    (q : option TagQuality) (s : shown_map) : shown_map :=
  match q with Some q => Shown.mark id q s | None => Shown.put ds id v TagQuality.Good s end.

Lemma send_reply_run reply r w :
  send_reply reply r w =
    (Ret tt, {| registry := registry w; conn := conn w; sid_counter := sid_counter w;
                health_tx := health_tx w; env := env w; log := log w ++ reply_events reply r |}).
Proof. destruct reply; [done|]. simpl. rewrite app_nil_r. by destruct w. Qed.

(** The end of a write: the tag is marked or updated, then the requester is told. *)
Section write_run.
Context (U : Env → Prop) (HU : ∀ e, U e → U (dw_now (W:=World) e).2).

Lemma write_response_run req id sid payload w :
  good (W:=World) U w →
  wp (write_response req id sid payload) (λ o w',
    o = Ret tt ∧ good (W:=World) U w' ∧ defs w' = defs w ∧ conn w' = conn w ∧
    sid_counter w' = sid_counter w ∧
    log w' = log w ++ reply_events (FinsWriteRequest.reply req) (write_verdict sid (Ok payload)).2 ∧
    shown w' = verdict_shown (defs w) id (FinsWriteRequest.value req)
                 (write_verdict sid (Ok payload)).1 (shown w)) w.
Proof using HU.
  intros Hw. unfold write_response, write_verdict.
  assert (∀ q r, wp (set_tag_quality id q;; send_reply (FinsWriteRequest.reply req) r) (λ o w',
    o = Ret tt ∧ good (W:=World) U w' ∧ defs w' = defs w ∧ conn w' = conn w ∧
    sid_counter w' = sid_counter w ∧
    log w' = log w ++ reply_events (FinsWriteRequest.reply req) r ∧
    shown w' = Shown.mark id q (shown w)) w) as Hmark.
  { intros q r. apply wp_bind, (wp_set_tag_quality U HU); [done|]. intros w1 M1. simpl.
    unfold wp. rewrite send_reply_run. simpl.
    destruct (moved_inv _ _ _ _ M1) as (? & -> & -> & _ & ->).
    destruct M1 as [[] Hd1 _ Hs1]. split_and!; try done. }
  destruct (FinsFrame.parse_fins_response payload) as [[[resp_sid end_code] data]|e]; [|apply Hmark].
  destruct (resp_sid =? sid); simpl negb; cbv match; [|apply Hmark].
  destruct (end_code =? 0); simpl negb; cbv match; [|apply Hmark].
  apply wp_bind, (wp_now U HU); [done|]. intros t w1 M1. simpl after.
  apply wp_bind, (wp_update_tag_value U HU); [apply M1|]. intros res w2 M2 _. simpl after.
  unfold wp. rewrite send_reply_run. simpl.
  destruct (moved_inv _ _ _ _ M1) as (? & Hc1 & Hs1 & _ & Hl1).
  destruct (moved_inv _ _ _ _ M2) as (? & -> & -> & _ & ->).
  destruct M1 as [_ Hd1 _ Hsh1], M2 as [[] Hd2 _ Hsh2]. unfold shown, defs in *. simpl in *.
  split_and!; try done; [congruence|by rewrite Hl1|by rewrite Hsh2, Hsh1, Hd1].
Qed.

(** An accepted write on an open connection. *)
Lemma process_write_run fuel req m stream stream' res e' words ordered w :
  inv w → conn w = Some stream →
  find (λ m, bool_decide (TagMapping.tag_id m = FinsWriteRequest.tag_id req))
    (FinsConfig.mappings config) = Some m →
  TagMapping.writable m = true →
  FinsCodec.tagvalue_to_words_standard (FinsWriteRequest.value req) = Ok words →
  FinsCodec.order_words words (TagMapping.byte_order m) = Some (Some ordered) →
  let frame := write_frame (sid_counter w) m ordered in
  exchanged stream frame (env w) = Some (res, stream', e') → U e' →
  let verdict := write_verdict (sid_counter w) res in
  ∃ w', process_write config fuel req w = (Ret tt, w') ∧ good (W:=World) U w' ∧ defs w' = defs w ∧
    sid_counter w' = as_u8 (sid_counter w + 1) ∧
    conn w' = (if is_ok res then Some stream' else None) ∧
    log w' = log w ++ EvSend frame :: EvAnswer res :: reply_events (FinsWriteRequest.reply req) verdict.2 ∧
    shown w' = verdict_shown (defs w) (TagMapping.tag_id m) (FinsWriteRequest.value req)
                 verdict.1 (shown w).
Proof using HU.
  intros Hw Hc Hf Hwr Hwords Hord frame Hex HUe verdict.
  enough (wp (process_write config fuel req) (λ o w', o = Ret tt ∧ good (W:=World) U w' ∧
    defs w' = defs w ∧ sid_counter w' = as_u8 (sid_counter w + 1) ∧
    conn w' = (if is_ok res then Some stream' else None) ∧
    log w' = log w ++ EvSend frame :: EvAnswer res :: reply_events (FinsWriteRequest.reply req) verdict.2 ∧
    shown w' = verdict_shown (defs w) (TagMapping.tag_id m) (FinsWriteRequest.value req)
                 verdict.1 (shown w)) w) as H.
  { apply wp_exists in H as (o & w' & Hrun & -> & H). by exists w'. }
  unfold process_write. rewrite Hf, Hwr. simpl negb. cbv match.
  rewrite Hwords, Hord, or_panic_bind. unfold write_words, next_sid, write_stream.
  apply wp_bind, wp_bind, wp_gets. simpl after. apply wp_bind, wp_modify, wp_ret. simpl after.
  apply wp_bind, wp_bind, wp_gets. simpl after. rewrite Hc.
  apply wp_bind, wp_modify, wp_ret. simpl after.
  apply wp_bind, wp_modify. simpl after.
  apply wp_bind, (wp_exchange _ _ _ res stream' e'); [exact Hex|]. simpl after.
  apply wp_bind, wp_modify. simpl after.
  destruct res as [payload|err].
  - apply wp_bind, wp_modify. simpl after.
    eapply wp_mono; [apply write_response_run; by constructor|].
    intros o w' (-> & Hw' & -> & -> & -> & -> & ->). split_and!; try done.
    simpl. by rewrite <- !(assoc_L (++)).
  - apply wp_bind, (wp_set_tag_quality U HU); [by constructor|]. intros w1 M1. simpl after.
    apply wp_bind. unfold wp at 1. rewrite send_reply_run. simpl after.
    destruct (moved_inv _ _ _ _ M1) as (? & Hc1 & Hs1 & _ & Hl1). destruct M1 as [[] Hd1 _ Hsh1].
    apply wp_modify. split_and!; try done; simpl.
    rewrite Hl1. simpl. by rewrite <- !(assoc_L (++)).
Qed.

(** The answer never comes: the cycle stays in the write. *)
Lemma process_write_never fuel req m stream words ordered w :
  conn w = Some stream →
  find (λ m, bool_decide (TagMapping.tag_id m = FinsWriteRequest.tag_id req))
    (FinsConfig.mappings config) = Some m →
  TagMapping.writable m = true →
  FinsCodec.tagvalue_to_words_standard (FinsWriteRequest.value req) = Ok words →
  FinsCodec.order_words words (TagMapping.byte_order m) = Some (Some ordered) →
  let frame := write_frame (sid_counter w) m ordered in
  exchanged stream frame (env w) = None →
  ∃ w', process_write config fuel req w = (Pending, w') ∧ registry w' = registry w ∧
    log w' = log w ++ [EvSend frame].
Proof.
  intros Hc Hf Hwr Hwords Hord frame Hex.
  assert (wp (process_write config fuel req) (λ o w', o = Pending ∧ registry w' = registry w ∧
    log w' = log w ++ [EvSend frame]) w) as H.
  2: { apply wp_exists in H as (o & w' & Hrun & -> & H). by exists w'. }
  unfold process_write. rewrite Hf, Hwr. simpl negb. cbv match.
  rewrite Hwords, Hord, or_panic_bind. unfold write_words, next_sid, write_stream.
  apply wp_bind, wp_bind, wp_gets. simpl after. apply wp_bind, wp_modify, wp_ret. simpl after.
  apply wp_bind, wp_bind, wp_gets. simpl after. rewrite Hc.
  apply wp_bind, wp_modify, wp_ret. simpl after.
  apply wp_bind, wp_modify. simpl after.
  by apply wp_bind, wp_exchange_never.
Qed.
End write_run.
End lemmas.

(** ** Properties *)

Section properties.
Context {C : Chrono} {BY : Bytes} {B : ByteOrder} {J : SerdeJson} {IO : FinsIO}.
Context (config : FinsConfig SocketAddr) (rgs : list ReadGroup).

(** C7: a cycle never returns an error, and panics only if some mapping is an instant.
    It keeps the registry consistent; it dequeues at most 64 requests and sends for
    each at most one frame, one the request is entitled to; once it is past the writes,
    every request that awaits a confirmation has got exactly one, in order; after the
    writes it confirms nothing, and sends only the read requests of the plan. *)
Theorem fins_cycle_accounted (fuel : nat) (w w' : World) (o : outcome DriverError unit) :
  inv w → run_read_cycle_impl config rgs fuel w = (o, w') →
  (∀ e, o ≠ Fail e) ∧ (o = Panic → has_date rgs) ∧ inv w' ∧
  ∃ l0 l1 l2, log w' = log w ++ l0 ++ l1 ++ l2 ∧
    (received l0 = [] ∧ sent l0 = [] ∧ replied l0 = []) ∧
    (length (received l1) ≤ 64)%nat ∧ (length (sent l1) ≤ length (received l1))%nat ∧
    Forall (λ f, ∃ req, req ∈ received l1 ∧ entitled config req f) (sent l1) ∧
    (replied l1 = awaited l1 ∨ o = Pending ∧ l2 = []) ∧
    read_only rgs l2.
Proof.
  intros Hw Hrun. refine (wp_run _ (λ o w', _) w o w' _ Hrun). clear Hrun o w'.
  unfold run_read_cycle_impl. apply wp_bind. unfold wp.
  destruct (ensure_connection_emits config fuel w Hw) as (Hp0 & Hw0 & l0 & Hl0 & Hq0).
  destruct (ensure_connection config fuel w) as [o0 w0]. cbn [fst snd] in *.
  assert (received l0 = [] ∧ sent l0 = [] ∧ replied l0 = []) as (Hqr & Hqs & Hqp).
  { destruct Hq0 as [[_ Hc]|[_ ->]]; [by eapply connected_quiet|apply fins_retry_events_quiet]. }
  assert (read_only rgs []) as Hnil by by repeat split; try constructor.
  destruct Hq0 as [[-> _]|[-> _]]; cbn [after].
  2: { split; [done|]. split; [done|]. split; [done|]. exists l0, [], [].
       rewrite !app_nil_r. split_and!; try done; [simpl; lia..|by left]. }
  apply wp_bind. unfold wp.
  destruct (fins_process_writes_emits config fuel 64 w0 Hw0) as (Hp1 & Hw1 & l1 & Hl1 & Hq1).
  destruct (process_writes config fuel 64 w0) as [o1 w1]. cbn [fst snd] in *.
  destruct Hq1 as [[-> | ->] Hr1 [Hs1 Hf1] Hrep1]; cbn [after].
  2: { split; [done|]. split; [done|]. split; [done|]. exists l0, l1, [].
       rewrite app_nil_r, (assoc_L (++)), <- Hl0. split_and!; try done. by right. }
  eapply wp_mono; [by apply (read_loop_keeps config rgs fuel rgs)|].
  intros o w' (Hw' & (l2 & Hl2 & Hro) & Hend).
  split; [by intros e ->|]. split; [by intros ->|]. split; [done|]. exists l0, l1, l2.
  rewrite !(assoc_L (++)), <- Hl0, <- Hl1. split_and!; try done. left. by apply Hrep1.
Qed.

(** C20: an accepted write on an open connection sends exactly one frame, under the next
    session id, and what comes back decides the rest: an answer with the same session id
    and end code zero shows the value as good and confirms it; any other end code or an
    unreadable answer marks the tag with an error that names it; another session id, or
    an I/O error, marks it as lost, and only the I/O error drops the connection.  The
    requester is told in every case, and the cycle goes on.  If the answer never comes,
    the cycle never gets past the write: nothing shown changes, and the requester is not
    told. *)
Theorem fins_write_outcome (fuel : nat) (req : FinsWriteRequest) (m : TagMapping)
    (stream : TcpStream) (words ordered : list Z) (w : World) :
  inv w → conn w = Some stream →
  find (λ m, bool_decide (TagMapping.tag_id m = FinsWriteRequest.tag_id req))
    (FinsConfig.mappings config) = Some m →
  TagMapping.writable m = true →
  FinsCodec.tagvalue_to_words_standard (FinsWriteRequest.value req) = Ok words →
  FinsCodec.order_words words (TagMapping.byte_order m) = Some (Some ordered) →
  let frame := write_frame (sid_counter w) m ordered in
  match exchanged stream frame (env w) with
  | Some (res, stream', e') =>
      let verdict := write_verdict (sid_counter w) res in
      ∃ w', process_write config fuel req w = (Ret tt, w') ∧ inv w' ∧
        sid_counter w' = as_u8 (sid_counter w + 1) ∧
        conn w' = (if is_ok res then Some stream' else None) ∧
        log w' = log w ++ EvSend frame :: EvAnswer res :: reply_events (FinsWriteRequest.reply req) verdict.2 ∧
        shown w' = verdict_shown (defs w) (TagMapping.tag_id m) (FinsWriteRequest.value req)
                     verdict.1 (shown w)
  | None =>
      ∃ w', process_write config fuel req w = (Pending, w') ∧ registry w' = registry w ∧
        log w' = log w ++ [EvSend frame]
  end.
Proof.
  intros Hw Hc Hf Hwr Hwords Hord frame.
  destruct (exchanged stream frame (env w)) as [[[res stream'] e']|] eqn:Hex;
    [|by eapply process_write_never].
  destruct (process_write_run config any any_now fuel req m stream stream' res e' words ordered w
    Hw Hc Hf Hwr Hwords Hord Hex I) as (w' & Hrun & [Hw' _] & _ & Hw2).
  by exists w'.
Qed.
End properties.

(** ** Witnesses, on the reference environment *)

Section witnesses.
Import FinsRef.
Local Existing Instances CratesRef.chrono_ref CratesRef.byteorder_ref CratesRef.bytes_ref
  CratesRef.json_ref fins_io_ref.
Local Instance iter : HashIter Z := hash_iter_ref Z.

(** A plant: two words of a signed speed, one of a level, and a bit. *)
Definition speed : TagMapping :=
  TagMapping.new "speed" 130 10 0 2 true WordOrder.CDAB TagDataType.Int32.
Definition level : TagMapping :=
  TagMapping.new "level" 130 12 0 1 false WordOrder.BADC TagDataType.UInt16.
Definition valve : TagMapping :=
  TagMapping.new "valve" 177 10 3 1 false WordOrder.ABCD TagDataType.Bool.
Definition plant : FinsConfig SocketAddr := FinsConfig.new "plc" tt 100 [speed; level; valve].
Definition plant_groups : list ReadGroup :=
  [mkReadGroup 130 10 3 [speed; level]; mkReadGroup 177 10 1 [valve]].
Definition plant_mem (area a : Z) : Z :=
  if area =? 130 then if a =? 10 then 65534 else if a =? 11 then 65535 else 1792 else 8.

Lemma fins_plant_speed_wf : TagValue.wf (TagValue.Int32 7).
Proof. simpl. int_ranges. lia. Qed.
Definition set_speed : wf_request :=
  exist (λ r, TagValue.wf (FinsWriteRequest.value r))
    (FinsWriteRequest.mk "speed" (TagValue.Int32 7) (Some 1%nat)) fins_plant_speed_wf.

Definition plant_world (c : option unit) (q : list wf_request) : World :=
  set_conn c
    {| registry := ref_registry (definition_of <$> [speed; level; valve]); conn := None;
       sid_counter := 255; health_tx := true; env := ref_env q plant_mem; log := [] |}.

Lemma fins_plant_inv c q : inv (plant_world c q).
Proof. apply ref_registry_wf. vm_refl. Qed.

(** A cycle with one queued write, evaluated: the session id wraps. *)
Definition plant_after : World := (run_read_cycle_impl plant plant_groups 1 (plant_world None [set_speed])).2.
Lemma plant_cycle_returns :
  (run_read_cycle_impl plant plant_groups 1 (plant_world None [set_speed])).1 = Ret tt.
Proof. vm_refl. Qed.
Example fins_plant_cycle_log :
  log plant_after =
    [EvConnect true; EvReceived (proj1_sig set_speed); EvSend (write_frame 255 speed [7; 0]);
     EvAnswer (Ok [192; 0; 2; 0; 0; 0; 0; 0; 0; 255; 1; 2; 0; 0]); EvReply 1 (Ok tt); EvSend (read_frame 0 (mkReadGroup 130 10 3 [speed; level]));
     EvSend (read_frame 1 (mkReadGroup 177 10 1 [valve]))].
Proof. vm_refl. Qed.
Example plant_cycle_shown :
  (shown plant_after !! "speed"%string, shown plant_after !! "level"%string,
   shown plant_after !! "valve"%string)
  = (Some (TagValue.Int32 7, TagQuality.Good), Some (TagValue.UInt16 7, TagQuality.Good),
     Some (TagValue.Bool true, TagQuality.Good)).
Proof. vm_refl. Qed.

Lemma fins_cycle_accounted_witness :
  inv plant_after ∧ ∃ l0 l1 l2, log plant_after = [] ++ l0 ++ l1 ++ l2 ∧
    replied l1 = awaited l1 ∧ read_only plant_groups l2.
Proof.
  destruct (fins_cycle_accounted plant plant_groups 1 (plant_world None [set_speed]) plant_after
    (Ret tt) (fins_plant_inv _ _)
    (run_eq (run_read_cycle_impl plant plant_groups 1) (plant_world None [set_speed]) (Ret tt)
       plant_cycle_returns)) as (_ & _ & Hinv & l0 & l1 & l2 & Hl & _ & _ & _ & _ & Hr & Hro).
  split; [exact Hinv|]. exists l0, l1, l2. split; [exact Hl|].
  split; [by destruct Hr as [Hr|[Hr _]]|exact Hro].
Defined.

(** The link is down: the write is lost, and the connection dropped. *)
Definition broken_env : Env := mkRef [] plant_mem false [] 0.
Definition broken_world : World := set_env broken_env (plant_world (Some tt) []).

Lemma fins_write_outcome_witness :
  ∃ w', process_write plant 1 (proj1_sig set_speed) broken_world = (Ret tt, w') ∧ inv w' ∧
    sid_counter w' = 0 ∧ conn w' = None ∧
    log w' = [EvSend (write_frame 255 speed [7; 0]); EvAnswer (Err "Broken pipe"%string);
              EvReply 1 (Err "IO error: Broken pipe"%string)] ∧
    shown w' = Shown.mark "speed" TagQuality.CommLost (shown broken_world).
Proof.
  exact (fins_write_outcome plant 1 (proj1_sig set_speed) speed tt [0; 7] [7; 0] broken_world
    (fins_plant_inv _ _) eq_refl eq_refl eq_refl eq_refl eq_refl).
Defined.
End witnesses.
End FinsCycle.
