(* ===== verification/FinsReads.v ===== *)
(** * FINS driver: what a cycle makes of the PLC's memory

    The read phase as a function on what the clients of the registry see: the effect
    of a payload on one mapping, of a response on a group, of a whole cycle against a
    PLC that answers from its memory; and the theorem that the driver implements it. *)

From stdpp Require Import base tactics numbers list gmap strings.
From S2P Require Import Prelude Effects RustStd RustStr RustSlice RustMap Ranges Crates CratesRef TagValue Tag TagDefinition TagStore Registry RegistryRef DriverWorld ModbusTypes ModbusCodec ModbusPlan FinsTypes FinsCodec FinsPlan FinsDriver FinsRef FinsCycle.
Local Open Scope Z_scope.

Module FinsReads.
Import FinsError FinsIO FinsPlan RegistryOps FinsDriver FinsCycle.

(** ** Specification *)

Section spec.
Context {C : Chrono} {B : ByteOrder} {J : SerdeJson}.

(** One mapping against a payload; [None] is the panic of an instant out of range. *)
Definition apply_mapping (ds : gmap string TagDefinition) (g : ReadGroup) (payload : list Z)
    (s : shown_map) (m : TagMapping) : option shown_map :=
  let id := TagMapping.tag_id m in
  match extract g payload m with
  | Outside => Some s
  | Short => Some (Shown.mark id (TagQuality.Error "short_payload") s)
  | Slice slice =>
      match ds !! id with
      | None => Some (Shown.mark id (TagQuality.Error
                  (decode_failed (Mapping ("Tag id not found in registry: " +:+ id)))) s)
      | Some _ =>
          match FinsCodec.decode_slice (TagMapping.data_type m) (TagMapping.byte_order m)
                  (TagMapping.bit_offset m) slice with
          | None => None
          | Some (Ok v) => Some (Shown.put ds id v TagQuality.Good s)
          | Some (Err e) => Some (Shown.mark id (TagQuality.Error (decode_failed e)) s)
          end
      end
  end.

(** A loop that may panic. *)
Fixpoint fold_option {X A} (f : A → X → option A) (l : list X) (a : A) : option A :=
  match l with
  | [] => Some a
  | x :: l => a ← f a x; fold_option f l a
  end.

(** The payload of a request. *)
Definition apply_payload (ds : gmap string TagDefinition) (g : ReadGroup) (payload : list Z)
    (s : shown_map) : option shown_map :=
  if (length payload <? Z.to_nat (word_count g * 2))%nat then
    Some (Shown.marks (TagMapping.tag_id <$> filter (λ m, overlaps g m = true) (mappings g))
            (TagQuality.Error "short_payload") s)
  else fold_option (apply_mapping ds g payload) (mappings g) s.

(** The outcome of an exchange: what is shown, and whether the loop goes on. *)
Definition read_effect (ds : gmap string TagDefinition) (g : ReadGroup) (sid : Z)
    (res : result (list Z) string) (s : shown_map) : option (bool * shown_map) :=
  let ids := TagMapping.tag_id <$> mappings g in
  match res with
  | Err _ => Some (false, Shown.marks ids TagQuality.CommLost s)
  | Ok payload =>
      match FinsFrame.parse_fins_response payload with
      | Err e =>
          Some (false, Shown.marks ids
                         (TagQuality.Error ("parse_fins_resp: " +:+ FinsError.to_string e)) s)
      | Ok (resp_sid, end_code, data) =>
          if resp_sid =? sid then
            if end_code =? 0 then
              s ← apply_payload ds g data s; Some (true, s)
            else Some (false, Shown.marks ids (TagQuality.Error (end_code_text end_code)) s)
          else Some (true, Shown.marks ids TagQuality.CommLost s)
      end
  end.

(** The answer of a PLC whose memory is [mem] to a request, and the effect of a whole
    read phase. *)
Definition memory_bytes (mem : Z → Z → Z) (g : ReadGroup) : list Z :=
  ModbusCodec.registers_to_bytes (mem (area g) <$> seqZ (start_address g) (word_count g)).
Definition plan_effect (ds : gmap string TagDefinition) (mem : Z → Z → Z) (rgs : list ReadGroup)
    (s : shown_map) : option shown_map :=
  fold_option (λ s g, apply_payload ds g (memory_bytes mem g) s) rgs s.
End spec.

(** ** The refinement *)

Section refine.
Context {C : Chrono} {BY : Bytes} {B : ByteOrder} {J : SerdeJson} {IO : FinsIO}.
Context (config : FinsConfig SocketAddr).
Context (U : Env → Prop) (HU : ∀ e, U e → U (dw_now (W:=World) e).2).
Notation MF := (M World DriverError).
Notation good := (RegistryOps.good (W:=World) U).
Notation moved := (RegistryOps.moved (W:=World) U).

(** A computation that only touches the registry and reads the clock: from [w] it
    returns and takes what is shown to [f], or panics where [f] is undefined. *)
Definition updates {A} (m : MF A) (f : option (A * shown_map)) (w : World) : Prop :=
  match f with
  | Some (a, s) => wp m (λ o w', o = Ret a ∧ moved (λ _, s) w w') w
  | None => wp m (λ o w', o = Panic) w
  end.

Lemma updates_bind {A D} (m : MF A) (k : A → MF D) (f : option (A * shown_map))
    (g : A → shown_map → option (D * shown_map)) w :
  updates m f w →
  (∀ a s w', f = Some (a, s) → moved (λ _, s) w w' → updates (k a) (g a s) w') →
  updates (m ≫= k) (f ≫= λ p, g p.1 p.2) w.
Proof.
  intros Hm Hk. destruct f as [[a s]|]; simpl in *.
  - unfold updates in *.
    assert (∀ Q, (∀ w', moved (λ _, s) w w' → wp (k a) Q w') → wp (m ≫= k) Q w) as Hb.
    { intros Q HQ. apply wp_bind. eapply wp_mono; [exact Hm|]. intros o w' [-> M]. by apply HQ. }
    destruct (g a s) as [[d s']|] eqn:Hg; apply Hb; intros w' M;
      specialize (Hk a s w' eq_refl M); rewrite Hg in Hk; [|exact Hk].
    eapply wp_mono; [exact Hk|]. intros o w'' [-> M']. split; [done|].
    exact (moved_trans U _ _ _ _ _ M M').
  - apply wp_bind. eapply wp_mono; [exact Hm|]. by intros o w' ->.
Qed.

(** The result of a step without a value of its own. *)
Definition unit_result (o : option shown_map) : option (unit * shown_map) :=
  match o with Some s => Some (tt, s) | None => None end.

Lemma moved_const f w w' : moved f w w' → moved (λ _, f (shown w)) w w'.
Proof. intros []. by constructor. Qed.

Lemma moved_here w : good w → moved (λ _, shown w) w w.
Proof. by constructor. Qed.

Lemma decode_updates ds m slice w :
  good w → defs w = ds →
  updates (decode_and_update_tag m slice)
    match ds !! TagMapping.tag_id m with
    | None => Some (Err (Mapping ("Tag id not found in registry: " +:+ TagMapping.tag_id m)), shown w)
    | Some _ =>
        match FinsCodec.decode_slice (TagMapping.data_type m) (TagMapping.byte_order m)
                (TagMapping.bit_offset m) slice with
        | None => None
        | Some (Ok v) => Some (Ok tt, Shown.put ds (TagMapping.tag_id m) v TagQuality.Good (shown w))
        | Some (Err e) => Some (Err e, shown w)
        end
    end w.
Proof.
  intros Hw <-. unfold decode_and_update_tag, FinsCodec.decode_slice, DriverCommon.apply_byte_order.
  rewrite WordOrder.apply_to_bytes_spec, or_panic_bind. cbn [mbind option_bind].
  pose proof (TagRegistry.get_definition_view (registry w) (TagMapping.tag_id m)) as Hdef.
  change (defs w) with (TagRegistry.defs (registry w)).
  destruct (TagRegistry.defs (registry w) !! TagMapping.tag_id m) as [d|] eqn:Hd.
  2: { apply wp_bind, wp_gets. simpl after. rewrite Hdef. simpl.
       split; [done|]. by apply moved_here. }
  assert (∀ A (k : DateTimeUtc → MF A) Q,
    (∀ t w', moved (λ s, s) w w' → wp (k t) Q w') → wp (now ≫= k) Q w) as Hnow.
  { intros A k Q Hk. apply wp_bind, (wp_now U HU); [done|]. intros t w' M. by apply Hk. }
  destruct (FinsCodec.decode _ _ _) as [[v|e]|] eqn:Hdec; unfold updates;
    apply wp_bind, wp_gets; simpl after; rewrite Hdef; cbn [is_err is_ok negb];
    apply Hnow; intros t w1 M1.
  - apply wp_bind, wp_ret. simpl after. apply wp_bind, (wp_update_tag_value U HU); [apply M1|].
    intros res w2 M2 _. apply wp_ret. split; [done|].
    pose proof (moved_trans U _ _ _ _ _ M1 M2) as M. rewrite (moved_defs _ _ _ _ M1) in M.
    exact (moved_const _ _ _ M).
  - apply wp_bind, wp_ret. simpl after. apply wp_ret. split; [done|]. exact (moved_const (λ s, s) _ _ M1).
  - apply wp_bind, wp_panic. done.
Qed.

Lemma set_tag_quality_updates id q w :
  good w → updates (set_tag_quality id q) (Some (tt, Shown.mark id q (shown w))) w.
Proof.
  intros Hw. apply (wp_set_tag_quality U HU); [done|]. intros w' M. split; [done|].
  by apply moved_const in M.
Qed.

Lemma updates_ret {A} (a : A) w : good w → updates (mret a) (Some (a, shown w)) w.
Proof. intros Hw. split; [done|]. by apply moved_here. Qed.

Lemma moved_shown_const s w w' : moved (λ _, s) w w' → shown w' = s.
Proof. by intros []. Qed.

Lemma update_mapping_updates ds g payload m w :
  good w → defs w = ds →
  updates (update_mapping g payload m) (unit_result (apply_mapping ds g payload (shown w) m)) w.
Proof.
  intros Hw Hds. unfold update_mapping, apply_mapping.
  destruct (extract g payload m) as [| |slice]; [by apply updates_ret|by apply set_tag_quality_updates|].
  pose proof (updates_bind _ (λ r, match r with
      | Ok tt => mret tt
      | Err e => set_tag_quality (TagMapping.tag_id m) (TagQuality.Error (decode_failed e))
      end) _ (λ r s, Some (tt, match r with
        | Ok tt => s
        | Err e => Shown.mark (TagMapping.tag_id m) (TagQuality.Error (decode_failed e)) s
        end)) w (decode_updates ds m slice w Hw Hds)) as H.
  assert (∀ o o', o = o' → updates (decode_and_update_tag m slice ≫= λ r, match r with
      | Ok tt => mret tt
      | Err e => set_tag_quality (TagMapping.tag_id m) (TagQuality.Error (decode_failed e))
      end) o w → updates (decode_and_update_tag m slice ≫= λ r, match r with
      | Ok tt => mret tt
      | Err e => set_tag_quality (TagMapping.tag_id m) (TagQuality.Error (decode_failed e))
      end) o' w) as Heq by (by intros ? ? ->).
  eapply Heq; [|apply H].
  - destruct (ds !! TagMapping.tag_id m) as [d|]; [|done].
    by destruct (FinsCodec.decode_slice _ _ _ _) as [[v|e]|].
  - intros [[]|e] s w' _ M; pose proof (moved_shown_const _ _ _ M) as <-.
    + apply updates_ret. apply M.
    + apply set_tag_quality_updates. apply M.
Qed.

Lemma fold_updates ds g payload ms w :
  good w → defs w = ds →
  updates (for_each (update_mapping g payload) ms)
    (unit_result (fold_option (apply_mapping ds g payload) ms (shown w))) w.
Proof.
  revert w. induction ms as [|m ms IH]; intros w Hw Hds; [by apply updates_ret|].
  pose proof (updates_bind _ (λ _, for_each (update_mapping g payload) ms) _
    (λ _ s, unit_result (fold_option (apply_mapping ds g payload) ms s)) w
    (update_mapping_updates ds g payload m w Hw Hds)) as H.
  simpl. destruct (apply_mapping ds g payload (shown w) m) as [s|]; simpl in *; apply H.
  - intros [] s' w' [= <-] M. pose proof (moved_shown_const _ _ _ M) as <-.
    apply IH; [apply M|]. by rewrite (moved_defs _ _ _ _ M).
  - done.
Qed.

Lemma short_updates g q ms w :
  good w →
  updates (for_each (λ m, if overlaps g m then set_tag_quality (TagMapping.tag_id m) q
                          else mret tt) ms)
    (Some (tt, Shown.marks (TagMapping.tag_id <$> filter (λ m, overlaps g m = true) ms) q (shown w))) w.
Proof.
  revert w. induction ms as [|m ms IH]; intros w Hw; [by apply updates_ret|].
  set (rest := λ s, Shown.marks (TagMapping.tag_id <$> filter (λ m, overlaps g m = true) ms) q s).
  assert (∀ (head : MF unit) s, updates head (Some (tt, s)) w →
    updates (head;; for_each (λ m, if overlaps g m
      then set_tag_quality (TagMapping.tag_id m) q else mret tt) ms) (Some (tt, rest s)) w) as Hstep.
  { intros head s H. apply (updates_bind head _ _ (λ _ s, Some (tt, rest s)) w H).
    intros a s' w' [= _ <-] M. pose proof (moved_shown_const _ _ _ M) as <-. apply IH, M. }
  rewrite filter_cons. simpl for_each. destruct (overlaps g m).
  - rewrite decide_True by done. apply Hstep. by apply set_tag_quality_updates.
  - rewrite decide_False by done. apply Hstep. by apply updates_ret.
Qed.

Lemma mark_all_updates ms q w :
  good w →
  updates (for_each (λ m, set_tag_quality (TagMapping.tag_id m) q) ms)
    (Some (tt, Shown.marks (TagMapping.tag_id <$> ms) q (shown w))) w.
Proof.
  intros Hw. apply (wp_mark_all U HU); [done|]. intros w' M. split; [done|].
  by apply moved_const in M.
Qed.

Lemma read_response_updates ds g sid payload w :
  good w → defs w = ds →
  updates (read_response g sid payload) (read_effect ds g sid (Ok payload) (shown w)) w.
Proof.
  intros Hw Hds. unfold read_response, read_effect.
  assert (∀ q (b : bool), updates (for_each (λ m, set_tag_quality (TagMapping.tag_id m) q) (mappings g);; mret b)
    (Some (b, Shown.marks (TagMapping.tag_id <$> mappings g) q (shown w))) w) as Hall.
  { intros q b. apply (updates_bind _ _ _ (λ _ s, Some (b, s)) w (mark_all_updates _ q w Hw)).
    intros a s w' _ M. pose proof (moved_shown_const _ _ _ M) as <-. apply updates_ret, M. }
  destruct (FinsFrame.parse_fins_response payload) as [[[resp_sid end_code] data]|e]; [|apply Hall].
  destruct (resp_sid =? sid); simpl negb; cbv match; [|apply Hall].
  destruct (end_code =? 0); simpl negb; cbv match; [|apply Hall].
  assert (updates (read_payload g data) (unit_result (apply_payload ds g data (shown w))) w) as Hp.
  { unfold read_payload, apply_payload. destruct (_ <? _)%nat.
    - by apply short_updates.
    - by apply fold_updates. }
  pose proof (updates_bind _ (λ _, mret true) _ (λ _ s, Some (true, s)) w Hp) as H.
  destruct (apply_payload ds g data (shown w)) as [s|]; simpl in *; apply H; [|done].
  intros [] s' w' [= <-] M. pose proof (moved_shown_const _ _ _ M) as <-. apply updates_ret, M.
Qed.

(** One group, from an open connection. *)
Lemma read_group_run fuel g stream stream' res e' w :
  good w → conn w = Some stream →
  exchanged stream (read_frame (sid_counter w) g) (env w) = Some (res, stream', e') → U e' →
  match read_effect (defs w) g (sid_counter w) res (shown w) with
  | Some (b, s) =>
      ∃ w', read_group config fuel g w = (Ret b, w') ∧ good w' ∧ defs w' = defs w ∧ shown w' = s ∧
        conn w' = (if is_ok res then Some stream' else None) ∧
        sid_counter w' = as_u8 (sid_counter w + 1) ∧
        log w' = log w ++ [EvSend (read_frame (sid_counter w) g)]
  | None => ∃ w', read_group config fuel g w = (Panic, w')
  end.
Proof.
  intros Hw Hc Hex HUe.
  set (post := λ (o : outcome DriverError bool) (w' : World),
    match read_effect (defs w) g (sid_counter w) res (shown w) with
    | Some (b, s) => o = Ret b ∧ good w' ∧ defs w' = defs w ∧ shown w' = s ∧
        conn w' = (if is_ok res then Some stream' else None) ∧
        sid_counter w' = as_u8 (sid_counter w + 1) ∧
        log w' = log w ++ [EvSend (read_frame (sid_counter w) g)]
    | None => o = Panic
    end).
  enough (wp (read_group config fuel g) post w) as H.
  { apply wp_exists in H as (o & w' & Hrun & H). unfold post in H.
    destruct (read_effect _ _ _ _ _) as [[b s]|].
    - destruct H as (-> & H). by exists w'.
    - subst o. by exists w'. }
  unfold read_group, next_sid, read_stream.
  apply wp_bind, wp_bind, wp_gets. simpl after. apply wp_bind, wp_modify, wp_ret. simpl after.
  apply wp_bind, wp_bind, wp_gets. simpl after. rewrite Hc.
  apply wp_bind, wp_modify, wp_ret. simpl after.
  apply wp_bind, wp_modify. simpl after.
  apply wp_bind, (wp_exchange _ _ _ res stream' e'); [exact Hex|]. simpl after.
  destruct Hw as [Hwf _]. destruct res as [payload|err].
  - apply wp_bind, wp_modify. simpl after.
    set (w1 := set_conn _ _). assert (good w1) as Hw1 by by constructor.
    pose proof (read_response_updates (defs w) g (sid_counter w) payload w1 Hw1 eq_refl) as H.
    change (shown w1) with (shown w) in H. unfold updates in H. unfold post.
    destruct (read_effect _ _ _ _ _) as [[b s]|]; [|exact H].
    eapply wp_mono; [exact H|]. intros o w' [-> M].
    destruct (moved_inv _ _ _ _ M) as (_ & -> & -> & _ & ->).
    split; [done|]. split; [apply M|]. split; [exact (moved_defs _ _ _ _ M)|].
    split; [exact (moved_shown _ _ _ _ M)|]. done.
  - unfold comm_lost. match goal with |- wp _ _ ?w0 => set (w1 := w0) end. assert (good w1) as Hw1 by by constructor.
    apply wp_bind, (wp_mark_all U HU); [done|]. intros w2 M. simpl after.
    apply wp_bind, wp_modify, wp_ret. unfold post. simpl.
    destruct (moved_inv _ _ _ _ M) as (? & _ & Hs & _ & Hl).
    split; [done|]. split; [constructor; [done|apply M]|]. split; [exact (moved_defs _ _ _ _ M)|].
    split; [exact (moved_shown _ _ _ _ M)|]. done.
Qed.

(** The read frames of a cycle, under successive session ids. *)
Fixpoint read_events (sid : Z) (gs : list ReadGroup) : list event :=
  match gs with
  | [] => []
  | g :: gs => EvSend (read_frame sid g) :: read_events (as_u8 (sid + 1)) gs
  end.

(** A PLC that answers every request of the plan from its memory. *)
Definition serves (mem : Z → Z → Z) (rgs : list ReadGroup) : Prop :=
  ∀ g sid stream e, g ∈ rgs → is_u8 sid → U e →
  ∃ payload stream' e', exchanged stream (read_frame sid g) e = Some (Ok payload, stream', e') ∧ U e' ∧
    FinsFrame.parse_fins_response payload = Ok (sid, 0, memory_bytes mem g).

Lemma read_loop_run mem rgs fuel gs w :
  serves mem rgs → gs ⊆ rgs → good w → is_u8 (sid_counter w) →
  (∃ stream, conn w = Some stream) →
  match plan_effect (defs w) mem gs (shown w) with
  | Some s =>
      ∃ w', read_loop config fuel gs w = (Ret tt, w') ∧ good w' ∧ defs w' = defs w ∧ shown w' = s ∧
        (∃ stream, conn w' = Some stream) ∧ log w' = log w ++ read_events (sid_counter w) gs
  | None => ∃ w', read_loop config fuel gs w = (Panic, w')
  end.
Proof.
  intros Hs. revert w. induction gs as [|g gs IH]; intros w Hgs Hw Hsid [stream Hc].
  { simpl. exists w. rewrite app_nil_r. by eauto 7. }
  destruct (Hs g (sid_counter w) stream (env w)) as (payload & stream' & e' & Hex & HUe & Hparse);
    [apply Hgs; by left|done|apply Hw|].
  pose proof (read_group_run fuel g stream stream' (Ok payload) e' w Hw Hc Hex HUe) as Hg.
  unfold plan_effect. simpl fold_option. unfold read_effect in Hg. rewrite Hparse, !Z.eqb_refl in Hg.
  destruct (apply_payload (defs w) g (memory_bytes mem g) (shown w)) as [s1|]; simpl in Hg.
  - destruct Hg as (w1 & Hrun & Hw1 & Hd1 & Hs1 & Hc1 & Hsid1 & Hl1).
    assert (is_u8 (sid_counter w1)) as Hsid' by (rewrite Hsid1; auto with bridge).
    specialize (IH w1 (λ x Hx, Hgs x (list_elem_of_further _ _ _ Hx)) Hw1 Hsid' (ex_intro _ _ Hc1)).
    cbn [mbind option_bind].
    rewrite Hd1, Hs1 in IH. unfold plan_effect in IH.
    destruct (fold_option _ gs s1) as [s|].
    + destruct IH as (w' & Hrun' & Hw' & Hd' & Hs' & Hc' & Hl'). exists w'.
      simpl. rewrite (bind_ret _ _ _ _ _ Hrun). split_and!; try done.
      rewrite Hl', Hl1, Hsid1, <- (assoc_L (++)). done.
    + destruct IH as (w' & Hrun'). exists w'. simpl. by rewrite (bind_ret _ _ _ _ _ Hrun).
  - destruct Hg as (w1 & Hrun). exists w1. simpl. unfold mbind, M_bind. by rewrite Hrun.
Qed.

(** A PLC that is up, with nothing queued, as long as [U] holds. *)
Record answering (mem : Z → Z → Z) (rgs : list ReadGroup) : Prop := {
  answering_connect e : U e →
    ∃ stream e', connect (FinsConfig.endpoint config) e = (Ok stream, e') ∧ U e';
  answering_queue e : U e → ∃ e', try_recv e = (Empty, e') ∧ U e';
  answering_serves : serves mem rgs;
}.

(** The same PLC as it is seen on the wire: it accepts the connection, and takes every
    read request for at most [max] words that all belong to mapped tags; the answer that
    then waits is a header with the length of the rest, and a frame with the session id of
    the request, end code zero and the words of its memory. *)
Record memory_plc (mem : Z → Z → Z) : Prop := {
  plc_connects e : U e →
    ∃ stream e', connect (FinsConfig.endpoint config) e = (Ok stream, e') ∧ U e';
  plc_idle e : U e → ∃ e', try_recv e = (Empty, e') ∧ U e';
  plc_reads e stream sid area address count :
    U e → is_u8 sid → 1 ≤ count ≤ FinsConfig.max_words_per_request config →
    0 ≤ address → address + count ≤ 2 ^ 24 →
    (∀ a, address ≤ a < address + count →
       ∃ m, m ∈ FinsConfig.mappings config ∧ TagMapping.area m = area ∧ occupies m a) →
    ∃ magic addressing stream1 stream2 stream3 e1 e2 e3,
      let answer := FinsWire.answer addressing sid 1 1 0 0
                      (FinsWire.words (mem area <$> seqZ address count)) in
      length magic = 4%nat ∧ length addressing = 9%nat ∧
      write_all stream (FinsWire.read_request sid area address 0 count) e = Some (Ok tt, stream1, e1) ∧
      read_exact stream1 8 e1 =
        Some (Ok (magic ++ FinsWire.be4 (Z.of_nat (length answer))), stream2, e2) ∧
      read_exact stream2 (Z.of_nat (length answer)) e2 = Some (Ok answer, stream3, e3) ∧ U e3;
}.

(** It is one that answers the requests of the plan. *)
Lemma memory_plc_answering `{!HashIter Z} mem rgs :
  let ms := FinsConfig.mappings config in
  let max := FinsConfig.max_words_per_request config in
  Forall fits ms → Forall (λ m, TagMapping.address m + TagMapping.word_count m ≤ 2 ^ 24) ms →
  validate ms = Ok tt → 1 ≤ max ≤ 65535 → (∀ area a, is_u16 (mem area a)) →
  rgs = plan max ms → memory_plc mem → answering mem rgs.
Proof.
  intros ms max Hf Hlow Hv Hmax Hmem -> Hplc. split; [apply Hplc|apply Hplc|].
  intros g sid stream e Hg Hsid HUe.
  destruct (plan_occupied ms max Hf Hv Hmax g Hg) as [Hcount Hocc].
  assert (0 ≤ start_address g ∧ start_address g + word_count g ≤ 2 ^ 24) as [H0 H24].
  { destruct (Hocc (start_address g)) as (m & _ & Hm & _ & Ho); [lia|].
    destruct (Hocc (start_address g + word_count g - 1)) as (m' & _ & Hm' & _ & Ho'); [lia|].
    rewrite Forall_forall in Hf, Hlow. destruct (Hf m Hm) as (? & _). pose proof (Hlow m' Hm') as Hl.
    unfold Ranges.occupies in Ho, Ho'. simpl in Hl. lia. }
  destruct (plc_reads _ Hplc e stream sid (area g) (start_address g) (word_count g)) as
    (magic & addressing & st1 & st2 & st3 & e1 & e2 & e3 & Hm & Ha & H1 & H2 & H3 & HU3);
    [done|done|done|done|done| |].
  { intros a (m & _ & Hin & Harea & Ho)%Hocc. by exists m. }
  set (answer := FinsWire.answer _ _ _ _ _ _ _) in *.
  assert (FinsWire.words (mem (area g) <$> seqZ (start_address g) (word_count g))
          = memory_bytes mem g) as Hwords.
  { symmetry. apply FinsWire.words_bytes, Forall_fmap, Forall_true. intros a. apply Hmem. }
  exists answer, st3, e3. split; [|split; [done|]].
  - unfold exchanged. replace (read_frame sid g) with
      (FinsWire.read_request sid (area g) (start_address g) 0 (word_count g))
      by (symmetry; apply FinsWire.build_read; int_ranges; lia).
    rewrite H1. cbn [mbind option_bind]. rewrite H2. cbn [mbind option_bind].
    rewrite FinsWire.header_len_tcp; [exact H3|done|].
    unfold answer, FinsWire.answer. rewrite !length_app, Ha, FinsWire.words_length, length_fmap, length_seqZ.
    simpl length. change (2 ^ 32) with 4294967296. lia.
  - unfold answer, FinsWire.answer. rewrite Hwords. by apply FinsFrame.parse_fins_response_app.
Qed.

(** The frames of the plan, on the wire. *)
Definition requests (sid : Z) (gs : list ReadGroup) : list event :=
  imap (λ i g, EvSend (FinsWire.read_request ((sid + Z.of_nat i) mod 256)
                         (area g) (start_address g) 0 (word_count g))) gs.
Lemma read_events_requests sid gs :
  is_u8 sid → Forall (λ g, is_u16 (word_count g)) gs → read_events sid gs = requests sid gs.
Proof.
  intros Hsid Hgs. revert sid Hsid. induction Hgs as [|g gs Hg Hgs IH]; intros sid Hsid; [done|].
  simpl. unfold requests. rewrite imap_cons. f_equal.
  - unfold read_frame. rewrite FinsWire.build_read by done. do 2 f_equal.
    rewrite Z.add_0_r, Z.mod_small; [done|exact Hsid].
  - rewrite IH by auto with bridge. unfold requests. apply imap_ext. intros i x _. simpl.
    do 2 f_equal. unfold as_u8. change (2 ^ 8) with 256. rewrite Zplus_mod_idemp_l. f_equal. lia.
Qed.

(** The connection at the start of a cycle. *)
Lemma ensure_connection_run mem rgs fuel w :
  answering mem rgs → good w → (1 ≤ fuel)%nat →
  ∃ w', ensure_connection config fuel w = (Ret tt, w') ∧ good w' ∧ registry w' = registry w ∧
    (∃ stream, conn w' = Some stream) ∧ sid_counter w' = sid_counter w ∧
    log w' = log w ++ (if conn w then [] else [EvConnect true]).
Proof.
  intros Ha [Hwf HUw] Hf. destruct (conn w) as [stream|] eqn:Hc.
  - exists (set_conn (Some stream) (set_conn None w)).
    unfold ensure_connection, mbind, M_bind, gets, modify. rewrite Hc.
    split; [done|]. split; [by constructor|]. split_and!; try done; [by eexists|].
    simpl. by rewrite app_nil_r.
  - destruct fuel as [|fuel]; [lia|].
    destruct (answering_connect _ _ Ha (env w) HUw) as (stream & e' & Hcon & HUe).
    exists (set_conn (Some stream) (add_event (EvConnect true) (set_env e' (set_conn None w)))).
    unfold ensure_connection, connect_with_backoff. simpl connect_loop.
    unfold mbind, M_bind, gets, modify, env_op, emit. simpl. rewrite Hc. simpl.
    rewrite Hcon. split; [done|]. split; [by constructor|]. split_and!; try done. by eexists.
Qed.

Lemma process_writes_empty mem rgs fuel n w :
  answering mem rgs → good w →
  ∃ e', process_writes config fuel (S n) w = (Ret tt, set_env e' w) ∧ U e'.
Proof.
  intros Ha [_ HUw]. destruct (answering_queue _ _ Ha (env w) HUw) as (e' & Hrecv & HUe).
  exists e'. simpl. unfold mbind, M_bind, env_op. simpl. by rewrite Hrecv.
Qed.
End refine.

(** ** What the specification leaves in a tag *)

Section tags.
Context {C : Chrono} {B : ByteOrder} {J : SerdeJson}.
Context (mem : Z → Z → Z) (ds : gmap string TagDefinition).

#[local] Instance ReadGroup_eq_dec : EqDecision ReadGroup.
Proof. solve_decision. Defined.

(** A property that one element of a loop establishes and every other one keeps holds
    at the end. *)
Lemma fold_option_establishes {X A} (f : A → X → option A) (Q P : A → Prop) (l : list X) a a' :
  (∀ x a a', x ∈ l → Q a → f a x = Some a' → Q a') →
  (∃ x, x ∈ l ∧ ∀ a a', Q a → f a x = Some a' → P a') →
  (∀ x, x ∈ l → (∀ a a', Q a → f a x = Some a' → P a') ∨
                (∀ a a', Q a → P a → f a x = Some a' → P a')) →
  Q a → fold_option f l a = Some a' → P a'.
Proof.
  intros HQ Hex Hl Ha Hfold.
  enough (∀ a, Q a → P a ∨ (∃ x, x ∈ l ∧ ∀ a a', Q a → f a x = Some a' → P a') →
          fold_option f l a = Some a' → P a') as H by (apply (H a); auto).
  clear a Ha Hfold Hex. induction l as [|x l IH]; intros a Ha Hor Hfold; simpl in Hfold.
  - injection Hfold as <-. destruct Hor as [?|(x & Hx & _)]; [done|]. by apply not_elem_of_nil in Hx.
  - destruct (f a x) as [a1|] eqn:Hf; [|done]. simpl in Hfold.
    apply (IH) with (a := a1).
    + intros y b b' Hy. apply HQ. by right.
    + intros y Hy. apply Hl. by right.
    + eapply HQ; [by left|done..].
    + destruct (Hl x ltac:(by left)) as [He|Hk]; [left; by eapply He|].
      destruct Hor as [HP|(y & Hy & He)]; [left; by eapply Hk|].
      apply elem_of_cons in Hy as [->|Hy]; [left; by eapply He|]. right. by exists y.
    + done.
Qed.

Lemma fold_option_keeps {X A} (f : A → X → option A) (Q : A → Prop) (l : list X) a a' :
  (∀ x a a', x ∈ l → Q a → f a x = Some a' → Q a') →
  Q a → fold_option f l a = Some a' → Q a'.
Proof.
  revert a. induction l as [|x l IH]; intros a HQ Ha Hf; simpl in Hf; [by injection Hf as <-|].
  destruct (f a x) as [a1|] eqn:Hx; [|done]. simpl in Hf. apply (IH a1); [|by eapply HQ; [left|..]|done].
  intros y b b' Hy. apply HQ. by right.
Qed.

(** A mapping changes no other tag, and makes no tag disappear. *)
Lemma apply_mapping_other g payload s m s' id :
  apply_mapping ds g payload s m = Some s' → TagMapping.tag_id m ≠ id → s' !! id = s !! id.
Proof.
  unfold apply_mapping. intros Happ Hne.
  repeat case_match; simplify_eq; rewrite ?Shown.mark_lookup, ?decide_False by done; try done.
  by rewrite Shown.put_lookup_ne.
Qed.

Lemma apply_mapping_dom g payload s m s' id :
  apply_mapping ds g payload s m = Some s' → is_Some (s !! id) → is_Some (s' !! id).
Proof.
  unfold apply_mapping, Shown.put, Shown.mark. intros Happ Hs.
  repeat case_match; simplify_eq; rewrite ?lookup_alter_is_Some; done.
Qed.

(** A mapping inside the range of a request: its slice is its words. *)
Lemma extract_inside g m :
  0 ≤ start_address g → start_address g + word_count g ≤ 4294967295 → fits m →
  start_address g ≤ TagMapping.address m →
  TagMapping.address m + TagMapping.word_count m ≤ start_address g + word_count g →
  extract g (memory_bytes mem g) m =
    Slice (ModbusCodec.registers_to_bytes
      (mem (area g) <$> seqZ (TagMapping.address m) (TagMapping.word_count m))).
Proof.
  intros Hs Hb Hfit Hlo Hhi. unfold extract. rewrite end_address_fits by done.
  destruct Hfit as (Ha & Hm & Ht). unfold u32_sub, u32_add. rewrite !u32_small by (rewrite ?u32_small; lia).
  rewrite (proj2 (Z.ltb_ge _ _)) by lia. rewrite (proj2 (Z.ltb_ge _ _)) by lia. cbn [orb].
  rewrite Z.max_l, Z.min_l by lia.
  replace (Z.to_nat ((TagMapping.address m - start_address g) * 2))
    with (2 * Z.to_nat (TagMapping.address m - start_address g))%nat by lia.
  replace (Z.to_nat ((TagMapping.address m + TagMapping.word_count m - 1 - TagMapping.address m + 1) * 2))
    with (2 * Z.to_nat (TagMapping.word_count m))%nat by lia.
  unfold memory_bytes. rewrite ModbusCodec.registers_to_bytes_length, length_fmap, length_seqZ.
  rewrite (proj2 (Nat.ltb_ge _ _)) by lia.
  rewrite ModbusPlan.registers_to_bytes_drop, ModbusPlan.registers_to_bytes_take.
  by rewrite take_drop_seqZ by lia.
Qed.

(** A mapping that does not meet a request is not looked at. *)
Lemma extract_outside g m payload :
  0 ≤ start_address g → 1 ≤ word_count g → start_address g + word_count g ≤ 4294967295 → fits m →
  TagMapping.address m + TagMapping.word_count m ≤ start_address g ∨
  start_address g + word_count g ≤ TagMapping.address m →
  extract g payload m = Outside.
Proof.
  intros Hs Hw Hb Hfit Hout. unfold extract. rewrite end_address_fits by done.
  destruct Hfit as (Ha & Hm & Ht). unfold u32_sub, u32_add. rewrite !u32_small by (rewrite ?u32_small; lia).
  destruct Hout.
  - by rewrite (proj2 (Z.ltb_lt _ _)) by lia.
  - rewrite (proj2 (Z.ltb_lt (start_address g + _ - 1) _)) by lia. by rewrite orb_true_r.
Qed.

Lemma apply_payload_memory g s :
  apply_payload ds g (memory_bytes mem g) s
  = fold_option (apply_mapping ds g (memory_bytes mem g)) (mappings g) s.
Proof.
  unfold apply_payload. unfold memory_bytes at 1.
  rewrite ModbusCodec.registers_to_bytes_length, length_fmap, length_seqZ.
  by rewrite (proj2 (Nat.ltb_ge _ _)) by lia.
Qed.

(** The requests of a valid plan: in range, and disjoint from the others of their area. *)
Lemma plan_request `{!HashIter Z} ms max r :
  Forall fits ms → validate ms = Ok tt → 1 ≤ max ≤ 65535 → r ∈ plan max ms →
  0 ≤ start_address r ∧ 1 ≤ word_count r ∧ start_address r + word_count r ≤ 4294967295 ∧
  ∀ m, m ∈ mappings r → m ∈ ms ∧ TagMapping.area m = area r.
Proof.
  intros Hf Hv Hm Hr. apply elem_of_plan in Hr as (g & c & Hg & Hc & Heq); try done.
  pose proof (area_group_tiles ms max Hf Hv Hm _ g Hg) as Ht.
  destruct (chunk_list_spec ms max Hf Hv Hm g Ht) as (_ & Hchain & Hall & _).
  apply Ranges.chain_bounds in Hchain; [|eapply Forall_impl; [exact Hall|]; simpl; intros; lia].
  rewrite Forall_forall in Hchain, Hall. specialize (Hchain c Hc). specialize (Hall c Hc).
  destruct Ht as (_ & Hs & _ & Hb & _). rewrite Heq. simpl.
  split; [lia|]. split; [lia|]. split; [lia|]. intros m Hmg.
  destruct (proj2 (area_group_elem ms max Hf Hv Hm (area r) m)); eauto.
Qed.

(** A mapping of a request is the one of its tag. *)
Lemma plan_tag_only `{!HashIter Z} ms max x m m' :
  Forall fits ms → validate ms = Ok tt → 1 ≤ max ≤ 65535 → NoDup (TagMapping.tag_id <$> ms) →
  m ∈ ms → x ∈ plan max ms → m' ∈ mappings x → TagMapping.tag_id m' = TagMapping.tag_id m → m' = m.
Proof.
  intros Hf Hv Hmax Hnd Hm Hx Hm' Heq.
  destruct (plan_request ms max x Hf Hv Hmax Hx) as (_ & _ & _ & Hxm). destruct (Hxm m' Hm') as [Hin' _].
  apply (find_key TagMapping.tag_id ms) in Hm; [|done]. apply (find_key TagMapping.tag_id ms) in Hin'; [|done].
  rewrite Heq in Hin'. congruence.
Qed.

(** A mapping inside the range of a request puts the value of its words. *)
Lemma apply_mapping_inside g m d v s s' :
  0 ≤ start_address g → start_address g + word_count g ≤ 4294967295 → fits m →
  start_address g ≤ TagMapping.address m →
  TagMapping.address m + TagMapping.word_count m ≤ start_address g + word_count g →
  TagMapping.area m = area g →
  ds !! TagMapping.tag_id m = Some d → TagValue.data_type v = TagDefinition.data_type d →
  FinsCodec.decode_slice (TagMapping.data_type m) (TagMapping.byte_order m)
    (TagMapping.bit_offset m) (ModbusCodec.registers_to_bytes
      (mem (TagMapping.area m) <$> seqZ (TagMapping.address m) (TagMapping.word_count m)))
    = Some (Ok v) →
  is_Some (s !! TagMapping.tag_id m) →
  apply_mapping ds g (memory_bytes mem g) s m = Some s' →
  s' !! TagMapping.tag_id m = Some (v, TagQuality.Good).
Proof.
  intros H0 H1 Hfit Hlo Hhi Harea Hd Hty Hdec [p Hs] Happ. unfold apply_mapping in Happ.
  rewrite extract_inside in Happ by done. rewrite Hd, <- Harea, Hdec in Happ. injection Happ as <-.
  by eapply Shown.put_lookup_eq.
Qed.

(** The words of a mapping that come in one request come in no other. *)
Lemma plan_outside `{!HashIter Z} ms max x r m payload :
  Forall fits ms → validate ms = Ok tt → 1 ≤ max ≤ 65535 → x ∈ plan max ms → r ∈ plan max ms → x ≠ r →
  m ∈ mappings x → m ∈ mappings r → start_address r ≤ TagMapping.address m →
  TagMapping.address m + TagMapping.word_count m ≤ start_address r + word_count r →
  extract x payload m = Outside.
Proof.
  intros Hf Hv Hmax Hx Hr Hne Hmx Hmr Hlo Hhi.
  destruct (plan_request ms max x Hf Hv Hmax Hx) as (Hx0 & Hx1 & Hx2 & Hxm).
  destruct (plan_request ms max r Hf Hv Hmax Hr) as (_ & _ & _ & Hrm).
  destruct (Hxm m Hmx) as [Hm Hxa]. destruct (Hrm m Hmr) as [_ Hra].
  assert (fits m) as Hfit by (by eapply Forall_forall in Hf).
  apply extract_outside; [done..|]. destruct Hfit as (_ & Hlen & _).
  pose proof (plan_sorted ms max Hf Hv Hmax) as Hsorted.
  apply list_elem_of_lookup in Hr as [i Hi]. apply list_elem_of_lookup in Hx as [j Hj].
  destruct (lt_eq_lt_dec i j) as [[Hij|Hij]|Hij]; [|congruence|].
  - pose proof (StronglySorted_lookup _ _ _ _ _ _ Hsorted Hi Hj Hij) as Hlt. simpl in Hlt. lia.
  - pose proof (StronglySorted_lookup _ _ _ _ _ _ Hsorted Hj Hi Hij) as Hlt. simpl in Hlt. lia.
Qed.

(** A tag all of whose words come in one request shows what they decode to. *)
Lemma plan_effect_tag `{!HashIter Z} ms max r m d v s s' :
  Forall fits ms → validate ms = Ok tt → 1 ≤ max ≤ 65535 →
  NoDup (TagMapping.tag_id <$> ms) →
  r ∈ plan max ms → m ∈ mappings r →
  start_address r ≤ TagMapping.address m →
  TagMapping.address m + TagMapping.word_count m ≤ start_address r + word_count r →
  ds !! TagMapping.tag_id m = Some d → TagValue.data_type v = TagDefinition.data_type d →
  FinsCodec.decode_slice (TagMapping.data_type m) (TagMapping.byte_order m)
    (TagMapping.bit_offset m) (ModbusCodec.registers_to_bytes
      (mem (TagMapping.area m) <$> seqZ (TagMapping.address m) (TagMapping.word_count m)))
    = Some (Ok v) →
  is_Some (s !! TagMapping.tag_id m) →
  plan_effect ds mem (plan max ms) s = Some s' →
  s' !! TagMapping.tag_id m = Some (v, TagQuality.Good).
Proof.
  intros Hf Hv Hmax Hnd Hr Hmr Hlo Hhi Hd Hty Hdec Hs Hplan.
  destruct (plan_request ms max r Hf Hv Hmax Hr) as (Hr0 & Hr1 & Hr2 & Hrm).
  destruct (Hrm m Hmr) as [Hm Harea]. assert (fits m) as Hfit by (by eapply Forall_forall in Hf).
  assert (∀ x m', x ∈ plan max ms → m' ∈ mappings x →
    TagMapping.tag_id m' = TagMapping.tag_id m → m' = m) as Honly by (intros; by eapply plan_tag_only).
  set (Q := λ s : shown_map, is_Some (s !! TagMapping.tag_id m)).
  set (P := λ s : shown_map, s !! TagMapping.tag_id m = Some (v, TagQuality.Good)).
  assert (∀ x m' a a', Q a → apply_mapping ds x (memory_bytes mem x) a m' = Some a' → Q a') as HQm
    by (intros x m' a a' Ha Happ; by eapply apply_mapping_dom).
  assert (∀ a a', Q a → apply_mapping ds r (memory_bytes mem r) a m = Some a' → P a') as Hput
    by (intros a a'; by apply (apply_mapping_inside r m d v)).
  unfold plan_effect in Hplan.
  assert (∀ x a a', x ∈ plan max ms → Q a →
    apply_payload ds x (memory_bytes mem x) a = Some a' → Q a') as HQ.
  { intros x a a' _ Ha Happ. rewrite apply_payload_memory in Happ.
    eapply fold_option_keeps; [|exact Ha|exact Happ]. intros m' b b' _. apply HQm. }
  assert (∀ a a', Q a → apply_payload ds r (memory_bytes mem r) a = Some a' → P a') as Hest.
  { intros a a' Ha Happ. rewrite apply_payload_memory in Happ.
    apply (fold_option_establishes (apply_mapping ds r (memory_bytes mem r)) Q P (mappings r) a a');
      [intros m' b b' _; apply HQm|by exists m| |exact Ha|exact Happ].
    intros m' Hm'. destruct (decide (TagMapping.tag_id m' = TagMapping.tag_id m)) as [Heq|Hne].
    - left. by rewrite (Honly r m' Hr Hm' Heq).
    - right. intros b b' _ HP Hbb. unfold P in *. by rewrite (apply_mapping_other _ _ _ _ _ _ Hbb). }
  eapply (fold_option_establishes _ Q P); [exact HQ|exists r; split; [exact Hr|exact Hest]| |exact Hs|exact Hplan].
  intros x Hx. destruct (decide (x = r)) as [->|Hxr]; [by left|]. right.
  intros a a' Ha HP Happ. rewrite apply_payload_memory in Happ.
  eapply (fold_option_keeps _ P); [|exact HP|exact Happ].
  intros m' b b' Hm' Hb Hbb. destruct (decide (TagMapping.tag_id m' = TagMapping.tag_id m)) as [Heq|Hne].
  2: { unfold P in *. by rewrite (apply_mapping_other _ _ _ _ _ _ Hbb). }
  pose proof (Honly x m' Hx Hm' Heq) as ->. unfold apply_mapping in Hbb.
  rewrite (plan_outside ms max x r) in Hbb by done. by injection Hbb as <-.
Qed.

(** A tag without a mapping is left alone. *)
Lemma plan_effect_unmapped `{!HashIter Z} ms max s s' id :
  Forall fits ms → validate ms = Ok tt → 1 ≤ max ≤ 65535 →
  plan_effect ds mem (plan max ms) s = Some s' → id ∉ TagMapping.tag_id <$> ms →
  s' !! id = s !! id.
Proof.
  intros Hf Hv Hmax Hplan Hid. unfold plan_effect in Hplan.
  apply (fold_option_keeps _ (λ t : shown_map, t !! id = s !! id)) in Hplan; [exact Hplan| |done].
  intros x a a' Hx Ha Happ. rewrite apply_payload_memory in Happ.
  apply (fold_option_keeps _ (λ t : shown_map, t !! id = s !! id)) in Happ; [exact Happ| |done].
  intros m b b' Hm Hb Hbb. rewrite (apply_mapping_other _ _ _ _ _ _ Hbb); [done|].
  intros <-. apply Hid, list_elem_of_fmap_2. by apply (plan_request ms max x Hf Hv Hmax Hx).
Qed.

(** A mapping whose words are in the range of a request is one of its mappings. *)
Lemma plan_member `{!HashIter Z} ms max r m :
  Forall fits ms → validate ms = Ok tt → 1 ≤ max ≤ 65535 → r ∈ plan max ms → m ∈ ms →
  TagMapping.area m = area r → start_address r ≤ TagMapping.address m →
  TagMapping.address m + TagMapping.word_count m ≤ start_address r + word_count r →
  m ∈ mappings r.
Proof.
  intros Hf Hv Hmax Hr Hm Harea Hlo Hhi.
  assert (fits m) as (_ & Hlen & _) by (by eapply Forall_forall in Hf).
  destruct (plan_covers ms max Hf Hv Hmax m (TagMapping.address m) Hm) as (r' & Hr' & Ha' & Hmr & Hin);
    [unfold Ranges.occupies; lia|].
  pose proof (plan_sorted ms max Hf Hv Hmax) as Hsorted.
  apply list_elem_of_lookup in Hr as [i Hi]. apply list_elem_of_lookup in Hr' as [j Hj].
  destruct (lt_eq_lt_dec i j) as [[Hij|Hij]|Hij]; [|congruence|].
  - pose proof (StronglySorted_lookup _ _ _ _ _ _ Hsorted Hi Hj Hij) as Hlt. simpl in Hlt. lia.
  - pose proof (StronglySorted_lookup _ _ _ _ _ _ Hsorted Hj Hi Hij) as Hlt. simpl in Hlt. lia.
Qed.

(** Without instants nothing panics. *)
Lemma plan_effect_total rgs s :
  (∀ g m, g ∈ rgs → m ∈ mappings g → TagMapping.data_type m ≠ TagDataType.DateTime) →
  ∃ s', plan_effect ds mem rgs s = Some s'.
Proof.
  intros Hdate. unfold plan_effect. revert s. induction rgs as [|g rgs IH]; intros s; simpl; [by eexists|].
  assert (∃ s', apply_payload ds g (memory_bytes mem g) s = Some s') as [s' ->].
  { rewrite apply_payload_memory. assert (∀ m, m ∈ mappings g →
      TagMapping.data_type m ≠ TagDataType.DateTime) as Hg by (intros; eapply Hdate; [left|done]).
    clear -Hg. revert s. induction (mappings g) as [|m ms IH]; intros s; simpl; [by eexists|].
    assert (∃ s', apply_mapping ds g (memory_bytes mem g) s m = Some s') as [s' ->].
    { unfold apply_mapping, FinsCodec.decode_slice, DriverCommon.apply_byte_order.
      destruct (extract _ _ _); [by eexists..|]. destruct (ds !! _); [|by eexists].
      rewrite WordOrder.apply_to_bytes_spec. cbn [mbind option_bind].
      destruct (FinsCodec.decode _ _ _) as [[]|] eqn:Hdec; [by eexists..|].
      apply FinsCodec.decode_none in Hdec. destruct (Hg m); [by left|done]. }
    simpl. apply IH. intros m' Hm'. apply Hg. by right. }
  simpl. apply IH. intros g' m Hg'. apply Hdate. by right.
Qed.

Lemma plan_effect_undefined rgs s :
  plan_effect ds mem rgs s = None →
  ∃ g m, g ∈ rgs ∧ m ∈ mappings g ∧ TagMapping.data_type m = TagDataType.DateTime.
Proof.
  intros Hn. destruct (decide (Exists (λ g, Exists (λ m, TagMapping.data_type m = TagDataType.DateTime)
    (mappings g)) rgs)) as [(g & Hg & (m & Hm & Hdt)%Exists_exists)%Exists_exists|Hno]; [by exists g, m|].
  destruct (plan_effect_total rgs s) as [s' Hs']; [|congruence].
  intros g m Hg Hm Hdt. apply Hno, Exists_exists. exists g. split; [done|]. apply Exists_exists. by exists m.
Qed.

(** The decoded value is of the declared type, and a defined tag is shown. *)
Lemma decoded_type dt order bit words v d :
  TagDefinition.data_type d = dt →
  FinsCodec.decode_slice dt order bit (ModbusCodec.registers_to_bytes words) = Some (Ok v) →
  TagValue.data_type v = TagDefinition.data_type d.
Proof.
  intros -> Hdec. pose proof (FinsCodec.decode_spec dt bit
    (WordOrder.order_spec order (ModbusCodec.registers_to_bytes words))) as Hspec.
  unfold FinsCodec.decode_slice, DriverCommon.apply_byte_order in Hdec.
  rewrite WordOrder.apply_to_bytes_spec in Hdec. cbn [mbind option_bind] in Hdec.
  rewrite Hdec in Hspec. apply Hspec, WordOrder.order_spec_bytes, ModbusCodec.registers_to_bytes_bytes.
Qed.
Lemma typed_shown r id d :
  TagRegistry.wf r → TagRegistry.defs r !! id = Some d → is_Some (Shown.of_registry r !! id).
Proof.
  intros Hw Hd. destruct (TagRegistry.typed_tag _ _ _ _ (TagRegistry.wf_typed _ Hw) Hd) as (t & Ht & _).
  unfold Shown.of_registry. rewrite lookup_fmap. by rewrite Ht.
Qed.
End tags.

(** ** Properties *)

Section properties.
Context {C : Chrono} {BY : Bytes} {B : ByteOrder} {J : SerdeJson} {IO : FinsIO}.
Context (config : FinsConfig SocketAddr).

(** C21: what an exchange does to a read group: the driver implements [read_effect].  An
    I/O error marks the whole group as lost, drops the connection and ends the reads; an
    answer under another session id marks it as lost but keeps the connection and goes
    on; a non-zero end code or an unreadable answer marks it with an error and ends the
    reads, so that the later groups keep their old quality; otherwise each mapping gets
    its part of the payload.  One frame is sent, and the session id advances by one,
    wrapping at 256.  If the answer never comes, the cycle never gets past the group, and
    nothing shown changes. *)
Theorem fins_read_group_outcome (fuel : nat) (g : ReadGroup) (stream : TcpStream) (w : World) :
  inv w → conn w = Some stream →
  let frame := read_frame (sid_counter w) g in
  match exchanged stream frame (env w) with
  | Some (res, stream', e') =>
      match read_effect (defs w) g (sid_counter w) res (shown w) with
      | Some (continue, s) =>
          ∃ w', read_group config fuel g w = (Ret continue, w') ∧ inv w' ∧ shown w' = s ∧
            conn w' = (if is_ok res then Some stream' else None) ∧
            sid_counter w' = as_u8 (sid_counter w + 1) ∧ log w' = log w ++ [EvSend frame]
      | None => ∃ w', read_group config fuel g w = (Panic, w')
      end
  | None =>
      ∃ w', read_group config fuel g w = (Pending, w') ∧ registry w' = registry w ∧
        log w' = log w ++ [EvSend frame]
  end.
Proof.
  intros Hw Hc frame.
  destruct (exchanged stream frame (env w)) as [[[res stream'] e']|] eqn:Hex.
  - pose proof (read_group_run config any any_now fuel g stream stream' res e' w (inv_good w Hw)
      Hc Hex I) as H.
    destruct (read_effect _ _ _ _ _) as [[b s]|]; [|exact H].
    destruct H as (w' & Hrun & [Hw' _] & _ & Hs & Hc' & Hsid & Hl). exists w'. by split_and!.
  - assert (wp (read_group config fuel g) (λ o w', o = Pending ∧ registry w' = registry w ∧
      log w' = log w ++ [EvSend frame]) w) as H.
    2: { apply wp_exists in H as (o & w' & Hrun & -> & H). by exists w'. }
    unfold read_group, next_sid, read_stream.
    apply wp_bind, wp_bind, wp_gets. simpl after. apply wp_bind, wp_modify, wp_ret. simpl after.
    apply wp_bind, wp_bind, wp_gets. simpl after. rewrite Hc.
    apply wp_bind, wp_modify, wp_ret. simpl after.
    apply wp_bind, wp_modify. simpl after. by apply wp_bind, wp_exchange_never.
Qed.

(** A cycle against a PLC that is up and answers from its memory, with nothing queued. *)
Lemma cycle_run (U : Env → Prop) (mem : Z → Z → Z) (rgs : list ReadGroup)
    (fuel : nat) (w : World) :
  (∀ e, U e → U (utc_now e).2) → answering config U mem rgs →
  inv w → U (env w) → is_u8 (sid_counter w) → (1 ≤ fuel)%nat →
  match plan_effect (defs w) mem rgs (shown w) with
  | Some s =>
      ∃ w', run_read_cycle_impl config rgs fuel w = (Ret tt, w') ∧ inv w' ∧
        (∃ stream, conn w' = Some stream) ∧ defs w' = defs w ∧ shown w' = s ∧
        log w' = log w ++ (if conn w then [] else [EvConnect true])
                 ++ read_events (sid_counter w) rgs
  | None => ∃ w', run_read_cycle_impl config rgs fuel w = (Panic, w')
  end.
Proof.
  intros HU Ha Hw HUw Hsid Hfuel.
  destruct (ensure_connection_run config U mem rgs fuel w Ha) as
    (w1 & H1 & Hw1 & Hr1 & Hc1 & Hs1 & Hl1); [by constructor|done|].
  destruct (process_writes_empty config U mem rgs fuel 63 w1 Ha Hw1) as (e & H2 & HUe).
  pose proof (read_loop_run config U HU mem rgs fuel rgs (set_env e w1)
    (answering_serves _ _ _ _ Ha) (λ x Hx, Hx)) as H3.
  assert (good (W:=World) U (set_env e w1)) as Hw2 by (constructor; [apply Hw1|done]).
  assert (shown (set_env e w1) = shown w ∧ defs (set_env e w1) = defs w) as [Hsh Hd].
  { unfold shown, defs. cbn. by rewrite Hr1. }
  rewrite Hsh, Hd in H3. simpl sid_counter in H3. rewrite Hs1 in H3.
  specialize (H3 Hw2 Hsid Hc1). unfold run_read_cycle_impl.
  destruct (plan_effect _ _ _ _) as [s|].
  - destruct H3 as (w' & H3 & [Hw' _] & Hd' & Hs' & Hc' & Hl'). exists w'.
    rewrite (bind_ret _ _ _ _ _ H1), (bind_ret _ _ _ _ _ H2), H3. split_and!; try done.
    rewrite Hl'. cbn [log set_env]. by rewrite Hl1, <- (assoc_L (++)).
  - destruct H3 as (w' & H3). exists w'.
    by rewrite (bind_ret _ _ _ _ _ H1), (bind_ret _ _ _ _ _ H2), H3.
Qed.

(** C5: refinement.  Against a PLC that is up, takes on the wire every request for at most
    the configured number of mapped words, below the 24 bits of an address, and answers it
    from its memory, and with no write queued, a cycle of the plan made for a valid
    configuration connects if it has to and sends the planned requests, byte for byte,
    under successive session ids.  It takes what is shown to [plan_effect]: tags without a
    mapping keep theirs, and a tag whose words come in one request shows, with good
    quality, the value that its own words of the memory decode to.  It panics exactly where
    the specification is undefined, which takes an instant among the mappings. *)
Theorem fins_cycle_refines `{!HashIter Z} (U : Env → Prop) (mem : Z → Z → Z)
    (rgs : list ReadGroup) (fuel : nat) (w : World) :
  let ms := FinsConfig.mappings config in
  let max := FinsConfig.max_words_per_request config in
  (∀ e, U e → U (utc_now e).2) → (∀ area a, is_u16 (mem area a)) → memory_plc config U mem →
  inv w → U (env w) → is_u8 (sid_counter w) → (1 ≤ fuel)%nat →
  Forall fits ms → Forall (λ m, TagMapping.address m + TagMapping.word_count m ≤ 2 ^ 24) ms →
  validate ms = Ok tt → 1 ≤ max ≤ 65535 → NoDup (TagMapping.tag_id <$> ms) →
  eventually (FinsPlan.read_groups max ms) rgs →
  match plan_effect (defs w) mem rgs (shown w) with
  | Some s =>
      ∃ w', run_read_cycle_impl config rgs fuel w = (Ret tt, w') ∧ inv w' ∧
        (∃ stream, conn w' = Some stream) ∧ shown w' = s ∧
        log w' = log w ++ (if conn w then [] else [EvConnect true]) ++ requests (sid_counter w) rgs ∧
        (∀ id, id ∉ TagMapping.tag_id <$> ms → shown w' !! id = shown w !! id) ∧
        ∀ r m d v, r ∈ rgs → m ∈ ms → TagMapping.area m = area r →
          start_address r ≤ TagMapping.address m →
          TagMapping.address m + TagMapping.word_count m ≤ start_address r + word_count r →
          defs w !! TagMapping.tag_id m = Some d → TagDefinition.data_type d = TagMapping.data_type m →
          FinsCodec.decode_slice (TagMapping.data_type m) (TagMapping.byte_order m)
            (TagMapping.bit_offset m) (FinsWire.words (mem (TagMapping.area m) <$>
               seqZ (TagMapping.address m) (TagMapping.word_count m))) = Some (Ok v) →
          shown w' !! TagMapping.tag_id m = Some (v, TagQuality.Good)
  | None =>
      (∃ w', run_read_cycle_impl config rgs fuel w = (Panic, w')) ∧
      ∃ m, m ∈ ms ∧ TagMapping.data_type m = TagDataType.DateTime
  end.
Proof.
  intros ms max HU Hmem Hplc Hw HUw Hsid Hfuel Hf Hlow Hv Hmax Hnd Hrgs.
  assert (rgs = plan max ms) as Hplan
    by (eapply eventually_unique; [exact Hrgs|by apply read_groups_eventually]).
  pose proof (memory_plc_answering config U mem rgs Hf Hlow Hv Hmax Hmem Hplan Hplc) as Ha.
  pose proof (cycle_run U mem rgs fuel w HU Ha Hw HUw Hsid Hfuel) as H.
  destruct (plan_effect (defs w) mem rgs (shown w)) as [s|] eqn:Heff.
  - destruct H as (w' & Hrun & Hw' & Hc & Hdefs & Hs & Hl). exists w'.
    rewrite read_events_requests in Hl; [|done|rewrite Hplan; by apply plan_counts].
    split; [done|]. split; [done|]. split; [done|]. split; [done|]. split; [done|].
    rewrite Hplan in Heff. split.
    + intros id Hid. rewrite Hs. by eapply plan_effect_unmapped.
    + intros r m d v Hr Hm Harea Hlo Hhi Hd Hdty Hdec. rewrite Hs. rewrite Hplan in Hr.
      assert (m ∈ mappings r) as Hmr by (by eapply plan_member).
      rewrite <- FinsWire.words_bytes in Hdec by (apply Forall_fmap, Forall_true; intros a; apply Hmem).
      apply (plan_effect_tag mem (defs w) ms max r m d v (shown w) s); try done;
        [by eapply decoded_type|].
      eapply typed_shown; [apply Hw|done].
  - destruct H as (w' & Hrun). split; [by exists w'|].
    apply (plan_effect_undefined mem (defs w) rgs (shown w)) in Heff as (g & m & Hg & Hm & Hdt).
    exists m. split; [|done]. rewrite Hplan in Hg.
    by apply (plan_request ms max g Hf Hv Hmax Hg).
Qed.

(** After such a cycle every tag of a valid configuration whose words come in one
    request shows the value its words decode to, with good quality; and without instants
    among the mappings the cycle completes. *)
Theorem fins_cycle_reads_tag `{!HashIter Z} (U : Env → Prop) (mem : Z → Z → Z)
    (rgs : list ReadGroup) (fuel : nat) (w : World) (r : ReadGroup) (m : TagMapping)
    (d : TagDefinition) (v : TagValue) :
  let ms := FinsConfig.mappings config in
  let max := FinsConfig.max_words_per_request config in
  (∀ e, U e → U (utc_now e).2) → answering config U mem rgs →
  inv w → U (env w) → is_u8 (sid_counter w) → (1 ≤ fuel)%nat →
  Forall fits ms → validate ms = Ok tt → 1 ≤ max ≤ 65535 → NoDup (TagMapping.tag_id <$> ms) →
  eventually (FinsPlan.read_groups max ms) rgs →
  r ∈ rgs → m ∈ mappings r → start_address r ≤ TagMapping.address m →
  TagMapping.address m + TagMapping.word_count m ≤ start_address r + word_count r →
  defs w !! TagMapping.tag_id m = Some d → TagDefinition.data_type d = TagMapping.data_type m →
  FinsCodec.decode_slice (TagMapping.data_type m) (TagMapping.byte_order m)
    (TagMapping.bit_offset m) (ModbusCodec.registers_to_bytes
      (mem (TagMapping.area m) <$> seqZ (TagMapping.address m) (TagMapping.word_count m)))
    = Some (Ok v) →
  ∃ o w', run_read_cycle_impl config rgs fuel w = (o, w') ∧
    (o = Ret tt → shown w' !! TagMapping.tag_id m = Some (v, TagQuality.Good) ∧ defs w' = defs w ∧
       log w' = log w ++ (if conn w then [] else [EvConnect true]) ++ read_events (sid_counter w) rgs) ∧
    (Forall (λ m, TagMapping.data_type m ≠ TagDataType.DateTime) ms → o = Ret tt).
Proof.
  intros ms max HU Ha Hw HUw Hsid Hfuel Hf Hv Hmax Hnd Hrgs Hr Hmr Hlo Hhi Hd Hdty Hdec.
  pose proof (cycle_run U mem rgs fuel w HU Ha Hw HUw Hsid Hfuel) as H.
  assert (rgs = plan max ms) as Hplan
    by (eapply eventually_unique; [exact Hrgs|by apply read_groups_eventually]).
  destruct (plan_effect (defs w) mem rgs (shown w)) as [s|] eqn:Heff.
  - destruct H as (w' & Hrun & _ & _ & Hdefs & Hs & Hlog). exists (Ret tt), w'.
    split; [done|]. split; [|done]. intros _. split; [|done]. rewrite Hs. rewrite Hplan in Heff, Hr.
    assert (is_Some (shown w !! TagMapping.tag_id m)) as Hin by (by apply (typed_shown (registry w) _ d)).
    assert (TagValue.data_type v = TagDefinition.data_type d) as Hty by (by eapply decoded_type).
    by apply (plan_effect_tag mem (defs w) ms max r m d v (shown w) s).
  - destruct H as (w' & Hrun). exists Panic, w'. split; [done|]. split; [done|]. intros Hdate.
    destruct (plan_effect_total mem (defs w) rgs (shown w)) as [s Hs]; [|congruence].
    intros g m' Hg Hm'. rewrite Hplan in Hg.
    destruct (plan_request ms max g Hf Hv Hmax Hg) as (_ & _ & _ & Hin).
    rewrite Forall_forall in Hdate. apply Hdate. by apply Hin.
Qed.
End properties.

(** ** Witnesses, on the reference environment *)

Section witnesses.
Import FinsRef.
Local Existing Instances CratesRef.chrono_ref CratesRef.byteorder_ref CratesRef.bytes_ref
  CratesRef.json_ref fins_io_ref.
Local Instance iter : HashIter Z := hash_iter_ref Z.

Definition plant_up (e : Env) : Prop := queue e = [] ∧ memory e = plant_mem ∧ link e = true.

Lemma plant_answering : answering plant plant_up plant_mem plant_groups.
Proof.
  split.
  - intros e (? & ? & Hl). simpl. rewrite Hl. do 2 eexists. split; [reflexivity|by repeat split].
  - intros e (Hq & ? & ?). exists e. simpl. unfold ref_recv. rewrite Hq. by split.
  - intros g sid stream e Hg Hsid (Hq & Hm & Hl).
    assert (is_u16 (word_count g) ∧ 0 ≤ start_address g < 2 ^ 24) as [Hw Ha].
    { unfold plant_groups in Hg. apply elem_of_cons in Hg as [-> | Hg].
      - simpl. split; [by vm_compute|lia].
      - apply list_elem_of_singleton in Hg as ->. simpl. split; [by vm_compute|lia]. }
    do 3 eexists. split; [by apply (ref_exchange_read stream sid g e)|].
    rewrite Hm, FinsFrame.parse_fins_response_app by done. split; [by repeat split|done].
Qed.

Lemma plant_low :
  Forall (λ m, 0 ≤ TagMapping.address m ∧ TagMapping.address m + TagMapping.word_count m ≤ 2 ^ 24)
    (FinsConfig.mappings plant).
Proof. repeat (apply Forall_cons_2; [simpl; lia|]). apply Forall_nil_2. Qed.
Lemma plant_words area a : is_u16 (plant_mem area a).
Proof. unfold plant_mem. repeat case_match; by vm_compute. Qed.

(** It is the PLC of the wire. *)
Lemma plant_on_wire : memory_plc plant plant_up plant_mem.
Proof.
  split.
  - intros e (? & ? & Hl). simpl. rewrite Hl. do 2 eexists. split; [reflexivity|by repeat split].
  - intros e (Hq & ? & ?). exists e. simpl. unfold ref_recv. rewrite Hq. by split.
  - intros e stream sid area address count (Hq & Hm & Hl) Hsid Hcount Hlo Hhi _.
    assert (is_u16 count) as Hcount16.
    { change (FinsConfig.max_words_per_request plant) with 960 in Hcount. int_ranges. lia. }
    assert (0 ≤ address < 2 ^ 24) as Haddress by lia.
    destruct (ref_wire_read stream sid area address count e Hl Hsid Hcount16 Haddress)
      as (e1 & e2 & H1 & H2 & H3).
    { intros a. rewrite Hm. apply plant_words. }
    rewrite Hm in H2, H3.
    eexists [70; 73; 78; 83], [192; 0; 2; 0; 0; 0; 0; 0; 0], stream, stream, stream, _, _, _.
    split; [done|]. split; [done|]. split; [exact H1|]. split; [exact H2|]. split; [exact H3|].
    by repeat split.
Qed.

Lemma plant_clock e : plant_up e → plant_up (utc_now e).2.
Proof. done. Qed.
Lemma plant_world_up c : plant_up (env (plant_world c [])).
Proof. by repeat split. Qed.
Lemma fins_plant_fits : Forall fits (FinsConfig.mappings plant).
Proof. repeat (apply Forall_cons_2; [unfold Ranges.fits; simpl; lia|]). apply Forall_nil_2. Qed.
Lemma fins_plant_valid : validate (FinsConfig.mappings plant) = Ok tt.
Proof. vm_refl. Qed.
Lemma fins_plant_ids : NoDup (TagMapping.tag_id <$> FinsConfig.mappings plant).
Proof. apply (bool_decide_unpack _). by vm_compute. Qed.
Lemma plant_max : 1 ≤ FinsConfig.max_words_per_request plant ≤ 65535.
Proof. by vm_compute. Qed.
Lemma plant_planned :
  eventually (FinsPlan.read_groups (FinsConfig.max_words_per_request plant)
                (FinsConfig.mappings plant)) plant_groups.
Proof.
  replace plant_groups with (plan (FinsConfig.max_words_per_request plant)
    (FinsConfig.mappings plant)) by vm_refl.
  apply read_groups_eventually; [apply fins_plant_fits|apply fins_plant_valid|apply plant_max].
Qed.
Definition speed_definition : TagDefinition := definition_of speed.
Lemma fins_speed_defined c : defs (plant_world c []) !! "speed"%string = Some speed_definition.
Proof. vm_refl. Qed.

Lemma plant_no_date g m :
  g ∈ plant_groups → m ∈ mappings g → TagMapping.data_type m ≠ TagDataType.DateTime.
Proof.
  assert (Forall (λ g, Forall (λ m, TagMapping.data_type m ≠ TagDataType.DateTime) (mappings g))
    plant_groups) as Hall.
  { repeat (apply Forall_cons_2; [repeat (apply Forall_cons_2; [discriminate|]); apply Forall_nil_2|]).
    apply Forall_nil_2. }
  intros Hg Hm. rewrite Forall_forall in Hall. specialize (Hall g Hg).
  rewrite Forall_forall in Hall. by apply Hall.
Qed.

Lemma fins_cycle_refines_witness :
  ∃ w', run_read_cycle_impl plant plant_groups 1 (plant_world None []) = (Ret tt, w') ∧
    log w' = [EvConnect true;
              EvSend ([70; 73; 78; 83; 0; 0; 0; 19; 128; 0; 2; 0; 0; 0; 0; 0; 0; 255; 1; 1;
                       130; 0; 0; 10; 0; 0; 3]);
              EvSend ([70; 73; 78; 83; 0; 0; 0; 19; 128; 0; 2; 0; 0; 0; 0; 0; 0; 0; 1; 1;
                       177; 0; 0; 10; 0; 0; 1])] ∧
    shown w' !! "speed"%string = Some (TagValue.Int32 (-2), TagQuality.Good).
Proof.
  pose proof (fins_cycle_refines plant plant_up plant_mem plant_groups 1 (plant_world None [])
    plant_clock plant_words plant_on_wire (fins_plant_inv _ _) (plant_world_up _) ltac:(by vm_compute)
    (Nat.le_refl 1) fins_plant_fits (Forall_impl _ _ _ plant_low (λ m, @proj2 _ _))
    fins_plant_valid plant_max fins_plant_ids plant_planned) as H.
  destruct (plan_effect_total plant_mem (defs (plant_world None [])) plant_groups
    (shown (plant_world None []))) as [s Hs]; [exact plant_no_date|].
  rewrite Hs in H. destruct H as (w' & Hrun & _ & _ & _ & Hlog & _ & Htag).
  exists w'. split; [exact Hrun|]. split; [exact Hlog|].
  apply (Htag (mkReadGroup 130 10 3 [speed; level]) speed speed_definition (TagValue.Int32 (-2))
    (list_elem_of_here _ _) (list_elem_of_here _ _) eq_refl ltac:(simpl; lia) ltac:(simpl; lia)
    (fins_speed_defined _) eq_refl eq_refl).
Defined.

Lemma fins_cycle_reads_tag_witness :
  ∃ o w', run_read_cycle_impl plant plant_groups 1 (plant_world None []) = (o, w') ∧
    (o = Ret tt → shown w' !! "speed"%string = Some (TagValue.Int32 (-2), TagQuality.Good)) ∧
    o = Ret tt.
Proof.
  destruct (fins_cycle_reads_tag plant plant_up plant_mem plant_groups 1 (plant_world None [])
    (mkReadGroup 130 10 3 [speed; level]) speed speed_definition (TagValue.Int32 (-2))
    plant_clock plant_answering (fins_plant_inv _ _) (plant_world_up _) ltac:(by vm_compute)
    (Nat.le_refl 1) fins_plant_fits fins_plant_valid plant_max fins_plant_ids plant_planned
    (list_elem_of_here _ _) (list_elem_of_here _ _) ltac:(simpl; lia) ltac:(simpl; lia)
    (fins_speed_defined _) eq_refl eq_refl) as (o & w' & Hrun & Hs & Hd).
  exists o, w'. split; [exact Hrun|]. split; [intros Ho; by apply Hs|]. apply Hd.
  repeat (apply Forall_cons_2; [discriminate|]). apply Forall_nil_2.
Defined.

Lemma fins_read_group_outcome_witness :
  ∃ w', read_group plant 1 (mkReadGroup 177 10 1 [valve])
          broken_world = (Ret false, w') ∧
    conn w' = None ∧
    shown w' = Shown.marks ["valve"%string] TagQuality.CommLost (shown (plant_world (Some tt) [])).
Proof.
  destruct (fins_read_group_outcome plant 1 (mkReadGroup 177 10 1 [valve]) tt broken_world
    (fins_plant_inv _ _) eq_refl) as (w' & Hrun & _ & Hs & Hc & _).
  exists w'. split; [exact Hrun|]. split; [exact Hc|exact Hs].
Defined.
End witnesses.
End FinsReads.
