(* ===== verification/DriverApi.v ===== *)
(** * The trait of the protocol drivers

    Models driver/common/src/lib.rs: [ProtocolDriver] is a class on the type of a
    driver's world, and the two drivers are its instances, from their [validate],
    [read_cycle] and [health] (in driver/{fins,modbus}/src/driver.rs).  A boxed error is
    its text.  The method [submit_write], which both drivers write alike and the runtime
    does not use, is at the end, on an environment of its own. *)

From stdpp Require Import base tactics numbers list gmap strings.
From S2P Require Import Prelude Effects RustStd RustStr RustSlice RustMap Crates TagValue Tag TagDefinition TagStore Registry DriverWorld ModbusTypes ModbusCodec ModbusPlan ModbusDriver FinsTypes FinsCodec FinsPlan FinsDriver.
Local Open Scope Z_scope.

Module ProtocolDriver.

(** The errors of a computation as their texts. *)
Definition boxed {W E A} (to_string : E → string) (m : M W E A) : M W string A := λ w,
  let '(o, w) := m w in
  (match o with Ret a => Ret a | Fail e => Fail (to_string e) | Panic => Panic | Pending => Pending end,
   w).

Section trait.
Context {J : SerdeJson}.

(** [trait ProtocolDriver] *)
Class ProtocolDriver (W : Type) := {
  validate : result unit string;
  read_cycle : M W string unit;
  health : M W string (option JsonValue);
}.

(** The default methods. *)
Definition default_validate : result unit string := Ok tt.
Definition default_health {W} : M W string (option JsonValue) := mret None.
End trait.

Section drivers.
Context {C : Chrono} {BY : Bytes} {B : ByteOrder} {J : SerdeJson}.

(** The Modbus driver; [fuel] bounds each of its reconnect loops. *)
#[export] Program Instance modbus_world {IO : ModbusIO} :
  DriverWorld ModbusDriver.World ModbusIO.Env (option ModbusIO.ClientContext * bool * list ModbusDriver.event) := {|
  dw_registry := ModbusDriver.registry;
  dw_env := ModbusDriver.env;
  dw_rest w := (ModbusDriver.client w, ModbusDriver.health_tx w, ModbusDriver.log w);
  dw_set_registry := ModbusDriver.set_registry;
  dw_set_env := ModbusDriver.set_env;
  dw_now := ModbusIO.utc_now;
|}.
Solve Obligations with done.

(** [health] of the two drivers: they have no snapshot to give. *)
Definition modbus_health {IO : ModbusIO} : M ModbusDriver.World string (option JsonValue) := mret None.
Definition fins_health {IO : FinsIO} : M FinsDriver.World string (option JsonValue) := mret None.

Definition modbus_driver {IO : ModbusIO} `{!HashIter ModbusFunction}
    (config : ModbusConfig ModbusIO.SocketAddr) (fuel : nat) : ProtocolDriver ModbusDriver.World :=
  {| validate := map_err ModbusError.to_string (ModbusPlan.validate (ModbusConfig.mappings config));
     read_cycle := boxed ModbusError.to_string (ModbusDriver.run_read_cycle_impl config fuel);
     health := modbus_health |}.

(** The FINS driver, with the read groups computed by [new]. *)
Definition fins_driver {IO : FinsIO} `{!HashIter Z} (config : FinsConfig FinsIO.SocketAddr)
    (read_groups : list FinsPlan.ReadGroup) (fuel : nat) : ProtocolDriver FinsDriver.World :=
  {| validate := map_err FinsError.to_string (FinsPlan.validate (FinsConfig.mappings config));
     read_cycle := boxed FinsError.to_string (FinsDriver.run_read_cycle_impl config read_groups fuel);
     health := fins_health |}.
End drivers.

(** ** [submit_write] *)

Inductive confirmation := Replied (r : result unit string) | ChannelClosed | TimedOut.

Section submit.
Context {C : Chrono}.

(** The write queue of a driver and the reply channels, for a type of requests. *)
Class SubmitIO (Req : Type) := {
  Env : Type;
  (** [oneshot::channel()] *)
  oneshot : Env → nat * Env;
  (** [write_tx.send(req).await]; an error is its text *)
  send : Req → Env → result unit string * Env;
  (** [timeout(Duration::from_secs(s), rx).await] *)
  await_reply : Z → nat → Env → confirmation * Env;
}.

Definition submit {Req} {IO : SubmitIO Req} (make : nat → Req) : M Env string unit := λ e,
  let '(tx, e) := oneshot e in
  let '(sent, e) := send (make tx) e in
  match sent with
  | Err err => (Fail err, e)
  | Ok tt =>
      let '(c, e) := await_reply 5 tx e in
      (match c with
       | Replied (Ok tt) => Ret tt
       | Replied (Err msg) => Fail msg
       | ChannelClosed => Fail "reply channel closed"%string
       | TimedOut => Fail "write confirmation timed out"%string
       end, e)
  end.

(** The two drivers'. *)
Definition modbus_submit_write {IO : SubmitIO WriteRequest} (tag_id : string) (value : TagValue)
    : M Env string unit :=
  submit (λ tx, {| WriteRequest.tag_id := tag_id; WriteRequest.value := value;
                   WriteRequest.reply := Some tx |}).
Definition fins_submit_write {IO : SubmitIO FinsWriteRequest} (tag_id : string) (value : TagValue)
    : M Env string unit :=
  submit (λ tx, {| FinsWriteRequest.tag_id := tag_id; FinsWriteRequest.value := value;
                   FinsWriteRequest.reply := Some tx |}).
End submit.
End ProtocolDriver.
