(* ===== verification/WritePath.v ===== *)
(** * The write path: what the runtime asks of a driver

    The write handler hands a request to a driver through a queue and takes the answer
    from a reply channel; in between runs the driver's poller.  The class states what a
    driver promises about that, whatever its protocol: a cycle only works on requests
    that were queued, an answer belongs to the request of its channel, and a confirmation
    is given only for a write that was sent.  A second class states what it promises when
    all goes well.  The two drivers are the instances of both; the system's theorems are
    proved against the classes. *)

From stdpp Require Import base tactics numbers list gmap strings.
From S2P Require Import Prelude Effects RustStd RustStr RustSlice RustMap Crates TagValue Tag TagDefinition TagStore Registry DriverWorld ModbusTypes ModbusCodec.
Local Open Scope Z_scope.

Module WritePath.
Section class.
Context {C : Chrono} {J : SerdeJson}.

Class WriteDriver (W : Type) := {
  (** the driver's handle on the registry *)
  registry : W → TagRegistry;
  set_registry : TagRegistry → W → W;
  (** a request put into the queue; [None] if the queue is full *)
  submit : string → TagValue → option nat → W → option W;
  (** [read_cycle] *)
  cycle : W → outcome string unit * W;
  (** the request of a reply channel, queued or taken *)
  requested : W → nat → option (string * TagValue);
  (** the answer sent on a reply channel *)
  answer : W → nat → option (result unit string);
  (** a write of the value to the tag's place was sent, the PLC consented to it, and it was
      confirmed on the channel next *)
  written : W → nat → string → TagValue → Prop;
  (** the states of a driver in use *)
  sound : W → Prop;

  sound_registry w : sound w → TagRegistry.wf (registry w);
  registry_set r w : registry (set_registry r w) = r;
  sound_set r w : sound w → TagRegistry.wf r → sound (set_registry r w);
  requested_set r w c : requested (set_registry r w) c = requested w c;
  answer_set r w c : answer (set_registry r w) c = answer w c;

  submit_ok id v reply w w' :
    sound w → (∀ c, reply = Some c → requested w c = None) → submit id v reply w = Some w' →
    sound w' ∧ registry w' = registry w ∧
    (∀ c, requested w' c = if decide (reply = Some c) then Some (id, v) else requested w c) ∧
    (∀ c, answer w' c = answer w c);
  cycle_ok w :
    sound w → sound (cycle w).2 ∧ (∀ c, requested (cycle w).2 c = requested w c);
  answer_ok w c r :
    sound w → answer w c = Some r →
    ∃ id v, requested w c = Some (id, v) ∧ (r = Ok tt → written w c id v);
}.

(** A driver of one of two kinds. *)
Section sum.
Context {W1 W2 : Type} {D1 : WriteDriver W1} {D2 : WriteDriver W2}.
Definition sum_cycle (w : W1 + W2) : outcome string unit * (W1 + W2) :=
  match w with
  | inl w => ((cycle w).1, inl (cycle w).2)
  | inr w => ((cycle w).1, inr (cycle w).2)
  end.
Definition sum_submit (id : string) (v : TagValue) (reply : option nat) (w : W1 + W2)
    : option (W1 + W2) :=
  match w with
  | inl w => inl <$> submit id v reply w
  | inr w => inr <$> submit id v reply w
  end.
#[export] Instance sum_driver : WriteDriver (W1 + W2).
Proof.
  refine {|
    registry w := match w with inl w => registry w | inr w => registry w end;
    set_registry r w :=
      match w with inl w => inl (set_registry r w) | inr w => inr (set_registry r w) end;
    submit := sum_submit;
    cycle := sum_cycle;
    requested w := match w with inl w => requested w | inr w => requested w end;
    answer w := match w with inl w => answer w | inr w => answer w end;
    written w := match w with inl w => written w | inr w => written w end;
    sound w := match w with inl w => sound w | inr w => sound w end;
  |}.
  - intros []; apply sound_registry.
  - intros r []; apply registry_set.
  - intros r []; apply sound_set.
  - intros r []; apply requested_set.
  - intros r []; apply answer_set.
  - intros id v reply [w|w] w' Hs Hf (w1 & Hw & ->)%fmap_Some; by apply submit_ok.
  - intros [w|w]; apply cycle_ok.
  - intros [w|w]; apply answer_ok.
Defined.
End sum.

(** What a driver promises when all goes well: in some of its states it is ready for a
    write of a value to a tag.  It then takes the request, and its next cycle confirms the
    write and leaves the tag showing the value, up to what the PLC's words can hold. *)
Class ServingDriver (W : Type) {WD : WriteDriver W} := {
  ready_for : W → string → TagDefinition → TagValue → Prop;
  serves_write w id d v c :
    ready_for w id d v → sound w → requested w c = None →
    ∃ w1, submit id v (Some c) w = Some w1 ∧
      ∀ r, TagRegistry.wf r → TagRegistry.defs r !! id = Some d →
        ∃ w2 v', cycle (set_registry r w1) = (Ret tt, w2) ∧ answer w2 c = Some (Ok tt) ∧
          TagRegistry.defs (registry w2) = TagRegistry.defs r ∧
          Shown.of_registry (registry w2) !! id = Some (v', TagQuality.Good) ∧
          ModbusCodec.read_back v v';
}.

#[export] Instance sum_serving {W1 W2} `{ServingDriver W1} `{ServingDriver W2} : ServingDriver (W1 + W2).
Proof.
  refine {| ready_for w := match w with inl w => ready_for w | inr w => ready_for w end |}.
  intros [w|w] id d v c Hw Hs Hc; destruct (serves_write w id d v c Hw Hs Hc) as (w1 & Hsub & Hcyc).
  - exists (inl w1). split; [simpl; by rewrite Hsub|]. intros r Hr Hd.
    destruct (Hcyc r Hr Hd) as (w2 & v' & Hrun & ? & ? & ?). exists (inl w2), v'. simpl. by rewrite Hrun.
  - exists (inr w1). split; [simpl; by rewrite Hsub|]. intros r Hr Hd.
    destruct (Hcyc r Hr Hd) as (w2 & v' & Hrun & ? & ? & ?). exists (inr w2), v'. simpl. by rewrite Hrun.
Defined.
End class.

(** The first answer on a channel, and the first request with it, in lists of them. *)
Definition answer_on {Ev} (rep : Ev → option (nat * result unit string)) (l : list Ev) (c : nat)
    : option (result unit string) :=
  head (omap (λ ev, '(c', r) ← rep ev; if decide (c' = c) then Some r else None) l).
Definition request_on {Req} (reply : Req → option nat) (l : list Req) (c : nat) : option Req :=
  head (filter (λ req, reply req = Some c) l).

Lemma answer_on_app {Ev} (rep : Ev → option (nat * result unit string)) l l' c :
  answer_on rep (l ++ l') c = match answer_on rep l c with Some r => Some r | None => answer_on rep l' c end.
Proof. unfold answer_on. rewrite omap_app. by destruct (omap _ l). Qed.
Lemma answer_on_elem {Ev} (rep : Ev → option (nat * result unit string)) l c r :
  answer_on rep l c = Some r → ∃ i ev, l !! i = Some ev ∧ rep ev = Some (c, r).
Proof.
  unfold answer_on. intros H. apply head_Some_elem_of, list_elem_of_omap in H as (ev & Hin & Hev).
  apply list_elem_of_lookup in Hin as [i Hi]. exists i, ev. split; [done|].
  destruct (rep ev) as [[c' r']|]; [|done]. simpl in Hev. case_decide; naive_solver.
Qed.

Lemma request_on_unique {Req} (reply : Req → option nat) l c req :
  NoDup (omap reply l) → req ∈ l → reply req = Some c → request_on reply l c = Some req.
Proof.
  unfold request_on. induction l as [|x l IH]; intros Hnd Hin Hr; [by apply not_elem_of_nil in Hin|].
  rewrite filter_cons. case_decide as Hx.
  - apply elem_of_cons in Hin as [->|Hin]; [done|]. exfalso. simpl in Hnd. rewrite Hx in Hnd.
    apply NoDup_cons in Hnd as [Hnd _]. apply Hnd, list_elem_of_omap. by exists req.
  - apply elem_of_cons in Hin as [->|Hin]; [done|]. apply IH; [|done..].
    simpl in Hnd. destruct (reply x); [by apply NoDup_cons in Hnd as [_ ?]|done].
Qed.

Lemma request_on_None {Req} (reply : Req → option nat) l c :
  request_on reply l c = None → c ∉ omap reply l.
Proof.
  unfold request_on. intros H (req & Hin & Hr)%list_elem_of_omap.
  apply head_None in H. assert (req ∈ filter (λ req, reply req = Some c) l) as Hf
    by by apply list_elem_of_filter.
  rewrite H in Hf. by apply not_elem_of_nil in Hf.
Qed.

(** A request put at the end. *)
Lemma request_on_snoc {Req} (reply : Req → option nat) l req c :
  (∀ c, reply req = Some c → request_on reply l c = None) →
  request_on reply (l ++ [req]) c =
    if decide (reply req = Some c) then Some req else request_on reply l c.
Proof.
  unfold request_on. intros Hn. rewrite filter_app, filter_cons, filter_nil.
  destruct (decide (reply req = Some c)) as [Hr|Hr].
  - specialize (Hn c Hr). apply head_None in Hn. by rewrite Hn.
  - by rewrite app_nil_r.
Qed.
Lemma replies_snoc {Req} (reply : Req → option nat) l req :
  (∀ c, reply req = Some c → request_on reply l c = None) →
  NoDup (omap reply l) → NoDup (omap reply (l ++ [req])).
Proof.
  intros Hn Hnd. rewrite omap_app. simpl. destruct (reply req) as [c|]; simpl.
  - apply NoDup_app. split; [done|]. split; [|apply NoDup_singleton].
    intros x Hx ->%list_elem_of_singleton. by apply (request_on_None _ _ _ (Hn c eq_refl)).
  - by rewrite app_nil_r.
Qed.
End WritePath.
