(* ===== verification/ModbusQueue.v ===== *)
(** * Modbus driver: the write queue

    The driver's receiving half of its write queue is an operation of its environment;
    here the environment is refined to one that holds the queue, any network besides.  A
    cycle only moves requests from the queue to the log, and confirms a request only right
    after the write the request is entitled to. *)

From stdpp Require Import base tactics numbers list gmap strings.
From S2P Require Import Prelude Effects RustStd RustStr RustSlice RustMap Crates CratesRef TagValue Tag TagDefinition TagStore Registry ModbusTypes ModbusCodec ModbusPlan ModbusDriver ModbusReads DriverApi WritePath.
Local Open Scope Z_scope.

(** ** What the parts of a cycle may change *)

Module ModbusSteps.
Import ModbusIO ModbusDriver ModbusError.
Section steps.
Context {C : Chrono} {B : ByteOrder} {J : SerdeJson} {IO : ModbusIO}.
Context `{!HashIter ModbusFunction} (config : ModbusConfig SocketAddr).
(** A preorder that every step respects: those on the registry and the client, the
    events in [ok], and the environment's operations but [try_recv], which move the
    environment along [Q]. *)
Context (R : World → World → Prop) `{!PreOrder R} (Q : Env → Env → Prop) (ok : event → Prop).
Notation steps := (Effects.keeps (λ _ : World, True) R (λ _ : DriverError, True) True).
Context (R_registry : ∀ r w, R w (set_registry r w)) (R_client : ∀ c w, R w (set_client c w))
  (R_env : ∀ e w, Q (env w) e → R w (set_env e w))
  (R_emit : ∀ ev w, ok ev → R w (add_event ev w)).
Context (Q_now : ∀ e, Q e (utc_now e).2) (Q_connect : ∀ a e, Q e (tcp_connect a e).2)
  (Q_sleep : ∀ s e, Q e (sleep s e))
  (Q_write : ∀ t ctx a ws e, Q e (write_multiple_registers t ctx a ws e).2)
  (Q_holding : ∀ t ctx a n e, Q e (read_holding_registers t ctx a n e).2)
  (Q_input : ∀ t ctx a n e, Q e (read_input_registers t ctx a n e).2)
  (Q_coils : ∀ t ctx a n e, Q e (read_coils t ctx a n e).2)
  (Q_discrete : ∀ t ctx a n e, Q e (read_discrete_inputs t ctx a n e).2).
Context (ok_connect : ∀ b, ok (EvConnect b)) (ok_sleep : ∀ s, ok (EvSleep s))
  (ok_read : ∀ f a n, ok (EvRead f a n)) (ok_health : ∀ o, ok (EvHealth o)).

Lemma emit_steps ev : ok ev → steps (emit ev).
Proof using All. intros Hev. apply keeps_modify; [apply _|]. intros w _. by split; [|apply R_emit]. Qed.
Lemma set_client_steps c : steps (modify (set_client c)).
Proof using All. apply keeps_modify; [apply _|]. intros w _. by split. Qed.
Lemma env_op_steps {A} (f : Env → A * Env) : (∀ e, Q e (f e).2) → steps (env_op f).
Proof using All.
  intros Hf w _. unfold wp, env_op. specialize (Hf (env w)).
  destruct (f (env w)) as [a e]. split; [done|]. split; [by apply R_env|done].
Qed.
Lemma sleep_steps s : steps (modify (λ w, set_env (sleep s (env w)) w)).
Proof using All. apply keeps_modify; [apply _|]. intros w _. split; [done|]. by apply R_env. Qed.
Lemma now_steps : steps now.
Proof using All. by apply env_op_steps. Qed.
Lemma or_panic_steps {A} (o : option A) : steps (or_panic o).
Proof using All. apply keeps_or_panic; [apply _|done]. Qed.
Lemma set_registry_steps r : steps (modify (set_registry r)).
Proof using All. apply keeps_modify; [apply _|]. intros w _. by split. Qed.
Lemma ret_steps {A} (a : A) : steps (mret a).
Proof using All. apply keeps_ret, _. Qed.
Lemma gets_steps {A} (f : World → A) : steps (gets f).
Proof using All. apply keeps_gets, _. Qed.
Lemma throw_steps {A} e : steps (throw (A:=A) e).
Proof using All. by apply keeps_throw; [apply _|]. Qed.
Lemma pending_steps {A} : steps (pending (A:=A)).
Proof using All. apply keeps_pending, _. Qed.
Lemma bind_steps {A D} (m : M World DriverError A) (k : A → M World DriverError D) :
  steps m → (∀ a, steps (k a)) → steps (m ≫= k).
Proof using All. apply keeps_bind, _. Qed.
Lemma for_each_steps {X} (f : X → M World DriverError unit) l :
  (∀ x, steps (f x)) → steps (for_each f l).
Proof using All. intros Hf. apply keeps_for_each; [apply _|]. auto. Qed.

Create HintDb steps.
Hint Resolve emit_steps set_client_steps sleep_steps now_steps or_panic_steps set_registry_steps
  ret_steps gets_steps throw_steps pending_steps ok_connect ok_sleep ok_read ok_health : steps.
(** Step through a computation. *)
Ltac walk := repeat (cbn beta; first
  [ solve [eauto with steps]
  | apply bind_steps; [|intros ?]
  | apply for_each_steps; intros ?
  | progress cbv zeta
  | case_match ]).

Lemma set_tag_quality_steps id q : steps (set_tag_quality id q).
Proof using All. unfold set_tag_quality. walk. Qed.
Lemma update_tag_value_steps id v q ts : steps (update_tag_value id v q ts).
Proof using All. unfold update_tag_value. walk. Qed.
Lemma send_health_event_steps status detail : steps (send_health_event config status detail).
Proof using All. unfold send_health_event. walk. Qed.
Hint Resolve set_tag_quality_steps update_tag_value_steps send_health_event_steps : steps.

Lemma connect_loop_steps fuel b : steps (connect_loop config fuel b).
Proof using All.
  revert b. induction fuel as [|fuel IH]; intros b; simpl; [walk|].
  apply bind_steps; [by apply env_op_steps|]. intros [ctx|e]; walk.
Qed.
Lemma connect_with_backoff_steps fuel : steps (connect_with_backoff config fuel).
Proof using All. apply connect_loop_steps. Qed.
Hint Resolve connect_with_backoff_steps : steps.

(** *** Writes *)

Section writes.
Context (ok_reply : ∀ c r, ok (EvReply c r)) (ok_write : ∀ a ws, ok (EvWrite a ws)).
Context (ok_answer : ∀ res, ok (EvAnswer res)).
Hint Resolve ok_reply ok_write ok_answer : steps.

Lemma send_reply_steps reply r : steps (send_reply reply r).
Proof using All. unfold send_reply. walk. Qed.
Hint Resolve send_reply_steps : steps.

Lemma write_result_steps id req res : steps (write_result config id req res).
Proof using All. unfold write_result. walk. Qed.
Lemma write_context_steps fuel id reply : steps (write_context config fuel id reply).
Proof using All. unfold write_context. walk. Qed.
Hint Resolve write_result_steps write_context_steps : steps.

Lemma write_registers_steps fuel req m words : steps (write_registers config fuel req m words).
Proof using All.
  unfold write_registers. apply bind_steps; [walk|intros ctx].
  apply bind_steps; [walk|intros _]. apply bind_steps; [by apply env_op_steps|]. intros [res ctx']. walk.
Qed.
Hint Resolve write_registers_steps : steps.

Lemma process_write_steps fuel req : steps (process_write config fuel req).
Proof using All. unfold process_write. walk. Qed.
End writes.

(** *** Reads *)

Lemma read_chunk_steps func ctx a n : steps (read_chunk config func ctx a n).
Proof using All.
  unfold read_chunk. apply bind_steps; [walk|intros _]. apply env_op_steps. intros e.
  assert (∀ A (g : A → result (list Z) string) (x : A * ClientContext * Env), Q e x.2 →
    Q e (let '(r, ctx, e) := x in (g r, ctx, e)).2) as Hpair by by intros ? ? [[]].
  destruct func; apply Hpair; auto.
Qed.
Lemma update_mapping_steps a n bytes m : steps (update_mapping a n bytes m).
Proof using All. unfold update_mapping. walk. Qed.
Lemma read_failed_steps members e : steps (read_failed config members e).
Proof using All. unfold read_failed. walk. Qed.
Hint Resolve read_chunk_steps update_mapping_steps read_failed_steps : steps.

Lemma chunk_loop_steps fuel func members ctx a n : steps (chunk_loop config fuel func members ctx a n).
Proof using All.
  revert ctx a n. induction fuel as [|fuel IH]; intros ctx a n; simpl; walk.
Qed.
Lemma read_groups_steps func ctx gs : steps (read_groups config func ctx gs).
Proof using All.
  revert ctx. induction gs as [|g gs IH]; intros ctx; simpl; [walk|].
  apply bind_steps; [apply chunk_loop_steps|]. intros ctx'. apply IH.
Qed.
Lemma read_functions_steps ctx fs : steps (read_functions config ctx fs).
Proof using All.
  revert ctx. induction fs as [|[f ms] fs IH]; intros ctx; simpl; [walk|].
  apply bind_steps; [apply read_groups_steps|]. intros ctx'. apply IH.
Qed.
Lemma obtain_context_steps fuel : steps (obtain_context config fuel).
Proof using All. unfold obtain_context. walk. Qed.

(** The cycle after its writes. *)
Definition read_phase (fuel : nat) : M World DriverError unit :=
  ctx ← obtain_context config fuel;
  ctx ← read_functions config ctx (hash_iter (ModbusPlan.by_func (ModbusConfig.mappings config)));
  modify (set_client (Some ctx)).
Lemma read_phase_steps fuel : steps (read_phase fuel).
Proof using All.
  unfold read_phase. apply bind_steps; [apply obtain_context_steps|]. intros ctx.
  apply bind_steps; [apply read_functions_steps|]. intros ctx'. walk.
Qed.
End steps.
End ModbusSteps.

(** ** A confirmation comes right after its write *)

Module ModbusHonest.
Import ModbusIO ModbusDriver ModbusError ModbusSteps.
Section honest.
Context {C : Chrono} {B : ByteOrder} {J : SerdeJson} {IO : ModbusIO}.
Context `{!HashIter ModbusFunction} (config : ModbusConfig SocketAddr).
Notation emits := (Effects.emits (E:=DriverError) inv log).

(** Every reply of a log answers a request received before, and a confirmation directly
    follows the PLC's consent, and this a write the request is entitled to. *)
Definition honest (l : list event) : Prop :=
  ∀ i c r, l !! i = Some (EvReply c r) →
    ∃ j req, (j < i)%nat ∧ l !! j = Some (EvReceived req) ∧ WriteRequest.reply req = Some c ∧
      (r = Ok tt → ∃ k a ws, i = S (S k) ∧ l !! k = Some (EvWrite a ws) ∧
         l !! S k = Some (EvAnswer (Answer tt)) ∧ entitled config req a ws).

Lemma replied_lookup l i c r : l !! i = Some (EvReply c r) → c ∈ replied l.
Proof. intros Hi%list_elem_of_lookup_2. apply list_elem_of_omap. by exists (EvReply c r). Qed.

Lemma honest_quiet l : replied l = [] → honest l.
Proof. intros Hl i c r Hi%replied_lookup. rewrite Hl in Hi. by apply not_elem_of_nil in Hi. Qed.

Lemma honest_app l l' : honest l → honest l' → honest (l ++ l').
Proof.
  intros Hl Hl' i c r [Hi|[Hlen Hi]]%lookup_app_Some.
  - destruct (Hl i c r Hi) as (j & req & Hj & Hreq & Hr & Hok). exists j, req.
    split; [done|]. split; [by apply lookup_app_l_Some|]. split; [done|]. intros Hro.
    destruct (Hok Hro) as (k & a & ws & -> & Hk & Ha & He). exists k, a, ws.
    split; [done|]. split; [by apply lookup_app_l_Some|]. split; [by apply lookup_app_l_Some|done].
  - destruct (Hl' _ c r Hi) as (j & req & Hj & Hreq & Hr & Hok). exists (length l + j)%nat, req.
    split; [lia|]. split; [by rewrite lookup_app_add|]. split; [done|]. intros Hro.
    destruct (Hok Hro) as (k & a & ws & Hik & Hk & Ha & He). exists (length l + k)%nat, a, ws.
    split; [lia|]. split; [by rewrite lookup_app_add|].
    split; [by rewrite <- Nat.add_succ_r, lookup_app_add|done].
Qed.

(** One request: the events before its reply, and the reply. *)
Lemma honest_reply req l0 r :
  replied l0 = [] →
  (r = Ok tt → ∃ l a ws, l0 = l ++ [EvWrite a ws; EvAnswer (Answer tt)] ∧ entitled config req a ws) →
  honest (EvReceived req :: l0 ++ reply_events (WriteRequest.reply req) r).
Proof.
  intros Hq Hok [|i] c r' Hi; [done|]. simpl in Hi.
  apply lookup_app_Some in Hi as [Hi%replied_lookup|[Hlen Hi]].
  { rewrite Hq in Hi. by apply not_elem_of_nil in Hi. }
  destruct (WriteRequest.reply req) as [c0|] eqn:Hr; simpl in Hi; [|done].
  apply list_lookup_singleton_Some in Hi as [Hi [= <- <-]].
  exists 0%nat, req. split; [lia|]. split; [done|]. split; [done|]. intros Hro.
  destruct (Hok Hro) as (l & a & ws & -> & He). rewrite length_app in *. simpl in *.
  exists (S (length l)), a, ws. split; [lia|]. simpl. split; [|split; [|done]].
  - by apply lookup_app_l_Some, list_lookup_middle.
  - apply lookup_app_l_Some. by rewrite (lookup_app_r l) , Nat.sub_succ_l, Nat.sub_diag by lia.
Qed.

Lemma honest_trace fuel req o l : write_trace config fuel req o l → honest (EvReceived req :: l).
Proof.
  intros H. pose proof (λ msg, honest_reply req [] (Err msg) eq_refl) as Href. simpl in Href.
  assert (∀ n, replied (retry_events (backoffs config n 1)) = []) as Hretry by (intros; apply retry_events_quiet).
  unfold write_trace in H.
  destruct (find _ _) as [m|] eqn:Hfind; [|destruct H as [_ ->]; by apply Href].
  destruct (ModbusMapping.writable m) eqn:Hw; simpl in H; [|destruct H as [_ ->]; by apply Href].
  case_bool_decide as Hh; [|destruct H as [_ ->]; by apply Href].
  destruct H as (words & sent & Hc & Ho & [[_ ->]|(conn & res & ending & Hconn & Hend & ->)]).
  { apply honest_quiet. simpl. apply Hretry. }
  assert (entitled config req (ModbusMapping.address m) sent) as Hent by by exists m, words.
  assert (replied (conn ++ [EvWrite (ModbusMapping.address m) sent; EvAnswer res]) = []) as Hq.
  { rewrite replied_app. destruct Hconn as [->|(n & _ & ->)]; [done|].
    rewrite replied_app. by rewrite Hretry. }
  assert (∀ r, (r = Ok tt → res = Answer tt) → honest (EvReceived req ::
    conn ++ EvWrite (ModbusMapping.address m) sent :: EvAnswer res ::
      reply_events (WriteRequest.reply req) r)) as Hrep.
  { intros r Hr. pose proof (honest_reply req _ r Hq) as H. rewrite <- (assoc_L (++)) in H. apply H.
    intros Hro. rewrite (Hr Hro). by exists conn, (ModbusMapping.address m), sent. }
  destruct Hend as [| |e health _ Hhealth| |]; try (by apply Hrep).
  change (EvReceived req :: conn ++ ?x :: ?z :: ?y ++ health)
    with ([EvReceived req] ++ conn ++ (x :: z :: y) ++ health).
  rewrite !(assoc_L (++)), <- (assoc_L (++) _ conn). apply honest_app; [by apply Hrep|].
  apply honest_quiet. by destruct Hhealth as [-> | ->].
Qed.

Lemma process_writes_honest fuel n : emits (process_writes config fuel n) (λ _ l, honest l).
Proof.
  induction n as [|n IH]; simpl; [by apply emits_ret, honest_quiet|].
  apply emits_bind_env. intros e r e' Hrecv.
  destruct r as [req| |]; [|by apply emits_ret, honest_quiet..].
  apply try_recv_wf in Hrecv. eapply emits_bind_gives; [apply emit_gives|]. intros _.
  eapply emits_bind; [by apply process_write_emits|..].
  - intros [] l1 Ht%honest_trace. eapply emits_mono; [exact IH|]. intros o l2 _ Hl2.
    by apply (honest_app (EvReceived req :: l1)).
  - by intros err l1 Ht%honest_trace.
  - by intros l1 Ht%honest_trace.
Qed.

(** A log that grew without any reply. *)
Definition silent (w w' : World) : Prop := ∃ l, log w' = log w ++ l ∧ replied l = [].
#[local] Instance silent_preorder : PreOrder silent.
Proof.
  split.
  - intros w. exists []. by rewrite app_nil_r.
  - intros w1 w2 w3 (l & Hl & Hr) (l' & Hl' & Hr'). exists (l ++ l').
    by rewrite Hl', Hl, (assoc_L (++)), replied_app, Hr, Hr'.
Qed.

Lemma read_phase_silent fuel w : silent w (read_phase config fuel w).2.
Proof.
  refine (proj1 (proj2 (read_phase_steps config silent (λ _ _, True)
    (λ ev, replied [ev] = []) _ _ _ _ _ _ _ _ _ _ _ _ _ _ _ _ fuel w I))); try done;
    try (intros ? w1; exists []; by rewrite app_nil_r).
  intros ev w1 Hev. by exists [ev].
Qed.

Lemma cycle_honest fuel w :
  inv w → honest (log w) → honest (log (run_read_cycle_impl config fuel w).2).
Proof.
  intros Hw Hl. destruct (process_writes_honest fuel 64 w Hw) as (_ & Hw1 & l & Hl1 & Hh).
  change (run_read_cycle_impl config fuel w) with ((process_writes config fuel 64;; read_phase config fuel) w).
  unfold mbind, M_bind. destruct (process_writes config fuel 64 w) as [o w1].
  simpl in *. assert (honest (log w1)) as Hh1 by (rewrite Hl1; by apply honest_app).
  destruct o; simpl; try done.
  destruct (read_phase_silent fuel w1) as (l2 & Hl2 & Hq).
  rewrite Hl2. by apply honest_app; [|apply honest_quiet].
Qed.
End honest.
End ModbusHonest.

(** ** The environment with a queue *)

Module ModbusQueue.
Import ModbusIO ModbusDriver ModbusError ModbusSteps ModbusHonest.

Section queue.
Context {C : Chrono} (Net : ModbusIO).

(** A network, and the requests waiting, each with a value its type can hold. *)
Notation request := { req : WriteRequest | TagValue.wf (WriteRequest.value req) }.
Record QEnv := mkEnv { queue : list request; net : Net.(ModbusIO.Env) }.
Definition set_net (n : Net.(ModbusIO.Env)) (e : QEnv) : QEnv := {| queue := queue e; net := n |}.
Definition on_net {A} (f : Net.(ModbusIO.Env) → A * Net.(ModbusIO.Env)) (e : QEnv) : A * QEnv :=
  let '(a, n) := f (net e) in (a, set_net n e).
Definition waiting (e : QEnv) : list WriteRequest := proj1_sig <$> queue e.

(** [mpsc::channel(256)] *)
Definition capacity : nat := 256.
Definition push (req : WriteRequest) (e : QEnv) : option QEnv :=
  if (capacity <=? length (queue e))%nat then None
  else match decide (TagValue.wf (WriteRequest.value req)) with
       | left H => Some {| queue := queue e ++ [exist _ req H]; net := net e |}
       | right _ => None
       end.
Definition pop (e : QEnv) : recv * QEnv :=
  match queue e with
  | [] => (Empty, e)
  | req :: q => (Received (proj1_sig req), {| queue := q; net := net e |})
  end.

Lemma pop_wf e req e' : pop e = (Received req, e') → TagValue.wf (WriteRequest.value req).
Proof. unfold pop. destruct (queue e) as [|[r Hr] q]; [done|]. by intros [= <- _]. Qed.

#[local] Instance queued : ModbusIO := {|
  ModbusIO.Env := QEnv;
  ModbusIO.SocketAddr := Net.(ModbusIO.SocketAddr);
  ModbusIO.ClientContext := Net.(ModbusIO.ClientContext);
  tcp_connect a := on_net (tcp_connect (ModbusIO := Net) a);
  set_slave := set_slave (ModbusIO := Net);
  write_multiple_registers t ctx a ws :=
    on_net (write_multiple_registers (ModbusIO := Net) t ctx a ws);
  read_holding_registers t ctx a n := on_net (read_holding_registers (ModbusIO := Net) t ctx a n);
  read_input_registers t ctx a n := on_net (read_input_registers (ModbusIO := Net) t ctx a n);
  read_coils t ctx a n := on_net (read_coils (ModbusIO := Net) t ctx a n);
  read_discrete_inputs t ctx a n := on_net (read_discrete_inputs (ModbusIO := Net) t ctx a n);
  try_recv := pop;
  sleep s e := set_net (sleep (ModbusIO := Net) s (net e)) e;
  utc_now := on_net (utc_now (ModbusIO := Net));
  try_recv_wf := pop_wf;
|}.

Lemma on_net_queue {A} (f : Net.(ModbusIO.Env) → A * Net.(ModbusIO.Env)) e :
  queue (on_net f e).2 = queue e.
Proof. unfold on_net. by destruct (f (net e)). Qed.
Lemma push_waiting req e e' : push req e = Some e' → waiting e' = waiting e ++ [req].
Proof.
  unfold push. destruct (_ <=? _)%nat; [done|]. destruct (decide _) as [H|]; [|done].
  intros [= <-]. unfold waiting. simpl. by rewrite fmap_app.
Qed.
End queue.
Arguments QEnv {_} Net.
Arguments queue {_ Net}.
Arguments waiting {_ Net}.
Arguments push {_ Net}.
Arguments pop {_ Net}.

(** ** The driver and its queue *)

Section slot.
Context {C : Chrono} {B : ByteOrder} {J : SerdeJson} {Net : ModbusIO}.
Context `{!HashIter ModbusFunction}.
#[local] Instance IO : ModbusIO := queued Net.

(** A driver of the plant: its configuration, the bound of its reconnect loops, and its
    world. *)
Record Slot := mkSlot {
  config : ModbusConfig SocketAddr;
  fuel : nat;
  world : World;
}.
Definition set_world (w : World) (s : Slot) : Slot :=
  {| config := config s; fuel := fuel s; world := w |}.

(** The requests that ever entered the queue: those taken, and those waiting. *)
Definition history (w : World) : list WriteRequest := received (log w) ++ waiting (env w).
Definition reply_of (ev : event) : option (nat * result unit string) :=
  match ev with EvReply c r => Some (c, r) | _ => None end.

Definition same_history (w w' : World) : Prop := history w' = history w.
#[local] Instance same_history_preorder : PreOrder same_history.
Proof. split; [done|]. intros w1 w2 w3 H1 H2. unfold same_history in *. congruence. Qed.

Definition same_queue (e e' : Env) : Prop := queue e' = queue e.
(** Steps that receive nothing keep the history. *)
Lemma emit_history ev w : received [ev] = [] → same_history w (add_event ev w).
Proof. intros Hev. unfold same_history, history. simpl. by rewrite received_app, Hev, app_nil_r. Qed.
Lemma env_history e w : same_queue (env w) e → same_history w (set_env e w).
Proof. unfold same_queue, same_history, history, waiting. simpl. by intros ->. Qed.

Ltac history_side :=
  try done; try apply env_history; try apply emit_history;
  try (intros; unfold same_queue; apply on_net_queue).

Lemma process_write_history cfg n req w : same_history w (process_write cfg n req w).2.
Proof.
  refine (proj1 (proj2 (process_write_steps cfg same_history same_queue
    (λ ev, received [ev] = []) _ _ _ _ _ _ _ _ _ _ _ _ _ _ _ _ _ _ _ n req w I))); history_side.
Qed.
Lemma read_phase_history cfg n w : same_history w (read_phase cfg n w).2.
Proof.
  refine (proj1 (proj2 (read_phase_steps cfg same_history same_queue
    (λ ev, received [ev] = []) _ _ _ _ _ _ _ _ _ _ _ _ _ _ _ _ n w I))); history_side.
Qed.

Lemma process_writes_history cfg n k w : same_history w (process_writes cfg n k w).2.
Proof.
  revert w. induction k as [|k IH]; intros w; simpl; [done|].
  unfold mbind, M_bind, env_op. simpl. unfold pop.
  destruct (queue (env w)) as [|req q] eqn:Hq; [by unfold same_history, history, waiting|].
  unfold emit, modify.
  set (w1 := add_event _ _).
  assert (same_history w w1) as H1.
  { unfold same_history, history, waiting, w1. simpl. rewrite received_app, Hq. simpl.
    by rewrite <- (assoc_L (++)). }
  pose proof (process_write_history cfg n (`req) w1) as H2.
  destruct (process_write cfg n (`req) w1) as [[[]| | |] w2]; simpl in *; etrans; eauto.
  etrans; [exact H2|]. apply IH.
Qed.

Lemma cycle_history cfg n w : same_history w (run_read_cycle_impl cfg n w).2.
Proof.
  change (run_read_cycle_impl cfg n w) with ((process_writes cfg n 64;; read_phase cfg n) w).
  unfold mbind, M_bind. pose proof (process_writes_history cfg n 64 w) as H.
  destruct (process_writes cfg n 64 w) as [[[]| | |] w1]; simpl in *; try done.
  etrans; [exact H|]. apply read_phase_history.
Qed.

(** ** The driver as an instance of the write path *)

Definition pairs (req : WriteRequest) : string * TagValue :=
  (WriteRequest.tag_id req, WriteRequest.value req).
Definition slot_submit (id : string) (v : TagValue) (reply : option nat) (s : Slot) : option Slot :=
  e ← push {| WriteRequest.tag_id := id; WriteRequest.value := v; WriteRequest.reply := reply |}
        (env (world s));
  Some (set_world (set_env e (world s)) s).
(** [ProtocolDriver::read_cycle] of the driver. *)
Definition slot_cycle (s : Slot) : outcome string unit * Slot :=
  let '(o, w) := @ProtocolDriver.read_cycle _ _ (ProtocolDriver.modbus_driver (config s) (fuel s)) (world s) in
  (o, set_world w s).
Definition slot_written (s : Slot) (c : nat) (id : string) (v : TagValue) : Prop :=
  ∃ k a ws,
    log (world s) !! k = Some (EvWrite a ws) ∧ log (world s) !! S k = Some (EvAnswer (Answer tt)) ∧
    log (world s) !! S (S k) = Some (EvReply c (Ok tt)) ∧
    entitled (config s) {| WriteRequest.tag_id := id; WriteRequest.value := v;
                           WriteRequest.reply := Some c |} a ws.
Record slot_sound (s : Slot) : Prop := {
  sound_wf : TagRegistry.wf (registry (world s));
  sound_quantities : Forall (λ m, is_u16 (ModbusMapping.quantity m)) (ModbusConfig.mappings (config s));
  sound_honest : honest (config s) (log (world s));
  sound_replies : NoDup (omap WriteRequest.reply (history (world s)));
}.
Definition slot_requested (s : Slot) (c : nat) : option (string * TagValue) :=
  pairs <$> WritePath.request_on WriteRequest.reply (history (world s)) c.

(** A request behind the queue. *)
Lemma slot_queued_ok req (e : QEnv Net) s :
  slot_sound s → (∀ c, WriteRequest.reply req = Some c → slot_requested s c = None) →
  waiting e = waiting (env (world s)) ++ [req] →
  let s' := set_world (set_env e (world s)) s in
  slot_sound s' ∧
  ∀ c, slot_requested s' c = if decide (WriteRequest.reply req = Some c) then Some (pairs req) else slot_requested s c.
Proof.
  intros [Hwf Hq Hh Hnd] Hfresh He s'.
  assert (∀ c, WriteRequest.reply req = Some c →
    WritePath.request_on WriteRequest.reply (history (world s)) c = None) as Hnone.
  { intros c Hc. specialize (Hfresh c Hc). by apply fmap_None in Hfresh. }
  assert (history (world s') = history (world s) ++ [req]) as Hhist.
  { unfold history. simpl. by rewrite He, (assoc_L (++)). }
  split.
  - split; try done. rewrite Hhist. by apply WritePath.replies_snoc.
  - intros c. unfold slot_requested. rewrite Hhist, WritePath.request_on_snoc by done. by case_decide.
Qed.
Lemma slot_submit_ok id v reply s s' :
  slot_sound s → (∀ c, reply = Some c → slot_requested s c = None) →
  slot_submit id v reply s = Some s' →
  slot_sound s' ∧ registry (world s') = registry (world s) ∧
  (∀ c, slot_requested s' c = if decide (reply = Some c) then Some (id, v) else slot_requested s c) ∧
  (∀ c, WritePath.answer_on reply_of (log (world s')) c = WritePath.answer_on reply_of (log (world s)) c).
Proof.
  intros Hs Hfresh Hsub. unfold slot_submit in Hsub.
  set (req := WriteRequest.mk id v reply) in Hsub.
  destruct (push req _) as [e|] eqn:Hp; [|done]. apply push_waiting in Hp.
  destruct (slot_queued_ok req e s Hs Hfresh Hp) as [? ?]. by simplify_eq/=.
Qed.

Lemma slot_cycle_ok s :
  slot_sound s → slot_sound (slot_cycle s).2 ∧
  ∀ c, slot_requested (slot_cycle s).2 c = slot_requested s c.
Proof.
  intros [Hwf Hq Hh Hnd].
  pose proof (cycle_history (config s) (fuel s) (world s)) as Hhist.
  pose proof (cycle_honest (config s) (fuel s) (world s) Hwf Hh) as Hh'.
  destruct (ModbusReads.cycle_waits (config s) (fuel s) Hq (world s) Hwf) as (_ & Hwf' & _).
  unfold slot_cycle, slot_requested. simpl. unfold ProtocolDriver.boxed.
  destruct (run_read_cycle_impl (config s) (fuel s) (world s)) as [o w]. unfold same_history in Hhist. simpl in *.
  split; [|by rewrite Hhist]. split; simpl; try done. by rewrite Hhist.
Qed.

Lemma slot_answer_ok s c r :
  slot_sound s → WritePath.answer_on reply_of (log (world s)) c = Some r →
  ∃ id v, slot_requested s c = Some (id, v) ∧ (r = Ok tt → slot_written s c id v).
Proof.
  intros [Hwf Hq Hh Hnd] Ha. apply WritePath.answer_on_elem in Ha as (i & ev & Hi & Hev).
  destruct ev; simplify_eq/=.
  destruct (Hh i c r Hi) as (j & req & _ & Hj & Hr & Hok).
  exists (WriteRequest.tag_id req), (WriteRequest.value req). split.
  - unfold slot_requested. erewrite WritePath.request_on_unique; [done|done| |done].
    apply elem_of_app. left. apply list_elem_of_omap. exists (EvReceived req).
    split; [by eapply list_elem_of_lookup_2|done].
  - intros ->. destruct (Hok eq_refl) as (k & a & ws & -> & Hk & Hka & He). exists k, a, ws.
    split; [done|]. split; [done|]. split; [done|]. destruct req as [id v rep]. simpl in *. by subst rep.
Qed.

#[export] Program Instance modbus_write_driver : WritePath.WriteDriver Slot := {|
  WritePath.registry s := registry (world s);
  WritePath.set_registry r s := set_world (set_registry r (world s)) s;
  WritePath.submit := slot_submit;
  WritePath.cycle := slot_cycle;
  WritePath.requested := slot_requested;
  WritePath.answer s := WritePath.answer_on reply_of (log (world s));
  WritePath.written := slot_written;
  WritePath.sound := slot_sound;
  WritePath.submit_ok := slot_submit_ok;
  WritePath.cycle_ok := slot_cycle_ok;
  WritePath.answer_ok := slot_answer_ok;
|}.
Next Obligation. by intros s []. Qed.
Next Obligation. done. Qed.
Next Obligation. by intros r s [] Hr; split. Qed.
Next Obligation. done. Qed.
Next Obligation. done. Qed.
End slot.
End ModbusQueue.
