(* ===== verification/FinsQueue.v ===== *)
(** * FINS driver: the write queue

    As for the Modbus driver: the environment refined to one that holds the write queue,
    what a cycle may do to it, and the driver as an instance of the write path. *)

From stdpp Require Import base tactics numbers list gmap strings.
From S2P Require Import Prelude Effects RustStd RustStr RustSlice RustMap Ranges Crates TagValue Tag TagDefinition TagStore Registry DriverWorld ModbusTypes ModbusCodec FinsTypes FinsCodec FinsPlan FinsDriver FinsCycle DriverApi WritePath.
Local Open Scope Z_scope.

(** ** What the parts of a cycle may change *)

Module FinsSteps.
Import FinsIO FinsPlan RegistryOps FinsDriver FinsError.
Section steps.
Context {C : Chrono} {BY : Bytes} {B : ByteOrder} {J : SerdeJson} {IO : FinsIO}.
Context (config : FinsConfig SocketAddr).
(** A preorder that every step respects: those on the registry, the connection and the
    session counter, the events in [ok], and the environment's operations but [try_recv],
    which move the environment along [Q]. *)
Context (R : World → World → Prop) `{!PreOrder R} (Q : Env → Env → Prop) `{!PreOrder Q}
  (ok : event → Prop).
Notation steps := (Effects.keeps (λ _ : World, True) R (λ _ : DriverError, True) True).
Context (R_registry : ∀ r w, R w (set_registry r w)) (R_conn : ∀ c w, R w (set_conn c w))
  (R_sid : ∀ n w, R w (set_sid n w)) (R_env : ∀ e w, Q (env w) e → R w (set_env e w))
  (R_emit : ∀ ev w, ok ev → R w (add_event ev w)).
Context (Q_now : ∀ e, Q e (utc_now e).2) (Q_connect : ∀ a e, Q e (connect a e).2)
  (Q_sleep : ∀ s e, Q e (sleep s e)) (Q_write : ∀ st bytes e x e', write_all st bytes e = Some (x, e') → Q e e')
  (Q_read : ∀ st n e x e', read_exact st n e = Some (x, e') → Q e e').
Context (ok_connect : ∀ b, ok (EvConnect b)) (ok_sleep : ∀ s, ok (EvSleep s))
  (ok_send : ∀ f, ok (EvSend f)) (ok_health : ∀ o, ok (EvHealth o)).

Lemma fins_modify_steps (f : World → World) : (∀ w, R w (f w)) → steps (modify f).
Proof using All. intros Hf. apply keeps_modify; [apply _|]. intros w _. by split. Qed.
Lemma fins_emit_steps ev : ok ev → steps (emit ev).
Proof using All. intros Hev. apply fins_modify_steps. intros w. by apply R_emit. Qed.
Lemma set_conn_steps c : steps (modify (set_conn c)).
Proof using All. by apply fins_modify_steps. Qed.
Lemma set_sid_steps n : steps (modify (set_sid n)).
Proof using All. by apply fins_modify_steps. Qed.
Lemma fins_set_registry_steps r : steps (modify (dw_set_registry r)).
Proof using All. apply fins_modify_steps. exact (R_registry r). Qed.
Lemma fins_sleep_steps s : steps (modify (λ w, set_env (sleep s (env w)) w)).
Proof using All. apply fins_modify_steps. intros w. by apply R_env. Qed.
Lemma fins_env_op_steps {A} (f : Env → A * Env) : (∀ e, Q e (f e).2) → steps (env_op f).
Proof using All.
  intros Hf w _. unfold wp, env_op. specialize (Hf (dw_env w)).
  destruct (f (dw_env w)) as [a e]. split; [done|]. split; [by apply R_env|done].
Qed.
Lemma fins_await_steps {A} (f : Env → option (A * Env)) :
  (∀ e a e', f e = Some (a, e') → Q e e') → steps (await_op f).
Proof using All.
  intros Hf w _. unfold wp, await_op.
  destruct (f (dw_env w)) as [[a e]|] eqn:He; [|by split].
  split; [done|]. split; [|done]. apply R_env. by eapply Hf.
Qed.
Lemma write_all_steps st bytes : steps (await_op (write_all st bytes)).
Proof using All. apply fins_await_steps. by intros; eapply Q_write. Qed.
Lemma read_exact_steps st n : steps (await_op (read_exact st n)).
Proof using All. apply fins_await_steps. by intros; eapply Q_read. Qed.
Lemma fins_now_steps : steps now.
Proof using All. apply fins_env_op_steps. exact Q_now. Qed.
Lemma fins_connect_steps a : steps (env_op (connect a)).
Proof using All. by apply fins_env_op_steps. Qed.
Lemma fins_or_panic_steps {A} (o : option A) : steps (or_panic o).
Proof using All. apply keeps_or_panic; [apply _|done]. Qed.
Lemma fins_ret_steps {A} (a : A) : steps (mret a).
Proof using All. apply keeps_ret, _. Qed.
Lemma fins_gets_steps {A} (f : World → A) : steps (gets f).
Proof using All. apply keeps_gets, _. Qed.
Lemma fins_throw_steps {A} e : steps (throw (A:=A) e).
Proof using All. by apply keeps_throw; [apply _|]. Qed.
Lemma fins_pending_steps {A} : steps (pending (A:=A)).
Proof using All. apply keeps_pending, _. Qed.
Lemma fins_bind_steps {A D} (m : M World DriverError A) (k : A → M World DriverError D) :
  steps m → (∀ a, steps (k a)) → steps (m ≫= k).
Proof using All. apply keeps_bind, _. Qed.
Lemma fins_for_each_steps {X} (f : X → M World DriverError unit) l :
  (∀ x, steps (f x)) → steps (for_each f l).
Proof using All. intros Hf. apply keeps_for_each; [apply _|]. auto. Qed.

Create HintDb fsteps.
Hint Resolve write_all_steps read_exact_steps fins_emit_steps set_conn_steps set_sid_steps fins_set_registry_steps fins_sleep_steps
  fins_now_steps fins_connect_steps fins_or_panic_steps fins_ret_steps fins_gets_steps
  fins_throw_steps fins_pending_steps ok_connect ok_sleep ok_send ok_health : fsteps.
(** Step through a computation. *)
Ltac walk := repeat (cbn beta; first
  [ solve [eauto with fsteps]
  | apply fins_bind_steps; [|intros ?]
  | apply fins_for_each_steps; intros ?
  | progress cbv zeta
  | case_match ]).

Lemma exchange_steps st f : steps (exchange st f).
Proof using All. unfold exchange. walk. Qed.
Hint Resolve exchange_steps : fsteps.
Lemma fins_set_tag_quality_steps id q : steps (set_tag_quality id q).
Proof using All. unfold set_tag_quality. walk. Qed.
Lemma fins_update_tag_value_steps id v q ts : steps (update_tag_value id v q ts).
Proof using All. unfold update_tag_value. walk. Qed.
Lemma fins_send_health_event_steps status detail : steps (send_health_event config status detail).
Proof using All. unfold send_health_event. walk. Qed.
Hint Resolve fins_set_tag_quality_steps fins_update_tag_value_steps fins_send_health_event_steps : fsteps.

Lemma fins_connect_loop_steps fuel b : steps (connect_loop config fuel b).
Proof using All. revert b. induction fuel as [|fuel IH]; intros b; simpl; walk. Qed.
Lemma fins_connect_with_backoff_steps fuel : steps (connect_with_backoff config fuel).
Proof using All. apply fins_connect_loop_steps. Qed.
Lemma next_sid_steps : steps next_sid.
Proof using All. unfold next_sid. walk. Qed.
Lemma comm_lost_steps ms : steps (comm_lost ms).
Proof using All. unfold comm_lost. walk. Qed.
Lemma all_error_steps ms msg : steps (all_error ms msg).
Proof using All. unfold all_error. walk. Qed.
Hint Resolve fins_connect_with_backoff_steps next_sid_steps comm_lost_steps all_error_steps : fsteps.
Lemma ensure_connection_steps fuel : steps (ensure_connection config fuel).
Proof using All. unfold ensure_connection. walk. Qed.

(** *** Writes *)

Section writes.
Context (ok_reply : ∀ c r, ok (EvReply c r)) (ok_answer : ∀ res, ok (EvAnswer res)).
Hint Resolve ok_reply ok_answer : fsteps.
Lemma fins_send_reply_steps reply r : steps (send_reply reply r).
Proof using All. unfold send_reply. walk. Qed.
Hint Resolve fins_send_reply_steps : fsteps.
Lemma write_response_steps req id sid payload : steps (write_response req id sid payload).
Proof using All. unfold write_response. walk. Qed.
Lemma write_stream_steps fuel req id : steps (write_stream config fuel req id).
Proof using All. unfold write_stream. walk. Qed.
Hint Resolve write_response_steps write_stream_steps : fsteps.
Lemma write_words_steps fuel req m words : steps (write_words config fuel req m words).
Proof using All. unfold write_words. walk. Qed.
Hint Resolve write_words_steps : fsteps.
Lemma fins_process_write_steps fuel req : steps (process_write config fuel req).
Proof using All. unfold process_write. walk. Qed.
End writes.

(** *** Reads *)

Lemma decode_and_update_tag_steps m bytes : steps (decode_and_update_tag m bytes).
Proof using All. unfold decode_and_update_tag. walk. Qed.
Hint Resolve decode_and_update_tag_steps : fsteps.
Lemma fins_update_mapping_steps g payload m : steps (update_mapping g payload m).
Proof using All. unfold update_mapping. walk. Qed.
Hint Resolve fins_update_mapping_steps : fsteps.
Lemma read_payload_steps g payload : steps (read_payload g payload).
Proof using All. unfold read_payload. walk. Qed.
Hint Resolve read_payload_steps : fsteps.
Lemma read_response_steps g sid payload : steps (read_response g sid payload).
Proof using All. unfold read_response. walk. Qed.
Lemma read_stream_steps fuel g : steps (read_stream config fuel g).
Proof using All. unfold read_stream. walk. Qed.
Hint Resolve read_response_steps read_stream_steps : fsteps.
Lemma read_group_steps fuel g : steps (read_group config fuel g).
Proof using All. unfold read_group. walk. Qed.
Hint Resolve read_group_steps : fsteps.
Lemma read_loop_steps fuel gs : steps (read_loop config fuel gs).
Proof using All. induction gs as [|g gs IH]; simpl; walk. Qed.
End steps.
End FinsSteps.

(** ** A confirmation comes right after its frame *)

Module FinsHonest.
Import FinsIO FinsPlan RegistryOps FinsDriver FinsError FinsCycle FinsSteps.
Section honest.
Context {C : Chrono} {BY : Bytes} {B : ByteOrder} {J : SerdeJson} {IO : FinsIO}.
Context (config : FinsConfig SocketAddr).
Notation emits := (Effects.emits (E:=DriverError) inv log).

(** Every reply of a log answers a request received before, and a confirmation directly
    follows the PLC's consent, and this a frame the request is entitled to. *)
Definition fins_honest (l : list event) : Prop :=
  ∀ i c r, l !! i = Some (EvReply c r) →
    ∃ j req, (j < i)%nat ∧ l !! j = Some (EvReceived req) ∧ FinsWriteRequest.reply req = Some c ∧
      (r = Ok tt → ∃ k f payload, i = S (S k) ∧ l !! k = Some (EvSend f) ∧
         l !! S k = Some (EvAnswer (Ok payload)) ∧ entitled config req f ∧ consents f payload).

Lemma fins_replied_lookup l i c r : l !! i = Some (EvReply c r) → c ∈ replied l.
Proof. intros Hi%list_elem_of_lookup_2. apply list_elem_of_omap. by exists (EvReply c r). Qed.

Lemma fins_honest_quiet l : replied l = [] → fins_honest l.
Proof. intros Hl i c r Hi%fins_replied_lookup. rewrite Hl in Hi. by apply not_elem_of_nil in Hi. Qed.

Lemma fins_honest_app l l' : fins_honest l → fins_honest l' → fins_honest (l ++ l').
Proof.
  intros Hl Hl' i c r [Hi|[Hlen Hi]]%lookup_app_Some.
  - destruct (Hl i c r Hi) as (j & req & Hj & Hreq & Hr & Hok). exists j, req.
    split; [done|]. split; [by apply lookup_app_l_Some|]. split; [done|]. intros Hro.
    destruct (Hok Hro) as (k & f & p & -> & Hk & Ha & He). exists k, f, p.
    split; [done|]. split; [by apply lookup_app_l_Some|]. split; [by apply lookup_app_l_Some|done].
  - destruct (Hl' _ c r Hi) as (j & req & Hj & Hreq & Hr & Hok). exists (length l + j)%nat, req.
    split; [lia|]. split; [by rewrite lookup_app_add|]. split; [done|]. intros Hro.
    destruct (Hok Hro) as (k & f & p & Hik & Hk & Ha & He). exists (length l + k)%nat, f, p.
    split; [lia|]. split; [by rewrite lookup_app_add|].
    split; [by rewrite <- Nat.add_succ_r, lookup_app_add|done].
Qed.

Lemma fins_honest_reply req l0 r :
  replied l0 = [] →
  (r = Ok tt → ∃ l f payload, l0 = l ++ [EvSend f; EvAnswer (Ok payload)] ∧
     entitled config req f ∧ consents f payload) →
  fins_honest (EvReceived req :: l0 ++ reply_events (FinsWriteRequest.reply req) r).
Proof.
  intros Hq Hok [|i] c r' Hi; [done|]. simpl in Hi.
  apply lookup_app_Some in Hi as [Hi%fins_replied_lookup|[Hlen Hi]].
  { rewrite Hq in Hi. by apply not_elem_of_nil in Hi. }
  destruct (FinsWriteRequest.reply req) as [c0|] eqn:Hr; simpl in Hi; [|done].
  apply list_lookup_singleton_Some in Hi as [Hi [= <- <-]].
  exists 0%nat, req. split; [lia|]. split; [done|]. split; [done|]. intros Hro.
  destruct (Hok Hro) as (l & f & p & -> & He). rewrite length_app in *. simpl in *.
  exists (S (length l)), f, p. split; [lia|]. simpl. split; [|split; [|done]].
  - by apply lookup_app_l_Some, list_lookup_middle.
  - apply lookup_app_l_Some. by rewrite (lookup_app_r l), Nat.sub_succ_l, Nat.sub_diag by lia.
Qed.

(** What a request emits, with the order of the frame and the reply. *)
Lemma fins_process_write_honest fuel req :
  TagValue.wf (FinsWriteRequest.value req) →
  emits (process_write config fuel req) (λ _ l, fins_honest (EvReceived req :: l)).
Proof.
  intros Hwf. pose proof (λ msg, fins_honest_reply req [] (Err msg) eq_refl) as Href. simpl in Href.
  assert (∀ r m, r = Err m → emits (send_reply (FinsWriteRequest.reply req) r)
    (λ _ l, fins_honest (EvReceived req :: l))) as Hrefuse.
  { intros r m ->. eapply emits_mono; [apply fins_send_reply_gives|].
    intros o l _ [_ ->]. by apply Href. }
  unfold process_write.
  destruct (find _ _) as [m|] eqn:Hfind; [|by eapply Hrefuse].
  destruct (TagMapping.writable m) eqn:Hw; simpl negb; cbv match; [|by eapply Hrefuse].
  destruct (FinsCodec.encode_agree _ Hwf) as (words & Hc & _). rewrite Hc.
  destruct (ModbusCodec.order_words_spec words (TagMapping.byte_order m)) as (ordered & Ho & _).
  rewrite <- FinsCodec.order_words_eq in Ho. rewrite Ho, or_panic_bind.
  eapply emits_mono; [apply write_words_emits|].
  intros o l _ [[_ ->]|(sid & pre & Hpre & [[_ ->]|(res & _ & ->)])].
  - apply fins_honest_quiet. simpl. apply fins_retry_events_quiet.
  - apply fins_honest_quiet. simpl. rewrite fins_replied_app.
    by destruct (connected_quiet _ _ Hpre) as (_ & _ & ->).
  - set (f := write_frame sid m ordered).
    change (pre ++ EvSend f :: EvAnswer res :: ?x) with (pre ++ [EvSend f; EvAnswer res] ++ x).
    rewrite (assoc_L (++)).
    apply fins_honest_reply.
    + rewrite fins_replied_app. by destruct (connected_quiet _ _ Hpre) as (_ & _ & ->).
    + intros Hr. destruct (verdict_consents sid m ordered res Hr) as (payload & -> & Hc').
      exists pre, f, payload. split; [done|]. split; [by exists m, words, ordered, sid|done].
Qed.

Lemma fins_process_writes_honest fuel n :
  emits (process_writes config fuel n) (λ _ l, fins_honest l).
Proof.
  induction n as [|n IH]; simpl; [by apply emits_ret, fins_honest_quiet|].
  apply fins_emits_bind_env. intros e r e' Hrecv.
  destruct r as [req| |]; [|by apply emits_ret, fins_honest_quiet..].
  apply try_recv_wf in Hrecv. eapply emits_bind_gives; [apply fins_emit_gives|]. intros _.
  eapply emits_bind; [by apply fins_process_write_honest|..].
  - intros [] l1 Ht. eapply emits_mono; [exact IH|]. intros o l2 _ Hl2.
    by apply (fins_honest_app (EvReceived req :: l1)).
  - by intros err l1 Ht.
  - by intros l1 Ht.
Qed.

(** A cycle keeps the registry and the log sound, however it ends. *)
Lemma fins_cycle_honest rgs fuel w :
  inv w → fins_honest (log w) →
  inv (run_read_cycle_impl config rgs fuel w).2 ∧
  fins_honest (log (run_read_cycle_impl config rgs fuel w).2).
Proof.
  intros Hw Hl. unfold run_read_cycle_impl, mbind, M_bind.
  destruct (ensure_connection_emits config fuel w Hw) as (_ & Hw1 & l1 & Hl1 & Hc).
  destruct (ensure_connection config fuel w) as [o1 w1]. cbn [fst snd] in *.
  assert (fins_honest (log w1)) as Hh1.
  { rewrite Hl1. apply fins_honest_app; [done|]. apply fins_honest_quiet.
    destruct Hc as [[_ Hc]|[_ ->]]; [apply (connected_quiet _ _ Hc)|apply fins_retry_events_quiet]. }
  destruct o1; cbn [fst snd]; try done.
  destruct (fins_process_writes_honest fuel 64 w1 Hw1) as (_ & Hw2 & l2 & Hl2 & Hh).
  destruct (process_writes config fuel 64 w1) as [o2 w2]. cbn [fst snd] in *.
  assert (fins_honest (log w2)) as Hh2 by (rewrite Hl2; by apply fins_honest_app).
  destruct o2; cbn [fst snd]; try done.
  destruct (read_loop_keeps config rgs fuel rgs ltac:(done) w2 Hw2) as (Hw3 & (l3 & Hl3 & _ & Hq & _) & _).
  split; [done|]. rewrite Hl3. by apply fins_honest_app; [|apply fins_honest_quiet].
Qed.
End honest.
End FinsHonest.

(** ** The environment with a queue *)

Module FinsQueue.
Import FinsIO FinsPlan RegistryOps FinsDriver FinsError FinsCycle FinsSteps FinsHonest.

Section queue.
Context {C : Chrono} (Net : FinsIO).

Notation request := { req : FinsWriteRequest | TagValue.wf (FinsWriteRequest.value req) }.
Record QEnv := mkEnv { queue : list request; net : Net.(FinsIO.Env) }.
Definition set_net (n : Net.(FinsIO.Env)) (e : QEnv) : QEnv := {| queue := queue e; net := n |}.
Definition on_net {A} (f : Net.(FinsIO.Env) → A * Net.(FinsIO.Env)) (e : QEnv) : A * QEnv :=
  let '(a, n) := f (net e) in (a, set_net n e).
Definition waiting (e : QEnv) : list FinsWriteRequest := proj1_sig <$> queue e.

(** [mpsc::channel(256)] *)
Definition capacity : nat := 256.
Definition push (req : FinsWriteRequest) (e : QEnv) : option QEnv :=
  if (capacity <=? length (queue e))%nat then None
  else match decide (TagValue.wf (FinsWriteRequest.value req)) with
       | left H => Some {| queue := queue e ++ [exist _ req H]; net := net e |}
       | right _ => None
       end.
Definition pop (e : QEnv) : recv * QEnv :=
  match queue e with
  | [] => (Empty, e)
  | req :: q => (Received (proj1_sig req), {| queue := q; net := net e |})
  end.

Lemma fins_pop_wf e req e' : pop e = (Received req, e') → TagValue.wf (FinsWriteRequest.value req).
Proof. unfold pop. destruct (queue e) as [|[r Hr] q]; [done|]. by intros [= <- _]. Qed.
(** The operations that may never complete. *)
Definition await_net {A} (f : Net.(FinsIO.Env) → option (A * Net.(FinsIO.Env))) (e : QEnv)
    : option (A * QEnv) :=
  '(a, n) ← f (net e);
  Some (a, set_net n e).
Lemma on_net_read st n e bytes st' e' :
  await_net (read_exact (FinsIO := Net) st n) e = Some (Ok bytes, st', e') →
  Z.of_nat (length bytes) = n ∧ is_bytes bytes.
Proof.
  unfold await_net. destruct (read_exact st n (net e)) as [[[r s] e1]|] eqn:Hr; [|done].
  intros [= -> -> _]. by eapply read_exact_ok.
Qed.

Definition queued : FinsIO := {|
  FinsIO.Env := QEnv;
  FinsIO.SocketAddr := Net.(FinsIO.SocketAddr);
  FinsIO.TcpStream := Net.(FinsIO.TcpStream);
  connect a := on_net (connect (FinsIO := Net) a);
  write_all st bytes := await_net (write_all (FinsIO := Net) st bytes);
  read_exact st n := await_net (read_exact (FinsIO := Net) st n);
  try_recv := pop;
  sleep s e := set_net (sleep (FinsIO := Net) s (net e)) e;
  utc_now := on_net (utc_now (FinsIO := Net));
  read_exact_ok := on_net_read;
  try_recv_wf := fins_pop_wf;
|}.

Lemma fins_on_net_queue {A} (f : Net.(FinsIO.Env) → A * Net.(FinsIO.Env)) e :
  queue (on_net f e).2 = queue e.
Proof. unfold on_net. by destruct (f (net e)). Qed.
Lemma await_net_queue {A} (f : Net.(FinsIO.Env) → option (A * Net.(FinsIO.Env))) e a e' :
  await_net f e = Some (a, e') → queue e' = queue e.
Proof. unfold await_net. destruct (f (net e)) as [[? ?]|]; [|done]. by intros [= _ <-]. Qed.
Lemma fins_push_waiting req e e' : push req e = Some e' → waiting e' = waiting e ++ [req].
Proof.
  unfold push. destruct (_ <=? _)%nat; [done|]. destruct (decide _) as [H|]; [|done].
  intros [= <-]. unfold waiting. simpl. by rewrite fmap_app.
Qed.
End queue.
Arguments QEnv {_} Net.
Arguments queue {_ Net}.
Arguments waiting {_ Net}.
Arguments push {_ Net}.
Arguments pop {_ Net}.

(** ** The driver and its queue *)

Section slot.
Context {C : Chrono} {BY : Bytes} {B : ByteOrder} {J : SerdeJson} {Net : FinsIO}.
Context `{!HashIter Z}.
#[local] Instance IO : FinsIO := queued Net.

(** A driver of the plant: its configuration, its read groups, the bound of its reconnect
    loops, and its world. *)
Record Slot := mkSlot {
  config : FinsConfig SocketAddr;
  read_groups : list ReadGroup;
  fuel : nat;
  world : World;
}.
Definition set_world (w : World) (s : Slot) : Slot :=
  {| config := config s; read_groups := read_groups s; fuel := fuel s; world := w |}.

(** The requests that ever entered the queue: those taken, and those waiting. *)
Definition history (w : World) : list FinsWriteRequest := received (log w) ++ waiting (env w).
Definition reply_of (ev : event) : option (nat * result unit string) :=
  match ev with EvReply c r => Some (c, r) | _ => None end.

Definition same_history (w w' : World) : Prop := history w' = history w.
#[local] Instance fins_same_history_preorder : PreOrder same_history.
Proof. split; [done|]. intros w1 w2 w3 H1 H2. unfold same_history in *. congruence. Qed.
Definition same_queue (e e' : Env) : Prop := queue e' = queue e.
#[local] Instance fins_same_queue_preorder : PreOrder same_queue.
Proof. split; [done|]. intros e1 e2 e3 H1 H2. unfold same_queue in *. congruence. Qed.

Lemma fins_emit_history ev w : received [ev] = [] → same_history w (add_event ev w).
Proof.
  intros Hev. unfold same_history, history. simpl. by rewrite fins_received_app, Hev, app_nil_r.
Qed.
Lemma fins_env_history e w : same_queue (env w) e → same_history w (set_env e w).
Proof. unfold same_queue, same_history, history, waiting. simpl. by intros ->. Qed.

Lemma write_all_queue st bytes e x e' : write_all st bytes e = Some (x, e') → same_queue e e'.
Proof. exact (await_net_queue Net (write_all (FinsIO := Net) st bytes) e x e'). Qed.
Lemma read_exact_queue st n e x e' : read_exact st n e = Some (x, e') → same_queue e e'.
Proof. exact (await_net_queue Net (read_exact (FinsIO := Net) st n) e x e'). Qed.

Ltac history_side :=
  try done; try apply fins_env_history; try apply fins_emit_history;
  try exact write_all_queue; try exact read_exact_queue;
  try (intros; unfold same_queue; apply fins_on_net_queue).

Lemma fins_process_write_history cfg n req w : same_history w (process_write cfg n req w).2.
Proof.
  refine (proj1 (proj2 (fins_process_write_steps cfg same_history same_queue
    (λ ev, received [ev] = []) _ _ _ _ _ _ _ _ _ _ _ _ _ _ _ _ n req w I))); history_side.
Qed.
Lemma read_loop_history cfg n gs w : same_history w (read_loop cfg n gs w).2.
Proof.
  refine (proj1 (proj2 (read_loop_steps cfg same_history same_queue
    (λ ev, received [ev] = []) _ _ _ _ _ _ _ _ _ _ _ _ _ _ n gs w I))); history_side.
Qed.
Lemma ensure_connection_history cfg n w : same_history w (ensure_connection cfg n w).2.
Proof.
  refine (proj1 (proj2 (ensure_connection_steps cfg same_history same_queue
    (λ ev, received [ev] = []) _ _ _ _ _ _ _ _ _ _ _ _ _ _ n w I))); history_side.
Qed.

Lemma fins_process_writes_history cfg n k w : same_history w (process_writes cfg n k w).2.
Proof.
  revert w. induction k as [|k IH]; intros w; simpl; [done|].
  unfold mbind, M_bind, env_op. simpl. unfold pop.
  destruct (queue (env w)) as [|req q] eqn:Hq; [by unfold same_history, history, waiting|].
  unfold emit, modify.
  set (w1 := add_event _ _).
  assert (same_history w w1) as H1.
  { unfold same_history, history, waiting, w1. simpl. rewrite fins_received_app, Hq. simpl.
    by rewrite <- (assoc_L (++)). }
  pose proof (fins_process_write_history cfg n (`req) w1) as H2.
  destruct (process_write cfg n (`req) w1) as [[[]| | |] w2]; simpl in *; etrans; eauto.
  etrans; [exact H2|]. apply IH.
Qed.

Lemma fins_cycle_history cfg rgs n w : same_history w (run_read_cycle_impl cfg rgs n w).2.
Proof.
  unfold run_read_cycle_impl, mbind, M_bind.
  pose proof (ensure_connection_history cfg n w) as H1.
  destruct (ensure_connection cfg n w) as [[[]| | |] w1]; cbn [fst snd] in *; try done.
  pose proof (fins_process_writes_history cfg n 64 w1) as H2.
  destruct (process_writes cfg n 64 w1) as [[[]| | |] w2]; cbn [fst snd] in *; try (by etrans).
  etrans; [exact H1|]. etrans; [exact H2|]. apply read_loop_history.
Qed.

(** ** The driver as an instance of the write path *)

Definition pairs (req : FinsWriteRequest) : string * TagValue :=
  (FinsWriteRequest.tag_id req, FinsWriteRequest.value req).
Definition slot_submit (id : string) (v : TagValue) (reply : option nat) (s : Slot) : option Slot :=
  e ← push {| FinsWriteRequest.tag_id := id; FinsWriteRequest.value := v;
              FinsWriteRequest.reply := reply |} (env (world s));
  Some (set_world (set_env e (world s)) s).
(** [ProtocolDriver::read_cycle] of the driver. *)
Definition slot_cycle (s : Slot) : outcome string unit * Slot :=
  let '(o, w) := @ProtocolDriver.read_cycle _ _
                   (ProtocolDriver.fins_driver (config s) (read_groups s) (fuel s)) (world s) in
  (o, set_world w s).
Definition slot_written (s : Slot) (c : nat) (id : string) (v : TagValue) : Prop :=
  ∃ k f payload,
    log (world s) !! k = Some (EvSend f) ∧ log (world s) !! S k = Some (EvAnswer (Ok payload)) ∧
    consents f payload ∧ log (world s) !! S (S k) = Some (EvReply c (Ok tt)) ∧
    entitled (config s) {| FinsWriteRequest.tag_id := id; FinsWriteRequest.value := v;
                           FinsWriteRequest.reply := Some c |} f.
Record slot_sound (s : Slot) : Prop := {
  sound_wf : TagRegistry.wf (registry (world s));
  sound_honest : fins_honest (config s) (log (world s));
  sound_replies : NoDup (omap FinsWriteRequest.reply (history (world s)));
}.
Definition slot_requested (s : Slot) (c : nat) : option (string * TagValue) :=
  pairs <$> WritePath.request_on FinsWriteRequest.reply (history (world s)) c.

(** A request behind the queue. *)
Lemma fins_slot_queued_ok req (e : QEnv Net) s :
  slot_sound s → (∀ c, FinsWriteRequest.reply req = Some c → slot_requested s c = None) →
  waiting e = waiting (env (world s)) ++ [req] →
  let s' := set_world (set_env e (world s)) s in
  slot_sound s' ∧
  ∀ c, slot_requested s' c = if decide (FinsWriteRequest.reply req = Some c) then Some (pairs req) else slot_requested s c.
Proof.
  intros [Hwf Hh Hnd] Hfresh He s'.
  assert (∀ c, FinsWriteRequest.reply req = Some c →
    WritePath.request_on FinsWriteRequest.reply (history (world s)) c = None) as Hnone.
  { intros c Hc. specialize (Hfresh c Hc). by apply fmap_None in Hfresh. }
  assert (history (world s') = history (world s) ++ [req]) as Hhist.
  { unfold history. simpl. by rewrite He, (assoc_L (++)). }
  split.
  - split; try done. rewrite Hhist. by apply WritePath.replies_snoc.
  - intros c. unfold slot_requested. rewrite Hhist, WritePath.request_on_snoc by done. by case_decide.
Qed.
Lemma fins_slot_submit_ok id v reply s s' :
  slot_sound s → (∀ c, reply = Some c → slot_requested s c = None) →
  slot_submit id v reply s = Some s' →
  slot_sound s' ∧ registry (world s') = registry (world s) ∧
  (∀ c, slot_requested s' c = if decide (reply = Some c) then Some (id, v) else slot_requested s c) ∧
  (∀ c, WritePath.answer_on reply_of (log (world s')) c = WritePath.answer_on reply_of (log (world s)) c).
Proof.
  intros Hs Hfresh Hsub. unfold slot_submit in Hsub.
  set (req := FinsWriteRequest.mk id v reply) in Hsub.
  destruct (push req _) as [e|] eqn:Hp; [|done]. apply fins_push_waiting in Hp.
  destruct (fins_slot_queued_ok req e s Hs Hfresh Hp) as [? ?]. by simplify_eq/=.
Qed.

Lemma fins_slot_cycle_ok s :
  slot_sound s → slot_sound (slot_cycle s).2 ∧
  ∀ c, slot_requested (slot_cycle s).2 c = slot_requested s c.
Proof.
  intros [Hwf Hh Hnd].
  pose proof (fins_cycle_history (config s) (read_groups s) (fuel s) (world s)) as Hhist.
  destruct (fins_cycle_honest (config s) (read_groups s) (fuel s) (world s) Hwf Hh) as [Hwf' Hh'].
  unfold slot_cycle, slot_requested. cbn [ProtocolDriver.read_cycle ProtocolDriver.fins_driver].
  unfold ProtocolDriver.boxed.
  destruct (run_read_cycle_impl (config s) (read_groups s) (fuel s) (world s)) as [o w].
  unfold same_history in Hhist. cbn [fst snd] in *.
  split; [|simpl; by rewrite Hhist]. split; simpl; try done. by rewrite Hhist.
Qed.

Lemma fins_slot_answer_ok s c r :
  slot_sound s → WritePath.answer_on reply_of (log (world s)) c = Some r →
  ∃ id v, slot_requested s c = Some (id, v) ∧ (r = Ok tt → slot_written s c id v).
Proof.
  intros [Hwf Hh Hnd] Ha. apply WritePath.answer_on_elem in Ha as (i & ev & Hi & Hev).
  destruct ev; simplify_eq/=.
  destruct (Hh i c r Hi) as (j & req & _ & Hj & Hr & Hok).
  exists (FinsWriteRequest.tag_id req), (FinsWriteRequest.value req). split.
  - unfold slot_requested. erewrite WritePath.request_on_unique; [done|done| |done].
    apply elem_of_app. left. apply list_elem_of_omap. exists (EvReceived req).
    split; [by eapply list_elem_of_lookup_2|done].
  - intros ->. destruct (Hok eq_refl) as (k & f & p & -> & Hk & Hka & He & Hcons). exists k, f, p.
    split; [done|]. split; [done|]. split; [done|]. split; [done|]. destruct req as [id v rep]. simpl in *. by subst rep.
Qed.

#[export] Program Instance fins_write_driver : WritePath.WriteDriver Slot := {|
  WritePath.registry s := registry (world s);
  WritePath.set_registry r s := set_world (set_registry r (world s)) s;
  WritePath.submit := slot_submit;
  WritePath.cycle := slot_cycle;
  WritePath.requested := slot_requested;
  WritePath.answer s := WritePath.answer_on reply_of (log (world s));
  WritePath.written := slot_written;
  WritePath.sound := slot_sound;
  WritePath.submit_ok := fins_slot_submit_ok;
  WritePath.cycle_ok := fins_slot_cycle_ok;
  WritePath.answer_ok := fins_slot_answer_ok;
|}.
Next Obligation. by intros s []. Qed.
Next Obligation. done. Qed.
Next Obligation. by intros r s [] Hr; split. Qed.
Next Obligation. done. Qed.
Next Obligation. done. Qed.
End slot.
End FinsQueue.
