(* ===== verification/ModbusLocal.v ===== *)
(** * Modbus driver: a cycle keeps to its own tags

    Whatever else happens to the registry, a cycle is a program of operations on the tags
    of the driver's mappings. *)

From stdpp Require Import base tactics numbers list gmap strings.
From S2P Require Import Prelude Effects RustStd RustStr RustSlice RustMap Crates TagValue Tag TagDefinition TagStore Registry CoreModel TagThreads DriverWorld Locality ModbusTypes ModbusCodec ModbusPlan ModbusDriver DriverApi WritePath ModbusQueue.
Local Open Scope Z_scope.

Module ModbusLocal.
Import ModbusIO ModbusDriver ModbusError TagThreads Locality.

(** The groups of a read hold the mappings of the read, in order. *)
Lemma push_mapping_members gs m :
  concat (ModbusPlan.members <$> ModbusPlan.push_mapping gs m) = concat (ModbusPlan.members <$> gs) ++ [m].
Proof.
  unfold ModbusPlan.push_mapping. destruct (last gs) as [g|] eqn:Hl.
  2: { apply last_None in Hl as ->. done. }
  apply last_Some in Hl as [gs' ->]. rewrite removelast_last.
  unfold ModbusPlan.merge. cbv zeta. destruct (_ <=? _); rewrite !fmap_app, !concat_app; simpl;
    by rewrite ?app_nil_r, <- ?(assoc_L (++)).
Qed.
Lemma build_groups_members ms : concat (ModbusPlan.members <$> ModbusPlan.build_groups ms) = ms.
Proof.
  unfold ModbusPlan.build_groups. induction ms as [|m ms IH] using rev_ind; [done|].
  rewrite foldl_snoc. by rewrite push_mapping_members, IH.
Qed.

Section cycle.
Context {C : Chrono} {BY : Bytes} {B : ByteOrder} {J : SerdeJson} {IO : ModbusIO}.
Context `{!HashIter ModbusFunction} (config : ModbusConfig SocketAddr).
Context (D : TagDefinitionStore) (T : gset string).
Context (HT : ∀ m, m ∈ ModbusConfig.mappings config → ModbusMapping.tag_id m ∈ T).
Notation local := (local (E:=DriverError) set_registry D T).

Lemma modbus_local_emit ev : local (emit ev).
Proof. by apply local_own. Defined.
Lemma modbus_local_set_client c : local (modify (set_client c)).
Proof. by apply local_own. Defined.
Lemma modbus_local_gets_client : local (gets client).
Proof. by apply local_own. Defined.
Lemma modbus_local_env {A} (f : Env → A * Env) : local (env_op f).
Proof. apply local_own. intros r w. unfold env_op. simpl. by destruct (f (env w)). Defined.
Lemma modbus_local_sleep s : local (modify (λ w, set_env (sleep s (env w)) w)).
Proof. by apply local_own. Defined.

(** The driver's registry operations are those of every driver. *)
Lemma modbus_local_mark id q : id ∈ T → local (set_tag_quality id q).
Proof. exact (local_set_tag_quality (E:=DriverError) (DW := ProtocolDriver.modbus_world) D T id q). Defined.
Lemma modbus_local_update id v q ts : id ∈ T → local (update_tag_value id v q ts).
Proof.
  intros Hid.
  apply (local_eq _ _ _ _ (RegistryOps.update_tag_value (DW := ProtocolDriver.modbus_world) id v q ts;; mret tt)).
  - apply local_bind; [by apply (local_update_tag_value (E:=DriverError) (DW := ProtocolDriver.modbus_world))|].
    intros _. apply local_ret.
  - intros r w _ _. unfold update_tag_value, RegistryOps.update_tag_value, now, RegistryOps.now,
      env_op, RegistryOps.env_op, mbind, M_bind, gets. simpl.
    destruct (utc_now (env w)) as [t e]. simpl.
    destruct (TagRegistry.update_tag_value r id v q ts t) as [[res r']|]; done.
Defined.
Lemma modbus_local_send_reply reply r : local (send_reply reply r).
Proof. destruct reply; [apply modbus_local_emit|apply local_ret]. Defined.
Lemma modbus_local_health status detail : local (send_health_event config status detail).
Proof. apply local_own. intros r w. unfold send_health_event, mbind, M_bind, gets. simpl. by destruct (health_tx w). Defined.

Create HintDb local.
Hint Resolve local_ret local_throw local_pending local_or_panic modbus_local_emit modbus_local_set_client
  modbus_local_gets_client modbus_local_env modbus_local_sleep modbus_local_mark modbus_local_update modbus_local_send_reply modbus_local_health : local.
Hint Unfold now : local.
(** Step through a computation. *)
Ltac walk := repeat (cbn beta; first
  [ solve [eauto with local]
  | apply local_bind; [|intros ?]
  | apply local_for_each; intros ? ?
  | progress cbv zeta
  | match goal with |- context [match ?x with _ => _ end] => destruct x end ]).

Lemma modbus_local_connect fuel b : local (connect_loop config fuel b).
Proof. revert b. induction fuel as [|fuel IH]; intros b; simpl; walk. Defined.
Hint Resolve modbus_local_connect : local.

(** *** Writes *)

Lemma modbus_local_write_result id req res : id ∈ T → local (write_result config id req res).
Proof. intros Hid. unfold write_result. walk. Defined.
Lemma modbus_local_write_context fuel id reply : id ∈ T → local (write_context config fuel id reply).
Proof. intros Hid. unfold write_context, connect_with_backoff. walk. Defined.
Hint Resolve modbus_local_write_result modbus_local_write_context : local.
Lemma modbus_local_write_registers fuel req m words :
  m ∈ ModbusConfig.mappings config → local (write_registers config fuel req m words).
Proof. intros Hm. specialize (HT m Hm). unfold write_registers. walk. Defined.
Hint Resolve modbus_local_write_registers : local.

Lemma modbus_local_process_write fuel req : local (process_write config fuel req).
Proof.
  unfold process_write. destruct (find _ _) as [m|] eqn:Hf; [|apply modbus_local_send_reply].
  apply find_elem in Hf. pose proof (HT m Hf) as Hm. walk.
Defined.
Hint Resolve modbus_local_process_write : local.
Lemma modbus_local_process_writes fuel n : local (process_writes config fuel n).
Proof. induction n as [|n IH]; simpl; walk. Defined.

(** *** Reads *)

Lemma modbus_local_read_chunk func ctx a n : local (read_chunk config func ctx a n).
Proof. unfold read_chunk. apply local_bind; [apply modbus_local_emit|]. intros _. apply modbus_local_env. Defined.

Lemma modbus_local_update_mapping a n bytes m :
  m ∈ ModbusConfig.mappings config → local (update_mapping a n bytes m).
Proof.
  intros Hm. specialize (HT m Hm). unfold update_mapping. cbv zeta.
  destruct (ModbusPlan.extract a n bytes m) as [| |slice]; [walk|walk|].
  apply local_bind; [walk|]. intros ordered.
  destruct (is_err (TagDefinitionStore.get D (ModbusMapping.tag_id m))) eqn:Hdef.
  - apply (local_definitions (DW := ProtocolDriver.modbus_world) D T _
      (set_tag_quality (ModbusMapping.tag_id m) TagQuality.ConfigError)); [by apply modbus_local_mark|].
    intros r w HD _. unfold TagRegistry.get_definition. by rewrite HD, Hdef.
  - apply (local_eq _ _ _ _ (r ← gets registry;
      existing ← or_panic (TagRegistry.get_tag r (ModbusMapping.tag_id m));
      match existing with
      | Ok _ =>
          match ModbusCodec.decode_bytes_to_tagvalue (ModbusMapping.data_type m) ordered
                  (ModbusMapping.bit_offset m) with
          | Ok tv => source_ts ← now; update_tag_value (ModbusMapping.tag_id m) tv TagQuality.Good source_ts
          | Err _ => set_tag_quality (ModbusMapping.tag_id m) TagQuality.ConfigError
          end
      | Err _ => set_tag_quality (ModbusMapping.tag_id m) TagQuality.CommLost
      end)).
    + apply (local_get_tag (DW := ProtocolDriver.modbus_world) D T); [done|]. intros existing. unfold now. walk.
    + intros r w _ HD. unfold mbind, M_bind, gets. simpl.
      unfold TagRegistry.get_definition. by rewrite HD, Hdef.
Defined.

Lemma modbus_local_read_failed members e :
  (∀ m, m ∈ members → m ∈ ModbusConfig.mappings config) → local (read_failed config members e).
Proof. intros Hms. unfold read_failed. walk. Defined.
Hint Resolve modbus_local_read_chunk modbus_local_update_mapping modbus_local_read_failed : local.

Lemma modbus_local_chunk_loop fuel func members ctx a n :
  (∀ m, m ∈ members → m ∈ ModbusConfig.mappings config) →
  local (chunk_loop config fuel func members ctx a n).
Proof.
  intros Hms. revert ctx a n. induction fuel as [|fuel IH]; intros ctx a n; simpl; walk.
Defined.
Hint Resolve modbus_local_chunk_loop : local.

Lemma modbus_local_read_groups func ctx gs :
  (∀ m, m ∈ concat (ModbusPlan.members <$> gs) → m ∈ ModbusConfig.mappings config) →
  local (read_groups config func ctx gs).
Proof.
  intros Hgs. revert ctx. induction gs as [|g gs IH]; intros ctx; simpl; [apply local_ret|].
  apply local_bind.
  - apply modbus_local_chunk_loop. intros m Hm. apply Hgs. csimpl. apply elem_of_app. by left.
  - intros ctx'. apply IH. intros m Hm. apply Hgs. csimpl. apply elem_of_app. by right.
Defined.

Lemma modbus_local_read_functions ctx fs :
  (∀ m, m ∈ concat fs.*2 → m ∈ ModbusConfig.mappings config) → local (read_functions config ctx fs).
Proof.
  intros Hfs. revert ctx. induction fs as [|[func maps] fs IH]; intros ctx; simpl; [apply local_ret|].
  apply local_bind.
  - apply modbus_local_read_groups. intros m Hm. rewrite build_groups_members in Hm.
    apply Hfs. csimpl. apply elem_of_app. left. by rewrite sort_by_key_perm in Hm.
  - intros ctx'. apply IH. intros m Hm. apply Hfs. csimpl. apply elem_of_app. by right.
Defined.

Lemma modbus_local_obtain_context fuel : local (obtain_context config fuel).
Proof. unfold obtain_context, connect_with_backoff. walk. Defined.

(** A cycle. *)
Lemma modbus_local_cycle fuel : local (run_read_cycle_impl config fuel).
Proof.
  unfold run_read_cycle_impl. apply local_bind; [apply modbus_local_process_writes|]. intros _.
  apply local_bind; [apply modbus_local_obtain_context|]. intros ctx.
  apply local_bind; [|intros ctx'; apply modbus_local_set_client].
  apply modbus_local_read_functions. intros m (ms & Hm & ([f g] & -> & Hfg)%list_elem_of_fmap)%elem_of_concat.
  apply hash_iter_group_by in Hfg as [-> _]. by apply list_elem_of_filter in Hm as [_ ?].
Defined.
End cycle.
End ModbusLocal.
