(* ===== verification/FinsLocal.v ===== *)
(** * FINS driver: a cycle keeps to its own tags

    Whatever else happens to the registry, a cycle is a program of operations on the tags
    of the driver's mappings. *)

From stdpp Require Import base tactics numbers list gmap strings.
From S2P Require Import Prelude Effects RustStd RustStr RustSlice RustMap Crates TagValue Tag TagDefinition TagStore Registry CoreModel TagThreads DriverWorld Locality ModbusTypes ModbusCodec FinsTypes FinsCodec FinsPlan FinsDriver.
Local Open Scope Z_scope.

Module FinsLocal.
Import FinsIO FinsDriver FinsError RegistryOps TagThreads Locality.

Section cycle.
Context {C : Chrono} {BY : Bytes} {B : ByteOrder} {J : SerdeJson} {IO : FinsIO}.
Context (config : FinsConfig SocketAddr) (read_groups : list FinsPlan.ReadGroup).
Context (D : TagDefinitionStore) (T : gset string).
Context (HT : ∀ m, m ∈ FinsConfig.mappings config → TagMapping.tag_id m ∈ T).
Context (HG : ∀ g m, g ∈ read_groups → m ∈ FinsPlan.mappings g → TagMapping.tag_id m ∈ T).
Notation local := (local (E:=DriverError) set_registry D T).

Lemma fins_local_emit ev : local (emit ev).
Proof. by apply local_own. Defined.
Lemma fins_local_set_conn c : local (modify (set_conn c)).
Proof. by apply local_own. Defined.
Lemma fins_local_gets_conn : local (gets conn).
Proof. by apply local_own. Defined.
Lemma fins_local_sid : local next_sid.
Proof. by apply local_own. Defined.
Lemma fins_local_env {A} (f : Env → A * Env) : local (env_op f).
Proof. exact (local_env_op (DW := fins_world) D T f). Defined.
Lemma fins_local_await {A} (f : Env → option (A * Env)) : local (await_op f).
Proof. exact (local_await_op (DW := fins_world) D T f). Defined.
Lemma fins_local_sleep s : local (modify (λ w, set_env (sleep s (env w)) w)).
Proof. by apply local_own. Defined.
Lemma fins_local_mark id q : id ∈ T → local (set_tag_quality id q).
Proof. exact (local_set_tag_quality (DW := fins_world) D T id q). Defined.
Lemma fins_local_update id v q ts : id ∈ T → local (update_tag_value id v q ts).
Proof. exact (local_update_tag_value (DW := fins_world) D T id v q ts). Defined.
Lemma fins_local_send_reply reply r : local (send_reply reply r).
Proof. destruct reply; [apply fins_local_emit|apply local_ret]. Defined.
Lemma fins_local_health status detail : local (send_health_event config status detail).
Proof. apply local_own. intros r w. unfold send_health_event, mbind, M_bind, gets. simpl. by destruct (health_tx w). Defined.

Create HintDb local.
Hint Resolve local_ret local_throw local_pending local_or_panic fins_local_emit fins_local_set_conn
  fins_local_gets_conn fins_local_sid fins_local_env fins_local_await fins_local_sleep fins_local_mark fins_local_update fins_local_send_reply
  fins_local_health : local.
Hint Unfold now : local.
(** Step through a computation. *)
Ltac walk := repeat (cbn beta; first
  [ solve [eauto with local]
  | apply local_bind; [|intros ?]
  | apply local_for_each; intros ? ?
  | progress cbv zeta
  | match goal with |- context [match ?x with _ => _ end] => destruct x end ]).

Lemma fins_local_exchange stream wrapped : local (exchange stream wrapped).
Proof. unfold exchange. walk. Defined.
Hint Resolve fins_local_exchange : local.
Lemma fins_local_connect fuel b : local (connect_loop config fuel b).
Proof. revert b. induction fuel as [|fuel IH]; intros b; simpl; walk. Defined.
Hint Resolve fins_local_connect : local.

(** *** Writes *)

Lemma fins_local_write_response req id sid payload : id ∈ T → local (write_response req id sid payload).
Proof. intros Hid. unfold write_response, now. walk. Defined.
Lemma fins_local_write_stream fuel req id : id ∈ T → local (write_stream config fuel req id).
Proof. intros Hid. unfold write_stream, connect_with_backoff. walk. Defined.
Hint Resolve fins_local_write_response fins_local_write_stream : local.
Lemma fins_local_write_words fuel req m words :
  m ∈ FinsConfig.mappings config → local (write_words config fuel req m words).
Proof. intros Hm. specialize (HT m Hm). unfold write_words. walk. Defined.
Hint Resolve fins_local_write_words : local.

Lemma fins_local_process_write fuel req : local (process_write config fuel req).
Proof.
  unfold process_write. destruct (find _ _) as [m|] eqn:Hf; [|apply fins_local_send_reply].
  apply find_elem in Hf. walk.
Defined.
Hint Resolve fins_local_process_write : local.
Lemma fins_local_process_writes fuel n : local (process_writes config fuel n).
Proof. induction n as [|n IH]; simpl; walk. Defined.

(** *** Reads *)

Lemma fins_local_comm_lost ms : (∀ m, m ∈ ms → TagMapping.tag_id m ∈ T) → local (comm_lost ms).
Proof. intros Hms. unfold comm_lost. walk. Defined.
Lemma fins_local_all_error ms msg : (∀ m, m ∈ ms → TagMapping.tag_id m ∈ T) → local (all_error ms msg).
Proof. intros Hms. unfold all_error. walk. Defined.
Hint Resolve fins_local_comm_lost fins_local_all_error : local.

Lemma fins_local_decode m bytes : TagMapping.tag_id m ∈ T → local (decode_and_update_tag m bytes).
Proof.
  intros Hm. unfold decode_and_update_tag. cbv zeta. apply local_bind; [walk|]. intros data.
  destruct (is_err (TagDefinitionStore.get D (TagMapping.tag_id m))) eqn:Hdef.
  - apply (local_definitions (DW := fins_world) D T _
      (mret (Err (Mapping ("Tag id not found in registry: " +:+ TagMapping.tag_id m))))); [walk|].
    intros r w HD _. unfold TagRegistry.get_definition. by rewrite HD, Hdef.
  - apply (local_definitions (DW := fins_world) D T _
      (source_ts ← now;
       v ← or_panic (FinsCodec.decode (TagMapping.data_type m) (TagMapping.bit_offset m) data);
       match v with
       | Ok v => update_tag_value (TagMapping.tag_id m) v TagQuality.Good source_ts;; mret (Ok tt)
       | Err e => mret (Err e)
       end)); [unfold now; walk|].
    intros r w HD _. unfold TagRegistry.get_definition. by rewrite HD, Hdef.
Defined.
Hint Resolve fins_local_decode : local.

Lemma fins_local_update_mapping g payload m : TagMapping.tag_id m ∈ T → local (update_mapping g payload m).
Proof. intros Hm. unfold update_mapping. walk. Defined.
Hint Resolve fins_local_update_mapping : local.

Lemma fins_local_read_payload g payload : g ∈ read_groups → local (read_payload g payload).
Proof. intros Hg. specialize (HG g). unfold read_payload. walk. Defined.
Hint Resolve fins_local_read_payload : local.
Lemma fins_local_read_response g sid payload : g ∈ read_groups → local (read_response g sid payload).
Proof. intros Hg. pose proof (HG g) as Hm. unfold read_response. walk. Defined.
Lemma fins_local_read_stream fuel g : g ∈ read_groups → local (read_stream config fuel g).
Proof. intros Hg. pose proof (HG g) as Hm. unfold read_stream, connect_with_backoff. walk. Defined.
Hint Resolve fins_local_read_response fins_local_read_stream : local.
Lemma fins_local_read_group fuel g : g ∈ read_groups → local (read_group config fuel g).
Proof. intros Hg. pose proof (HG g) as Hm. unfold read_group. walk. Defined.

Lemma fins_local_read_loop fuel gs : (∀ g, g ∈ gs → g ∈ read_groups) → local (read_loop config fuel gs).
Proof.
  induction gs as [|g gs IH]; intros Hgs; simpl; [apply local_ret|].
  apply local_bind; [apply fins_local_read_group, Hgs; by left|].
  intros []; [|apply local_ret]. apply IH. intros g' Hg'. apply Hgs. by right.
Defined.

Lemma fins_local_ensure_connection fuel : local (ensure_connection config fuel).
Proof. unfold ensure_connection, connect_with_backoff. walk. Defined.

(** A cycle. *)
Lemma fins_local_cycle fuel : local (run_read_cycle_impl config read_groups fuel).
Proof.
  unfold run_read_cycle_impl. apply local_bind; [apply fins_local_ensure_connection|]. intros _.
  apply local_bind; [apply fins_local_process_writes|]. intros _. by apply fins_local_read_loop.
Defined.
End cycle.
End FinsLocal.
