(* ===== verification/ModbusArrivals.v ===== *)
(** * Modbus driver: requests that arrive during a cycle

    The environment of [ModbusQueue] with senders at work: before each of its operations
    some requests may enter the queue.  A cycle in it is a cycle of the environment in
    which none does, with the first part of the arrivals queued before the cycle and the
    rest after it. *)

From stdpp Require Import base tactics numbers list gmap strings.
From S2P Require Import Prelude Effects RustStd RustStr RustSlice RustMap Crates TagValue Tag TagDefinition TagStore Registry Arrivals ModbusTypes ModbusCodec ModbusPlan ModbusDriver ModbusQueue.
Local Open Scope Z_scope.

Module ModbusArrivals.
Import ModbusIO ModbusDriver ModbusError ModbusQueue Arrivals.

Section arriving.
Context {C : Chrono} (Net : ModbusIO).
Notation request := { req : WriteRequest | TagValue.wf (WriteRequest.value req) }.

(** The queue and the network, and the requests that arrive before each operation to come. *)
Record AEnv := mkArriving { base : QEnv Net; schedule : list (list request) }.
Definition arrived (e : AEnv) : QEnv Net :=
  {| queue := queue (base e) ++ default [] (head (schedule e)); net := net Net (base e) |}.
Definition on_base {A} (f : QEnv Net → A * QEnv Net) (e : AEnv) : A * AEnv :=
  let '(a, b) := f (arrived e) in (a, {| base := b; schedule := tail (schedule e) |}).

Lemma modbus_on_base_wf e req e' :
  on_base pop e = (Received req, e') → TagValue.wf (WriteRequest.value req).
Proof.
  unfold on_base. destruct (pop (arrived e)) as [r b] eqn:Hp. intros [= -> _]. by eapply pop_wf.
Qed.

#[local] Existing Instance queued.
Definition arriving : ModbusIO := {|
  ModbusIO.Env := AEnv;
  ModbusIO.SocketAddr := Net.(ModbusIO.SocketAddr);
  ModbusIO.ClientContext := Net.(ModbusIO.ClientContext);
  tcp_connect a := on_base (tcp_connect (ModbusIO := queued Net) a);
  set_slave := set_slave (ModbusIO := queued Net);
  write_multiple_registers t ctx a ws :=
    on_base (write_multiple_registers (ModbusIO := queued Net) t ctx a ws);
  read_holding_registers t ctx a n := on_base (read_holding_registers (ModbusIO := queued Net) t ctx a n);
  read_input_registers t ctx a n := on_base (read_input_registers (ModbusIO := queued Net) t ctx a n);
  read_coils t ctx a n := on_base (read_coils (ModbusIO := queued Net) t ctx a n);
  read_discrete_inputs t ctx a n := on_base (read_discrete_inputs (ModbusIO := queued Net) t ctx a n);
  try_recv := on_base pop;
  sleep s e := (on_base (λ b, (tt, sleep (ModbusIO := queued Net) s b)) e).2;
  utc_now := on_base (utc_now (ModbusIO := queued Net));
  try_recv_wf := modbus_on_base_wf;
|}.
End arriving.
Arguments base {_ _}.
Arguments schedule {_ _}.

Section cycle.
Context {C : Chrono} {B : ByteOrder} {J : SerdeJson} {Net : ModbusIO}.
Context `{!HashIter ModbusFunction} (config : ModbusConfig Net.(ModbusIO.SocketAddr)).
Notation request := { req : WriteRequest | TagValue.wf (WriteRequest.value req) }.
Notation IO1 := (arriving Net).
Notation IO2 := (queued Net).
Notation World1 := (World (IO := IO1)).
Notation World2 := (World (IO := IO2)).

(** The worlds agree on everything but the queues. *)
Record same (w1 : World1) (w2 : World2) : Prop := {
  sm_registry : registry w1 = registry w2;
  sm_client : client w1 = client w2;
  sm_health : health_tx w1 = health_tx w2;
  sm_log : log w1 = log w2;
  sm_net : net Net (base (env w1)) = net Net (env w2);
}.
Definition queue1 (w : World1) : list request := queue (base (env w)).
Definition coming (w : World1) : list request := concat (schedule (env w)).
Definition queue2 (w : World2) : list request := queue (env w).
Notation follows := (follows (E := DriverError) same queue1 coming queue2).
Notation splits := (splits (E := DriverError) same queue1 coming queue2).

(** An operation of the network, with the requests that arrive before it. *)
Lemma modbus_follows_env {A} (f : QEnv Net → A * QEnv Net) :
  (∀ e e', net Net e = net Net e' →
     (f e).1 = (f e').1 ∧ net Net (f e).2 = net Net (f e').2 ∧ queue (f e).2 = queue e) →
  follows (env_op (IO := IO1) (on_base Net f)) (env_op (IO := IO2) f).
Proof.
  intros Hf. unfold env_op, on_base. split.
  - intros w1. exists (default [] (head (schedule (env w1)))).
    destruct (Hf (arrived Net (env w1)) (base (env w1)) eq_refl) as (_ & _ & Hq).
    destruct (f (arrived Net (env w1))) as [a b]. simpl in *. split; [done|].
    unfold coming. simpl. by destruct (schedule (env w1)).
  - intros w1 w2 [Hr Hc Hh Hl Hn].
    destruct (Hf (arrived Net (env w1)) (env w2) Hn) as (Ha & Hn' & _).
    destruct (Hf (env w2) (env w2) eq_refl) as (_ & _ & Hq).
    destruct (f (arrived Net (env w1))) as [a b], (f (env w2)) as [a2 b2]. simpl in *. subst a2.
    by split.
Qed.
Lemma modbus_on_net_same {A} (f : Net.(ModbusIO.Env) → A * Net.(ModbusIO.Env)) e e' :
  net Net e = net Net e' →
  (on_net Net f e).1 = (on_net Net f e').1 ∧ net Net (on_net Net f e).2 = net Net (on_net Net f e').2 ∧
  queue (on_net Net f e).2 = queue e.
Proof. intros He. unfold on_net. rewrite He. by destruct (f (net Net e')). Qed.
Lemma modbus_follows_net {A} (f : Net.(ModbusIO.Env) → A * Net.(ModbusIO.Env)) :
  follows (env_op (IO := IO1) (on_base Net (on_net Net f))) (env_op (IO := IO2) (on_net Net f)).
Proof. apply modbus_follows_env. intros e e'. apply modbus_on_net_same. Qed.
Lemma modbus_follows_now : follows (now (IO := IO1)) (now (IO := IO2)).
Proof. exact (modbus_follows_net (utc_now (ModbusIO := Net))). Qed.
Lemma modbus_follows_sleep s :
  follows (modify (λ w, set_env (IO := IO1) (sleep (ModbusIO := IO1) s (env w)) w))
          (modify (λ w, set_env (IO := IO2) (sleep (ModbusIO := IO2) s (env w)) w)).
Proof.
  refine (modbus_follows_env (λ b, (tt, sleep (ModbusIO := IO2) s b)) _). intros e e' He. simpl. by rewrite He.
Qed.

(** Steps on the driver's own state. *)
Ltac own := apply follows_quiet; [done|]; intros w1 w2 [Hr Hc Hh Hl Hn]; simpl; split_and!;
  [congruence|split; simpl; congruence|done].
Lemma modbus_follows_emit ev : follows (emit (IO := IO1) ev) (emit (IO := IO2) ev).
Proof. own. Qed.
Lemma modbus_follows_set_client c : follows (modify (set_client (IO := IO1) c)) (modify (set_client (IO := IO2) c)).
Proof. own. Qed.
Lemma modbus_follows_set_registry r : follows (modify (set_registry (IO := IO1) r)) (modify (set_registry (IO := IO2) r)).
Proof. own. Qed.
Lemma modbus_follows_get_client : follows (gets (client (IO := IO1))) (gets (client (IO := IO2))).
Proof. own. Qed.
Lemma modbus_follows_get_registry : follows (gets (registry (IO := IO1))) (gets (registry (IO := IO2))).
Proof. own. Qed.
Lemma modbus_follows_get_health : follows (gets (health_tx (IO := IO1))) (gets (health_tx (IO := IO2))).
Proof. own. Qed.
Lemma modbus_follows_send_reply reply r : follows (send_reply (IO := IO1) reply r) (send_reply (IO := IO2) reply r).
Proof. destruct reply; [apply modbus_follows_emit|apply follows_ret]. Qed.

Create HintDb arrivals.
Hint Resolve follows_ret follows_throw follows_pending follows_or_panic modbus_follows_now modbus_follows_net
  modbus_follows_sleep modbus_follows_emit modbus_follows_set_client modbus_follows_set_registry modbus_follows_get_client
  modbus_follows_get_registry modbus_follows_get_health modbus_follows_send_reply : arrivals.
(** Step through a computation. *)
Ltac walk := repeat (cbn beta; first
  [ solve [eauto with arrivals]
  | apply follows_bind; [|intros ?]
  | apply follows_for_each; intros ?
  | progress cbv zeta
  | match goal with |- context [match ?x with _ => _ end] => destruct x end ]).

Lemma modbus_follows_mark id q : follows (set_tag_quality (IO := IO1) id q) (set_tag_quality (IO := IO2) id q).
Proof. unfold set_tag_quality. walk. Qed.
Lemma modbus_follows_update id v q ts :
  follows (update_tag_value (IO := IO1) id v q ts) (update_tag_value (IO := IO2) id v q ts).
Proof. unfold update_tag_value. walk. Qed.
Lemma modbus_follows_health_event status detail :
  follows (send_health_event (IO := IO1) config status detail)
          (send_health_event (IO := IO2) config status detail).
Proof. unfold send_health_event. walk. Qed.
Hint Resolve modbus_follows_mark modbus_follows_update modbus_follows_health_event : arrivals.

Lemma modbus_follows_connect fuel b :
  follows (connect_loop (IO := IO1) config fuel b) (connect_loop (IO := IO2) config fuel b).
Proof.
  revert b. induction fuel as [|fuel IH]; intros b; cbn [connect_loop]; [walk|].
  apply follows_bind; [apply modbus_follows_net|]. intros [ctx|e]; walk.
Qed.
Hint Resolve modbus_follows_connect : arrivals.

(** *** Writes *)

Lemma modbus_follows_write_result id req res :
  follows (write_result (IO := IO1) config id req res) (write_result (IO := IO2) config id req res).
Proof. unfold write_result. walk. Qed.
Lemma modbus_follows_write_context fuel id reply :
  follows (write_context (IO := IO1) config fuel id reply) (write_context (IO := IO2) config fuel id reply).
Proof. unfold write_context, connect_with_backoff. walk. Qed.
Hint Resolve modbus_follows_write_result modbus_follows_write_context : arrivals.
Lemma modbus_follows_write_registers fuel req m words :
  follows (write_registers (IO := IO1) config fuel req m words)
          (write_registers (IO := IO2) config fuel req m words).
Proof.
  unfold write_registers. cbv zeta. apply follows_bind; [walk|]. intros ctx.
  apply follows_bind; [walk|]. intros _. apply follows_bind; [apply modbus_follows_net|]. intros [res ctx']. walk.
Qed.
Hint Resolve modbus_follows_write_registers : arrivals.
Lemma modbus_follows_process_write fuel req :
  follows (process_write (IO := IO1) config fuel req) (process_write (IO := IO2) config fuel req).
Proof.
  unfold process_write.
  change (@ModbusConfig.mappings (@SocketAddr C IO1) config) with (ModbusConfig.mappings config).
  change (@ModbusConfig.mappings (@SocketAddr C IO2) config) with (ModbusConfig.mappings config).
  walk.
Qed.
Hint Resolve modbus_follows_process_write : arrivals.

Lemma modbus_pops_queue :
  pops same queue1 coming queue2 Empty (λ req, Received (proj1_sig req))
    (env_op (IO := IO1) (try_recv (ModbusIO := IO1))) (env_op (IO := IO2) (try_recv (ModbusIO := IO2))).
Proof.
  intros w1. exists (default [] (head (schedule (env w1)))).
  assert (coming w1 = default [] (head (schedule (env w1))) ++ concat (tail (schedule (env w1)))) as Hc
    by (unfold coming; by destruct (schedule (env w1))).
  unfold env_op. simpl. unfold on_base, pop. simpl.
  change (queue1 w1) with (queue (base (env w1))).
  destruct (queue (base (env w1)) ++ _) as [|r q] eqn:Hq; simpl; (split; [exact Hc|]).
  - split; [done|]. split; [done|]. intros w2 [Hr Hcl Hh Hl Hn] Hw2.
    change (queue2 w2) with (queue (env w2)) in Hw2. rewrite Hw2. simpl. by split_and!.
  - split; [done|]. split; [done|]. intros w2 rest [Hr Hcl Hh Hl Hn] Hw2.
    change (queue2 w2) with (queue (env w2)) in Hw2. rewrite Hw2. simpl. by split_and!.
Qed.

Lemma modbus_splits_process_writes fuel n :
  splits (process_writes (IO := IO1) config fuel n) (process_writes (IO := IO2) config fuel n).
Proof.
  induction n as [|n IH]; [apply follows_splits, follows_ret|]. cbn [process_writes].
  apply (splits_pop _ _ _ _ Empty (λ req, Received (proj1_sig req))); [apply modbus_pops_queue|apply follows_ret|].
  intros req. apply splits_after; [apply modbus_follows_emit|]. intros _.
  apply splits_after; [apply modbus_follows_process_write|]. intros _. exact IH.
Qed.

(** *** Reads *)

(** A request whose response is converted. *)
Lemma modbus_follows_converted {X Y Z} (f : Net.(ModbusIO.Env) → X * Y * Net.(ModbusIO.Env)) (g : X → Z) :
  follows (env_op (IO := IO1) (λ e, let '(r, c, e) := on_base Net (on_net Net f) e in (g r, c, e)))
          (env_op (IO := IO2) (λ e, let '(r, c, e) := on_net Net f e in (g r, c, e))).
Proof.
  apply (follows_eq _ _ _ _ _ (x ← env_op (IO := IO1) (on_base Net (on_net Net f)); mret (g x.1, x.2))
    _ (x ← env_op (IO := IO2) (on_net Net f); mret (g x.1, x.2))).
  - apply follows_bind; [apply modbus_follows_net|]. intros x. apply follows_ret.
  - intros w. unfold mbind, M_bind, env_op. by destruct (on_base Net (on_net Net f) (env w)) as [[r c] e].
  - intros w. unfold mbind, M_bind, env_op. by destruct (on_net Net f (env w)) as [[r c] e].
Qed.
Lemma modbus_follows_read_chunk func ctx a n :
  follows (read_chunk (IO := IO1) config func ctx a n) (read_chunk (IO := IO2) config func ctx a n).
Proof.
  unfold read_chunk. apply follows_bind; [apply modbus_follows_emit|]. intros _. destruct func.
  - exact (modbus_follows_converted (read_coils (ModbusIO := Net) _ ctx a n) (λ r, read_result (pack_response r))).
  - exact (modbus_follows_converted (read_discrete_inputs (ModbusIO := Net) _ ctx a n) (λ r, read_result (pack_response r))).
  - exact (modbus_follows_converted (read_holding_registers (ModbusIO := Net) _ ctx a n) read_result).
  - exact (modbus_follows_converted (read_input_registers (ModbusIO := Net) _ ctx a n) read_result).
Qed.
Hint Resolve modbus_follows_read_chunk : arrivals.
Lemma modbus_follows_update_mapping a n bytes m :
  follows (update_mapping (IO := IO1) a n bytes m) (update_mapping (IO := IO2) a n bytes m).
Proof. unfold update_mapping. walk. Qed.
Lemma modbus_follows_read_failed members e :
  follows (read_failed (IO := IO1) config members e) (read_failed (IO := IO2) config members e).
Proof. unfold read_failed. walk. Qed.
Hint Resolve modbus_follows_update_mapping modbus_follows_read_failed : arrivals.
Lemma modbus_follows_chunk_loop fuel func members ctx a n :
  follows (chunk_loop (IO := IO1) config fuel func members ctx a n)
          (chunk_loop (IO := IO2) config fuel func members ctx a n).
Proof.
  revert ctx a n. induction fuel as [|fuel IH]; intros ctx a n; cbn [chunk_loop]; walk.
Qed.
Lemma modbus_follows_read_groups func ctx gs :
  follows (read_groups (IO := IO1) config func ctx gs) (read_groups (IO := IO2) config func ctx gs).
Proof.
  revert ctx. induction gs as [|g gs IH]; intros ctx; cbn [read_groups]; [apply follows_ret|].
  apply follows_bind; [apply modbus_follows_chunk_loop|exact IH].
Qed.
Lemma modbus_follows_read_functions ctx fs :
  follows (read_functions (IO := IO1) config ctx fs) (read_functions (IO := IO2) config ctx fs).
Proof.
  revert ctx. induction fs as [|[func maps] fs IH]; intros ctx; cbn [read_functions]; [apply follows_ret|].
  apply follows_bind; [apply modbus_follows_read_groups|exact IH].
Qed.
Lemma modbus_follows_obtain_context fuel :
  follows (obtain_context (IO := IO1) config fuel) (obtain_context (IO := IO2) config fuel).
Proof. unfold obtain_context, connect_with_backoff. walk. Qed.

Lemma modbus_splits_cycle fuel :
  splits (run_read_cycle_impl (IO := IO1) config fuel) (run_read_cycle_impl (IO := IO2) config fuel).
Proof.
  unfold run_read_cycle_impl. apply splits_then; [apply modbus_splits_process_writes|]. intros _.
  apply follows_bind; [apply modbus_follows_obtain_context|]. intros ctx.
  apply follows_bind; [apply modbus_follows_read_functions|]. intros ctx'. apply modbus_follows_set_client.
Qed.

(** *** A cycle with senders at work *)

(** The world with the arrivals of a cycle to come, and the world after the cycle, when
    the arrivals left over have arrived too. *)
Definition opened (cs : list (list request)) (w : World2) : World1 :=
  mkWorld (IO := IO1) (registry w) (client w) (health_tx w) (mkArriving Net (env w) cs) (log w).
Definition settled (w : World1) : World2 :=
  mkWorld (IO := IO2) (registry w) (client w) (health_tx w)
    (mkEnv Net (queue1 w ++ coming w) (net Net (base (env w)))) (log w).
Definition enqueue (reqs : list request) (w : World2) : World2 :=
  set_env (IO := IO2) (mkEnv Net (queue2 w ++ reqs) (net Net (env w))) w.

Lemma modbus_same_settled w1 w2 after :
  same w1 w2 → queue1 w1 ++ coming w1 = queue2 w2 ++ after → settled w1 = enqueue after w2.
Proof.
  intros [Hr Hc Hh Hl Hn] Hq. unfold settled, enqueue, set_env. rewrite Hq, Hr, Hc, Hh, Hl, Hn. done.
Qed.
Lemma modbus_cycle_arrivals fuel cs w :
  ∃ before after, concat cs = before ++ after ∧
    (run_read_cycle_impl (IO := IO1) config fuel (opened cs w)).1 =
      (run_read_cycle_impl (IO := IO2) config fuel (enqueue before w)).1 ∧
    settled (run_read_cycle_impl (IO := IO1) config fuel (opened cs w)).2 =
      enqueue after (run_read_cycle_impl (IO := IO2) config fuel (enqueue before w)).2.
Proof.
  destruct (modbus_splits_cycle fuel (opened cs w)) as (before & after & Hc & Hgo).
  destruct (Hgo (enqueue before w)) as (Ho & Hs & Hq); [by split|done|].
  set (r1 := run_read_cycle_impl (IO := IO1) config fuel (opened cs w)) in *.
  exists before, (after ++ coming r1.2). split; [exact Hc|]. split; [done|].
  apply modbus_same_settled; [done|]. by rewrite Hq, (assoc_L (++)).
Qed.
End cycle.
End ModbusArrivals.
