(* ===== verification/FinsArrivals.v ===== *)
(** * FINS driver: requests that arrive during a cycle

    As [ModbusArrivals], for the FINS driver. *)

From stdpp Require Import base tactics numbers list gmap strings.
From S2P Require Import Prelude Effects RustStd RustStr RustSlice RustMap Crates TagValue Tag TagDefinition TagStore Registry DriverWorld Arrivals ModbusTypes ModbusCodec FinsTypes FinsCodec FinsPlan FinsDriver FinsQueue.
Local Open Scope Z_scope.

Module FinsArrivals.
Import FinsIO FinsDriver FinsError FinsQueue RegistryOps Arrivals.

Section arriving.
Context {C : Chrono} (Net : FinsIO).
Notation request := { req : FinsWriteRequest | TagValue.wf (FinsWriteRequest.value req) }.

(** The queue and the network, and the requests that arrive before each operation to come. *)
Record AEnv := mkArriving { base : QEnv Net; schedule : list (list request) }.
Definition arrived (e : AEnv) : QEnv Net :=
  {| queue := queue (base e) ++ default [] (head (schedule e)); net := net Net (base e) |}.
Definition on_base {A} (f : QEnv Net → A * QEnv Net) (e : AEnv) : A * AEnv :=
  let '(a, b) := f (arrived e) in (a, {| base := b; schedule := tail (schedule e) |}).

Definition await_base {A} (f : QEnv Net → option (A * QEnv Net)) (e : AEnv) : option (A * AEnv) :=
  '(a, b) ← f (arrived e);
  Some (a, {| base := b; schedule := tail (schedule e) |}).

Lemma fins_on_base_wf e req e' :
  on_base pop e = (Received req, e') → TagValue.wf (FinsWriteRequest.value req).
Proof.
  unfold on_base. destruct (pop (arrived e)) as [r b] eqn:Hp. intros [= -> _]. by eapply fins_pop_wf.
Qed.
Lemma fins_on_base_read st n e bytes st' e' :
  await_base (read_exact (FinsIO := queued Net) st n) e = Some (Ok bytes, st', e') →
  Z.of_nat (length bytes) = n ∧ is_bytes bytes.
Proof.
  unfold await_base. destruct (read_exact st n (arrived e)) as [[[r s] b]|] eqn:Hr; [|done].
  intros [= -> -> _]. by eapply (read_exact_ok (FinsIO := queued Net)).
Qed.

Definition arriving : FinsIO := {|
  FinsIO.Env := AEnv;
  FinsIO.SocketAddr := Net.(FinsIO.SocketAddr);
  FinsIO.TcpStream := Net.(FinsIO.TcpStream);
  connect a := on_base (connect (FinsIO := queued Net) a);
  write_all st bytes := await_base (write_all (FinsIO := queued Net) st bytes);
  read_exact st n := await_base (read_exact (FinsIO := queued Net) st n);
  try_recv := on_base pop;
  sleep s e := (on_base (λ b, (tt, sleep (FinsIO := queued Net) s b)) e).2;
  utc_now := on_base (utc_now (FinsIO := queued Net));
  read_exact_ok := fins_on_base_read;
  try_recv_wf := fins_on_base_wf;
|}.
End arriving.
Arguments base {_ _}.
Arguments schedule {_ _}.

Section cycle.
Context {C : Chrono} {BY : Bytes} {B : ByteOrder} {J : SerdeJson} {Net : FinsIO}.
Context (config : FinsConfig Net.(FinsIO.SocketAddr)) (groups : list FinsPlan.ReadGroup).
Notation request := { req : FinsWriteRequest | TagValue.wf (FinsWriteRequest.value req) }.
Notation IO1 := (arriving Net).
Notation IO2 := (queued Net).
Notation DW1 := (fins_world (IO := IO1)).
Notation DW2 := (fins_world (IO := IO2)).
Notation World1 := (World (IO := IO1)).
Notation World2 := (World (IO := IO2)).

(** The worlds agree on everything but the queues. *)
Record same (w1 : World1) (w2 : World2) : Prop := {
  sm_registry : registry w1 = registry w2;
  sm_conn : conn w1 = conn w2;
  sm_sid : sid_counter w1 = sid_counter w2;
  sm_health : health_tx w1 = health_tx w2;
  sm_log : log w1 = log w2;
  sm_net : net Net (base (env w1)) = net Net (env w2);
}.
Definition queue1 (w : World1) : list request := queue (base (env w)).
Definition coming (w : World1) : list request := concat (schedule (env w)).
Definition queue2 (w : World2) : list request := queue (env w).
Notation follows := (follows (E := DriverError) same queue1 coming queue2).
Notation splits := (splits (E := DriverError) same queue1 coming queue2).

(** An operation of the network, with the requests that arrive before it. *)
Lemma fins_follows_env {A} (f : QEnv Net → A * QEnv Net) :
  (∀ e e', net Net e = net Net e' →
     (f e).1 = (f e').1 ∧ net Net (f e).2 = net Net (f e').2 ∧ queue (f e).2 = queue e) →
  follows (env_op (DW := DW1) (on_base Net f)) (env_op (DW := DW2) f).
Proof.
  intros Hf. unfold env_op, on_base. split.
  - intros w1. exists (default [] (head (schedule (env w1)))).
    destruct (Hf (arrived Net (env w1)) (base (env w1)) eq_refl) as (_ & _ & Hq).
    simpl. destruct (f (arrived Net (env w1))) as [a b]. simpl in *. split; [done|].
    unfold coming. simpl. by destruct (schedule (env w1)).
  - intros w1 w2 [Hr Hc Hi Hh Hl Hn].
    destruct (Hf (arrived Net (env w1)) (env w2) Hn) as (Ha & Hn' & _).
    destruct (Hf (env w2) (env w2) eq_refl) as (_ & _ & Hq).
    simpl. destruct (f (arrived Net (env w1))) as [a b], (f (env w2)) as [a2 b2]. simpl in *. subst a2.
    by split.
Qed.
Lemma fins_on_net_same {A} (f : Net.(FinsIO.Env) → A * Net.(FinsIO.Env)) e e' :
  net Net e = net Net e' →
  (on_net Net f e).1 = (on_net Net f e').1 ∧ net Net (on_net Net f e).2 = net Net (on_net Net f e').2 ∧
  queue (on_net Net f e).2 = queue e.
Proof. intros He. unfold on_net. rewrite He. by destruct (f (net Net e')). Qed.
Lemma fins_follows_net {A} (f : Net.(FinsIO.Env) → A * Net.(FinsIO.Env)) :
  follows (env_op (DW := DW1) (on_base Net (on_net Net f))) (env_op (DW := DW2) (on_net Net f)).
Proof. apply fins_follows_env. intros e e'. apply fins_on_net_same. Qed.
Lemma fins_follows_now : follows (now (DW := DW1)) (now (DW := DW2)).
Proof. exact (fins_follows_net (utc_now (FinsIO := Net))). Qed.
Lemma fins_follows_sleep s :
  follows (modify (λ w, set_env (IO := IO1) (sleep (FinsIO := IO1) s (env w)) w))
          (modify (λ w, set_env (IO := IO2) (sleep (FinsIO := IO2) s (env w)) w)).
Proof.
  refine (fins_follows_env (λ b, (tt, sleep (FinsIO := IO2) s b)) _). intros e e' He. simpl. by rewrite He.
Qed.

(** An operation that may never complete: it does so in one world when it does in the
    other. *)
Lemma fins_follows_await {A} (f : Net.(FinsIO.Env) → option (A * Net.(FinsIO.Env))) :
  follows (await_op (DW := DW1) (await_base Net (await_net Net f)))
          (await_op (DW := DW2) (await_net Net f)).
Proof.
  unfold await_op, await_base, await_net. split.
  - intros w1. simpl. destruct (f (net Net (base (env w1)))) as [[a n]|]; simpl.
    + exists (default [] (head (schedule (env w1)))). split; [done|].
      unfold coming. simpl. by destruct (schedule (env w1)).
    + exists []. unfold queue1, coming. by rewrite app_nil_r.
  - intros w1 w2 [Hr Hc Hi Hh Hl Hn]. simpl. rewrite Hn.
    destruct (f (net Net (env w2))) as [[a n]|]; by split.
Qed.

(** The operations of an exchange, one after the other. *)
Lemma fins_follows_exchange stream bytes :
  follows (exchange (IO := IO1) stream bytes) (exchange (IO := IO2) stream bytes).
Proof.
  unfold exchange. apply follows_bind; [apply fins_follows_await|].
  intros [[[]|err] st]; [|apply follows_ret].
  apply follows_bind; [apply fins_follows_await|]. intros [[header|err] st']; [|apply follows_ret].
  apply fins_follows_await.
Qed.

(** Steps on the driver's own state. *)
Ltac own := apply follows_quiet; [done|]; intros w1 w2 [Hr Hc Hi Hh Hl Hn]; simpl; split_and!;
  [congruence|split; simpl; congruence|done].
Lemma fins_follows_emit ev : follows (emit (IO := IO1) ev) (emit (IO := IO2) ev).
Proof. own. Qed.
Lemma fins_follows_set_conn c : follows (modify (set_conn (IO := IO1) c)) (modify (set_conn (IO := IO2) c)).
Proof. own. Qed.
Lemma fins_follows_set_registry r : follows (modify (set_registry (IO := IO1) r)) (modify (set_registry (IO := IO2) r)).
Proof. own. Qed.
Lemma fins_follows_get_conn : follows (gets (conn (IO := IO1))) (gets (conn (IO := IO2))).
Proof. own. Qed.
Lemma fins_follows_get_registry : follows (gets (registry (IO := IO1))) (gets (registry (IO := IO2))).
Proof. own. Qed.
Lemma fins_follows_get_health : follows (gets (health_tx (IO := IO1))) (gets (health_tx (IO := IO2))).
Proof. own. Qed.
Lemma fins_follows_next_sid : follows (next_sid (IO := IO1)) (next_sid (IO := IO2)).
Proof.
  apply follows_quiet; [done|]. intros w1 w2 [Hr Hc Hi Hh Hl Hn]. simpl.
  split_and!; [congruence|split; simpl; congruence|done].
Qed.
Lemma fins_follows_send_reply reply r : follows (send_reply (IO := IO1) reply r) (send_reply (IO := IO2) reply r).
Proof. destruct reply; [apply fins_follows_emit|apply follows_ret]. Qed.

Create HintDb arrivals.
Hint Resolve follows_ret follows_throw follows_pending follows_or_panic fins_follows_now fins_follows_net
  fins_follows_exchange fins_follows_sleep fins_follows_emit fins_follows_set_conn fins_follows_set_registry fins_follows_get_conn
  fins_follows_get_registry fins_follows_get_health fins_follows_next_sid fins_follows_send_reply : arrivals.
(** Step through a computation. *)
Ltac walk := repeat (cbn beta; first
  [ solve [eauto with arrivals]
  | apply follows_bind; [|intros ?]
  | apply follows_for_each; intros ?
  | progress cbv zeta
  | match goal with |- context [match ?x with _ => _ end] => destruct x end ]).

Lemma fins_follows_mark id q : follows (set_tag_quality (DW := DW1) id q) (set_tag_quality (DW := DW2) id q).
Proof.
  unfold set_tag_quality. apply follows_bind; [apply fins_follows_now|]. intros t.
  apply follows_bind; [apply fins_follows_get_registry|]. intros r. apply follows_bind; [walk|].
  intros [res r']. apply fins_follows_set_registry.
Qed.
Lemma fins_follows_update id v q ts :
  follows (update_tag_value (DW := DW1) id v q ts) (update_tag_value (DW := DW2) id v q ts).
Proof.
  unfold update_tag_value. apply follows_bind; [apply fins_follows_now|]. intros t.
  apply follows_bind; [apply fins_follows_get_registry|]. intros r. apply follows_bind; [walk|].
  intros [res r']. apply follows_bind; [apply fins_follows_set_registry|walk].
Qed.
Lemma fins_follows_health_event status detail :
  follows (send_health_event (IO := IO1) config status detail)
          (send_health_event (IO := IO2) config status detail).
Proof. unfold send_health_event. walk. Qed.
Hint Resolve fins_follows_mark fins_follows_update fins_follows_health_event : arrivals.

Lemma fins_follows_connect fuel b :
  follows (connect_loop (IO := IO1) config fuel b) (connect_loop (IO := IO2) config fuel b).
Proof.
  revert b. induction fuel as [|fuel IH]; intros b; cbn [connect_loop]; [walk|].
  apply follows_bind; [apply fins_follows_net|]. intros [stream|e]; walk.
Qed.
Hint Resolve fins_follows_connect : arrivals.

(** *** Writes *)

Lemma fins_follows_write_response req id sid payload :
  follows (write_response (IO := IO1) req id sid payload) (write_response (IO := IO2) req id sid payload).
Proof. unfold write_response. walk. Qed.
Lemma fins_follows_write_stream fuel req id :
  follows (write_stream (IO := IO1) config fuel req id) (write_stream (IO := IO2) config fuel req id).
Proof. unfold write_stream, connect_with_backoff. walk. Qed.
Hint Resolve fins_follows_write_response fins_follows_write_stream : arrivals.
Lemma fins_follows_write_words fuel req m words :
  follows (write_words (IO := IO1) config fuel req m words) (write_words (IO := IO2) config fuel req m words).
Proof. unfold write_words. walk. Qed.
Hint Resolve fins_follows_write_words : arrivals.
Lemma fins_follows_process_write fuel req :
  follows (process_write (IO := IO1) config fuel req) (process_write (IO := IO2) config fuel req).
Proof.
  unfold process_write.
  change (@FinsConfig.mappings (@SocketAddr C IO1) config) with (FinsConfig.mappings config).
  change (@FinsConfig.mappings (@SocketAddr C IO2) config) with (FinsConfig.mappings config).
  walk.
Qed.

Lemma fins_pops_queue :
  pops (E := DriverError) same queue1 coming queue2 Empty (λ req, Received (proj1_sig req))
    (env_op (DW := DW1) (try_recv (FinsIO := IO1))) (env_op (DW := DW2) (try_recv (FinsIO := IO2))).
Proof.
  intros w1. exists (default [] (head (schedule (env w1)))).
  assert (coming w1 = default [] (head (schedule (env w1))) ++ concat (tail (schedule (env w1)))) as Hc
    by (unfold coming; by destruct (schedule (env w1))).
  unfold env_op. simpl. unfold on_base, pop. simpl.
  change (queue1 w1) with (queue (base (env w1))).
  destruct (queue (base (env w1)) ++ _) as [|r q] eqn:Hq; simpl; (split; [exact Hc|]).
  - split; [done|]. split; [done|]. intros w2 [Hr Hcl Hi Hh Hl Hn] Hw2.
    change (queue2 w2) with (queue (env w2)) in Hw2. rewrite Hw2. simpl. by split_and!.
  - split; [done|]. split; [done|]. intros w2 rest [Hr Hcl Hi Hh Hl Hn] Hw2.
    change (queue2 w2) with (queue (env w2)) in Hw2. rewrite Hw2. simpl. by split_and!.
Qed.

Lemma fins_splits_process_writes fuel n :
  splits (process_writes (IO := IO1) config fuel n) (process_writes (IO := IO2) config fuel n).
Proof.
  induction n as [|n IH]; [apply follows_splits, follows_ret|]. cbn [process_writes].
  apply (splits_pop _ _ _ _ Empty (λ req, Received (proj1_sig req))); [apply fins_pops_queue|apply follows_ret|].
  intros req. apply splits_after; [apply fins_follows_emit|]. intros _.
  apply splits_after; [apply fins_follows_process_write|]. intros _. exact IH.
Qed.

(** *** Reads *)

Lemma fins_follows_comm_lost ms : follows (comm_lost (IO := IO1) ms) (comm_lost (IO := IO2) ms).
Proof. unfold comm_lost. walk. Qed.
Lemma fins_follows_all_error ms msg : follows (all_error (IO := IO1) ms msg) (all_error (IO := IO2) ms msg).
Proof. unfold all_error. walk. Qed.
Hint Resolve fins_follows_comm_lost fins_follows_all_error : arrivals.
Lemma fins_follows_decode m bytes :
  follows (decode_and_update_tag (IO := IO1) m bytes) (decode_and_update_tag (IO := IO2) m bytes).
Proof.
  unfold decode_and_update_tag. cbv zeta. apply follows_bind; [walk|]. intros data.
  apply follows_bind; [apply fins_follows_get_registry|]. intros r. walk.
Qed.
Hint Resolve fins_follows_decode : arrivals.
Lemma fins_follows_update_mapping g payload m :
  follows (update_mapping (IO := IO1) g payload m) (update_mapping (IO := IO2) g payload m).
Proof. unfold update_mapping. walk. Qed.
Hint Resolve fins_follows_update_mapping : arrivals.
Lemma fins_follows_read_payload g payload :
  follows (read_payload (IO := IO1) g payload) (read_payload (IO := IO2) g payload).
Proof. unfold read_payload. walk. Qed.
Hint Resolve fins_follows_read_payload : arrivals.
Lemma fins_follows_read_response g sid payload :
  follows (read_response (IO := IO1) g sid payload) (read_response (IO := IO2) g sid payload).
Proof. unfold read_response. walk. Qed.
Lemma fins_follows_read_stream fuel g :
  follows (read_stream (IO := IO1) config fuel g) (read_stream (IO := IO2) config fuel g).
Proof. unfold read_stream, connect_with_backoff. walk. Qed.
Hint Resolve fins_follows_read_response fins_follows_read_stream : arrivals.
Lemma fins_follows_read_group fuel g :
  follows (read_group (IO := IO1) config fuel g) (read_group (IO := IO2) config fuel g).
Proof. unfold read_group. walk. Qed.
Lemma fins_follows_read_loop fuel gs :
  follows (read_loop (IO := IO1) config fuel gs) (read_loop (IO := IO2) config fuel gs).
Proof.
  induction gs as [|g gs IH]; cbn [read_loop]; [apply follows_ret|].
  apply follows_bind; [apply fins_follows_read_group|]. intros []; [exact IH|apply follows_ret].
Qed.
Lemma fins_follows_ensure_connection fuel :
  follows (ensure_connection (IO := IO1) config fuel) (ensure_connection (IO := IO2) config fuel).
Proof. unfold ensure_connection, connect_with_backoff. walk. Qed.

Lemma fins_splits_cycle fuel :
  splits (run_read_cycle_impl (IO := IO1) config groups fuel)
         (run_read_cycle_impl (IO := IO2) config groups fuel).
Proof.
  unfold run_read_cycle_impl. apply splits_after; [apply fins_follows_ensure_connection|]. intros _.
  apply splits_then; [apply fins_splits_process_writes|]. intros _. apply fins_follows_read_loop.
Qed.

(** *** A cycle with senders at work *)

(** The world with the arrivals of a cycle to come, and the world after the cycle, when
    the arrivals left over have arrived too. *)
Definition opened (cs : list (list request)) (w : World2) : World1 :=
  mkWorld (IO := IO1) (registry w) (conn w) (sid_counter w) (health_tx w) (mkArriving Net (env w) cs) (log w).
Definition settled (w : World1) : World2 :=
  mkWorld (IO := IO2) (registry w) (conn w) (sid_counter w) (health_tx w)
    (mkEnv Net (queue1 w ++ coming w) (net Net (base (env w)))) (log w).
Definition enqueue (reqs : list request) (w : World2) : World2 :=
  set_env (IO := IO2) (mkEnv Net (queue2 w ++ reqs) (net Net (env w))) w.

Lemma fins_same_settled w1 w2 after :
  same w1 w2 → queue1 w1 ++ coming w1 = queue2 w2 ++ after → settled w1 = enqueue after w2.
Proof.
  intros [Hr Hc Hi Hh Hl Hn] Hq. unfold settled, enqueue, set_env. rewrite Hq, Hr, Hc, Hi, Hh, Hl, Hn. done.
Qed.
Lemma fins_cycle_arrivals fuel cs w :
  ∃ before after, concat cs = before ++ after ∧
    (run_read_cycle_impl (IO := IO1) config groups fuel (opened cs w)).1 =
      (run_read_cycle_impl (IO := IO2) config groups fuel (enqueue before w)).1 ∧
    settled (run_read_cycle_impl (IO := IO1) config groups fuel (opened cs w)).2 =
      enqueue after (run_read_cycle_impl (IO := IO2) config groups fuel (enqueue before w)).2.
Proof.
  destruct (fins_splits_cycle fuel (opened cs w)) as (before & after & Hc & Hgo).
  destruct (Hgo (enqueue before w)) as (Ho & Hs & Hq); [by split|done|].
  set (r1 := run_read_cycle_impl (IO := IO1) config groups fuel (opened cs w)) in *.
  exists before, (after ++ coming r1.2). split; [exact Hc|]. split; [done|].
  apply fins_same_settled; [done|]. by rewrite Hq, (assoc_L (++)).
Qed.
End cycle.
End FinsArrivals.
