(* ===== verification/ModbusServe.v ===== *)
(** * Modbus driver: a write when the PLC is up

    A cycle that finds one write in its queue, against a PLC that is up and answers from
    its memory: the write reaches the memory and is confirmed, and the reads of the same
    cycle show it.  This discharges the class [WritePath.ServingDriver]. *)

From stdpp Require Import base tactics numbers list gmap strings.
From S2P Require Import Prelude Effects RustStd RustStr RustSlice RustMap Ranges Crates TagValue Tag TagDefinition TagStore Registry ModbusTypes ModbusCodec ModbusPlan ModbusDriver ModbusReads DriverApi WritePath ModbusQueue.
Local Open Scope Z_scope.

(** ** A cycle with one write queued *)

Module ModbusServe.
Import WritePath ModbusIO ModbusDriver ModbusReads ModbusQueue.
Import ModbusError.
Section cycle.
Context {C : Chrono} {B : ByteOrder} {J : SerdeJson} {IO : ModbusIO}.
Context `{!HashIter ModbusFunction}.
Context (cfg : ModbusConfig SocketAddr).

(** A PLC that is up: with memory [mem] and no request waiting, it answers every request
    from its memory, and a write changes the memory. *)
Record plc_up (Up : (ModbusFunction → Z → Z) → Env → Prop) : Prop := {
  up_reachable mem : reachable cfg (Up mem) mem;
  up_write mem t ctx a ws e :
    Up mem e → ∃ ctx' e', write_multiple_registers t ctx a ws e = (Answer tt, ctx', e') ∧
                          Up (Ranges.stored ModbusFunction.HoldingRegisters a ws mem) e';
}.
Context (Up : (ModbusFunction → Z → Z) → Env → Prop) (Hup : plc_up Up).

(** A mapping the driver may write, and the words of a value for it. *)
Record writes_words (m : ModbusMapping) (v : TagValue) (sent : list Z) : Prop := {
  ww_in : m ∈ ModbusConfig.mappings cfg;
  ww_writable : ModbusMapping.writable m = true;
  ww_holding : ModbusMapping.function m = ModbusFunction.HoldingRegisters;
  ww_words : ∃ words, ModbusCodec.tagvalue_to_registers v = Some (Ok words) ∧
               ModbusCodec.order_words words (ModbusMapping.byte_order m) = Some (Some sent);
}.

(** Getting a context for the write. *)
Lemma write_context_up fuel id reply mem w :
  Up mem (env w) →
  ∃ ctx w', write_context cfg (S fuel) id reply w = (Ret ctx, w') ∧ registry w' = registry w ∧
    Up mem (env w') ∧ log w' = log w ++ connect_events w.
Proof.
  intros HU. destruct (up_connect _ _ _ (up_reachable _ Hup mem) _ HU) as (ctx & e' & Hc & HU').
  unfold write_context, connect_events, connect_with_backoff.
  destruct (client w) as [c|] eqn:Hcl.
  - exists c, (set_client None w). unfold mbind, M_bind, gets, modify, mret, M_ret. simpl.
    rewrite Hcl. split; [done|]. by rewrite app_nil_r.
  - eexists _, _. split.
    { unfold mbind, M_bind, gets, modify, mret, M_ret. simpl. rewrite Hcl. simpl.
      unfold env_op, mbind, M_bind. cbn [env set_client]. rewrite Hc. simpl. reflexivity. }
    done.
Qed.

(** The queued write of a value reaches the PLC and is confirmed. *)
Lemma process_write_up fuel c m v sent mem w :
  inv w → Up mem (env w) → NoDup (ModbusMapping.tag_id <$> ModbusConfig.mappings cfg) →
  writes_words m v sent →
  ∃ w', process_write cfg (S fuel) (WriteRequest.mk (ModbusMapping.tag_id m) v (Some c)) w = (Ret tt, w') ∧
    inv w' ∧ Up (Ranges.stored ModbusFunction.HoldingRegisters (ModbusMapping.address m) sent mem) (env w') ∧
    TagRegistry.defs (registry w') = TagRegistry.defs (registry w) ∧
    log w' = log w ++ connect_events w ++ [EvWrite (ModbusMapping.address m) sent; EvAnswer (Answer tt); EvReply c (Ok tt)].
Proof.
  intros Hw HU Hnd [Hm Hwr Hh (words & Hwords & Hsent)].
  unfold process_write. cbn [WriteRequest.tag_id WriteRequest.value WriteRequest.reply].
  rewrite (find_key ModbusMapping.tag_id _ m Hnd Hm), Hwr. simpl negb. cbv match.
  rewrite Hwords, or_panic_bind, Hh, Hsent, or_panic_bind. unfold write_registers.
  destruct (write_context_up fuel (ModbusMapping.tag_id m) (Some c) mem w HU)
    as (ctx & w1 & H1 & Hr1 & HU1 & Hl1).
  cbv zeta. cbn [WriteRequest.reply negb]. rewrite (bind_ret _ _ _ _ _ H1).
  destruct (up_write _ Hup mem (ModbusConfig.io_timeout_ms cfg) ctx (ModbusMapping.address m) sent
    (env w1) HU1) as (ctx' & e' & Hres & HU2).
  set (mem' := Ranges.stored ModbusFunction.HoldingRegisters (ModbusMapping.address m) sent mem) in *.
  pose proof (up_now _ _ _ (up_reachable _ Hup mem')) as Hnow.
  set (w2 := set_client (Some ctx') (add_event (EvAnswer (Answer tt))
    (set_env e' (add_event (EvWrite (ModbusMapping.address m) sent) w1)))).
  assert (inv w2) as Hw2 by (unfold inv in *; simpl; by rewrite Hr1).
  assert (Up mem' (env w2)) as HU2' by done.
  unfold mbind at 1, M_bind at 1, emit, modify. unfold mbind at 1, M_bind at 1, env_op.
  cbn [env add_event]. rewrite Hres. unfold mbind at 1, M_bind at 1, emit, modify.
  unfold mbind at 1, M_bind at 1. fold w2.
  unfold write_result.
  destruct (now_frame _ Hnow w2 Hw2 HU2') as (t & w3 & H3 & F3 & _). rewrite (bind_ret _ _ _ _ _ H3).
  cbn [WriteRequest.value WriteRequest.reply].
  destruct (update_tag_value_frame _ Hnow (ModbusMapping.tag_id m) v TagQuality.Good t w3)
    as ([] & w4 & H4 & F4 & _); [by destruct F3..|]. rewrite (bind_ret _ _ _ _ _ H4).
  destruct F3, F4. exists (add_event (EvReply c (Ok tt)) w4). split; [done|]. split; [done|].
  split; [done|]. split.
  - simpl. rewrite frame_defs1, frame_defs0. simpl. by rewrite Hr1.
  - simpl. rewrite frame_log1, frame_log0, !app_nil_r. simpl. rewrite Hl1.
    by rewrite <- !(assoc_L (++)).
Qed.

(** A cycle that finds one write in the queue: what it does afterwards is a cycle with an
    empty queue, from the world the write left. *)
Lemma cycle_with_write fuel c m v sent mem e w :
  inv w → TagValue.wf v → NoDup (ModbusMapping.tag_id <$> ModbusConfig.mappings cfg) →
  writes_words m v sent →
  try_recv (env w) = (Received (WriteRequest.mk (ModbusMapping.tag_id m) v (Some c)), e) → Up mem e →
  (∀ mem e, Up mem e → try_recv e = (Empty, e)) →
  ∃ w', run_read_cycle_impl cfg (S fuel) w = run_read_cycle_impl cfg (S fuel) w' ∧
    inv w' ∧ Up (Ranges.stored ModbusFunction.HoldingRegisters (ModbusMapping.address m) sent mem) (env w') ∧
    TagRegistry.defs (registry w') = TagRegistry.defs (registry w) ∧
    log w' = log w ++ [EvReceived (WriteRequest.mk (ModbusMapping.tag_id m) v (Some c))] ++
      connect_events w ++ [EvWrite (ModbusMapping.address m) sent; EvAnswer (Answer tt); EvReply c (Ok tt)].
Proof.
  intros Hw Hv Hnd Hww Hrecv HU Hempty.
  set (req := WriteRequest.mk _ _ _) in *.
  set (w1 := add_event (EvReceived req) (set_env e w)).
  destruct (process_write_up fuel c m v sent mem w1) as (w2 & H2 & Hw2 & HU2 & Hd2 & Hl2); try done.
  assert (∀ n, process_writes cfg (S fuel) (S n) w2 = (Ret tt, w2)) as Hdone.
  { intros n. cbn [process_writes]. unfold mbind, M_bind, env_op. rewrite (Hempty _ _ HU2).
    by destruct w2. }
  exists w2. split; [|split; [done|split; [done|split; [done|]]]].
  - unfold run_read_cycle_impl, mbind, M_bind. rewrite (Hdone 63%nat).
    change (process_writes cfg (S fuel) 64 w) with
      ((r ← env_op try_recv;
        match r with
        | Received req =>
            emit (EvReceived req);; process_write cfg (S fuel) req;; process_writes cfg (S fuel) 63
        | Empty | Disconnected => mret tt
        end) w).
    unfold mbind, M_bind, env_op. rewrite Hrecv. unfold emit, modify. fold w1.
    fold req in H2. rewrite H2.
    by rewrite (Hdone 62%nat).
  - rewrite Hl2. unfold w1. simpl. by rewrite <- !(assoc_L (++)).
Qed.

(** What such a cycle leaves behind: the confirmation is sent, and the value is shown. *)
Lemma cycle_writes_shows fuel c m d v sent mem e w :
  let ms := ModbusConfig.mappings cfg in
  inv w → TagValue.wf v → NoDup (ModbusMapping.tag_id <$> ms) → writes_words m v sent →
  try_recv (env w) = (Received (WriteRequest.mk (ModbusMapping.tag_id m) v (Some c)), e) → Up mem e →
  (∀ mem e, Up mem e → try_recv e = (Empty, e)) →
  Forall ModbusPlan.fits ms → ModbusPlan.validate ms = Ok tt → in_one_request ms m →
  ModbusMapping.bit_offset m = 0 → ModbusMapping.quantity m = Z.of_nat (length sent) →
  TagRegistry.defs (registry w) !! ModbusMapping.tag_id m = Some d →
  TagDefinition.data_type d = ModbusMapping.data_type m →
  TagValue.data_type v = ModbusMapping.data_type m →
  ∃ w' v' l, run_read_cycle_impl cfg (S fuel) w = (Ret tt, w') ∧ inv w' ∧
    TagRegistry.defs (registry w') = TagRegistry.defs (registry w) ∧
    shown w' !! ModbusMapping.tag_id m = Some (v', TagQuality.Good) ∧ ModbusCodec.read_back v v' ∧
    log w' = log w ++ [EvReceived (WriteRequest.mk (ModbusMapping.tag_id m) v (Some c))] ++
      connect_events w ++ [EvWrite (ModbusMapping.address m) sent; EvAnswer (Answer tt); EvReply c (Ok tt)] ++ l.
Proof.
  intros ms Hw Hv Hnd Hww Hrecv HU Hempty Hf Hval Hone Hbit Hq Hd Hdt Hvt.
  destruct (cycle_with_write fuel c m v sent mem e w) as (w1 & Hrun & Hw1 & HU1 & Hd1 & Hl1); try done.
  pose proof (up_reachable _ Hup (Ranges.stored ModbusFunction.HoldingRegisters (ModbusMapping.address m) sent mem)) as Hreach.
  destruct Hww as [Hm Hwr Hh (words & Hwords & Hsent)].
  destruct (cycle_up cfg _ _ Hreach (S fuel) w1 Hf Hval Hw1 HU1 ltac:(lia))
    as (w2 & H2 & Hw2 & _ & Hd2 & Hl2 & _).
  destruct (cycle_shows_written cfg _ _ (S fuel) w1 m d v words sent Hreach Hw1 HU1)
    as (w3 & v' & H3 & Hs3 & Hrb); try done; [lia|by rewrite Hd1|by rewrite Hq; apply Ranges.stored_range|].
  rewrite H2 in H3. injection H3 as <-.
  exists w2, v'. eexists. rewrite Hrun, H2. split; [done|]. split; [done|]. split; [congruence|].
  split; [done|]. split; [done|]. rewrite Hl2, Hl1. rewrite <- !(assoc_L (++)). reflexivity.
Qed.
End cycle.

(** ** The driver as a serving one *)

Section slot.
Context {C : Chrono} {B : ByteOrder} {J : SerdeJson} {Net : ModbusIO}.
Context `{!HashIter ModbusFunction}.
Notation Slot := (ModbusQueue.Slot (Net := Net)).

(** The environment of a driver whose queue is empty, on a network in a given state. *)
Section idle.
Context (Up : (ModbusFunction → Z → Z) → Net.(ModbusIO.Env) → Prop).
Definition idle_up (mem : ModbusFunction → Z → Z) (e : QEnv Net) : Prop :=
  queue e = [] ∧ Up mem (net _ e).

(** A tag, configured so that it can be written and read back. *)
Record served (cfg : ModbusConfig Net.(ModbusIO.SocketAddr)) (m : ModbusMapping) (d : TagDefinition)
    (v : TagValue) (sent : list Z) : Prop := {
  sv_up : plc_up (IO := queued Net) cfg idle_up;
  sv_fits : Forall ModbusPlan.fits (ModbusConfig.mappings cfg);
  sv_valid : ModbusPlan.validate (ModbusConfig.mappings cfg) = Ok tt;
  sv_ids : NoDup (ModbusMapping.tag_id <$> ModbusConfig.mappings cfg);
  sv_words : writes_words (IO := queued Net) cfg m v sent;
  sv_one : in_one_request (ModbusConfig.mappings cfg) m;
  sv_bit : ModbusMapping.bit_offset m = 0;
  sv_quantity : ModbusMapping.quantity m = Z.of_nat (length sent);
  sv_definition : TagDefinition.data_type d = ModbusMapping.data_type m;
  sv_value : TagValue.data_type v = ModbusMapping.data_type m;
  sv_wf : TagValue.wf v;
}.

(** One cycle of the poller with the write queued. *)
Lemma slot_cycle_writes (s : Slot) r mem c m d v sent H :
  served (config s) m d v sent → TagRegistry.wf r → (1 ≤ fuel s)%nat →
  answer_on reply_of (log (world s)) c = None →
  queue (env (world s)) = [exist _ (WriteRequest.mk (ModbusMapping.tag_id m) v (Some c)) H] →
  Up mem (net _ (env (world s))) → TagRegistry.defs r !! ModbusMapping.tag_id m = Some d →
  ∃ s' v', slot_cycle (set_world (set_registry r (world s)) s) = (Ret tt, s') ∧
    answer_on reply_of (log (world s')) c = Some (Ok tt) ∧
    TagRegistry.defs (registry (world s')) = TagRegistry.defs r ∧
    shown (world s') !! ModbusMapping.tag_id m = Some (v', TagQuality.Good) ∧
    ModbusCodec.read_back v v'.
Proof.
  intros [] Hr Hfuel Hans Hq HU Hd. destruct (fuel s) as [|k] eqn:Hk; [lia|].
  set (w := set_registry r (world s)).
  set (e := mkEnv Net [] (net _ (env (world s)))).
  destruct (cycle_writes_shows (config s) idle_up sv_up0 k c m d v sent mem e w)
    as (w' & v' & l & Hrun & Hw' & Hdefs & Hs & Hrb & Hl); try done.
  { unfold w. simpl. unfold pop. by rewrite Hq. }
  { intros mem' e' [He _]. simpl. unfold pop. by rewrite He. }
  exists (set_world w' s), v'. split; [|split; [|done]].
  - unfold slot_cycle. cbn [ProtocolDriver.read_cycle ProtocolDriver.modbus_driver config fuel set_world world].
    unfold ProtocolDriver.boxed. fold w. rewrite Hk, Hrun. done.
  - simpl. rewrite Hl. unfold w. cbn [log set_registry]. rewrite answer_on_app, Hans.
    unfold connect_events. destruct (client _); simpl; unfold answer_on; simpl; by rewrite decide_True.
Qed.

Lemma slot_submit_idle (s : Slot) id v c :
  TagValue.wf v → queue (env (world s)) = [] →
  ∃ s' H, slot_submit id v (Some c) s = Some s' ∧
    queue (env (world s')) = [exist _ (WriteRequest.mk id v (Some c)) H] ∧
    net _ (env (world s')) = net _ (env (world s)) ∧ config s' = config s ∧ fuel s' = fuel s ∧
    log (world s') = log (world s).
Proof.
  intros Hv Hq. unfold slot_submit, push. rewrite Hq. simpl.
  destruct (decide (TagValue.wf v)) as [H|]; [|done]. simpl. eexists _, H. by repeat split.
Qed.
End idle.

(** The driver is idle, on a PLC that is up, with a tag that can be written. *)
Record slot_ready (s : Slot) (id : string) (d : TagDefinition) (v : TagValue) : Prop := {
  ready_fuel : (1 ≤ fuel s)%nat;
  ready_queue : queue (env (world s)) = [];
  ready_served : ∃ Up mem m sent,
    served Up (config s) m d v sent ∧ ModbusMapping.tag_id m = id ∧ Up mem (net _ (env (world s)));
}.

Lemma slot_serves (s : Slot) id d v c :
  slot_ready s id d v → slot_sound s → slot_requested s c = None →
  ∃ s1, slot_submit id v (Some c) s = Some s1 ∧
    ∀ r, TagRegistry.wf r → TagRegistry.defs r !! id = Some d →
      ∃ s2 v', slot_cycle (set_world (set_registry r (world s1)) s1) = (Ret tt, s2) ∧
        answer_on reply_of (log (world s2)) c = Some (Ok tt) ∧
        TagRegistry.defs (registry (world s2)) = TagRegistry.defs r ∧
        shown (world s2) !! id = Some (v', TagQuality.Good) ∧ ModbusCodec.read_back v v'.
Proof.
  intros [Hfuel Hq (Up & mem & m & sent & Hserved & <- & HU)] Hs Hc.
  destruct (slot_submit_idle s (ModbusMapping.tag_id m) v c) as (s1 & H & Hsub & Hq1 & Hn1 & Hc1 & Hf1 & Hl1);
    [apply Hserved|done|].
  exists s1. split; [done|]. intros r Hr Hd.
  assert (answer_on reply_of (log (world s)) c = None) as Hans.
  { destruct (answer_on reply_of (log (world s)) c) as [a|] eqn:Ha; [|done].
    destruct (slot_answer_ok s c a Hs Ha) as (id1 & v1 & Hr1 & _). congruence. }
  apply (slot_cycle_writes Up s1 r mem c m d v sent H); rewrite ?Hc1, ?Hf1, ?Hl1, ?Hn1; done.
Qed.

#[export] Instance modbus_serving : ServingDriver Slot :=
  {| ready_for := slot_ready; serves_write := slot_serves |}.
End slot.
End ModbusServe.
