(* ===== verification/FinsServe.v ===== *)
(** * FINS driver: a write when the PLC is up

    As for the Modbus driver: a cycle that finds one write in its queue, against a PLC
    that is up and answers from its memory.  The PLC is described on the network alone;
    the queue is beside it. *)

From stdpp Require Import base tactics numbers list gmap strings.
From S2P Require Import Prelude Effects RustStd RustStr RustSlice RustMap Ranges Crates TagValue Tag TagDefinition TagStore Registry DriverWorld ModbusTypes ModbusCodec FinsTypes FinsCodec FinsPlan FinsDriver FinsCycle FinsReads DriverApi WritePath FinsQueue.
Local Open Scope Z_scope.

Module FinsServe.
Import WritePath FinsIO RegistryOps FinsDriver FinsCycle FinsReads FinsQueue.
Section serve.
Context {C : Chrono} {BY : Bytes} {B : ByteOrder} {J : SerdeJson} {Net : FinsIO} `{!HashIter Z}.
Notation NetEnv := Net.(FinsIO.Env).
#[local] Instance queue_io : FinsIO := queued Net.

Section up.
Context (cfg : FinsConfig (queued Net).(FinsIO.SocketAddr)) (rgs : list FinsPlan.ReadGroup).
Context (m : TagMapping) (sent : list Z) (Up : (Z → Z → Z) → NetEnv → Prop).

(** A PLC that is up: with memory [mem] it accepts connections, answers the read requests
    of the plan from its memory, and takes the write of [sent] for the mapping [m]. *)
Record fins_up : Prop := {
  up_clock mem e : Up mem e → Up mem (utc_now (FinsIO := Net) e).2;
  up_connect mem e : Up mem e →
    ∃ stream e', connect (FinsIO := Net) (FinsConfig.endpoint cfg) e = (Ok stream, e') ∧ Up mem e';
  up_read mem g sid stream e : g ∈ rgs → is_u8 sid → Up mem e →
    ∃ payload stream' e', exchanged (IO := Net) stream (read_frame sid g) e = Some (Ok payload, stream', e') ∧
      Up mem e' ∧ FinsFrame.parse_fins_response payload = Ok (sid, 0, memory_bytes mem g);
  up_write mem sid stream e : is_u8 sid → Up mem e →
    ∃ payload stream' e' data,
      exchanged (IO := Net) stream (write_frame sid m sent) e = Some (Ok payload, stream', e') ∧
      Up (Ranges.stored (TagMapping.area m) (TagMapping.address m) sent mem) e' ∧
      FinsFrame.parse_fins_response payload = Ok (sid, 0, data);
}.

(** An exchange leaves the queue alone. *)
Lemma exchange_queued stream frame (e : QEnv Net) res stream' n :
  exchanged (IO := Net) stream frame (net _ e) = Some (res, stream', n) →
  exchanged (IO := queue_io) stream frame e = Some (res, stream', set_net _ n e).
Proof.
  unfold exchanged. cbn [write_all read_exact queue_io queued]. unfold await_net.
  destruct (write_all (FinsIO := Net) stream frame (net _ e)) as [[[[[]|err] s1] n1]|]; simpl; [|by intros [= -> -> ->]|done].
  destruct (read_exact (FinsIO := Net) s1 8 n1) as [[[[h|err] s2] n2]|]; simpl; [|by intros [= -> -> ->]|done].
  by intros ->.
Qed.

Lemma on_net_eq {A} (f : NetEnv → A * NetEnv) (e : QEnv Net) a n :
  f (net _ e) = (a, n) → on_net _ f e = (a, set_net _ n e).
Proof. unfold on_net. by intros ->. Qed.

(** The environment in which the queue holds [q], on a network in a given state. *)
Definition up_with (q : list { req : FinsWriteRequest | TagValue.wf (FinsWriteRequest.value req) })
    (mem : Z → Z → Z) (e : QEnv Net) : Prop := queue e = q ∧ Up mem (net _ e).

Context (Hup : fins_up).

Lemma up_with_clock q mem e : up_with q mem e → up_with q mem (utc_now e).2.
Proof.
  intros [Hq HU]. pose proof (up_clock Hup _ _ HU) as H. cbn. unfold on_net.
  destruct (utc_now (FinsIO := Net) (net _ e)) as [t n]. by split.
Qed.

Lemma idle_answering mem : answering cfg (up_with [] mem) mem rgs.
Proof.
  split.
  - intros e [Hq HU]. destruct (up_connect Hup _ _ HU) as (stream & n & Hc & HU').
    exists stream, (set_net _ n e). split; [exact (on_net_eq _ _ _ _ Hc)|by split].
  - intros e [Hq HU]. exists e. cbn. unfold pop. rewrite Hq. by split; [|split].
  - intros g sid stream e Hg Hsid [Hq HU].
    destruct (up_read Hup mem g sid stream _ Hg Hsid HU) as (payload & stream' & n & Hex & HU' & Hp).
    exists payload, stream', (set_net _ n e). split; [exact (exchange_queued _ _ _ _ _ _ Hex)|by split].
Qed.

(** The connection at the start of a cycle, whatever is queued. *)
Lemma ensure_connection_up q mem fuel (w : World) :
  inv w → up_with q mem (env w) → (1 ≤ fuel)%nat →
  ∃ w' stream, ensure_connection cfg fuel w = (Ret tt, w') ∧ registry w' = registry w ∧
    up_with q mem (env w') ∧ conn w' = Some stream ∧ sid_counter w' = sid_counter w ∧
    log w' = log w ++ (if conn w then [] else [EvConnect true]).
Proof using Hup.
  intros Hw [Hq HU] Hf. unfold ensure_connection.
  destruct (conn w) as [stream|] eqn:Hc.
  - exists (set_conn (Some stream) (set_conn None w)), stream.
    rewrite (bind_ret (gets conn) _ w (Some stream) w) by (unfold gets; by rewrite Hc).
    simpl. by rewrite app_nil_r.
  - destruct fuel as [|fuel]; [lia|].
    destruct (up_connect Hup _ _ HU) as (stream & n & Hcon & HU').
    exists (set_conn (IO := queue_io) (Some stream) (add_event (EvConnect true) (set_env (IO := queue_io) (set_net _ n (env w)) (set_conn None w)))), stream.
    rewrite (bind_ret (gets conn) _ w None w) by (unfold gets; by rewrite Hc).
    assert (env_op (E := FinsError.DriverError) (connect (FinsIO := queue_io) (FinsConfig.endpoint cfg)) (set_conn None w) =
      (Ret (Ok stream), set_env (IO := queue_io) (set_net _ n (env w)) (set_conn None w))) as Hop.
    { unfold env_op. cbn [dw_env fins_world env set_conn].
      change (connect (FinsIO := queue_io) (FinsConfig.endpoint cfg) (env w)) with
        (on_net Net (connect (FinsIO := Net) (FinsConfig.endpoint cfg)) (env w)).
      by rewrite (on_net_eq _ _ _ _ Hcon). }
    split; [|done].
    rewrite (bind_ret (modify (set_conn None)) _ w tt (set_conn None w)) by done.
    assert (connect_with_backoff cfg (S fuel) (set_conn None w) = (Ret (Ok stream),
      add_event (EvConnect true) (set_env (IO := queue_io) (set_net _ n (env w)) (set_conn None w)))) as Hcb.
    { unfold connect_with_backoff. simpl connect_loop. by rewrite (bind_ret _ _ _ _ _ Hop). }
    by rewrite (bind_ret _ _ _ _ _ Hcb).
Qed.

(** The words the driver sends for a value of a mapping it may write. *)
Record fins_words (v : TagValue) : Prop := {
  fw_in : m ∈ FinsConfig.mappings cfg;
  fw_writable : TagMapping.writable m = true;
  fw_words : ∃ words, FinsCodec.tagvalue_to_words_standard v = Ok words ∧
               FinsCodec.order_words words (TagMapping.byte_order m) = Some (Some sent);
}.

(** A cycle that finds one write in the queue: what it does afterwards is a cycle with an
    empty queue, from the world the write left. *)
Lemma fins_cycle_with_write fuel c v H mem (w : World) :
  let req := FinsWriteRequest.mk (TagMapping.tag_id m) v (Some c) in
  inv w → up_with [exist _ req H] mem (env w) → is_u8 (sid_counter w) → (1 ≤ fuel)%nat →
  NoDup (TagMapping.tag_id <$> FinsConfig.mappings cfg) → fins_words v →
  ∃ w' payload, run_read_cycle_impl cfg rgs fuel w = run_read_cycle_impl cfg rgs fuel w' ∧
    inv w' ∧ up_with [] (Ranges.stored (TagMapping.area m) (TagMapping.address m) sent mem) (env w') ∧
    is_u8 (sid_counter w') ∧ defs w' = defs w ∧
    log w' = log w ++ (if conn w then [] else [EvConnect true]) ++
      [EvReceived req; EvSend (write_frame (sid_counter w) m sent); EvAnswer (Ok payload);
       EvReply c (Ok tt)].
Proof using Hup.
  intros req Hw HU Hsid Hfuel Hnd [Hm Hwr (words & Hwords & Hsent)].
  set (mem' := Ranges.stored _ _ _ _).
  destruct (ensure_connection_up _ mem fuel w Hw HU Hfuel) as (w1 & stream & H1 & Hr1 & [Hq1 HU1] & Hc1 & Hs1 & Hl1).
  set (w2 := add_event (EvReceived req) (set_env (IO := queue_io) (mkEnv Net [] (net _ (env w1))) w1)).
  destruct (up_write Hup mem (sid_counter w) stream (net _ (env w1)) Hsid HU1)
    as (payload & stream' & n & data & Hex & HU2 & Hparse).
  destruct (process_write_run cfg (up_with [] mem') (up_with_clock [] mem') fuel req m stream stream'
    (Ok payload) (mkEnv Net [] n) words sent w2) as (w3 & H3 & [Hw3 HU3] & Hd3 & Hsid3 & Hc3 & Hl3 & _);
    try done.
  { unfold inv. change (TagRegistry.wf (registry w1)). by rewrite Hr1. }
  { by apply (find_key TagMapping.tag_id). }
  { change (exchanged (IO := queue_io) stream (write_frame (sid_counter w1) m sent)
      (mkEnv Net [] (net _ (env w1))) = Some (Ok payload, stream', mkEnv Net [] n)).
    rewrite Hs1. exact (exchange_queued _ _ (mkEnv Net [] (net _ (env w1))) _ _ _ Hex). }
  assert (∀ k, process_writes cfg fuel k w3 = (Ret tt, w3)) as Hdone.
  { intros [|k]; [done|]. cbn [process_writes]. unfold mbind, M_bind, env_op. cbn. unfold pop.
    destruct HU3 as [Hq3 _]. cbn in Hq3. rewrite Hq3. by destruct w3. }
  assert (process_writes cfg fuel 64 w1 = (Ret tt, w3)) as H64.
  { change (process_writes cfg fuel 64 w1) with
      ((r ← env_op try_recv;
        match r with
        | Received req =>
            emit (EvReceived req);; process_write cfg fuel req;; process_writes cfg fuel 63
        | Empty | Disconnected => mret tt
        end) w1).
    assert (env_op (E := FinsError.DriverError) try_recv w1 =
      (Ret (Received req), set_env (IO := queue_io) (mkEnv Net [] (net _ (env w1))) w1)) as Hpop.
    { unfold env_op. cbn. unfold pop. by rewrite Hq1. }
    rewrite (bind_ret _ _ _ _ _ Hpop). cbv match.
    rewrite (bind_ret (emit _) _ _ tt w2) by done. rewrite (bind_ret _ _ _ _ _ H3). apply Hdone. }
  simpl is_ok in Hc3. cbv match in Hc3.
  assert (ensure_connection cfg fuel w3 = (Ret tt, w3)) as Hens.
  { unfold ensure_connection. rewrite (bind_ret (gets conn) _ w3 (Some stream') w3) by (unfold gets; by rewrite Hc3).
    unfold mbind, M_bind, modify. destruct w3. simpl in Hc3. by rewrite Hc3. }
  exists w3, payload. split; [|split; [done|split; [done|]]].
  - unfold run_read_cycle_impl.
    by rewrite (bind_ret _ _ _ _ _ H1), (bind_ret _ _ _ _ _ H64), (bind_ret _ _ _ _ _ Hens),
      (bind_ret _ _ _ _ _ (Hdone 64%nat)).
  - split; [rewrite Hsid3; auto with bridge|]. split.
    + rewrite Hd3. change (TagRegistry.defs (registry w1) = TagRegistry.defs (registry w)). by rewrite Hr1.
    + rewrite Hl3. change (log w2) with (log w1 ++ [EvReceived req]).
      change (sid_counter w2) with (sid_counter w1). rewrite Hl1, Hs1.
      unfold write_verdict. rewrite Hparse, !Z.eqb_refl. simpl. by rewrite <- !(assoc_L (++)).
Qed.

(** A tag, configured so that it can be written and read back: its words come in one
    request, [g]; no mapping of the configuration is an instant. *)
Record fins_served (g : FinsPlan.ReadGroup) (d : TagDefinition) (v : TagValue) : Prop := {
  fs_fits : Forall FinsPlan.fits (FinsConfig.mappings cfg);
  fs_valid : FinsPlan.validate (FinsConfig.mappings cfg) = Ok tt;
  fs_max : 1 ≤ FinsConfig.max_words_per_request cfg ≤ 65535;
  fs_ids : NoDup (TagMapping.tag_id <$> FinsConfig.mappings cfg);
  fs_plan : eventually (FinsPlan.read_groups (FinsConfig.max_words_per_request cfg)
                          (FinsConfig.mappings cfg)) rgs;
  fs_dates : Forall (λ m, TagMapping.data_type m ≠ TagDataType.DateTime) (FinsConfig.mappings cfg);
  fs_words : fins_words v;
  fs_group : g ∈ rgs ∧ m ∈ FinsPlan.mappings g ∧ FinsPlan.start_address g ≤ TagMapping.address m ∧
    TagMapping.address m + TagMapping.word_count m ≤ FinsPlan.start_address g + FinsPlan.word_count g;
  fs_bit : TagMapping.bit_offset m = 0;
  fs_count : TagMapping.word_count m = Z.of_nat (length sent);
  fs_definition : TagDefinition.data_type d = TagMapping.data_type m;
  fs_value : TagValue.data_type v = TagMapping.data_type m;
  fs_wf : TagValue.wf v;
}.

(** What a cycle with the write in the queue leaves behind: the confirmation is sent, and
    the value is shown. *)
Lemma fins_cycle_writes_shows fuel c v H g d mem (w : World) :
  let req := FinsWriteRequest.mk (TagMapping.tag_id m) v (Some c) in
  fins_served g d v →
  inv w → up_with [exist _ req H] mem (env w) → is_u8 (sid_counter w) → (1 ≤ fuel)%nat →
  defs w !! TagMapping.tag_id m = Some d →
  ∃ w' v', run_read_cycle_impl cfg rgs fuel w = (Ret tt, w') ∧ defs w' = defs w ∧
    shown w' !! TagMapping.tag_id m = Some (v', TagQuality.Good) ∧ ModbusCodec.read_back v v' ∧
    answer_on reply_of (log w') c =
      match answer_on reply_of (log w) c with Some r => Some r | None => Some (Ok tt) end.
Proof using Hup.
  intros req [] Hw HU Hsid Hfuel Hd. destruct fs_group0 as (Hg & Hmg & Hlo & Hhi).
  destruct (fins_cycle_with_write fuel c v H mem w Hw HU Hsid Hfuel) as
    (w1 & payload & Hrun & Hw1 & HU1 & Hsid1 & Hd1 & Hl1); [done..|].
  destruct fs_words0 as [Hm _ (words & Hwords & Hsent)].
  destruct (FinsCodec.decode_sent v (TagMapping.byte_order m) words sent) as (v' & Hdec & Hrb); try done.
  { intros dt ->. rewrite Forall_forall in fs_dates0. destruct (fs_dates0 m); [|by rewrite <- fs_value0].
    done. }
  set (mem' := Ranges.stored _ _ _ _) in *.
  destruct (fins_cycle_reads_tag cfg (up_with [] mem') mem' rgs fuel w1 g m d v') as
    (o & w2 & Hrun2 & Hs2 & Ho2); try done; [apply up_with_clock|apply idle_answering|by rewrite Hd1| |].
  { rewrite fs_bit0, <- fs_value0, fs_count0. unfold mem'. by rewrite Ranges.stored_range. }
  destruct (Hs2 (Ho2 fs_dates0)) as (Hshown & Hd2 & Hl2). rewrite (Ho2 fs_dates0) in Hrun2.
  exists w2, v'. rewrite Hrun, Hrun2, Hd2. split; [done|]. split; [done|]. split; [done|]. split; [done|].
  rewrite Hl2, Hl1, <- !(assoc_L (++)), answer_on_app.
  destruct (answer_on reply_of (log w) c); [done|].
  destruct (conn w); unfold answer_on; simpl; by rewrite decide_True.
Qed.
End up.

(** ** The driver as a serving one *)

Notation Slot := (FinsQueue.Slot (Net := Net)).

(** The driver is idle, on a PLC that is up, with a tag that can be written. *)
Record fins_ready (s : Slot) (id : string) (d : TagDefinition) (v : TagValue) : Prop := {
  fr_fuel : (1 ≤ fuel s)%nat;
  fr_queue : queue (env (world s)) = [];
  fr_sid : is_u8 (sid_counter (world s));
  fr_served : ∃ Up mem m sent g,
    fins_up (config s) (read_groups s) m sent Up ∧
    fins_served (config s) (read_groups s) m sent g d v ∧
    TagMapping.tag_id m = id ∧ Up mem (net _ (env (world s)));
}.

Lemma fins_submit_idle (s : Slot) id v c :
  TagValue.wf v → queue (env (world s)) = [] →
  ∃ s' H, slot_submit id v (Some c) s = Some s' ∧
    env (world s') = mkEnv Net [exist _ (FinsWriteRequest.mk id v (Some c)) H] (net _ (env (world s))) ∧
    config s' = config s ∧ read_groups s' = read_groups s ∧ fuel s' = fuel s ∧
    sid_counter (world s') = sid_counter (world s) ∧ log (world s') = log (world s).
Proof.
  intros Hv Hq. unfold slot_submit, push. rewrite Hq. simpl.
  destruct (decide (TagValue.wf v)) as [H|]; [|done]. simpl. eexists _, H. by repeat split.
Qed.

Lemma fins_slot_serves (s : Slot) id d v c :
  fins_ready s id d v → slot_sound s → slot_requested s c = None →
  ∃ s1, slot_submit id v (Some c) s = Some s1 ∧
    ∀ r, TagRegistry.wf r → TagRegistry.defs r !! id = Some d →
      ∃ s2 v', slot_cycle (set_world (set_registry r (world s1)) s1) = (Ret tt, s2) ∧
        answer_on reply_of (log (world s2)) c = Some (Ok tt) ∧
        TagRegistry.defs (registry (world s2)) = TagRegistry.defs r ∧
        shown (world s2) !! id = Some (v', TagQuality.Good) ∧ ModbusCodec.read_back v v'.
Proof.
  intros [Hfuel Hq Hsid (Up & mem & m & sent & g & Hup & Hserved & <- & HU)] Hs Hc.
  destruct (fins_submit_idle s (TagMapping.tag_id m) v c) as (s1 & H & Hsub & He1 & Hc1 & Hg1 & Hf1 & Hs1 & Hl1);
    [apply Hserved|done|].
  exists s1. split; [done|]. intros r Hr Hd.
  assert (answer_on reply_of (log (world s)) c = None) as Hans.
  { destruct (answer_on reply_of (log (world s)) c) as [a|] eqn:Ha; [|done].
    destruct (fins_slot_answer_ok s c a Hs Ha) as (id1 & v1 & Hr1 & _). congruence. }
  destruct (fins_cycle_writes_shows (config s) (read_groups s) m sent Up Hup (fuel s) c v H g d mem
    (set_registry r (world s1))) as (w & v' & Hrun & Hdefs & Hsh & Hrb & Hl); try done.
  { cbn [env set_registry]. rewrite He1. by split. }
  { cbn [sid_counter set_registry]. by rewrite Hs1. }
  exists (set_world w s1), v'. split; [|split; [|done]].
  - change (slot_cycle ?x) with
      (let '(o, w) := ProtocolDriver.boxed FinsError.to_string
         (run_read_cycle_impl (config s1) (read_groups s1) (fuel s1)) (world x) in (o, set_world w x)).
    unfold ProtocolDriver.boxed. rewrite Hc1, Hg1, Hf1.
    match goal with |- context [run_read_cycle_impl ?c ?g ?f ?w0] =>
      change (run_read_cycle_impl c g f w0) with
        (run_read_cycle_impl (IO := queued Net) (config s) (read_groups s) (fuel s) (set_registry r (world s1))) end.
    by rewrite Hrun.
  - refine (eq_trans Hl _). change (log (set_registry r (world s1))) with (log (world s1)).
    by rewrite Hl1, Hans.
Qed.

#[export] Instance fins_serving : ServingDriver Slot :=
  {| ready_for := fins_ready; serves_write := fins_slot_serves |}.
End serve.
End FinsServe.
