(* ===== verification/RuntimeDriver.v ===== *)
(** * Runtime: the polling wrapper of a driver

    Models runtime/src/runtime_driver.rs: the polling loop with its backoff and health
    events, the check for stale tags, and [start]/[stop].  The wrapper is written
    against the class [ProtocolDriver] and the class [DriverWorld] of the driver's world;
    the ticker, the sleeps and the shutdown signal are an environment. *)

From stdpp Require Import base tactics numbers list gmap strings sorting.
From S2P Require Import Prelude Effects RustStd RustStr RustSlice RustMap Crates CratesRef TagValue Tag TagDefinition TagStore Registry RegistryRef DriverWorld DriverApi.
Local Open Scope Z_scope.

Module RuntimeDriver.
Import ProtocolDriver.
Section defs.
Context {C : Chrono} {J : SerdeJson} {W Env Rest : Type} {DW : DriverWorld W Env Rest}.

(** ** The check for stale tags *)

(** The body of the loop of [check_stale_tags], for one definition. *)
Definition check_stale_tag (plc_name : string) (def : TagDefinition) : M W string unit :=
  if decide (TagDefinition.plc_name def = plc_name) then
    match TagDefinition.stale_after_ms def with
    | None => mret tt
    | Some timeout_ms =>
        r ← gets dw_registry;
        tag ← or_panic (TagRegistry.get_tag r (TagDefinition.id def));
        match tag with
        | Err _ => mret tt
        | Ok tag =>
            timeout ← or_panic (delta_milliseconds (as_i64 timeout_ms));
            now ← RegistryOps.now;
            if Tag.is_stale tag timeout now then
              if decide (Tag.quality tag = TagQuality.Stale) then mret tt
              else RegistryOps.set_tag_quality (TagDefinition.id def) TagQuality.Stale
            else mret tt
        end
    end
  else mret tt.

(** [RuntimeDriver::check_stale_tags] *)
Definition check_stale_tags (plc_name : string) : M W string unit :=
  r ← gets dw_registry;
  for_each (check_stale_tag plc_name) (TagRegistry.all_definitions_sorted r).

(** ** The polling loop *)

Context {D : ProtocolDriver W}.

(** The timers and the shutdown channel of [tokio]. *)
Class Timers := {
  PollEnv : Type;
  (** the outer [select!]: a tick of the interval, or else the shutdown signal *)
  next_tick : PollEnv → bool * PollEnv;
  (** the inner [select!]: whether a sleep of that many seconds elapsed, or else was cut
      short by the shutdown signal *)
  backoff_sleep : Z → PollEnv → bool * PollEnv;
  (** the initial jitter, a sleep in milliseconds *)
  jitter_sleep : Z → PollEnv → PollEnv;
}.
Context {T : Timers}.

(** What the poller does; a health event is offered to the channel with [try_send], which
    drops it when the channel is full. *)
Inductive event :=
| Jitter (ms : Z)
| Backoff (secs : Z)
| Cycle (r : result unit string)
| Health (obj : JsonValue).

Record World := mkWorld { driver : W; timers : PollEnv; log : list event }.

Notation MP := (M World Empty_set).
Definition timer_op {A} (f : PollEnv → A * PollEnv) : MP A := λ w,
  let '(a, t) := f (timers w) in (Ret a, {| driver := driver w; timers := t; log := log w |}).
Definition emit (ev : event) : MP unit :=
  modify (λ w, {| driver := driver w; timers := timers w; log := log w ++ [ev] |}).
(** A call into the driver: its result is a value, its panic one of the task. *)
Definition call {A} (m : M W string A) : MP (result A string) := λ w,
  let '(o, d) := m (driver w) in
  (match o with Ret a => Ret (Ok a) | Fail e => Ret (Err e) | Panic => Panic | Pending => Pending end,
   {| driver := d; timers := timers w; log := log w |}).

(** [RuntimeDriver] *)
Record RuntimeDriver := mk {
  name : string;
  poll_interval : Z;
  (** whether [set_health_sender] was called *)
  health_tx : bool;
  max_backoff_secs : Z;
}.
(** [RuntimeDriver::new]; the interval in milliseconds. *)
Definition new (name : string) (poll_interval : Z) : RuntimeDriver :=
  {| name := name; poll_interval := poll_interval; health_tx := false; max_backoff_secs := 30 |}.
Definition set_health_sender (d : RuntimeDriver) : RuntimeDriver :=
  {| name := name d; poll_interval := poll_interval d; health_tx := true;
     max_backoff_secs := max_backoff_secs d |}.

(** The health events. *)
Definition health_ok (d : RuntimeDriver) (h : JsonValue) : JsonValue :=
  JObject [("plc", JString (name d)); ("status", JString "ok");
           ("detail", JObject [("message", JString "ok"); ("data", h)])]%string.
Definition health_error (d : RuntimeDriver) (e : string) : JsonValue :=
  JObject [("plc", JString (name d)); ("status", JString "error");
           ("detail", JObject [("message", JString e); ("data", JNull)])]%string.

(** Lines 142-160: the health probe after a successful cycle. *)
Definition probe_health (d : RuntimeDriver) : MP unit :=
  if health_tx d then
    h ← call health;
    match h with
    | Ok (Some h) => emit (Health (health_ok d h))
    | Ok None => mret tt
    | Err _ => mret tt
    end
  else mret tt.

(** Lines 178-182: the next backoff. *)
Definition next_backoff (d : RuntimeDriver) (backoff_secs : Z) : Z :=
  if backoff_secs =? 0 then 1
  else Z.min (u64_saturating_mul backoff_secs 2) (max_backoff_secs d).

(** Lines 131-186: one cycle, giving the next backoff. *)
Definition run_cycle (d : RuntimeDriver) (backoff_secs : Z) : MP Z :=
  r ← call read_cycle;
  emit (Cycle r);;
  match r with
  | Ok tt =>
      call (check_stale_tags (name d));;
      probe_health d;;
      mret 0
  | Err e =>
      (if health_tx d then emit (Health (health_error d e)) else mret tt);;
      mret (next_backoff d backoff_secs)
  end.

(** Lines 115-193: the loop. *)
Fixpoint poll_loop (d : RuntimeDriver) (fuel : nat) (backoff_secs : Z) : MP unit :=
  match fuel with
  | O => pending
  | S fuel =>
      tick ← timer_op next_tick;
      if tick : bool then
        elapsed ← (if 0 <? backoff_secs then
                     emit (Backoff backoff_secs);; timer_op (backoff_sleep backoff_secs)
                   else mret true);
        if elapsed : bool then
          backoff_secs ← run_cycle d backoff_secs;
          poll_loop d fuel backoff_secs
        else mret tt
      else mret tt
  end.

(** Lines 101-196: the spawned task; [jitter] is the random number drawn before it is
    spawned, below the interval. *)
Definition poller (d : RuntimeDriver) (jitter : Z) (fuel : nat) : MP unit :=
  let initial_jitter_ms := if 0 <? poll_interval d then jitter else 0 in
  (if 0 <? initial_jitter_ms then
     emit (Jitter initial_jitter_ms);; timer_op (λ t, (tt, jitter_sleep initial_jitter_ms t))
   else mret tt);;
  poll_loop d fuel 0.

(** ** [start] and [stop] *)

(** The handle of the poller, and the value of the shutdown channel. *)
Record Control := mkControl { poll_handle : option nat; shutdown : bool; spawned : nat }.
(** [start]: [spawned] counts the tasks spawned, which are numbered. *)
Definition start (c : Control) : Control :=
  match poll_handle c with
  | Some _ => c
  | None => {| poll_handle := Some (spawned c); shutdown := shutdown c; spawned := S (spawned c) |}
  end.
(** [stop]: the signal, and the handle whose task is awaited. *)
Definition stop (c : Control) : Control * option nat :=
  ({| poll_handle := None; shutdown := true; spawned := spawned c |}, poll_handle c).

(** ** What the check for stale tags does *)

(** The clock after [k] readings, and what the reading after them gives. *)
Definition clock_after (k : nat) (e : Env) : Env := Nat.iter k (λ e, (dw_now e).2) e.
Definition reading (k : nat) (e : Env) : DateTimeUtc := (dw_now (clock_after k e)).1.

Lemma clock_after_plus k n e : clock_after k (clock_after n e) = clock_after (k + n) e.
Proof. unfold clock_after. by rewrite Nat.iter_add. Qed.
Lemma reading_after k n e : reading k (clock_after n e) = reading (k + n) e.
Proof. unfold reading. by rewrite clock_after_plus. Qed.

(** The tag a check at the instant [now] leaves for [t]: marked, at [now'], when its
    source timestamp is more than [ms] milliseconds old or in the future. *)
Definition checked_at (ms : Z) (now now' : DateTimeUtc) (t : Tag) : Tag :=
  let age := signed_duration_since now (Tag.source_timestamp t) in
  if decide ((age < 0 ∨ as_i64 ms * 1000000 < age) ∧ Tag.quality t ≠ TagQuality.Stale)
  then {| Tag.value := Tag.value t; Tag.quality := TagQuality.Stale;
          Tag.source_timestamp := Tag.source_timestamp t; Tag.server_timestamp := now' |}
  else t.
(** The tag [t'] that a check of the PLC, with [n] readings of the clock [e], leaves for a
    tag [t] of definition [d]. *)
Definition checked (plc_name : string) (d : TagDefinition) (n : nat) (e : Env) (t t' : Tag) : Prop :=
  match TagDefinition.stale_after_ms d with
  | Some ms =>
      if decide (TagDefinition.plc_name d = plc_name) then
        ∃ k, (k < n)%nat ∧ t' = checked_at ms (reading k e) (reading (S k) e) t
      else t' = t
  | None => t' = t
  end.

Lemma checked_later plc d n k m e t t' :
  checked plc d n (clock_after k e) t t' → (n + k ≤ m)%nat → checked plc d m e t t'.
Proof.
  unfold checked. intros H Hm. destruct (TagDefinition.stale_after_ms d); [|done].
  destruct (decide _); [|done]. destruct H as (j & Hj & ->). exists (j + k)%nat. split; [lia|].
  by rewrite !reading_after.
Qed.
Lemma checked_at_spec ms now now' t :
  checked_at ms now now' t =
    if Tag.is_stale t (as_i64 ms * 1000000) now && negb (bool_decide (Tag.quality t = TagQuality.Stale))
    then Tag.set_quality t TagQuality.Stale now' else t.
Proof.
  unfold checked_at, Tag.is_stale. cbv zeta.
  set (age := signed_duration_since now (Tag.source_timestamp t)).
  destruct (Z.ltb_spec age 0), (Z.ltb_spec (as_i64 ms * 1000000) age),
    (bool_decide_reflect (Tag.quality t = TagQuality.Stale)); simpl; case_decide; try done; naive_solver lia.
Qed.

(** The timeouts [TimeDelta::milliseconds] does not accept. *)
Definition accepted_timeout (d : TagDefinition) : Prop :=
  ∀ ms, TagDefinition.stale_after_ms d = Some ms → as_i64 ms ≠ - 2 ^ 63.

Notation registry := (dw_registry (W:=W)).
Definition tag_of (w : W) (id : string) : option Tag := TagRegistry.view (registry w) !! id.

(** From [w] to [w'] the registry stays consistent, and nothing else changes but the
    clock. *)
Record same_but_tags (w w' : W) : Prop := {
  sbt_wf : TagRegistry.wf (registry w');
  sbt_defs : TagRegistry.defs (registry w') = TagRegistry.defs (registry w);
  sbt_rest : dw_rest w' = dw_rest w;
}.
Lemma same_but_tags_trans w1 w2 w3 : same_but_tags w1 w2 → same_but_tags w2 w3 → same_but_tags w1 w3.
Proof. intros [] []. constructor; congruence. Qed.

Lemma check_stale_tag_run plc d t w :
  TagRegistry.wf (registry w) → accepted_timeout d →
  TagRegistry.defs (registry w) !! TagDefinition.id d = Some d →
  tag_of w (TagDefinition.id d) = Some t →
  wp (check_stale_tag plc d)
     (λ o w', o = Ret tt ∧ same_but_tags w w' ∧
        (∃ n, (n ≤ 2)%nat ∧ dw_env w' = clock_after n (dw_env w)) ∧
        (∃ t', tag_of w' (TagDefinition.id d) = Some t' ∧ checked plc d 2 (dw_env w) t t') ∧
        ∀ id, id ≠ TagDefinition.id d → tag_of w' id = tag_of w id) w.
Proof.
  intros Hwf Hacc Hd Ht. unfold check_stale_tag, checked.
  assert (same_but_tags w w) as Hrefl by (by constructor).
  assert (∃ n, (n ≤ 2)%nat ∧ dw_env w = clock_after n (dw_env w)) as Henv by (exists 0%nat; split; [lia|done]).
  case_decide as Hplc; [|apply wp_ret; split_and!; eauto; by destruct (TagDefinition.stale_after_ms d); eauto].
  destruct (TagDefinition.stale_after_ms d) as [ms|] eqn:Hms; [|apply wp_ret; by split_and!; eauto].
  apply wp_bind, wp_gets. simpl. rewrite TagRegistry.get_tag_view by done.
  unfold tag_of in *. rewrite Ht, or_panic_bind.
  rewrite delta_milliseconds_ok, or_panic_bind.
  2: { pose proof (as_i64_range ms) as Hr. specialize (Hacc ms Hms). unfold is_i64 in Hr. lia. }
  apply wp_bind. unfold wp at 1, RegistryOps.now, RegistryOps.env_op.
  assert (∃ t', checked_at ms (reading 0 (dw_env w)) (reading 1 (dw_env w)) t = t') as [t' Hck] by by eexists.
  pose proof Hck as Hck'. rewrite checked_at_spec in Hck'.
  unfold reading in Hck'. cbn [clock_after Nat.iter nat_rect] in Hck'.
  destruct (dw_now (dw_env w)) as [now e] eqn:He. simpl in Hck' |- *.
  assert (same_but_tags w (dw_set_env e w)) as Hs.
  { constructor; by rewrite ?dw_registry_env, ?dw_rest_env. }
  assert (∃ n, (n ≤ 2)%nat ∧ dw_env (dw_set_env e w) = clock_after n (dw_env w)) as Henv1.
  { exists 1%nat. split; [lia|]. by rewrite dw_env_set; cbn; rewrite He. }
  assert (∀ t'' : Tag, t'' = t' → ∃ k, (k < 2)%nat ∧
    t'' = checked_at ms (reading k (dw_env w)) (reading (S k) (dw_env w)) t) as Hex.
  { intros t'' ->. exists 0%nat. split; [lia|done]. }
  destruct (Tag.is_stale t (as_i64 ms * 1000000) now) eqn:Hst; simpl in Hck' |- *.
  - destruct (decide (Tag.quality t = TagQuality.Stale)) as [Hq|Hq].
    + rewrite bool_decide_true in Hck' by done. apply wp_ret. rewrite dw_registry_env.
      split_and!; eauto.
    + rewrite bool_decide_false in Hck' by done.
      unfold RegistryOps.set_tag_quality. apply wp_bind. unfold wp at 1, RegistryOps.now, RegistryOps.env_op.
      rewrite dw_env_set. destruct (dw_now e) as [now' e'] eqn:He'. simpl in Hck' |- *.
      apply wp_bind, wp_gets. simpl. rewrite !dw_registry_env.
      destruct (TagRegistry.set_tag_quality_view (registry w) (TagDefinition.id d) TagQuality.Stale now' Hwf)
        as (res & r' & -> & Hwf' & Hdefs' & Hview).
      rewrite or_panic_bind. apply wp_modify. rewrite dw_registry_set.
      unfold TagRegistry.view in *. rewrite Ht in Hview. injection Hview as _ Hview.
      split; [done|]. split.
      { constructor; rewrite ?dw_registry_set, ?dw_rest_registry, ?dw_rest_env; done. }
      split.
      { exists 2%nat. split; [lia|]. rewrite dw_env_registry, dw_env_set. cbn. by rewrite He; cbn; rewrite He'. }
      rewrite Hview. split.
      * exists (Tag.set_quality t TagQuality.Stale now'). rewrite lookup_insert_eq. eauto.
      * intros id Hid. by rewrite lookup_insert_ne.
  - apply wp_ret. rewrite dw_registry_env. split_and!; eauto.
Qed.

Lemma checked_run plc ds w :
  NoDup (TagDefinition.id <$> ds) → TagRegistry.wf (registry w) →
  (∀ d, d ∈ ds → accepted_timeout d ∧ TagRegistry.defs (registry w) !! TagDefinition.id d = Some d) →
  wp (for_each (check_stale_tag plc) ds)
     (λ o w', o = Ret tt ∧ same_but_tags w w' ∧
        (∀ d t, d ∈ ds → tag_of w (TagDefinition.id d) = Some t →
           ∃ t', tag_of w' (TagDefinition.id d) = Some t' ∧
                 checked plc d (2 * length ds) (dw_env w) t t') ∧
        ∀ id, id ∉ TagDefinition.id <$> ds → tag_of w' id = tag_of w id) w.
Proof.
  revert w. induction ds as [|d ds IH]; intros w Hnd Hwf Hds; simpl.
  { apply wp_ret. split_and!; try done. by intros d t ?%not_elem_of_nil. }
  apply NoDup_cons in Hnd as [Hid Hnd]. destruct (Hds d) as [Hacc Hd]; [by left|].
  destruct (TagRegistry.typed_tag _ _ _ _ (TagRegistry.wf_typed _ Hwf) Hd) as (t & Ht & _).
  apply wp_bind. eapply wp_mono; [by apply (check_stale_tag_run plc d t)|].
  intros o w1 (-> & Hs1 & (n & Hn & Henv) & (t1 & Ht1 & Hc1) & Hother1). simpl.
  eapply wp_mono; [apply IH; [done|apply Hs1|]|].
  { intros d' Hd'. rewrite (sbt_defs _ _ Hs1). apply Hds. by right. }
  intros o w2 (-> & Hs2 & Hin2 & Hother2). split; [done|]. split; [by eapply same_but_tags_trans|].
  csimpl. split.
  - intros d' t' [->|Hd']%elem_of_cons Ht'.
    + rewrite (Hother2 _ Hid). unfold tag_of in *. simplify_eq. exists t1. split; [done|].
      apply (checked_later _ _ 2 0 _ _ _ _ Hc1). lia.
    + destruct (Hin2 d' t' Hd') as (t2 & Ht2 & Hc2).
      { rewrite Hother1; [done|].
        intros Heq. apply Hid. rewrite <- Heq. apply list_elem_of_fmap. by exists d'. }
      exists t2. split; [done|]. rewrite Henv in Hc2. eapply checked_later; [exact Hc2|]. lia.
  - intros id [Hne Hnin]%not_elem_of_cons. rewrite Hother2, Hother1; done.
Qed.

(** The whole check. *)
Lemma check_stale_tags_run plc w :
  TagRegistry.wf (registry w) →
  (∀ id d, TagRegistry.defs (registry w) !! id = Some d → accepted_timeout d) →
  wp (check_stale_tags plc)
     (λ o w', o = Ret tt ∧ same_but_tags w w' ∧
        ∀ id d t, TagRegistry.defs (registry w) !! id = Some d → tag_of w id = Some t →
          ∃ t', tag_of w' id = Some t' ∧
                checked plc d (2 * size (TagRegistry.defs (registry w))) (dw_env w) t t') w.
Proof.
  intros Hwf Hacc. unfold check_stale_tags. apply wp_bind, wp_gets. simpl.
  pose proof (TagRegistry.wf_defs _ Hwf) as Hwfd.
  assert (length (TagRegistry.all_definitions_sorted (registry w)) = size (TagRegistry.defs (registry w))) as Hlen.
  { unfold TagRegistry.all_definitions_sorted.
    rewrite TagDefinitionStore.all_definitions_sorted_perm, length_fmap. apply length_map_to_list. }
  eapply wp_mono; [apply checked_run; [|done|]|].
  - apply StronglySorted_str_lt_NoDup, TagDefinitionStore.all_definitions_sorted_strict, Hwfd.
  - intros d Hd. apply TagDefinitionStore.elem_of_all_definitions_sorted in Hd; [|done].
    split; [by eapply Hacc|done].
  - intros o w' (-> & Hs & Hin & _). split; [done|]. split; [done|]. intros id d t Hd Ht.
    destruct (Hwfd id d Hd) as [<- _]. rewrite <- Hlen. apply Hin; [|done].
    by apply TagDefinitionStore.elem_of_all_definitions_sorted.
Qed.

(** With no timeouts the check does nothing at all. *)
Lemma check_stale_tags_idle plc w :
  (∀ id d, TagRegistry.defs (registry w) !! id = Some d → TagDefinition.stale_after_ms d = None) →
  TagRegistry.wf (registry w) →
  check_stale_tags plc w = (Ret tt, w).
Proof.
  intros Hnone Hwf. unfold check_stale_tags, mbind, M_bind, gets.
  assert (∀ d, d ∈ TagRegistry.all_definitions_sorted (registry w) →
    TagDefinition.stale_after_ms d = None) as Hds.
  { intros d Hd. apply TagDefinitionStore.elem_of_all_definitions_sorted in Hd; [|apply Hwf].
    by eapply Hnone. }
  induction (TagRegistry.all_definitions_sorted (registry w)) as [|d ds IH]; [done|].
  simpl. unfold mbind, M_bind, check_stale_tag at 1.
  rewrite (Hds d) by by left. destruct (decide _); apply IH; intros d' Hd'; apply Hds; by right.
Qed.

(** ** What the poller does *)

(** The backoff after that many failures in a row: 1, 2, 4, 8, 16, 30, 30, ... seconds. *)
Definition backoff_of (failures : nat) : Z :=
  match failures with O => 0 | S n => Z.min (2 ^ Z.of_nat n) 30 end.

Lemma backoff_of_pos n : 1 ≤ backoff_of (S n) ≤ 30.
Proof. simpl. pose proof (Z.pow_pos_nonneg 2 (Z.of_nat n)). lia. Qed.

Lemma next_backoff_of d k :
  max_backoff_secs d = 30 → next_backoff d (backoff_of k) = backoff_of (S k).
Proof.
  intros Hmax. unfold next_backoff, u64_saturating_mul. rewrite Hmax. destruct k as [|n]; [done|].
  destruct (Z.eqb_spec (backoff_of (S n)) 0); [pose proof (backoff_of_pos n); lia|].
  unfold backoff_of. rewrite Nat2Z.inj_succ, Z.pow_succ_r by lia. lia.
Qed.

Definition backoff_events (k : nat) : list event :=
  match k with O => [] | S _ => [Backoff (backoff_of k)] end.
(** The report after a cycle: [data] is what the health probe gave. *)
Definition report (d : RuntimeDriver) (status message : string) (data : JsonValue) : list event :=
  if health_tx d then
    [Health (JObject [("plc", JString (name d)); ("status", JString status);
       ("detail", JObject [("message", JString message); ("data", data)])])%string]
  else [].

(** *** The specification of the loop *)

(** Sleeping the backoff of [k] failures in a row: whether it elapsed. *)
Definition slept (k : nat) (t : PollEnv) (elapsed : bool) (t' : PollEnv) : Prop :=
  match k with
  | O => elapsed = true ∧ t' = t
  | S _ => backoff_sleep (backoff_of k) t = (elapsed, t')
  end.
(** The health probe, made only for a health sender: what it reports. *)
Definition probed (d : RuntimeDriver) (x : W) (l : list event) (x' : W) : Prop :=
  if health_tx d then
    match health x with
    | (Ret (Some h), x1) => l = report d "ok" "ok" h ∧ x' = x1
    | (Ret None, x1) | (Fail _, x1) => l = [] ∧ x' = x1
    | _ => False
    end
  else l = [] ∧ x' = x.

(** [polls d n k x t o l x' t']: allowed [n] ticks, after [k] failures in a row, from the
    driver's world [x] and the timers [t], the poller ends as [o], having done [l]. *)
Inductive polls (d : RuntimeDriver) :
    nat → nat → W → PollEnv → outcome Empty_set unit → list event → W → PollEnv → Prop :=
| polls_waits k x t : polls d O k x t Pending [] x t
| polls_told n k x t t' :
    next_tick t = (false, t') → polls d (S n) k x t (Ret tt) [] x t'
| polls_told_in_backoff n k x t t1 t' :
    next_tick t = (true, t1) → slept k t1 false t' →
    polls d (S n) k x t (Ret tt) (backoff_events k) x t'
| polls_blocked n k x t t1 t' x' :
    next_tick t = (true, t1) → slept k t1 true t' → read_cycle x = (Pending, x') →
    polls d (S n) k x t Pending (backoff_events k) x' t'
| polls_succeeded n k x t t1 t2 x1 x2 l0 x3 o l x' t' :
    next_tick t = (true, t1) → slept k t1 true t2 →
    read_cycle x = (Ret tt, x1) → check_stale_tags (name d) x1 = (Ret tt, x2) → probed d x2 l0 x3 →
    polls d n O x3 t2 o l x' t' →
    polls d (S n) k x t o (backoff_events k ++ Cycle (Ok tt) :: l0 ++ l) x' t'
| polls_failed n k x t t1 t2 e x1 o l x' t' :
    next_tick t = (true, t1) → slept k t1 true t2 → read_cycle x = (Fail e, x1) →
    polls d n (S k) x1 t2 o l x' t' →
    polls d (S n) k x t o (backoff_events k ++ Cycle (Err e) :: report d "error" e JNull ++ l) x' t'.

(** What the poller relies on of the driver: from worlds satisfying [I], a cycle does not
    panic, the health probe answers, and the check for stale tags ends. *)
Record contract (plc : string) (I : W → Prop) : Prop := {
  c_cycle w : I w → ∃ o w', read_cycle w = (o, w') ∧ o ≠ Panic ∧ I w';
  c_health w : I w → ∃ o w', health w = (o, w') ∧ o ≠ Panic ∧ o ≠ Pending ∧ I w';
  c_check w : I w → ∃ w', check_stale_tags plc w = (Ret tt, w') ∧ I w';
}.

Section loop.
Context (d : RuntimeDriver) (I : W → Prop) (HC : contract (name d) I).
Context (Hmax : max_backoff_secs d = 30).

Lemma call_eq {A} (m : M W string A) w o x :
  m (driver w) = (o, x) →
  call m w =
    (match o with Ret a => Ret (Ok a) | Fail e => Ret (Err e) | Panic => Panic | Pending => Pending end,
     {| driver := x; timers := timers w; log := log w |}).
Proof. intros H. unfold call. by rewrite H. Qed.

Lemma probe_health_run w :
  I (driver w) →
  wp (probe_health d)
     (λ o w', o = Ret tt ∧ I (driver w') ∧ timers w' = timers w ∧
        ∃ l, log w' = log w ++ l ∧ probed d (driver w) l (driver w')) w.
Proof using HC.
  intros Hw. unfold probe_health, probed, report. destruct (health_tx d).
  2: { apply wp_ret. split_and!; try done. exists []. by rewrite app_nil_r. }
  destruct (c_health _ _ HC _ Hw) as (o & x & Hh & Hnp & Hne & Hx).
  apply wp_bind. unfold wp at 1. rewrite (call_eq _ _ _ _ Hh), Hh.
  destruct o as [[h|]|e| |]; simpl; try done.
  - unfold wp, emit, modify. simpl. split_and!; try done. by eexists.
  - apply wp_ret. split_and!; try done. exists []. by rewrite app_nil_r.
  - apply wp_ret. split_and!; try done. exists []. by rewrite app_nil_r.
Qed.

(** A cycle, and the failures in a row after it. *)
Inductive cycled (k : nat) (x : W) : outcome Empty_set Z → list event → nat → W → Prop :=
| cycled_blocked x' : read_cycle x = (Pending, x') → cycled k x Pending [] k x'
| cycled_ok x1 x2 l x' :
    read_cycle x = (Ret tt, x1) → check_stale_tags (name d) x1 = (Ret tt, x2) → probed d x2 l x' →
    cycled k x (Ret (backoff_of 0)) (Cycle (Ok tt) :: l) 0 x'
| cycled_failed e x' :
    read_cycle x = (Fail e, x') →
    cycled k x (Ret (backoff_of (S k))) (Cycle (Err e) :: report d "error" e JNull) (S k) x'.

Lemma run_cycle_run k w :
  I (driver w) →
  wp (run_cycle d (backoff_of k))
     (λ o w', I (driver w') ∧ timers w' = timers w ∧
        ∃ l k', log w' = log w ++ l ∧ cycled k (driver w) o l k' (driver w')) w.
Proof using HC Hmax.
  intros Hw. unfold run_cycle.
  destruct (c_cycle _ _ HC _ Hw) as (o & w1 & Hc & Hnp & Hw1).
  apply wp_bind. unfold wp at 1. rewrite (call_eq _ _ _ _ Hc).
  destruct o as [[]|e| |]; simpl; [| |done|].
  - apply wp_bind. unfold wp at 1. simpl.
    destruct (c_check _ _ HC _ Hw1) as (w2 & Hk & Hw2).
    apply wp_bind. unfold wp at 1. erewrite (call_eq _ _ _ w2) by exact Hk. simpl.
    apply wp_bind. eapply wp_mono; [by apply probe_health_run|].
    intros o w3 (-> & Hw3 & Ht & l & Hl & Hp). simpl. apply wp_ret. simpl in *.
    split; [done|]. split; [done|]. exists (Cycle (Ok tt) :: l), 0%nat.
    split; [by rewrite Hl, <- (assoc_L (++))|by eapply cycled_ok].
  - apply wp_bind. unfold wp at 1. simpl. apply wp_bind. rewrite next_backoff_of by done.
    pose proof (cycled_failed k (driver w) e w1 Hc) as Hev. unfold report in Hev.
    destruct (health_tx d) eqn:Htx; [unfold wp at 1|apply wp_ret]; simpl; apply wp_ret; simpl;
      (split; [done|]); (split; [done|]); do 2 eexists; (split; [|exact Hev]);
      by rewrite <- ?(assoc_L (++)).
  - split; [done|]. split; [done|]. exists [], k. rewrite app_nil_r. split; [done|].
    by apply cycled_blocked.
Qed.

Definition polled (n k : nat) (w : World) (o : outcome Empty_set unit) (w' : World) : Prop :=
  ∃ l, log w' = log w ++ l ∧ polls d n k (driver w) (timers w) o l (driver w') (timers w').

Lemma polled_round n k w t1 w1 w2 w' o b l k' :
  next_tick (timers w) = (true, t1) → slept k t1 true (timers w2) → 
  driver w1 = driver w → log w1 = log w ++ backoff_events k →
  log w2 = log w1 ++ l → cycled k (driver w1) (Ret b) l k' (driver w2) →
  polled n k' w2 o w' → polled (S n) k w o w'.
Proof.
  intros Ht Hs Hd Hl1 Hl2 Hc (l' & Hl' & Hp). rewrite Hd in Hc.
  exists (backoff_events k ++ l ++ l'). split.
  { rewrite Hl', Hl2, Hl1. by rewrite <- !(assoc_L (++)). }
  inversion Hc; subst; simpl.
  - by eapply polls_succeeded.
  - by eapply polls_failed.
Qed.

(** The backoff before a cycle. *)
Definition pause (b : Z) : MP bool :=
  if 0 <? b then emit (Backoff b);; timer_op (backoff_sleep b) else mret true.

Lemma pause_run k w :
  wp (pause (backoff_of k))
     (λ o w', driver w' = driver w ∧ log w' = log w ++ backoff_events k ∧
        match k with
        | O => o = Ret true ∧ timers w' = timers w
        | S _ => (o, timers w') = (Ret (backoff_sleep (backoff_of k) (timers w)).1,
                                   (backoff_sleep (backoff_of k) (timers w)).2)
        end) w.
Proof.
  unfold pause. destruct k as [|n].
  { apply wp_ret. simpl. by rewrite app_nil_r. }
  rewrite (proj2 (Z.ltb_lt 0 _)) by (pose proof (backoff_of_pos n); lia).
  apply wp_bind. unfold wp at 1. simpl. unfold wp, timer_op. simpl.
  by destruct (backoff_sleep _ (timers w)).
Qed.

Lemma poll_loop_run fuel k w :
  I (driver w) → wp (poll_loop d fuel (backoff_of k)) (polled fuel k w) w.
Proof using HC Hmax.
  revert k w. induction fuel as [|fuel IH]; intros k w Hw.
  { apply wp_pending. exists []. rewrite app_nil_r. split; [done|constructor]. }
  change (wp (tick ← timer_op next_tick;
    if tick : bool then
      elapsed ← pause (backoff_of k);
      if elapsed : bool then
        backoff_secs ← run_cycle d (backoff_of k); poll_loop d fuel backoff_secs
      else mret tt
    else mret tt) (polled (S fuel) k w) w).
  apply wp_bind. unfold wp at 1, timer_op. destruct (next_tick (timers w)) as [[] t1] eqn:Htick; simpl.
  2: { apply wp_ret. exists []. rewrite app_nil_r. split; [done|by apply polls_told]. }
  apply wp_bind. eapply wp_mono; [apply pause_run|]. simpl.
  intros o w1 (Hd1 & Hl1 & Ho). assert (∃ b, o = Ret b ∧ slept k t1 b (timers w1)) as (b & -> & Hsl).
  { unfold slept. destruct k; [destruct Ho as [-> ->]; by eexists|]. injection Ho as -> ->.
    eexists. split; [done|]. by destruct (backoff_sleep _ t1). }
  simpl. destruct b.
  - apply wp_bind. eapply wp_mono; [apply run_cycle_run; by rewrite Hd1|].
    intros o w2 (Hw2 & Ht2 & l & k' & Hl2 & Hc).
    assert (slept k t1 true (timers w2)) as Hsl2 by by rewrite Ht2.
    assert (∀ b, o = Ret b → b = backoff_of k') as Hb by (inversion Hc; congruence).
    destruct o as [b|e| |]; simpl; [|by inversion Hc|by inversion Hc|].
    + rewrite (Hb b eq_refl). eapply wp_mono; [by apply IH|]. intros o' w3 H3.
      eapply polled_round; [exact Htick|exact Hsl2|exact Hd1|exact Hl1|exact Hl2|exact Hc|exact H3].
    + exists (backoff_events k). inversion Hc; subst. rewrite app_nil_r in Hl2.
      split; [congruence|]. rewrite <- Hd1. eapply polls_blocked; [exact Htick|done|done].
  - apply wp_ret. exists (backoff_events k). split; [done|]. rewrite Hd1.
    by eapply polls_told_in_backoff.
Qed.

(** The shutdown signal comes: after finitely many ticks the poller is told to stop. *)
Inductive stops : PollEnv → Prop :=
| stops_now t t' : next_tick t = (false, t') → stops t
| stops_later t t' :
    next_tick t = (true, t') → stops t' →
    (∀ b t'', backoff_sleep b t' = (true, t'') → stops t'') → stops t.

(** A round that begins with a tick. *)
Lemma poll_loop_tick k w t' o1 w1 fuel :
  next_tick (timers w) = (true, t') →
  pause (backoff_of k) {| driver := driver w; timers := t'; log := log w |} = (o1, w1) →
  poll_loop d (S fuel) (backoff_of k) w =
    match o1 with
    | Ret true => (backoff_secs ← run_cycle d (backoff_of k); poll_loop d fuel backoff_secs) w1
    | Ret false => (Ret tt, w1)
    | Fail e => (Fail e, w1) | Panic => (Panic, w1) | Pending => (Pending, w1)
    end.
Proof.
  intros Ht Hpause. change (poll_loop d (S fuel) (backoff_of k) w) with
    ((tick ← timer_op next_tick;
      if tick : bool then
        elapsed ← pause (backoff_of k);
        if elapsed : bool then
          backoff_secs ← run_cycle d (backoff_of k); poll_loop d fuel backoff_secs
        else mret tt
      else mret tt) w).
  unfold timer_op at 1. unfold mbind at 1, M_bind at 1. rewrite Ht.
  unfold mbind at 1, M_bind at 1. rewrite Hpause. by destruct o1 as [[]|e| |].
Qed.

Lemma poll_loop_stops t k w :
  (∀ w, I w → (read_cycle w).1 ≠ Pending) →
  stops t → timers w = t → I (driver w) →
  ∃ n, ∀ fuel, (n ≤ fuel)%nat → (poll_loop d fuel (backoff_of k) w).1 = Ret tt.
Proof using HC Hmax.
  intros Hend Hs. revert k w. induction Hs as [t t' Ht|t t' Ht Hs IH Hs' IH']; intros k w Hw HI.
  { exists 1%nat. intros [|fuel] Hf; [lia|]. simpl. unfold mbind, M_bind, timer_op.
    by rewrite Hw, Ht. }
  set (w0 := {| driver := driver w; timers := t'; log := log w |}).
  pose proof (pause_run k w0) as Hp. unfold wp in Hp.
  destruct (pause (backoff_of k) w0) as [o1 w1] eqn:Hpause. simpl in Hp.
  destruct Hp as (Hd1 & Hl1 & Ho).
  pose proof (λ fuel, poll_loop_tick k w t' o1 w1 fuel ltac:(by rewrite Hw) Hpause) as Hstep.
  assert (∃ b, o1 = Ret b ∧ (b = true → stops (timers w1) ∧
    ∀ k w', timers w' = timers w1 → I (driver w') →
      ∃ n, ∀ fuel, (n ≤ fuel)%nat → (poll_loop d fuel (backoff_of k) w').1 = Ret tt)) as (b & -> & Hb).
  { destruct k as [|k]; [destruct Ho as [-> Ht1]|injection Ho as -> Ht1].
    - exists true. split; [done|]. intros _. rewrite Ht1. split; [done|]. intros. by eapply IH.
    - destruct (backoff_sleep (backoff_of (S k)) t') as [b t2] eqn:Hsl. exists b.
      change (timers w0) with t' in *. unfold backoff_of in Hsl. rewrite Hsl in *.
      split; [done|]. intros ->. rewrite Ht1. simpl. split; [by eapply Hs'|].
      intros. by eapply IH'. }
  destruct b; [|exists 1%nat; intros [|fuel] Hf; [lia|]; by rewrite Hstep].
  destruct (Hb eq_refl) as [_ Hrec].
  destruct (wp_exists _ _ _ (run_cycle_run k w1 ltac:(by rewrite Hd1)))
    as (o2 & w2 & Hrun & Hw2 & Ht2 & l2 & k' & _ & Hc).
  assert (o2 = Ret (backoff_of k')) as ->.
  { inversion Hc; subst; try done. exfalso. apply (Hend (driver w1)); [by rewrite Hd1|].
    by match goal with H : read_cycle _ = _ |- _ => rewrite H end. }
  destruct (Hrec k' w2 Ht2 Hw2) as [n Hn].
  exists (S n). intros [|fuel] Hf; [lia|]. rewrite Hstep.
  rewrite (bind_ret _ _ _ _ _ Hrun). apply Hn. lia.
Qed.
End loop.
End defs.

(** ** Properties *)

Section properties.
Context {C : Chrono} {J : SerdeJson} {W Env Rest : Type} {DW : DriverWorld W Env Rest}.
Context {D : ProtocolDriver W} {T : Timers}.

(** C36: the check for stale tags never panics, for timeouts [chrono] accepts; it gives
    the quality Stale to exactly the tags of its PLC that have a timeout, whose source
    timestamp is, by one of the first readings of the clock (at most two for each
    definition), older than the timeout or in the future, and that are not yet stale; the
    mark is stamped with the reading after it.  It changes no value, no source timestamp
    and no other tag. *)
Theorem stale_tags_marked (plc : string) (w : W) :
  TagRegistry.wf (dw_registry w) →
  (∀ id d, TagRegistry.defs (dw_registry w) !! id = Some d → accepted_timeout d) →
  wp (check_stale_tags plc)
     (λ o w', o = Ret tt ∧ same_but_tags w w' ∧
        ∀ id d t, TagRegistry.defs (dw_registry w) !! id = Some d → tag_of w id = Some t →
          ∃ t', tag_of w' id = Some t' ∧
                checked plc d (2 * size (TagRegistry.defs (dw_registry w))) (dw_env w) t t') w.
Proof. apply check_stale_tags_run. Qed.

(** C34: the poller does exactly what the specification [polls] says, after the jitter:
    at each tick it sleeps the backoff of the failures in a row before it (1, 2, 4, 8, 16
    and then always 30 seconds, nothing after a success), runs one cycle, and after a
    success checks for stale tags and reports what the health probe gave, after a failure
    reports its message (reports only with a health sender); it ends only when the
    shutdown signal comes instead of a tick or cuts a backoff short, and hangs only in a
    cycle that does.  If no cycle does, the poller ends after the shutdown signal. *)
Theorem poller_rounds (d : RuntimeDriver) (I : W → Prop) (jitter : Z) (w : World) :
  contract (name d) I → max_backoff_secs d = 30 → I (driver w) →
  let jittered := bool_decide (0 < poll_interval d ∧ 0 < jitter) in
  let t := if jittered then jitter_sleep jitter (timers w) else timers w in
  (∀ fuel o w', poller d jitter fuel w = (o, w') →
     ∃ l, log w' = log w ++ (if jittered then [Jitter jitter] else []) ++ l ∧
          polls d fuel 0 (driver w) t o l (driver w') (timers w')) ∧
  ((∀ w, I w → (read_cycle w).1 ≠ Pending) → stops t →
   ∃ n, ∀ fuel, (n ≤ fuel)%nat → (poller d jitter fuel w).1 = Ret tt).
Proof.
  intros HC Hmax HI jittered t.
  set (w1 := {| driver := driver w; timers := t;
                log := log w ++ (if jittered then [Jitter jitter] else []) |}).
  assert (∀ fuel, poller d jitter fuel w = poll_loop d fuel 0 w1) as Hpoller.
  { intros fuel. unfold poller. subst w1 t jittered.
    destruct (Z.ltb_spec 0 (poll_interval d)).
    - destruct (Z.ltb_spec 0 jitter).
      + by rewrite bool_decide_true.
      + rewrite bool_decide_false by lia. rewrite app_nil_r. by destruct w.
    - rewrite bool_decide_false by lia. rewrite app_nil_r. by destruct w. }
  split.
  - intros fuel o w' Hrun. rewrite Hpoller in Hrun.
    pose proof (poll_loop_run d I HC Hmax fuel 0 w1 HI) as H. unfold wp in H.
    change (backoff_of 0) with 0 in H. rewrite Hrun in H.
    destruct H as (l & Hl & Hp). exists l. split; [|exact Hp]. cbn [snd log w1] in Hl.
    by rewrite Hl, <- (assoc_L (++)).
  - intros Hend Hs. destruct (poll_loop_stops d I HC Hmax t 0 w1 Hend Hs eq_refl HI) as [n Hn].
    exists n. intros fuel Hf. rewrite Hpoller. by apply Hn.
Qed.
End properties.

Section witnesses.
Import RegistryRef.
Local Existing Instances CratesRef.chrono_ref CratesRef.json_ref.

(** A driver that fails as often as its counter says, with the registry of one tag. *)
Definition hot : TagDefinition :=
  {| TagDefinition.id := "hot"; TagDefinition.name := "hot"; TagDefinition.address := "10";
     TagDefinition.data_type := TagDataType.UInt16; TagDefinition.writable := false;
     TagDefinition.byte_order := WordOrder.ABCD; TagDefinition.stale_after_ms := Some 1000;
     TagDefinition.metadata := None; TagDefinition.plc_name := "plc" |}.
Record RefWorld := mkRef { ref_reg : TagRegistry; clock : Z; failing : nat }.
Program Definition ref_world : DriverWorld RefWorld Z nat := {|
  dw_registry := ref_reg; dw_env := clock; dw_rest := failing;
  dw_set_registry r w := {| ref_reg := r; clock := clock w; failing := failing w |};
  dw_set_env e w := {| ref_reg := ref_reg w; clock := e; failing := failing w |};
  dw_now e := (e, e + 1)
|}.
Solve Obligations with done.
Local Existing Instance ref_world.
Definition ref_cycle (w : RefWorld) : outcome string unit * RefWorld :=
  match failing w with
  | O => (Ret tt, w)
  | S n => (Fail "Timeout"%string, {| ref_reg := ref_reg w; clock := clock w; failing := n |})
  end.
Definition ref_driver : ProtocolDriver RefWorld :=
  {| validate := Ok tt; read_cycle := ref_cycle; health := mret None |}.
Local Existing Instance ref_driver.
(** The shutdown signal comes after as many ticks as the timers count. *)
Definition timers_ref : Timers :=
  {| PollEnv := nat;
     next_tick n := match n with O => (false, O) | S n => (true, n) end;
     backoff_sleep _ n := (true, n); jitter_sleep _ n := n |}.
Local Existing Instance timers_ref.

(** Two seconds after the epoch; the tag was last touched at the epoch. *)
Definition hot_world (failing : nat) : RefWorld := mkRef (ref_registry [hot]) 2000000000 failing.
Lemma hot_wf : TagRegistry.wf (ref_registry [hot]).
Proof. apply ref_registry_wf. vm_refl. Qed.
Lemma hot_timeouts id d : TagRegistry.defs (ref_registry [hot]) !! id = Some d → accepted_timeout d.
Proof.
  intros Hd. change (TagRegistry.defs (ref_registry [hot])) with
    (<["hot"%string := hot]> (∅ : gmap string TagDefinition)) in Hd.
  apply lookup_insert_Some in Hd as [[_ <-]|[_ Hd]]; [|by rewrite lookup_empty in Hd].
  by intros ms [= <-].
Qed.
Definition hot_after : RefWorld := (check_stale_tags "plc" (hot_world 0)).2.
Lemma hot_stale :
  Tag.quality <$> tag_of hot_after "hot" = Some TagQuality.Stale.
Proof. vm_refl. Qed.

Lemma stale_tags_marked_witness :
  ∃ w', check_stale_tags "plc" (hot_world 0) = (Ret tt, w') ∧
    Tag.quality <$> tag_of w' "hot" = Some TagQuality.Stale.
Proof.
  exists hot_after. split; [|exact hot_stale].
  pose proof (stale_tags_marked "plc" (hot_world 0) hot_wf hot_timeouts) as [H _].
  exact (run_eq _ _ _ H).
Defined.

(** The invariant of the example: the registry's tags may be stale. *)
Definition hot_inv (w : RefWorld) : Prop :=
  TagRegistry.wf (ref_reg w) ∧ TagRegistry.defs (ref_reg w) = TagRegistry.defs (ref_registry [hot]).
Lemma hot_contract : contract "plc" hot_inv.
Proof.
  constructor.
  - intros w Hw. cbn. unfold ref_cycle. destruct (failing w); by do 2 eexists.
  - intros w Hw. by do 2 eexists.
  - intros w [Hwf Hd].
    assert (∀ id d, TagRegistry.defs (ref_reg w) !! id = Some d → accepted_timeout d) as Hacc.
    { rewrite Hd. exact hot_timeouts. }
    destruct (wp_exists _ _ _ (check_stale_tags_run (DW:=ref_world) "plc" w Hwf Hacc)) as (o & w' & Hrun & -> & Hs & _).
    exists w'. split; [exact Hrun|]. destruct Hs as [Hwf' Hd' _].
    split; [exact Hwf'|]. exact (eq_trans Hd' Hd).
Qed.

Definition reporter : RuntimeDriver := set_health_sender (new "plc" 100).
Definition poll_start : World := {| driver := hot_world 3; timers := 5%nat; log := [] |}.
Lemma ref_ticks (n : nat) : stops (n : @PollEnv timers_ref).
Proof.
  induction n as [|n IH]; [by eapply stops_now|].
  eapply stops_later; [reflexivity|exact IH|]. by intros b t [= <-].
Qed.
Lemma hot_start : hot_inv (driver poll_start).
Proof. split; [apply hot_wf|done]. Qed.

Lemma poller_rounds_witness :
  (∃ l x t, polls reporter 6 0 (driver poll_start) 5%nat (Ret tt) (Cycle (Err "Timeout"%string) :: l) x t) ∧
  ∃ n, ∀ fuel, (n ≤ fuel)%nat → (poller reporter 40 fuel poll_start).1 = Ret tt.
Proof.
  destruct (poller_rounds reporter hot_inv 40 poll_start hot_contract eq_refl hot_start) as [Hrun Hend].
  split.
  - destruct (poller reporter 40 6 poll_start) as [o w'] eqn:Hp.
    destruct (Hrun 6%nat o w' Hp) as (l & Hl & Hpolls).
    vm_compute in Hp. injection Hp as <- <-. vm_compute in Hl. injection Hl as <-.
    by do 3 eexists.
  - apply Hend; [|apply ref_ticks].
    intros w _. cbn. unfold ref_cycle. destruct (failing w); discriminate.
Defined.
Lemma reporter_log :
  log (poll_loop reporter 6 0 poll_start).2 =
    [Cycle (Err "Timeout"); Health (health_error reporter "Timeout"); Backoff 1;
     Cycle (Err "Timeout"); Health (health_error reporter "Timeout"); Backoff 2;
     Cycle (Err "Timeout"); Health (health_error reporter "Timeout"); Backoff 4;
     Cycle (Ok tt); Cycle (Ok tt)]%string.
Proof. vm_refl. Qed.
End witnesses.
End RuntimeDriver.
