(* ===== verification/Shutdown.v ===== *)
(** * Runtime: shutdown while a PLC is unreachable

    The poller of runtime/src/runtime_driver.rs looks at the shutdown signal between
    cycles and during its own backoff; the reconnect loops of driver/{fins,modbus}/src/
    driver.rs, which run inside a cycle, do not look at it.  This file composes the two:
    with a PLC that cannot be reached the poller is still in its first cycle however
    long one waits, so [RuntimeDriver::stop], which awaits the poller's task, does not
    return.  The FINS driver sets no time limit on its exchanges either, so the same
    holds for a PLC that takes its requests and never answers. *)

From stdpp Require Import base tactics numbers list gmap strings.
From S2P Require Import Prelude Effects RustStd RustStr RustSlice RustMap Crates CratesRef TagValue Tag TagDefinition TagStore Registry RegistryRef DriverWorld ModbusTypes ModbusCodec ModbusPlan ModbusDriver FinsTypes FinsCodec FinsPlan FinsDriver FinsRef FinsCycle DriverApi RuntimeDriver.
Local Open Scope Z_scope.

Module Shutdown.
#[local] Existing Instances FinsDriver.fins_world ProtocolDriver.modbus_world.

(** A run that is still going after its first part is still going. *)
Lemma bind_pending {W E A B} (m : M W E A) (k : A → M W E B) w :
  (m w).1 = Pending → ((m ≫= k) w).1 = Pending.
Proof. unfold mbind, M_bind. by destruct (m w) as [[] ?]. Qed.

Lemma bind_never {W E A B} (m : M W E A) (k : A → M W E B) (P : A → Prop) w :
  ((m w).1 = Pending ∨ ∃ a w', m w = (Ret a, w') ∧ P a) →
  (∀ a w', P a → (k a w').1 = Pending) → ((m ≫= k) w).1 = Pending.
Proof.
  intros [Hm|(a & w' & Hm & Ha)] Hk; [by apply bind_pending|]. rewrite (bind_ret _ _ _ _ _ Hm). by apply Hk.
Qed.

Section blocked.
Context {C : Chrono} {BY : Bytes} {B : ByteOrder} {J : SerdeJson}.

(** ** The drivers *)

Section fins.
Context {IO : FinsIO} (config : FinsConfig FinsIO.SocketAddr) (rgs : list FinsPlan.ReadGroup).
Definition fins_unreachable : Prop :=
  ∀ e, is_err (FinsIO.connect (FinsConfig.endpoint config) e).1 = true.

Lemma fins_connect_blocked fuel b w :
  fins_unreachable → (FinsDriver.connect_loop config fuel b w).1 = Pending.
Proof.
  intros Hun. revert b w. induction fuel as [|fuel IH]; intros b w; [done|]. simpl.
  unfold mbind, M_bind, RegistryOps.env_op. simpl. specialize (Hun (FinsDriver.env w)).
  destruct (FinsIO.connect _ _) as [[s|e] e1]; [done|]. simpl. apply IH.
Qed.

Lemma fins_cycle_blocked fuel w :
  fins_unreachable → FinsDriver.conn w = None →
  (FinsDriver.run_read_cycle_impl config rgs fuel w).1 = Pending.
Proof.
  intros Hun Hc. unfold FinsDriver.run_read_cycle_impl. apply bind_pending.
  unfold FinsDriver.ensure_connection. unfold mbind at 1, M_bind at 1, gets. rewrite Hc.
  unfold mbind at 1, M_bind at 1, modify. apply bind_pending. by apply fins_connect_blocked.
Qed.

(** A PLC that takes requests and never answers: there is no limit on the time an
    exchange takes. *)
Definition fins_silent : Prop :=
  ∀ stream frame e, FinsDriver.exchanged stream frame e = None.

Lemma fins_read_group_silent fuel g w :
  fins_silent → FinsCycle.inv w → (FinsDriver.read_group config fuel g w).1 = Pending.
Proof.
  intros Hs Hw. set (w1 := FinsDriver.set_sid (as_u8 (FinsDriver.sid_counter w + 1)) w).
  set (w2 := FinsDriver.set_conn None w1).
  unfold FinsDriver.read_group. rewrite (bind_ret FinsDriver.next_sid _ w (FinsDriver.sid_counter w) w1) by done.
  cbv zeta. eapply bind_never with (P := λ stream, is_Some stream).
  - unfold FinsDriver.read_stream. rewrite (bind_ret (gets _) _ w1 (FinsDriver.conn w1) w1) by done.
    rewrite (bind_ret (modify _) _ w1 tt w2) by done.
    destruct (FinsDriver.conn w1) as [s|]; [right; by eexists _, _|].
    destruct (FinsCycle.fins_connect_loop_emits config fuel 1 w2 Hw) as (_ & _ & l & _ & Hl).
    unfold FinsDriver.connect_with_backoff, mbind, M_bind.
    destruct (FinsDriver.connect_loop config fuel 1 w2) as [o w3]. simpl in Hl.
    destruct Hl as [(n & s & _ & -> & _)|[-> _]]; [right; by eexists _, _|by left].
  - intros [stream|] w3 [s Hsome]; [|done]. unfold mbind at 1, M_bind at 1. simpl.
    apply bind_pending. set (w4 := FinsDriver.add_event _ _).
    pose proof (FinsCycle.exchange_run stream (FinsDriver.read_frame (FinsDriver.sid_counter w) g) w4) as H.
    rewrite Hs in H. destruct H as [e' H]. by rewrite H.
Qed.

Lemma fins_cycle_silent fuel w :
  fins_silent → rgs ≠ [] → FinsCycle.inv w →
  (FinsDriver.run_read_cycle_impl config rgs fuel w).1 = Pending.
Proof.
  intros Hs Hne Hw. unfold FinsDriver.run_read_cycle_impl, mbind, M_bind.
  destruct (FinsCycle.ensure_connection_emits config fuel w Hw) as (_ & Hw1 & l1 & _ & H1).
  destruct (FinsDriver.ensure_connection config fuel w) as [o1 w1]. cbn [fst snd] in *.
  destruct H1 as [[-> _]|[-> _]]; [|done].
  destruct (FinsCycle.fins_process_writes_emits config fuel 64 w1 Hw1) as (_ & Hw2 & l2 & _ & [H2 _ _ _]).
  destruct (FinsDriver.process_writes config fuel 64 w1) as [o2 w2]. cbn [fst snd] in *.
  destruct H2 as [-> | ->]; [|done].
  destruct rgs as [|g gs]; [done|]. by apply bind_pending, fins_read_group_silent.
Qed.
End fins.

Section modbus.
Context {IO : ModbusIO} `{!HashIter ModbusFunction} (config : ModbusConfig ModbusIO.SocketAddr).
Definition modbus_unreachable : Prop :=
  ∀ e, is_err (ModbusIO.tcp_connect (ModbusConfig.endpoint config) e).1 = true.

Lemma modbus_connect_blocked fuel b w :
  modbus_unreachable → (ModbusDriver.connect_loop config fuel b w).1 = Pending.
Proof.
  intros Hun. revert b w. induction fuel as [|fuel IH]; intros b w; [done|]. simpl.
  unfold mbind, M_bind, ModbusDriver.env_op. simpl. specialize (Hun (ModbusDriver.env w)).
  destruct (ModbusIO.tcp_connect _ _) as [[s|e] e1]; [done|]. simpl. apply IH.
Qed.

Lemma modbus_cycle_blocked fuel w :
  modbus_unreachable → ModbusDriver.client w = None →
  (ModbusIO.try_recv (ModbusDriver.env w)).1 = ModbusIO.Empty →
  (ModbusDriver.run_read_cycle_impl config fuel w).1 = Pending.
Proof.
  intros Hun Hc He. unfold ModbusDriver.run_read_cycle_impl.
  destruct (ModbusIO.try_recv (ModbusDriver.env w)) as [r e1] eqn:Hr. simpl in He. subst r.
  assert (ModbusDriver.process_writes config fuel 64 w = (Ret tt, ModbusDriver.set_env e1 w)) as Hw.
  { change 64%nat with (S 63). cbn [ModbusDriver.process_writes].
    unfold mbind, M_bind, ModbusDriver.env_op. by rewrite Hr. }
  rewrite (bind_ret _ _ _ _ _ Hw). apply bind_pending.
  unfold ModbusDriver.obtain_context.
  rewrite (bind_ret (gets _) _ _ None (ModbusDriver.set_env e1 w))
    by (unfold gets; simpl; by rewrite Hc).
  apply bind_pending, bind_pending. by apply modbus_connect_blocked.
Qed.
End modbus.

(** ** The poller *)

Section poller.
Context {W Env Rest : Type} {DW : DriverWorld W Env Rest} {D : ProtocolDriver.ProtocolDriver W}.
Context {T : RuntimeDriver.Timers}.

Lemma boxed_pending {W' E A} (f : E → string) (m : M W' E A) w :
  (m w).1 = Pending → (ProtocolDriver.boxed f m w).1 = Pending.
Proof. unfold ProtocolDriver.boxed. by destruct (m w) as [[] ?]. Qed.

Lemma poll_blocked (d : RuntimeDriver.RuntimeDriver) fuel (w : RuntimeDriver.World) :
  (RuntimeDriver.next_tick (RuntimeDriver.timers w)).1 = true →
  (ProtocolDriver.read_cycle (RuntimeDriver.driver w)).1 = Pending →
  (RuntimeDriver.poll_loop d fuel 0 w).1 = Pending.
Proof.
  intros Ht Hc. destruct fuel as [|fuel]; [done|]. cbn [RuntimeDriver.poll_loop].
  unfold mbind at 1, M_bind at 1, RuntimeDriver.timer_op.
  destruct (RuntimeDriver.next_tick _) as [b t]. simpl in Ht. subst b.
  rewrite (bind_ret _ _ _ true {| RuntimeDriver.driver := RuntimeDriver.driver w;
    RuntimeDriver.timers := t; RuntimeDriver.log := RuntimeDriver.log w |}) by done.
  apply bind_pending. unfold RuntimeDriver.run_cycle. apply bind_pending.
  unfold RuntimeDriver.call. simpl.
  by destruct (ProtocolDriver.read_cycle (RuntimeDriver.driver w)) as [[] ?].
Qed.
End poller.
End blocked.

(** ** Properties *)

Section properties.
Context {C : Chrono} {BY : Bytes} {B : ByteOrder} {J : SerdeJson} {T : RuntimeDriver.Timers}.

(** C39: once the poller of an unreachable PLC has begun its first cycle, it never ends:
    whatever the timers and the shutdown signal do, and however many attempts and polls
    are allowed, it is still pending, for either protocol; so [stop], which waits for
    it, never returns.  A FINS poller with something to read ends no better on a PLC
    that takes requests and never answers, connected or not. *)
Theorem stop_blocked_while_unreachable
    {FIO : FinsIO} `{!HashIter Z} (fins : FinsConfig FinsIO.SocketAddr) (rgs : list FinsPlan.ReadGroup)
    {MIO : ModbusIO} `{!HashIter ModbusFunction} (modbus : ModbusConfig ModbusIO.SocketAddr)
    (d : RuntimeDriver.RuntimeDriver) (cycle_fuel fuel : nat) (t : RuntimeDriver.PollEnv) :
  (RuntimeDriver.next_tick t).1 = true →
  (fins_unreachable fins → ∀ w, FinsDriver.conn w = None →
   (RuntimeDriver.poll_loop (D := ProtocolDriver.fins_driver fins rgs cycle_fuel) d fuel 0
      (RuntimeDriver.mkWorld w t [])).1 = Pending) ∧
  (fins_silent → rgs ≠ [] → ∀ w, FinsCycle.inv w →
   (RuntimeDriver.poll_loop (D := ProtocolDriver.fins_driver fins rgs cycle_fuel) d fuel 0
      (RuntimeDriver.mkWorld w t [])).1 = Pending) ∧
  (modbus_unreachable modbus → ∀ w, ModbusDriver.client w = None →
   (ModbusIO.try_recv (ModbusDriver.env w)).1 = ModbusIO.Empty →
   (RuntimeDriver.poll_loop (D := ProtocolDriver.modbus_driver modbus cycle_fuel) d fuel 0
      (RuntimeDriver.mkWorld w t [])).1 = Pending).
Proof.
  intros Ht. split; [|split].
  - intros Hun w Hc. apply poll_blocked; [done|]. by apply boxed_pending, fins_cycle_blocked.
  - intros Hs Hne w Hw. apply poll_blocked; [done|]. by apply boxed_pending, fins_cycle_silent.
  - intros Hun w Hc He. apply poll_blocked; [done|]. by apply boxed_pending, modbus_cycle_blocked.
Qed.
End properties.

Section witnesses.
Import FinsRef.
Local Existing Instances CratesRef.chrono_ref CratesRef.byteorder_ref CratesRef.bytes_ref
  CratesRef.json_ref RuntimeDriver.timers_ref.
Local Existing Instance ModbusFunction.ModbusFunction_countable.
Local Instance areas : HashIter Z := hash_iter_ref Z.
Local Instance functions : HashIter ModbusFunction := hash_iter_ref ModbusFunction.

(** The reference environments, behind a network that refuses every connection. *)
Definition cut_fins : FinsIO :=
  {| FinsIO.Env := RefEnv; FinsIO.SocketAddr := unit; FinsIO.TcpStream := unit;
     FinsIO.connect _ e := (Err "connection refused"%string, e);
     FinsIO.write_all stream bytes e := Some (with_stream stream (ref_write_all bytes e));
     FinsIO.read_exact stream n e := Some (with_stream stream (ref_read_exact n e));
     FinsIO.try_recv := ref_recv; FinsIO.sleep _ e := e; FinsIO.utc_now e := (time e, tick e);
     FinsIO.read_exact_ok := @FinsIO.read_exact_ok _ fins_io_ref;
     FinsIO.try_recv_wf := @FinsIO.try_recv_wf _ fins_io_ref |}.
(** The same behind one that takes every connection and request, and answers none. *)
Definition mute_fins : FinsIO :=
  {| FinsIO.Env := RefEnv; FinsIO.SocketAddr := unit; FinsIO.TcpStream := unit;
     FinsIO.connect _ e := (Ok tt, e);
     FinsIO.write_all stream bytes e := Some (Ok tt, stream, e);
     FinsIO.read_exact stream n e := None;
     FinsIO.try_recv := ref_recv; FinsIO.sleep _ e := e; FinsIO.utc_now e := (time e, tick e);
     FinsIO.read_exact_ok _ _ _ _ _ _ H := False_ind _ (eq_ind None (λ o, if o then False else True) I _ H);
     FinsIO.try_recv_wf := @FinsIO.try_recv_wf _ fins_io_ref |}.
Definition cut_modbus : ModbusIO :=
  let io := ModbusRef.modbus_io_ref in
  {| ModbusIO.Env := ModbusRef.RefEnv; ModbusIO.SocketAddr := unit; ModbusIO.ClientContext := Z;
     ModbusIO.tcp_connect _ e := (Err "connection refused"%string, e);
     ModbusIO.set_slave := @ModbusIO.set_slave _ io;
     ModbusIO.write_multiple_registers := @ModbusIO.write_multiple_registers _ io;
     ModbusIO.read_holding_registers := @ModbusIO.read_holding_registers _ io;
     ModbusIO.read_input_registers := @ModbusIO.read_input_registers _ io;
     ModbusIO.read_coils := @ModbusIO.read_coils _ io;
     ModbusIO.read_discrete_inputs := @ModbusIO.read_discrete_inputs _ io;
     ModbusIO.try_recv := @ModbusIO.try_recv _ io; ModbusIO.sleep := @ModbusIO.sleep _ io;
     ModbusIO.utc_now := @ModbusIO.utc_now _ io;
     ModbusIO.try_recv_wf := @ModbusIO.try_recv_wf _ io |}.
Local Existing Instances cut_fins cut_modbus.
Definition mute_world : FinsDriver.World (IO := mute_fins) :=
  FinsDriver.mkWorld (IO := mute_fins) (ref_registry []) None 1 true (ref_env [] (λ _ _, 0)) [].
Lemma mute_inv : FinsCycle.inv (IO := mute_fins) mute_world.
Proof. apply ref_registry_wf. vm_refl. Qed.
Definition mute_groups : list FinsPlan.ReadGroup := [FinsPlan.mkReadGroup 130 10 1 []].

Definition cut_world : FinsDriver.World (IO := cut_fins) :=
  {| FinsDriver.registry := ref_registry []; FinsDriver.conn := None; FinsDriver.sid_counter := 1;
     FinsDriver.health_tx := true; FinsDriver.env := ref_env [] (λ _ _, 0); FinsDriver.log := [] |}.
Definition cut_config : FinsConfig unit := FinsConfig.new "plc" tt 100 [].
Definition cut_modbus_config : ModbusConfig unit := ModbusConfig.new "plc" tt 1 100 [].

Lemma stop_blocked_while_unreachable_witness (* a shutdown after the first tick *) :
  (RuntimeDriver.poll_loop (T := RuntimeDriver.timers_ref)
     (D := ProtocolDriver.fins_driver (IO := cut_fins) cut_config [] 100)
     (RuntimeDriver.new "plc" 100) 100 0
     (RuntimeDriver.mkWorld cut_world 1%nat [])).1 = Pending ∧
  (RuntimeDriver.poll_loop (T := RuntimeDriver.timers_ref)
     (D := ProtocolDriver.fins_driver (IO := mute_fins) cut_config mute_groups 100)
     (RuntimeDriver.new "plc" 100) 100 0
     (RuntimeDriver.mkWorld mute_world 1%nat [])).1 = Pending.
Proof.
  split.
  - exact (proj1 (stop_blocked_while_unreachable (FIO := cut_fins) cut_config []
      (MIO := cut_modbus) cut_modbus_config (RuntimeDriver.new "plc" 100) 100 100 1%nat eq_refl)
      (λ e, eq_refl) cut_world eq_refl).
  - exact (proj1 (proj2 (stop_blocked_while_unreachable (FIO := mute_fins) cut_config mute_groups
      (MIO := cut_modbus) cut_modbus_config (RuntimeDriver.new "plc" 100) 100 100 1%nat eq_refl))
      (λ stream frame e, eq_refl) ltac:(discriminate) mute_world mute_inv).
Defined.
End witnesses.
End Shutdown.
