(* ===== verification/OpcUaConfig.v ===== *)
(** * OPC UA server: configuration and errors

    Models opcua-server/src/{config,error}.rs. *)

From stdpp Require Import base tactics numbers list gmap strings.
From S2P Require Import Prelude RustStd RustStr RustText.
Local Open Scope Z_scope.

Module ServerError.
(** [ServerError] *)
Inductive ServerError :=
| Io (msg : string)
| Config (msg : string)
| Backend (msg : string)
| BadRequest (msg : string)
| Other (msg : string).

(** The [Display] of the errors. *)
Definition to_string (e : ServerError) : string :=
  match e with
  | Io s => "IO error: " +:+ s
  | Config s => "Configuration error: " +:+ s
  | Backend s => "OPC UA backend error: " +:+ s
  | BadRequest s => "Invalid request: " +:+ s
  | Other s => "Other: " +:+ s
  end.
End ServerError.
Notation ServerError := ServerError.ServerError.

Module ConfigError.
(** [ConfigError] *)
Inductive ConfigError :=
| MissingField (field : string)
| InvalidPort (port : Z)
| InvalidAddress (addr reason : string)
| Other (msg : string).

Definition to_string (e : ConfigError) : string :=
  match e with
  | MissingField s => "missing required field: " +:+ s
  | InvalidPort p => "invalid port: " +:+ fmt_dec p
  | InvalidAddress addr reason => "invalid bind address `" +:+ addr +:+ "`: " +:+ reason
  | Other s => "configuration error: " +:+ s
  end.
End ConfigError.
Notation ConfigError := ConfigError.ConfigError.

Module OpcUaConfig.
(** [WriteMode], [SecurityMode], [SecurityPolicy] and their defaults *)
Inductive WriteMode := QueuedAck | ConfirmedAck.
#[export] Instance WriteMode_eq_dec : EqDecision WriteMode.
Proof. solve_decision. Defined.
Definition default_write_mode : WriteMode := ConfirmedAck.

Inductive SecurityMode := NoSecurity | Sign | SignAndEncrypt.
#[export] Instance SecurityMode_eq_dec : EqDecision SecurityMode.
Proof. solve_decision. Defined.
Definition default_security_mode : SecurityMode := NoSecurity.

Inductive SecurityPolicy := NoPolicy | Basic128Rsa15 | Basic256 | Basic256Sha256.
#[export] Instance SecurityPolicy_eq_dec : EqDecision SecurityPolicy.
Proof. solve_decision. Defined.
Definition default_security_policy : SecurityPolicy := NoPolicy.

(** [SecurityPolicy::uri] *)
Definition uri (p : SecurityPolicy) : string :=
  match p with
  | NoPolicy => "http://opcfoundation.org/UA/SecurityPolicy#None"
  | Basic128Rsa15 => "http://opcfoundation.org/UA/SecurityPolicy#Basic128Rsa15"
  | Basic256 => "http://opcfoundation.org/UA/SecurityPolicy#Basic256"
  | Basic256Sha256 => "http://opcfoundation.org/UA/SecurityPolicy#Basic256Sha256"
  end.

(** [CertificateConfig] *)
Record CertificateConfig := mkCertificates {
  server_certificate_path : option string;
  server_private_key_path : option string;
  trust_store_dir : option string;
  reject_store_dir : option string;
  min_key_length : Z;
}.
Definition default_min_key_length : Z := 2048.
Definition default_certificates : CertificateConfig :=
  {| server_certificate_path := None; server_private_key_path := None; trust_store_dir := None;
     reject_store_dir := None; min_key_length := default_min_key_length |}.

(** [OpcUaConfig] of the server crate *)
Record OpcUaConfig := mk {
  bind_addr : string;
  port : Z;
  application_name : string;
  application_uri : string;
  namespace_uri : string;
  anonymous_enabled : bool;
  username_password_enabled : bool;
  max_sessions : Z;
  max_subscriptions : Z;
  write_mode : WriteMode;
  security_mode : SecurityMode;
  security_policy : SecurityPolicy;
  certificates : CertificateConfig;
}.

(** [OpcUaConfig::default_local] *)
Definition default_local : OpcUaConfig :=
  {| bind_addr := "0.0.0.0"; port := 4840; application_name := "opcua-plc-bridge";
     application_uri := "urn:opcua:plc:bridge"; namespace_uri := "urn:opcua:plc:bridge:ns";
     anonymous_enabled := true; username_password_enabled := false; max_sessions := 100;
     max_subscriptions := 1000; write_mode := ConfirmedAck; security_mode := NoSecurity;
     security_policy := NoPolicy; certificates := default_certificates |}.

(** [endpoint_url] *)
Definition endpoint_url (c : OpcUaConfig) : string :=
  "opc.tcp://" +:+ bind_addr c +:+ ":" +:+ fmt_dec (port c).

(** [bind_socket_addr] *)
Definition bind_socket_addr (c : OpcUaConfig) : result SocketAddr ConfigError :=
  let s := bind_addr c +:+ ":" +:+ fmt_dec (port c) in
  match socket_addr_from_str s with
  | Ok a => Ok a
  | Err e => Err (ConfigError.InvalidAddress s e)
  end.

(** [OpcUaConfig::validate] *)
Definition validate (c : OpcUaConfig) : result unit ConfigError :=
  if is_empty (trim (application_name c)) then Err (ConfigError.MissingField "application_name")
  else if is_empty (trim (application_uri c)) then Err (ConfigError.MissingField "application_uri")
  else if is_empty (trim (namespace_uri c)) then Err (ConfigError.MissingField "namespace_uri")
  else if port c =? 0 then Err (ConfigError.InvalidPort (port c))
  else let? _ := bind_socket_addr c in Ok tt.

(** ** Validation *)

Definition blank (s : string) : Prop := trim s = "".

Lemma is_empty_trim s : is_empty (trim s) = bool_decide (blank s).
Proof. done. Qed.

Lemma validate_ok c :
  validate c = Ok tt ↔
  ¬ blank (application_name c) ∧ ¬ blank (application_uri c) ∧ ¬ blank (namespace_uri c) ∧
  port c ≠ 0 ∧ is_ok (bind_socket_addr c) = true.
Proof.
  unfold validate. rewrite !is_empty_trim.
  repeat case_bool_decide; try naive_solver.
  destruct (Z.eqb_spec (port c) 0); [naive_solver|].
  destruct (bind_socket_addr c); simpl; naive_solver.
Qed.

(** A bind address that starts with a letter is never accepted. *)
Lemma bind_host_name c b l :
  as_bytes (bind_addr c) = b :: l → digit_of b = None → b ≠ 91 →
  ∃ addr, bind_socket_addr c = Err (ConfigError.InvalidAddress addr "invalid socket address syntax").
Proof.
  intros Hb Hd H91. unfold bind_socket_addr.
  rewrite (socket_addr_not_name _ b (l ++ as_bytes (":" +:+ fmt_dec (port c)))); [by eexists|..];
    [|done..]. by rewrite as_bytes_app, Hb.
Qed.

Example default_local_valid :
  validate default_local = Ok tt ∧ endpoint_url default_local = "opc.tcp://0.0.0.0:4840"%string.
Proof. split; vm_refl. Qed.

Section properties.
(** [validate] accepts a configuration exactly when the three names are not blank,
    the port is not zero and the bind address, with the port, is a socket address; so a
    host name is never accepted as a bind address, although the documentation of the
    field allows one. *)
Theorem opcua_config_validated (c : OpcUaConfig) :
  (validate c = Ok tt ↔
   ¬ blank (application_name c) ∧ ¬ blank (application_uri c) ∧ ¬ blank (namespace_uri c) ∧
   port c ≠ 0 ∧ is_ok (bind_socket_addr c) = true) ∧
  (∀ b l, as_bytes (bind_addr c) = b :: l → digit_of b = None → b ≠ 91 → validate c ≠ Ok tt).
Proof.
  split; [apply validate_ok|]. intros b l Hb Hd H91 (_ & _ & _ & _ & Hok)%validate_ok.
  destruct (bind_host_name c b l Hb Hd H91) as [addr H]. by rewrite H in Hok.
Qed.
End properties.

Section witnesses.
Definition named_host : OpcUaConfig :=
  {| bind_addr := "localhost"; port := 4840; application_name := "bridge";
     application_uri := "urn:b"; namespace_uri := "urn:b:ns";
     anonymous_enabled := true; username_password_enabled := false; max_sessions := 100;
     max_subscriptions := 1000; write_mode := ConfirmedAck; security_mode := NoSecurity;
     security_policy := NoPolicy; certificates := default_certificates |}.
Lemma opcua_config_validated_witness :
  is_ok (bind_socket_addr default_local) = true ∧ validate named_host ≠ Ok tt.
Proof.
  split; [vm_refl|].
  exact (proj2 (opcua_config_validated named_host) 108 (as_bytes "ocalhost") eq_refl eq_refl
    ltac:(discriminate)).
Defined.
End witnesses.
End OpcUaConfig.
Notation OpcUaConfig := OpcUaConfig.OpcUaConfig.
#[export] Existing Instances OpcUaConfig.WriteMode_eq_dec OpcUaConfig.SecurityMode_eq_dec OpcUaConfig.SecurityPolicy_eq_dec.
