(* ===== verification/OpcUaWrites.v ===== *)
(** * OPC UA server: write requests and their handler

    Models opcua-server/src/writes.rs: the request handed to the runtime and the trait
    the runtime implements to process it.  The trait is a class on the state of its
    implementation; the write bridge is written against the class, and the runtime's
    handler is an instance of it. *)

From stdpp Require Import base tactics numbers list gmap strings.
From S2P Require Import Prelude Effects RustStd RustStr Crates TagValue OpcUaConfig.

Module OpcUaWrite.
Section defs.
Context {C : Chrono}.
(** [WriteRequest] of the server crate *)
Record WriteRequest := mk { tag_id : string; value : TagValue }.
(** [WriteRequest::new] *)
Definition new (tag_id : string) (value : TagValue) : WriteRequest :=
  {| tag_id := tag_id; value := value |}.

(** The trait [WriteHandler]: a handler works on a state [W]; as long as the state is
    sound, it finishes every request with success or an error, and does not panic. *)
Class WriteHandler (W : Type) := {
  handle_write : WriteRequest → M W ServerError unit;
  handler_ok : W → Prop;
  handle_write_ends req w :
    handler_ok w →
    ∃ o w', handle_write req w = (o, w') ∧ (o = Ret tt ∨ ∃ e, o = Fail e) ∧ handler_ok w';
}.
End defs.
Arguments WriteRequest : clear implicits.
Arguments WriteRequest {_}.
End OpcUaWrite.
