(* ===== verification/RuntimeConfig.v ===== *)
(** * Runtime: configuration types and loader

    Models runtime/src/config.rs and [build_opcua_config] of runtime/src/main.rs.  The
    two deserialisers are parameters; what the loader does with their results, and the
    strict parsing of the textual options, is modelled. *)

From stdpp Require Import base tactics numbers list gmap strings.
From S2P Require Import Prelude RustStd RustStr RustText OpcUaConfig.
Local Open Scope Z_scope.

Module TagConfig.
(** [TagConfig] *)
Record TagConfig := mk {
  id : string;
  name : string;
  address : string;
  data_type : string;
  writable : bool;
  byte_order : option string;
  word_count : option Z;
  area : option Z;
}.

(** What the field types guarantee. *)
Definition in_range (t : TagConfig) : Prop :=
  (∀ n, word_count t = Some n → is_u16 n) ∧ (∀ a, area t = Some a → is_u8 a).
End TagConfig.
Notation TagConfig := TagConfig.TagConfig.

Module PlcConfig.
(** [PlcConfig] *)
Record PlcConfig := mk {
  name : string;
  protocol : string;
  endpoint : string;
  unit_id : option Z;
  cycle_ms : Z;
  tags : list TagConfig;
  max_words_per_request : option Z;
  keepalive_secs : option Z;
  max_backoff_secs : option Z;
  io_timeout_ms : option Z;
}.
Definition default_cycle_ms : Z := 100.
End PlcConfig.
Notation PlcConfig := PlcConfig.PlcConfig.

Module OpcUaSection.
(** [OpcUaConfig] of the runtime configuration *)
Record OpcUaSection := mk {
  bind_addr : string;
  port : Z;
  application_name : string;
  application_uri : string;
  namespace_uri : string;
  anonymous_enabled : bool;
  username_password_enabled : bool;
  max_sessions : Z;
  max_subscriptions : Z;
  write_mode : string;
  security_mode : option string;
  security_policy : option string;
  server_certificate_path : option string;
  server_private_key_path : option string;
  trust_store_dir : option string;
  reject_store_dir : option string;
  min_key_length : option Z;
}.
Definition default_true : bool := true.
Definition default_u32_100 : Z := 100.
Definition default_u32_1000 : Z := 1000.
End OpcUaSection.
Notation OpcUaSection := OpcUaSection.OpcUaSection.

Module RuntimeConfig.
Import OpcUaConfig.

(** [RuntimeConfig] *)
Record RuntimeConfig := mk {
  opcua : OpcUaSection;
  plcs : list PlcConfig;
  health_channel_capacity : option Z;
  driver_write_send_timeout_ms : option Z;
  write_confirm_timeout_ms : option Z;
}.

(** [parse_write_mode]; a [ConfigValidationError] is its message. *)
Definition parse_write_mode (s : string) : result WriteMode string :=
  if decide (s = "QueuedAck") then Ok QueuedAck
  else if decide (s = "ConfirmedAck") then Ok ConfirmedAck
  else if decide (s = "") then Ok default_write_mode
  else Err ("Invalid write_mode '" +:+ s +:+ "'; must be QueuedAck or ConfirmedAck").

(** [parse_security_mode] *)
Definition parse_security_mode (s : option string) : result SecurityMode string :=
  match s with
  | None => Ok NoSecurity
  | Some s =>
      if decide (s = "" ∨ s = "None") then Ok NoSecurity
      else if decide (s = "Sign") then Ok Sign
      else if decide (s = "SignAndEncrypt") then Ok SignAndEncrypt
      else Err ("Invalid security_mode '" +:+ s +:+ "'; must be None, Sign, or SignAndEncrypt")
  end.

(** [parse_security_policy] *)
Definition parse_security_policy (s : option string) : result SecurityPolicy string :=
  match s with
  | None => Ok NoPolicy
  | Some s =>
      if decide (s = "" ∨ s = "None") then Ok NoPolicy
      else if decide (s = "Basic128Rsa15") then Ok Basic128Rsa15
      else if decide (s = "Basic256") then Ok Basic256
      else if decide (s = "Basic256Sha256") then Ok Basic256Sha256
      else Err ("Invalid security_policy '" +:+ s +:+
                "'; must be None, Basic128Rsa15, Basic256, or Basic256Sha256")
  end.

(** The [serde] deserialisers; an error is its message. *)
Class Formats := {
  toml_from_str : string → result RuntimeConfig string;
  yaml_from_str : string → result RuntimeConfig string;
}.

Section load.
Context {U : UnicodeTables} {F : Formats}.

(** The check of the cycle times, in order. *)
Fixpoint check_cycles (plcs : list PlcConfig) : result unit string :=
  match plcs with
  | [] => Ok tt
  | plc :: plcs =>
      if PlcConfig.cycle_ms plc <? 10
      then Err ("Invalid cycle_ms for " +:+ PlcConfig.name plc +:+ ": "
                +:+ fmt_dec (PlcConfig.cycle_ms plc) +:+ " (must be >= 10)")
      else check_cycles plcs
  end.

(** The parse of [load_runtime_config]; [extension] is the path's, as text. *)
Definition parse_config (extension : option string) (text : string) : result RuntimeConfig string :=
  let toml := match toml_from_str text with
              | Ok cfg => Ok cfg
              | Err e => Err ("TOML parse error: " +:+ e)
              end in
  let yaml := match yaml_from_str text with
              | Ok cfg => Ok cfg
              | Err e => Err ("YAML parse error: " +:+ e)
              end in
  let either := match toml_from_str text with
                | Ok cfg => Ok cfg
                | Err toml_err =>
                    match yaml_from_str text with
                    | Ok cfg => Ok cfg
                    | Err yaml_err =>
                        Err ("Config parse failed: TOML error: " +:+ toml_err
                             +:+ "; YAML error: " +:+ yaml_err)
                    end
                end in
  match to_lowercase <$> extension with
  | Some ext =>
      if decide (ext = "toml") then toml
      else if decide (ext = "yaml" ∨ ext = "yml") then yaml
      else either
  | None => either
  end.

(** [load_runtime_config] *)
Definition load_runtime_config (extension : option string) (text : string)
    : result RuntimeConfig string :=
  let? cfg := parse_config extension text in
  let? _ := check_cycles (plcs cfg) in
  Ok cfg.

Lemma check_cycles_ok plcs :
  check_cycles plcs = Ok tt ↔ Forall (λ p, 10 ≤ PlcConfig.cycle_ms p) plcs.
Proof.
  induction plcs as [|p plcs IH]; simpl; [done|]. rewrite Forall_cons.
  destruct (Z.ltb_spec (PlcConfig.cycle_ms p) 10); [split; [done|lia]|]. naive_solver.
Qed.
End load.

(** [build_opcua_config] *)
Definition build_opcua_config (c : OpcUaSection) (mode : WriteMode) (security : SecurityMode)
    (policy : SecurityPolicy) : OpcUaConfig :=
  {| bind_addr := OpcUaSection.bind_addr c;
     port := OpcUaSection.port c;
     application_name := OpcUaSection.application_name c;
     application_uri := OpcUaSection.application_uri c;
     namespace_uri := OpcUaSection.namespace_uri c;
     anonymous_enabled := OpcUaSection.anonymous_enabled c;
     username_password_enabled := OpcUaSection.username_password_enabled c;
     max_sessions := OpcUaSection.max_sessions c;
     max_subscriptions := OpcUaSection.max_subscriptions c;
     write_mode := mode;
     security_mode := security;
     security_policy := policy;
     certificates :=
       {| server_certificate_path := OpcUaSection.server_certificate_path c;
          server_private_key_path := OpcUaSection.server_private_key_path c;
          trust_store_dir := OpcUaSection.trust_store_dir c;
          reject_store_dir := OpcUaSection.reject_store_dir c;
          min_key_length := default 2048 (OpcUaSection.min_key_length c) |} |}.
End RuntimeConfig.
Notation RuntimeConfig := RuntimeConfig.RuntimeConfig.
