(* ===== verification/RuntimeTags.v ===== *)
(** * Runtime: from tag configurations to definitions and driver mappings

    Models runtime/src/tags.rs. *)

From stdpp Require Import base tactics numbers list gmap strings.
From Stdlib Require Import Ascii.
From S2P Require Import Prelude RustStd RustStr RustText Crates CratesRef TagValue TagDefinition ModbusTypes ModbusCodec ModbusPlan FinsTypes FinsCodec FinsPlan OpcUaConfig RuntimeConfig.
Local Open Scope Z_scope.

Module RuntimeTags.
Section defs.
Context {U : UnicodeTables} {J : SerdeJson}.

(** [parse_byte_order] *)
Definition parse_byte_order (s : option string) (context : string) : result WordOrder anyhow_error :=
  match s with
  | None => Ok WordOrder.ABCD
  | Some s =>
      if decide (s = "ABCD" ∨ s = "abcd") then Ok WordOrder.ABCD
      else if decide (s = "BADC" ∨ s = "badc") then Ok WordOrder.BADC
      else if decide (s = "CDAB" ∨ s = "cdab") then Ok WordOrder.CDAB
      else if decide (s = "DCBA" ∨ s = "dcba") then Ok WordOrder.DCBA
      else anyhow ("Unknown byte_order '" +:+ s +:+ "' for " +:+ context +:+
                   "; expected one of ABCD, BADC, CDAB, DCBA")
  end.

(** The names of the data types, in the order of the match. *)
Definition data_type_names : list (string * TagDataType) :=
  [("bool", TagDataType.Bool); ("int16", TagDataType.Int16); ("uint16", TagDataType.UInt16);
   ("int32", TagDataType.Int32); ("uint32", TagDataType.UInt32); ("int64", TagDataType.Int64);
   ("uint64", TagDataType.UInt64); ("float", TagDataType.Float); ("double", TagDataType.Double);
   ("string", TagDataType.String); ("datetime", TagDataType.DateTime);
   ("bytestring", TagDataType.ByteString); ("byte_string", TagDataType.ByteString)]%string.

(** [parse_data_type] *)
Definition parse_data_type (s : string) : result TagDataType anyhow_error :=
  let other := to_lowercase s in
  match find (λ p, bool_decide (p.1 = other)) data_type_names with
  | Some (_, dt) => Ok dt
  | None => anyhow ("Unsupported data type: " +:+ other)
  end.

(** [tagconfig_to_definition] *)
Definition tagconfig_to_definition (t : TagConfig) (plc_name : string)
    : result TagDefinition anyhow_error :=
  let? dt := parse_data_type (TagConfig.data_type t) in
  let? byte_order := parse_byte_order (TagConfig.byte_order t) "tag definition" in
  let def := TagDefinition.new (TagConfig.id t) (TagConfig.name t) (TagConfig.address t) dt plc_name in
  Ok {| TagDefinition.id := TagDefinition.id def; TagDefinition.name := TagDefinition.name def;
        TagDefinition.address := TagDefinition.address def;
        TagDefinition.data_type := TagDefinition.data_type def;
        TagDefinition.writable := TagConfig.writable t;
        TagDefinition.byte_order := byte_order;
        TagDefinition.stale_after_ms := TagDefinition.stale_after_ms def;
        TagDefinition.metadata := None;
        TagDefinition.plc_name := TagDefinition.plc_name def |}.

(** The compatibility of the declared count with the data type. *)
Definition check_word_count (dt : TagDataType) (word_count : Z) (data_type : string)
    : result unit anyhow_error :=
  match dt with
  | TagDataType.Float | TagDataType.Int32 | TagDataType.UInt32 =>
      if word_count <? 2
      then anyhow ("Incompatible word_count " +:+ fmt_dec word_count +:+ " for data_type '"
                   +:+ data_type +:+ "' (needs >=2)")
      else Ok tt
  | TagDataType.Double =>
      if word_count <? 4
      then anyhow ("Incompatible word_count " +:+ fmt_dec word_count +:+
                   " for data_type 'double' (needs >=4)")
      else Ok tt
  | _ => Ok tt
  end.

(** [addr.starts_with('D') || addr.starts_with('d')], and then [&addr[1..]]. *)
Definition after_d (addr : string) : option string :=
  match addr with
  | String c rest => if bool_decide (c = "D"%char ∨ c = "d"%char) then Some rest else None
  | EmptyString => None
  end.

(** The area and the address of a FINS tag: lines 87-119, on the trimmed text. *)
Definition fins_address (t : TagConfig) (addr : string) : result (Z * Z) anyhow_error :=
  let number text :=
    with_context ("Invalid FINS address '" +:+ addr +:+ "'") (from_error id (parse_u32 text)) in
  match TagConfig.area t with
  | Some explicit_area => let? raw := number addr in Ok (explicit_area, raw)
  | None =>
      let? (area, number_str) :=
        match after_d addr with
        | Some rest =>
            if is_empty rest || negb (all_digits rest)
            then anyhow ("Invalid FINS D-address '" +:+ addr +:+ "'; expected 'D<digits>'")
            else Ok (130, rest)
        | None =>
            if all_digits addr then Ok (130, addr)
            else anyhow ("Unsupported FINS address pattern '" +:+ addr +:+
                         "'; expected 'D<number>' or '<number>'")
        end in
      let? address := number number_str in
      Ok (area, address)
  end.

(** [tagconfig_to_fins_mapping] *)
Definition tagconfig_to_fins_mapping (t : TagConfig) : result TagMapping anyhow_error :=
  let addr := trim (TagConfig.address t) in
  if is_empty addr then anyhow "Empty address for FINS mapping"
  else
    let? (area, address) := fins_address t addr in
    let word_count := default 1 (TagConfig.word_count t) in
    let? dt := parse_data_type (TagConfig.data_type t) in
    let? _ := check_word_count dt word_count (TagConfig.data_type t) in
    let? byte_order := parse_byte_order (TagConfig.byte_order t) "FINS mapping" in
    Ok {| TagMapping.tag_id := TagConfig.id t; TagMapping.area := area;
          TagMapping.address := address; TagMapping.bit_offset := 0;
          TagMapping.word_count := word_count; TagMapping.writable := TagConfig.writable t;
          TagMapping.byte_order := byte_order; TagMapping.data_type := dt |}.

(** The register of a Modbus tag: lines 168-179, on the trimmed text. *)
Definition modbus_address (addr : string) : result Z anyhow_error :=
  let? raw := with_context ("Invalid Modbus address '" +:+ addr +:+ "'")
                (from_error id (parse_u32 addr)) in
  let normalized := if 40001 <=? raw then u32_sub raw 40001 else raw in
  if 65535 <? normalized
  then anyhow ("Modbus address '" +:+ addr +:+ "' normalized to " +:+ fmt_dec normalized +:+
               " exceeds u16 range")
  else Ok (as_u16 normalized).

(** The default function of a data type. *)
Definition default_function (dt : TagDataType) : ModbusFunction :=
  match dt with TagDataType.Bool => ModbusFunction.Coils | _ => ModbusFunction.HoldingRegisters end.

(** [tagconfig_to_modbus_mapping] *)
Definition tagconfig_to_modbus_mapping (t : TagConfig) : result ModbusMapping anyhow_error :=
  let addr := trim (TagConfig.address t) in
  let? address := modbus_address addr in
  let quantity := default 1 (TagConfig.word_count t) in
  let? data_type := parse_data_type (TagConfig.data_type t) in
  let function := default_function data_type in
  let? _ := check_word_count data_type quantity (TagConfig.data_type t) in
  let? byte_order := parse_byte_order (TagConfig.byte_order t) "Modbus mapping" in
  Ok {| ModbusMapping.tag_id := TagConfig.id t; ModbusMapping.data_type := data_type;
        ModbusMapping.address := address; ModbusMapping.quantity := quantity;
        ModbusMapping.function := function; ModbusMapping.bit_offset := 0;
        ModbusMapping.writable := TagConfig.writable t; ModbusMapping.byte_order := byte_order |}.

(** ** What is accepted, and what it becomes *)

(** The count a data type needs, as far as the conversions check it. *)
Definition count_fits (dt : TagDataType) (n : Z) : Prop :=
  match dt with
  | TagDataType.Float | TagDataType.Int32 | TagDataType.UInt32 => 2 ≤ n
  | TagDataType.Double => 4 ≤ n
  | _ => True
  end.

Lemma check_word_count_ok dt n s : check_word_count dt n s = Ok tt ↔ count_fits dt n.
Proof.
  unfold check_word_count, count_fits.
  destruct dt; try done; (destruct (Z.ltb_spec n 2), (Z.ltb_spec n 4) || destruct (Z.ltb_spec n 4));
    try done; (split; [done|lia]).
Qed.

(** The contexts of an error do not decide whether there is one. *)
Lemma with_context_ok {A} msg (r : result A anyhow_error) a :
  with_context msg r = Ok a ↔ r = Ok a.
Proof. by destruct r. Qed.
Lemma from_error_ok {A E} (f : E → string) (r : result A E) a : from_error f r = Ok a ↔ r = Ok a.
Proof. destruct r; simpl; naive_solver. Qed.

(** The texts that name a data type, in any case, and a word order, in capitals or in
    small letters; the order may be left out. *)
Definition names_type (s : string) (dt : TagDataType) : Prop :=
  let s := to_lowercase s in
  match dt with
  | TagDataType.Bool => s = "bool"
  | TagDataType.Int16 => s = "int16" | TagDataType.UInt16 => s = "uint16"
  | TagDataType.Int32 => s = "int32" | TagDataType.UInt32 => s = "uint32"
  | TagDataType.Int64 => s = "int64" | TagDataType.UInt64 => s = "uint64"
  | TagDataType.Float => s = "float" | TagDataType.Double => s = "double"
  | TagDataType.String => s = "string" | TagDataType.DateTime => s = "datetime"
  | TagDataType.ByteString => s = "bytestring" ∨ s = "byte_string"
  end%string.
Definition names_order (s : option string) (order : WordOrder) : Prop :=
  match order with
  | WordOrder.ABCD => s = None ∨ s = Some "ABCD" ∨ s = Some "abcd"
  | WordOrder.BADC => s = Some "BADC" ∨ s = Some "badc"
  | WordOrder.CDAB => s = Some "CDAB" ∨ s = Some "cdab"
  | WordOrder.DCBA => s = Some "DCBA" ∨ s = Some "dcba"
  end%string.

Lemma parse_data_type_ok s dt : parse_data_type s = Ok dt ↔ names_type s dt.
Proof.
  unfold parse_data_type, names_type. cbv zeta. generalize (to_lowercase s). clear s. intros s.
  split.
  - unfold data_type_names. cbn [find fst].
    repeat case_bool_decide; subst; intros [= <-]; auto.
  - destruct dt; intros H; (destruct H as [H|H] || idtac); subst; reflexivity.
Qed.
Lemma parse_byte_order_ok s context order : parse_byte_order s context = Ok order ↔ names_order s order.
Proof.
  unfold parse_byte_order, names_order. destruct s as [s|].
  - split.
    + repeat case_decide; intros [= <-]; naive_solver.
    + destruct order; intros H; repeat (destruct H as [H|H]); try discriminate H; injection H as ->; reflexivity.
  - destruct order; split; try done; try naive_solver.
Qed.

(** The address a FINS tag may have, and the area and word it means: a number in the
    explicit area, or [D<digits>] or [<digits>] in the D area. *)
Definition fins_location (t : TagConfig) (area address : Z) : Prop :=
  let addr := trim (TagConfig.address t) in
  ∃ text, parse_u32 text = Ok address ∧
    match TagConfig.area t with
    | Some a => area = a ∧ text = addr
    | None =>
        area = 130 ∧ all_digits text = true ∧ text ≠ "" ∧
        (addr = text ∨ addr = String "D" text ∨ addr = String "d" text)
    end.

(** No text of digits starts with a letter. *)
Lemma after_d_digits addr rest : after_d addr = Some rest → all_digits addr = false.
Proof.
  destruct addr as [|c addr]; [done|]. simpl. case_bool_decide as Hc; [|done]. intros [= <-].
  by destruct Hc as [-> | ->].
Qed.

Lemma fins_address_ok t area address :
  trim (TagConfig.address t) ≠ "" →
  fins_address t (trim (TagConfig.address t)) = Ok (area, address) ↔ fins_location t area address.
Proof.
  intros Hne. unfold fins_address, fins_location. cbv zeta. set (addr := trim _) in *.
  assert (∀ text n, with_context ("Invalid FINS address '" +:+ addr +:+ "'")
    (from_error id (parse_u32 text)) = Ok n ↔ parse_u32 text = Ok n) as Hnum
    by (intros; by rewrite with_context_ok, from_error_ok).
  destruct (TagConfig.area t) as [a|].
  { split.
    - destruct (with_context _ _) as [n|] eqn:Hn; [|done]. intros [= <- <-].
      exists addr. by rewrite <- Hnum.
    - intros (text & Hp & -> & ->). rewrite (proj2 (Hnum _ _) Hp). done. }
  destruct (after_d addr) as [rest|] eqn:Hd.
  - assert (addr = String "D" rest ∨ addr = String "d" rest) as Haddr.
    { destruct addr as [|c addr']; [done|]. simpl in Hd. case_bool_decide as Hc; [|done].
      injection Hd as <-. destruct Hc as [-> | ->]; auto. }
    apply after_d_digits in Hd. split.
    + destruct (is_empty rest || negb (all_digits rest)) eqn:Hr; [done|].
      apply orb_false_iff in Hr as [He%bool_decide_eq_false Hdig%negb_false_iff].
      destruct (with_context _ _) as [n|] eqn:Hn; [|done]. intros [= <- <-].
      exists rest. rewrite <- Hnum. split_and!; auto; tauto.
    + intros (text & Hp & -> & Hdig & Hnil & Htext).
      assert (text = rest) as ->.
      { destruct Htext as [Ht|[Ht|Ht]], Haddr as [Ha|Ha]; congruence. }
      unfold is_empty. rewrite bool_decide_false, Hdig by done. simpl.
      by rewrite (proj2 (Hnum _ _) Hp).
  - split.
    + destruct (all_digits addr) eqn:Hdig; [|done].
      destruct (with_context _ _) as [n|] eqn:Hn; [|done]. intros [= <- <-].
      exists addr. rewrite <- Hnum. split_and!; auto; tauto.
    + intros (text & Hp & -> & Hdig & Hnil & Htext).
      assert (addr = text) as ->.
      { destruct Htext as [?|[Ht|Ht]]; [done|..]; rewrite Ht in Hd; done. }
      rewrite Hdig. by rewrite (proj2 (Hnum _ _) Hp).
Qed.

(** The register a Modbus address means: itself below 40001, the human notation of a
    holding register from there on. *)
Definition modbus_location (t : TagConfig) (address : Z) : Prop :=
  ∃ raw, parse_u32 (trim (TagConfig.address t)) = Ok raw ∧
    (raw ≤ 40000 ∧ address = raw ∨ 40001 ≤ raw ≤ 105536 ∧ address = raw - 40001).

Lemma modbus_address_ok t address :
  modbus_address (trim (TagConfig.address t)) = Ok address ↔ modbus_location t address.
Proof.
  unfold modbus_address, modbus_location. set (addr := trim _).
  assert (∀ n, with_context ("Invalid Modbus address '" +:+ addr +:+ "'")
    (from_error id (parse_u32 addr)) = Ok n ↔ parse_u32 addr = Ok n) as Hnum
    by (intros; by rewrite with_context_ok, from_error_ok).
  assert (∀ raw, parse_u32 addr = Ok raw → ∀ address,
    (if 65535 <? (if 40001 <=? raw then u32_sub raw 40001 else raw)
     then anyhow ("Modbus address '" +:+ addr +:+ "' normalized to "
            +:+ fmt_dec (if 40001 <=? raw then u32_sub raw 40001 else raw) +:+ " exceeds u16 range")
     else Ok (as_u16 (if 40001 <=? raw then u32_sub raw 40001 else raw))) = Ok address ↔
    raw ≤ 40000 ∧ address = raw ∨ 40001 ≤ raw ≤ 105536 ∧ address = raw - 40001) as Hraw.
  { intros raw Hp%parse_u32_range a. unfold u32_sub, as_u32, as_u16, is_u32 in *. pow2_numerals.
    destruct (Z.leb_spec 40001 raw).
    - rewrite (Z.mod_small (raw - 40001)) by lia.
      destruct (Z.ltb_spec 65535 (raw - 40001)); [split; [done|lia]|].
      rewrite Z.mod_small by lia. split; [intros [= <-]; lia|intros [|[_ ->]]; [lia|done]].
    - destruct (Z.ltb_spec 65535 raw); [lia|]. rewrite Z.mod_small by lia.
      split; [intros [= <-]; lia|intros [[_ ->]|]; [done|lia]]. }
  split.
  - destruct (with_context _ _) as [raw|] ; [|done].
    assert (parse_u32 addr = Ok raw) as Hp by by apply Hnum.
    intros H%Hraw; [|done]. by exists raw.
  - intros (raw & Hp & H). rewrite (proj2 (Hnum _) Hp). by apply Hraw.
Qed.

(** The textual options of a tag, and the count its data type needs. *)
Definition options_read (t : TagConfig) (dt : TagDataType) (order : WordOrder) : Prop :=
  names_type (TagConfig.data_type t) dt ∧ names_order (TagConfig.byte_order t) order ∧
  count_fits dt (default 1 (TagConfig.word_count t)).

Definition modbus_mapping_of (t : TagConfig) (dt : TagDataType) (order : WordOrder) (address : Z)
    : ModbusMapping :=
  {| ModbusMapping.tag_id := TagConfig.id t; ModbusMapping.data_type := dt;
     ModbusMapping.address := address; ModbusMapping.quantity := default 1 (TagConfig.word_count t);
     ModbusMapping.function := if decide (dt = TagDataType.Bool) then ModbusFunction.Coils
                               else ModbusFunction.HoldingRegisters;
     ModbusMapping.bit_offset := 0; ModbusMapping.writable := TagConfig.writable t;
     ModbusMapping.byte_order := order |}.
Definition fins_mapping_of (t : TagConfig) (dt : TagDataType) (order : WordOrder)
    (area address : Z) : TagMapping :=
  {| TagMapping.tag_id := TagConfig.id t; TagMapping.area := area; TagMapping.address := address;
     TagMapping.bit_offset := 0; TagMapping.word_count := default 1 (TagConfig.word_count t);
     TagMapping.writable := TagConfig.writable t; TagMapping.byte_order := order;
     TagMapping.data_type := dt |}.

(** The mapping a tag's options describe, for either protocol. *)
Definition maps_modbus (t : TagConfig) (m : ModbusMapping) : Prop :=
  ∃ dt order address, options_read t dt order ∧ modbus_location t address ∧
    m = modbus_mapping_of t dt order address.
Definition maps_fins (t : TagConfig) (m : TagMapping) : Prop :=
  trim (TagConfig.address t) ≠ "" ∧
  ∃ dt order area address, options_read t dt order ∧ fins_location t area address ∧
    m = fins_mapping_of t dt order area address.

Lemma modbus_mapping_ok t m : tagconfig_to_modbus_mapping t = Ok m ↔ maps_modbus t m.
Proof.
  unfold maps_modbus, tagconfig_to_modbus_mapping, options_read. split.
  - destruct (modbus_address _) as [address|] eqn:Ha; [|done]. apply modbus_address_ok in Ha.
    destruct (parse_data_type _) as [dt|] eqn:Hd; [|done]. apply parse_data_type_ok in Hd.
    destruct (check_word_count _ _ _) as [[]|] eqn:Hc; [|done]. apply check_word_count_ok in Hc.
    destruct (parse_byte_order _ _) as [order|] eqn:Ho; [|done]. apply parse_byte_order_ok in Ho.
    intros [= <-]. exists dt, order, address. split_and!; try done.
    unfold modbus_mapping_of. by destruct dt.
  - intros (dt & order & address & (Hd & Ho & Hc) & Ha & ->).
    apply modbus_address_ok in Ha. rewrite Ha, (proj2 (parse_data_type_ok _ _) Hd).
    rewrite (proj2 (check_word_count_ok _ _ _) Hc).
    rewrite (proj2 (parse_byte_order_ok _ _ _) Ho). unfold modbus_mapping_of. by destruct dt.
Qed.

Lemma fins_mapping_ok t m : tagconfig_to_fins_mapping t = Ok m ↔ maps_fins t m.
Proof.
  unfold maps_fins, tagconfig_to_fins_mapping, options_read, is_empty. cbv zeta. case_bool_decide as Hne.
  { split; [done|]. by intros [? _]. }
  split.
  - intros H. split; [done|]. revert H.
    destruct (fins_address _ _) as [[area address]|] eqn:Ha; [|done]. apply fins_address_ok in Ha; [|done].
    destruct (parse_data_type _) as [dt|] eqn:Hd; [|done]. apply parse_data_type_ok in Hd.
    destruct (check_word_count _ _ _) as [[]|] eqn:Hc; [|done]. apply check_word_count_ok in Hc.
    destruct (parse_byte_order _ _) as [order|] eqn:Ho; [|done]. apply parse_byte_order_ok in Ho.
    intros [= <-]. by exists dt, order, area, address.
  - intros (_ & dt & order & area & address & (Hd & Ho & Hc) & Ha & ->).
    apply fins_address_ok in Ha; [|done]. rewrite Ha, (proj2 (parse_data_type_ok _ _) Hd).
    rewrite (proj2 (check_word_count_ok _ _ _) Hc).
    by rewrite (proj2 (parse_byte_order_ok _ _ _) Ho).
Qed.

(** The definition a tag's options describe: untouched texts, no staleness threshold and
    no metadata. *)
Definition defines (t : TagConfig) (plc : string) (d : TagDefinition) : Prop :=
  ∃ dt order, names_type (TagConfig.data_type t) dt ∧ names_order (TagConfig.byte_order t) order ∧
    d = {| TagDefinition.id := TagConfig.id t; TagDefinition.name := TagConfig.name t;
           TagDefinition.address := TagConfig.address t; TagDefinition.data_type := dt;
           TagDefinition.writable := TagConfig.writable t; TagDefinition.byte_order := order;
           TagDefinition.stale_after_ms := None; TagDefinition.metadata := None;
           TagDefinition.plc_name := plc |}.
Lemma definition_ok t plc d : tagconfig_to_definition t plc = Ok d ↔ defines t plc d.
Proof.
  unfold tagconfig_to_definition, defines. split.
  - destruct (parse_data_type _) as [dt|] eqn:Hd; [|done]. apply parse_data_type_ok in Hd.
    destruct (parse_byte_order _ _) as [order|] eqn:Ho; [|done]. apply parse_byte_order_ok in Ho.
    intros [= <-]. by exists dt, order.
  - intros (dt & order & Hd & Ho & ->). rewrite (proj2 (parse_data_type_ok _ _) Hd).
    by rewrite (proj2 (parse_byte_order_ok _ _ _) Ho).
Qed.

(** The options name one type and one order. *)
Lemma names_type_unique s dt dt' : names_type s dt → names_type s dt' → dt = dt'.
Proof. rewrite <- !parse_data_type_ok. congruence. Qed.
Lemma names_order_unique s o o' : names_order s o → names_order s o' → o = o'.
Proof. rewrite <- !(parse_byte_order_ok _ ""). congruence. Qed.

(** Which checks of the drivers' [validate] a converted mapping can still fail. *)
Lemma modbus_mapping_of_valid t dt order address :
  options_read t dt order →
  ModbusPlan.mapping_valid (modbus_mapping_of t dt order address) =
    negb (default 1 (TagConfig.word_count t) =? 0)
    && (bool_decide (order = WordOrder.ABCD ∨ order = WordOrder.BADC)
        || (2 <=? default 1 (TagConfig.word_count t))).
Proof.
  intros (_ & _ & Hc). unfold ModbusPlan.mapping_valid. simpl. set (n := default 1 _) in *.
  rewrite (bool_decide_false (_ ∨ _)) by (case_decide; intros [|]; done).
  rewrite !andb_false_r, !andb_true_r. simpl. f_equal.
  destruct dt; simpl in Hc; rewrite ?andb_true_r; try done;
    by rewrite (proj2 (Z.leb_le _ _) Hc), andb_true_r.
Qed.

Lemma fins_mapping_of_valid t dt order area address :
  options_read t dt order →
  FinsPlan.mapping_valid (fins_mapping_of t dt order area address) =
    negb (default 1 (TagConfig.word_count t) =? 0)
    && (bool_decide (order = WordOrder.ABCD ∨ order = WordOrder.BADC)
        || (2 <=? default 1 (TagConfig.word_count t))).
Proof.
  intros (_ & _ & Hc). unfold FinsPlan.mapping_valid. simpl. set (n := default 1 _) in *.
  rewrite andb_true_r. f_equal.
  destruct dt; simpl in Hc; rewrite ?andb_true_r; try done;
    by rewrite (proj2 (Z.leb_le _ _) Hc), andb_true_r.
Qed.

(** The values the conversions produce are those the fields can hold. *)
Lemma modbus_mapping_of_range t dt order address :
  TagConfig.in_range t → modbus_location t address →
  is_u16 (ModbusMapping.address (modbus_mapping_of t dt order address)) ∧
  is_u16 (ModbusMapping.quantity (modbus_mapping_of t dt order address)).
Proof.
  intros [Hn _] (raw & Hp%parse_u32_range & Hraw). simpl. int_ranges. split; [lia|].
  destruct (TagConfig.word_count t); simpl; [|lia]. by apply Hn.
Qed.

Lemma fins_mapping_of_range t dt order area address :
  TagConfig.in_range t → fins_location t area address →
  TagMapping.in_range (fins_mapping_of t dt order area address).
Proof.
  intros [Hn Ha] (text & Hp%parse_u32_range & Hloc). unfold TagMapping.in_range. simpl.
  assert (is_u8 area) as Harea.
  { destruct (TagConfig.area t); [by destruct Hloc as [-> _]; apply Ha|].
    destruct Hloc as [-> _]. by vm_compute. }
  split_and!; try done; [by vm_compute..|].
  destruct (TagConfig.word_count t); simpl; [|by vm_compute]. by apply Hn.
Qed.
End defs.

(** ** Properties *)

Section properties.
Context {U : UnicodeTables} {C : Chrono} {B : ByteOrder} {J : SerdeJson}.

(** C38: a Modbus tag is accepted exactly when its data type and byte order are known
    names, its count fits the type as far as it is checked, and its trimmed address is a
    number up to 105536; the mapping is then the one its options describe, with the
    number itself as the register below 40001 and the human notation from there on.
    The driver's own validation can then only reject a zero count, or a swapped word
    order on a single word. *)
Theorem modbus_mapping_accepted (t : TagConfig) (m : ModbusMapping) :
  (tagconfig_to_modbus_mapping t = Ok m ↔
   ∃ dt order address, options_read t dt order ∧ modbus_location t address ∧
     m = modbus_mapping_of t dt order address) ∧
  (tagconfig_to_modbus_mapping t = Ok m → TagConfig.in_range t →
   is_u16 (ModbusMapping.address m) ∧ is_u16 (ModbusMapping.quantity m) ∧
   is_ok (ModbusPlan.check_mapping m) =
     negb (ModbusMapping.quantity m =? 0)
     && (bool_decide (ModbusMapping.byte_order m = WordOrder.ABCD
                      ∨ ModbusMapping.byte_order m = WordOrder.BADC)
         || (2 <=? ModbusMapping.quantity m))).
Proof.
  split; [apply modbus_mapping_ok|].
  intros (dt & order & address & Ho & Hl & ->)%modbus_mapping_ok Hr.
  destruct (modbus_mapping_of_range t dt order address Hr Hl) as [? ?].
  split; [done|]. split; [done|].
  rewrite ModbusPlan.check_mapping_valid. by apply modbus_mapping_of_valid.
Qed.

(** A FINS tag is accepted exactly when its options are known names, its count fits
    the type as far as it is checked, and its trimmed address is a number in the explicit
    area, or digits with or without a leading D in the D area; the mapping is then the
    one described, with every field in its range.  The driver's own validation can then
    only reject a zero count, or a swapped word order on a single word. *)
Theorem fins_mapping_accepted (t : TagConfig) (m : TagMapping) :
  (tagconfig_to_fins_mapping t = Ok m ↔
   trim (TagConfig.address t) ≠ "" ∧
   ∃ dt order area address, options_read t dt order ∧ fins_location t area address ∧
     m = fins_mapping_of t dt order area address) ∧
  (tagconfig_to_fins_mapping t = Ok m → TagConfig.in_range t →
   TagMapping.in_range m ∧
   is_ok (FinsPlan.check_mapping m) =
     negb (TagMapping.word_count m =? 0)
     && (bool_decide (TagMapping.byte_order m = WordOrder.ABCD
                      ∨ TagMapping.byte_order m = WordOrder.BADC)
         || (2 <=? TagMapping.word_count m))).
Proof.
  split; [apply fins_mapping_ok|].
  intros (_ & dt & order & area & address & Ho & Hl & ->)%fins_mapping_ok Hr.
  split; [by apply fins_mapping_of_range|].
  rewrite FinsPlan.fins_check_mapping_valid. by apply fins_mapping_of_valid.
Qed.

(** The definition the clients see and the mapping the driver uses agree: made from
    the same configuration, they have the same id, data type, word order and
    writability, for either protocol; and no definition carries a staleness threshold. *)
Theorem tag_conversions_agree (t : TagConfig) (plc : string) (d : TagDefinition) :
  tagconfig_to_definition t plc = Ok d →
  TagDefinition.plc_name d = plc ∧ TagDefinition.stale_after_ms d = None ∧
  (∀ m, tagconfig_to_modbus_mapping t = Ok m →
     ModbusMapping.tag_id m = TagDefinition.id d ∧
     ModbusMapping.data_type m = TagDefinition.data_type d ∧
     ModbusMapping.byte_order m = TagDefinition.byte_order d ∧
     ModbusMapping.writable m = TagDefinition.writable d) ∧
  (∀ m, tagconfig_to_fins_mapping t = Ok m →
     TagMapping.tag_id m = TagDefinition.id d ∧
     TagMapping.data_type m = TagDefinition.data_type d ∧
     TagMapping.byte_order m = TagDefinition.byte_order d ∧
     TagMapping.writable m = TagDefinition.writable d).
Proof.
  intros (dt & order & Hdt & Ho & ->)%definition_ok. simpl.
  split; [done|]. split; [done|]. split.
  - intros m (dt' & order' & address & (Hdt' & Ho' & _) & _ & ->)%modbus_mapping_ok. simpl.
    by rewrite (names_type_unique _ _ _ Hdt Hdt'), (names_order_unique _ _ _ Ho Ho').
  - intros m (_ & dt' & order' & area & address & (Hdt' & Ho' & _) & _ & ->)%fins_mapping_ok. simpl.
    by rewrite (names_type_unique _ _ _ Hdt Hdt'), (names_order_unique _ _ _ Ho Ho').
Qed.

(** A 64-bit integer tag left with the default count of one word is accepted by the
    conversion and by the driver's validation; over Modbus the single register is then
    shown, as a good value, shifted into the top word, while over FINS it never decodes. *)
Theorem int64_default_count (t : TagConfig) (address area faddress w : Z) :
  names_type (TagConfig.data_type t) TagDataType.Int64 →
  names_order (TagConfig.byte_order t) WordOrder.ABCD →
  TagConfig.word_count t = None → is_u16 w →
  (modbus_location t address →
   ∃ m, tagconfig_to_modbus_mapping t = Ok m ∧ is_ok (ModbusPlan.check_mapping m) = true ∧
     ModbusCodec.decode_slice (ModbusMapping.data_type m) (ModbusMapping.byte_order m)
       (ModbusMapping.bit_offset m) (ModbusCodec.registers_to_bytes [w])
     = Some (Ok (TagValue.Int64 (as_i64 (w * 2 ^ 48))))) ∧
  (trim (TagConfig.address t) ≠ "" → fins_location t area faddress →
   ∃ m e, tagconfig_to_fins_mapping t = Ok m ∧ is_ok (FinsPlan.check_mapping m) = true ∧
     FinsCodec.decode_slice (TagMapping.data_type m) (TagMapping.byte_order m)
       (TagMapping.bit_offset m) (ModbusCodec.registers_to_bytes [w]) = Some (Err e)).
Proof.
  intros Hd Ho Hn Hw.
  assert (options_read t TagDataType.Int64 WordOrder.ABCD) as Hopt by done.
  split.
  - intros Hl. exists (modbus_mapping_of t TagDataType.Int64 WordOrder.ABCD address).
    split; [apply modbus_mapping_ok; by exists TagDataType.Int64, WordOrder.ABCD, address|].
    rewrite ModbusPlan.check_mapping_valid, modbus_mapping_of_valid by done.
    split; [by rewrite Hn|]. simpl. unfold ModbusCodec.decode_slice. cbn [mbind option_bind].
    unfold DriverCommon.apply_byte_order. simpl. do 3 f_equal.
    rewrite ModbusCodec.registers_to_bytes_cons.
    destruct (read_u16_eof []) as (r1 & H1 & Hr1); [simpl; lia|].
    destruct r1; [|simpl in Hr1; lia].
    unfold ModbusCodec.next_u64, ModbusCodec.next_u16. rewrite read_u16_ok.
    change (ModbusCodec.registers_to_bytes []) with (@nil Z). rewrite !H1. simpl.
    rewrite !Z.lor_0_r. unfold be_value. simpl.
    rewrite Z.mul_0_l, Z.add_0_l, hi_lo_byte by done.
    rewrite Z.shiftl_mul_pow2 by done. by rewrite as_u64_id by (int_ranges; lia).
  - intros Hne Hl. exists (fins_mapping_of t TagDataType.Int64 WordOrder.ABCD area faddress).
    eexists. split; [apply fins_mapping_ok; split; [done|]; by exists TagDataType.Int64, WordOrder.ABCD, area, faddress|].
    rewrite FinsPlan.fins_check_mapping_valid, fins_mapping_of_valid by done.
    split; [by rewrite Hn|]. simpl. unfold FinsCodec.decode_slice, DriverCommon.apply_byte_order.
    simpl. unfold FinsCodec.decode, FinsCodec.decode_fixed.
    rewrite ModbusCodec.registers_to_bytes_cons. reflexivity.
Qed.
End properties.

Section witnesses.
Local Existing Instances CratesRef.chrono_ref CratesRef.byteorder_ref CratesRef.json_ref.
Local Instance tables : UnicodeTables := {| lower_unicode := id |}.

Definition tag (id address data_type : string) (count : option Z) : TagConfig :=
  {| TagConfig.id := id; TagConfig.name := id; TagConfig.address := address;
     TagConfig.data_type := data_type; TagConfig.writable := true;
     TagConfig.byte_order := None; TagConfig.word_count := count; TagConfig.area := None |}.
Definition level : TagConfig :=
  {| TagConfig.id := "level"; TagConfig.name := "level"; TagConfig.address := " 40011 ";
     TagConfig.data_type := "Float"; TagConfig.writable := true;
     TagConfig.byte_order := Some "cdab"%string; TagConfig.word_count := Some 2;
     TagConfig.area := None |}.
Definition speed : TagConfig := tag "speed" "d100" "UInt32" (Some 2).
Definition total : TagConfig := tag "total" "100" "Int64" None.

Lemma level_location : modbus_location level 10.
Proof. exists 40011. split; [vm_refl|lia]. Qed.
Lemma level_range : TagConfig.in_range level ∧ TagConfig.in_range speed.
Proof. split; (split; [intros n [= <-]; by vm_compute|done]). Qed.

Lemma modbus_mapping_accepted_witness :
  tagconfig_to_modbus_mapping level =
    Ok (ModbusMapping.new "level" 10 2 ModbusFunction.HoldingRegisters TagDataType.Float 0 true
          WordOrder.CDAB) ∧
  is_ok (ModbusPlan.check_mapping (modbus_mapping_of level TagDataType.Float WordOrder.CDAB 10)) = true.
Proof.
  destruct (modbus_mapping_accepted level (modbus_mapping_of level TagDataType.Float WordOrder.CDAB 10))
    as [[_ Hok] Hvalid].
  assert (tagconfig_to_modbus_mapping level = Ok (modbus_mapping_of level TagDataType.Float WordOrder.CDAB 10))
    as Hm.
  { apply Hok. exists TagDataType.Float, WordOrder.CDAB, 10.
    split; [|split; [exact level_location|reflexivity]].
    split; [apply parse_data_type_ok; vm_refl|]. split; [by right|]. simpl. lia. }
  split; [exact Hm|]. exact (proj2 (proj2 (Hvalid Hm (proj1 level_range)))).
Defined.

Lemma fins_mapping_accepted_witness :
  tagconfig_to_fins_mapping speed =
    Ok (TagMapping.new "speed" 130 100 0 2 true WordOrder.ABCD TagDataType.UInt32) ∧
  TagMapping.in_range (fins_mapping_of speed TagDataType.UInt32 WordOrder.ABCD 130 100).
Proof.
  destruct (fins_mapping_accepted speed (fins_mapping_of speed TagDataType.UInt32 WordOrder.ABCD 130 100))
    as [_ Hvalid].
  assert (tagconfig_to_fins_mapping speed =
    Ok (fins_mapping_of speed TagDataType.UInt32 WordOrder.ABCD 130 100)) as Hm by vm_refl.
  split; [exact Hm|]. exact (proj1 (Hvalid Hm (proj2 level_range))).
Defined.

Definition speed_definition : TagDefinition :=
  match tagconfig_to_definition speed "plc" with
  | Ok d => d
  | Err _ => TagDefinition.new "" "" "" TagDataType.Bool ""
  end.
Lemma tag_conversions_agree_witness :
  TagDefinition.plc_name speed_definition = "plc"%string ∧
  TagDefinition.writable speed_definition = true.
Proof.
  destruct (tag_conversions_agree speed "plc" speed_definition ltac:(vm_refl))
    as (Hplc & _ & _ & Hf).
  split; [exact Hplc|].
  destruct (Hf (fins_mapping_of speed TagDataType.UInt32 WordOrder.ABCD 130 100) ltac:(vm_refl))
    as (_ & _ & _ & Hw).
  symmetry. exact Hw.
Defined.

Lemma int64_default_count_witness :
  ∃ m, tagconfig_to_modbus_mapping total = Ok m ∧ is_ok (ModbusPlan.check_mapping m) = true ∧
    ModbusCodec.decode_slice (ModbusMapping.data_type m) (ModbusMapping.byte_order m)
      (ModbusMapping.bit_offset m) (ModbusCodec.registers_to_bytes [5])
    = Some (Ok (TagValue.Int64 1407374883553280)).
Proof.
  destruct (int64_default_count total 100 130 100 5) as [Hm _];
    [apply parse_data_type_ok; vm_refl|by left|reflexivity|by vm_compute|].
  apply Hm. exists 100. split; [vm_refl|]. left. split; [lia|reflexivity].
Defined.
End witnesses.
End RuntimeTags.
