(* ===== verification/WriteHandler.v ===== *)
(** * Runtime: the write handler

    Models runtime/src/write_handler.rs: a write coming from OPC UA is checked against the
    registry, routed to the driver of its tag, queued there with a reply channel, and
    confirmed.  The queues and the reply channels ([tokio]) are an environment; the
    registry handle is the argument [r], the registry at the time of the call. *)

From stdpp Require Import base tactics numbers list gmap strings.
From S2P Require Import Prelude Effects RustStd RustStr Crates CratesRef TagValue Tag TagDefinition TagStore Registry RegistryRef ModbusTypes FinsTypes OpcUaConfig OpcUaWrites.
Local Open Scope Z_scope.

Module WriteHandler.
Import ServerError.
Section defs.
Context {C : Chrono} {J : SerdeJson}.

(** [time::timeout(t, tx.send(req)).await] and [time::timeout(t, reply_rx).await] *)
Inductive sent := Sent | SendFailed (msg : string) | SendTimedOut.
Inductive confirmation := Replied (r : result unit string) | ChannelClosed | ConfirmTimedOut.

Class WriteIO := {
  Env : Type;
  FinsSender : Type;
  ModbusSender : Type;
  (** [oneshot::channel()] *)
  oneshot : Env → nat * Env;
  fins_send : Z → FinsSender → FinsWriteRequest → Env → sent * Env;
  modbus_send : Z → ModbusSender → WriteRequest → Env → sent * Env;
  recv_reply : Z → nat → Env → confirmation * Env;
}.
Context {IO : WriteIO}.

(** [DriverSender] *)
Inductive DriverSender :=
| Fins (tx : FinsSender)
| Modbus (tx : ModbusSender).

(** [RuntimeWriteHandler]; durations in milliseconds *)
Record RuntimeWriteHandler := mk {
  routing : gmap string DriverSender;
  confirm_timeout : Z;
  driver_send_timeout : Z;
}.

(** [RuntimeWriteHandler::new] *)
Definition new (confirm_timeout : Z) : RuntimeWriteHandler :=
  {| routing := ∅; confirm_timeout := confirm_timeout; driver_send_timeout := 2000 |}.

(** [with_driver_send_timeout], [add_route_for_fins], [add_route_for_modbus] *)
Definition with_driver_send_timeout (h : RuntimeWriteHandler) (timeout : Z) : RuntimeWriteHandler :=
  {| routing := routing h; confirm_timeout := confirm_timeout h; driver_send_timeout := timeout |}.
Definition add_route_for_fins (h : RuntimeWriteHandler) (tag_id : string) (sender : FinsSender)
    : RuntimeWriteHandler :=
  {| routing := <[tag_id := Fins sender]> (routing h); confirm_timeout := confirm_timeout h;
     driver_send_timeout := driver_send_timeout h |}.
Definition add_route_for_modbus (h : RuntimeWriteHandler) (tag_id : string) (sender : ModbusSender)
    : RuntimeWriteHandler :=
  {| routing := <[tag_id := Modbus sender]> (routing h); confirm_timeout := confirm_timeout h;
     driver_send_timeout := driver_send_timeout h |}.

(** What the handler does on the outside. *)
Inductive event :=
| EvFins (tx : FinsSender) (req : FinsWriteRequest)
| EvModbus (tx : ModbusSender) (req : WriteRequest).

Record World := mkWorld { env : Env; log : list event }.
Definition env_op {A} (f : Env → A * Env) : M World ServerError A := λ w,
  let '(a, e) := f (env w) in (Ret a, {| env := e; log := log w |}).
Definition emit (ev : event) : M World ServerError unit :=
  modify (λ w, {| env := env w; log := log w ++ [ev] |}).

(** The [matches!] on the two values. *)
Definition same_variant (a b : TagValue) : bool :=
  match a, b with
  | TagValue.Bool _, TagValue.Bool _
  | TagValue.Int16 _, TagValue.Int16 _
  | TagValue.UInt16 _, TagValue.UInt16 _
  | TagValue.Int32 _, TagValue.Int32 _
  | TagValue.UInt32 _, TagValue.UInt32 _
  | TagValue.Int64 _, TagValue.Int64 _
  | TagValue.UInt64 _, TagValue.UInt64 _
  | TagValue.Float _, TagValue.Float _
  | TagValue.Double _, TagValue.Double _
  | TagValue.String _, TagValue.String _
  | TagValue.DateTime _, TagValue.DateTime _
  | TagValue.ByteString _, TagValue.ByteString _ => true
  | _, _ => false
  end.

(** Lines 93-145: the checks against the registry. *)
Definition validate_write (r : TagRegistry) (tag_id : string) (value : TagValue)
    : M World ServerError unit :=
  tag ← or_panic (TagStore.get (TagRegistry.tags r) tag_id);
  match tag with
  | Ok tag =>
      if negb (same_variant (Tag.value tag) value)
      then throw (Other ("Type mismatch for tag " +:+ tag_id)) else mret tt
  | Err e =>
      throw (Other ("Runtime tag not found " +:+ tag_id +:+ ": " +:+ CoreError.to_string e))
  end;;
  match TagRegistry.get_definition r tag_id with
  | Ok def =>
      if negb (TagDefinition.writable def)
      then throw (Other ("Tag " +:+ tag_id +:+ " is not writable")) else mret tt
  | Err _ => throw (Other ("Tag definition not found for " +:+ tag_id))
  end.

(** Lines 161-204: the request goes into the queue of the driver. *)
Definition enqueue (h : RuntimeWriteHandler) (sender : DriverSender) (tag_id : string)
    (value : TagValue) (reply_tx : nat) : M World ServerError unit :=
  match sender with
  | Fins tx =>
      let drv_req := {| FinsWriteRequest.tag_id := tag_id; FinsWriteRequest.value := value;
                        FinsWriteRequest.reply := Some reply_tx |} in
      s ← env_op (fins_send (driver_send_timeout h) tx drv_req);
      match s with
      | Sent => emit (EvFins tx drv_req)
      | SendFailed e => throw (Other ("Failed to enqueue FINS write: " +:+ e))
      | SendTimedOut => throw (Other "Timed out enqueuing FINS write")
      end
  | Modbus tx =>
      let drv_req := {| WriteRequest.tag_id := tag_id; WriteRequest.value := value;
                        WriteRequest.reply := Some reply_tx |} in
      s ← env_op (modbus_send (driver_send_timeout h) tx drv_req);
      match s with
      | Sent => emit (EvModbus tx drv_req)
      | SendFailed e => throw (Other ("Failed to enqueue Modbus write: " +:+ e))
      | SendTimedOut => throw (Other "Timed out enqueuing Modbus write")
      end
  end.

(** Lines 206-219: the confirmation. *)
Definition confirm (h : RuntimeWriteHandler) (reply_rx : nat) : M World ServerError unit :=
  c ← env_op (recv_reply (confirm_timeout h) reply_rx);
  match c with
  | Replied (Ok tt) => mret tt
  | Replied (Err err_msg) => throw (Other ("Driver reported write failure: " +:+ err_msg))
  | ChannelClosed => throw (Other "Write confirmation channel closed")
  | ConfirmTimedOut => throw (Other "Write confirmation timed out")
  end.

(** [RuntimeWriteHandler::handle_write] *)
Definition handle_write (h : RuntimeWriteHandler) (r : TagRegistry) (req : OpcUaWrite.WriteRequest)
    : M World ServerError unit :=
  let tag_id := OpcUaWrite.tag_id req in
  let value := OpcUaWrite.value req in
  validate_write r tag_id value;;
  match routing h !! tag_id with
  | None => throw (Other ("No driver route for tag " +:+ tag_id))
  | Some sender =>
      reply ← env_op oneshot;
      enqueue h sender tag_id value reply;;
      confirm h reply
  end.

(** ** What a write goes through *)

Lemma same_variant_type a b :
  same_variant a b = bool_decide (TagValue.data_type a = TagValue.data_type b).
Proof. by destruct a, b. Qed.

(** A well-formed registry lets through exactly the values of the declared type of a
    writable tag. *)
Definition accepts (r : TagRegistry) (tag_id : string) (value : TagValue) : Prop :=
  ∃ d, TagRegistry.defs r !! tag_id = Some d ∧
       TagDefinition.data_type d = TagValue.data_type value ∧ TagDefinition.writable d = true.

Lemma validate_write_run r tag_id value w :
  TagRegistry.wf r →
  (accepts r tag_id value ∧ validate_write r tag_id value w = (Ret tt, w)) ∨
  (¬ accepts r tag_id value ∧ ∃ msg, validate_write r tag_id value w = (Fail (Other msg), w)).
Proof.
  intros Hwf. unfold validate_write, accepts.
  rewrite (TagStore.get_view (TagRegistry.tags r)), or_panic_bind by apply Hwf.
  rewrite TagRegistry.get_definition_view.
  destruct (TagRegistry.defs r !! tag_id) as [d|] eqn:Hd.
  - destruct (TagRegistry.typed_tag _ _ _ _ (TagRegistry.wf_typed _ Hwf) Hd) as (t & Ht & Hty).
    unfold TagRegistry.view in Ht. rewrite Ht, same_variant_type, Hty.
    case_bool_decide as Heq; simpl; [|right; split; [naive_solver|by eexists]].
    destruct (TagDefinition.writable d) eqn:Hw; simpl.
    + left. split; [by exists d|done].
    + right. split; [|by eexists]. intros (d' & [= <-] & _ & ?). congruence.
  - right. split; [naive_solver|].
    destruct (TagStore.view (TagRegistry.tags r) !! tag_id) as [t|] eqn:Ht; simpl; [|by eexists].
    exfalso. destruct (TagRegistry.typed_def _ _ _ _ (TagRegistry.wf_typed _ Hwf) Ht). congruence.
Qed.

(** The event of a queued request. *)
Definition queued (sender : DriverSender) (req : OpcUaWrite.WriteRequest) (reply : nat) : event :=
  match sender with
  | Fins tx => EvFins tx {| FinsWriteRequest.tag_id := OpcUaWrite.tag_id req;
                            FinsWriteRequest.value := OpcUaWrite.value req;
                            FinsWriteRequest.reply := Some reply |}
  | Modbus tx => EvModbus tx {| WriteRequest.tag_id := OpcUaWrite.tag_id req;
                                WriteRequest.value := OpcUaWrite.value req;
                                WriteRequest.reply := Some reply |}
  end.
(** The queue operation for a sender. *)
Definition send_op (h : RuntimeWriteHandler) (sender : DriverSender)
    (req : OpcUaWrite.WriteRequest) (reply : nat) (e : Env) : sent * Env :=
  match sender with
  | Fins tx => fins_send (driver_send_timeout h) tx
                 {| FinsWriteRequest.tag_id := OpcUaWrite.tag_id req;
                    FinsWriteRequest.value := OpcUaWrite.value req;
                    FinsWriteRequest.reply := Some reply |} e
  | Modbus tx => modbus_send (driver_send_timeout h) tx
                   {| WriteRequest.tag_id := OpcUaWrite.tag_id req;
                      WriteRequest.value := OpcUaWrite.value req;
                      WriteRequest.reply := Some reply |} e
  end.

(** The outcome of a write that passed the checks and has a route. *)
Definition routed_outcome (h : RuntimeWriteHandler) (sender : DriverSender)
    (req : OpcUaWrite.WriteRequest) (w : World) (o : outcome ServerError unit) (w' : World) : Prop :=
  let '(reply, e1) := oneshot (env w) in
  let '(s, e2) := send_op h sender req reply e1 in
  match s with
  | Sent =>
      let '(c, e3) := recv_reply (confirm_timeout h) reply e2 in
      log w' = log w ++ [queued sender req reply] ∧ env w' = e3 ∧
      match c with
      | Replied (Ok tt) => o = Ret tt
      | Replied (Err m) => o = Fail (Other ("Driver reported write failure: " +:+ m))
      | ChannelClosed => o = Fail (Other "Write confirmation channel closed")
      | ConfirmTimedOut => o = Fail (Other "Write confirmation timed out")
      end
  | SendFailed _ | SendTimedOut => log w' = log w ∧ env w' = e2 ∧ ∃ m, o = Fail (Other m)
  end.

Lemma routed_run h sender req w :
  wp (reply ← env_op oneshot;
      enqueue h sender (OpcUaWrite.tag_id req) (OpcUaWrite.value req) reply;;
      confirm h reply) (routed_outcome h sender req w) w.
Proof.
  unfold wp, routed_outcome, mbind, M_bind, env_op.
  destruct (oneshot (env w)) as [reply e1]. simpl.
  destruct sender as [tx|tx]; simpl; unfold mbind, M_bind, env_op; simpl.
  - destruct (fins_send _ _ _ e1) as [s e2]. destruct s as [|m|]; simpl; [|by eauto..].
    unfold confirm, mbind, M_bind, env_op. simpl.
    by destruct (recv_reply _ reply e2) as [[[[]|m]| |] e3].
  - destruct (modbus_send _ _ _ e1) as [s e2]. destruct s as [|m|]; simpl; [|by eauto..].
    unfold confirm, mbind, M_bind, env_op. simpl.
    by destruct (recv_reply _ reply e2) as [[[[]|m]| |] e3].
Qed.

(** The outcome of a write. *)
Definition write_outcome (h : RuntimeWriteHandler) (r : TagRegistry) (req : OpcUaWrite.WriteRequest)
    (w : World) (o : outcome ServerError unit) (w' : World) : Prop :=
  match routing h !! OpcUaWrite.tag_id req with
  | Some sender =>
      (accepts r (OpcUaWrite.tag_id req) (OpcUaWrite.value req) ∧
       routed_outcome h sender req w o w') ∨
      (¬ accepts r (OpcUaWrite.tag_id req) (OpcUaWrite.value req) ∧ w' = w ∧
       ∃ m, o = Fail (Other m))
  | None => w' = w ∧ ∃ m, o = Fail (Other m)
  end.

Lemma handle_write_run h r req w :
  TagRegistry.wf r → wp (handle_write h r req) (write_outcome h r req w) w.
Proof.
  intros Hwf. unfold handle_write, write_outcome.
  destruct (validate_write_run r (OpcUaWrite.tag_id req) (OpcUaWrite.value req) w Hwf)
    as [[Ha Hrun]|[Ha [m Hrun]]]; unfold wp, mbind, M_bind; rewrite Hrun.
  - destruct (routing h !! _) as [sender|]; [|by eauto].
    left. split; [done|]. exact (routed_run h sender req w).
  - destruct (routing h !! _); eauto 6.
Qed.
End defs.
Arguments WriteIO : clear implicits.
Arguments WriteIO {_}.

(** ** Properties *)

Section properties.
Context {C : Chrono} {J : SerdeJson} {IO : WriteIO}.

(** C22: a write is queued only for a writable tag with a value of its declared type, and
    only at the driver the tag is routed to: otherwise it is refused without any effect.
    A write that gets there is queued exactly once, with the requested id and value and a
    fresh reply channel, and is reported successful exactly when the driver confirmed
    that request on that channel in time; a full or closed queue, a failure, a closed
    channel or a timeout is an error. *)
Theorem write_routed (h : RuntimeWriteHandler) (r : TagRegistry) (req : OpcUaWrite.WriteRequest)
    (w w' : World) (o : outcome ServerError unit) :
  TagRegistry.wf r → handle_write h r req w = (o, w') → write_outcome h r req w o w'.
Proof. intros Hwf Hrun. exact (wp_run _ _ _ _ _ (handle_write_run h r req w Hwf) Hrun). Qed.
End properties.

Section witnesses.
Import RegistryRef.
Local Existing Instances CratesRef.chrono_ref CratesRef.json_ref.

(** One queue of each kind, and a driver that confirms at once. *)
Record RefEnv := mkRef { next : nat; modbus : list WriteRequest; answer : confirmation }.
Definition write_io_ref : WriteIO :=
  {| Env := RefEnv; FinsSender := unit; ModbusSender := unit;
     oneshot e := (next e, {| next := S (next e); modbus := modbus e; answer := answer e |});
     fins_send _ _ _ e := (SendTimedOut, e);
     modbus_send _ _ req e :=
       (Sent, {| next := next e; modbus := modbus e ++ [req]; answer := answer e |});
     recv_reply _ _ e := (answer e, e) |}.
Local Existing Instance write_io_ref.

Definition setpoint : TagDefinition :=
  {| TagDefinition.id := "setpoint"; TagDefinition.name := "setpoint";
     TagDefinition.address := "10"; TagDefinition.data_type := TagDataType.UInt16;
     TagDefinition.writable := true; TagDefinition.byte_order := WordOrder.ABCD;
     TagDefinition.stale_after_ms := None; TagDefinition.metadata := None;
     TagDefinition.plc_name := "plc" |}.
Definition handler : RuntimeWriteHandler :=
  add_route_for_modbus (with_driver_send_timeout (new 5000) 2000) "setpoint" tt.
Definition request : OpcUaWrite.WriteRequest := OpcUaWrite.new "setpoint" (TagValue.UInt16 7).
Definition idle : World := {| env := mkRef 0 [] (Replied (Ok tt)); log := [] |}.
Definition registry : TagRegistry := ref_registry [setpoint].
Lemma handler_registry_wf : TagRegistry.wf registry.
Proof. apply ref_registry_wf. vm_refl. Qed.
Definition handled : World := (handle_write handler registry request idle).2.
Lemma handled_ok : (handle_write handler registry request idle).1 = Ret tt.
Proof. vm_refl. Qed.

Lemma write_routed_witness :
  accepts registry "setpoint" (TagValue.UInt16 7) ∧
  log handled = [EvModbus tt (WriteRequest.mk "setpoint" (TagValue.UInt16 7) (Some 0%nat))].
Proof.
  destruct (write_routed handler registry request idle handled (Ret tt) handler_registry_wf
    (run_eq (handle_write handler registry request) idle (Ret tt) handled_ok))
    as [[Ha (Hlog & _)]|(_ & _ & m & Hm)]; [|discriminate].
  split; [exact Ha|exact Hlog].
Defined.
End witnesses.
End WriteHandler.
