(* ===== verification/Startup.v ===== *)
(** * Runtime: start-up

    Models [main] of runtime/src/main.rs from the text of the configuration up to the
    start of the OPC UA server: the tag definitions and the registry, the set-up of the
    drivers and of the write routes, the settings of the server, and the task that keeps
    the latest health event of every PLC.  Name resolution and the drivers' write queues
    are an environment. *)

From stdpp Require Import base tactics numbers list gmap strings.
From S2P Require Import Prelude Effects RustStd RustStr RustSlice RustMap RustText Crates CratesRef TagValue Tag TagDefinition TagStore Registry RegistryRef DriverWorld ModbusTypes ModbusPlan FinsTypes FinsPlan DriverApi RuntimeDriver OpcUaConfig RuntimeConfig RuntimeTags WriteHandler.
Local Open Scope Z_scope.

Module Startup.
Import RuntimeTags WriteHandler.
Section defs.
Context {U : UnicodeTables} {C : Chrono} {J : SerdeJson} {IO : WriteIO}.
Context `{!HashIter ModbusFunction, !HashIter Z}.

(** ** The definitions *)

(** The inner loop over the tags of a PLC, and the loop over the PLCs. *)
Fixpoint tag_definitions (plc_name : string) (tags : list TagConfig)
    : result (list TagDefinition) anyhow_error :=
  match tags with
  | [] => Ok []
  | t :: tags =>
      let? def := with_context ("Failed to convert tag config for " +:+ plc_name +:+ "::"
                                +:+ TagConfig.id t) (tagconfig_to_definition t plc_name) in
      let? defs := tag_definitions plc_name tags in
      Ok (def :: defs)
  end.
Fixpoint all_definitions (plcs : list PlcConfig) : result (list TagDefinition) anyhow_error :=
  match plcs with
  | [] => Ok []
  | plc :: plcs =>
      let? defs := tag_definitions (PlcConfig.name plc) (PlcConfig.tags plc) in
      let? rest := all_definitions plcs in
      Ok (defs ++ rest)
  end.

(** ** The drivers *)

(** A driver that was set up: its configuration, its write queue and its poller. *)
Inductive driver :=
| FinsDrv (cfg : FinsConfig SocketAddr) (read_groups : list FinsPlan.ReadGroup) (tx : FinsSender)
    (poller : RuntimeDriver.RuntimeDriver)
| ModbusDrv (cfg : ModbusConfig SocketAddr) (tx : ModbusSender)
    (poller : RuntimeDriver.RuntimeDriver).

Class Network := {
  Env : Type;
  (** [lookup_host(host_port).await], as the list of its addresses *)
  lookup_host : string → Env → result (list SocketAddr) string * Env;
  (** the queue made by [FinsDriver::new] and by [ModbusDriver::new] *)
  fins_channel : Env → FinsSender * Env;
  modbus_channel : Env → ModbusSender * Env;
  (** [mpsc::channel::<JsonValue>(capacity)], [None] being its panic: the capacity must be
      positive and at most [Semaphore::MAX_PERMITS] *)
  health_channel : Z → option unit;
  max_permits : Z;
  health_channel_spec capacity :
    health_channel capacity = Some tt ↔ 0 < capacity ≤ max_permits;
  max_permits_enough : 128 ≤ max_permits;
}.
Context {N : Network}.

Record World := mkWorld { env : Env; handler : RuntimeWriteHandler; drivers : list driver }.
Notation MS := (M World anyhow_error).
Definition env_op {A} (f : Env → A * Env) : MS A := λ w,
  let '(a, e) := f (env w) in (Ret a, {| env := e; handler := handler w; drivers := drivers w |}).
Definition set_handler (f : RuntimeWriteHandler → RuntimeWriteHandler) : MS unit :=
  modify (λ w, {| env := env w; handler := f (handler w); drivers := drivers w |}).
Definition push_driver (d : driver) : MS unit :=
  modify (λ w, {| env := env w; handler := handler w; drivers := drivers w ++ [d] |}).

(** [resolve_endpoint] *)
Definition resolve_endpoint (host_port plc_name : string) : MS SocketAddr :=
  r ← env_op (lookup_host host_port);
  addrs ← of_result (with_context ("Failed to resolve endpoint " +:+ host_port +:+ " for " +:+ plc_name)
                       (from_error id r));
  match addrs with
  | a :: _ => mret a
  | [] => of_result (anyhow ("No addresses found for " +:+ host_port))
  end.

(** The loop that converts the tags of a PLC. *)
Fixpoint convert_tags {A} (convert : TagConfig → result A anyhow_error) (context : string)
    (tags : list TagConfig) : result (list A) anyhow_error :=
  match tags with
  | [] => Ok []
  | t :: tags =>
      let? m := with_context (context +:+ "::" +:+ TagConfig.id t) (convert t) in
      let? ms := convert_tags convert context tags in
      Ok (m :: ms)
  end.

(** The poller of a PLC, started. *)
Definition poller_of (plc : PlcConfig) : RuntimeDriver.RuntimeDriver :=
  RuntimeDriver.set_health_sender (RuntimeDriver.new (PlcConfig.name plc) (PlcConfig.cycle_ms plc)).

(** [setup_fins_driver]; [fuel] bounds the precomputation of the read groups. *)
Definition fins_config (plc : PlcConfig) (endpoint : SocketAddr) (mappings : list TagMapping)
    : FinsConfig SocketAddr :=
  {| FinsConfig.name := PlcConfig.name plc; FinsConfig.endpoint := endpoint;
     FinsConfig.cycle_ms := PlcConfig.cycle_ms plc;
     FinsConfig.keepalive_secs := default 30 (PlcConfig.keepalive_secs plc);
     FinsConfig.max_backoff_secs := default 30 (PlcConfig.max_backoff_secs plc);
     FinsConfig.mappings := mappings;
     FinsConfig.max_words_per_request := default 960 (PlcConfig.max_words_per_request plc) |}.
Definition setup_fins_driver (fuel : nat) (plc : PlcConfig) : MS unit :=
  endpoint ← resolve_endpoint (PlcConfig.endpoint plc) (PlcConfig.name plc);
  mappings ← of_result (convert_tags tagconfig_to_fins_mapping
               ("FINS mapping error for " +:+ PlcConfig.name plc) (PlcConfig.tags plc));
  let fins_cfg := fins_config plc endpoint mappings in
  match FinsPlan.read_groups (FinsConfig.max_words_per_request fins_cfg) mappings fuel with
  | None => pending
  | Some rgs =>
      sender ← env_op fins_channel;
      of_result (match FinsPlan.validate mappings with
                 | Ok tt => Ok tt
                 | Err e => anyhow ("FINS driver validation failed for " +:+ PlcConfig.name plc
                                    +:+ ": " +:+ FinsError.to_string e)
                 end);;
      for_each (λ t, set_handler (λ h, add_route_for_fins h (TagConfig.id t) sender))
        (PlcConfig.tags plc);;
      push_driver (FinsDrv fins_cfg rgs sender (poller_of plc))
  end.

(** [setup_modbus_driver] *)
Definition modbus_config (plc : PlcConfig) (endpoint : SocketAddr) (mappings : list ModbusMapping)
    : ModbusConfig SocketAddr :=
  {| ModbusConfig.name := PlcConfig.name plc; ModbusConfig.endpoint := endpoint;
     ModbusConfig.unit_id := default 1 (PlcConfig.unit_id plc);
     ModbusConfig.cycle_ms := PlcConfig.cycle_ms plc; ModbusConfig.mappings := mappings;
     ModbusConfig.keepalive_secs := default 30 (PlcConfig.keepalive_secs plc);
     ModbusConfig.max_backoff_secs := default 30 (PlcConfig.max_backoff_secs plc);
     ModbusConfig.io_timeout_ms := default 2000 (PlcConfig.io_timeout_ms plc) |}.
Definition setup_modbus_driver (plc : PlcConfig) : MS unit :=
  endpoint ← resolve_endpoint (PlcConfig.endpoint plc) (PlcConfig.name plc);
  mappings ← of_result (convert_tags tagconfig_to_modbus_mapping
               ("Modbus mapping error for " +:+ PlcConfig.name plc) (PlcConfig.tags plc));
  let modbus_cfg := modbus_config plc endpoint mappings in
  sender ← env_op modbus_channel;
  of_result (match ModbusPlan.validate mappings with
             | Ok tt => Ok tt
             | Err e => anyhow ("Modbus driver validation failed for " +:+ PlcConfig.name plc
                                +:+ ": " +:+ ModbusError.to_string e)
             end);;
  for_each (λ t, set_handler (λ h, add_route_for_modbus h (TagConfig.id t) sender))
    (PlcConfig.tags plc);;
  push_driver (ModbusDrv modbus_cfg sender (poller_of plc)).

(** Lines 270-297: the protocol decides. *)
Definition setup_driver (fuel : nat) (plc : PlcConfig) : MS unit :=
  let protocol := to_lowercase (PlcConfig.protocol plc) in
  if decide (protocol = "fins") then setup_fins_driver fuel plc
  else if decide (protocol = "modbus") then setup_modbus_driver plc
  else mret tt.

(** ** The settings of the OPC UA server *)

(** [{:?}] of a security mode *)
Definition mode_debug (m : OpcUaConfig.SecurityMode) : string :=
  match m with
  | OpcUaConfig.NoSecurity => "None"
  | OpcUaConfig.Sign => "Sign"
  | OpcUaConfig.SignAndEncrypt => "SignAndEncrypt"
  end.

(** Lines 300-332. *)
Definition server_settings (c : OpcUaSection) : result OpcUaConfig anyhow_error :=
  let? write_mode := from_error id (RuntimeConfig.parse_write_mode (OpcUaSection.write_mode c)) in
  let? security_mode :=
    from_error id (RuntimeConfig.parse_security_mode (OpcUaSection.security_mode c)) in
  let? security_policy :=
    from_error id (RuntimeConfig.parse_security_policy (OpcUaSection.security_policy c)) in
  if negb (bool_decide (security_mode = OpcUaConfig.NoSecurity))
     && (negb (bool_decide (is_Some (OpcUaSection.server_certificate_path c)))
         || negb (bool_decide (is_Some (OpcUaSection.server_private_key_path c))))
  then anyhow ("Security mode " +:+ mode_debug security_mode +:+
               " requires server_certificate_path and server_private_key_path to be set")
  else
    let cfg := RuntimeConfig.build_opcua_config c write_mode security_mode security_policy in
    let? _ := from_error (λ e, "OPC UA configuration is invalid: " +:+ ConfigError.to_string e)
                (OpcUaConfig.validate cfg) in
    Ok cfg.

(** ** [main] *)

Context {F : RuntimeConfig.Formats}.

(** [cfg.health_channel_capacity.unwrap_or(128)] *)
Definition health_capacity (cfg : RuntimeConfig) : Z :=
  default 128 (RuntimeConfig.health_channel_capacity cfg).

(** Lines 210-332: from the text of the configuration file to the registry and the
    settings the server is started with; [clock] gives the readings of [Utc::now()]. *)
Definition startup (fuel : nat) (clock : nat → DateTimeUtc) (extension : option string)
    (cfg_text : string) : MS (TagRegistry * OpcUaConfig) :=
  cfg ← of_result (from_error (λ e, "Config parse error: " +:+ e)
                     (RuntimeConfig.load_runtime_config extension cfg_text));
  definitions ← of_result (all_definitions (RuntimeConfig.plcs cfg));
  registry ← or_panic (TagRegistry.from_definitions clock definitions);
  registry ← of_result (from_error (λ e, "Failed building TagRegistry: " +:+ CoreError.to_string e)
                          registry);
  let send_timeout := default 2000 (RuntimeConfig.driver_write_send_timeout_ms cfg) in
  let confirm_timeout := default 5000 (RuntimeConfig.write_confirm_timeout_ms cfg) in
  set_handler (λ _, with_driver_send_timeout (WriteHandler.new confirm_timeout) send_timeout);;
  or_panic (health_channel (health_capacity cfg));;
  for_each (setup_driver fuel) (RuntimeConfig.plcs cfg);;
  settings ← of_result (server_settings (RuntimeConfig.opcua cfg));
  mret (registry, settings).

(** ** The health task *)

(** Lines 249-264: one event, and the events of the channel in the bursts in which the
    task takes them ([recv], then [try_recv] until it is empty). *)
Definition handle_event (known_plcs : gset string) (dash : gmap string JsonValue) (evt : JsonValue)
    : gmap string JsonValue :=
  match json_get_str evt "plc" with
  | Some plc => if decide (plc ∈ known_plcs) then <[plc := evt]> dash else dash
  | None => dash
  end.
Definition health_task (known_plcs : gset string) (bursts : list (JsonValue * list JsonValue))
    : gmap string JsonValue :=
  foldl (λ dash burst, foldl (handle_event known_plcs) (handle_event known_plcs dash burst.1) burst.2)
    ∅ bursts.

(** ** What start-up sets up *)

Lemma Forall2_cons_l {A1 A2} (P : A1 → A2 → Prop) x l k :
  Forall2 P (x :: l) k ↔ ∃ y k', P x y ∧ Forall2 P l k' ∧ k = y :: k'.
Proof.
  split; [inversion 1; subst; eauto|]. intros (y & k' & ? & ? & ->). by constructor.
Qed.

Lemma tag_definitions_spec plc tags ds :
  tag_definitions plc tags = Ok ds ↔
  Forall2 (λ t d, tagconfig_to_definition t plc = Ok d) tags ds.
Proof.
  revert ds. induction tags as [|t tags IH]; intros ds; simpl.
  { split; [intros [= <-]; constructor|by inversion 1]. }
  rewrite Forall2_cons_l. destruct (tagconfig_to_definition t plc) as [d|e]; simpl.
  - destruct (tag_definitions plc tags) as [ds'|e].
    + split; [intros [= <-]; do 2 eexists; split_and!; [done|by apply IH|done]|].
      intros (d' & ds'' & [= <-] & [= ->]%IH & ->). done.
    + split; [done|]. by intros (d' & ds'' & _ & Hds%IH & _).
  - split; [done|]. by intros (d' & ds'' & ? & _).
Qed.

(** The tags of a list of PLCs, each with the name of its PLC. *)
Definition tags_of (plcs : list PlcConfig) : list (string * TagConfig) :=
  plcs ≫= λ plc, pair (PlcConfig.name plc) <$> PlcConfig.tags plc.

Lemma all_definitions_spec plcs ds :
  all_definitions plcs = Ok ds ↔
  Forall2 (λ pt d, tagconfig_to_definition pt.2 pt.1 = Ok d) (tags_of plcs) ds.
Proof.
  revert ds. induction plcs as [|plc plcs IH]; intros ds; simpl.
  { split; [intros [= <-]; constructor|by inversion 1]. }
  unfold tags_of in *. simpl.
  assert (∀ ds1, Forall2 (λ pt d, tagconfig_to_definition pt.2 pt.1 = Ok d)
      (pair (PlcConfig.name plc) <$> PlcConfig.tags plc) ds1 ↔
    tag_definitions (PlcConfig.name plc) (PlcConfig.tags plc) = Ok ds1) as Hone.
  { intros ds1. rewrite tag_definitions_spec. by rewrite Forall2_fmap_l. }
  split.
  - destruct (tag_definitions _ _) as [ds1|e] eqn:H1; [|done].
    destruct (all_definitions plcs) as [ds2|e]; [|done]. intros [= <-].
    apply Forall2_app; [by apply Hone|by apply IH].
  - intros (ds1 & ds2 & H1%Hone & H2%IH & ->)%Forall2_app_inv_l. by rewrite H1, H2.
Qed.

Lemma convert_tags_spec {A} (convert : TagConfig → result A anyhow_error) context tags ms :
  convert_tags convert context tags = Ok ms ↔ Forall2 (λ t m, convert t = Ok m) tags ms.
Proof.
  revert ms. induction tags as [|t tags IH]; intros ms; simpl.
  { split; [intros [= <-]; constructor|by inversion 1]. }
  rewrite Forall2_cons_l. destruct (convert t) as [m|e]; simpl.
  - destruct (convert_tags convert context tags) as [ms'|e].
    + split; [intros [= <-]; do 2 eexists; split_and!; [done|by apply IH|done]|].
      intros (d' & ds'' & [= <-] & [= ->]%IH & ->). done.
    + split; [done|]. by intros (d' & ds'' & _ & Hds%IH & _).
  - split; [done|]. by intros (d' & ds'' & ? & _).
Qed.

(** An address is the first one the name of an endpoint was resolved to. *)
Definition resolved (host_port : string) (addr : SocketAddr) : Prop :=
  ∃ e addrs, (lookup_host host_port e).1 = Ok (addr :: addrs).

(** The driver a PLC gets: of its protocol, with the options of the PLC or what stands
    for those left out, the mappings that exactly its tags describe, in order, which the
    driver's validation accepts, and a poller of its name and cycle time that reports. *)
Definition driver_for (fuel : nat) (plc : PlcConfig) (d : driver) : Prop :=
  let or (n : Z) (o : option Z) := match o with Some m => m | None => n end in
  let poller := {| RuntimeDriver.name := PlcConfig.name plc;
                   RuntimeDriver.poll_interval := PlcConfig.cycle_ms plc;
                   RuntimeDriver.health_tx := true; RuntimeDriver.max_backoff_secs := 30 |} in
  match d with
  | FinsDrv cfg rgs _ p =>
      to_lowercase (PlcConfig.protocol plc) = "fins"%string ∧
      Forall2 maps_fins (PlcConfig.tags plc) (FinsConfig.mappings cfg) ∧
      FinsPlan.validate (FinsConfig.mappings cfg) = Ok tt ∧
      FinsPlan.read_groups (FinsConfig.max_words_per_request cfg) (FinsConfig.mappings cfg) fuel = Some rgs ∧
      p = poller ∧ resolved (PlcConfig.endpoint plc) (FinsConfig.endpoint cfg) ∧
      FinsConfig.name cfg = PlcConfig.name plc ∧
      FinsConfig.cycle_ms cfg = PlcConfig.cycle_ms plc ∧
      FinsConfig.keepalive_secs cfg = or 30 (PlcConfig.keepalive_secs plc) ∧
      FinsConfig.max_backoff_secs cfg = or 30 (PlcConfig.max_backoff_secs plc) ∧
      FinsConfig.max_words_per_request cfg = or 960 (PlcConfig.max_words_per_request plc)
  | ModbusDrv cfg _ p =>
      to_lowercase (PlcConfig.protocol plc) = "modbus"%string ∧
      Forall2 maps_modbus (PlcConfig.tags plc) (ModbusConfig.mappings cfg) ∧
      ModbusPlan.validate (ModbusConfig.mappings cfg) = Ok tt ∧
      p = poller ∧ resolved (PlcConfig.endpoint plc) (ModbusConfig.endpoint cfg) ∧
      ModbusConfig.name cfg = PlcConfig.name plc ∧
      ModbusConfig.unit_id cfg = or 1 (PlcConfig.unit_id plc) ∧
      ModbusConfig.cycle_ms cfg = PlcConfig.cycle_ms plc ∧
      ModbusConfig.keepalive_secs cfg = or 30 (PlcConfig.keepalive_secs plc) ∧
      ModbusConfig.max_backoff_secs cfg = or 30 (PlcConfig.max_backoff_secs plc) ∧
      ModbusConfig.io_timeout_ms cfg = or 2000 (PlcConfig.io_timeout_ms plc)
  end.
Definition supported (plc : PlcConfig) : Prop :=
  to_lowercase (PlcConfig.protocol plc) = "fins"%string ∨
  to_lowercase (PlcConfig.protocol plc) = "modbus"%string.
#[local] Instance supported_dec plc : Decision (supported plc).
Proof. unfold supported. apply _. Defined.

(** The queue of a driver, and the routes to it. *)
Definition queue_of (d : driver) : DriverSender :=
  match d with FinsDrv _ _ tx _ => Fins tx | ModbusDrv _ tx _ => Modbus tx end.
Definition routes_to (plc : PlcConfig) (d : driver) : list (string * DriverSender) :=
  (λ t, (TagConfig.id t, queue_of d)) <$> PlcConfig.tags plc.
Definition add_routes (m : gmap string DriverSender) (l : list (string * DriverSender))
    : gmap string DriverSender := foldl (λ m p, <[p.1 := p.2]> m) m l.

Lemma add_routes_lookup m l k v :
  NoDup l.*1 → add_routes m l !! k = Some v ↔ (k, v) ∈ l ∨ (k ∉ l.*1 ∧ m !! k = Some v).
Proof.
  revert m. induction l as [|[k' v'] l IH]; intros m Hnd; csimpl.
  { split; [|intros [?%not_elem_of_nil|[_ ?]]; done]. right. split; [apply not_elem_of_nil|done]. }
  apply NoDup_cons in Hnd as [Hk Hnd]. unfold add_routes in *. simpl. rewrite IH by done.
  destruct (decide (k = k')) as [->|Hne].
  - rewrite lookup_insert_eq. split.
    + intros [Hin|[_ [= ->]]]; [|by left; left].
      destruct Hk. apply list_elem_of_fmap. by exists (k', v).
    + intros [[[= ->]|Hin]%elem_of_cons|[Hn _]]; [by right|by left|].
      destruct Hn. by left.
  - rewrite lookup_insert_ne by done. rewrite not_elem_of_cons, elem_of_cons. naive_solver.
Qed.

(** The time a write may wait, for the queue and for its confirmation. *)
Definition timeouts (w : World) : Z * Z :=
  (driver_send_timeout (handler w), confirm_timeout (handler w)).

Lemma set_routes_run {A} (f : RuntimeWriteHandler → string → A → RuntimeWriteHandler) (q : DriverSender)
    (s : A) (tags : list TagConfig) (w : World) :
  (∀ h id, f h id s = {| routing := <[id := q]> (routing h); confirm_timeout := confirm_timeout h;
                         driver_send_timeout := driver_send_timeout h |}) →
  wp (for_each (λ t, set_handler (λ h, f h (TagConfig.id t) s)) tags)
     (λ o w', o = Ret tt ∧ drivers w' = drivers w ∧ timeouts w' = timeouts w ∧
        routing (handler w') =
          add_routes (routing (handler w)) ((λ t, (TagConfig.id t, q)) <$> tags)) w.
Proof.
  intros Hf. revert w. induction tags as [|t tags IH]; intros w; simpl; [by apply wp_ret|].
  apply wp_bind. unfold wp at 1. simpl. eapply wp_mono; [apply IH|]. simpl.
  intros o w' (-> & Hd & Ht & Hr). split; [done|]. split; [done|].
  rewrite Hr, Ht. unfold timeouts. simpl. by rewrite Hf.
Qed.

(** What setting up a PLC does when it succeeds. *)
Definition set_up (fuel : nat) (plc : PlcConfig) (w w' : World) : Prop :=
  timeouts w' = timeouts w ∧
  if decide (supported plc) then
    ∃ d, driver_for fuel plc d ∧ drivers w' = drivers w ++ [d] ∧
         routing (handler w') = add_routes (routing (handler w)) (routes_to plc d)
  else drivers w' = drivers w ∧ handler w' = handler w.

Lemma resolve_endpoint_run hp name w :
  wp (resolve_endpoint hp name)
     (λ o w', o ≠ Panic ∧ drivers w' = drivers w ∧ handler w' = handler w ∧
        ∀ addr, o = Ret addr → resolved hp addr) w.
Proof.
  unfold resolve_endpoint. apply wp_bind. unfold wp at 1, env_op.
  destruct (lookup_host hp (env w)) as [[addrs|e] e1] eqn:Hl; simpl.
  - apply wp_bind, wp_ret. simpl. destruct addrs as [|a addrs]; [by apply wp_throw|].
    apply wp_ret. split_and!; [done..|]. intros addr [= <-]. exists (env w), addrs. by rewrite Hl.
  - apply wp_bind, wp_throw. done.
Qed.

(** The texts of the security options and of the write mode, and their meaning. *)
Definition names_write_mode (s : string) (m : OpcUaConfig.WriteMode) : Prop :=
  match m with
  | OpcUaConfig.QueuedAck => s = "QueuedAck"
  | OpcUaConfig.ConfirmedAck => s = "ConfirmedAck" ∨ s = ""
  end%string.
Definition names_mode (s : option string) (m : OpcUaConfig.SecurityMode) : Prop :=
  match m with
  | OpcUaConfig.NoSecurity => s = None ∨ s = Some "" ∨ s = Some "None"
  | OpcUaConfig.Sign => s = Some "Sign"
  | OpcUaConfig.SignAndEncrypt => s = Some "SignAndEncrypt"
  end%string.
Definition names_policy (s : option string) (p : OpcUaConfig.SecurityPolicy) : Prop :=
  match p with
  | OpcUaConfig.NoPolicy => s = None ∨ s = Some "" ∨ s = Some "None"
  | OpcUaConfig.Basic128Rsa15 => s = Some "Basic128Rsa15"
  | OpcUaConfig.Basic256 => s = Some "Basic256"
  | OpcUaConfig.Basic256Sha256 => s = Some "Basic256Sha256"
  end%string.

(** The settings are those of the section, option by option. *)
Definition set_as (c : OpcUaSection) (s : OpcUaConfig) : Prop :=
  ∃ mode security policy,
    names_write_mode (OpcUaSection.write_mode c) mode ∧
    names_mode (OpcUaSection.security_mode c) security ∧
    names_policy (OpcUaSection.security_policy c) policy ∧
    s = {| OpcUaConfig.bind_addr := OpcUaSection.bind_addr c; OpcUaConfig.port := OpcUaSection.port c;
           OpcUaConfig.application_name := OpcUaSection.application_name c;
           OpcUaConfig.application_uri := OpcUaSection.application_uri c;
           OpcUaConfig.namespace_uri := OpcUaSection.namespace_uri c;
           OpcUaConfig.anonymous_enabled := OpcUaSection.anonymous_enabled c;
           OpcUaConfig.username_password_enabled := OpcUaSection.username_password_enabled c;
           OpcUaConfig.max_sessions := OpcUaSection.max_sessions c;
           OpcUaConfig.max_subscriptions := OpcUaSection.max_subscriptions c;
           OpcUaConfig.write_mode := mode; OpcUaConfig.security_mode := security;
           OpcUaConfig.security_policy := policy;
           OpcUaConfig.certificates :=
             {| OpcUaConfig.server_certificate_path := OpcUaSection.server_certificate_path c;
                OpcUaConfig.server_private_key_path := OpcUaSection.server_private_key_path c;
                OpcUaConfig.trust_store_dir := OpcUaSection.trust_store_dir c;
                OpcUaConfig.reject_store_dir := OpcUaSection.reject_store_dir c;
                OpcUaConfig.min_key_length :=
                  match OpcUaSection.min_key_length c with Some n => n | None => 2048 end |} |}.

Lemma write_mode_named s m : RuntimeConfig.parse_write_mode s = Ok m → names_write_mode s m.
Proof. unfold RuntimeConfig.parse_write_mode. repeat case_decide; intros [= <-]; simpl; auto. Qed.
Lemma security_mode_named s m : RuntimeConfig.parse_security_mode s = Ok m → names_mode s m.
Proof.
  unfold RuntimeConfig.parse_security_mode. destruct s; repeat case_decide; intros [= <-]; simpl;
    naive_solver.
Qed.
Lemma security_policy_named s m : RuntimeConfig.parse_security_policy s = Ok m → names_policy s m.
Proof.
  unfold RuntimeConfig.parse_security_policy. destruct s; repeat case_decide; intros [= <-]; simpl;
    naive_solver.
Qed.

(** The settings of a successful start-up, and what they passed. *)
Lemma server_settings_ok c s :
  server_settings c = Ok s →
  set_as c s ∧ OpcUaConfig.validate s = Ok tt ∧
  (OpcUaConfig.security_mode s ≠ OpcUaConfig.NoSecurity →
   is_Some (OpcUaConfig.server_certificate_path (OpcUaConfig.certificates s)) ∧
   is_Some (OpcUaConfig.server_private_key_path (OpcUaConfig.certificates s))).
Proof.
  unfold server_settings.
  destruct (RuntimeConfig.parse_write_mode _) as [wm|] eqn:Hwm; [|done]. simpl.
  destruct (RuntimeConfig.parse_security_mode _) as [sm|] eqn:Hsm; [|done]. simpl.
  destruct (RuntimeConfig.parse_security_policy _) as [sp|] eqn:Hsp; [|done]. simpl.
  destruct (negb (bool_decide (sm = _)) && _) eqn:Hsec; [done|].
  destruct (OpcUaConfig.validate _) as [[]|] eqn:Hv; [|done]. intros [= <-]. split_and!; [|done|].
  - exists wm, sm, sp.
    split_and!; [by apply write_mode_named|by apply security_mode_named|by apply security_policy_named|].
    unfold RuntimeConfig.build_opcua_config. by destruct (OpcUaSection.min_key_length c).
  - simpl. intros Hne. rewrite bool_decide_false in Hsec by done. simpl in Hsec.
    apply orb_false_iff in Hsec as [H1 H2]. rewrite negb_false_iff, bool_decide_eq_true in H1, H2.
    done.
Qed.

Notation ends Q := (λ o w', o ≠ Panic ∧ (o = Ret tt → Q w')).

Lemma setup_fins_run fuel plc w :
  to_lowercase (PlcConfig.protocol plc) = "fins"%string →
  wp (setup_fins_driver fuel plc) (ends (set_up fuel plc w)) w.
Proof.
  intros Hp. unfold setup_fins_driver. apply wp_bind. eapply wp_mono; [apply resolve_endpoint_run|].
  intros o w1 (Hnp & Hd1 & Hh1 & Haddr). destruct o as [addr|e| |]; simpl; [|done..].
  specialize (Haddr addr eq_refl).
  apply wp_bind. destruct (convert_tags _ _ _) as [ms|e] eqn:Hms; [|by apply wp_throw].
  apply wp_ret. simpl. apply convert_tags_spec in Hms.
  apply (Forall2_impl _ maps_fins) in Hms; [|intros t m; apply fins_mapping_ok].
  destruct (FinsPlan.read_groups _ ms fuel) as [rgs|] eqn:Hrg; [|by apply wp_pending].
  apply wp_bind. unfold wp at 1, env_op. destruct (fins_channel (env w1)) as [tx e1]. simpl.
  apply wp_bind. destruct (FinsPlan.validate ms) as [[]|e] eqn:Hv; [|by apply wp_throw].
  apply wp_ret. simpl. apply wp_bind.
  eapply wp_mono; [apply (set_routes_run add_route_for_fins (Fins tx)); done|]. simpl.
  intros o w2 (-> & Hd2 & Ht2 & Hr2). simpl. unfold wp. simpl. split; [done|]. intros _.
  unfold set_up. split; [unfold timeouts in *; simpl; rewrite Ht2; simpl; by rewrite Hh1|]. rewrite decide_True by by left.
  exists (FinsDrv (fins_config plc addr ms) rgs tx (poller_of plc)). split_and!.
  - done.
  - simpl. by rewrite Hd2, Hd1.
  - simpl. by rewrite Hr2, Hh1.
Qed.

Lemma setup_modbus_run fuel plc w :
  to_lowercase (PlcConfig.protocol plc) = "modbus"%string →
  wp (setup_modbus_driver plc) (ends (set_up fuel plc w)) w.
Proof.
  intros Hp. unfold setup_modbus_driver. apply wp_bind. eapply wp_mono; [apply resolve_endpoint_run|].
  intros o w1 (Hnp & Hd1 & Hh1 & Haddr). destruct o as [addr|e| |]; simpl; [|done..].
  specialize (Haddr addr eq_refl).
  apply wp_bind. destruct (convert_tags _ _ _) as [ms|e] eqn:Hms; [|by apply wp_throw].
  apply wp_ret. simpl. apply convert_tags_spec in Hms.
  apply (Forall2_impl _ maps_modbus) in Hms; [|intros t m; apply modbus_mapping_ok].
  apply wp_bind. unfold wp at 1, env_op. destruct (modbus_channel (env w1)) as [tx e1]. simpl.
  apply wp_bind. destruct (ModbusPlan.validate ms) as [[]|e] eqn:Hv; [|by apply wp_throw].
  apply wp_ret. simpl. apply wp_bind.
  eapply wp_mono; [apply (set_routes_run add_route_for_modbus (Modbus tx)); done|]. simpl.
  intros o w2 (-> & Hd2 & Ht2 & Hr2). simpl. unfold wp. simpl. split; [done|]. intros _.
  unfold set_up. split; [unfold timeouts in *; simpl; rewrite Ht2; simpl; by rewrite Hh1|]. rewrite decide_True by by right.
  exists (ModbusDrv (modbus_config plc addr ms) tx (poller_of plc)). split_and!.
  - done.
  - simpl. by rewrite Hd2, Hd1.
  - simpl. by rewrite Hr2, Hh1.
Qed.

Lemma setup_driver_run fuel plc w : wp (setup_driver fuel plc) (ends (set_up fuel plc w)) w.
Proof.
  unfold setup_driver. cbv zeta. case_decide as H1; [by apply setup_fins_run|].
  case_decide as H2; [by apply setup_modbus_run|].
  apply wp_ret. split; [done|]. intros _. unfold set_up. split; [done|]. rewrite decide_False; [done|].
  by intros [|].
Qed.

(** The drivers of all supported PLCs, in order, and the routes to them. *)
Definition wired (fuel : nat) (plcs : list PlcConfig) (w w' : World) : Prop :=
  ∃ ds, Forall2 (driver_for fuel) (filter supported plcs) ds ∧
    drivers w' = drivers w ++ ds ∧ timeouts w' = timeouts w ∧
    routing (handler w') = add_routes (routing (handler w))
      (concat (zip_with routes_to (filter supported plcs) ds)).

Lemma setup_all_run fuel plcs w :
  wp (for_each (setup_driver fuel) plcs) (ends (wired fuel plcs w)) w.
Proof.
  revert w. induction plcs as [|plc plcs IH]; intros w; simpl.
  { apply wp_ret. split; [done|]. intros _. exists []. simpl. rewrite app_nil_r. by split_and!. }
  apply wp_bind. eapply wp_mono; [apply setup_driver_run|].
  intros o w1 (Hnp & H1). destruct o as [[]|e| |]; simpl; try done.
  specialize (H1 eq_refl). eapply wp_mono; [apply IH|].
  intros o w2 (Hnp2 & H2). split; [done|]. intros ->. specialize (H2 eq_refl).
  destruct H2 as (ds & Hds & Hdr & Ht & Hr). destruct H1 as [Ht1 H1]. rewrite Ht1 in Ht. unfold wired.
  rewrite filter_cons. case_decide as Hs.
  - destruct H1 as (d & Hd & Hdr1 & Hr1). exists (d :: ds). split; [by constructor|]. split; [|split; [done|]].
    + by rewrite Hdr, Hdr1, <- (assoc_L (++)).
    + rewrite Hr, Hr1. unfold add_routes. simpl. by rewrite foldl_app.
  - destruct H1 as [Hdr1 Hh1]. exists ds. by rewrite Hdr, Hr, Ht, Hdr1, Hh1.
Qed.

(** The definitions of the registry are those of the list, each under its id. *)
Lemma definitions_lookup ds s id d :
  TagDefinitionStore.from_definitions ds = Ok s →
  NoDup (TagDefinition.id <$> ds) ∧
  (TagDefinitionStore.inner s !! id = Some d ↔ d ∈ ds ∧ TagDefinition.id d = id).
Proof.
  unfold TagDefinitionStore.from_definitions.
  pose proof (TagDefinitionStore.insert_all_spec ∅ ds) as Hspec.
  destruct (TagDefinitionStore.insert_all ∅ ds) as [map|]; [|done]. intros [= <-]. simpl.
  destruct Hspec as (_ & Hnd & _ & Hlook). split; [done|].
  rewrite Hlook, lookup_empty. clear Hlook map. split.
  - intros [Hid Hin]%head_Some_elem_of%list_elem_of_filter. done.
  - intros [Hin Hid]. induction ds as [|d' ds IH]; [by apply not_elem_of_nil in Hin|].
    csimpl in Hnd. apply NoDup_cons in Hnd as [Hnin Hnd]. rewrite filter_cons.
    case_decide as Hid'.
    + simpl. f_equal. apply elem_of_cons in Hin as [->|Hin]; [done|]. destruct Hnin.
      rewrite Hid', <- Hid. by apply list_elem_of_fmap_2.
    + apply elem_of_cons in Hin as [->|Hin]; [done|]. by apply IH.
Qed.

Lemma tags_of_elem plcs name t :
  (name, t) ∈ tags_of plcs ↔ ∃ plc, plc ∈ plcs ∧ PlcConfig.name plc = name ∧ t ∈ PlcConfig.tags plc.
Proof.
  unfold tags_of. rewrite list_elem_of_bind. split.
  - intros (plc & (t' & [= -> ->] & Ht)%list_elem_of_fmap & Hplc). by exists plc.
  - intros (plc & Hplc & <- & Ht). exists plc. split; [|done]. by apply list_elem_of_fmap_2.
Qed.

(** The ids of the definitions are those of the tags. *)
Lemma converted_ids pts ds :
  Forall2 (λ pt d, tagconfig_to_definition pt.2 pt.1 = Ok d) pts ds →
  TagDefinition.id <$> ds = TagConfig.id ∘ snd <$> pts.
Proof.
  induction 1 as [|pt d pts ds Hd _ IH]; [done|]. csimpl. rewrite IH. f_equal.
  by apply definition_ok in Hd as (? & ? & _ & _ & ->).
Qed.

Lemma tags_of_ids plcs :
  TagConfig.id ∘ snd <$> tags_of plcs = plcs ≫= λ plc, TagConfig.id <$> PlcConfig.tags plc.
Proof.
  unfold tags_of. induction plcs as [|plc plcs IH]; [done|]. csimpl. rewrite fmap_app, IH.
  by rewrite <- list_fmap_compose.
Qed.

Lemma routes_keys plcs (ds : list driver) :
  length plcs = length ds →
  (concat (zip_with routes_to plcs ds)).*1 = plcs ≫= λ plc, TagConfig.id <$> PlcConfig.tags plc.
Proof.
  revert ds. induction plcs as [|plc plcs IH]; intros [|d ds] Hl; simplify_eq/=; [done|].
  rewrite fmap_app, IH by done. f_equal. unfold routes_to. by rewrite <- list_fmap_compose.
Qed.

Lemma filter_bind_sublist {A1 A2} (P : A1 → Prop) `{!∀ x, Decision (P x)} (f : A1 → list A2) l :
  filter P l ≫= f `sublist_of` l ≫= f.
Proof.
  induction l as [|x l IH]; [done|]. rewrite filter_cons. case_decide; simpl.
  - by apply sublist_app.
  - by apply sublist_inserts_l.
Qed.

Lemma routes_elem plcs (ds : list driver) id q :
  length plcs = length ds →
  (id, q) ∈ concat (zip_with routes_to plcs ds) ↔
  ∃ i plc d t, plcs !! i = Some plc ∧ ds !! i = Some d ∧ t ∈ PlcConfig.tags plc ∧
    id = TagConfig.id t ∧ q = queue_of d.
Proof.
  intros Hl. rewrite elem_of_concat. split.
  - intros (l & Hin & Hl'). apply list_elem_of_lookup in Hl' as [i Hi].
    apply lookup_zip_with_Some in Hi as (plc & d & -> & Hplc & Hd).
    apply list_elem_of_fmap in Hin as (t & [= -> ->] & Ht). by exists i, plc, d, t.
  - intros (i & plc & d & t & Hplc & Hd & Ht & -> & ->). exists (routes_to plc d). split.
    + apply list_elem_of_fmap. by exists t.
    + apply (list_elem_of_lookup_2 _ i). apply lookup_zip_with_Some. by exists plc, d.
Qed.

(** What a successful start-up has established. *)
Record started (fuel : nat) (cfg : RuntimeConfig) (r : TagRegistry) (w : World) : Prop := {
  st_registry : TagRegistry.wf r;
  (** the definitions are those the configured tags describe, and each describes one *)
  st_definitions id d :
    TagRegistry.defs r !! id = Some d ↔
    ∃ plc t, plc ∈ RuntimeConfig.plcs cfg ∧ t ∈ PlcConfig.tags plc ∧ id = TagConfig.id t ∧
      defines t (PlcConfig.name plc) d;
  st_converted plc t :
    plc ∈ RuntimeConfig.plcs cfg → t ∈ PlcConfig.tags plc → ∃ d, defines t (PlcConfig.name plc) d;
  (** no id is configured twice *)
  st_ids : NoDup (RuntimeConfig.plcs cfg ≫= λ plc, TagConfig.id <$> PlcConfig.tags plc);
  (** every PLC of a supported protocol has its driver *)
  st_drivers : Forall2 (driver_for fuel) (filter supported (RuntimeConfig.plcs cfg)) (drivers w);
  (** the routes lead from the tags of these PLCs to the queues of their drivers *)
  st_routes id q :
    routing (handler w) !! id = Some q ↔
    ∃ i plc d t, filter supported (RuntimeConfig.plcs cfg) !! i = Some plc ∧
      drivers w !! i = Some d ∧ t ∈ PlcConfig.tags plc ∧ id = TagConfig.id t ∧ q = queue_of d;
  (** a write waits for a queue, and for its confirmation, as configured *)
  st_timeouts :
    timeouts w =
      (match RuntimeConfig.driver_write_send_timeout_ms cfg with Some n => n | None => 2000 end,
       match RuntimeConfig.write_confirm_timeout_ms cfg with Some n => n | None => 5000 end);
}.

(** The capacity of the health channel is not one a channel can have. *)
Definition capacity_refused (cfg : RuntimeConfig) : Prop :=
  health_capacity cfg ≤ 0 ∨ max_permits < health_capacity cfg.

Lemma health_channel_refused cfg :
  health_channel (health_capacity cfg) = None ↔ capacity_refused cfg.
Proof.
  unfold capacity_refused. pose proof (health_channel_spec (health_capacity cfg)) as Hs.
  destruct (health_channel _) as [[]|].
  - split; [done|]. destruct Hs as [Hs _]. specialize (Hs eq_refl). lia.
  - split; [|done]. intros _. destruct Hs as [_ Hs].
    destruct (decide (0 < health_capacity cfg ≤ max_permits)) as [H|]; [by specialize (Hs H)|lia].
Qed.

(** What makes start-up panic: a configuration that is fine up to there, with such a
    capacity. *)
Definition health_panics (clock : nat → DateTimeUtc) (extension : option string) (text : string)
    : Prop :=
  ∃ cfg ds r, RuntimeConfig.load_runtime_config extension text = Ok cfg ∧
    all_definitions (RuntimeConfig.plcs cfg) = Ok ds ∧
    TagRegistry.from_definitions clock ds = Some (Ok r) ∧ capacity_refused cfg.

(** An outcome before the channel is made is not its panic. *)
#[local] Ltac fails_before :=
  split; [split; [done|intros (? & ? & ? & ? & ? & ? & ?); congruence]|done].

Lemma startup_run fuel clock extension text w :
  drivers w = [] →
  wp (startup fuel clock extension text)
     (λ o w', (o = Panic ↔ health_panics clock extension text) ∧ ∀ r settings, o = Ret (r, settings) →
        ∃ cfg, RuntimeConfig.load_runtime_config extension text = Ok cfg ∧
          server_settings (RuntimeConfig.opcua cfg) = Ok settings ∧ started fuel cfg r w') w.
Proof.
  intros Hw. unfold startup, health_panics. apply wp_bind.
  destruct (RuntimeConfig.load_runtime_config extension text) as [cfg|e];
    [|apply wp_throw; fails_before].
  apply wp_ret. simpl. apply wp_bind.
  destruct (all_definitions (RuntimeConfig.plcs cfg)) as [ds|e] eqn:Hds;
    [|apply wp_throw; fails_before].
  apply wp_ret. simpl. apply all_definitions_spec in Hds as Hconv.
  destruct (TagRegistry.from_definitions_total clock ds) as (res & Hres & _).
  rewrite Hres, or_panic_bind. apply wp_bind. destruct res as [r|e];
    [|apply wp_throw; fails_before].
  apply wp_ret. simpl. apply wp_bind. unfold wp at 1. simpl. apply wp_bind.
  destruct (health_channel (health_capacity cfg)) as [[]|] eqn:Hcap; unfold wp at 1; simpl;
    [|apply health_channel_refused in Hcap; split; [split; [naive_solver|done]|done]].
  assert (∀ o : outcome anyhow_error (TagRegistry * OpcUaConfig), o ≠ Panic →
    (o = Panic ↔ ∃ cfg' ds' r', Ok cfg = @Ok _ string cfg' ∧
      all_definitions (RuntimeConfig.plcs cfg') = Ok ds' ∧
      TagRegistry.from_definitions clock ds' = Some (Ok r') ∧ capacity_refused cfg')) as Hnp.
  { intros o Ho. split; [done|]. intros (cfg' & ? & ? & [= <-] & _ & _ & Href).
    apply health_channel_refused in Href. by rewrite Hcap in Href. }
  apply wp_bind. eapply wp_mono; [apply setup_all_run|].
  intros o w2 (Hns & H2). destruct o as [[]|e| |]; simpl; try (by split; [apply Hnp|]).
  specialize (H2 eq_refl). apply wp_bind.
  destruct (server_settings (RuntimeConfig.opcua cfg)) as [settings|e] eqn:Hset;
    [|apply wp_throw; by split; [apply Hnp|]].
  apply wp_ret. simpl. apply wp_ret. split; [by apply Hnp|]. intros r' settings' [= <- <-].
  exists cfg. split; [done|]. split; [done|]. clear Hds. rename Hconv into Hds.
  destruct H2 as (drvs & Hdrvs & Hd2 & Ht2 & Hr2). simpl in Hd2, Ht2, Hr2. rewrite Hw in Hd2. simpl in Hd2.
  destruct (TagRegistry.from_definitions_view _ _ _ Hres) as (Hwf & Hstore & _).
  pose proof (Forall2_length _ _ _ Hdrvs) as Hlen.
  assert (NoDup (TagDefinition.id <$> ds)) as Hnd by by eapply (definitions_lookup ds _ "" (TagDefinition.new "" "" "" TagDataType.Bool "")).
  assert (NoDup (RuntimeConfig.plcs cfg ≫= λ plc, TagConfig.id <$> PlcConfig.tags plc)) as Hids.
  { by rewrite <- tags_of_ids, <- (converted_ids _ _ Hds). }
  constructor; [done| | |done|by rewrite Hd2| |by rewrite Ht2].
  - intros id d. unfold TagRegistry.defs.
    rewrite (proj2 (definitions_lookup ds _ id d Hstore)). split.
    + intros [Hin Hid]. apply list_elem_of_lookup in Hin as [i Hi].
      destruct (Forall2_lookup_r _ _ _ _ _ Hds Hi) as ([name t] & Hpt & Hconv).
      apply list_elem_of_lookup_2, tags_of_elem in Hpt as (plc & Hplc & <- & Ht). simpl in Hconv.
      apply definition_ok in Hconv. exists plc, t. split_and!; [done..| |done]. rewrite <- Hid.
      by destruct Hconv as (? & ? & _ & _ & ->).
    + intros (plc & t & Hplc & Ht & -> & Hconv).
      assert ((PlcConfig.name plc, t) ∈ tags_of (RuntimeConfig.plcs cfg)) as Hpt
        by (apply tags_of_elem; by exists plc).
      apply list_elem_of_lookup in Hpt as [i Hi].
      destruct (Forall2_lookup_l _ _ _ _ _ Hds Hi) as (d' & Hd' & Hconv'). simpl in Hconv'.
      apply definition_ok in Hconv as Hconv1. rewrite Hconv1 in Hconv'. injection Hconv' as <-. split; [by eapply list_elem_of_lookup_2|].
      by destruct Hconv as (? & ? & _ & _ & ->).
  - intros plc t Hplc Ht.
    assert ((PlcConfig.name plc, t) ∈ tags_of (RuntimeConfig.plcs cfg)) as Hpt
      by (apply tags_of_elem; by exists plc).
    apply list_elem_of_lookup in Hpt as [i Hi].
    destruct (Forall2_lookup_l _ _ _ _ _ Hds Hi) as (d & _ & Hconv%definition_ok). by exists d.
  - intros id q. rewrite Hr2, Hd2, add_routes_lookup.
    + rewrite (routes_elem _ _ id q Hlen). split; [|by left].
      intros [H|[_ H]]; [exact H|]. by rewrite lookup_empty in H.
    + rewrite routes_keys by done. eapply sublist_NoDup; [exact Hids|]. apply filter_bind_sublist.
Qed.

(** *** The tags of a driver *)

Definition tag_ids (d : driver) : list string :=
  match d with
  | FinsDrv cfg _ _ _ => TagMapping.tag_id <$> FinsConfig.mappings cfg
  | ModbusDrv cfg _ _ => ModbusMapping.tag_id <$> ModbusConfig.mappings cfg
  end.
Definition driver_name (d : driver) : string :=
  match d with
  | FinsDrv cfg _ _ _ => FinsConfig.name cfg
  | ModbusDrv cfg _ _ => ModbusConfig.name cfg
  end.

Lemma Forall2_ids {A} (f : TagConfig → A → Prop) (id : A → string) tags ms :
  (∀ t m, f t m → id m = TagConfig.id t) → Forall2 f tags ms → id <$> ms = TagConfig.id <$> tags.
Proof. intros Hf. induction 1 as [|t m tags ms Ht _ IH]; [done|]. csimpl. by rewrite IH, (Hf t m). Qed.

(** They are those of its PLC, whose name it has. *)
Lemma driver_for_ids fuel plc d :
  driver_for fuel plc d →
  tag_ids d = TagConfig.id <$> PlcConfig.tags plc ∧ driver_name d = PlcConfig.name plc.
Proof.
  destruct d as [cfg rgs tx p|cfg tx p].
  - intros (_ & Hms & _ & _ & _ & _ & Hname & _). split; [|done].
    eapply Forall2_ids; [|exact Hms]. intros t m (_ & ? & ? & ? & ? & _ & _ & ->). done.
  - intros (_ & Hms & _ & _ & _ & Hname & _). split; [|done].
    eapply Forall2_ids; [|exact Hms]. intros t m (? & ? & ? & _ & _ & ->). done.
Qed.

Lemma bind_NoDup_disjoint {A1 A2} (f : A1 → list A2) l i j x y a :
  NoDup (l ≫= f) → l !! i = Some x → l !! j = Some y → a ∈ f x → a ∈ f y → i = j.
Proof.
  revert i j. induction l as [|z l IH]; intros i j Hnd Hi Hj Hx Hy; [done|].
  simpl in Hnd. apply NoDup_app in Hnd as (_ & Hd & Hnd).
  destruct i as [|i], j as [|j]; simplify_eq/=; [done|..|f_equal; by eapply IH];
    exfalso; eapply Hd; eauto; apply list_elem_of_bind; eauto using list_elem_of_lookup_2.
Qed.

(** A tag is of one driver only, and its definition names the PLC of that driver. *)
Lemma started_tag_ids fuel cfg r w i d id :
  started fuel cfg r w → drivers w !! i = Some d → id ∈ tag_ids d →
  (∀ j d', drivers w !! j = Some d' → id ∈ tag_ids d' → j = i) ∧
  ∃ def, TagRegistry.defs r !! id = Some def ∧ TagDefinition.plc_name def = driver_name d.
Proof.
  intros Hst Hi Hid.
  destruct (Forall2_lookup_r _ _ _ _ _ (st_drivers _ _ _ _ Hst) Hi) as (plc & Hplc & Hd).
  destruct (driver_for_ids _ _ _ Hd) as [Hids Hname]. rewrite Hids in Hid. split.
  - intros j d' Hj Hid'.
    destruct (Forall2_lookup_r _ _ _ _ _ (st_drivers _ _ _ _ Hst) Hj) as (plc' & Hplc' & Hd').
    destruct (driver_for_ids _ _ _ Hd') as [Hids' _]. rewrite Hids' in Hid'.
    eapply (bind_NoDup_disjoint (λ plc, TagConfig.id <$> PlcConfig.tags plc)); [|done..].
    eapply sublist_NoDup; [apply (st_ids _ _ _ _ Hst)|apply filter_bind_sublist].
  - apply list_elem_of_fmap in Hid as (t & -> & Ht).
    apply list_elem_of_lookup_2, list_elem_of_filter in Hplc as [_ Hplc].
    destruct (st_converted _ _ _ _ Hst plc t Hplc Ht) as [def Hdef].
    exists def. split; [|rewrite Hname; by destruct Hdef as (? & ? & _ & _ & ->)].
    apply (st_definitions _ _ _ _ Hst). by exists plc, t.
Qed.
End defs.

(** A channel of [tokio] on a 64-bit machine: [usize::MAX >> 3] permits. *)
Definition usize_permits : Z := Z.shiftr (2 ^ 64 - 1) 3.
Definition bounded_channel (capacity : Z) : option unit :=
  if bool_decide (0 < capacity ≤ usize_permits) then Some tt else None.
Lemma bounded_channel_spec capacity :
  bounded_channel capacity = Some tt ↔ 0 < capacity ≤ usize_permits.
Proof. unfold bounded_channel. case_bool_decide; naive_solver. Qed.
Lemma usize_permits_enough : 128 ≤ usize_permits.
Proof. done. Qed.

(** ** The health task *)

Section health.
Context {J : SerdeJson}.

(** The events the task takes, in order. *)
Definition taken (bursts : list (JsonValue * list JsonValue)) : list JsonValue :=
  bursts ≫= λ b, b.1 :: b.2.
(** The events that name a PLC. *)
Definition naming (plc : string) (l : list JsonValue) : list JsonValue :=
  filter (λ evt, json_get_str evt "plc" = Some plc) l.

Lemma health_task_taken known bursts :
  health_task known bursts = foldl (handle_event known) ∅ (taken bursts).
Proof.
  unfold health_task, taken. generalize (∅ : gmap string JsonValue).
  induction bursts as [|[e es] bursts IH]; intros dash; simpl; [done|].
  by rewrite foldl_app, IH.
Qed.

Lemma handle_events_lookup known l plc dash :
  foldl (handle_event known) dash l !! plc =
    if decide (plc ∈ known) then
      match last (naming plc l) with Some evt => Some evt | None => dash !! plc end
    else dash !! plc.
Proof.
  induction l as [|evt l IH] using rev_ind; [by case_decide|].
  rewrite foldl_snoc. unfold naming, handle_event at 1. rewrite filter_app, filter_cons, filter_nil.
  destruct (json_get_str evt "plc") as [p|] eqn:Hp.
  - destruct (decide (p ∈ known)) as [Hk|Hk].
    + rewrite lookup_insert. destruct (decide (p = plc)) as [->|Hne].
      * rewrite decide_True by done. by rewrite (decide_True (P := Some plc = Some plc)), last_snoc.
      * rewrite (decide_False (P := Some p = Some plc)) by congruence. by rewrite app_nil_r, IH.
    + destruct (decide (Some p = Some plc)) as [[= ->]|Hne].
      * rewrite decide_False in IH by done. by rewrite decide_False.
      * by rewrite app_nil_r, IH.
  - rewrite (decide_False (P := None = Some plc)) by done. by rewrite app_nil_r, IH.
Qed.
End health.

(** ** Properties *)

Section properties.
Context {U : UnicodeTables} {C : Chrono} {J : SerdeJson} {IO : WriteIO}.
Context `{!HashIter ModbusFunction, !HashIter Z} {N : Network} {F : RuntimeConfig.Formats}.


(** A health channel of capacity zero is accepted by the configuration, and makes start-up
    panic, whatever the rest of the configuration that comes before. *)
Theorem health_capacity_zero_panics (fuel : nat) (clock : nat → DateTimeUtc)
    (extension : option string) (text : string) (cfg : RuntimeConfig) (ds : list TagDefinition)
    (r : TagRegistry) (w : World) :
  drivers w = [] →
  RuntimeConfig.load_runtime_config extension text = Ok cfg →
  RuntimeConfig.health_channel_capacity cfg = Some 0 →
  all_definitions (RuntimeConfig.plcs cfg) = Ok ds →
  TagRegistry.from_definitions clock ds = Some (Ok r) →
  (startup fuel clock extension text w).1 = Panic.
Proof.
  intros Hw Hload Hcap Hds Hr.
  destruct (startup fuel clock extension text w) as [o w'] eqn:Hrun.
  apply (wp_run _ _ _ _ _ (startup_run fuel clock extension text w Hw) Hrun).
  exists cfg, ds, r. split_and!; try done. left. unfold health_capacity. by rewrite Hcap.
Qed.

(** The check for stale tags is never effective: no definition made at start-up has a
    timeout, so on every registry with the definitions of start-up the check of every PLC
    leaves everything as it is. *)
Theorem stale_check_never {W Env Rest : Type} {DW : DriverWorld W Env Rest}
    (fuel : nat) (cfg : RuntimeConfig) (r : TagRegistry) (w : World) (plc : string) (dw : W) :
  started fuel cfg r w → TagRegistry.wf (dw_registry dw) →
  TagRegistry.defs (dw_registry dw) = TagRegistry.defs r →
  RuntimeDriver.check_stale_tags plc dw = (Ret tt, dw).
Proof.
  intros Hst Hwf Hd. apply RuntimeDriver.check_stale_tags_idle; [|done].
  rewrite Hd. intros id d Hdef. apply (st_definitions _ _ _ _ Hst) in Hdef as (p & t & _ & _ & _ & Hconv).
  by destruct Hconv as (? & ? & _ & _ & ->).
Qed.

(** The health task shows for every configured PLC the latest event that names it,
    whatever the bursts in which the events arrive, and nothing for any other name; the
    events of a PLC's poller name that PLC. *)
Theorem health_latest (known : gset string) (bursts : list (JsonValue * list JsonValue))
    (plc : string) (evt : JsonValue) :
  (health_task known bursts !! plc = Some evt ↔
   plc ∈ known ∧ last (naming plc (taken bursts)) = Some evt) ∧
  (∀ d e h, json_get_str (RuntimeDriver.health_error d e) "plc" = Some (RuntimeDriver.name d) ∧
            json_get_str (RuntimeDriver.health_ok d h) "plc" = Some (RuntimeDriver.name d)).
Proof.
  split.
  - rewrite health_task_taken, handle_events_lookup, lookup_empty.
    case_decide; destruct (last _); naive_solver.
  - intros d e h.
    assert (NoDup ["plc"; "status"; "detail"]%string) as Hnd by (refine (bool_decide_eq_true_1 _ _); vm_refl).
    split; (apply json_get_str_ok; [exact Hnd|by left]).
Qed.
End properties.

Section witnesses.
Import RegistryRef.
Local Existing Instances CratesRef.chrono_ref CratesRef.json_ref WriteHandler.write_io_ref.
Local Instance lower_tables : UnicodeTables := {| lower_unicode := id |}.
Local Existing Instance ModbusFunction.ModbusFunction_countable.
Local Instance function_iter : HashIter ModbusFunction := hash_iter_ref ModbusFunction.
Local Instance area_iter : HashIter Z := hash_iter_ref Z.

(** Names are resolved to one address. *)
Definition network_ref : Network :=
  {| Env := unit; lookup_host _ e := (Ok [V4 [192; 0; 2; 1] 502], e);
     fins_channel e := (tt, e); modbus_channel e := (tt, e);
     health_channel := bounded_channel; max_permits := usize_permits;
     health_channel_spec := bounded_channel_spec; max_permits_enough := usize_permits_enough |}.
Local Existing Instance network_ref.

Definition plc_of (name protocol : string) (tags : list TagConfig) : PlcConfig :=
  {| PlcConfig.name := name; PlcConfig.protocol := protocol; PlcConfig.endpoint := "plc:9600";
     PlcConfig.unit_id := None; PlcConfig.cycle_ms := 100; PlcConfig.tags := tags;
     PlcConfig.max_words_per_request := None; PlcConfig.keepalive_secs := None;
     PlcConfig.max_backoff_secs := None; PlcConfig.io_timeout_ms := None |}.
Definition server_section : OpcUaSection :=
  {| OpcUaSection.bind_addr := "0.0.0.0"; OpcUaSection.port := 4840;
     OpcUaSection.application_name := "bridge"; OpcUaSection.application_uri := "urn:b";
     OpcUaSection.namespace_uri := "urn:b:ns"; OpcUaSection.anonymous_enabled := true;
     OpcUaSection.username_password_enabled := false; OpcUaSection.max_sessions := 100;
     OpcUaSection.max_subscriptions := 1000; OpcUaSection.write_mode := "ConfirmedAck";
     OpcUaSection.security_mode := None; OpcUaSection.security_policy := None;
     OpcUaSection.server_certificate_path := None; OpcUaSection.server_private_key_path := None;
     OpcUaSection.trust_store_dir := None; OpcUaSection.reject_store_dir := None;
     OpcUaSection.min_key_length := None |}.
(** A FINS, a Modbus and an unsupported PLC. *)
Definition plant_config : RuntimeConfig :=
  {| RuntimeConfig.opcua := server_section;
     RuntimeConfig.plcs := [plc_of "north" "fins" [speed]; plc_of "south" "MODBUS" [level];
                            plc_of "east" "s7" [tag "flow" "1" "Float" (Some 2)]];
     RuntimeConfig.health_channel_capacity := None;
     RuntimeConfig.driver_write_send_timeout_ms := None;
     RuntimeConfig.write_confirm_timeout_ms := None |}.
Definition formats_ref : RuntimeConfig.Formats :=
  {| RuntimeConfig.toml_from_str _ := Ok plant_config;
     RuntimeConfig.yaml_from_str _ := Err "unsupported"%string |}.
Local Existing Instance formats_ref.

Definition boot : World := {| env := tt; handler := WriteHandler.new 0; drivers := [] |}.
Definition booted : outcome anyhow_error (TagRegistry * OpcUaConfig) * World :=
  startup 1 ref_clock (Some "toml"%string) "" boot.
Definition plant_registry : TagRegistry :=
  match booted.1 with Ret (r, _) => r | _ => ref_registry [] end.
Definition plant_settings : OpcUaConfig :=
  match booted.1 with Ret (_, c) => c | _ => OpcUaConfig.default_local end.
Lemma booted_ok : booted.1 = Ret (plant_registry, plant_settings).
Proof. vm_refl. Qed.

Lemma plant_loaded : RuntimeConfig.load_runtime_config (Some "toml"%string) "" = Ok plant_config.
Proof. vm_refl. Qed.

(** The same configuration with no room in the health channel. *)
Definition cramped_config : RuntimeConfig :=
  {| RuntimeConfig.opcua := server_section; RuntimeConfig.plcs := RuntimeConfig.plcs plant_config;
     RuntimeConfig.health_channel_capacity := Some 0;
     RuntimeConfig.driver_write_send_timeout_ms := None;
     RuntimeConfig.write_confirm_timeout_ms := None |}.
Definition cramped_formats : RuntimeConfig.Formats :=
  {| RuntimeConfig.toml_from_str _ := Ok cramped_config;
     RuntimeConfig.yaml_from_str _ := Err "unsupported"%string |}.
Lemma cramped_panics :
  RuntimeConfig.load_runtime_config (F := cramped_formats) (Some "toml"%string) "" =
    Ok cramped_config ∧
  (startup (F := cramped_formats) 1 ref_clock (Some "toml"%string) "" boot).1 = Panic.
Proof. split; vm_refl. Qed.

(** The routes of the plant; the unsupported PLC has none. *)
Lemma plant_routes :
  bool_decide (is_Some (routing (handler booted.2) !! "speed"%string)) = true ∧
  bool_decide (is_Some (routing (handler booted.2) !! "flow"%string)) = false ∧
  length (drivers booted.2) = 2%nat.
Proof. split_and!; vm_refl. Qed.

Lemma plant_started : ∃ cfg, started 1 cfg plant_registry booted.2.
Proof.
  destruct (wp_run _ _ _ _ _
    (startup_run 1 ref_clock (Some "toml"%string) "" boot eq_refl)
    (run_eq (startup 1 ref_clock (Some "toml"%string) "") boot _ booted_ok)) as [_ H].
  destruct (H plant_registry plant_settings eq_refl) as (cfg & _ & _ & Hst). by exists cfg.
Qed.
Lemma plant_wf : TagRegistry.wf plant_registry.
Proof. destruct plant_started as [cfg H]. exact (st_registry _ _ _ _ H). Qed.

Lemma stale_check_never_witness :
  RuntimeDriver.check_stale_tags (DW := RuntimeDriver.ref_world) "north"
    (RuntimeDriver.mkRef plant_registry 0 0) =
  (Ret tt, RuntimeDriver.mkRef plant_registry 0 0).
Proof.
  destruct plant_started as [cfg H].
  exact (stale_check_never (DW := RuntimeDriver.ref_world) 1 cfg plant_registry booted.2 "north"
    (RuntimeDriver.mkRef plant_registry 0 0) H plant_wf eq_refl).
Defined.
End witnesses.
End Startup.
