(* ===== verification/OpcUaValue.v ===== *)
(** * OPC UA server: values, qualities and timestamps

    Models the conversions of opcua-server/src/native.rs between the bridge's values
    and the types of the [open62541] crate, which is a class: its strings, timestamps,
    byte strings and variants are opaque, with the documented behaviour of their
    constructors and accessors as laws.  The number types of the crate, which only wrap
    a Rust number, are those numbers. *)

From stdpp Require Import base tactics numbers list gmap strings.
From S2P Require Import Prelude RustStd RustStr Crates CratesRef TagValue.
Local Open Scope Z_scope.

Module OpcUaValue.

(** ** The crate *)

(** The types of a UA scalar, by the names of [ua]. *)
Class UaTypes := {
  UaString : Type;
  UaDateTime : Type;
  UaByteString : Type;
}.

(** A scalar of one of the types the bridge uses. *)
Inductive Scalar `{UaTypes} :=
| UaBoolean (v : bool)
| UaInt16 (v : Z)
| UaUInt16 (v : Z)
| UaInt32 (v : Z)
| UaUInt32 (v : Z)
| UaInt64 (v : Z)
| UaUInt64 (v : Z)
| UaFloat (bits : Z)
| UaDouble (bits : Z)
| UaText (s : UaString)
| UaTime (t : UaDateTime)
| UaBytes (b : UaByteString).

Class Open62541 := {
  #[global] ua_types :: UaTypes;
  (** [ua::String::new(s).ok()] and [s.as_str()] *)
  ua_string_new : string → option UaString;
  ua_string_as_str : UaString → option string;
  (** [ua::DateTime::try_from_unix_timestamp_nanos(n).ok()] and
      [dt.as_unix_timestamp_nanos()] (an [i128]) *)
  try_from_unix_timestamp_nanos : Z → option UaDateTime;
  as_unix_timestamp_nanos : UaDateTime → Z;
  (** [ua::ByteString::new(b)] and [bs.as_bytes()] *)
  ua_bytes_new : list Z → UaByteString;
  ua_bytes_as_bytes : UaByteString → option (list Z);
  (** [ua::Variant::scalar]; the scalar a variant holds, if it holds one of a type the
      bridge uses: [var.to_scalar::<T>()] is that scalar when it is of type [T]. *)
  Variant : Type;
  scalar : Scalar → Variant;
  held : Variant → option Scalar;

  held_scalar s : held (scalar s) = Some s;
  (** Reading back a text gives it again; the empty text may come back as the null
      string. *)
  ua_string_round_trip s u :
    ua_string_new s = Some u → default ""%string (ua_string_as_str u) = s;
  ua_bytes_round_trip b : default [] (ua_bytes_as_bytes (ua_bytes_new b)) = b;
  (** A UA timestamp counts intervals of 100 ns. *)
  ua_datetime_round_trip n t :
    try_from_unix_timestamp_nanos n = Some t → Z.abs (as_unix_timestamp_nanos t - n) < 100;
  ua_datetime_epoch : is_Some (try_from_unix_timestamp_nanos 0);
}.

(** The status codes the server uses. *)
Inductive StatusCode := GOOD | UNCERTAINSUBNORMAL | BADUNEXPECTEDERROR | BADINTERNALERROR.
#[export] Instance StatusCode_eq_dec : EqDecision StatusCode.
Proof. solve_decision. Defined.

Section defs.
Context {C : Chrono} {O : Open62541}.

(** [tagquality_to_ua_status] *)
Definition tagquality_to_ua_status (quality : TagQuality) : StatusCode :=
  match quality with
  | TagQuality.Good => GOOD
  | TagQuality.Initializing => UNCERTAINSUBNORMAL
  | TagQuality.Stale => UNCERTAINSUBNORMAL
  | TagQuality.CommLost => BADUNEXPECTEDERROR
  | TagQuality.ConfigError => BADUNEXPECTEDERROR
  | TagQuality.TypeMismatch => BADUNEXPECTEDERROR
  | TagQuality.Substitute => UNCERTAINSUBNORMAL
  | TagQuality.Error _ => BADUNEXPECTEDERROR
  end.

(** [TagDataSource::tagvalue_to_variant] *)
Definition tagvalue_to_variant (value : TagValue) : option Variant :=
  match value with
  | TagValue.Bool b => Some (scalar (UaBoolean b))
  | TagValue.Int16 v => Some (scalar (UaInt16 v))
  | TagValue.UInt16 v => Some (scalar (UaUInt16 v))
  | TagValue.Int32 v => Some (scalar (UaInt32 v))
  | TagValue.UInt32 v => Some (scalar (UaUInt32 v))
  | TagValue.Int64 v => Some (scalar (UaInt64 v))
  | TagValue.UInt64 v => Some (scalar (UaUInt64 v))
  | TagValue.Float v => Some (scalar (UaFloat v))
  | TagValue.Double v => Some (scalar (UaDouble v))
  | TagValue.String s =>
      ua_str ← ua_string_new s;
      Some (scalar (UaText ua_str))
  | TagValue.DateTime dt =>
      nanos ← timestamp_nanos_opt dt;
      ua_dt ← try_from_unix_timestamp_nanos nanos;
      Some (scalar (UaTime ua_dt))
  | TagValue.ByteString b =>
      let ua_bytes := ua_bytes_new b in
      Some (scalar (UaBytes ua_bytes))
  end.

(** [TagDataSource::chrono_to_ua_dt]; [None] is the panic of the last [unwrap]. *)
Definition chrono_to_ua_dt (dt : DateTimeUtc) : option UaDateTime :=
  let nanos := default 0 (timestamp_nanos_opt dt) in
  match try_from_unix_timestamp_nanos nanos with
  | Some t => Some t
  | None => try_from_unix_timestamp_nanos 0
  end.

(** [TagDataSource::variant_to_tagvalue] *)
Definition variant_to_tagvalue (var : Variant) (expected : TagDataType)
    : result TagValue string :=
  match expected, held var with
  | TagDataType.Bool, Some (UaBoolean b) => Ok (TagValue.Bool b)
  | TagDataType.Bool, _ => Err "Expected Boolean"%string
  | TagDataType.Int16, Some (UaInt16 v) => Ok (TagValue.Int16 v)
  | TagDataType.Int16, _ => Err "Expected Int16"%string
  | TagDataType.UInt16, Some (UaUInt16 v) => Ok (TagValue.UInt16 v)
  | TagDataType.UInt16, _ => Err "Expected UInt16"%string
  | TagDataType.Int32, Some (UaInt32 v) => Ok (TagValue.Int32 v)
  | TagDataType.Int32, _ => Err "Expected Int32"%string
  | TagDataType.UInt32, Some (UaUInt32 v) => Ok (TagValue.UInt32 v)
  | TagDataType.UInt32, _ => Err "Expected UInt32"%string
  | TagDataType.Int64, Some (UaInt64 v) => Ok (TagValue.Int64 v)
  | TagDataType.Int64, _ => Err "Expected Int64"%string
  | TagDataType.UInt64, Some (UaUInt64 v) => Ok (TagValue.UInt64 v)
  | TagDataType.UInt64, _ => Err "Expected UInt64"%string
  | TagDataType.Float, Some (UaFloat v) => Ok (TagValue.Float v)
  | TagDataType.Float, _ => Err "Expected Float"%string
  | TagDataType.Double, Some (UaDouble v) => Ok (TagValue.Double v)
  | TagDataType.Double, _ => Err "Expected Double"%string
  | TagDataType.String, Some (UaText s) =>
      Ok (TagValue.String (default ""%string (ua_string_as_str s)))
  | TagDataType.String, _ => Err "Expected String"%string
  | TagDataType.DateTime, Some (UaTime dt) =>
      let nanos := as_i64 (as_unix_timestamp_nanos dt) in
      let chrono_dt := from_timestamp_nanos nanos in
      Ok (TagValue.DateTime chrono_dt)
  | TagDataType.DateTime, _ => Err "Expected DateTime"%string
  | TagDataType.ByteString, Some (UaBytes bs) =>
      Ok (TagValue.ByteString (default [] (ua_bytes_as_bytes bs)))
  | TagDataType.ByteString, _ => Err "Expected ByteString"%string
  end.

(** ** What the conversions keep *)

(** Two values a client cannot tell apart: equal, or instants that differ by less than
    the resolution of a UA timestamp. *)
Definition ua_close (v v' : TagValue) : Prop :=
  v = v' ∨
  ∃ dt dt' n n', v = TagValue.DateTime dt ∧ v' = TagValue.DateTime dt' ∧
    timestamp_nanos_opt dt = Some n ∧ dt' = from_timestamp_nanos n' ∧ Z.abs (n' - n) < 100.

(** An instant whose nanosecond count stays clear of the ends of the [i64] range, on
    which the count of the UA timestamp would wrap around. *)
Definition clear_of_wrap (v : TagValue) : Prop :=
  match v with
  | TagValue.DateTime dt =>
      ∀ n, timestamp_nanos_opt dt = Some n → - 2 ^ 63 + 100 ≤ n < 2 ^ 63 - 100
  | _ => True
  end.

Lemma as_i64_small z : is_i64 z → as_i64 z = z.
Proof.
  intros Hz. rewrite <- (as_i64_u64 z Hz) at 2. unfold as_i64, as_signed, as_u64.
  by rewrite Z.mod_mod.
Qed.

Lemma variant_data_type var expected v :
  variant_to_tagvalue var expected = Ok v → TagValue.data_type v = expected.
Proof.
  unfold variant_to_tagvalue.
  destruct expected, (held var) as [[]|]; intros [= <-]; done.
Qed.

Lemma variant_back v var :
  clear_of_wrap v → tagvalue_to_variant v = Some var →
  ∃ v', variant_to_tagvalue var (TagValue.data_type v) = Ok v' ∧ ua_close v v'.
Proof.
  intros Hclear.
  destruct v as [b|v|v|v|v|v|v|v|v|str|dt|b]; simpl;
    try (intros [= <-]; rewrite held_scalar; eexists; split; [reflexivity|by left]).
  - destruct (ua_string_new str) as [u|] eqn:Hu; [|done]. intros [= <-].
    rewrite held_scalar. eexists. split; [reflexivity|]. left. f_equal. symmetry.
    by apply ua_string_round_trip.
  - destruct (timestamp_nanos_opt dt) as [n|] eqn:Hn; [|done]. simpl.
    destruct (try_from_unix_timestamp_nanos n) as [t|] eqn:Ht; [|done]. intros [= <-].
    rewrite held_scalar. eexists. split; [reflexivity|]. right.
    pose proof (ua_datetime_round_trip _ _ Ht) as Hr. specialize (Hclear n Hn).
    rewrite as_i64_small by (unfold is_i64; lia). do 4 eexists. by split_and!.
  - intros [= <-]. rewrite held_scalar. eexists. split; [reflexivity|]. left.
    by rewrite ua_bytes_round_trip.
Qed.

(** The data type of a scalar. *)
Definition scalar_type (s : Scalar) : TagDataType :=
  match s with
  | UaBoolean _ => TagDataType.Bool
  | UaInt16 _ => TagDataType.Int16
  | UaUInt16 _ => TagDataType.UInt16
  | UaInt32 _ => TagDataType.Int32
  | UaUInt32 _ => TagDataType.UInt32
  | UaInt64 _ => TagDataType.Int64
  | UaUInt64 _ => TagDataType.UInt64
  | UaFloat _ => TagDataType.Float
  | UaDouble _ => TagDataType.Double
  | UaText _ => TagDataType.String
  | UaTime _ => TagDataType.DateTime
  | UaBytes _ => TagDataType.ByteString
  end.

(** The value a scalar stands for. *)
Definition value_of (s : Scalar) : TagValue :=
  match s with
  | UaBoolean b => TagValue.Bool b
  | UaInt16 n => TagValue.Int16 n
  | UaUInt16 n => TagValue.UInt16 n
  | UaInt32 n => TagValue.Int32 n
  | UaUInt32 n => TagValue.UInt32 n
  | UaInt64 n => TagValue.Int64 n
  | UaUInt64 n => TagValue.UInt64 n
  | UaFloat f => TagValue.Float f
  | UaDouble f => TagValue.Double f
  | UaText s => TagValue.String (default ""%string (ua_string_as_str s))
  | UaTime t => TagValue.DateTime (from_timestamp_nanos (as_i64 (as_unix_timestamp_nanos t)))
  | UaBytes b => TagValue.ByteString (default [] (ua_bytes_as_bytes b))
  end.

Lemma variant_accepted var expected v :
  variant_to_tagvalue var expected = Ok v ↔
  ∃ s, held var = Some s ∧ scalar_type s = expected ∧ v = value_of s.
Proof.
  unfold variant_to_tagvalue.
  destruct expected, (held var) as [[]|]; simpl; split; try done;
    first [by intros [= <-]; eexists|by intros (? & [= <-] & ? & ->)|by intros (? & ? & ?)].
Qed.

(** The values that always have a UA form. *)
Lemma variant_total v :
  match v with TagValue.String _ | TagValue.DateTime _ => True
  | _ => is_Some (tagvalue_to_variant v) end.
Proof. destruct v; simpl; done || by eexists. Qed.
End defs.

(** ** The crate as a reference instance *)

Definition ua_types_ref : UaTypes :=
  {| UaString := string; UaDateTime := Z; UaByteString := list Z |}.

Definition no_nul (s : string) : bool := forallb (λ b, negb (b =? 0)) (as_bytes s).

Program Definition open62541_ref : Open62541 := {|
  ua_types := ua_types_ref;
  ua_string_new s := if no_nul s then Some s else None;
  ua_string_as_str u := Some u;
  try_from_unix_timestamp_nanos n := Some (n / 100);
  as_unix_timestamp_nanos t := t * 100;
  ua_bytes_new b := b;
  ua_bytes_as_bytes b := Some b;
  Variant := option (@Scalar ua_types_ref);
  scalar s := Some s;
  held v := v;
|}.
Solve Obligations with (cbn; intros; done || by eexists).
Next Obligation. intros s u. cbn. by destruct (no_nul s); intros [= <-]. Qed.
Next Obligation. intros n t. cbn. intros [= <-]. pose proof (Z.div_mod n 100 ltac:(lia)). pose proof (Z.mod_pos_bound n 100 ltac:(lia)). lia. Qed.

(** ** Properties *)

Section properties.
Context {C : Chrono} {O : Open62541}.

(** C25: what a client writes, whatever the variant, is accepted exactly when it holds a
    scalar of the type declared for the tag, and is then the value this scalar stands for;
    an empty variant, an array and a scalar of another type are refused.  What a client
    reads of a value is a scalar of the value's type, from which the server reads the same
    value back, an instant up to the 100 ns of a UA timestamp; every value has such a
    form, but a text [open62541] does not take and an instant out of range. *)
Theorem variant_round_trip (v : TagValue) (written : Variant) (expected : TagDataType) :
  (∀ v', variant_to_tagvalue written expected = Ok v' ↔
     ∃ s, held written = Some s ∧ scalar_type s = expected ∧ v' = value_of s) ∧
  (tagvalue_to_variant v = None →
     (∃ s, v = TagValue.String s ∧ ua_string_new s = None) ∨
     ∃ dt, v = TagValue.DateTime dt ∧
           (timestamp_nanos_opt dt ≫= try_from_unix_timestamp_nanos) = None) ∧
  (clear_of_wrap v → ∀ shown, tagvalue_to_variant v = Some shown →
     (∃ s, held shown = Some s ∧ scalar_type s = TagValue.data_type v) ∧
     ∃ v', variant_to_tagvalue shown (TagValue.data_type v) = Ok v' ∧ ua_close v v').
Proof.
  split; [apply variant_accepted|]. split.
  - destruct v; try done; simpl.
    + destruct (ua_string_new _) eqn:Hs; [done|]. intros _. left. by eexists.
    + intros Hnone. right. eexists. split; [done|]. destruct (timestamp_nanos_opt _); [|done].
      simpl in *. by destruct (try_from_unix_timestamp_nanos _).
  - intros Hclear var Hvar. destruct (variant_back v var Hclear Hvar) as (v' & Hv' & Hclose).
    split; [|by exists v']. apply variant_accepted in Hv' as (s & ? & ? & _). by exists s.
Qed.
End properties.

Section witnesses.
Local Existing Instances CratesRef.chrono_ref open62541_ref.

(** 1970-01-01T00:00:01.000000250Z *)
Definition instant : TagValue := TagValue.DateTime (1000000250 : @DateTimeUtc CratesRef.chrono_ref).
Definition instant_variant : Variant := Some (UaTime 10000002).
Definition empty_variant : Variant := None.
Lemma variant_round_trip_witness :
  variant_to_tagvalue empty_variant TagDataType.DateTime = Err "Expected DateTime"%string ∧
  tagvalue_to_variant instant = Some instant_variant ∧
  ∃ v', variant_to_tagvalue instant_variant TagDataType.DateTime = Ok v' ∧ ua_close instant v'.
Proof.
  destruct (variant_round_trip instant empty_variant TagDataType.DateTime) as (Hacc & _ & Hback).
  split; [|split; [reflexivity|]].
  - destruct (variant_to_tagvalue empty_variant TagDataType.DateTime) as [v'|e] eqn:Hv;
      [|by rewrite <- Hv]. exfalso. destruct (proj1 (Hacc v') eq_refl) as (s & Hs & _). discriminate Hs.
  - destruct (Hback ltac:(by intros n [= <-]; lia) instant_variant eq_refl) as [_ H]. exact H.
Defined.
End witnesses.
End OpcUaValue.
