(* ===== verification/OpcUaSource.v ===== *)
(** * OPC UA server: the data source of a tag

    Models [TagDataSource::read] and [TagDataSource::write] of opcua-server/src/native.rs,
    called by the server for the reads and writes of its clients.  The registry handle is
    the argument [r].  The channel to the write bridge is the list of the writes sent on
    it; whether its receiver is still there, and what comes back on a reply channel
    within a time, is decided by the other threads, the environment. *)

From stdpp Require Import base tactics numbers list gmap strings.
From S2P Require Import Prelude Effects RustStd RustStr Crates CratesRef TagValue Tag TagDefinition TagStore Registry RegistryRef OpcUaConfig OpcUaValue.
Local Open Scope Z_scope.

Module BridgeWrite.
Section defs.
Context {C : Chrono}.
(** [BridgeWrite]; a reply channel is its number. *)
Record BridgeWrite := mk {
  tag_id : string;
  value : TagValue;
  reply : option nat;
}.
End defs.
Arguments BridgeWrite : clear implicits.
Arguments BridgeWrite {_}.
End BridgeWrite.
Notation BridgeWrite := BridgeWrite.BridgeWrite.

Module DataSource.
Import OpcUaValue OpcUaConfig.
Section defs.
Context {C : Chrono} {J : SerdeJson} {O : Open62541}.

(** [TagDataSource], without its handles; the timeout in milliseconds. *)
Record TagDataSource := mk {
  tag_id : string;
  write_mode : WriteMode;
  confirm_timeout : Z;
}.
(** [TagDataSource::new] *)
Definition new (tag_id : string) (write_mode : WriteMode) (confirm_timeout : Z) : TagDataSource :=
  {| tag_id := tag_id; write_mode := write_mode; confirm_timeout := confirm_timeout |}.

(** [ua::DataValue], as [read] builds it. *)
Record DataValue := mkData {
  data : Variant;
  status : StatusCode;
  source_timestamp : UaDateTime;
  server_timestamp : UaDateTime;
}.

(** ** Reads *)

(** [TagDataSource::read]: the value set in the context; [None] is a panic. *)
Definition read (ds : TagDataSource) (r : TagRegistry) : option (result DataValue StatusCode) :=
  tag ← TagRegistry.get_tag r (tag_id ds);
  match tag with
  | Ok tag =>
      match tagvalue_to_variant (Tag.value tag) with
      | Some variant =>
          let status :=
            if decide (Tag.quality tag = TagQuality.Initializing)
            then GOOD else tagquality_to_ua_status (Tag.quality tag) in
          source_ts ← chrono_to_ua_dt (Tag.source_timestamp tag);
          server_ts ← chrono_to_ua_dt (Tag.server_timestamp tag);
          let dv := {| data := variant; status := status;
                       source_timestamp := source_ts; server_timestamp := server_ts |} in
          Some (Ok dv)
      | None => Some (Err BADINTERNALERROR)
      end
  | Err _ => Some (Err BADINTERNALERROR)
  end.

(** ** Writes *)

Inductive received :=
| Received (r : result unit string)
| RecvTimeout
| Disconnected.

Class Threads := {
  Env : Type;
  (** [write_tx.send(bridge).is_ok()]: whether the receiver is still there *)
  send_write : BridgeWrite → Env → bool * Env;
  (** [reply_rx.recv_timeout(t)] *)
  recv_timeout : Z → nat → Env → received * Env;
}.
Context {T : Threads}.

(** The other threads, the channels made so far and the writes sent to the bridge. *)
Record World := mkWorld { env : Env; channels : nat; sent : list BridgeWrite }.

(** [mpsc::channel()] *)
Definition channel : M World StatusCode nat := λ w,
  (Ret (channels w),
   {| env := env w; channels := S (channels w); sent := sent w |}).
Definition send (bridge : BridgeWrite) : M World StatusCode bool := λ w,
  let '(alive, e) := send_write bridge (env w) in
  (Ret alive,
   {| env := e; channels := channels w;
      sent := if alive : bool then sent w ++ [bridge] else sent w |}).
Definition recv (t : Z) (reply_rx : nat) : M World StatusCode received := λ w,
  let '(x, e) := recv_timeout t reply_rx (env w) in
  (Ret x, {| env := e; channels := channels w; sent := sent w |}).

(** [TagDataSource::write]; [value] is the variant of the client's data value, if it has
    one. *)
Definition write (ds : TagDataSource) (r : TagRegistry) (value : option Variant)
    : M World StatusCode unit :=
  match value with
  | None => throw BADINTERNALERROR
  | Some variant =>
      match TagRegistry.get_definition r (tag_id ds) with
      | Ok def =>
          let expected := TagDefinition.data_type def in
          match variant_to_tagvalue variant expected with
          | Ok tag_value =>
              reply ← channel;
              let bridge :=
                {| BridgeWrite.tag_id := tag_id ds; BridgeWrite.value := tag_value;
                   BridgeWrite.reply :=
                     if decide (write_mode ds = ConfirmedAck) then Some reply else None |} in
              ok ← send bridge;
              if negb ok then throw BADINTERNALERROR
              else if decide (write_mode ds = QueuedAck) then mret tt
              else
                ack ← recv (confirm_timeout ds) reply;
                match ack with
                | Received (Ok tt) => mret tt
                | Received (Err _) => throw BADINTERNALERROR
                | RecvTimeout => throw BADINTERNALERROR
                | Disconnected => throw BADINTERNALERROR
                end
          | Err _ => throw BADINTERNALERROR
          end
      | Err _ => throw BADINTERNALERROR
      end
  end.

(** ** What a client sees *)

Lemma chrono_to_ua_dt_total dt : is_Some (chrono_to_ua_dt dt).
Proof. unfold chrono_to_ua_dt. split_match; [by eexists|apply ua_datetime_epoch]. Qed.

(** The value, of the registry, that a write of the client asks for. *)
Definition requested (ds : TagDataSource) (r : TagRegistry) (value : option Variant)
    : option TagValue :=
  variant ← value;
  def ← TagRegistry.defs r !! tag_id ds;
  result_ok (variant_to_tagvalue variant (TagDefinition.data_type def)).

(** The write that goes to the bridge for a value. *)
Definition bridged (ds : TagDataSource) (v : TagValue) (reply : nat) : BridgeWrite :=
  {| BridgeWrite.tag_id := tag_id ds; BridgeWrite.value := v;
     BridgeWrite.reply := match write_mode ds with ConfirmedAck => Some reply | QueuedAck => None end |}.

(** The outcome of a write with a value for the tag. *)
Definition acknowledged (ds : TagDataSource) (v : TagValue) (w : World)
    (o : outcome StatusCode unit) (w' : World) : Prop :=
  let '(alive, e) := send_write (bridged ds v (channels w)) (env w) in
  if alive : bool then
    sent w' = sent w ++ [bridged ds v (channels w)] ∧ channels w' = S (channels w) ∧
    match write_mode ds with
    | QueuedAck => o = Ret tt ∧ env w' = e
    | ConfirmedAck =>
        let '(ack, e') := recv_timeout (confirm_timeout ds) (channels w) e in
        o = match ack with Received (Ok tt) => Ret tt | _ => Fail BADINTERNALERROR end ∧
        env w' = e'
    end
  else sent w' = sent w ∧ env w' = e ∧ o = Fail BADINTERNALERROR.

Lemma write_run ds r value w :
  wp (write ds r value)
     (λ o w', match requested ds r value with
              | Some v => acknowledged ds v w o w'
              | None => w' = w ∧ o = Fail BADINTERNALERROR
              end) w.
Proof.
  unfold wp, write, requested. destruct value as [variant|]; [|done]. simpl.
  rewrite TagRegistry.get_definition_view.
  destruct (TagRegistry.defs r !! tag_id ds) as [def|]; [|done]. simpl.
  destruct (variant_to_tagvalue variant _) as [v|]; [|done]. simpl.
  unfold acknowledged, bridged, mbind, M_bind, channel, send. simpl.
  destruct (write_mode ds); simpl; destruct (send_write _ (env w)) as [[] e]; simpl; try done.
  unfold recv. simpl.
  by destruct (recv_timeout _ _ e) as [[[[]|]| |] e'].
Qed.
End defs.

(** ** Properties *)

Section properties.
Context {C : Chrono} {J : SerdeJson} {O : Open62541}.

(** C26: a read never panics, and shows the tag the registry holds at that moment: its
    value in UA form, the status of its quality (good also while the tag still waits for
    its first value) and its two timestamps; it fails with an internal error exactly
    when there is no such tag or its value has no UA form. *)
Theorem ua_read_outcome (ds : TagDataSource) (r : TagRegistry) :
  TagRegistry.wf r →
  ∃ res, read ds r = Some res ∧
    match TagRegistry.view r !! tag_id ds ≫= λ t, pair t <$> tagvalue_to_variant (Tag.value t) with
    | Some (t, var) =>
        ∃ dv, res = Ok dv ∧ data dv = var ∧
          (status dv = GOOD ↔
             Tag.quality t = TagQuality.Good ∨ Tag.quality t = TagQuality.Initializing) ∧
          (status dv = UNCERTAINSUBNORMAL ↔
             Tag.quality t = TagQuality.Stale ∨ Tag.quality t = TagQuality.Substitute) ∧
          chrono_to_ua_dt (Tag.source_timestamp t) = Some (source_timestamp dv) ∧
          chrono_to_ua_dt (Tag.server_timestamp t) = Some (server_timestamp dv)
    | None => res = Err BADINTERNALERROR
    end.
Proof.
  intros Hwf. unfold read. rewrite TagRegistry.get_tag_view by done.
  destruct (TagRegistry.view r !! tag_id ds) as [t|]; simpl; [|by eexists].
  destruct (tagvalue_to_variant (Tag.value t)) as [var|]; simpl; [|by eexists].
  destruct (chrono_to_ua_dt_total (Tag.source_timestamp t)) as [src ->].
  destruct (chrono_to_ua_dt_total (Tag.server_timestamp t)) as [srv ->]. simpl.
  eexists. split; [done|]. eexists. split; [done|]. split; [done|]. simpl.
  split; [|split; [|done]]; case_decide as Hq; rewrite ?Hq;
    destruct (Tag.quality t); simpl; naive_solver.
Qed.

Context {T : Threads}.

(** C23: a write of a client is sent to the bridge exactly once, and only as a value of
    the type declared for the tag; every other request is refused with nothing sent.
    With queued acknowledgement it succeeds as soon as it is sent; with confirmed
    acknowledgement exactly when its confirmation arrives, on its own channel and in
    time; a failed send, a failure, a timeout or a closed channel is an error. *)
Theorem ua_write_outcome (ds : TagDataSource) (r : TagRegistry) (value : option Variant)
    (w w' : World) (o : outcome StatusCode unit) :
  write ds r value w = (o, w') →
  match requested ds r value with
  | Some v =>
      (∃ d, TagRegistry.defs r !! tag_id ds = Some d ∧
            TagValue.data_type v = TagDefinition.data_type d) ∧
      acknowledged ds v w o w'
  | None => w' = w ∧ o = Fail BADINTERNALERROR
  end.
Proof.
  intros Hrun. pose proof (wp_run _ _ _ _ _ (write_run ds r value w) Hrun) as H. simpl in H.
  destruct (requested ds r value) as [v|] eqn:Hv; [|done]. split; [|done].
  unfold requested in Hv. destruct value as [variant|]; [|done]. simpl in Hv.
  destruct (TagRegistry.defs r !! tag_id ds) as [d|]; [|done]. simpl in Hv.
  destruct (variant_to_tagvalue variant _) as [v'|] eqn:Hconv; [|done].
  simplify_eq/=. exists d. split; [done|]. by eapply variant_data_type.
Qed.
End properties.

Section witnesses.
Import RegistryRef.
Local Existing Instances CratesRef.chrono_ref CratesRef.json_ref OpcUaValue.open62541_ref.

Definition level : TagDefinition :=
  {| TagDefinition.id := "ns=1;s=level"; TagDefinition.name := "level";
     TagDefinition.address := "10"; TagDefinition.data_type := TagDataType.UInt16;
     TagDefinition.writable := true; TagDefinition.byte_order := WordOrder.ABCD;
     TagDefinition.stale_after_ms := None; TagDefinition.metadata := None;
     TagDefinition.plc_name := "plc" |}.
Definition registry : TagRegistry := ref_registry [level].
Lemma registry_wf : TagRegistry.wf registry.
Proof. apply ref_registry_wf. vm_refl. Qed.
Definition source : TagDataSource := new "ns=1;s=level" ConfirmedAck 5000.

Lemma shown : ∃ dv, read source registry = Some (Ok dv) ∧ status dv = GOOD.
Proof. eexists. split; [vm_compute; reflexivity|reflexivity]. Qed.

Lemma ua_read_outcome_witness :
  TagRegistry.wf registry ∧ ∃ dv, read source registry = Some (Ok dv).
Proof.
  split; [exact registry_wf|].
  destruct (ua_read_outcome source registry registry_wf) as (res & Hres & _).
  destruct shown as (dv & Hdv & _). rewrite Hdv in Hres. by exists dv.
Defined.

(** A bridge that is there, and confirms the first channel only. *)
Definition threads_ref : Threads :=
  {| Env := unit; send_write _ e := (true, e);
     recv_timeout _ n e := (match n with O => Received (Ok tt) | _ => RecvTimeout end, e) |}.
Local Existing Instance threads_ref.
Definition before : World := {| env := tt; channels := 0; sent := [] |}.
Definition seven : option Variant := Some (Some (UaUInt16 7)).
Definition after_write : World := (write source registry seven before).2.
Lemma write_ok : (write source registry seven before).1 = Ret tt.
Proof. vm_refl. Qed.
Lemma seven_requested : requested source registry seven = Some (TagValue.UInt16 7).
Proof. vm_refl. Qed.

Lemma ua_write_outcome_witness :
  sent after_write = [bridged source (TagValue.UInt16 7) 0].
Proof.
  pose proof (ua_write_outcome source registry seven before after_write (Ret tt)
    (run_eq (write source registry seven) before (Ret tt) write_ok)) as H.
  rewrite seven_requested in H. destruct H as [_ [H _]]. exact H.
Defined.
End witnesses.
End DataSource.
