(* ===== verification/OpcUaBridge.v ===== *)
(** * OPC UA server: the write bridge

    Models the thread [opcua-write-bridge] that [start_native_server] of
    opcua-server/src/native.rs spawns: it takes the writes off the bridge channel, has
    the write handler process each, and sends the result on the reply channel of the
    write.  The handler is the class [WriteHandler]; what the channel delivers and when
    the shutdown flag is set is the environment. *)

From stdpp Require Import base tactics numbers list gmap strings.
From S2P Require Import Prelude Effects RustStd RustStr Crates CratesRef TagValue OpcUaConfig OpcUaWrites OpcUaSource.

Module WriteBridge.
Section defs.
Context {C : Chrono} {W : Type} {H : OpcUaWrite.WriteHandler W}.

Inductive polled :=
| Taken (bw : BridgeWrite)
| PollTimeout
| ChannelClosed.

Class BridgeIO := {
  Env : Type;
  (** [bridge_rx.recv_timeout(Duration::from_millis(100))] *)
  poll : Env → polled * Env;
  (** [write_bridge_shutdown_signal.load(Ordering::Relaxed)] *)
  shutdown_requested : Env → bool * Env;
}.
Context {IO : BridgeIO}.

(** What the thread did: the writes it took and the replies it sent. *)
Inductive event :=
| Took (bw : BridgeWrite)
| Answered (reply : nat) (res : result unit string).

Record World := mkWorld { env : Env; handler : W; log : list event }.

Definition env_op {A} (f : Env → A * Env) : M World Empty_set A := λ w,
  let '(a, e) := f (env w) in (Ret a, {| env := e; handler := handler w; log := log w |}).
Definition emit (ev : event) : M World Empty_set unit :=
  modify (λ w, {| env := env w; handler := handler w; log := log w ++ [ev] |}).

(** [tokio_handle.block_on(handle_write(req))]: the result of the future is a value of
    the thread, a panic of it one of the thread. *)
Definition block_on (req : OpcUaWrite.WriteRequest)
    : M World Empty_set (result unit ServerError) := λ w,
  let '(o, h) := OpcUaWrite.handle_write req (handler w) in
  (match o with
   | Ret a => Ret (Ok a)
   | Fail e => Ret (Err e)
   | Panic => Panic
   | Pending => Pending
   end, {| env := env w; handler := h; log := log w |}).

(** One write taken off the channel. *)
Definition process (bw : BridgeWrite) : M World Empty_set unit :=
  let tag_id := BridgeWrite.tag_id bw in
  let value := BridgeWrite.value bw in
  let reply := BridgeWrite.reply bw in
  let req := {| OpcUaWrite.tag_id := tag_id; OpcUaWrite.value := value |} in
  emit (Took bw);;
  res ← block_on req;
  match reply with
  | Some tx => emit (Answered tx (map_err ServerError.to_string res))
  | None => mret tt
  end.

(** The loop of the thread. *)
Fixpoint run (fuel : nat) : M World Empty_set unit :=
  match fuel with
  | O => pending
  | S fuel =>
      p ← env_op poll;
      match p with
      | Taken bw => process bw;; run fuel
      | PollTimeout =>
          stop ← env_op shutdown_requested;
          if stop : bool then mret tt else run fuel
      | ChannelClosed => mret tt
      end
  end.

(** ** What the thread does *)

(** [serves h l h']: from handler state [h], processing the writes of [l] in order gives
    the results paired with them, and leaves [h']. *)
Inductive serves : W → list (BridgeWrite * result unit ServerError) → W → Prop :=
| serves_nil h : serves h [] h
| serves_cons h bw o h1 l h2 :
    OpcUaWrite.handle_write
      (OpcUaWrite.new (BridgeWrite.tag_id bw) (BridgeWrite.value bw)) h = (o, h1) →
    serves h1 l h2 →
    serves h ((bw, match o with Fail e => Err e | _ => Ok tt end) :: l) h2.

(** The events of one write and its result. *)
Definition service (x : BridgeWrite * result unit ServerError) : list event :=
  Took x.1 ::
  match BridgeWrite.reply x.1 with
  | Some tx => [Answered tx (map_err ServerError.to_string x.2)]
  | None => []
  end.

Lemma process_run bw w :
  OpcUaWrite.handler_ok (handler w) →
  ∃ o h,
    OpcUaWrite.handle_write
      (OpcUaWrite.new (BridgeWrite.tag_id bw) (BridgeWrite.value bw)) (handler w) = (o, h) ∧
    process bw w =
      (Ret tt, {| env := env w; handler := h;
                  log := log w ++ service (bw, match o with Fail e => Err e | _ => Ok tt end) |}) ∧
    OpcUaWrite.handler_ok h.
Proof.
  intros Hok. destruct (OpcUaWrite.handle_write_ends
    (OpcUaWrite.new (BridgeWrite.tag_id bw) (BridgeWrite.value bw)) (handler w) Hok)
    as (o & h & Hrun & Ho & Hok').
  exists o, h. split; [done|]. split; [|done].
  unfold process, service. simpl. unfold mbind, M_bind, emit, modify, block_on. simpl.
  unfold OpcUaWrite.new in Hrun. rewrite Hrun.
  destruct Ho as [->|[e ->]]; simpl; destruct (BridgeWrite.reply bw); simpl;
    by rewrite <- ?(assoc_L (++)).
Qed.

(** Whatever the channel delivers: the writes taken are served one by one, in order. *)
Lemma run_serves fuel w :
  OpcUaWrite.handler_ok (handler w) →
  wp (run fuel)
     (λ o w', (o = Ret tt ∨ o = Pending) ∧ OpcUaWrite.handler_ok (handler w') ∧
        ∃ l, serves (handler w) l (handler w') ∧ log w' = log w ++ concat (service <$> l)) w.
Proof.
  revert w. induction fuel as [|fuel IH]; intros w Hok; simpl.
  { split; [by right|]. split; [done|]. exists []. split; [constructor|]. simpl. by rewrite app_nil_r. }
  apply wp_bind. unfold wp at 1, env_op. destruct (poll (env w)) as [[bw| |] e]; simpl.
  - apply wp_bind. unfold wp at 1.
    destruct (process_run bw {| env := e; handler := handler w; log := log w |} Hok)
      as (o & h & Hh & -> & Hok'). simpl.
    eapply wp_mono; [by apply IH|]. intros o' w' (Ho & Hw' & l & Hl & Hlog). split; [done|].
    split; [done|].
    eexists (_ :: l). split; [by econstructor|]. rewrite Hlog. simpl. by rewrite <- (assoc_L (++)).
  - apply wp_bind. unfold wp at 1, env_op. simpl.
    destruct (shutdown_requested e) as [[] e']; simpl.
    + split; [by left|]. split; [done|]. exists []. split; [constructor|]. simpl. by rewrite app_nil_r.
    + exact (IH {| env := e'; handler := handler w; log := log w |} Hok).
  - split; [by left|]. split; [done|]. exists []. split; [constructor|]. simpl. by rewrite app_nil_r.
Qed.

(** [delivers e l]: from [e] on, the channel delivers exactly [l] before it closes, or
    before a poll times out with the shutdown flag set. *)
Inductive delivers : Env → list BridgeWrite → Prop :=
| delivers_closed e e' : poll e = (ChannelClosed, e') → delivers e []
| delivers_stopped e e1 e2 :
    poll e = (PollTimeout, e1) → shutdown_requested e1 = (true, e2) → delivers e []
| delivers_waiting e e1 e2 l :
    poll e = (PollTimeout, e1) → shutdown_requested e1 = (false, e2) →
    delivers e2 l → delivers e l
| delivers_write e bw e' l : poll e = (Taken bw, e') → delivers e' l → delivers e (bw :: l).

Lemma run_drains e l w :
  delivers e l → env w = e → OpcUaWrite.handler_ok (handler w) →
  ∃ n, ∀ fuel, (n ≤ fuel)%nat →
    wp (run fuel) (λ o w', o = Ret tt ∧
      ∃ rs, rs.*1 = l ∧ serves (handler w) rs (handler w') ∧
            log w' = log w ++ concat (service <$> rs)) w.
Proof.
  intros Hd. revert w. induction Hd as [e e' Hp|e e1 e2 Hp Hs|e e1 e2 l Hp Hs Hd IH|e bw e' l Hp Hd IH];
    intros w Hw Hok.
  - exists 1%nat. intros [|fuel] Hf; [lia|]. simpl. apply wp_bind. unfold wp at 1, env_op.
    rewrite Hw, Hp. simpl. split; [done|]. exists []. split; [done|]. split; [constructor|].
    simpl. by rewrite app_nil_r.
  - exists 1%nat. intros [|fuel] Hf; [lia|]. simpl. apply wp_bind. unfold wp at 1, env_op.
    rewrite Hw, Hp. simpl. apply wp_bind. unfold wp at 1. simpl. rewrite Hs. simpl.
    split; [done|]. exists []. split; [done|]. split; [constructor|]. simpl. by rewrite app_nil_r.
  - destruct (IH {| env := e2; handler := handler w; log := log w |} eq_refl Hok) as [n Hn].
    exists (S n). intros [|fuel] Hf; [lia|]. simpl. apply wp_bind. unfold wp at 1, env_op.
    rewrite Hw, Hp. simpl. apply wp_bind. unfold wp at 1. simpl. rewrite Hs. simpl.
    apply Hn. lia.
  - destruct (process_run bw {| env := e'; handler := handler w; log := log w |} Hok)
      as (o & h & Hh & Hproc & Hok').
    destruct (IH {| env := e'; handler := h;
                    log := log w ++ service (bw, match o with Fail e => Err e | _ => Ok tt end) |}
                eq_refl Hok') as [n Hn].
    exists (S n). intros [|fuel] Hf; [lia|]. simpl. apply wp_bind. unfold wp at 1, env_op.
    rewrite Hw, Hp. simpl. apply wp_bind. unfold wp at 1. rewrite Hproc. simpl.
    eapply wp_mono; [apply Hn; lia|]. simpl. intros o' w' (-> & rs & Hrs & Hserves & Hlog).
    split; [done|]. exists ((bw, match o with Fail e => Err e | _ => Ok tt end) :: rs).
    split; [cbn; f_equal; exact Hrs|].
    split; [by econstructor|]. rewrite Hlog. simpl. by rewrite <- (assoc_L (++)).
Qed.
End defs.
Arguments BridgeIO : clear implicits.
Arguments BridgeIO {_}.

(** ** Properties *)

Section properties.
Context {C : Chrono} {W : Type} {H : OpcUaWrite.WriteHandler W} {IO : BridgeIO}.

(** C24: the bridge takes the writes off its channel one at a time and in order, has the
    handler process each exactly once, and sends the result, and nothing else, on the
    reply channel of that write; a failed write never stops it.  When the channel closes,
    or the shutdown flag is set while the channel is empty, every write delivered before
    has been served, and the thread ends. *)
Theorem bridge_serves (w : World) (l : list BridgeWrite) :
  OpcUaWrite.handler_ok (handler w) → delivers (env w) l →
  (∀ fuel, wp (run fuel)
     (λ o w', (o = Ret tt ∨ o = Pending) ∧ OpcUaWrite.handler_ok (handler w') ∧
        ∃ rs, serves (handler w) rs (handler w') ∧ log w' = log w ++ concat (service <$> rs)) w) ∧
  ∃ n, ∀ fuel, (n ≤ fuel)%nat →
    wp (run fuel) (λ o w', o = Ret tt ∧
      ∃ rs, rs.*1 = l ∧ serves (handler w) rs (handler w') ∧
            log w' = log w ++ concat (service <$> rs)) w.
Proof. intros Hok Hd. split; [intros fuel; by apply run_serves|by eapply run_drains]. Qed.
End properties.

Section witnesses.
Local Existing Instance CratesRef.chrono_ref.

(** A handler that counts, and refuses every write but the first. *)
Definition count_write (req : OpcUaWrite.WriteRequest) (n : nat)
    : outcome ServerError unit * nat :=
  (match n with O => Ret tt | _ => Fail (ServerError.Other "refused") end, S n).
Lemma count_write_ends req n :
  True → ∃ o n', count_write req n = (o, n') ∧ (o = Ret tt ∨ ∃ e, o = Fail e) ∧ True.
Proof. destruct n; do 2 eexists; (split; [done|]); eauto. Qed.
Definition handler_ref : OpcUaWrite.WriteHandler nat :=
  {| OpcUaWrite.handle_write := count_write; OpcUaWrite.handler_ok _ := True; OpcUaWrite.handle_write_ends := count_write_ends |}.
Local Existing Instance handler_ref.
Definition bridge_io_ref : BridgeIO :=
  {| Env := list BridgeWrite;
     poll e := match e with [] => (ChannelClosed, []) | bw :: e => (Taken bw, e) end;
     shutdown_requested e := (false, e) |}.
Local Existing Instance bridge_io_ref.

Definition two_writes : list BridgeWrite :=
  [BridgeWrite.mk "a" (TagValue.Bool true) (Some 0%nat);
   BridgeWrite.mk "b" (TagValue.Bool true) (Some 1%nat)].
Definition start : World := {| env := two_writes; handler := 0%nat; log := [] |}.

Lemma two_delivered : delivers (env start) two_writes.
Proof. do 2 (eapply delivers_write; [reflexivity|]). by eapply delivers_closed. Qed.

Lemma bridge_serves_witness :
  ∃ n, ∀ fuel, (n ≤ fuel)%nat → wp (run fuel) (λ o w', o = Ret tt) start.
Proof.
  destruct (proj2 (bridge_serves (H := handler_ref) start two_writes I two_delivered)) as [n Hn].
  exists n. intros fuel Hf. destruct (Hn fuel Hf) as [Ho _]. exact Ho.
Defined.
Lemma two_answers :
  log (run 3 start).2 =
  [Took (BridgeWrite.mk "a" (TagValue.Bool true) (Some 0%nat)); Answered 0 (Ok tt);
   Took (BridgeWrite.mk "b" (TagValue.Bool true) (Some 1%nat)); Answered 1 (Err "Other: refused"%string)].
Proof. reflexivity. Qed.
End witnesses.
End WriteBridge.
