(* ===== verification/OpcUaSpace.v ===== *)
(** * OPC UA server: start-up and address space

    Models [start_native_server] of opcua-server/src/native.rs and [Server::start] of
    opcua-server/src/types.rs up to the point where the server's tasks are spawned: the
    security set-up of the builder, the access control, and the address space with a
    folder for each PLC and a variable for each tag definition.  The open62541 server,
    its builder and node ids, the file system and the async runtime are the class
    [Backend]. *)

From stdpp Require Import base tactics numbers list gmap strings.
From S2P Require Import Prelude Effects RustStd RustStr RustText Crates CratesRef TagValue Tag TagDefinition TagStore Registry RegistryRef OpcUaConfig OpcUaValue OpcUaSource.
Local Open Scope Z_scope.

Module NativeServer.
Import OpcUaConfig ServerError.

(** The constants of [ns0]. *)
Definition ns0_BOOLEAN : Z := 1.
Definition ns0_INT16 : Z := 4.
Definition ns0_UINT16 : Z := 5.
Definition ns0_INT32 : Z := 6.
Definition ns0_UINT32 : Z := 7.
Definition ns0_INT64 : Z := 8.
Definition ns0_UINT64 : Z := 9.
Definition ns0_FLOAT : Z := 10.
Definition ns0_DOUBLE : Z := 11.
Definition ns0_STRING : Z := 12.
Definition ns0_DATETIME : Z := 13.
Definition ns0_BYTESTRING : Z := 15.
Definition ns0_ORGANIZES : Z := 35.
Definition ns0_FOLDERTYPE : Z := 61.
Definition ns0_BASEDATAVARIABLETYPE : Z := 63.
Definition ns0_OBJECTSFOLDER : Z := 85.

(** The numeric id of the UA type of a data type. *)
Definition data_type_id (dt : TagDataType) : Z :=
  match dt with
  | TagDataType.Bool => ns0_BOOLEAN
  | TagDataType.Int16 => ns0_INT16
  | TagDataType.UInt16 => ns0_UINT16
  | TagDataType.Int32 => ns0_INT32
  | TagDataType.UInt32 => ns0_UINT32
  | TagDataType.Int64 => ns0_INT64
  | TagDataType.UInt64 => ns0_UINT64
  | TagDataType.Float => ns0_FLOAT
  | TagDataType.Double => ns0_DOUBLE
  | TagDataType.String => ns0_STRING
  | TagDataType.DateTime => ns0_DATETIME
  | TagDataType.ByteString => ns0_BYTESTRING
  end.

(** [id_str.split(";s=").nth(1).unwrap_or(&id_str)] *)
Definition string_node_id (id : string) : string := default id (split_second ";s=" id).

Class NodeIds := {
  NodeId : Type;
  (** [ua::NodeId::ns0(n)] and [ua::NodeId::string(ns, s)] *)
  nid_ns0 : Z → NodeId;
  nid_string : Z → string → NodeId;
}.

(** [ObjectNode] and [VariableNode], with the attributes the server sets; a browse name
    is its namespace and text. *)
Record ObjectNode `{NodeIds} := mkObject {
  o_parent : NodeId;
  o_reference_type : NodeId;
  o_browse_name : Z * string;
  o_type_definition : NodeId;
}.
Record VariableNode `{NodeIds} := mkVariable {
  v_requested_id : NodeId;
  v_parent : NodeId;
  v_reference_type : NodeId;
  v_browse_name : Z * string;
  v_type_definition : NodeId;
  v_data_type : NodeId;
  v_current_read : bool;
  v_current_write : bool;
}.

Class Backend := {
  #[global] backend_ids :: NodeIds;
  Env : Type;
  Builder : Type;
  (** [std::fs::read(path)] *)
  fs_read : string → Env → result (list Z) string * Env;
  (** [ServerBuilder::default_with_security_policies], of the certificate and the
      private key made from their bytes, and [ServerBuilder::default] *)
  default_with_security_policies : Z → list Z → list Z → result Builder string;
  builder_default : Builder;
  (** [b.accept_all()], [b.server_urls(&urls)], [b.access_control(access)], the last with
      the login callback and whether anonymous sessions are allowed *)
  accept_all : Builder → Builder;
  server_urls : list string → Builder → Builder;
  access_control : bool → Builder → result Builder string;
  (** [builder.build()], [server.add_namespace(uri)] *)
  build : Builder → Env → unit * Env;
  add_namespace : string → Env → Z * Env;
  (** whether [Handle::current()] finds a runtime *)
  in_runtime : Env → bool * Env;
  (** the spawning of the bridge thread *)
  spawn_bridge : Env → result unit string * Env;
  add_object_node : ObjectNode → Env → result NodeId string * Env;
  add_data_source_variable_node :
    VariableNode → DataSource.TagDataSource → Env → result NodeId string * Env;
}.

Section defs.
Context {J : SerdeJson} {B : Backend}.

(** What is done to the server: it is built, and nodes are added, with their ids. *)
Inductive event :=
| Built (b : Builder)
| AddedObject (node : ObjectNode) (id : NodeId)
| AddedVariable (node : VariableNode) (ds : DataSource.TagDataSource) (id : NodeId).

Record World := mkWorld { env : Env; log : list event }.

Definition env_op {A} (f : Env → A * Env) : M World ServerError A := λ w,
  let '(a, e) := f (env w) in (Ret a, {| env := e; log := log w |}).
Definition emit (ev : event) : M World ServerError unit :=
  modify (λ w, {| env := env w; log := log w ++ [ev] |}).

(** ** The builder *)

Definition required (field : string) (o : option string) : result string ServerError :=
  match o with
  | Some s => Ok s
  | None => Err (Config (field +:+ " is required when security_mode is not None"))
  end.

(** Lines 346-405: the builder, with or without security policies. *)
Definition make_builder (cfg : OpcUaConfig) : M World ServerError Builder :=
  if decide (security_mode cfg = NoSecurity) then mret builder_default
  else
    cert_path ← of_result (required "server_certificate_path"
                       (server_certificate_path (certificates cfg)));
    key_path ← of_result (required "server_private_key_path"
                      (server_private_key_path (certificates cfg)));
    cert ← env_op (fs_read cert_path);
    cert_bytes ← of_result (map_err (λ e, Config ("Failed to read certificate '" +:+ cert_path
                                            +:+ "': " +:+ e)) cert);
    key ← env_op (fs_read key_path);
    key_bytes ← of_result (map_err (λ e, Config ("Failed to read private key '" +:+ key_path
                                           +:+ "': " +:+ e)) key);
    b ← of_result (map_err (λ e, ServerError.Backend ("Failed to initialize security policies: " +:+ e))
               (default_with_security_policies (port cfg) cert_bytes key_bytes));
    match trust_store_dir (certificates cfg) with
    | None => mret (accept_all b)
    | Some _ => mret b
    end.

(** Lines 407-427: the endpoint and the access control; [login] says whether there is a
    login callback. *)
Definition configure_builder (cfg : OpcUaConfig) (login : bool) (b : Builder)
    : M World ServerError Builder :=
  let endpoint := "opc.tcp://" +:+ bind_addr cfg +:+ ":" +:+ fmt_dec (port cfg) in
  let b := server_urls [endpoint] b in
  if login then
    if negb (username_password_enabled cfg)
    then throw (Config "username/password authentication disabled in config")
    else
      of_result (map_err (λ e, ServerError.Backend ("Failed to apply access control: " +:+ e))
             (access_control (anonymous_enabled cfg) b))
  else mret b.

(** ** The address space *)

Definition folder_node (ns : Z) (parent : NodeId) (name : string) : ObjectNode :=
  {| o_parent := parent; o_reference_type := nid_ns0 ns0_ORGANIZES; o_browse_name := (ns, name);
     o_type_definition := nid_ns0 ns0_FOLDERTYPE |}.

(** The variable of a definition, under the folder of its PLC, and its data source. *)
Definition variable_node (ns : Z) (parent : NodeId) (def : TagDefinition) : VariableNode :=
  {| v_requested_id := nid_string ns (string_node_id (TagDefinition.id def));
     v_parent := parent;
     v_reference_type := nid_ns0 ns0_ORGANIZES;
     v_browse_name := (ns, TagDefinition.name def);
     v_type_definition := nid_ns0 ns0_BASEDATAVARIABLETYPE;
     v_data_type := nid_ns0 (data_type_id (TagDefinition.data_type def));
     v_current_read := true;
     v_current_write := if TagDefinition.writable def then true else false |}.
Definition data_source (cfg : OpcUaConfig) (def : TagDefinition) : DataSource.TagDataSource :=
  DataSource.new (TagDefinition.id def) (write_mode cfg) 5000.

(** Lines 510-530: the folder of a PLC, made at its first tag. *)
Definition plc_folder (ns : Z) (plcs_folder : NodeId) (plc_nodes : gmap string NodeId)
    (plc_name : string) : M World ServerError (NodeId * gmap string NodeId) :=
  match plc_nodes !! plc_name with
  | Some n => mret (n, plc_nodes)
  | None =>
      nn ← env_op (add_object_node (folder_node ns plcs_folder plc_name));
      nn ← of_result (map_err (λ e, ServerError.Backend ("Failed creating PLC folder '" +:+ plc_name
                                                   +:+ "': " +:+ e)) nn);
      emit (AddedObject (folder_node ns plcs_folder plc_name) nn);;
      mret (nn, <[plc_name := nn]> plc_nodes)
  end.

(** Lines 505-596: the loop over the definitions. *)
Fixpoint add_variables (cfg : OpcUaConfig) (ns : Z) (plcs_folder : NodeId)
    (plc_nodes tag_node_map : gmap string NodeId) (defs : list TagDefinition)
    : M World ServerError (gmap string NodeId) :=
  match defs with
  | [] => mret tag_node_map
  | def :: defs =>
      '(plc_node_id, plc_nodes) ← plc_folder ns plcs_folder plc_nodes (TagDefinition.plc_name def);
      let node := variable_node ns plc_node_id def in
      id ← env_op (add_data_source_variable_node node (data_source cfg def));
      id ← of_result (map_err (λ e, ServerError.Backend ("Failed creating variable for tag "
                                                   +:+ TagDefinition.id def +:+ ": " +:+ e)) id);
      emit (AddedVariable node (data_source cfg def) id);;
      add_variables cfg ns plcs_folder plc_nodes (<[TagDefinition.id def := id]> tag_node_map) defs
  end.

(** Lines 484-596. *)
Definition build_address_space (cfg : OpcUaConfig) (ns : Z) (defs : list TagDefinition)
    : M World ServerError (gmap string NodeId) :=
  let objects_folder := nid_ns0 ns0_OBJECTSFOLDER in
  plcs_folder ← env_op (add_object_node (folder_node ns objects_folder "PLCs"));
  plcs_folder ← of_result (map_err (λ e, ServerError.Backend ("Failed creating PLCs folder: " +:+ e))
                       plcs_folder);
  emit (AddedObject (folder_node ns objects_folder "PLCs") plcs_folder);;
  add_variables cfg ns plcs_folder ∅ ∅ defs.

(** ** What the address space holds *)

(** The folders made, and the tags served, by the events of a run. *)
Definition folders (l : list event) : list (string * NodeId) :=
  omap (λ ev, match ev with AddedObject n id => Some ((o_browse_name n).2, id) | _ => None end) l.
Definition served (l : list event) : list string :=
  omap (λ ev, match ev with AddedVariable _ ds _ => Some (DataSource.tag_id ds) | _ => None end) l.

(** [lays nodes defs l]: with the folders of [nodes] in place, the events [l] add the
    definitions' variables one after the other, and a folder before the first variable
    of a PLC that has none. *)
Inductive lays (cfg : OpcUaConfig) (ns : Z) (pf : NodeId)
    : gmap string NodeId → list TagDefinition → list event → Prop :=
| lays_nil nodes : lays cfg ns pf nodes [] []
| lays_known nodes d ds p id l :
    nodes !! TagDefinition.plc_name d = Some p → lays cfg ns pf nodes ds l →
    lays cfg ns pf nodes (d :: ds) (AddedVariable (variable_node ns p d) (data_source cfg d) id :: l)
| lays_new nodes d ds p id l :
    nodes !! TagDefinition.plc_name d = None →
    lays cfg ns pf (<[TagDefinition.plc_name d := p]> nodes) ds l →
    lays cfg ns pf nodes (d :: ds)
      (AddedObject (folder_node ns pf (TagDefinition.plc_name d)) p ::
       AddedVariable (variable_node ns p d) (data_source cfg d) id :: l).

Lemma lays_served cfg ns pf nodes ds l :
  lays cfg ns pf nodes ds l → served l = TagDefinition.id <$> ds.
Proof. induction 1; csimpl; by f_equal. Qed.

Lemma lays_folders_new cfg ns pf nodes ds l :
  lays cfg ns pf nodes ds l →
  NoDup (folders l).*1 ∧ ∀ n, n ∈ (folders l).*1 → nodes !! n = None ∧
    ∃ d, d ∈ ds ∧ n = TagDefinition.plc_name d.
Proof.
  induction 1 as [|nodes d ds p id l Hd Hl [IH1 IH2]|nodes d ds p id l Hd Hl [IH1 IH2]]; csimpl.
  - split; [constructor|]. by intros n ?%not_elem_of_nil.
  - split; [done|]. intros n (? & d' & ? & ->)%IH2. split; [done|]. exists d'. set_solver.
  - split.
    + constructor; [|done]. intros (Hn & _)%IH2. by rewrite lookup_insert_eq in Hn.
    + intros n [->|Hn]%elem_of_cons; [split; [done|]; exists d; set_solver|].
      apply IH2 in Hn as (Hn & d' & ? & ->). apply lookup_insert_None in Hn as [??].
      split; [done|]. exists d'. set_solver.
Qed.

Lemma lays_variable cfg ns pf nodes ds l d :
  lays cfg ns pf nodes ds l → d ∈ ds →
  ∃ p id, AddedVariable (variable_node ns p d) (data_source cfg d) id ∈ l ∧
    (nodes !! TagDefinition.plc_name d = Some p ∨ (TagDefinition.plc_name d, p) ∈ folders l).
Proof.
  induction 1 as [|nodes d' ds p id l Hp Hl IH|nodes d' ds p id l Hp Hl IH]; intros Hd.
  - by apply not_elem_of_nil in Hd.
  - apply elem_of_cons in Hd as [->|Hd].
    + exists p, id. split; [by left|by left].
    + destruct (IH Hd) as (p' & id' & ? & ?). exists p', id'. split; [by right|done].
  - csimpl. apply elem_of_cons in Hd as [->|Hd].
    + exists p, id. split; [by right; left|right; by left].
    + destruct (IH Hd) as (p' & id' & ? & Hp'). exists p', id'. split; [by do 2 right|].
      destruct Hp' as [Hp'|?]; [|right; by right].
      destruct (decide (TagDefinition.plc_name d' = TagDefinition.plc_name d)) as [Heq|].
      * rewrite Heq, lookup_insert_eq in Hp'. injection Hp' as ->. right. rewrite Heq. by left.
      * rewrite lookup_insert_ne in Hp' by done. by left.
Qed.

(** The folder of a PLC, or of all of them, and the variable of a tag, field by field: the
    reference types and type definitions are the numbers the UA standard gives them. *)
Definition folder_of (ns : Z) (parent : NodeId) (name : string) (n : ObjectNode) : Prop :=
  n = {| o_parent := parent; o_reference_type := nid_ns0 35; o_browse_name := (ns, name);
         o_type_definition := nid_ns0 61 |}.
Definition ua_types : list (TagDataType * Z) :=
  [(TagDataType.Bool, 1); (TagDataType.Int16, 4); (TagDataType.UInt16, 5); (TagDataType.Int32, 6);
   (TagDataType.UInt32, 7); (TagDataType.Int64, 8); (TagDataType.UInt64, 9); (TagDataType.Float, 10);
   (TagDataType.Double, 11); (TagDataType.String, 12); (TagDataType.DateTime, 13);
   (TagDataType.ByteString, 15)].
Definition variable_of (ns : Z) (parent : NodeId) (d : TagDefinition) (v : VariableNode) : Prop :=
  ∃ text ty,
    text = match split_second ";s=" (TagDefinition.id d) with
           | Some rest => rest
           | None => TagDefinition.id d
           end ∧
    (TagDefinition.data_type d, ty) ∈ ua_types ∧
    v = {| v_requested_id := nid_string ns text; v_parent := parent;
           v_reference_type := nid_ns0 35; v_browse_name := (ns, TagDefinition.name d);
           v_type_definition := nid_ns0 63; v_data_type := nid_ns0 ty;
           v_current_read := true; v_current_write := TagDefinition.writable d |}.
Definition source_of (cfg : OpcUaConfig) (d : TagDefinition) (ds : DataSource.TagDataSource) : Prop :=
  DataSource.tag_id ds = TagDefinition.id d ∧ DataSource.write_mode ds = write_mode cfg ∧
  DataSource.confirm_timeout ds = 5000.

Lemma folder_node_of ns parent name : folder_of ns parent name (folder_node ns parent name).
Proof. done. Qed.
Lemma variable_node_of ns parent d : variable_of ns parent d (variable_node ns parent d).
Proof.
  unfold variable_of, variable_node, string_node_id.
  exists (default (TagDefinition.id d) (split_second ";s=" (TagDefinition.id d))),
    (data_type_id (TagDefinition.data_type d)).
  split_and!; [done| |by destruct (TagDefinition.writable d)].
  destruct (TagDefinition.data_type d); unfold ua_types; set_solver.
Qed.
Lemma data_source_of cfg d : source_of cfg d (data_source cfg d).
Proof. done. Qed.

(** The objects the events of a run add are the folders of the PLCs. *)
Lemma lays_objects cfg ns pf nodes ds l n id :
  lays cfg ns pf nodes ds l → AddedObject n id ∈ l →
  ∃ d, d ∈ ds ∧ folder_of ns pf (TagDefinition.plc_name d) n.
Proof.
  induction 1 as [|nodes d ds p i l Hd Hl IH|nodes d ds p i l Hd Hl IH]; intros Hin.
  - by apply not_elem_of_nil in Hin.
  - apply elem_of_cons in Hin as [?|Hin]; [done|].
    destruct (IH Hin) as (d' & ? & ?). exists d'. split; [by right|done].
  - apply elem_of_cons in Hin as [[= -> ->]|[?|Hin]%elem_of_cons]; [|done|].
    + exists d. split; [by left|done].
    + destruct (IH Hin) as (d' & ? & ?). exists d'. split; [by right|done].
Qed.

(** A failure of the backend, and a backend that accepts every node. *)
Definition backend_failure {A} (o : outcome ServerError A) : Prop :=
  ∃ m, o = Fail (ServerError.Backend m).
Definition accepting : Prop :=
  (∀ n e, is_ok (add_object_node n e).1 = true) ∧
  (∀ v ds e, is_ok (add_data_source_variable_node v ds e).1 = true).

Lemma add_variables_run cfg ns pf ds nodes ids w :
  wp (add_variables cfg ns pf nodes ids ds)
     (λ o w', ∃ l, log w' = log w ++ l ∧
        ((∃ ids', o = Ret ids' ∧ lays cfg ns pf nodes ds l) ∨ backend_failure o ∧ ¬ accepting)) w.
Proof.
  revert nodes ids w. induction ds as [|d ds IH]; intros nodes ids w; simpl.
  { exists []. split; [by rewrite app_nil_r|]. left. eexists. split; [done|constructor]. }
  assert (∀ p nodes' pre w1, log w1 = log w ++ pre →
    (∀ id l, lays cfg ns pf nodes' ds l →
       lays cfg ns pf nodes (d :: ds)
         (pre ++ AddedVariable (variable_node ns p d) (data_source cfg d) id :: l)) →
    wp (id ← env_op (add_data_source_variable_node (variable_node ns p d) (data_source cfg d));
        id ← of_result (map_err (λ e, ServerError.Backend ("Failed creating variable for tag "
                                 +:+ TagDefinition.id d +:+ ": " +:+ e)) id);
        emit (AddedVariable (variable_node ns p d) (data_source cfg d) id);;
        add_variables cfg ns pf nodes' (<[TagDefinition.id d := id]> ids) ds)
       (λ o w', ∃ l, log w' = log w ++ l ∧
          ((∃ ids', o = Ret ids' ∧ lays cfg ns pf nodes (d :: ds) l) ∨
           backend_failure o ∧ ¬ accepting)) w1) as Hvar.
  { intros p nodes' pre w1 Hw1 Hlays. apply wp_bind. unfold wp at 1, env_op.
    destruct (add_data_source_variable_node _ _ (env w1)) as [[id|e] e1] eqn:He; simpl.
    - apply wp_bind, wp_ret. apply wp_bind. unfold wp at 1. simpl.
      eapply wp_mono; [apply IH|]. intros o w' (l & Hl & Ho). simpl in Hl.
      exists (pre ++ AddedVariable (variable_node ns p d) (data_source cfg d) id :: l). split.
      + rewrite Hl, Hw1. by rewrite <- !(assoc_L (++)).
      + destruct Ho as [(ids' & -> & Ho)|Ho]; [|by right]. left. exists ids'. auto.
    - apply wp_bind, wp_throw. simpl. exists pre. split; [done|]. right. split; [by eexists|].
      intros [_ Hacc]. specialize (Hacc (variable_node ns p d) (data_source cfg d) (env w1)).
      by rewrite He in Hacc. }
  apply wp_bind. unfold plc_folder.
  destruct (nodes !! TagDefinition.plc_name d) as [p|] eqn:Hp.
  - apply wp_ret. simpl. apply (Hvar p nodes []); [by rewrite app_nil_r|].
    intros id l Hl. by apply lays_known.
  - apply wp_bind. unfold wp at 1, env_op.
    destruct (add_object_node _ (env w)) as [[p|e] e1] eqn:He; simpl.
    + apply wp_bind, wp_ret. simpl. apply wp_bind. unfold wp at 1. simpl. apply wp_ret. simpl.
      eapply (Hvar p _ [AddedObject (folder_node ns pf (TagDefinition.plc_name d)) p]); [done|].
      intros id l Hl. by apply lays_new.
    + apply wp_bind, wp_throw. simpl. exists []. split; [by rewrite app_nil_r|].
      right. split; [by eexists|]. intros [Hacc _].
      specialize (Hacc (folder_node ns pf (TagDefinition.plc_name d)) (env w)).
      by rewrite He in Hacc.
Qed.

(** ** Start-up *)

Context {C : Chrono}.

(** [start_native_server], up to the tasks it spawns last. *)
Definition start_native_server (cfg : OpcUaConfig) (r : TagRegistry) (login : bool)
    : M World ServerError (gmap string NodeId) :=
  builder ← make_builder cfg;
  builder ← configure_builder cfg login builder;
  env_op (build builder);;
  emit (Built builder);;
  ns_index ← env_op (add_namespace (namespace_uri cfg));
  in_rt ← env_op in_runtime;
  if negb in_rt
  then throw (Other "start_native_server must be called from a Tokio runtime context")
  else
    thread ← env_op spawn_bridge;
    of_result (map_err (λ e, Other ("Failed to spawn write bridge thread: " +:+ e)) thread);;
    build_address_space cfg ns_index (TagRegistry.all_definitions_sorted r).

(** [Server::start_with_login_cb] and [Server::start] *)
Definition start_with_login_cb (cfg : OpcUaConfig) (r : TagRegistry) (login : bool)
    : M World ServerError (gmap string NodeId) :=
  if login && negb (username_password_enabled cfg)
  then throw (Config "username/password authentication disabled in config")
  else start_native_server cfg r login.
Definition start (cfg : OpcUaConfig) (r : TagRegistry) : M World ServerError (gmap string NodeId) :=
  start_with_login_cb cfg r false.

(** ** What start-up depends on *)

(** The builder of a secured server: one made with security policies, from the files of
    the certificate and of the private key, that trusts every client exactly when no
    trust store is given. *)
Definition secured_builder (cfg : OpcUaConfig) (w : World) (b : Builder) : Prop :=
  ∃ cert_path key_path cert key b0 e1,
    server_certificate_path (certificates cfg) = Some cert_path ∧
    server_private_key_path (certificates cfg) = Some key_path ∧
    fs_read cert_path (env w) = (Ok cert, e1) ∧ (fs_read key_path e1).1 = Ok key ∧
    default_with_security_policies (port cfg) cert key = Ok b0 ∧
    b = match trust_store_dir (certificates cfg) with None => accept_all b0 | Some _ => b0 end.

Lemma make_builder_run cfg w :
  security_mode cfg ≠ NoSecurity →
  wp (make_builder cfg)
     (λ o w', log w' = log w ∧
        ((∃ b, o = Ret b ∧ secured_builder cfg w b) ∨ ∃ e, o = Fail e)) w.
Proof.
  intros Hsec. unfold make_builder. rewrite decide_False by done.
  destruct (server_certificate_path (certificates cfg)) as [cp|] eqn:Hcp; simpl;
    [|apply wp_bind, wp_throw; simpl; eauto].
  apply wp_bind, wp_ret. simpl.
  destruct (server_private_key_path (certificates cfg)) as [kp|] eqn:Hkp; simpl;
    [|apply wp_bind, wp_throw; simpl; eauto].
  apply wp_bind, wp_ret. simpl. apply wp_bind. unfold wp at 1, env_op.
  destruct (fs_read cp (env w)) as [[cert|e] e1] eqn:Hc; simpl;
    [|apply wp_bind, wp_throw; simpl; eauto].
  apply wp_bind, wp_ret. simpl. apply wp_bind. unfold wp at 1. simpl.
  destruct (fs_read kp e1) as [[key|e] e2] eqn:Hk; simpl;
    [|apply wp_bind, wp_throw; simpl; eauto].
  apply wp_bind, wp_ret. simpl.
  destruct (default_with_security_policies (port cfg) cert key) as [b0|e] eqn:Hb; simpl;
    [|apply wp_bind, wp_throw; simpl; eauto].
  apply wp_bind, wp_ret. simpl.
  assert (∀ b, b = match trust_store_dir (certificates cfg) with
                   | None => accept_all b0 | Some _ => b0 end → secured_builder cfg w b) as Hs.
  { intros b ->. exists cp, kp, cert, key, b0, e1. by rewrite Hk. }
  destruct (trust_store_dir (certificates cfg)); apply wp_ret; split; eauto.
Qed.

(** The events of a run are those it starts from and more. *)
Definition extends {A} (m : M World ServerError A) : Prop :=
  ∀ w, wp m (λ o w', ∃ l, log w' = log w ++ l) w.
Lemma extends_bind {A D} (m : M World ServerError A) (k : A → M World ServerError D) :
  extends m → (∀ a, extends (k a)) → extends (m ≫= k).
Proof.
  intros Hm Hk w. apply wp_bind. eapply wp_mono; [apply Hm|].
  intros o w' (l & Hl). destruct o as [a|e| |]; simpl; [|by eauto..].
  eapply wp_mono; [apply Hk|]. intros o' w'' (l' & Hl'). exists (l ++ l').
  by rewrite Hl', Hl, (assoc_L (++)).
Qed.
Lemma extends_op {A} (f : Env → A * Env) : extends (env_op f).
Proof.
  intros w. unfold wp, env_op. destruct (f (env w)). exists []. simpl. by rewrite app_nil_r.
Qed.
Lemma extends_result {A} (x : result A ServerError) : extends (of_result x).
Proof. intros w. exists []. destruct x; simpl; by rewrite app_nil_r. Qed.
Lemma extends_add_variables cfg ns pf nodes ids ds : extends (add_variables cfg ns pf nodes ids ds).
Proof. intros w. eapply wp_mono; [apply add_variables_run|]. intros o w' (l & Hl & _). by eexists. Qed.
Lemma extends_emit ev : extends (emit ev).
Proof. intros w. by eexists. Qed.
Lemma extends_space cfg ns ds : extends (build_address_space cfg ns ds).
Proof.
  apply extends_bind; [apply extends_op|]. intros f. apply extends_bind; [apply extends_result|].
  intros f'. apply extends_bind; [apply extends_emit|]. intros _. apply extends_add_variables.
Qed.
Lemma extends_rest cfg r :
  extends (ns_index ← env_op (add_namespace (namespace_uri cfg));
    in_rt ← env_op in_runtime;
    if negb in_rt
    then throw (Other "start_native_server must be called from a Tokio runtime context")
    else
      thread ← env_op spawn_bridge;
      of_result (map_err (λ e, Other ("Failed to spawn write bridge thread: " +:+ e)) thread);;
      build_address_space cfg ns_index (TagRegistry.all_definitions_sorted r)).
Proof.
  apply extends_bind; [apply extends_op|]. intros ns. apply extends_bind; [apply extends_op|].
  intros [].
  - apply extends_bind; [apply extends_op|]. intros t. apply extends_bind; [apply extends_result|].
    intros _. apply extends_space.
  - intros w. exists []. by rewrite app_nil_r.
Qed.

(** Two configurations that agree on what start-up without a login callback looks at; of
    the security mode it is only whether there is one. *)
Definition same_server (c1 c2 : OpcUaConfig) : Prop :=
  bind_addr c1 = bind_addr c2 ∧ port c1 = port c2 ∧ namespace_uri c1 = namespace_uri c2 ∧
  write_mode c1 = write_mode c2 ∧
  (security_mode c1 = NoSecurity ↔ security_mode c2 = NoSecurity) ∧
  server_certificate_path (certificates c1) = server_certificate_path (certificates c2) ∧
  server_private_key_path (certificates c1) = server_private_key_path (certificates c2) ∧
  (trust_store_dir (certificates c1) = None ↔ trust_store_dir (certificates c2) = None).

Lemma bind_same {A D} (m1 m2 : M World ServerError A) (k1 k2 : A → M World ServerError D) w :
  m1 w = m2 w → (∀ a w, k1 a w = k2 a w) → (m1 ≫= k1) w = (m2 ≫= k2) w.
Proof.
  intros Hm Hk. unfold mbind, M_bind. rewrite Hm. destruct (m2 w) as [[a|e| |] w'];
    [apply Hk|done..].
Qed.
Lemma bind_ext {A D} (m : M World ServerError A) (k1 k2 : A → M World ServerError D) w :
  (∀ a w, k1 a w = k2 a w) → (m ≫= k1) w = (m ≫= k2) w.
Proof. by apply bind_same. Qed.

Lemma add_variables_same c1 c2 ns pf nodes ids ds w :
  write_mode c1 = write_mode c2 →
  add_variables c1 ns pf nodes ids ds w = add_variables c2 ns pf nodes ids ds w.
Proof.
  intros Hm. revert nodes ids w. induction ds as [|d ds IH]; intros nodes ids w; simpl; [done|].
  unfold data_source. rewrite Hm.
  apply bind_ext. intros [p nodes'] w1. apply bind_ext. intros id w2. apply bind_ext.
  intros id' w3. apply bind_ext. intros _ w4. apply IH.
Qed.

Lemma make_builder_same c1 c2 w : same_server c1 c2 → make_builder c1 w = make_builder c2 w.
Proof.
  intros (_ & Hp & _ & _ & Hs & Hc & Hk & Ht). unfold make_builder. rewrite Hp, Hc, Hk.
  rewrite (decide_ext _ (security_mode c2 = NoSecurity)) by done.
  case_decide; [done|]. do 7 (apply bind_ext; intros ? ?).
  destruct (trust_store_dir (certificates c1)), (trust_store_dir (certificates c2)); naive_solver.
Qed.

Lemma start_same c1 c2 r w : same_server c1 c2 → start c1 r w = start c2 r w.
Proof.
  intros Hsame. pose proof (make_builder_same _ _ w Hsame) as Hb.
  destruct Hsame as (Ha & Hp & Hn & Hm & _).
  unfold start, start_with_login_cb, start_native_server, configure_builder. simpl.
  rewrite Ha, Hp, Hn. apply bind_same; [exact Hb|].
  intros b w1. apply bind_ext. intros b' w2. apply bind_ext. intros _ w3.
  apply bind_ext. intros _ w4. apply bind_ext. intros ns w5. apply bind_ext.
  intros [] w6; simpl; [|done]. apply bind_ext. intros t w7. apply bind_ext. intros _ w8.
  apply bind_ext. intros f w9. apply bind_ext. intros f' w10. apply bind_ext. intros _ w11.
  by apply add_variables_same.
Qed.
End defs.

(** ** Properties *)

Section properties.
Context {J : SerdeJson} {B : Backend} {C : Chrono}.

(** C27: the address space has one folder for each PLC, made once and under the folder
    "PLCs" of the objects, and one variable for each definition, in the order of the
    definitions: under the folder of the definition's PLC, with the text of its id as node
    id, its name as browse name and the UA type of its data type, readable, writable
    exactly when the definition is, and served by a data source of that tag in the
    configured write mode.  It can only fail with an error of the backend, and not when
    the backend accepts every node. *)
Theorem address_space_built (cfg : OpcUaConfig) (ns : Z) (defs : list TagDefinition) (w : World) :
  wp (build_address_space cfg ns defs)
     (λ o w', (backend_failure o ∧ ¬ accepting) ∨
        ∃ ids root pf l, o = Ret ids ∧
          log w' = log w ++ AddedObject root pf :: l ∧ folder_of ns (nid_ns0 85) "PLCs" root ∧
          served l = TagDefinition.id <$> defs ∧
          NoDup (folders l).*1 ∧
          (∀ n id, AddedObject n id ∈ l →
             ∃ d, d ∈ defs ∧ folder_of ns pf (TagDefinition.plc_name d) n) ∧
          (∀ d, d ∈ defs → ∃ p v ds id,
             (TagDefinition.plc_name d, p) ∈ folders l ∧ AddedVariable v ds id ∈ l ∧
             variable_of ns p d v ∧ source_of cfg d ds)) w.
Proof.
  unfold build_address_space. apply wp_bind. unfold wp at 1, env_op.
  destruct (add_object_node _ (env w)) as [[pf|e] e1] eqn:He; simpl.
  - apply wp_bind, wp_ret. simpl. apply wp_bind. unfold wp at 1. simpl.
    eapply wp_mono; [apply add_variables_run|]. simpl.
    intros o w' (l & Hl & [(ids & -> & Hlays)|Hfail]); [right|by left].
    destruct (lays_folders_new _ _ _ _ _ _ Hlays) as [Hnd _].
    exists ids, (folder_node ns (nid_ns0 ns0_OBJECTSFOLDER) "PLCs"), pf, l. split; [done|].
    split; [by rewrite Hl, <- (assoc_L (++))|]. split; [apply folder_node_of|].
    split; [by eapply lays_served|]. split; [done|].
    split; [intros n id Hn; by eapply lays_objects|].
    intros d Hd. destruct (lays_variable _ _ _ _ _ _ _ Hlays Hd) as (p & id & Hvar & [Hp|Hp]);
      [by rewrite lookup_empty in Hp|].
    exists p, (variable_node ns p d), (data_source cfg d), id.
    split_and!; [done|done|apply variable_node_of|apply data_source_of|done..].
  - apply wp_bind, wp_throw. simpl. left. split; [by eexists|]. intros [Hacc _].
    specialize (Hacc (folder_node ns (nid_ns0 ns0_OBJECTSFOLDER) "PLCs") (env w)).
    by rewrite He in Hacc.
Qed.

(** C28: with a security mode configured, no server is ever built without security
    policies: either the certificate and the key were read and the policies initialised
    from them, or start-up fails and nothing is built.  Of the mode only that there is one
    has an effect: signing, and signing and encrypting, start the same server, with the
    same calls to the backend and the same outcome.  Nor does a server started without a login
    callback, as the runtime starts it, depend on whether anonymous sessions or passwords
    are enabled, on the security policy, the limits on sessions and subscriptions, the
    application's names, the store of rejected certificates or the minimal key length; of
    the store of trusted certificates it matters whether there is one, not where it is. *)
Theorem server_started (cfg : OpcUaConfig) (r : TagRegistry) (w w' : World)
    (o : outcome ServerError (gmap string NodeId)) :
  start cfg r w = (o, w') →
  (security_mode cfg ≠ NoSecurity →
   (∃ b l, secured_builder cfg w b ∧
           log w' = log w ++ Built (server_urls [endpoint_url cfg] b) :: l) ∨
   (log w' = log w ∧ ∃ e, o = Fail e)) ∧
  (∀ cfg', same_server cfg cfg' → start cfg' r w = (o, w')).
Proof.
  intros Hrun. split; [|intros cfg' Hs; by rewrite <- (start_same _ _ _ _ Hs)].
  intros Hsec. revert Hrun.
  apply (wp_run (start cfg r) (λ o w',
    (∃ b l, secured_builder cfg w b ∧
           log w' = log w ++ Built (server_urls [endpoint_url cfg] b) :: l) ∨
    (log w' = log w ∧ ∃ e, o = Fail e))).
  unfold start, start_with_login_cb, start_native_server. simpl.
  apply wp_bind. eapply wp_mono; [by apply make_builder_run|].
  intros o1 w1 (Hlog & [(b & -> & Hb)|[e ->]]); simpl; [|right; eauto].
  unfold configure_builder. apply wp_bind, wp_ret. simpl.
  apply wp_bind. unfold wp at 1, env_op. destruct (build _ (env w1)) as [[] e1]; simpl.
  apply wp_bind. unfold wp at 1. simpl.
  eapply wp_mono; [apply extends_rest|]. intros o2 w2 (l & Hl). simpl in Hl. left.
  exists b, l. split; [done|]. rewrite Hl, Hlog, <- (assoc_L (++)). done.
Qed.
End properties.

Section witnesses.
Import RegistryRef.
Local Existing Instances CratesRef.chrono_ref CratesRef.json_ref.

(** A backend that numbers the nodes it is given, and has the two files. *)
Inductive RefNode := RefNs0 (n : Z) | RefString (ns : Z) (s : string) | RefAssigned (n : nat).
Definition ids_ref : NodeIds :=
  {| NodeId := RefNode; nid_ns0 := RefNs0; nid_string := RefString |}.
Inductive RefBuilder :=
| RefDefault
| RefPolicies (port : Z) (cert key : list Z)
| RefAcceptAll (b : RefBuilder)
| RefUrls (urls : list string) (b : RefBuilder).
Definition ref_read (path : string) (e : nat) : result (list Z) string * nat :=
  (if decide (path = "cert.der") then Ok [1] else if decide (path = "key.der") then Ok [2]
   else Err "not found"%string, e).
Definition backend_ref : Backend :=
  {| backend_ids := ids_ref; Env := nat; Builder := RefBuilder; fs_read := ref_read;
     default_with_security_policies p c k := Ok (RefPolicies p c k);
     builder_default := RefDefault; accept_all := RefAcceptAll; server_urls := RefUrls;
     access_control _ b := Ok b; build _ e := (tt, e); add_namespace _ e := (1, e);
     in_runtime e := (true, e); spawn_bridge e := (Ok tt, e);
     add_object_node _ e := (Ok (RefAssigned e), S e);
     add_data_source_variable_node v _ e := (Ok (v_requested_id v), e) |}.
Local Existing Instance backend_ref.

Definition plant_tag (id plc : string) : TagDefinition :=
  {| TagDefinition.id := id; TagDefinition.name := id; TagDefinition.address := "10";
     TagDefinition.data_type := TagDataType.UInt16; TagDefinition.writable := false;
     TagDefinition.byte_order := WordOrder.ABCD; TagDefinition.stale_after_ms := None;
     TagDefinition.metadata := None; TagDefinition.plc_name := plc |}.
Definition plant_defs : list TagDefinition :=
  [plant_tag "ns=1;s=a" "north"; plant_tag "ns=1;s=b" "south"; plant_tag "ns=1;s=c" "north"].
Definition idle : World := {| env := 0%nat; log := [] |}.
Definition built : World := (build_address_space default_local 1 plant_defs idle).2.

Lemma plant_space :
  folders (log built) = [("PLCs"%string, RefAssigned 0); ("north"%string, RefAssigned 1);
                         ("south"%string, RefAssigned 2)] ∧
  served (log built) = ["ns=1;s=a"; "ns=1;s=b"; "ns=1;s=c"]%string ∧
  string_node_id "ns=1;s=a" = "a"%string.
Proof. split_and!; vm_refl. Qed.
Lemma ref_accepting : accepting.
Proof. by split. Qed.

Lemma address_space_built_witness :
  ∃ p v ds id, AddedVariable v ds id ∈ log built ∧
    variable_of 1 p (plant_tag "ns=1;s=a" "north") v ∧
    source_of default_local (plant_tag "ns=1;s=a" "north") ds.
Proof.
  destruct (address_space_built default_local 1 plant_defs idle)
    as [[_ Hn]|(ids & root & pf & l & _ & Hlog & _ & _ & _ & _ & Hvars)].
  - destruct (Hn ref_accepting).
  - destruct (Hvars (plant_tag "ns=1;s=a" "north")) as (p & v & ds & id & _ & Hin & Hv & Hs); [by left|].
    exists p, v, ds, id. split; [|split; [exact Hv|exact Hs]].
    unfold built. rewrite Hlog. simpl. right. exact Hin.
Defined.

(** The local configuration with a security mode and without anonymous sessions. *)
Definition secured (mode : SecurityMode) (anonymous : bool) : OpcUaConfig :=
  {| bind_addr := "0.0.0.0"; port := 4840; application_name := "bridge";
     application_uri := "urn:b"; namespace_uri := "urn:b:ns"; anonymous_enabled := anonymous;
     username_password_enabled := false; max_sessions := 100; max_subscriptions := 1000;
     write_mode := ConfirmedAck; security_mode := mode; security_policy := Basic256Sha256;
     certificates :=
       {| server_certificate_path := Some "cert.der"%string;
          server_private_key_path := Some "key.der"%string; trust_store_dir := None;
          reject_store_dir := None; min_key_length := 2048 |} |}.
Definition plant : TagRegistry := ref_registry plant_defs.

Lemma secured_same : same_server (secured SignAndEncrypt false) (secured Sign true).
Proof. unfold same_server. simpl. split_and!; done. Qed.

Lemma server_started_witness :
  (∃ b, secured_builder (secured SignAndEncrypt false) idle b) ∧
  start (secured Sign true) plant idle = start (secured SignAndEncrypt false) plant idle.
Proof.
  destruct (start (secured SignAndEncrypt false) plant idle) as [o w'] eqn:Hrun.
  destruct (server_started (secured SignAndEncrypt false) plant idle w' o Hrun) as [Hsec Hsame]. split.
  - destruct (Hsec ltac:(discriminate)) as [(b & _ & Hb & _)|[_ [e He]]]; [by exists b|].
    exfalso. subst o.
    assert (is_Some (match (start (secured SignAndEncrypt false) plant idle).1 with Ret _ => Some tt | _ => None end))
      as Hret by (exists tt; vm_refl).
    rewrite Hrun in Hret. by destruct Hret.
  - apply Hsame, secured_same.
Defined.
End witnesses.
End NativeServer.
