(* ===== verification/ServerLifecycle.v ===== *)
(** * OPC UA server: the threads and their shutdown

    Models the tasks [start_native_server] of opcua-server/src/native.rs spawns last, and
    [ServerHandle] of opcua-server/src/types.rs, as a step relation: the server task, the
    runner of the open62541 server on its blocking thread, the write bridge, and a
    caller of [shutdown] and [wait].  Steps of the threads interleave freely; the poll of
    the bridge that times out and its look at the shutdown flag are two steps.  What each
    write goes through in the bridge is in [OpcUaBridge]. *)

From stdpp Require Import base tactics numbers list relations.
From S2P Require Import Prelude.

Module ServerLifecycle.

(** Where the server task is: in its loop on the shutdown channel, waiting for the
    runner, or finished. *)
Inductive task_state := Serving | AwaitingRunner | Finished.
(** Where a caller of [wait] is: before the call, waiting for the task, joining the
    bridge thread, or done. *)
Inductive wait_state := NotCalled | AwaitingTask | JoiningBridge | Returned.
(** Where the write bridge is: at [recv_timeout], after a poll that timed out and before
    its look at the flag, or out of its loop. *)
Inductive bridge_state := Polling | TimedOut | Ended.
#[export] Instance bridge_state_eq_dec : EqDecision bridge_state.
Proof. solve_decision. Defined.

Record State := mk {
  (** the value of the shutdown channel, and the two flags *)
  shutdown_tx : bool;
  shutdown_flag : bool;
  write_bridge_shutdown : bool;
  task : task_state;
  runner_alive : bool;
  bridge : bridge_state;
  (** the writes on the bridge channel, and those the bridge has taken *)
  queued : nat;
  served : nat;
  (** of those on the channel, the ones sent since the bridge's poll timed out *)
  late : nat;
  waiter : wait_state;
}.

Definition start : State := mk false false false Serving true Polling 0 0 0 NotCalled.

(** The steps, named after the code that makes them. *)
Inductive label :=
| Shutdown       (* [ServerHandle::shutdown] *)
| ClientWrite    (* a data source sends a write to the bridge *)
| TaskSignals    (* the task sees the shutdown and sets the flag of the runner *)
| RunnerStops    (* the runner sees its flag *)
| RunnerFails    (* the runner returns an error *)
| TaskFinishes   (* the runner has been awaited *)
| BridgeTakes    (* a write is taken off the channel and served *)
| BridgeTimesOut (* a poll times out *)
| BridgeIdles    (* then no shutdown is seen *)
| BridgeStops    (* then the shutdown is seen *)
| BridgeCloses   (* every sender of the channel is gone *)
| WaitCalled | WaitJoins | WaitReturns.

(** The late writes, when one more is sent. *)
Definition one_more (b : bridge_state) (late : nat) : nat :=
  match b with TimedOut => S late | _ => late end.

Inductive step : label → State → State → Prop :=
| step_shutdown sd sf bs t r b q n l w :
    step Shutdown (mk sd sf bs t r b q n l w) (mk true sf bs t r b q n l w)
| step_client_write sd sf bs t b q n l w :
    step ClientWrite (mk sd sf bs t true b q n l w) (mk sd sf bs t true b (S q) n (one_more b l) w)
| step_task_signals sf bs r b q n l w :
    step TaskSignals (mk true sf bs Serving r b q n l w) (mk true true bs AwaitingRunner r b q n l w)
| step_runner_stops sd bs t b q n l w :
    step RunnerStops (mk sd true bs t true b q n l w) (mk sd true bs t false b q n l w)
| step_runner_fails sd sf bs t b q n l w :
    step RunnerFails (mk sd sf bs t true b q n l w) (mk sd sf bs t false b q n l w)
| step_task_finishes sd sf bs b q n l w :
    step TaskFinishes (mk sd sf bs AwaitingRunner false b q n l w) (mk sd sf true Finished false b q n l w)
| step_bridge_takes sd sf bs t r q n l w :
    step BridgeTakes (mk sd sf bs t r Polling (S q) n l w) (mk sd sf bs t r Polling q (S n) l w)
| step_bridge_times_out sd sf bs t r n l w :
    step BridgeTimesOut (mk sd sf bs t r Polling 0 n l w) (mk sd sf bs t r TimedOut 0 n 0 w)
| step_bridge_idles sd sf t r q n l w :
    step BridgeIdles (mk sd sf false t r TimedOut q n l w) (mk sd sf false t r Polling q n 0 w)
| step_bridge_stops sd sf t r q n l w :
    step BridgeStops (mk sd sf true t r TimedOut q n l w) (mk sd sf true t r Ended q n l w)
| step_bridge_closes sd sf bs n l w :
    step BridgeCloses (mk sd sf bs Finished false Polling 0 n l w) (mk sd sf bs Finished false Ended 0 n l w)
| step_wait_called sd sf bs t r b q n l :
    step WaitCalled (mk sd sf bs t r b q n l NotCalled) (mk sd sf bs t r b q n l AwaitingTask)
| step_wait_joins sd sf bs r b q n l :
    step WaitJoins (mk sd sf bs Finished r b q n l AwaitingTask) (mk sd sf bs Finished r b q n l JoiningBridge)
| step_wait_returns sd sf bs t r q n l :
    step WaitReturns (mk sd sf bs t r Ended q n l JoiningBridge) (mk sd sf bs t r Ended q n l Returned).

Definition any_step (s s' : State) : Prop := ∃ l, step l s s'.
Definition reachable (s : State) : Prop := rtc any_step start s.

(** ** The order in which the parts stop *)

Record inv (s : State) : Prop := {
  (** the bridge is told to stop only after the runner has stopped *)
  inv_finished : task s = Finished → runner_alive s = false ∧ shutdown_tx s = true;
  inv_bridge_flag : write_bridge_shutdown s = true ↔ task s = Finished;
  inv_bridge : bridge s = Ended → task s = Finished;
  (** what is left on the channel after a poll that timed out came later *)
  inv_late : if decide (bridge s = Polling) then late s = 0%nat else queued s = late s;
  inv_signalled : task s ≠ Serving → shutdown_flag s = true ∧ shutdown_tx s = true;
  inv_joining : waiter s = JoiningBridge → task s = Finished;
  inv_returned : waiter s = Returned → task s = Finished ∧ bridge s = Ended;
}.

Lemma inv_start : inv start.
Proof. by split. Qed.

Lemma inv_step l s s' : step l s s' → inv s → inv s'.
Proof.
  intros Hs [H1 H2 H3 H4 H5 H6 H7].
  destruct Hs; simpl in *; split; simpl; try (by intuition congruence);
    try (destruct b; simpl in *; intuition (try congruence; try lia)).
Qed.

Lemma inv_steps s s' : rtc any_step s s' → inv s → inv s'.
Proof. induction 1 as [|s s1 s' [l Hl] _ IH]; [done|]. intros Hi. apply IH. by eapply inv_step. Qed.

Lemma inv_reachable s : reachable s → inv s.
Proof. intros Hr. by eapply inv_steps, inv_start. Qed.

(** ** Shutdown ends *)

(** The steps that bring the shutdown forward; the others are clients still writing,
    idle polls and repeated calls. *)
Definition progress (l : label) : Prop :=
  match l with
  | Shutdown | ClientWrite | BridgeTimesOut | BridgeIdles | WaitCalled => False
  | _ => True
  end.
#[export] Instance progress_dec l : Decision (progress l).
Proof. destruct l; simpl; apply _. Defined.

(** What is left to do. *)
Definition remaining (s : State) : nat :=
  (match task s with Serving => 2 | AwaitingRunner => 1 | Finished => 0 end
   + (if runner_alive s then 1 else 0) + (if decide (bridge s = Ended) then 0 else 1) + queued s
   + match waiter s with NotCalled => 3 | AwaitingTask => 2 | JoiningBridge => 1 | Returned => 0 end)%nat.

Lemma progress_decreases l s s' : progress l → step l s s' → (remaining s' < remaining s)%nat.
Proof. intros Hp Hs. destruct Hs; simpl in *; unfold remaining; simpl; try done; try lia; repeat case_match; lia. Qed.

(** Once [shutdown] and [wait] have been called, there is always a step forward until
    [wait] has returned. *)
Lemma progress_enabled s :
  inv s → shutdown_tx s = true → waiter s ≠ NotCalled → waiter s ≠ Returned →
  ∃ l s', progress l ∧ step l s s'.
Proof.
  intros [H1 H2 H3 _ H4 H5 H6] Hsd Hn Hr.
  destruct s as [sd sf bs t r b q n lt w]. simpl in *. subst sd.
  destruct t.
  - do 2 eexists. split; [|apply step_task_signals]. done.
  - destruct H4 as [-> _]; [done|]. destruct r.
    + do 2 eexists. split; [|apply step_runner_stops]. done.
    + do 2 eexists. split; [|apply step_task_finishes]. done.
  - destruct H1 as [-> _]; [done|]. destruct b.
    + destruct q as [|q].
      * do 2 eexists. split; [|apply step_bridge_closes]. done.
      * do 2 eexists. split; [|apply step_bridge_takes]. done.
    + rewrite (proj2 H2 eq_refl). do 2 eexists. split; [|apply step_bridge_stops]. done.
    + destruct w; try done.
      * do 2 eexists. split; [|apply step_wait_joins]. done.
      * do 2 eexists. split; [|apply step_wait_returns]. done.
Qed.

(** Both calls stay made. *)
Lemma called_stays l s s' :
  step l s s' → shutdown_tx s = true → waiter s ≠ NotCalled →
  shutdown_tx s' = true ∧ waiter s' ≠ NotCalled.
Proof. intros Hs. by destruct Hs; simpl. Qed.

(** A run of steps forward only, of a given length. *)
Inductive forward : nat → State → State → Prop :=
| forward_O s : forward 0 s s
| forward_S k l s s1 s' : progress l → step l s s1 → forward k s1 s' → forward (S k) s s'.

Lemma forward_bound k s s' : forward k s s' → (k + remaining s' ≤ remaining s)%nat.
Proof.
  induction 1 as [s|k l s s1 s' Hp Hs _ IH]; [lia|].
  pose proof (progress_decreases _ _ _ Hp Hs). lia.
Qed.

Lemma forward_reaches s :
  inv s → shutdown_tx s = true → waiter s ≠ NotCalled →
  ∃ k s', forward k s s' ∧ waiter s' = Returned.
Proof.
  remember (remaining s) as n eqn:Hn. revert s Hn.
  induction n as [n IH] using lt_wf_ind. intros s -> Hi Hsd Hc.
  destruct (waiter s) eqn:Hw; try done.
  1,2: destruct (progress_enabled s Hi Hsd) as (l & s1 & Hp & Hs); [congruence..|];
    destruct (called_stays _ _ _ Hs Hsd ltac:(congruence)) as [Hsd1 Hc1];
    destruct (IH (remaining s1)) with (s := s1) as (k & s' & Hk & Hs'); try done;
    [by eapply progress_decreases|by eapply inv_step|];
    exists (S k), s'; (split; [by econstructor|done]).
  exists 0%nat, s. split; [constructor|done].
Qed.

(** ** A runner that fails *)

(** No step but the call of [shutdown] gets the task out of its loop, and without its
    runner the server takes no write. *)
Record unnoticed (total : nat) (s : State) : Prop := {
  un_runner : runner_alive s = false;
  un_task : task s = Serving;
  un_shutdown : shutdown_tx s = false;
  un_waiter : waiter s = NotCalled ∨ waiter s = AwaitingTask;
  un_writes : (served s + queued s = total)%nat;
}.

Definition quiet (s s' : State) : Prop := ∃ l, l ≠ Shutdown ∧ step l s s'.

Lemma unnoticed_step total s s' : quiet s s' → unnoticed total s → unnoticed total s'.
Proof.
  intros (l & Hl & Hs) [H1 H2 H3 H4 H5].
  destruct Hs; simpl in *; split; simpl; try done; try congruence; try lia; intuition congruence.
Qed.

(** ** Properties *)

Section properties.

(** C29: the parts of the server stop in order: whatever the interleaving, the write
    bridge ends only after the server task, which ends only after the runner, so no
    client can still send it a write; when it ends it has served every write it was
    sent, but for those sent between the time-out of its last poll and its look at the
    shutdown flag; and [wait] returns only then. *)
Theorem bridge_outlives_runner (s : State) :
  reachable s →
  (bridge s = Ended → runner_alive s = false ∧ task s = Finished ∧ queued s = late s) ∧
  (waiter s = Returned → bridge s = Ended ∧ runner_alive s = false).
Proof.
  intros Hr. destruct (inv_reachable s Hr) as [H1 H2 H3 Hl H4 H5 H6]. split.
  - intros Hb. pose proof (H3 Hb) as Ht. rewrite Hb in Hl. by destruct (H1 Ht).
  - intros Hw. destruct (H6 Hw) as [Ht Hb]. by destruct (H1 Ht).
Qed.

(** C30: shutdown terminates: once [shutdown] and [wait] have been called, then apart from
    clients still writing and idle polls every sequence of steps is bounded by what is
    left to do, there is always a next step until [wait] has returned, and so [wait] can
    always still return. *)
Theorem shutdown_terminates (s : State) :
  reachable s → shutdown_tx s = true → waiter s ≠ NotCalled →
  (∀ k s', forward k s s' → (k ≤ remaining s)%nat) ∧
  (waiter s ≠ Returned → ∃ l s', progress l ∧ step l s s') ∧
  ∃ k s', forward k s s' ∧ waiter s' = Returned.
Proof.
  intros Hr Hsd Hc. pose proof (inv_reachable s Hr) as Hi. split; [|split].
  - intros k s' Hk%forward_bound. lia.
  - intros Hn. by apply progress_enabled.
  - by apply forward_reaches.
Qed.

(** A failure of the runner (a port that is taken, say) is not noticed: until [shutdown]
    is called the server task goes on as if it were serving, [wait] does not return, and
    no client is served. *)
Theorem runner_failure_unnoticed (s s' : State) :
  reachable s → runner_alive s = false → shutdown_tx s = false → rtc quiet s s' →
  task s' = Serving ∧ waiter s' ≠ Returned ∧ bridge s' ≠ Ended ∧
  (served s' + queued s' = served s + queued s)%nat.
Proof.
  intros Hr Hrun Hsd Hs. pose proof (inv_reachable s Hr) as Hi.
  destruct Hi as [_ _ _ _ H4 H5 H6].
  assert (task s = Serving) as Ht.
  { destruct (task s); [done|..]; destruct H4 as [_ ?]; congruence. }
  assert (unnoticed (served s + queued s) s) as Hu.
  { split; try done. destruct (waiter s); auto; [specialize (H5 eq_refl); congruence|].
    destruct (H6 eq_refl). congruence. }
  assert (reachable s') as Hr'.
  { unfold reachable. etrans; [exact Hr|]. eapply (rtc_subrel quiet); [|exact Hs].
    intros ?? (l & _ & Hl). by exists l. }
  assert (unnoticed (served s + queued s) s') as [_ Ht' _ Hw' Hn'].
  { clear Hr Hr' Hrun Hsd H4 H5 H6 Ht. revert Hu. generalize (served s + queued s)%nat as t.
    induction Hs as [|s s1 s' Hl _ IH]; intros t Hu; [done|]. by apply IH, (unnoticed_step _ s). }
  split; [done|]. split; [by destruct Hw' as [-> | ->]|]. split; [|done].
  intros Hb. by rewrite (inv_bridge _ (inv_reachable s' Hr') Hb) in Ht'.
Qed.
End properties.

Section witnesses.
(** A client writes, shutdown is requested and awaited. *)
Definition stopping : State := mk true false false Serving true Polling 1 0 0 AwaitingTask.
Lemma stopping_reachable : reachable stopping.
Proof.
  eapply rtc_l; [exists ClientWrite; constructor|].
  eapply rtc_l; [exists Shutdown; constructor|].
  eapply rtc_l; [exists WaitCalled; constructor|]. apply rtc_refl.
Qed.
Definition stopped : State := mk true true true Finished false Ended 0 1 0 Returned.
Lemma stopped_reachable : reachable stopped.
Proof.
  unfold reachable. etrans; [apply stopping_reachable|].
  eapply rtc_l; [exists TaskSignals; constructor|]. eapply rtc_l; [exists RunnerStops; constructor|].
  eapply rtc_l; [exists TaskFinishes; constructor|]. eapply rtc_l; [exists WaitJoins; constructor|].
  eapply rtc_l; [exists BridgeTakes; constructor|]. eapply rtc_l; [exists BridgeTimesOut; constructor|].
  eapply rtc_l; [exists BridgeStops; constructor|].
  eapply rtc_l; [exists WaitReturns; constructor|]. apply rtc_refl.
Qed.

(** A write that arrives between a poll that timed out and the look at the flag, while the
    server shuts down, is never taken. *)
Lemma late_write_lost :
  ∃ s, reachable s ∧ waiter s = Returned ∧ queued s = 1%nat ∧ served s = 0%nat.
Proof.
  exists (mk true true true Finished false Ended 1 0 1 Returned). split; [|done].
  eapply rtc_l; [exists BridgeTimesOut; constructor|]. eapply rtc_l; [exists ClientWrite; constructor|].
  eapply rtc_l; [exists Shutdown; constructor|]. eapply rtc_l; [exists WaitCalled; constructor|].
  eapply rtc_l; [exists TaskSignals; constructor|]. eapply rtc_l; [exists RunnerStops; constructor|].
  eapply rtc_l; [exists TaskFinishes; constructor|]. eapply rtc_l; [exists BridgeStops; constructor|].
  eapply rtc_l; [exists WaitJoins; constructor|]. eapply rtc_l; [exists WaitReturns; constructor|].
  apply rtc_refl.
Qed.

(** The runner fails at once; the task has still not noticed after [wait] was called. *)
Definition failed : State := mk false false false Serving false Polling 0 0 0 NotCalled.
Definition failed_waiting : State := mk false false false Serving false Polling 0 0 0 AwaitingTask.
Lemma failed_reachable : reachable failed.
Proof. eapply rtc_l; [exists RunnerFails; constructor|]. apply rtc_refl. Qed.
Lemma runner_failure_unnoticed_witness : task failed_waiting = Serving.
Proof.
  destruct (runner_failure_unnoticed failed failed_waiting failed_reachable eq_refl eq_refl) as [H _];
    [|exact H].
  apply rtc_once. exists WaitCalled. split; [done|constructor].
Defined.

Lemma bridge_outlives_runner_witness :
  runner_alive stopped = false ∧ queued stopped = 0%nat.
Proof.
  destruct (bridge_outlives_runner stopped stopped_reachable) as [H _].
  destruct (H eq_refl) as (Hr & _ & Hq). split; [exact Hr|exact Hq].
Defined.
Lemma shutdown_terminates_witness :
  ∃ k s', forward k stopping s' ∧ waiter s' = Returned.
Proof.
  exact (proj2 (proj2 (shutdown_terminates stopping stopping_reachable eq_refl ltac:(discriminate)))).
Defined.
End witnesses.
End ServerLifecycle.
