(* ===== verification/MainShutdown.v ===== *)
(** * Runtime: the end of main

    Models the end of [main] in runtime/src/main.rs, from Ctrl-C on: the pollers of the
    drivers are stopped one after the other ([RuntimeDriver::stop]), then the OPC UA
    server is asked to shut down and waited for ([ServerHandle], in [ServerLifecycle]).
    The pollers and the threads of the server go on meanwhile: a step relation, whose
    steps interleave freely. *)

From stdpp Require Import base tactics numbers list relations.
From S2P Require Import Prelude Effects RuntimeDriver ServerLifecycle.
Import ServerLifecycle.

Module MainShutdown.

(** A poller: the control of its [RuntimeDriver], whether its task still runs, and
    whether it is inside a cycle. *)
Record Poller := mkPoller { control : RuntimeDriver.Control; running : bool; cycling : bool }.

(** Where [main] is: waiting for Ctrl-C, about to stop the driver [i], awaiting its task,
    about to ask the server, about to wait for it, waiting, or back. *)
Inductive phase :=
| AwaitCtrlC
| Stopping (i : nat)
| Awaiting (i : nat)
| AskingServer
| CallingWait
| WaitingServer
| Complete
| SignalError.

Record State := mkState { main : phase; pollers : list Poller; server : ServerLifecycle.State }.

(** After the start-up: every driver's poller is started, the server runs. *)
Definition unstarted : RuntimeDriver.Control :=
  {| RuntimeDriver.poll_handle := None; RuntimeDriver.shutdown := false; RuntimeDriver.spawned := 0 |}.
Definition started_poller : Poller :=
  {| control := RuntimeDriver.start unstarted; running := true; cycling := false |}.
Definition initial (drivers : nat) : State :=
  {| main := AwaitCtrlC; pollers := replicate drivers started_poller; server := ServerLifecycle.start |}.

Section steps.
(** Whether the cycle the poller [i] is in comes to an end. *)
Context (ends : nat → Prop).

Inductive main_label :=
| CtrlC | CtrlCFails
| MainStops | MainJoins | MainStopped | MainShutdown | MainWaits | MainReturns
| PollerBegins | PollerEnds | PollerPanics | PollerExits
| ServerStep (l : ServerLifecycle.label).

Notation signalled p := (RuntimeDriver.shutdown (control p)).

Inductive main_step : main_label → State → State → Prop :=
| main_ctrl_c ps sv :
    main_step CtrlC (mkState AwaitCtrlC ps sv) (mkState (Stopping 0) ps sv)
| main_ctrl_c_fails ps sv :
    main_step CtrlCFails (mkState AwaitCtrlC ps sv) (mkState SignalError ps sv)
  (* [d.stop()]: the signal, and then the task of the handle, if there is one *)
| main_stops i ps sv p c h :
    ps !! i = Some p → RuntimeDriver.stop (control p) = (c, h) →
    main_step MainStops (mkState (Stopping i) ps sv)
      (mkState (match h with Some _ => Awaiting i | None => Stopping (S i) end)
         (<[i := {| control := c; running := running p; cycling := cycling p |}]> ps) sv)
| main_joins i ps sv p :
    ps !! i = Some p → running p = false →
    main_step MainJoins (mkState (Awaiting i) ps sv) (mkState (Stopping (S i)) ps sv)
| main_stopped ps sv :
    main_step MainStopped (mkState (Stopping (length ps)) ps sv) (mkState AskingServer ps sv)
| main_shutdown ps sv sv' :
    ServerLifecycle.step Shutdown sv sv' →
    main_step MainShutdown (mkState AskingServer ps sv) (mkState CallingWait ps sv')
| main_waits ps sv sv' :
    ServerLifecycle.step WaitCalled sv sv' →
    main_step MainWaits (mkState CallingWait ps sv) (mkState WaitingServer ps sv')
| main_returns ps sv :
    waiter sv = Returned →
    main_step MainReturns (mkState WaitingServer ps sv) (mkState Complete ps sv)
  (* the tasks of the pollers: a tick may still win against the signal *)
| poller_begins i m ps sv c :
    ps !! i = Some (mkPoller c true false) →
    main_step PollerBegins (mkState m ps sv) (mkState m (<[i := mkPoller c true true]> ps) sv)
| poller_ends i m ps sv c :
    ps !! i = Some (mkPoller c true true) → ends i →
    main_step PollerEnds (mkState m ps sv) (mkState m (<[i := mkPoller c true false]> ps) sv)
| poller_panics i m ps sv c :
    ps !! i = Some (mkPoller c true true) → ends i →
    main_step PollerPanics (mkState m ps sv) (mkState m (<[i := mkPoller c false false]> ps) sv)
| poller_exits i m ps sv c :
    ps !! i = Some (mkPoller c true false) → RuntimeDriver.shutdown c = true →
    main_step PollerExits (mkState m ps sv) (mkState m (<[i := mkPoller c false false]> ps) sv)
  (* the threads of the server *)
| server_step l m ps sv sv' :
    ServerLifecycle.step l sv sv' → l ≠ Shutdown → l ≠ WaitCalled →
    main_step (ServerStep l) (mkState m ps sv) (mkState m ps sv').

Definition any_main_step (s s' : State) : Prop := ∃ l, main_step l s s'.
Definition main_reachable (drivers : nat) (s : State) : Prop := rtc any_main_step (initial drivers) s.

(** ** The order of the shutdown *)

(** How many drivers have been stopped, and how many have been signalled. *)
Definition stopped (s : State) : nat :=
  match main s with
  | AwaitCtrlC | SignalError => 0
  | Stopping i | Awaiting i => i
  | _ => length (pollers s)
  end.
Definition signals (s : State) : nat :=
  match main s with Awaiting i => S i | _ => stopped s end.

(** What the server was asked, by the phase of [main]. *)
Definition asked (m : phase) (sv : ServerLifecycle.State) : Prop :=
  match m with
  | CallingWait => shutdown_tx sv = true ∧ waiter sv = NotCalled
  | WaitingServer => shutdown_tx sv = true ∧ waiter sv ≠ NotCalled
  | Complete => waiter sv = Returned
  | _ => shutdown_tx sv = false ∧ waiter sv = NotCalled
  end.

(** A poller when [st] have been stopped and [sg] signalled. *)
Definition poller_ok (st sg j : nat) (p : Poller) : Prop :=
  ((j < st)%nat → running p = false) ∧
  ((j < sg)%nat → signalled p = true) ∧
  ((sg ≤ j)%nat → signalled p = false ∧ is_Some (RuntimeDriver.poll_handle (control p))) ∧
  (cycling p = true → running p = true).

Record main_inv (s : State) : Prop := {
  mi_server : ServerLifecycle.inv (server s);
  mi_asked : asked (main s) (server s);
  mi_bound : (signals s ≤ length (pollers s))%nat;
  mi_pollers j p : pollers s !! j = Some p → poller_ok (stopped s) (signals s) j p;
}.

Lemma initial_inv drivers : main_inv (initial drivers).
Proof.
  split; [exact inv_start|done|unfold signals, stopped; simpl; lia|].
  intros j p [-> _]%lookup_replicate. unfold poller_ok, signals, stopped. simpl.
  split_and!; [lia|lia|by eauto|done].
Qed.

(** Changing the poller [i] of a state, as its task does. *)
Lemma poller_step_inv m ps sv i p p' :
  ps !! i = Some p → control p' = control p →
  (running p = false → running p' = false) → (cycling p' = true → running p' = true) →
  main_inv (mkState m ps sv) → main_inv (mkState m (<[i := p']> ps) sv).
Proof.
  intros Hi Hc Hr Hy [H1 H2 H3 H4]. set (s' := mkState m (<[i := p']> ps) sv).
  assert (stopped s' = stopped (mkState m ps sv) ∧ signals s' = signals (mkState m ps sv)) as [Hst Hsg].
  { unfold signals, stopped. simpl. by rewrite length_insert. }
  split; rewrite ?Hst, ?Hsg; [done|done|simpl; by rewrite length_insert|].
  intros j q [(<- & <- & _)|[_ Hj]]%list_lookup_insert_Some; [|by apply H4].
  destruct (H4 i p Hi) as (Ha & Hb & Hd & _). unfold poller_ok. rewrite Hc. split_and!; auto.
Qed.

(** Moving on in [main], with the pollers as they are. *)
Lemma move_inv m m' ps sv sv' :
  main_inv (mkState m ps sv) → ServerLifecycle.inv sv' → asked m' sv' →
  stopped (mkState m' ps sv') = stopped (mkState m ps sv) →
  signals (mkState m' ps sv') = signals (mkState m ps sv) →
  main_inv (mkState m' ps sv').
Proof. intros [H1 H2 H3 H4] Hsv Ha Hst Hsg. split; rewrite ?Hst, ?Hsg; done. Qed.

Lemma asked_server_step l m sv sv' :
  ServerLifecycle.step l sv sv' → l ≠ Shutdown → l ≠ WaitCalled → asked m sv → asked m sv'.
Proof. intros Hs Hl1 Hl2. destruct Hs, m; simpl in *; intuition congruence. Qed.

Lemma main_inv_step l s s' : main_step l s s' → main_inv s → main_inv s'.
Proof.
  intros Hs Hi. pose proof Hi as [H1 H2 H3 H4].
  destruct Hs as [ps sv|ps sv|i ps sv p c h Hp Hst|i ps sv p Hp Hr|ps sv|ps sv sv' Hsv|ps sv sv' Hsv
    |ps sv Hw|i m ps sv c Hp|i m ps sv c Hp He|i m ps sv c Hp He|i m ps sv c Hp He|l m ps sv sv' Hsv Hl1 Hl2];
    simpl in *; try (by eapply poller_step_inv).
  - by apply (move_inv AwaitCtrlC _ _ sv).
  - by apply (move_inv AwaitCtrlC _ _ sv).
  - injection Hst as <- <-. destruct (H4 i p Hp) as (_ & _ & Hpi & Hpc).
    destruct (Hpi (Nat.le_refl i)) as [_ [x ->]].
    split; simpl; [done|done|rewrite length_insert; by eapply lookup_lt_Some|].
    intros j q [(<- & <- & _)|[Hne Hj]]%list_lookup_insert_Some; unfold poller_ok, signals, stopped; simpl.
    + split_and!; [lia|done|lia|done].
    + destruct (H4 j q Hj) as (Ha & Hb & Hd & He). unfold signals, stopped in *. simpl in *.
      split_and!; [done|intros; apply Hb; lia|intros; apply Hd; lia|done].
  - split; [done|done|done|]. simpl. intros j q Hj. destruct (H4 j q Hj) as (Ha & Hb & Hd & He).
    unfold poller_ok, signals, stopped in *. simpl in *. split_and!; try done.
    intros Hlt. destruct (decide (j = i)) as [->|]; [congruence|apply Ha; lia].
  - by apply (move_inv (Stopping (length ps)) _ _ sv).
  - apply (move_inv AskingServer _ _ sv); [done|by eapply inv_step| |done..].
    destruct H2. inversion Hsv; by subst.
  - apply (move_inv CallingWait _ _ sv); [done|by eapply inv_step| |done..].
    destruct H2. inversion Hsv; by subst.
  - by apply (move_inv WaitingServer _ _ sv).
  - apply (move_inv m _ _ sv); [done|by eapply inv_step|by eapply asked_server_step|by destruct m..].
Qed.

Lemma main_inv_reachable drivers s : main_reachable drivers s → main_inv s.
Proof.
  intros Hr. pose proof (initial_inv drivers) as Hi. revert Hi.
  induction Hr as [|s1 s2 s3 [l Hl] _ IH]; [done|]. intros Hi. apply IH. by eapply main_inv_step.
Qed.
(** ** The shutdown ends *)

(** The steps that bring the shutdown forward: neither the signal itself nor the ticks
    that still win against it, and of the server's steps those of [ServerLifecycle]. *)
Definition main_progress (l : main_label) : Prop :=
  match l with
  | CtrlC | CtrlCFails | PollerBegins => False
  | ServerStep l => progress l
  | _ => True
  end.
Definition forward_step (s s' : State) : Prop := ∃ l, main_progress l ∧ main_step l s s'.

Definition weight (p : Poller) : nat := (if running p then 1 else 0) + (if cycling p then 1 else 0).
Definition main_remaining (m : phase) (drivers : nat) : nat :=
  match m with
  | AwaitCtrlC => 2 * drivers + 5
  | Stopping i => 2 * (drivers - i) + 4
  | Awaiting i => 2 * (drivers - i) + 3
  | AskingServer => 3
  | CallingWait => 2
  | WaitingServer => 1
  | Complete | SignalError => 0
  end.
(** What is left to do. *)
Definition left_to_do (s : State) : nat :=
  main_remaining (main s) (length (pollers s)) + sum_list (weight <$> pollers s) + remaining (server s).

Lemma weight_insert i p p' (ps : list Poller) :
  ps !! i = Some p →
  (sum_list (weight <$> <[i := p']> ps) + weight p = sum_list (weight <$> ps) + weight p')%nat.
Proof.
  revert i. induction ps as [|q ps IH]; intros [|i] Hi; simplify_eq/=; [lia|].
  specialize (IH i Hi). lia.
Qed.

Lemma main_progress_decreases l s s' :
  main_inv s → main_progress l → main_step l s s' → (left_to_do s' < left_to_do s)%nat.
Proof.
  intros Hi Hpr Hs. unfold left_to_do.
  destruct Hs as [ps sv|ps sv|i ps sv p c h Hp Hst|i ps sv p Hp Hr|ps sv|ps sv sv' Hsv|ps sv sv' Hsv
    |ps sv Hw|i m ps sv c Hp|i m ps sv c Hp He|i m ps sv c Hp He|i m ps sv c Hp He|l m ps sv sv' Hsv Hl1 Hl2];
    simpl in *; rewrite ?length_insert; try done.
  all: try (pose proof (lookup_lt_Some _ _ _ Hp)).
  - injection Hst as <- <-.
    pose proof (weight_insert i p (mkPoller (RuntimeDriver.stop (control p)).1 (running p) (cycling p)) ps Hp)
      as Hw. unfold weight in Hw at 2 4. simpl in Hw.
    destruct (RuntimeDriver.poll_handle (control p)); simpl; lia.
  - lia.
  - lia.
  - inversion Hsv; subst. unfold remaining. simpl. lia.
  - inversion Hsv; subst. unfold remaining. simpl. lia.
  - lia.
  - pose proof (weight_insert i _ (mkPoller c true false) ps Hp) as Hw. unfold weight in Hw at 2 4. simpl in Hw. lia.
  - pose proof (weight_insert i _ (mkPoller c false false) ps Hp) as Hw. unfold weight in Hw at 2 4. simpl in Hw. lia.
  - pose proof (weight_insert i _ (mkPoller c false false) ps Hp) as Hw. unfold weight in Hw at 2 4. simpl in Hw. lia.
  - pose proof (progress_decreases _ _ _ Hpr Hsv). lia.
Qed.

(** Whether [main] has seen the signal and is not back yet. *)
Definition shutting_down (m : phase) : Prop :=
  match m with AwaitCtrlC | SignalError | Complete => False | _ => True end.

Lemma main_progress_enabled s :
  main_inv s → (∀ i, ends i) → shutting_down (main s) → ∃ s', forward_step s s'.
Proof.
  intros Hi Hends Hm. destruct s as [m ps sv]. pose proof Hi as [H1 H2 H3 H4].
  destruct m as [|i|i| | | | |]; simpl in *; try done.
  - unfold signals, stopped in H3. simpl in H3.
    destruct (decide (i = length ps)) as [->|Hne].
    { eexists. exists MainStopped. split; [done|]. constructor. }
    destruct (lookup_lt_is_Some_2 ps i) as [p Hp]; [lia|].
    eexists. exists MainStops. split; [done|]. by eapply main_stops.
  - unfold signals, stopped in H3. simpl in H3.
    destruct (lookup_lt_is_Some_2 ps i) as [p Hp]; [lia|].
    destruct (H4 i p Hp) as (_ & Hsig & _). specialize (Hsig (Nat.lt_succ_diag_r i)).
    destruct p as [c [] []]; simpl in *.
    + eexists. exists PollerEnds. split; [done|]. by eapply poller_ends.
    + eexists. exists PollerExits. split; [done|]. by eapply poller_exits.
    + eexists. exists MainJoins. split; [done|]. by eapply main_joins.
    + eexists. exists MainJoins. split; [done|]. by eapply main_joins.
  - destruct sv. eexists. exists MainShutdown. split; [done|]. by repeat constructor.
  - destruct H2 as [? Hw]. destruct sv. simpl in *. subst.
    eexists. exists MainWaits. split; [done|]. by repeat constructor.
  - destruct H2 as [Hsd Hn]. assert (waiter sv = Returned ∨ waiter sv ≠ Returned) as [Hw|Hw] by (destruct (waiter sv); auto).
    { eexists. exists MainReturns. split; [done|]. by constructor. }
    destruct (progress_enabled sv H1 Hsd Hn Hw) as (l & sv' & Hl & Hs).
    eexists. exists (ServerStep l). split; [done|]. constructor; [done| |]; by intros ->.
Qed.

Lemma forward_inv s s' : forward_step s s' → main_inv s → main_inv s'.
Proof. intros (l & _ & Hs). by eapply main_inv_step. Qed.

Lemma forward_stays s s' :
  forward_step s s' → shutting_down (main s) → shutting_down (main s') ∨ main s' = Complete.
Proof.
  intros (l & Hl & Hs) Hm. destruct Hs; simpl in *; auto.
  destruct h; simpl; auto.
Qed.

Lemma forward_ends n s s' :
  main_inv s → nsteps forward_step n s s' → (n + left_to_do s' ≤ left_to_do s)%nat.
Proof.
  intros Hi Hn. induction Hn as [s|n s s1 s' Hs _ IH]; [lia|].
  specialize (IH (forward_inv _ _ Hs Hi)). destruct Hs as (l & Hl & Hs).
  pose proof (main_progress_decreases _ _ _ Hi Hl Hs). lia.
Qed.

Lemma forward_completes s :
  main_inv s → (∀ i, ends i) → shutting_down (main s) →
  ∃ n s', nsteps forward_step n s s' ∧ main s' = Complete.
Proof.
  intros Hi Hends. remember (left_to_do s) as k eqn:Hk. revert s Hk Hi.
  induction k as [k IH] using lt_wf_ind. intros s -> Hi Hm.
  destruct (main_progress_enabled s Hi Hends Hm) as [s1 Hs].
  destruct (forward_stays s s1 Hs Hm) as [Hm1|Hm1].
  - destruct (IH (left_to_do s1)) with (s := s1) as (n & s' & Hn & Hc); try done.
    + destruct Hs as (l & Hl & Hs). by eapply main_progress_decreases.
    + by eapply forward_inv.
    + exists (S n), s'. split; [by econstructor|done].
  - exists 1%nat, s1. split; [by apply nsteps_once|done].
Qed.

(** ** A cycle that does not end *)

(** [main] has not come past the driver [i], whose poller is in a cycle. *)
Record held (i : nat) (s : State) : Prop := {
  held_main : match main s with
              | AwaitCtrlC | SignalError => True | Stopping j | Awaiting j => (j ≤ i)%nat | _ => False
              end;
  held_poller : ∃ c, pollers s !! i = Some (mkPoller c true true);
}.

Lemma held_step i l s s' : ¬ ends i → main_inv s → main_step l s s' → held i s → held i s'.
Proof.
  intros Hends Hi Hs [Hm [c0 Hc]].
  assert (∀ j p (ps : list Poller), ps !! i = Some (mkPoller c0 true true) → j ≠ i →
    ∃ c, <[j:=p]> ps !! i = Some (mkPoller c true true)) as Hother.
  { intros j p ps Hps Hne. exists c0. by rewrite list_lookup_insert_ne. }
  destruct Hs as [ps sv|ps sv|j ps sv p c h Hp Hst|j ps sv p Hp Hr|ps sv|ps sv sv' Hsv|ps sv sv' Hsv
    |ps sv Hw|j m ps sv c Hp|j m ps sv c Hp He|j m ps sv c Hp He|j m ps sv c Hp He|l m ps sv sv' Hsv Hl1 Hl2];
    simpl in *; try done; (split; simpl; [|try by eauto]); try done.
  all: try (destruct (decide (j = i)) as [->|Hne]; [congruence|by apply Hother]).
  - lia.
  - injection Hst as <- <-. destruct Hi as [_ _ _ H4]. destruct (H4 j p Hp) as (_ & _ & Hpi & _).
    destruct (Hpi (Nat.le_refl j)) as [_ [x ->]]. done.
  - destruct (decide (j = i)) as [->|Hne]; [|by apply Hother].
    rewrite Hc in Hp. injection Hp as <-. simpl. eexists. apply list_lookup_insert_eq. by eapply lookup_lt_Some.
  - destruct (decide (j = i)) as [->|]; [|lia]. rewrite Hc in Hp. by injection Hp as <-.
  - apply lookup_lt_Some in Hc. lia.
Qed.

Lemma held_steps i s s' : ¬ ends i → main_inv s → rtc any_main_step s s' → held i s → held i s' ∧ main_inv s'.
Proof.
  intros Hends Hi Hr. induction Hr as [|s s1 s' [l Hl] _ IH]; [done|].
  intros Hh. apply IH; [by eapply main_inv_step|by eapply held_step].
Qed.
(** ** Properties *)

(** C31: the system is shut down in order, whatever the interleaving.  While the driver [i]
    is being stopped, the pollers of the drivers before it have ended, those after it
    have not been signalled, and the server still serves its clients, with the bridge
    behind it.  When the server is asked to shut down, every poller has been signalled
    and has ended.  When [main] is back, the server, its bridge and every poller have
    ended, and no write is left on the bridge channel but those that came after the last
    poll of the bridge had timed out. *)
Theorem main_shutdown_ordered (drivers : nat) (s : State) :
  main_reachable drivers s →
  (∀ i, main s = Stopping i ∨ main s = Awaiting i →
     (∀ j p, pollers s !! j = Some p →
        ((j < i)%nat → running p = false) ∧ ((i < j)%nat → signalled p = false)) ∧
     task (server s) = Serving ∧ bridge (server s) ≠ Ended) ∧
  (shutdown_tx (server s) = true →
     Forall (λ p, running p = false ∧ signalled p = true) (pollers s)) ∧
  (main s = Complete →
     Forall (λ p, running p = false) (pollers s) ∧ runner_alive (server s) = false ∧
     bridge (server s) = Ended ∧ queued (server s) = late (server s)).
Proof.
  intros Hr. pose proof (main_inv_reachable _ _ Hr) as [[H1 _ H3 Hl H4 _ H6] Ha Hb Hp].
  assert (shutdown_tx (server s) = true ∨ main s = Complete →
    Forall (λ p, running p = false ∧ signalled p = true) (pollers s)) as Hall.
  { intros Hsd. apply Forall_lookup. intros j p Hj. pose proof (lookup_lt_Some _ _ _ Hj).
    destruct (Hp j p Hj) as (Hst & Hsg & _). unfold signals, stopped in *.
    destruct (main s); simpl in Ha; destruct Hsd; try done; try (by destruct Ha; congruence);
      (split; [by apply Hst|by apply Hsg]). }
  split; [|split].
  - intros i Hm. split.
    + intros j p Hj. destruct (Hp j p Hj) as (Hst & _ & Hns & _).
      unfold signals, stopped in *. destruct Hm as [Hm|Hm]; rewrite Hm in *;
        (split; [done|intros; apply Hns; lia]).
    + assert (shutdown_tx (server s) = false) as Hsd by (destruct Hm as [Hm|Hm]; rewrite Hm in Ha; apply Ha).
      assert (task (server s) = Serving) as Ht.
      { destruct (task (server s)) eqn:Ht; [done|..]; destruct H4 as [_ ?]; congruence. }
      split; [done|]. intros Hbr%H3. congruence.
  - intros Hsd. apply Hall. by left.
  - intros Hm. specialize (Hall (or_intror Hm)). rewrite Hm in Ha. destruct (H6 Ha) as [Ht Hbr].
    rewrite Hbr in Hl. destruct (H1 Ht) as [Hrun _].
    split; [|done]. by eapply Forall_impl; [exact Hall|intros ? []].
Qed.

(** C32: the shutdown ends: if the cycles of the pollers end, then after the signal every
    sequence of steps forward is bounded by what is left to do, there is a next one
    until [main] is back, and so it can always still come back. *)
Theorem main_shutdown_terminates (drivers : nat) (s : State) :
  (∀ i, ends i) → main_reachable drivers s → shutting_down (main s) →
  (∀ n s', nsteps forward_step n s s' → (n ≤ left_to_do s)%nat) ∧
  (∃ s', forward_step s s') ∧
  ∃ n s', nsteps forward_step n s s' ∧ main s' = Complete.
Proof.
  intros Hends Hr Hm. pose proof (main_inv_reachable _ _ Hr) as Hi. split; [|split].
  - intros n s' Hn. pose proof (forward_ends _ _ _ Hi Hn). lia.
  - by apply main_progress_enabled.
  - by apply forward_completes.
Qed.

(** C33: one poller can hold up the shutdown of everything: if the poller [i] is in a cycle
    that does not end (its PLC cannot be reached) when the driver [i] is yet to be
    stopped, then [main] never comes back, the drivers after [i] are never signalled and
    the server is never asked to shut down: it goes on serving. *)
Theorem main_shutdown_blocked (drivers i : nat) (s s' : State) (c : RuntimeDriver.Control) :
  ¬ ends i → main_reachable drivers s → pollers s !! i = Some (mkPoller c true true) →
  (main s = AwaitCtrlC ∨ ∃ j, (j ≤ i)%nat ∧ (main s = Stopping j ∨ main s = Awaiting j)) →
  rtc any_main_step s s' →
  main s' ≠ Complete ∧ shutdown_tx (server s') = false ∧ task (server s') = Serving ∧
  ∀ j p, (i < j)%nat → pollers s' !! j = Some p → signalled p = false.
Proof.
  intros Hends Hr Hp Hm Hrun. pose proof (main_inv_reachable _ _ Hr) as Hi.
  assert (held i s) as Hh.
  { split; [|by eexists]. destruct Hm as [->|(j & Hj & [->| ->])]; done. }
  destruct (held_steps i s s' Hends Hi Hrun Hh) as [[Hm' _] [[_ _ _ _ H4 _ _] Ha Hb Hps]].
  assert (shutdown_tx (server s') = false) as Hsd.
  { destruct (main s'); try done; apply Ha. }
  split; [by intros Hc; rewrite Hc in Hm'|]. split; [done|]. split.
  - destruct (task (server s')) eqn:Ht; [done|..]; destruct H4 as [_ ?]; congruence.
  - intros j p Hj Hp'. destruct (Hps j p Hp') as (_ & _ & Hns & _). apply Hns.
    unfold signals, stopped. destruct (main s'); try done; lia.
Qed.
End steps.

Section witnesses.
(** Two drivers; the first poller exits when signalled, the second is in a cycle. *)
Definition all_end (_ : nat) : Prop := True.
Definition first_ends (i : nat) : Prop := i = 0%nat.
Definition signalled_control : RuntimeDriver.Control := (RuntimeDriver.stop (RuntimeDriver.start unstarted)).1.
Definition busy : State :=
  mkState AwaitCtrlC [started_poller; mkPoller (RuntimeDriver.start unstarted) true true] ServerLifecycle.start.
Definition second : State :=
  mkState (Stopping 1)
    [mkPoller signalled_control false false; mkPoller (RuntimeDriver.start unstarted) true true]
    ServerLifecycle.start.

Lemma busy_reachable ends : main_reachable ends 2 busy.
Proof.
  eapply rtc_l; [|apply rtc_refl]. exists PollerBegins.
  by apply (poller_begins ends 1 AwaitCtrlC [started_poller; started_poller]).
Qed.
Lemma busy_to_second ends : rtc (any_main_step ends) busy second.
Proof.
  eapply rtc_l; [exists CtrlC; constructor|].
  eapply rtc_l; [exists MainStops; by apply (main_stops ends 0 _ _ started_poller signalled_control (Some 0%nat))|].
  eapply rtc_l; [exists PollerExits; by apply (poller_exits ends 0 _ _ _ signalled_control)|].
  eapply rtc_l; [exists MainJoins; by eapply (main_joins ends 0)|]. apply rtc_refl.
Qed.
Lemma second_reachable ends : main_reachable ends 2 second.
Proof. unfold main_reachable. etrans; [apply busy_reachable|apply busy_to_second]. Qed.

Lemma main_shutdown_ordered_witness :
  task (server second) = Serving ∧ ∀ p, pollers second !! 0%nat = Some p → running p = false.
Proof.
  destruct (main_shutdown_ordered first_ends 2 second (second_reachable first_ends)) as [H _].
  destruct (H 1%nat (or_introl eq_refl)) as (Hp & Ht & _). split; [exact Ht|].
  intros p H0. destruct (Hp 0%nat p H0) as [Hr _]. apply Hr. lia.
Defined.
Lemma main_shutdown_terminates_witness :
  left_to_do second = 15%nat ∧ ∃ n s', nsteps (forward_step all_end) n second s' ∧ main s' = Complete.
Proof.
  split; [reflexivity|].
  exact (proj2 (proj2 (main_shutdown_terminates all_end 2 second (λ _, I) (second_reachable all_end) I))).
Defined.
Lemma main_shutdown_blocked_witness : main second ≠ Complete ∧ shutdown_tx (server second) = false.
Proof.
  destruct (main_shutdown_blocked first_ends 2 1 busy second (RuntimeDriver.start unstarted) ltac:(discriminate)
    (busy_reachable first_ends) eq_refl (or_introl eq_refl) (busy_to_second first_ends)) as (Hm & Hs & _).
  split; [exact Hm|exact Hs].
Defined.
End witnesses.
End MainShutdown.
