(* ===== verification/System.v ===== *)
(** * The system: from a client's write to the PLC

    Composes the parts a write goes through: the data source of the tag
    ([OpcUaSource]), the write bridge ([OpcUaBridge]), the runtime's write handler
    ([WriteHandler]) and the drivers, behind the class [WritePath.WriteDriver].  The
    environment of each part is made of the parts behind it, so that the definitions of
    the parts run together; what is left open is the network of each driver and the order
    in which the pollers finish cycles while somebody waits. *)

From stdpp Require Import base tactics numbers list gmap strings.
From S2P Require Import Prelude Effects RustStd RustStr RustSlice RustMap Crates TagValue Tag TagDefinition TagStore Registry ModbusTypes FinsTypes OpcUaConfig OpcUaValue OpcUaWrites WriteHandler OpcUaSource OpcUaBridge WritePath.
Local Open Scope Z_scope.

(** ** The plant: the drivers, their pollers, and the shared registry *)

Module Plant.
Import WritePath.
Section plant.
Context {C : Chrono} {J : SerdeJson} {W : Type} {WD : WriteDriver W}.

(** Whether a poller still runs, its task panicked, or it is inside a cycle that does not
    end. *)
Inductive status := Running | Panicked | Blocked.
Record Poller := mkPoller { driver : W; state : status }.
(** The registry, the pollers, the number of the next reply channel, and for each wait to
    come the pollers that finish a cycle during it, in order. *)
Record Plant := mkPlant {
  reg : TagRegistry;
  pollers : list Poller;
  next : nat;
  waits : list (list nat);
}.

Definition status_after (o : outcome string unit) : status :=
  match o with Ret _ | Fail _ => Running | Panic => Panicked | Pending => Blocked end.

(** One cycle of the poller [i], on the shared registry. *)
Definition run_cycle (i : nat) (p : Plant) : Plant :=
  match pollers p !! i with
  | Some {| driver := d; state := Running |} =>
      let '(o, d) := cycle (set_registry (reg p) d) in
      {| reg := registry d;
         pollers := <[i := {| driver := d; state := status_after o |}]> (pollers p);
         next := next p; waits := waits p |}
  | _ => p
  end.
Definition run_cycles (l : list nat) (p : Plant) : Plant := foldl (λ p i, run_cycle i p) p l.
(** Waiting: the pollers of the schedule finish their cycles. *)
Definition wait (p : Plant) : Plant :=
  run_cycles (default [] (head (waits p)))
    {| reg := reg p; pollers := pollers p; next := next p; waits := tail (waits p) |}.

(** [tx.send(req)] on the queue of the poller [i], waiting while the queue is full. *)
Definition send_now (i : nat) (id : string) (v : TagValue) (reply : option nat) (p : Plant)
    : option Plant :=
  match pollers p !! i with
  | Some {| driver := d; state := st |} =>
      d ← submit id v reply d;
      Some {| reg := reg p; pollers := <[i := {| driver := d; state := st |}]> (pollers p);
              next := next p; waits := waits p |}
  | None => None
  end.
Definition closed (i : nat) (p : Plant) : bool :=
  match pollers p !! i with
  | Some {| state := Panicked |} | None => true
  | _ => false
  end.
Definition send (i : nat) (id : string) (v : TagValue) (reply : option nat) (p : Plant)
    : WriteHandler.sent * Plant :=
  if closed i p then (WriteHandler.SendFailed "channel closed", p) else
  match send_now i id v reply p with
  | Some p => (WriteHandler.Sent, p)
  | None =>
      let p := wait p in
      if closed i p then (WriteHandler.SendFailed "channel closed", p) else
      match send_now i id v reply p with
      | Some p => (WriteHandler.Sent, p)
      | None => (WriteHandler.SendTimedOut, p)
      end
  end.

(** The reply channel [c]: answered, dropped with its request, or silent. *)
Definition answered (c : nat) (p : Plant) : option (result unit string) :=
  head (omap (λ s, answer (driver s) c) (pollers p)).
Definition dropped (c : nat) (p : Plant) : bool :=
  existsb (λ s, match state s with
                | Panicked => bool_decide (is_Some (requested (driver s) c))
                | _ => false
                end) (pollers p).
Definition receive (c : nat) (p : Plant) : WriteHandler.confirmation * Plant :=
  let p := wait p in
  (match answered c p with
   | Some r => WriteHandler.Replied r
   | None => if dropped c p then WriteHandler.ChannelClosed else WriteHandler.ConfirmTimedOut
   end, p).

(** ** Sound plants *)

(** Everything in the plant is sound, and no channel from [next] on was ever used. *)
Record sound_plant (p : Plant) : Prop := {
  plant_registry : TagRegistry.wf (reg p);
  plant_drivers i s : pollers p !! i = Some s → sound (driver s);
  plant_fresh i s c : pollers p !! i = Some s → (next p ≤ c)%nat → requested (driver s) c = None;
}.

(** What the pollers may do to a channel's request: nothing. *)
Definition same_requests (p p' : Plant) : Prop :=
  next p' = next p ∧
  ∀ c i, (λ s, requested (driver s) c) <$> pollers p' !! i = (λ s, requested (driver s) c) <$> pollers p !! i.
#[local] Instance same_requests_preorder : PreOrder same_requests.
Proof.
  split; [done|]. intros p1 p2 p3 [H1 H2] [H3 H4]. split; [congruence|]. intros c i. by rewrite H4, H2.
Qed.

Lemma run_cycle_sound i p :
  sound_plant p → sound_plant (run_cycle i p) ∧ same_requests p (run_cycle i p).
Proof.
  intros Hp. pose proof Hp as [Hr Hd Hf]. unfold run_cycle.
  destruct (pollers p !! i) as [[d st]|] eqn:Hi; [|done]. destruct st; [|done..].
  specialize (Hd i _ Hi) as Hdi. simpl in Hdi.
  destruct (cycle_ok (set_registry (reg p) d)) as [Hs Hq]; [by apply sound_set|].
  destruct (cycle (set_registry (reg p) d)) as [o d']. simpl in *.
  assert (∀ c, requested d' c = requested d c) as Hqd by (intros; by rewrite Hq, requested_set).
  assert (same_requests p {| reg := registry d';
    pollers := <[i := {| driver := d'; state := status_after o |}]> (pollers p);
    next := next p; waits := waits p |}) as Hsame.
  { split; [done|]. intros c j. simpl. destruct (decide (j = i)) as [->|Hne].
    - rewrite list_lookup_insert_eq by by eapply lookup_lt_Some. rewrite Hi. simpl. by rewrite Hqd.
    - by rewrite list_lookup_insert_ne. }
  split; [|done]. split; simpl.
  - by apply sound_registry.
  - intros j s [(<- & <- & _)|[_ Hj]]%list_lookup_insert_Some; [done|by eapply Hd].
  - intros j s c [(<- & <- & _)|[_ Hj]]%list_lookup_insert_Some Hc; simpl; [|by eapply Hf].
    rewrite Hqd. by apply (Hf _ _ c Hi).
Qed.

Lemma run_cycles_sound l p :
  sound_plant p → sound_plant (run_cycles l p) ∧ same_requests p (run_cycles l p).
Proof.
  revert p. induction l as [|i l IH]; intros p Hp; [done|].
  destruct (run_cycle_sound i p Hp) as [H1 H2]. destruct (IH _ H1) as [H3 H4].
  split; [done|by etrans].
Qed.

Lemma wait_sound p : sound_plant p → sound_plant (wait p) ∧ same_requests p (wait p).
Proof.
  intros [Hr Hd Hf]. unfold wait. set (p1 := {| reg := reg p |}).
  apply (run_cycles_sound _ p1). by split.
Qed.

Lemma send_now_sound i id v c p p' :
  sound_plant p →
  (∀ j s, pollers p !! j = Some s → requested (driver s) c = None) → (c < next p)%nat →
  send_now i id v (Some c) p = Some p' →
  sound_plant p' ∧ next p' = next p ∧
  ∀ j s, pollers p' !! j = Some s → requested (driver s) c = if decide (j = i) then Some (id, v) else None.
Proof.
  intros [Hr Hd Hf] Hfresh Hlt. unfold send_now.
  destruct (pollers p !! i) as [[d st]|] eqn:Hi; [|done].
  destruct (submit id v (Some c) d) as [d'|] eqn:Hsub; [|done]. intros [= <-].
  specialize (Hd i _ Hi) as Hdi. simpl in Hdi.
  destruct (submit_ok id v (Some c) d d') as (Hs & _ & Hq & _); [done| |done|].
  { intros c' [= <-]. by apply (Hfresh _ _ Hi). }
  split; [|split; [done|]]; [split; simpl; [done| |]|].
  - intros j s [(<- & <- & _)|[_ Hj]]%list_lookup_insert_Some; [done|by eapply Hd].
  - intros j s c' [(<- & <- & _)|[_ Hj]]%list_lookup_insert_Some Hc; simpl; [|by eapply Hf].
    rewrite Hq, decide_False; [by apply (Hf _ _ c' Hi)|]. intros [= ->]. lia.
  - simpl. intros j s [(<- & <- & _)|[Hne Hj]]%list_lookup_insert_Some; simpl.
    + rewrite Hq. by rewrite !decide_True.
    + rewrite decide_False by done. by eapply Hfresh.
Qed.

Lemma same_requests_none p p' c :
  same_requests p p' → (∀ j s, pollers p !! j = Some s → requested (driver s) c = None) →
  ∀ j s, pollers p' !! j = Some s → requested (driver s) c = None.
Proof.
  intros [_ Hs] Hp j s Hj. specialize (Hs c j). rewrite Hj in Hs. simpl in Hs.
  destruct (pollers p !! j) as [s'|] eqn:Hj'; [|done]. injection Hs as ->. by eapply Hp.
Qed.

(** A request that was sent is the one of its channel, at its driver and nowhere else. *)
Lemma send_sound i id v c p r p' :
  sound_plant p →
  (∀ j s, pollers p !! j = Some s → requested (driver s) c = None) → (c < next p)%nat →
  send i id v (Some c) p = (r, p') →
  sound_plant p' ∧ next p' = next p ∧
  (r = WriteHandler.Sent → ∀ j s, pollers p' !! j = Some s →
     requested (driver s) c = if decide (j = i) then Some (id, v) else None).
Proof.
  intros Hp Hfresh Hlt. unfold send. destruct (closed i p); [by intros [= <- <-]|].
  destruct (send_now i id v (Some c) p) as [p1|] eqn:H1.
  { intros [= <- <-]. destruct (send_now_sound _ _ _ _ _ _ Hp Hfresh Hlt H1) as (? & ? & ?). done. }
  destruct (wait_sound p Hp) as [Hp1 Hs1]. pose proof Hs1 as [Hn1 _].
  destruct (closed i (wait p)); [by intros [= <- <-]|].
  destruct (send_now i id v (Some c) (wait p)) as [p1|] eqn:H2; [|by intros [= <- <-]].
  intros [= <- <-].
  destruct (send_now_sound i id v c (wait p) p1) as (? & ? & ?); try done; [|by rewrite Hn1|].
  - by apply (same_requests_none p).
  - split; [done|]. split; [congruence|done].
Qed.

(** A confirmation comes from the driver of the request, which has sent the write. *)
Lemma receive_sound i id v c p r p' :
  sound_plant p →
  (∀ j s, pollers p !! j = Some s →
     requested (driver s) c = if decide (j = i) then Some (id, v) else None) →
  receive c p = (r, p') →
  sound_plant p' ∧ next p' = next p ∧
  (r = WriteHandler.Replied (Ok tt) →
   ∃ s, pollers p' !! i = Some s ∧ requested (driver s) c = Some (id, v) ∧ written (driver s) c id v).
Proof.
  intros Hp Hreq. unfold receive. intros [= <- <-].
  destruct (wait_sound p Hp) as [Hp1 [Hn Hs]]. split; [done|]. split; [done|].
  destruct (answered c (wait p)) as [a|] eqn:Ha; [|by destruct (dropped c _)]. intros [= ->].
  apply head_Some_elem_of, list_elem_of_omap in Ha as (s & Hin & Ha).
  apply list_elem_of_lookup in Hin as [j Hj].
  destruct (answer_ok (driver s) c (Ok tt)) as (id' & v' & Hr & Hw); [by eapply plant_drivers|done|].
  specialize (Hs c j). rewrite Hj in Hs. simpl in Hs.
  destruct (pollers p !! j) as [s'|] eqn:Hj'; [|done]. injection Hs as Hs.
  rewrite (Hreq _ _ Hj'), Hr in Hs. case_decide as Hji; [|done]. injection Hs as <- <-. subst j.
  exists s. split; [done|]. split; [done|]. by apply Hw.
Qed.
End plant.
Arguments Plant : clear implicits.
Arguments Plant {_ _} W.
End Plant.

(** ** The write handler on the plant *)

Module PlantHandler.
Import WritePath Plant.
Section handler.
Context {C : Chrono} {J : SerdeJson} {W : Type} {WD : WriteDriver W}.

(** The queues and reply channels of the handler are those of the plant; a sender is the
    number of its poller. *)
#[export] Instance plant_io : WriteHandler.WriteIO := {|
  WriteHandler.Env := Plant W;
  WriteHandler.FinsSender := nat;
  WriteHandler.ModbusSender := nat;
  WriteHandler.oneshot p :=
    (next p, {| reg := reg p; pollers := pollers p; next := S (next p); waits := waits p |});
  WriteHandler.fins_send _ i req :=
    send i (FinsWriteRequest.tag_id req) (FinsWriteRequest.value req) (FinsWriteRequest.reply req);
  WriteHandler.modbus_send _ i req :=
    send i (WriteRequest.tag_id req) (WriteRequest.value req) (WriteRequest.reply req);
  WriteHandler.recv_reply _ := receive;
|}.
Definition poller_of (s : WriteHandler.DriverSender) : nat :=
  match s with WriteHandler.Fins i => i | WriteHandler.Modbus i => i end.

Context (h : WriteHandler.RuntimeWriteHandler).

(** [handle_write] with the plant's registry. *)
Definition handle_write (req : OpcUaWrite.WriteRequest) : M (Plant W) ServerError unit := λ p,
  let '(o, w) := WriteHandler.handle_write h (reg p) req {| WriteHandler.env := p; WriteHandler.log := [] |} in
  (o, WriteHandler.env w).

Lemma send_op_plant sender req c p :
  WriteHandler.send_op (IO := plant_io) h sender req c p =
    send (poller_of sender) (OpcUaWrite.tag_id req) (OpcUaWrite.value req) (Some c) p.
Proof. by destruct sender. Qed.

(** What a write that was reported successful went through: it was accepted, and the
    driver of its tag has sent it to the PLC. *)
Definition delivered (p p' : Plant W) (id : string) (v : TagValue) : Prop :=
  WriteHandler.accepts (reg p) id v ∧
  ∃ sender s, WriteHandler.routing h !! id = Some sender ∧
    pollers p' !! poller_of sender = Some s ∧
    requested (driver s) (next p) = Some (id, v) ∧ written (driver s) (next p) id v.

Lemma handle_write_sound req p o p' :
  sound_plant p → handle_write req p = (o, p') →
  (o = Ret tt ∨ ∃ e, o = Fail e) ∧ sound_plant p' ∧ (next p ≤ next p')%nat ∧
  (o = Ret tt → delivered p p' (OpcUaWrite.tag_id req) (OpcUaWrite.value req)).
Proof.
  intros Hp. unfold handle_write.
  pose proof (WriteHandler.handle_write_run (IO := plant_io) h (reg p) req
    (WriteHandler.mkWorld (IO := plant_io) p []) (plant_registry p Hp)) as Hrun.
  unfold wp in Hrun. destruct (WriteHandler.handle_write h (reg p) req _) as [o' w'].
  intros [= <- <-]. cbn [fst snd] in Hrun.
  set (id := OpcUaWrite.tag_id req) in *. set (v := OpcUaWrite.value req) in *.
  assert (∀ p1, sound_plant p1 → (next p ≤ next p1)%nat → (∃ m, o' = Fail (ServerError.Other m)) →
    (o' = Ret tt ∨ ∃ e, o' = Fail e) ∧ sound_plant p1 ∧ (next p ≤ next p1)%nat ∧
    (o' = Ret tt → delivered p p1 id v)) as Hfail.
  { intros p1 H1 H2 [m ->]. split; [eauto|]. by repeat (split; [done|]). }
  unfold WriteHandler.write_outcome in Hrun. fold id v in Hrun.
  destruct (WriteHandler.routing h !! id) as [sender|] eqn:Hroute.
  2: { destruct Hrun as [-> Hm]. by apply Hfail. }
  destruct Hrun as [[Ha Hrun]|(_ & -> & Hm)]; [|by apply Hfail].
  unfold WriteHandler.routed_outcome in Hrun.
  cbn [WriteHandler.oneshot plant_io WriteHandler.env] in Hrun.
  set (p1 := {| reg := reg p; pollers := pollers p; next := S (next p); waits := waits p |}) in Hrun.
  assert (sound_plant p1) as Hp1.
  { destruct Hp as [H1 H2 H3]. split; simpl; [done|done|]. intros i s c Hi Hc. eapply H3; [done|lia]. }
  assert (∀ j s, pollers p1 !! j = Some s → requested (driver s) (next p) = None) as Hfresh.
  { intros j s Hj. by eapply (plant_fresh p). }
  rewrite send_op_plant in Hrun. fold id v in Hrun.
  destruct (send (poller_of sender) id v (Some (next p)) p1) as [r p2] eqn:Hsend.
  destruct (send_sound _ _ _ _ _ _ _ Hp1 Hfresh ltac:(simpl; lia) Hsend) as (Hp2 & Hn2 & Hsent).
  simpl in Hn2.
  destruct r as [|m|]; [|destruct Hrun as (_ & -> & Hm); apply Hfail; [done|lia|done]..].
  specialize (Hsent eq_refl). cbn [WriteHandler.recv_reply plant_io] in Hrun.
  destruct (receive (next p) p2) as [c p3] eqn:Hrecv.
  destruct (receive_sound _ _ _ _ _ _ _ Hp2 Hsent Hrecv) as (Hp3 & Hn3 & Hok).
  destruct Hrun as (_ & -> & Ho).
  destruct c as [[[]|m]| |]; [|apply Hfail; [done|lia|by eexists]..].
  subst o'. split; [by left|]. split; [done|]. split; [lia|]. intros _. split; [done|].
  destruct (Hok eq_refl) as (s & Hs & Hreq & Hw). by exists sender, s.
Qed.
End handler.
End PlantHandler.

(** ** The bridge and the data sources in front of the plant *)

Module Front.
Import OpcUaValue OpcUaConfig.
Import WritePath Plant PlantHandler WriteBridge.
Section front.
Context {C : Chrono} {J : SerdeJson} {O : Open62541} {W : Type} {WD : WriteDriver W}.
Context (h : WriteHandler.RuntimeWriteHandler).

Lemma plant_handler_ends req p :
  sound_plant p →
  ∃ o p', handle_write h req p = (o, p') ∧ (o = Ret tt ∨ ∃ e, o = Fail e) ∧ sound_plant p'.
Proof.
  intros Hp. destruct (handle_write h req p) as [o p'] eqn:Hrun. exists o, p'.
  destruct (handle_write_sound h req p o p' Hp Hrun) as (Ho & Hp' & _). done.
Qed.
#[local] Instance plant_handler : OpcUaWrite.WriteHandler (Plant W) := {|
  OpcUaWrite.handle_write := handle_write h;
  OpcUaWrite.handler_ok := sound_plant;
  OpcUaWrite.handle_write_ends := plant_handler_ends;
|}.

(** The bridge channel is the list of the writes waiting on it; no shutdown. *)
#[local] Instance bridge_io : BridgeIO := {|
  WriteBridge.Env := list BridgeWrite;
  poll q := match q with [] => (PollTimeout, []) | bw :: q => (Taken bw, q) end;
  shutdown_requested q := (false, q);
|}.

(** The bridge, with the plant behind it, and for each confirmation to come whether it is
    awaited long enough. *)
Record Front := mkFront { bridge : World (W := Plant W); timely : list bool }.
Definition plant (f : Front) : Plant W := handler (bridge f).

Definition send_write (bw : BridgeWrite) (f : Front) : bool * Front :=
  (true, {| bridge := {| env := env (bridge f) ++ [bw]; handler := handler (bridge f);
                         log := log (bridge f) |};
            timely := timely f |}).
(** The bridge serves what is on its channel. *)
Definition serve (f : Front) : Front :=
  {| bridge := (run (length (env (bridge f))) (bridge f)).2; timely := timely f |}.
Definition answer_of (ev : event) : option (nat * result unit string) :=
  match ev with Answered c r => Some (c, r) | Took _ => None end.
Definition recv_timeout (c : nat) (f : Front) : DataSource.received * Front :=
  let f := serve f in
  (match answer_on answer_of (log (bridge f)) c, head (timely f) with
   | Some r, Some true => DataSource.Received r
   | _, _ => DataSource.RecvTimeout
   end, {| bridge := bridge f; timely := tail (timely f) |}).
#[local] Instance front_threads : DataSource.Threads := {|
  DataSource.Env := Front;
  DataSource.send_write := send_write;
  DataSource.recv_timeout _ := recv_timeout;
|}.

(** A sound front: a sound plant, and the reply channels from [n] on unused. *)
Record front_ok (n : nat) (f : Front) : Prop := {
  front_plant : sound_plant (plant f);
  front_queue c bw : (n ≤ c)%nat → bw ∈ env (bridge f) → BridgeWrite.reply bw ≠ Some c;
  front_log c r : (n ≤ c)%nat → Answered c r ∉ log (bridge f);
}.

(** Running over its channel, the bridge serves every write on it. *)
Lemma run_channel q w :
  sound_plant (handler w) → env w = q →
  ∃ rs, rs.*1 = q ∧ serves (handler w) rs (handler (run (length q) w).2) ∧
    log (run (length q) w).2 = log w ++ concat (service <$> rs) ∧ env (run (length q) w).2 = [].
Proof.
  revert w. induction q as [|bw q IH]; intros w Hw Hq.
  { exists []. split; [done|]. split; [constructor|]. simpl. by rewrite app_nil_r. }
  destruct (process_run (H := plant_handler) bw (mkWorld (IO := bridge_io) q (handler w) (log w)) Hw)
    as (o & hd & Hh & Hproc & Hok). simpl in Hh.
  set (res := match o with Fail e => Err e | _ => Ok tt end) in Hproc.
  set (w2 := mkWorld (IO := bridge_io) q hd (log w ++ service (bw, res))).
  assert (run (length (bw :: q)) w = run (length q) w2) as ->.
  { cbn [length run]. unfold mbind, M_bind, env_op. rewrite Hq. cbn -[process].
    by rewrite Hproc. }
  destruct (IH w2 Hok eq_refl) as (rs & Hrs & Hserves & Hlog & Henv).
  exists ((bw, res) :: rs). split; [cbn; by f_equal|].
  split; [econstructor; [exact Hh|exact Hserves]|]. split; [|exact Henv].
  rewrite Hlog. simpl. by rewrite <- (assoc_L (++)).
Qed.

Lemma serves_sound s rs s' :
  serves s rs s' → sound_plant s → sound_plant s' ∧ (next s ≤ next s')%nat.
Proof.
  induction 1 as [|s bw o s1 l s2 Hw _ IH]; intros Hs; [done|].
  destruct (handle_write_sound h _ _ _ _ Hs Hw) as (_ & Hs1 & Hn & _).
  destruct (IH Hs1) as [? ?]. split; [done|lia].
Qed.

(** The last write of those served. *)
Lemma serves_last s rs bw res s' :
  serves s (rs ++ [(bw, res)]) s' → sound_plant s →
  ∃ s1, sound_plant s1 ∧ (next s ≤ next s1)%nat ∧ (next s1 ≤ next s')%nat ∧ sound_plant s' ∧
    (res = Ok tt → delivered h s1 s' (BridgeWrite.tag_id bw) (BridgeWrite.value bw)).
Proof.
  revert s. induction rs as [|x rs IH]; intros s Hs Hp; simpl in Hs; inversion Hs; simplify_eq.
  - match goal with H : serves _ [] _ |- _ => inversion H; simplify_eq end.
    match goal with H : _ = (?o, _) |- _ =>
      destruct (handle_write_sound h _ _ _ _ Hp H) as (Ho & Hs' & Hn & Hd) end.
    exists s. split; [done|]. split; [done|]. split; [done|]. split; [done|].
    intros Hres. apply Hd. destruct Ho as [->|[e ->]]; done.
  - match goal with H : _ = (?o, ?s1), H' : serves ?s1 _ _ |- _ =>
      destruct (handle_write_sound h _ _ _ _ Hp H) as (_ & Hs1 & Hn & _);
      destruct (IH _ H' Hs1) as (s2 & ? & ? & ? & ? & ?) end.
    exists s2. repeat (split; [done || lia|]). done.
Qed.

Lemma service_answer x c r :
  Answered c r ∈ service x → BridgeWrite.reply x.1 = Some c ∧ r = map_err ServerError.to_string x.2.
Proof.
  unfold service. intros [?|Hin]%elem_of_cons; [done|].
  destruct (BridgeWrite.reply x.1); [|by apply not_elem_of_nil in Hin].
  by apply list_elem_of_singleton in Hin as [= -> ->].
Qed.

(** Serving the channel with a write put last: it is served last. *)
Lemma serve_sent n f bw :
  front_ok n f → BridgeWrite.reply bw = Some n →
  let f' := serve (send_write bw f).2 in
  front_ok (S n) f' ∧ timely f' = timely f ∧
  ∃ s1, sound_plant s1 ∧ (next (plant f) ≤ next s1)%nat ∧
    (answer_on answer_of (log (bridge f')) n = Some (Ok tt) →
     delivered h s1 (plant f') (BridgeWrite.tag_id bw) (BridgeWrite.value bw)).
Proof.
  intros [Hp Hq Hl] Hbw f'. set (f1 := (send_write bw f).2) in *.
  destruct (run_channel (env (bridge f1)) (bridge f1) Hp eq_refl) as (rs & Hrs & Hserves & Hlog & Henv).
  change (bridge f') with (run (length (env (bridge f1))) (bridge f1)).2 in *.
  change (plant f') with (handler (run (length (env (bridge f1))) (bridge f1)).2).
  set (w' := (run (length (env (bridge f1))) (bridge f1)).2) in *.
  change (env (bridge f1)) with (env (bridge f) ++ [bw]) in Hrs.
  change (log (bridge f1)) with (log (bridge f)) in Hlog.
  apply fmap_app_inv in Hrs as (rs0 & rl & Hrs0 & Hrl & ->).
  destruct rl as [|[bw' res] [|? ?]]; simplify_eq/=.
  destruct (serves_last _ _ _ _ _ Hserves Hp) as (s1 & Hs1 & Hn1 & _ & Hp' & Hd).
  assert (∀ c r, (n ≤ c)%nat → Answered c r ∈ log w' →
    c = n ∧ r = map_err ServerError.to_string res) as Hans.
  { intros c r Hc Hin. rewrite Hlog, fmap_app, concat_app in Hin.
    change (concat (service <$> [(bw', res)])) with (service (bw', res) ++ []) in Hin.
    rewrite app_nil_r in Hin. apply elem_of_app in Hin as [Hin|Hin]; [by apply Hl in Hin|].
    apply elem_of_app in Hin as [Hin|Hin].
    - apply elem_of_concat in Hin as (l & Hin & Hl').
      apply list_elem_of_fmap in Hl' as ([b rb] & -> & Hb).
      apply service_answer in Hin as [Hin _]. exfalso. apply (Hq c b Hc); [|done].
      rewrite Hrs0. apply (list_elem_of_fmap_2 fst _ _ Hb).
    - apply service_answer in Hin as [Hin ->]. simpl in Hin. split; [congruence|done]. }
  split; [split|split; [done|]].
  - exact Hp'.
  - intros c b Hc Hb. change (env (bridge f')) with (env w') in Hb. rewrite Henv in Hb.
    by apply not_elem_of_nil in Hb.
  - intros c r Hc Hin. destruct (Hans c r) as [-> _]; [lia|done|lia].
  - exists s1. split; [done|]. split; [done|]. intros Ha. apply Hd.
    apply answer_on_elem in Ha as (i & ev & Hi%list_elem_of_lookup_2 & Hev).
    destruct ev; simplify_eq/=. destruct (Hans n (Ok tt)) as [_ Hr]; [lia|exact Hi|].
    by destruct res as [[]|e].
Qed.

(** An idle bridge serves the write it is sent. *)
Lemma serve_one f bw o p' :
  sound_plant (plant f) → env (bridge f) = [] →
  handle_write h (OpcUaWrite.new (BridgeWrite.tag_id bw) (BridgeWrite.value bw)) (plant f) = (o, p') →
  serve (send_write bw f).2 =
    {| bridge := mkWorld (IO := bridge_io) [] p'
         (log (bridge f) ++ service (bw, match o with Fail e => Err e | _ => Ok tt end));
       timely := timely f |}.
Proof.
  intros Hp Hq Hh. unfold serve, send_write. simpl. rewrite Hq. simpl. f_equal.
  destruct (process_run (H := plant_handler) bw (mkWorld (IO := bridge_io) [] (plant f) (log (bridge f))) Hp)
    as (o' & hd & Hh' & Hproc & _). simpl in Hh'. rewrite Hh in Hh'. injection Hh' as <- <-.
  unfold plant in Hproc. unfold mbind, M_bind, env_op. cbn -[process]. by rewrite Hproc.
Qed.

(** ** Properties *)

(** C2: a confirmation is never false.  When a write with confirmed acknowledgement
    returns success to the client, then during this call (under a reply channel the
    plant had not used before) the runtime has accepted the value for the tag, and the
    driver the tag is routed to has sent the PLC the write of this value and got the
    PLC's consent right before confirming it ([written], which [ModbusQueue.slot_written] and
    [FinsQueue.slot_written] give for the two drivers: in the driver's log the request,
    the PLC's answer, which for Modbus is a success and for FINS carries the request's
    session id and end code zero, and the confirmation follow each other); this holds
    whatever the network does, in whatever order the pollers work, and the front is left
    ready for the next write. *)
Theorem confirmed_write_delivered (ds : DataSource.TagDataSource) (value : option Variant)
    (w w' : DataSource.World) :
  let n := DataSource.channels w in
  front_ok n (DataSource.env w) → DataSource.write_mode ds = ConfirmedAck →
  DataSource.write ds (reg (plant (DataSource.env w))) value w = (Ret tt, w') →
  front_ok (DataSource.channels w') (DataSource.env w') ∧
  ∃ v p, DataSource.requested ds (reg (plant (DataSource.env w))) value = Some v ∧
    (next (plant (DataSource.env w)) ≤ next p)%nat ∧ sound_plant p ∧
    delivered h p (plant (DataSource.env w')) (DataSource.tag_id ds) v.
Proof.
  intros n Hf Hmode Hrun.
  pose proof (wp_run _ _ _ _ _ (DataSource.write_run ds _ value w) Hrun) as H. simpl in H.
  destruct (DataSource.requested ds _ value) as [v|] eqn:Hv; [|by destruct H].
  unfold DataSource.acknowledged in H. cbn [DataSource.send_write front_threads] in H.
  fold n in H. set (bw := DataSource.bridged ds v n) in H.
  destruct (send_write bw (DataSource.env w)) as [ok f1] eqn:Hsend. injection Hsend as <- Hf1.
  destruct H as (_ & Hch & H). rewrite Hmode in H.
  cbn [DataSource.recv_timeout front_threads] in H. unfold recv_timeout in H.
  destruct (serve_sent n (DataSource.env w) bw) as ([Hp' Hq' Hl'] & Ht & s1 & Hs1 & Hn1 & Hd);
    [done|by unfold bw, DataSource.bridged; rewrite Hmode|].
  cbn [snd] in Hp', Hq', Hl', Hd. replace (send_write bw (DataSource.env w)).2 with f1 in * by done.
  destruct H as [Ho Henv]. split.
  - rewrite Hch, Henv. by split.
  - exists v, s1. split; [done|]. split; [done|]. split; [done|]. rewrite Henv. apply Hd.
    destruct (answer_on answer_of (log (bridge (serve f1))) n) as [[[]|e]|]; [done|..];
      by destruct (head (timely (serve f1))) as [[]|].
Qed.
End front.
End Front.
