(* ===== verification/RoundTrip.v ===== *)
(** * The system: a client's write, read back

    The end-to-end behaviour when everything works: a write of a client, confirmed, to a
    tag whose driver is ready for it ([WritePath.ServingDriver]), is served by one cycle
    of the driver's poller, and is what the client reads next.  The witnesses evaluate it
    on a Modbus and on a FINS plant. *)

From stdpp Require Import base tactics numbers list gmap strings.
From S2P Require Import Prelude Effects RustStd RustStr RustSlice RustMap Ranges Crates CratesRef TagValue Tag TagDefinition TagStore Registry RegistryRef DriverWorld ModbusTypes ModbusCodec ModbusPlan ModbusDriver ModbusReads FinsTypes FinsCodec FinsPlan FinsDriver FinsRef FinsCycle FinsReads DriverApi WritePath ModbusQueue FinsQueue ModbusServe FinsServe OpcUaConfig OpcUaValue OpcUaWrites WriteHandler OpcUaSource OpcUaBridge System.
Local Open Scope Z_scope.

(** ** Through the plant *)

Module WriteThrough.
Import WritePath Plant PlantHandler.
Section through.
Context {C : Chrono} {J : SerdeJson} {W : Type} {WD : WriteDriver W} {SD : ServingDriver W}.
Notation Plant := (Plant W).
#[local] Instance driver_io : WriteHandler.WriteIO := plant_io (W := W).
Notation Handler := (WriteHandler.RuntimeWriteHandler (IO := driver_io)).

Lemma head_omap_all {X Y} (f : X → option Y) l x y :
  x ∈ l → f x = Some y → (∀ x', x' ∈ l → f x' = None ∨ f x' = Some y) → head (omap f l) = Some y.
Proof.
  induction l as [|x0 l IH]; intros Hx Hf Hall; [by apply not_elem_of_nil in Hx|]. simpl.
  destruct (Hall x0 ltac:(by left)) as [Hn|Hs]; [|by rewrite Hs]. rewrite Hn.
  apply elem_of_cons in Hx as [->|Hx]; [congruence|]. apply IH; [done..|].
  intros x' Hx'. apply Hall. by right.
Qed.

(** The driver of the poller [i] is ready for the write, and the poller is next to finish
    a cycle. *)
Record ready (p : Plant) (i : nat) (id : string) (d : TagDefinition) (v : TagValue) : Prop := {
  rd_sound : sound_plant p;
  rd_poller : ∃ s, pollers p !! i = Some {| driver := s; state := Running |} ∧ ready_for s id d v;
  rd_schedule : head (Plant.waits p) = Some [i];
  rd_definition : TagRegistry.defs (reg p) !! id = Some d;
  rd_accepts : WriteHandler.accepts (reg p) id v;
}.

(** The next reply channel, and the request put into the queue on it. *)
Definition opened (p : Plant) : Plant :=
  {| reg := reg p; pollers := pollers p; next := S (next p); Plant.waits := Plant.waits p |}.

Lemma opened_sound (p : Plant) : sound_plant p → sound_plant (opened p).
Proof. intros [H1 H2 H3]. split; [done|done|]. intros i s c Hi Hc. eapply H3; [done|simpl in Hc; lia]. Qed.

(** The poller's cycle during the wait confirms the write on its channel. *)
Lemma receive_confirms (p : Plant) i s s' id v v' c :
  sound_plant p → pollers p !! i = Some {| driver := s; state := Running |} →
  (∀ j sl, pollers p !! j = Some sl →
     requested (driver sl) c = if decide (j = i) then Some (id, v) else None) →
  head (Plant.waits p) = Some [i] →
  cycle (set_registry (reg p) s) = (Ret tt, s') → answer s' c = Some (Ok tt) →
  DriverWorld.Shown.of_registry (registry s') !! id = Some (v', TagQuality.Good) →
  ∃ p', receive c p = (WriteHandler.Replied (Ok tt), p') ∧ reg p' = registry s'.
Proof.
  intros Hp Hi Hreq Hsched Hcyc Hans Hs.
  set (p' := {| reg := registry s';
    pollers := <[i := {| driver := s'; state := Running |}]> (pollers p);
    next := next p; Plant.waits := tail (Plant.waits p) |} : Plant).
  assert (wait p = p') as Hwait.
  { unfold wait, run_cycles. rewrite Hsched. simpl. unfold run_cycle. cbn [pollers reg next Plant.waits].
    rewrite Hi. simpl. by rewrite Hcyc. }
  exists p'. split; [|done]. unfold receive. rewrite Hwait.
  assert (answered c p' = Some (Ok tt)) as ->; [|done].
  unfold answered. apply (head_omap_all _ _ {| driver := s'; state := Running |}); [|exact Hans|].
  - apply list_elem_of_lookup. exists i. simpl. apply list_lookup_insert_eq. by eapply lookup_lt_Some.
  - intros sl [j Hj]%list_elem_of_lookup. simpl in Hj.
    apply list_lookup_insert_Some in Hj as [(<- & <- & _)|[Hne Hj]]; [by right|]. left.
    destruct (answer (driver sl) c) as [r|] eqn:Hr; [|done].
    destruct (answer_ok (driver sl) c r) as (id' & v1 & Hr' & _); [by eapply plant_drivers|done|].
    rewrite (Hreq _ _ Hj), decide_False in Hr' by done. done.
Qed.

(** The handler's write succeeds, and the value is shown. *)
Lemma handle_write_succeeds (h : Handler) sender p id d v :
  ready p (poller_of sender) id d v → WriteHandler.routing h !! id = Some sender →
  ∃ p' v', handle_write h (OpcUaWrite.new id v) p = (Ret tt, p') ∧
    TagRegistry.defs (reg p') = TagRegistry.defs (reg p) ∧
    DriverWorld.Shown.of_registry (reg p') !! id = Some (v', TagQuality.Good) ∧
    ModbusCodec.read_back v v'.
Proof.
  set (i := poller_of sender). intros [Hp (s & Hi & Hready) Hsched Hd Hacc] Hroute.
  pose proof (opened_sound p Hp) as Hp1.
  assert (∀ j s, pollers (opened p) !! j = Some s → requested (driver s) (next p) = None) as Hfresh.
  { intros j sl Hj. by eapply (plant_fresh p). }
  destruct (serves_write s id d v (next p) Hready) as (s1 & Hsub & Hserve);
    [exact (plant_drivers p Hp _ _ Hi)|exact (Hfresh _ _ Hi)|].
  set (p2 := {| reg := reg p; pollers := <[i := {| driver := s1; state := Running |}]> (pollers p);
                next := S (next p); Plant.waits := Plant.waits p |}).
  assert (send i id v (Some (next p)) (opened p) = (WriteHandler.Sent, p2)) as Hsend.
  { unfold send, closed, send_now. cbn [pollers opened]. rewrite Hi. cbn. by rewrite Hsub. }
  destruct (send_sound _ _ _ _ _ _ _ Hp1 Hfresh ltac:(simpl; lia) Hsend) as (Hp2 & _ & Hreq).
  destruct (Hserve (reg p) (plant_registry p Hp) Hd) as (s2 & v' & Hcyc & Hans & Hdefs & Hs & Hrb).
  destruct (receive_confirms p2 i s1 s2 id v v' (next p)) as (p3 & Hrecv & Hreg); try done.
  { apply list_lookup_insert_eq. by eapply lookup_lt_Some. }
  { by apply Hreq. }
  exists p3, v'. rewrite Hreg. split; [|done]. unfold handle_write.
  pose proof (WriteHandler.handle_write_run (IO := plant_io) h (reg p) (OpcUaWrite.new id v)
    (WriteHandler.mkWorld (IO := plant_io) p []) (plant_registry p Hp)) as Hrun.
  unfold wp in Hrun. change driver_io with (plant_io (W := W)) in *.
  destruct (WriteHandler.handle_write h (reg p) (OpcUaWrite.new id v) _) as [o w'].
  unfold WriteHandler.write_outcome in Hrun. cbn [OpcUaWrite.tag_id OpcUaWrite.value OpcUaWrite.new fst snd] in Hrun.
  rewrite Hroute in Hrun. destruct Hrun as [[_ Hrun]|[Hno _]]; [|done].
  unfold WriteHandler.routed_outcome in Hrun.
  cbn [WriteHandler.oneshot plant_io WriteHandler.env] in Hrun. fold (opened p) in Hrun.
  rewrite send_op_plant in Hrun. cbn [OpcUaWrite.tag_id OpcUaWrite.value OpcUaWrite.new] in Hrun.
  fold i in Hrun. rewrite Hsend in Hrun. cbn [WriteHandler.recv_reply plant_io] in Hrun. rewrite Hrecv in Hrun.
  by destruct Hrun as (_ & -> & ->).
Qed.
End through.
End WriteThrough.

(** ** From the client and back *)

Module RoundTrip.
Import WritePath Plant PlantHandler.
Import OpcUaValue OpcUaConfig WriteThrough.
Section roundtrip.
Context {C : Chrono} {J : SerdeJson} {O : Open62541} {W : Type} {WD : WriteDriver W} {SD : ServingDriver W}.
#[local] Instance plant_write_io : WriteHandler.WriteIO := plant_io (W := W).
Context (h : WriteHandler.RuntimeWriteHandler (IO := plant_write_io)).
#[local] Instance threads : DataSource.Threads := Front.front_threads h.

(** A tag shown with a value that is good is read with that value. *)
Lemma read_shown ds r v var :
  TagRegistry.wf r →
  DriverWorld.Shown.of_registry r !! DataSource.tag_id ds = Some (v, TagQuality.Good) →
  tagvalue_to_variant v = Some var →
  ∃ dv, DataSource.read ds r = Some (Ok dv) ∧ DataSource.data dv = var ∧ DataSource.status dv = GOOD.
Proof.
  intros Hwf Hs Hvar. unfold DriverWorld.Shown.of_registry in Hs. rewrite lookup_fmap in Hs.
  destruct (TagRegistry.view r !! DataSource.tag_id ds) as [t|] eqn:Ht; [|done]. simpl in Hs.
  injection Hs as Hv Hq. unfold DataSource.read. rewrite TagRegistry.get_tag_view, Ht by done. simpl.
  rewrite Hv, Hvar.
  destruct (DataSource.chrono_to_ua_dt_total (Tag.source_timestamp t)) as [src ->].
  destruct (DataSource.chrono_to_ua_dt_total (Tag.server_timestamp t)) as [srv ->]. simpl.
  eexists. split; [done|]. split; [done|]. simpl. rewrite Hq. by destruct (decide _).
Qed.

(** C3: the round trip of a client's write.  When the bridge is idle, the driver of the tag
    is ready for the write and its poller finishes a cycle during the wait, and the client
    waits for it, a write with confirmed acknowledgement returns success; and then a read
    of the tag gives this value back, up to what the PLC's words can hold ([read_back]),
    with status good.  It holds for every driver of the class; both drivers are in it. *)
Theorem client_write_read_back (ds : DataSource.TagDataSource) (value : option Variant)
    (w : DataSource.World) (sender : WriteHandler.DriverSender) (d : TagDefinition) (v : TagValue) :
  let f := DataSource.env w in
  let p := Front.plant f in
  let id := DataSource.tag_id ds in
  Front.front_ok (DataSource.channels w) f → WriteBridge.env (Front.bridge f) = [] →
  head (Front.timely f) = Some true → ready p (poller_of sender) id d v →
  WriteHandler.routing h !! id = Some sender →
  DataSource.write_mode ds = ConfirmedAck → DataSource.requested ds (reg p) value = Some v →
  ∃ w' v', DataSource.write ds (reg p) value w = (Ret tt, w') ∧ ModbusCodec.read_back v v' ∧
    ∀ var, tagvalue_to_variant v' = Some var →
      ∃ dv, DataSource.read ds (reg (Front.plant (DataSource.env w'))) = Some (Ok dv) ∧
        DataSource.data dv = var ∧ DataSource.status dv = GOOD.
Proof.
  intros f p id Hf Hq Ht Hready Hroute Hmode Hv.
  destruct (handle_write_succeeds h sender p id d v Hready Hroute)
    as (p' & v' & Hh & Hdefs & Hs & Hrb).
  set (n := DataSource.channels w) in *. set (bw := DataSource.bridged ds v n).
  assert (handle_write h (OpcUaWrite.new (BridgeWrite.tag_id bw) (BridgeWrite.value bw)) p = (Ret tt, p'))
    as Hh' by done.
  pose proof (Front.serve_one h f bw _ _ (Front.front_plant _ _ Hf) Hq Hh') as Hserve.
  assert (BridgeWrite.reply bw = Some n) as Hbw by (simpl; by rewrite Hmode).
  destruct (Front.serve_sent h n f bw Hf Hbw) as ([Hp' _ _] & _).
  pose proof (DataSource.write_run ds (reg p) value w) as Hrun. unfold wp in Hrun.
  rewrite Hv in Hrun. unfold DataSource.acknowledged in Hrun.
  cbn [DataSource.send_write threads Front.front_threads] in Hrun. fold n f bw in Hrun.
  change (Front.send_write bw f) with (true, (Front.send_write bw f).2) in Hrun. cbv match in Hrun.
  destruct Hrun as (_ & _ & Hrun). rewrite Hmode in Hrun.
  cbn [DataSource.recv_timeout threads Front.front_threads] in Hrun.
  unfold Front.recv_timeout in Hrun. rewrite Hserve in Hrun, Hp'.
  cbn [Front.bridge Front.timely WriteBridge.log] in Hrun. rewrite Ht, answer_on_app in Hrun.
  assert (answer_on Front.answer_of (WriteBridge.log (Front.bridge f)) n = None) as Hnone.
  { destruct (answer_on _ _ n) as [r|] eqn:Hr; [|done].
    apply answer_on_elem in Hr as (k & ev & Hk%list_elem_of_lookup_2 & Hev). destruct ev; simplify_eq/=.
    by destruct (Front.front_log _ _ Hf n r (Nat.le_refl n)). }
  rewrite Hnone in Hrun. unfold WriteBridge.service in Hrun. cbn [fst snd] in Hrun. rewrite Hbw in Hrun.
  assert (answer_on Front.answer_of [WriteBridge.Took bw; WriteBridge.Answered n (Ok tt)] n = Some (Ok tt))
    as Hans by (unfold answer_on; simpl; by rewrite decide_True).
  cbn [map_err] in Hrun. rewrite Hans in Hrun. destruct Hrun as [Ho Henv].
  exists (DataSource.write ds (reg p) value w).2, v'.
  split; [by apply run_eq|]. split; [done|]. intros var Hvar.
  apply (read_shown _ _ v'); [|by rewrite Henv|done]. rewrite Henv. apply Hp'.
Qed.
End roundtrip.
End RoundTrip.

(** ** A plant of two drivers, evaluated *)

Module Witness.
Import WritePath Plant PlantHandler ModbusIO ModbusDriver ModbusQueue ModbusServe WriteThrough RoundTrip.
Import RegistryRef OpcUaValue OpcUaConfig.
#[local] Existing Instances CratesRef.chrono_ref CratesRef.byteorder_ref CratesRef.bytes_ref
  CratesRef.json_ref open62541_ref.

(** A PLC that is always up: its memory, and a clock. *)
Record PlcEnv := mkPlc { memory : ModbusFunction → Z → Z; time : Z }.
Program Definition plc_net : ModbusIO := {|
  ModbusIO.Env := PlcEnv;
  SocketAddr := unit;
  ClientContext := unit;
  tcp_connect _ e := (Ok tt, e);
  set_slave c _ := c;
  write_multiple_registers _ c a ws e :=
    (Answer tt, c, {| memory := Ranges.stored ModbusFunction.HoldingRegisters a ws (memory e); time := time e |});
  read_holding_registers _ c a n e :=
    (Answer (memory e ModbusFunction.HoldingRegisters <$> seqZ a n), c, e);
  read_input_registers _ c a n e :=
    (Answer (memory e ModbusFunction.InputRegisters <$> seqZ a n), c, e);
  read_coils _ c a n e :=
    (Answer ((λ x, negb (memory e ModbusFunction.Coils x =? 0)) <$> seqZ a n), c, e);
  read_discrete_inputs _ c a n e :=
    (Answer ((λ x, negb (memory e ModbusFunction.DiscreteInputs x =? 0)) <$> seqZ a n), c, e);
  try_recv e := (Empty, e);
  sleep _ e := e;
  utc_now e := (time e, {| memory := memory e; time := time e + 1 |});
|}.
Next Obligation. done. Qed.
#[local] Instance functions_iter : HashIter ModbusFunction := hash_iter_ref ModbusFunction.
#[local] Instance areas_iter : HashIter Z := hash_iter_ref Z.
#[local] Existing Instances modbus_write_driver FinsQueue.FinsQueue.fins_write_driver
  modbus_serving FinsServe.FinsServe.fins_serving.
Notation Driver :=
  (ModbusQueue.Slot (Net := plc_net) + FinsQueue.FinsQueue.Slot (Net := FinsRef.FinsRef.fins_io_ref))%type.
#[local] Instance witness_io : WriteHandler.WriteIO := plant_io (W := Driver).

Definition plc_memory (mem : ModbusFunction → Z → Z) (e : PlcEnv) : Prop := memory e = mem.
Definition flow : ModbusMapping :=
  ModbusMapping.new "flow" 100 2 ModbusFunction.HoldingRegisters TagDataType.Int32 0 true WordOrder.CDAB.
Definition tank : ModbusMapping :=
  ModbusMapping.new "tank" 102 1 ModbusFunction.HoldingRegisters TagDataType.UInt16 0 false WordOrder.BADC.
Definition modbus_cfg : ModbusConfig unit := ModbusConfig.new "boiler" tt 9 100 [tank; flow].
Definition tag_of (id plc : string) (dt : TagDataType) (writable : bool) : TagDefinition :=
  {| TagDefinition.id := id; TagDefinition.name := id; TagDefinition.address := "40101";
     TagDefinition.data_type := dt; TagDefinition.writable := writable;
     TagDefinition.byte_order := WordOrder.ABCD; TagDefinition.stale_after_ms := None;
     TagDefinition.metadata := None; TagDefinition.plc_name := plc |}.
(** The FINS PLC is the one of [FinsCycle], with the tags speed, level and valve. *)
Definition flow_tag : TagDefinition := tag_of "flow" "boiler" TagDataType.Int32 true.
Definition speed_tag : TagDefinition := tag_of "speed" "pump" TagDataType.Int32 true.
Definition registry0 : TagRegistry :=
  ref_registry [flow_tag; tag_of "tank" "boiler" TagDataType.UInt16 false; speed_tag;
                tag_of "level" "pump" TagDataType.UInt16 false;
                tag_of "valve" "pump" TagDataType.Bool true].
Definition zeros (_ : ModbusFunction) (_ : Z) : Z := 0.
Definition slot : ModbusQueue.Slot (Net := plc_net) :=
  mkSlot (Net := plc_net) modbus_cfg 1
    (ModbusDriver.new (IO := queued plc_net) registry0 (mkEnv plc_net [] (mkPlc zeros 0))).
Definition fins_slot : FinsQueue.FinsQueue.Slot (Net := FinsRef.FinsRef.fins_io_ref) :=
  FinsQueue.FinsQueue.mkSlot (Net := FinsRef.FinsRef.fins_io_ref) FinsCycle.FinsCycle.plant
    FinsCycle.FinsCycle.plant_groups 1
    (FinsDriver.mkWorld (IO := FinsQueue.FinsQueue.queued FinsRef.FinsRef.fins_io_ref)
       registry0 None 255 true
       (FinsQueue.FinsQueue.mkEnv FinsRef.FinsRef.fins_io_ref []
          (FinsRef.FinsRef.ref_env [] FinsCycle.FinsCycle.plant_mem)) []).
(** The first wait lets the poller [i] finish a cycle. *)
Definition plant (i : nat) : Plant Driver :=
  {| reg := registry0; pollers := [{| driver := inl slot; state := Running |};
                                   {| driver := inr fins_slot; state := Running |}];
     next := 0; Plant.waits := [[i]] |}.
Definition handler : WriteHandler.RuntimeWriteHandler :=
  WriteHandler.add_route_for_fins
    (WriteHandler.add_route_for_modbus (WriteHandler.new 5000) "flow" (0%nat : WriteHandler.ModbusSender))
    "speed" (1%nat : WriteHandler.FinsSender).
Definition to_boiler : WriteHandler.DriverSender := WriteHandler.Modbus (0%nat : WriteHandler.ModbusSender).
Definition to_pump : WriteHandler.DriverSender := WriteHandler.Fins (1%nat : WriteHandler.FinsSender).
Definition source (id : string) : DataSource.TagDataSource := DataSource.new id ConfirmedAck 5000.
Definition front (i : nat) : Front.Front :=
  Front.mkFront (WriteBridge.mkWorld (IO := Front.bridge_io) [] (plant i) []) [true].
#[local] Instance witness_threads : DataSource.Threads := Front.front_threads handler.
Definition client (i : nat) : DataSource.World := DataSource.mkWorld (front i) 0 [].
Definition minus_two : option Variant := Some (scalar (UaInt32 (-2))).

(** The client's write to the Modbus tag, its result, and what the driver did: the write,
    its confirmation, and then its reads. *)
Definition written_world : DataSource.World :=
  (DataSource.write (source "flow") registry0 minus_two (client 0)).2.
Lemma write_accepted : (DataSource.write (source "flow") registry0 minus_two (client 0)).1 = Ret tt.
Proof. vm_refl. Qed.
Lemma client_wrote : DataSource.write (source "flow") registry0 minus_two (client 0) = (Ret tt, written_world).
Proof. exact (run_eq _ _ _ write_accepted). Qed.
Lemma driver_log :
  (λ s, match driver s with inl s => log (world s) | inr _ => [] end) <$>
    pollers (Front.plant (DataSource.env written_world)) =
  [[EvReceived (WriteRequest.mk "flow" (TagValue.Int32 (-2)) (Some 0%nat)); EvConnect true;
    EvWrite 100 [65534; 65535]; EvAnswer (ModbusIO.Answer tt); EvReply 0 (Ok tt); EvRead ModbusFunction.HoldingRegisters 100 3]; []].
Proof. vm_refl. Qed.

(** The plant meets the hypotheses of the theorems. *)
Lemma registry0_wf : TagRegistry.wf registry0.
Proof. apply ref_registry_wf. vm_refl. Qed.
Lemma slot_is_sound : slot_sound slot.
Proof.
  split; [exact registry0_wf| |by intros i c r ?|constructor].
  repeat (apply Forall_cons; split; [by vm_compute|]). constructor.
Qed.
Lemma fins_slot_is_sound : FinsQueue.FinsQueue.slot_sound fins_slot.
Proof. split; [exact registry0_wf|by intros i c r ?|constructor]. Qed.
Lemma plant_is_sound i : sound_plant (plant i).
Proof.
  split; [exact registry0_wf| |].
  - intros j s Hj. destruct j as [|[|j]]; simplify_eq/=; [exact slot_is_sound|exact fins_slot_is_sound].
  - intros j s c Hj _. by destruct j as [|[|j]]; simplify_eq/=.
Qed.
Lemma front_is_ok i : Front.front_ok 0 (front i).
Proof.
  split; [exact (plant_is_sound i)| |].
  - intros c bw _ Hin. by apply not_elem_of_nil in Hin.
  - intros c r _ Hin. by apply not_elem_of_nil in Hin.
Qed.
Lemma plc_is_up : plc_up (IO := queued plc_net) modbus_cfg (idle_up (Net := plc_net) plc_memory).
Proof.
  split.
  - intros mem. split.
    + by intros e [Hq Hm].
    + intros t ctx a n [q [me ti]] [Hq Hm]. unfold plc_memory in Hm. simpl in *. subst me q.
      split_and!; do 2 eexists; (split; [reflexivity|done]).
    + intros [q [me ti]] [Hq Hm]. do 2 eexists. split; [reflexivity|done].
    + intros [q [me ti]] [Hq Hm]. simpl in Hq. subst q. do 2 eexists. split; [reflexivity|].
      split; [by left|done].
  - intros mem t ctx a ws [q [me ti]] [Hq Hm]. unfold plc_memory in Hm. simpl in *. subst me q.
    do 2 eexists. split; [reflexivity|done].
Qed.
Lemma flow_is_served : served (Net := plc_net) plc_memory modbus_cfg flow flow_tag (TagValue.Int32 (-2)) [65534; 65535].
Proof.
  split; try done.
  - exact plc_is_up.
  - repeat (apply Forall_cons; split; [unfold Ranges.fits; simpl; lia|]). constructor.
  - apply (bool_decide_unpack _). by vm_compute.
  - split; try done; [apply (bool_decide_unpack _); by vm_compute|].
    exists [65535; 65534]. split; vm_refl.
  - unfold ModbusReads.in_one_request.
    change (∀ g, g ∈ [ModbusPlan.mkGroup 100 3 [flow; tank]] → flow ∈ ModbusPlan.members g →
      ModbusPlan.qty g ≤ ModbusPlan.MAX_REGISTERS).
    intros g ->%list_elem_of_singleton _. simpl. unfold ModbusPlan.MAX_REGISTERS. lia.
Qed.
Lemma flow_is_ready : ready (plant 0) 0 "flow" flow_tag (TagValue.Int32 (-2)).
Proof.
  split.
  - exact (plant_is_sound 0).
  - exists (inl slot). split; [reflexivity|]. split; [exact (Nat.le_refl 1)|reflexivity|].
    exists plc_memory, zeros, flow, [65534; 65535]. split; [exact flow_is_served|]. by split.
  - reflexivity.
  - vm_refl.
  - exists flow_tag. split; [vm_refl|]. by split.
Qed.

(** The FINS PLC: its memory, and the link. *)
Definition pump : TagMapping := FinsCycle.FinsCycle.speed.
Definition pump_memory (mem : Z → Z → Z) (e : FinsRef.FinsRef.RefEnv) : Prop :=
  (∀ ar x, FinsRef.FinsRef.memory e ar x = mem ar x) ∧ FinsRef.FinsRef.link e = true.
Notation ref_io := FinsRef.FinsRef.fins_io_ref.
Definition pump_reply (sid : Z) : list Z := [192; 0; 2; 0; 0; 0; 0; 0; 0] ++ [sid; 1; 2; 0; 0].

Lemma pump_exchange_write stream sid (e : FinsRef.FinsRef.RefEnv) :
  FinsRef.FinsRef.link e = true → is_u8 sid →
  FinsDriver.exchanged (IO := ref_io) stream (FinsDriver.write_frame sid pump [65534; 65535]) e =
    Some (Ok (pump_reply sid), stream, FinsRef.FinsRef.set_inbox []
      (FinsRef.FinsRef.set_memory (FinsRef.FinsRef.ref_store 130 10 [65534; 65535] (FinsRef.FinsRef.memory e)) e)).
Proof.
  intros Hl Hsid. apply (FinsRef.FinsRef.ref_exchange stream _ (pump_reply sid) e); [done|reflexivity| |done].
  repeat (apply Forall_cons_2; [done|]). apply Forall_nil_2.
Qed.

Lemma pump_is_up :
  FinsServe.FinsServe.fins_up (Net := ref_io) FinsCycle.FinsCycle.plant FinsCycle.FinsCycle.plant_groups
    pump [65534; 65535] pump_memory.
Proof.
  split.
  - by intros mem e [Hm Hl].
  - intros mem e [Hm Hl]. exists tt, e. cbn. by rewrite Hl.
  - intros mem g sid stream e Hg Hsid [Hm Hl].
    assert (is_u16 (FinsPlan.word_count g) ∧ 0 ≤ FinsPlan.start_address g < 2 ^ 24) as [Hw Ha].
    { unfold FinsCycle.FinsCycle.plant_groups in Hg. apply elem_of_cons in Hg as [-> | Hg].
      - simpl. split; [by vm_compute|lia].
      - apply list_elem_of_singleton in Hg as ->. simpl. split; [by vm_compute|lia]. }
    do 3 eexists. split; [by apply (FinsRef.FinsRef.ref_exchange_read stream sid g e)|].
    split; [by split|].
    rewrite FinsFrame.parse_fins_response_app by done.
    repeat f_equal. unfold FinsReads.FinsReads.memory_bytes. f_equal. apply list_fmap_ext. intros i x _. apply Hm.
  - intros mem sid stream e Hsid [Hm Hl]. do 4 eexists. split; [by apply pump_exchange_write|].
    split; [|by apply (FinsFrame.parse_fins_response_app [192; 0; 2; 0; 0; 0; 0; 0; 0])].
    split; [|done]. intros ar x. cbn. unfold FinsRef.FinsRef.ref_store, Ranges.stored.
    rewrite Hm. destruct (decide (ar = 130 ∧ 10 ≤ x)) as [[-> Hx]|Hn].
    + rewrite Z.eqb_refl, (proj2 (Z.leb_le _ _)) by done. by destruct ([65534; 65535] !! _).
    + assert ((ar =? 130) && (10 <=? x) = false) as -> by zlia. by destruct ([65534; 65535] !! _).
Qed.

Lemma pump_is_served :
  FinsServe.FinsServe.fins_served (Net := ref_io) FinsCycle.FinsCycle.plant FinsCycle.FinsCycle.plant_groups
    pump [65534; 65535] (FinsPlan.mkReadGroup 130 10 3 [FinsCycle.FinsCycle.speed; FinsCycle.FinsCycle.level])
    speed_tag (TagValue.Int32 (-2)).
Proof.
  split.
  - exact FinsReads.FinsReads.fins_plant_fits.
  - exact FinsReads.FinsReads.fins_plant_valid.
  - exact FinsReads.FinsReads.plant_max.
  - exact FinsReads.FinsReads.fins_plant_ids.
  - exact FinsReads.FinsReads.plant_planned.
  - repeat (apply Forall_cons_2; [discriminate|]). apply Forall_nil_2.
  - split; [by left|done|]. exists [65535; 65534]. split; vm_refl.
  - split; [by left|]. split; [by left|]. simpl. lia.
  - done.
  - done.
  - done.
  - done.
  - by apply (bool_decide_unpack _); vm_compute.
Qed.
Lemma speed_is_ready : ready (plant 1) 1 "speed" speed_tag (TagValue.Int32 (-2)).
Proof.
  split.
  - exact (plant_is_sound 1).
  - exists (inr fins_slot). split; [reflexivity|].
    split; [exact (Nat.le_refl 1)|reflexivity|by vm_compute|].
    exists pump_memory, FinsCycle.FinsCycle.plant_mem, pump, [65534; 65535], (FinsPlan.mkReadGroup 130 10 3 [FinsCycle.FinsCycle.speed; FinsCycle.FinsCycle.level]).
    split; [exact pump_is_up|]. split; [exact pump_is_served|]. split; [reflexivity|]. by split.
  - reflexivity.
  - vm_refl.
  - exists speed_tag. split; [vm_refl|]. by split.
Qed.

(** The client writes -2 to a tag of either driver, and reads it back. *)
Definition reads_minus_two (id : string) (i : nat) : Prop :=
  ∃ w' dv, DataSource.write (source id) registry0 minus_two (client i) = (Ret tt, w') ∧
    DataSource.read (source id) (reg (Front.plant (DataSource.env w'))) = Some (Ok dv) ∧
    Some (DataSource.data dv) = minus_two ∧ DataSource.status dv = GOOD.

Lemma client_write_read_back_witness : reads_minus_two "flow" 0 ∧ reads_minus_two "speed" 1.
Proof.
  assert (∀ (P : Variant → Prop), (∀ var, tagvalue_to_variant (TagValue.Int32 (-2)) = Some var → P var) →
    P (scalar (UaInt32 (-2)))) as Hvar by (intros P HP; apply HP; reflexivity).
  split.
  - destruct (client_write_read_back handler (source "flow") minus_two (client 0)
      to_boiler flow_tag (TagValue.Int32 (-2)) (front_is_ok 0)
      eq_refl eq_refl flow_is_ready eq_refl eq_refl eq_refl) as (w' & v' & Hrun & Hv & Hread).
    simpl in Hv. subst v'. apply Hvar in Hread as (dv & Hdv & Hdata & Hstatus).
    exists w', dv. split; [exact Hrun|]. split; [exact Hdv|].
    split; [rewrite Hdata; reflexivity|exact Hstatus].
  - destruct (client_write_read_back handler (source "speed") minus_two (client 1)
      to_pump speed_tag (TagValue.Int32 (-2)) (front_is_ok 1)
      eq_refl eq_refl speed_is_ready eq_refl eq_refl eq_refl) as (w' & v' & Hrun & Hv & Hread).
    simpl in Hv. subst v'. apply Hvar in Hread as (dv & Hdv & Hdata & Hstatus).
    exists w', dv. split; [exact Hrun|]. split; [exact Hdv|].
    split; [rewrite Hdata; reflexivity|exact Hstatus].
Defined.

Lemma confirmed_write_delivered_witness :
  ∃ p, delivered handler p (Front.plant (DataSource.env written_world)) "flow" (TagValue.Int32 (-2)).
Proof.
  destruct (Front.confirmed_write_delivered handler (source "flow") minus_two (client 0) written_world
    (front_is_ok 0) eq_refl client_wrote) as (_ & v & p & Hv & _ & _ & Hd).
  change (Some (TagValue.Int32 (-2)) = Some v) in Hv. injection Hv as <-. exists p. exact Hd.
Defined.
End Witness.
