(* ===== verification/PlantArrivals.v ===== *)
(** * The plant: requests that arrive during cycles

    In [System] a request enters the queue of a driver between two cycles of its poller.
    In the program the senders and the poller are tasks of their own, and a request may
    enter at any point of a cycle.  The class [ArrivingDriver] states what makes the two
    the same, and both drivers promise it. *)

From stdpp Require Import base tactics numbers list gmap strings.
From S2P Require Import Prelude Effects RustStd RustStr RustSlice RustMap RustText Crates CratesRef TagValue Tag TagDefinition TagStore Registry DriverWorld ModbusTypes ModbusCodec ModbusPlan ModbusDriver FinsTypes FinsPlan FinsDriver FinsRef DriverApi WritePath ModbusQueue FinsQueue ModbusArrivals FinsArrivals WriteHandler System RoundTrip.

Module ArrivingDriver.
Import WritePath.

Section class.
Context {C : Chrono} {J : SerdeJson}.

(** A request on its way: the tag, a value its type can hold, and the reply channel. *)
Record Request := mkRequest {
  id : string;
  value : TagValue;
  reply : option nat;
  value_wf : TagValue.wf value;
}.

Class ArrivingDriver (W : Type) {WD : WriteDriver W} := {
  (** requests put behind the queue *)
  arrive : list Request → W → W;
  (** a cycle, with the requests that arrive before each of its operations; those left
      over arrive after it *)
  cycle_arriving : list (list Request) → W → outcome string unit * W;
  arrive_app l l' w : arrive (l ++ l') w = arrive l' (arrive l w);
  arrive_nil w : arrive [] w = w;
  arrive_registry r l w : arrive l (set_registry r w) = set_registry r (arrive l w);
  registry_arrive l w : registry (arrive l w) = registry w;
  (** a request that was submitted has arrived *)
  submit_arrives i v c w w' :
    submit i v c w = Some w' → ∃ H, w' = arrive [{| id := i; value := v; reply := c; value_wf := H |}] w;
  arrive_one r w :
    sound w → (∀ c, reply r = Some c → requested w c = None) →
    sound (arrive [r] w) ∧
    ∀ c, requested (arrive [r] w) c = if decide (reply r = Some c) then Some (id r, value r) else requested w c;
  (** some count as queued before the cycle, the others as queued after it *)
  cycle_splits cs w : ∃ before after, concat cs = before ++ after ∧
    cycle_arriving cs w = ((cycle (arrive before w)).1, arrive after (cycle (arrive before w)).2);
}.
End class.

(** *** The two drivers *)

(** The boxed error of an outcome. *)
Definition text_of {E A} (to_string : E → string) (o : outcome E A) : outcome string A :=
  match o with Ret a => Ret a | Fail e => Fail (to_string e) | Panic => Panic | Pending => Pending end.

Section modbus.
Context {C : Chrono} {BY : Bytes} {B : ByteOrder} {J : SerdeJson} {Net : ModbusIO}.
Context `{!HashIter ModbusFunction}.
Import ModbusQueue ModbusArrivals.

Definition modbus_request (r : Request) : { req : WriteRequest | TagValue.wf (WriteRequest.value req) } :=
  exist _ (WriteRequest.mk (id r) (value r) (reply r)) (value_wf r).
Definition modbus_enqueue (l : list Request) (s : Slot (Net := Net)) : Slot :=
  set_world (ModbusArrivals.enqueue (map modbus_request l) (world s)) s.
Definition modbus_cycle_arriving (cs : list (list Request)) (s : Slot (Net := Net))
    : outcome string unit * Slot :=
  let '(o, w) := ProtocolDriver.boxed ModbusError.to_string
    (ModbusDriver.run_read_cycle_impl (IO := arriving Net) (config s) (fuel s))
    (opened (map (map modbus_request) cs) (world s)) in
  (o, set_world (settled w) s).

#[export] Program Instance modbus_arriving_driver : ArrivingDriver Slot (WD := modbus_write_driver) := {|
  arrive := modbus_enqueue;
  cycle_arriving := modbus_cycle_arriving;
|}.
Next Obligation.
  intros l l' w. unfold modbus_enqueue, set_world, ModbusArrivals.enqueue, queue2. simpl.
  by rewrite map_app, (assoc_L (++)).
Qed.
Next Obligation.
  intros [cfg n [r c h [q e] l]]. unfold modbus_enqueue, set_world, ModbusArrivals.enqueue, queue2. simpl.
  by rewrite app_nil_r.
Qed.
Next Obligation. done. Qed.
Next Obligation. done. Qed.
Next Obligation.
  intros i v c w w'. simpl. unfold slot_submit, push.
  destruct (_ <=? _)%nat; [done|]. simpl. destruct (decide _) as [H|]; [|done]. intros [= <-]. by exists H.
Qed.
Next Obligation.
  intros r w Hw Hr. apply (slot_queued_ok (proj1_sig (modbus_request r)) _ w Hw Hr).
  unfold waiting, queue2. simpl. by rewrite fmap_app.
Qed.
Next Obligation.
  intros cs s. unfold modbus_cycle_arriving, modbus_enqueue.
  destruct (modbus_cycle_arrivals (Net := Net) (config s) (fuel s) (map (map modbus_request) cs) (world s))
    as (before & after & Hc & Ho & Hs).
  rewrite <- concat_map in Hc. apply map_eq_app in Hc as (before' & after' & Hcs & Hb & Ha).
  exists before', after'. split; [done|]. subst before after.
  set (s2 := set_world (ModbusArrivals.enqueue (map modbus_request before') (world s)) s).
  set (r2 := ModbusDriver.run_read_cycle_impl (IO := queued Net) (config s) (fuel s)
    (ModbusArrivals.enqueue (map modbus_request before') (world s))) in *.
  assert (slot_cycle s2 = (text_of ModbusError.to_string r2.1, set_world r2.2 s)) as Hcycle.
  { transitivity (let '(o, w) := ProtocolDriver.boxed ModbusError.to_string (λ _, r2) (world s) in (o, set_world w s));
      [reflexivity|]. unfold ProtocolDriver.boxed. by destruct r2 as [[] ?]. }
  change (cycle s2) with (slot_cycle s2). rewrite Hcycle. simpl.
  unfold ProtocolDriver.boxed.
  destruct (ModbusDriver.run_read_cycle_impl (IO := arriving Net) _ _ _) as [o1 w1]. simpl in Ho, Hs.
  subst o1. rewrite Hs. by destruct r2 as [[] ?].
Qed.
End modbus.

Section fins.
Context {C : Chrono} {BY : Bytes} {B : ByteOrder} {J : SerdeJson} {Net : FinsIO}.
Context `{!HashIter Z}.
Import FinsQueue FinsArrivals.

Definition fins_request (r : Request) : { req : FinsWriteRequest | TagValue.wf (FinsWriteRequest.value req) } :=
  exist _ (FinsWriteRequest.mk (id r) (value r) (reply r)) (value_wf r).
Definition fins_enqueue (l : list Request) (s : Slot (Net := Net)) : Slot :=
  set_world (FinsArrivals.enqueue (map fins_request l) (world s)) s.
Definition fins_cycle_arriving (cs : list (list Request)) (s : Slot (Net := Net))
    : outcome string unit * Slot :=
  let '(o, w) := ProtocolDriver.boxed FinsError.to_string
    (FinsDriver.run_read_cycle_impl (IO := arriving Net) (config s) (read_groups s) (fuel s))
    (opened (map (map fins_request) cs) (world s)) in
  (o, set_world (settled w) s).

#[export] Program Instance fins_arriving_driver : ArrivingDriver Slot (WD := fins_write_driver) := {|
  arrive := fins_enqueue;
  cycle_arriving := fins_cycle_arriving;
|}.
Next Obligation.
  intros l l' w. unfold fins_enqueue, set_world, FinsArrivals.enqueue, queue2. simpl.
  by rewrite map_app, (assoc_L (++)).
Qed.
Next Obligation.
  intros [cfg rgs n [r c sid h [q e] l]]. unfold fins_enqueue, set_world, FinsArrivals.enqueue, queue2. simpl.
  by rewrite app_nil_r.
Qed.
Next Obligation. done. Qed.
Next Obligation. done. Qed.
Next Obligation.
  intros i v c w w'. simpl. unfold slot_submit, push.
  destruct (_ <=? _)%nat; [done|]. simpl. destruct (decide _) as [H|]; [|done]. intros [= <-]. by exists H.
Qed.
Next Obligation.
  intros r w Hw Hr. apply (fins_slot_queued_ok (proj1_sig (fins_request r)) _ w Hw Hr).
  unfold waiting, queue2. simpl. by rewrite fmap_app.
Qed.
Next Obligation.
  intros cs s. unfold fins_cycle_arriving, fins_enqueue.
  destruct (fins_cycle_arrivals (Net := Net) (config s) (read_groups s) (fuel s) (map (map fins_request) cs) (world s))
    as (before & after & Hc & Ho & Hs).
  rewrite <- concat_map in Hc. apply map_eq_app in Hc as (before' & after' & Hcs & Hb & Ha).
  exists before', after'. split; [done|]. subst before after.
  set (s2 := set_world (FinsArrivals.enqueue (map fins_request before') (world s)) s).
  set (r2 := FinsDriver.run_read_cycle_impl (IO := queued Net) (config s) (read_groups s) (fuel s)
    (FinsArrivals.enqueue (map fins_request before') (world s))) in *.
  assert (slot_cycle s2 = (text_of FinsError.to_string r2.1, set_world r2.2 s)) as Hcycle.
  { transitivity (let '(o, w) := ProtocolDriver.boxed FinsError.to_string (λ _, r2) (world s) in (o, set_world w s));
      [reflexivity|]. unfold ProtocolDriver.boxed. by destruct r2 as [[] ?]. }
  change (cycle s2) with (slot_cycle s2). rewrite Hcycle. simpl.
  unfold ProtocolDriver.boxed.
  destruct (FinsDriver.run_read_cycle_impl (IO := arriving Net) _ _ _ _) as [o1 w1]. simpl in Ho, Hs.
  subst o1. rewrite Hs. by destruct r2 as [[] ?].
Qed.
End fins.

(** A driver of one of the two kinds. *)
Section sum.
Context {C : Chrono} {J : SerdeJson} {W1 W2 : Type}.
Context {D1 : WriteDriver W1} {D2 : WriteDriver W2} {A1 : ArrivingDriver W1} {A2 : ArrivingDriver W2}.
Definition sum_arrive (l : list Request) (w : W1 + W2) : W1 + W2 :=
  match w with inl w => inl (arrive l w) | inr w => inr (arrive l w) end.
Definition sum_cycle_arriving (cs : list (list Request)) (w : W1 + W2) : outcome string unit * (W1 + W2) :=
  match w with
  | inl w => let '(o, w) := cycle_arriving cs w in (o, inl w)
  | inr w => let '(o, w) := cycle_arriving cs w in (o, inr w)
  end.
#[export] Program Instance sum_arriving_driver : ArrivingDriver (W1 + W2) := {|
  arrive := sum_arrive;
  cycle_arriving := sum_cycle_arriving;
|}.
Next Obligation. intros l l' [w|w]; simpl; by rewrite arrive_app. Qed.
Next Obligation. intros [w|w]; simpl; by rewrite arrive_nil. Qed.
Next Obligation. intros r l [w|w]; simpl; by rewrite arrive_registry. Qed.
Next Obligation. intros l [w|w]; simpl; apply registry_arrive. Qed.
Next Obligation.
  intros i v c [w|w] w'; simpl; (destruct (submit i v c w) as [w1|] eqn:Hs; [|done]); intros [= <-];
    apply submit_arrives in Hs as [H ->]; by exists H.
Qed.
Next Obligation. intros r [w|w]; exact (arrive_one r w). Qed.
Next Obligation.
  intros cs [w|w]; destruct (cycle_splits cs w) as (before & after & Hc & Hw);
    exists before, after; (split; [exact Hc|]); simpl; by rewrite Hw.
Qed.
End sum.
End ArrivingDriver.

(** ** The plant *)

Module PlantArrivals.
Import WritePath ArrivingDriver Plant.
Section plant.
Context {C : Chrono} {J : SerdeJson} {W : Type} {WD : WriteDriver W} {AD : ArrivingDriver W}.
Notation Plant := (Plant W).

(** Requests enter the queue of the poller [i]. *)
Definition arrive_at (i : nat) (reqs : list Request) (p : Plant) : Plant :=
  {| reg := reg p;
     pollers := alter (λ s, {| driver := arrive reqs (driver s); state := state s |}) i (pollers p);
     next := next p; Plant.waits := Plant.waits p |}.
(** One cycle of the poller [i] during which requests arrive. *)
Definition run_cycle_arriving (i : nat) (cs : list (list Request)) (p : Plant) : Plant :=
  match pollers p !! i with
  | Some {| driver := d; state := Running |} =>
      let '(o, d) := cycle_arriving cs (set_registry (reg p) d) in
      {| reg := registry d;
         pollers := <[i := {| driver := d; state := status_after o |}]> (pollers p);
         next := next p; Plant.waits := Plant.waits p |}
  | _ => arrive_at i (concat cs) p
  end.
Definition run_arriving (l : list (nat * list (list Request))) (p : Plant) : Plant :=
  foldl (λ p x, run_cycle_arriving x.1 x.2 p) p l.

(** The same with arrivals between the cycles only: some before and some after each. *)
Definition run_cycle_between (i : nat) (before after : list Request) (p : Plant) : Plant :=
  arrive_at i after (run_cycle i (arrive_at i before p)).
Definition run_between (l : list (nat * (list Request * list Request))) (p : Plant) : Plant :=
  foldl (λ p x, run_cycle_between x.1 x.2.1 x.2.2 p) p l.

Lemma arrive_at_app i l l' p : arrive_at i (l ++ l') p = arrive_at i l' (arrive_at i l p).
Proof.
  unfold arrive_at. simpl. f_equal. rewrite list_alter_alter_eq. apply list_alter_ext; [|done].
  intros s _. simpl. by rewrite arrive_app.
Qed.

Lemma run_cycle_arriving_between i cs p :
  ∃ before after, concat cs = before ++ after ∧
    run_cycle_arriving i cs p = run_cycle_between i before after p.
Proof.
  unfold run_cycle_arriving, run_cycle_between.
  assert ((∀ s, pollers p !! i = Some s → state s ≠ Running) →
    ∃ before after, concat cs = before ++ after ∧
      arrive_at i (concat cs) p = arrive_at i after (run_cycle i (arrive_at i before p))) as Hidle.
  { intros Hs. exists (concat cs), []. split; [by rewrite app_nil_r|].
    assert (run_cycle i (arrive_at i (concat cs) p) = arrive_at i (concat cs) p) as ->.
    { unfold run_cycle, arrive_at. simpl. rewrite list_lookup_alter_eq.
      destruct (pollers p !! i) as [[d []]|] eqn:Hi; try done. by destruct (Hs _ eq_refl). }
    by rewrite <- arrive_at_app, app_nil_r. }
  destruct (pollers p !! i) as [[d st]|] eqn:Hi; [|by apply Hidle].
  destruct st; [clear Hidle|by apply Hidle; intros s [= <-]..].
  destruct (cycle_splits cs (set_registry (reg p) d)) as (before & after & Hc & Hcycle).
  exists before, after. split; [done|]. rewrite Hcycle. unfold run_cycle. simpl.
  rewrite list_lookup_alter_eq, Hi. simpl. rewrite <- arrive_registry.
  destruct (cycle (arrive before (set_registry (reg p) d))) as [o d']. simpl.
  unfold arrive_at. simpl. rewrite registry_arrive. f_equal.
  apply list_eq. intros j. destruct (decide (i = j)) as [<-|Hne].
  - rewrite list_lookup_alter_eq, !list_lookup_insert_eq by
      (rewrite ?length_alter; by eapply lookup_lt_Some). done.
  - by rewrite list_lookup_alter_ne, !list_lookup_insert_ne, list_lookup_alter_ne.
Qed.

(** The requests of each cycle, in the two parts they fall in. *)
Definition parted (l : list (nat * list (list Request))) (l' : list (nat * (list Request * list Request))) : Prop :=
  Forall2 (λ x y, y.1 = x.1 ∧ concat x.2 = y.2.1 ++ y.2.2) l l'.
Lemma run_arriving_between l p : ∃ l', parted l l' ∧ run_arriving l p = run_between l' p.
Proof.
  unfold parted. revert p. induction l as [|[i cs] l IH]; intros p; [by exists []|]. simpl.
  destruct (run_cycle_arriving_between i cs p) as (before & after & Hc & ->).
  destruct (IH (run_cycle_between i before after p)) as (l' & Hl & Hrun).
  exists ((i, (before, after)) :: l'). split; [by constructor|done].
Qed.

(** *** Sound plants *)

Definition unused (p : Plant) (c : nat) : Prop :=
  ∀ j s, pollers p !! j = Some s → requested (driver s) c = None.
(** The reply channels of requests were handed out, are all different and not in use. *)
Definition replies_fresh (p : Plant) (reqs : list Request) : Prop :=
  NoDup (omap reply reqs) ∧ ∀ c, c ∈ omap reply reqs → (c < next p)%nat ∧ unused p c.

(** What keeps a plant sound, and the channels unused that requests to come use. *)
Definition keeps (p p' : Plant) (reqs : list Request) : Prop :=
  sound_plant p' ∧ next p' = next p ∧ ∀ c, c ∉ omap reply reqs → unused p c → unused p' c.

Lemma arrive_one_sound i r p :
  sound_plant p → replies_fresh p [r] → keeps p (arrive_at i [r] p) [r].
Proof.
  intros [Hr Hd Hf] [_ Hfresh].
  assert (∀ s, pollers p !! i = Some s → ∀ c, reply r = Some c → requested (driver s) c = None) as Hi.
  { intros s Hs c Hc. apply (Hfresh c) in Hs; [done|]. simpl. rewrite Hc. by left. }
  assert (∀ j s, pollers (arrive_at i [r] p) !! j = Some s → sound (driver s) ∧
    ∃ s0, pollers p !! j = Some s0 ∧
      ∀ c, reply r ≠ Some c → requested (driver s) c = requested (driver s0) c) as Hall.
  { intros j s Hs. simpl in Hs. rewrite list_lookup_alter in Hs. case_decide as Hj.
    - subst j. apply fmap_Some in Hs as (s0 & Hs0 & ->). simpl.
      destruct (arrive_one r (driver s0)) as [Hs Hreq]; [by eapply Hd|by apply Hi|].
      split; [done|]. exists s0. split; [done|]. intros c Hc. by rewrite Hreq, decide_False.
    - split; [by eapply Hd|]. by exists s. }
  split; [split; simpl; [done| |]|split; [done|]].
  - intros j s Hs. by apply (Hall j s).
  - intros j s c Hs Hc. destruct (Hall j s Hs) as (_ & s0 & Hs0 & Hsame). rewrite Hsame; [by eapply Hf|].
    intros Hrc. destruct (Hfresh c) as [Hlt _]; [|lia]. simpl. rewrite Hrc. by left.
  - intros c Hc Hun j s Hs. destruct (Hall j s Hs) as (_ & s0 & Hs0 & Hsame). rewrite Hsame; [by eapply Hun|].
    intros Hrc. apply Hc. simpl. rewrite Hrc. by left.
Qed.

Lemma keeps_trans p1 p2 p3 l l' : keeps p1 p2 l → keeps p2 p3 l' → keeps p1 p3 (l ++ l').
Proof.
  intros (_ & Hn & Hk) (Hs & Hn' & Hk'). split; [done|]. split; [congruence|].
  intros c Hc Hun. rewrite omap_app in Hc. apply Hk'; [|apply Hk; [|done]]; set_solver.
Qed.
Lemma replies_fresh_app p p' l l' :
  replies_fresh p (l ++ l') → keeps p p' l → replies_fresh p' l'.
Proof.
  intros [Hnd Hf] (_ & Hn & Hk). rewrite omap_app in Hnd, Hf. apply NoDup_app in Hnd as (_ & Hdis & Hnd).
  split; [done|]. intros c Hc. destruct (Hf c) as [Hlt Hun]; [set_solver|].
  rewrite Hn. split; [done|]. apply Hk; [|done]. intros Hc'. by apply (Hdis c).
Qed.
Lemma replies_fresh_l p l l' : replies_fresh p (l ++ l') → replies_fresh p l.
Proof.
  intros [Hnd Hf]. rewrite omap_app in Hnd, Hf. apply NoDup_app in Hnd as (Hnd & _ & _).
  split; [done|]. set_solver.
Qed.

Lemma arrive_at_sound i reqs p : sound_plant p → replies_fresh p reqs → keeps p (arrive_at i reqs p) reqs.
Proof.
  revert p. induction reqs as [|r reqs IH]; intros p Hp Hf.
  - assert (arrive_at i [] p = p) as ->; [|done]. unfold arrive_at. destruct p as [r ss n ws]. simpl. f_equal.
    apply list_alter_id. intros [d st]. simpl. by rewrite arrive_nil.
  - change (r :: reqs) with ([r] ++ reqs) in *. rewrite arrive_at_app.
    pose proof (arrive_one_sound i r p Hp (replies_fresh_l _ _ _ Hf)) as Hk.
    eapply keeps_trans; [exact Hk|]. apply IH; [apply Hk|by eapply replies_fresh_app].
Qed.
Lemma run_cycle_keeps i p : sound_plant p → keeps p (run_cycle i p) [].
Proof.
  intros Hp. destruct (run_cycle_sound i p Hp) as [Hs [Hn Hr]]. split; [done|]. split; [done|].
  intros c _ Hun j s Hj. specialize (Hr c j). rewrite Hj in Hr. simpl in Hr.
  destruct (pollers p !! j) as [s0|] eqn:H0; [|done]. injection Hr as ->. by eapply Hun.
Qed.
Lemma run_cycle_between_keeps i before after p :
  sound_plant p → replies_fresh p (before ++ after) →
  keeps p (run_cycle_between i before after p) (before ++ after).
Proof.
  intros Hp Hf. unfold run_cycle_between.
  pose proof (arrive_at_sound i before p Hp (replies_fresh_l _ _ _ Hf)) as H1.
  pose proof (run_cycle_keeps i _ (proj1 H1)) as H2.
  pose proof (keeps_trans _ _ _ _ _ H1 H2) as H12. rewrite app_nil_r in H12.
  eapply keeps_trans; [exact H12|]. apply arrive_at_sound; [apply H2|by eapply replies_fresh_app].
Qed.

(** ** Property *)

(** All requests of a schedule. *)
Definition arrivals (l : list (nat * list (list Request))) : list Request := concat (concat l.*2).

(** C9: requests may arrive at any moment of a cycle, and it makes no difference.  A run in
    which they arrive before any of the operations of the cycles is a run in which they
    arrive between the cycles: of the requests that arrive during a cycle, a first part
    counts as queued before it and the rest as queued after it, in their order, none lost
    and none twice.  The queue a request is submitted to is the one it arrives in; and when
    the reply channels are fresh, the plant stays sound, so that what holds of a
    confirmation holds for these requests too. *)
Theorem arrivals_between_cycles (l : list (nat * list (list Request))) (p : Plant) :
  (∃ l', parted l l' ∧ run_arriving l p = run_between l' p) ∧
  (sound_plant p → replies_fresh p (arrivals l) → sound_plant (run_arriving l p)) ∧
  (∀ i id v c p', send_now i id v c p = Some p' → ∃ H, p' = arrive_at i [mkRequest id v c H] p).
Proof.
  split; [|split].
  - apply run_arriving_between.
  - revert p. induction l as [|[i cs] l IH]; intros p Hp Hf; [done|]. simpl.
    destruct (run_cycle_arriving_between i cs p) as (before & after & Hc & ->).
    unfold arrivals in Hf. simpl in Hf. rewrite concat_app, Hc in Hf.
    pose proof (run_cycle_between_keeps i before after p Hp (replies_fresh_l _ _ _ Hf)) as Hk.
    apply IH; [apply Hk|by eapply replies_fresh_app].
  - intros i id v c p'. unfold send_now. destruct (pollers p !! i) as [[d st]|] eqn:Hi; [|done].
    destruct (submit id v c d) as [d'|] eqn:Hs; [|done]. intros [= <-].
    apply submit_arrives in Hs as [H ->]. exists H. unfold arrive_at. f_equal.
    rewrite list_insert_alter. apply list_alter_ext; [|done]. intros s Hs'. rewrite Hi in Hs'. by injection Hs' as <-.
Qed.
End plant.
End PlantArrivals.

(** ** The plant of [RoundTrip], with requests that arrive during a cycle *)

Module ArrivalsWitness.
Import WritePath ArrivingDriver Plant PlantArrivals.
#[local] Existing Instances CratesRef.chrono_ref CratesRef.byteorder_ref CratesRef.bytes_ref
  CratesRef.json_ref RoundTrip.Witness.functions_iter RoundTrip.Witness.areas_iter
  ModbusQueue.modbus_write_driver FinsQueue.FinsQueue.fins_write_driver.
Notation Driver :=
  (ModbusQueue.Slot (Net := RoundTrip.Witness.plc_net) +
   FinsQueue.FinsQueue.Slot (Net := FinsRef.FinsRef.fins_io_ref))%type.

(** Two reply channels are handed out. *)
Definition plant : Plant Driver :=
  {| reg := RoundTrip.Witness.registry0; pollers := pollers (RoundTrip.Witness.plant 0); next := 2;
     Plant.waits := [] |}.
Lemma three_wf : TagValue.wf (TagValue.Int32 3).
Proof. by vm_compute. Qed.
Definition request (c : nat) : Request :=
  {| id := "flow"; value := TagValue.Int32 3; reply := Some c; value_wf := three_wf |}.
Definition unconfirmed : Request :=
  {| id := "flow"; value := TagValue.Int32 3; reply := None; value_wf := three_wf |}.
(** The first request arrives before the driver looks at its queue; the second while the
    first is written; a third, which asks for no confirmation, during the reads. *)
Definition schedule : list (nat * list (list Request)) :=
  [(0%nat, [request 0] :: [request 1] :: replicate 8 [] ++ [[unconfirmed]])].
Definition arrived_plant : Plant Driver := run_arriving schedule plant.
(** Two requests were served in this cycle, the third waits for the next. *)
Lemma arrivals_served :
  (λ s, match driver s with
        | inl s => (omap ModbusQueue.reply_of (ModbusDriver.log (IO := ModbusQueue.queued RoundTrip.Witness.plc_net) (ModbusQueue.world s)),
                    ModbusQueue.waiting (ModbusDriver.env (ModbusQueue.world s)))
        | inr _ => ([], [])
        end) <$> pollers arrived_plant =
    [([(0%nat, Ok tt); (1%nat, Ok tt)], [WriteRequest.mk "flow" (TagValue.Int32 3) None]); ([], [])].
Proof. vm_refl. Qed.

Lemma plant_sound : sound_plant plant.
Proof.
  destruct (RoundTrip.Witness.plant_is_sound 0) as [Hr Hd Hf]. split; [exact Hr|exact Hd|].
  intros i s c Hi _. exact (Hf i s c Hi (Nat.le_0_l c)).
Qed.
Lemma schedule_fresh : replies_fresh plant (arrivals schedule).
Proof.
  split; [refine (bool_decide_eq_true_1 _ _); vm_refl|]. intros c Hc.
  change (c ∈ [0; 1]%nat) in Hc. split.
  - apply elem_of_cons in Hc as [->|Hc%list_elem_of_singleton]; simpl; lia.
  - intros j s Hj. exact (plant_fresh _ (RoundTrip.Witness.plant_is_sound 0) j s c Hj (Nat.le_0_l c)).
Qed.
Lemma arrivals_between_cycles_witness :
  sound_plant arrived_plant ∧
  ∃ l', parted schedule l' ∧ arrived_plant = run_between l' plant.
Proof.
  destruct (arrivals_between_cycles schedule plant) as (H & Hs & _).
  split; [exact (Hs plant_sound schedule_fresh)|exact H].
Defined.
End ArrivalsWitness.
