(* ===== verification/Pollers.v ===== *)
(** * The pollers side by side

    [System] takes the cycles of the pollers one after the other, each as a whole.  In the
    program they are tasks that run at once and share the registry, as the clients that
    read it do.  The class [LocalDriver] states what makes the difference invisible: a
    driver's cycle is a program of registry operations on the driver's own tags.  Both
    drivers promise it, and it follows that the cycles, interleaved access by access, do
    what they do one after the other, in any order. *)

From stdpp Require Import base tactics numbers list gmap strings relations.
From S2P Require Import Prelude Effects RustStd RustStr RustSlice RustMap RustText Crates CratesRef TagValue Tag TagDefinition TagStore Registry RegistryRef CoreModel TagThreads DriverWorld Locality ModbusTypes ModbusPlan ModbusDriver ModbusLocal FinsTypes FinsPlan FinsDriver FinsRef FinsCycle FinsLocal DriverApi WritePath ModbusQueue FinsQueue RuntimeConfig RuntimeTags WriteHandler Startup System RoundTrip.

Module LocalDriver.
Import TagThreads Locality WritePath.

Class LocalDriver {C : Chrono} {J : SerdeJson} (W : Type) {WD : WriteDriver W} := {
  (** the tags of the driver's configuration *)
  tags_of : W → gset string;
  (** a cycle, as a program on a registry with the given definitions *)
  cycle_prog : TagDefinitionStore → W → prog (outcome string unit * W);
  cycle_touches D w : touches (tags_of w) (cycle_prog D w);
  cycle_yields D w : yields (λ x, tags_of x.2 = tags_of w) (cycle_prog D w);
  cycle_runs D w r x r' :
    TagRegistry.wf r → TagRegistry.definitions r = D → run_prog r (cycle_prog D w) = Some (x, r') →
    cycle (set_registry r w) = (x.1, set_registry r' x.2);
  set_registry_twice r r' w : set_registry r (set_registry r' w) = set_registry r w;
  tags_of_set r w : tags_of (set_registry r w) = tags_of w;
}.

(** A boxed error is still an error. *)
Lemma local_boxed {C : Chrono} {J : SerdeJson} {W E A} put D T (to_string : E → string)
    (m : M W E A) :
  local put D T m → local put D T (ProtocolDriver.boxed to_string m).
Proof.
  intros Hm.
  refine {| tree w := bind (tree Hm w) (λ x, Done (match x.1 with
    | Ret a => Ret a | Fail e => Fail (to_string e) | Panic => Panic | Pending => Pending end, x.2)) |}.
  - intros w. apply bind_touches; [apply tree_touches|done].
  - intros w r x r' Hwf HD Hrun. rewrite run_prog_bind in Hrun.
    destruct (run_prog r (tree Hm w)) as [[y r1]|] eqn:H1; [|done]. injection Hrun as <- <-.
    unfold ProtocolDriver.boxed. rewrite (tree_runs Hm w r y r1 Hwf HD H1).
    by destruct y as [[] ?].
Defined.

(** *** The two drivers *)

Section modbus.
Context {C : Chrono} {BY : Bytes} {B : ByteOrder} {J : SerdeJson} {Net : ModbusIO}.
Context `{!HashIter ModbusFunction}.
Import ModbusQueue.

Definition modbus_tags (s : Slot) : gset string :=
  list_to_set (ModbusMapping.tag_id <$> ModbusConfig.mappings (config s)).
Definition modbus_cycle_local (D : TagDefinitionStore) (s : Slot) :
  local ModbusDriver.set_registry D (modbus_tags s)
    (ProtocolDriver.boxed ModbusError.to_string
       (ModbusDriver.run_read_cycle_impl (IO := queued Net) (config s) (fuel s))).
Proof.
  apply local_boxed, ModbusLocal.modbus_local_cycle. intros m Hm. unfold modbus_tags.
  rewrite elem_of_list_to_set. by apply list_elem_of_fmap_2.
Defined.
Definition modbus_cycle_prog (D : TagDefinitionStore) (s : Slot) : prog (outcome string unit * Slot) :=
  bind (tree (modbus_cycle_local D s) (world s)) (λ x, Done (x.1, set_world x.2 s)).

#[export] Program Instance modbus_local_driver : LocalDriver Slot (WD := modbus_write_driver) := {|
  tags_of := modbus_tags;
  cycle_prog := modbus_cycle_prog;
|}.
Next Obligation. intros D s. apply bind_touches; [apply tree_touches|done]. Qed.
Next Obligation. intros D s. apply (yields_bind (λ _, True)); [|done]. by induction (tree _ _). Qed.
Next Obligation.
  intros D s r x r' Hwf HD Hrun. unfold modbus_cycle_prog in Hrun. rewrite run_prog_bind in Hrun.
  destruct (run_prog r (tree _ _)) as [[y r1]|] eqn:H1; [|done]. injection Hrun as <- <-.
  set (m := ProtocolDriver.boxed ModbusError.to_string
    (ModbusDriver.run_read_cycle_impl (IO := queued Net) (config s) (fuel s))).
  assert (m (ModbusDriver.set_registry r (world s)) = (y.1, ModbusDriver.set_registry r1 y.2)) as Hc
    by exact (tree_runs (modbus_cycle_local D s) (world s) r y r1 Hwf HD H1).
  transitivity (let '(o, w) := m (ModbusDriver.set_registry r (world s)) in (o, set_world w s));
    [reflexivity|]. by rewrite Hc.
Qed.
Next Obligation. done. Qed.
Next Obligation. done. Qed.
End modbus.

Section fins.
Context {C : Chrono} {BY : Bytes} {B : ByteOrder} {J : SerdeJson} {Net : FinsIO}.
Context `{!HashIter Z}.
Import FinsQueue.

Definition fins_tags (s : Slot) : gset string :=
  list_to_set (TagMapping.tag_id <$>
    FinsConfig.mappings (config s) ++ concat (FinsPlan.mappings <$> read_groups s)).
Lemma fins_own_mappings s m : m ∈ FinsConfig.mappings (config s) → TagMapping.tag_id m ∈ fins_tags s.
Proof. intros Hm. unfold fins_tags. rewrite elem_of_list_to_set. apply list_elem_of_fmap_2, elem_of_app. by left. Qed.
Lemma fins_own_groups s g m :
  g ∈ read_groups s → m ∈ FinsPlan.mappings g → TagMapping.tag_id m ∈ fins_tags s.
Proof.
  intros Hg Hm. unfold fins_tags. rewrite elem_of_list_to_set. apply list_elem_of_fmap_2, elem_of_app. right.
  apply elem_of_concat. exists (FinsPlan.mappings g). split; [done|]. by apply list_elem_of_fmap_2.
Qed.
Definition fins_cycle_local (D : TagDefinitionStore) (s : Slot) :
  local FinsDriver.set_registry D (fins_tags s)
    (ProtocolDriver.boxed FinsError.to_string
       (FinsDriver.run_read_cycle_impl (IO := queued Net) (config s) (read_groups s) (fuel s))).
Proof.
  apply local_boxed, FinsLocal.fins_local_cycle; [apply fins_own_mappings|apply fins_own_groups].
Defined.
Definition fins_cycle_prog (D : TagDefinitionStore) (s : Slot) : prog (outcome string unit * Slot) :=
  bind (tree (fins_cycle_local D s) (world s)) (λ x, Done (x.1, set_world x.2 s)).

#[export] Program Instance fins_local_driver : LocalDriver Slot (WD := fins_write_driver) := {|
  tags_of := fins_tags;
  cycle_prog := fins_cycle_prog;
|}.
Next Obligation. intros D s. apply bind_touches; [apply tree_touches|done]. Qed.
Next Obligation. intros D s. apply (yields_bind (λ _, True)); [|done]. by induction (tree _ _). Qed.
Next Obligation.
  intros D s r x r' Hwf HD Hrun. unfold fins_cycle_prog in Hrun. rewrite run_prog_bind in Hrun.
  destruct (run_prog r (tree _ _)) as [[y r1]|] eqn:H1; [|done]. injection Hrun as <- <-.
  set (m := ProtocolDriver.boxed FinsError.to_string
    (FinsDriver.run_read_cycle_impl (IO := queued Net) (config s) (read_groups s) (fuel s))).
  assert (m (FinsDriver.set_registry r (world s)) = (y.1, FinsDriver.set_registry r1 y.2)) as Hc
    by exact (tree_runs (fins_cycle_local D s) (world s) r y r1 Hwf HD H1).
  transitivity (let '(o, w) := m (FinsDriver.set_registry r (world s)) in (o, set_world w s));
    [reflexivity|]. by rewrite Hc.
Qed.
Next Obligation. done. Qed.
Next Obligation. done. Qed.
End fins.

(** A driver of one of the two kinds. *)
Section sum.
Context {C : Chrono} {J : SerdeJson} {W1 W2 : Type}.
Context {D1 : WriteDriver W1} {D2 : WriteDriver W2} {L1 : LocalDriver W1} {L2 : LocalDriver W2}.
Definition sum_tags (w : W1 + W2) : gset string :=
  match w with inl w => tags_of w | inr w => tags_of w end.
Definition sum_cycle_prog (D : TagDefinitionStore) (w : W1 + W2)
    : prog (outcome string unit * (W1 + W2)) :=
  match w with
  | inl w => bind (cycle_prog D w) (λ x, Done (x.1, inl x.2))
  | inr w => bind (cycle_prog D w) (λ x, Done (x.1, inr x.2))
  end.
#[export] Program Instance sum_local_driver : LocalDriver (W1 + W2) := {|
  tags_of := sum_tags;
  cycle_prog := sum_cycle_prog;
|}.
Next Obligation. intros D [w|w]; (apply bind_touches; [apply cycle_touches|done]). Qed.
Next Obligation. intros D [w|w]; (eapply yields_bind; [apply cycle_yields|done]). Qed.
Next Obligation.
  intros D [w|w] r x r' Hwf HD Hrun; simpl in Hrun; rewrite run_prog_bind in Hrun;
    (destruct (run_prog r (cycle_prog D w)) as [[y r1]|] eqn:H1; [|done]; injection Hrun as <- <-;
     simpl; by rewrite (cycle_runs D w r y r1 Hwf HD H1)).
Qed.
Next Obligation. intros r r' [w|w]; simpl; by rewrite set_registry_twice. Qed.
Next Obligation. intros r [w|w]; apply tags_of_set. Qed.
End sum.
End LocalDriver.

(** ** The pollers of a plant *)

Module Pollers.
Import TagThreads Locality WritePath LocalDriver Plant.
Section pollers.
Context {C : Chrono} {J : SerdeJson} {W : Type} {WD : WriteDriver W} {LD : LocalDriver W}.

(** A poller apart from the registry it has a handle on. *)
Definition alone (r0 : TagRegistry) (s : Poller) : Poller :=
  {| driver := set_registry r0 (driver s); state := state s |}.

(** [n] cycles of a poller, as a thread's program. *)
Fixpoint cycles (D : TagDefinitionStore) (r0 : TagRegistry) (n : nat) (s : Poller) : prog Poller :=
  match n, state s with
  | S n, Running =>
      bind (cycle_prog D (driver s)) (λ x,
        cycles D r0 n {| driver := set_registry r0 x.2; state := status_after x.1 |})
  | _, _ => Done s
  end.
(** As many cycles of each poller as [n] says, and clients. *)
Definition programs {R} (D : TagDefinitionStore) (r0 : TagRegistry) (n : nat → nat)
    (ss : list (Poller (W:=W))) (clients : list (prog R)) : list (prog (Poller + R)) :=
  imap (λ i s, bind (cycles D r0 (n i) (alone r0 s)) (λ s, Done (inl s))) ss ++
  ((λ p, bind p (λ a, Done (inr a))) <$> clients).
(** The pollers of a schedule run their cycles, all at once, next to the clients. *)
Definition times (l : list nat) (i : nat) : nat := length (filter (λ j, j = i) l).
Definition side_by_side {R} (l : list nat) (clients : list (prog R)) (p : Plant W)
    : config (Poller + R) :=
  (reg p, start <$> programs (TagRegistry.definitions (reg p)) (reg p) (times l) (pollers p) clients).

(** Each tag belongs to one poller. *)
Definition own_tags (ss : list (Poller (W:=W))) : Prop :=
  ∀ i j s s', i ≠ j → ss !! i = Some s → ss !! j = Some s' → tags_of (driver s) ## tags_of (driver s').

Lemma cycles_touches D r0 n s : touches (tags_of (driver s)) (cycles D r0 n s).
Proof.
  revert s. induction n as [|n IH]; intros [d []]; simpl; try done.
  eapply touches_bind; [apply cycle_touches|apply cycle_yields|]. intros x <-.
  specialize (IH {| driver := set_registry r0 x.2; state := status_after x.1 |}). simpl in IH.
  by rewrite tags_of_set in IH.
Qed.
Lemma cycles_stopped D r0 n s : state s ≠ Running → cycles D r0 n s = Done s.
Proof. destruct n, s as [d []]; simpl; done. Qed.

(** The tag sets of the threads. *)
Definition footprints {R} (ss : list (Poller (W:=W))) (clients : list (prog R)) : list (gset string) :=
  ((λ s, tags_of (driver s)) <$> ss) ++ ((λ _, ∅) <$> clients).

Lemma bind_writes {A B} T (p : prog A) (f : A → prog B) :
  writes_in T p → (∀ a, writes_in T (f a)) → writes_in T (bind p f).
Proof. intros Hp Hf. induction p as [a|op k IH]; simpl in *; [done|]. naive_solver. Qed.

Lemma poller_touches D r0 n s {R} :
  touches (tags_of (driver s)) (bind (cycles D r0 n (alone r0 s)) (λ s, Done (inl s : Poller + R))).
Proof.
  apply bind_touches; [|done]. pose proof (cycles_touches D r0 n (alone r0 s)) as H.
  simpl in H. by rewrite tags_of_set in H.
Qed.

Lemma programs_writers {R} D r0 n ss (clients : list (prog R)) :
  own_tags ss → Forall (writes_in ∅) clients →
  single_writer (footprints ss clients) (programs D r0 n ss clients).
Proof.
  intros Hown Hcl. unfold footprints. split.
  - intros i j Ti Tj Hne [(s & -> & Hi)%list_lookup_fmap_Some|[_ (c & -> & Hi)%list_lookup_fmap_Some]]%lookup_app_Some
      [(s' & -> & Hj)%list_lookup_fmap_Some|[_ (c' & -> & Hj)%list_lookup_fmap_Some]]%lookup_app_Some;
      try set_solver. by apply (Hown i j).
  - apply Forall2_app.
    + apply Forall2_same_length_lookup. split; [by rewrite length_fmap, length_imap|].
      intros i T q (s & -> & Hi)%list_lookup_fmap_Some Hq.
      rewrite list_lookup_imap, Hi in Hq. simplify_eq/=. apply touches_writes, poller_touches.
    + apply Forall2_fmap. apply Forall_Forall2_diag. eapply Forall_impl; [done|].
      intros q Hq. by apply bind_writes.
Qed.
(** *** Cycles one after the other, as whole operations of the threads *)

Lemma atomics_bind {A B B'} ds (q : prog A) (f : A → prog B) (g : B → prog B') m ps i :
  ps !! i = Some (bind (bind q f) g) →
  rtc (atomic ds) (m, ps) ((spec_prog ds m q).2, <[i := bind (f (spec_prog ds m q).1) g]> ps).
Proof.
  revert m ps. induction q as [a|op k IH]; intros m ps Hi; simpl in *.
  { by rewrite list_insert_id. }
  destruct (CoreModel.spec_operation ds m op) as [x m1] eqn:Hop.
  eapply rtc_l; [by eapply Atomic|].
  pose proof (IH x m1 (<[i := bind (bind (k x) f) g]> ps)) as H.
  rewrite list_insert_insert_eq in H. apply H, list_lookup_insert_eq. by eapply lookup_lt_Some.
Qed.

Lemma programs_ext {R} D r0 n n' ss (clients : list (prog R)) :
  (∀ i s, ss !! i = Some s → n i = n' i ∨ state s ≠ Running) →
  programs D r0 n ss clients = programs D r0 n' ss clients.
Proof.
  intros Hn. unfold programs. f_equal. apply list_eq. intros i. rewrite !list_lookup_imap.
  destruct (ss !! i) as [s|] eqn:Hi; [|done]. simpl. do 2 f_equal.
  destruct (Hn i s Hi) as [->|Hs]; [done|]. by rewrite !cycles_stopped.
Qed.

Definition one_less (i : nat) (n : nat → nat) (j : nat) : nat :=
  if decide (j = i) then pred (n j) else n j.

Lemma run_cycle_atomics {R} D r0 n i (p : Plant W) (clients : list (prog R)) :
  TagRegistry.wf (reg p) → TagRegistry.definitions (reg p) = D → (0 < n i)%nat →
  TagRegistry.wf (reg (run_cycle i p)) ∧ TagRegistry.definitions (reg (run_cycle i p)) = D ∧
  rtc (atomic (TagDefinitionStore.inner D))
    (TagRegistry.view (reg p), programs D r0 n (pollers p) clients)
    (TagRegistry.view (reg (run_cycle i p)),
     programs D r0 (one_less i n) (pollers (run_cycle i p)) clients).
Proof.
  intros Hwf HD Hn. unfold run_cycle.
  assert ((∀ s, pollers p !! i = Some s → state s ≠ Running) →
    TagRegistry.wf (reg p) ∧ TagRegistry.definitions (reg p) = D ∧
    rtc (atomic (TagDefinitionStore.inner D))
      (TagRegistry.view (reg p), programs D r0 n (pollers p) clients)
      (TagRegistry.view (reg p), programs D r0 (one_less i n) (pollers p) clients)) as Hidle.
  { intros Hs. split; [done|]. split; [done|].
    rewrite (programs_ext D r0 n (one_less i n)); [done|]. intros j s Hj. unfold one_less.
    case_decide; subst; [right; by apply Hs|by left]. }
  destruct (pollers p !! i) as [[d st]|] eqn:Hi; [|by apply Hidle].
  destruct st; [clear Hidle|by apply Hidle; intros s [= <-]..].
  destruct (run_prog_spec (cycle_prog D (set_registry r0 d)) (reg p) Hwf)
    as (r' & Hrun & Hwf' & _ & Hv').
  pose proof (cycle_runs D _ _ _ _ Hwf HD Hrun) as Hc. rewrite set_registry_twice in Hc.
  rewrite Hc. simpl. rewrite registry_set. split; [done|].
  split; [rewrite <- HD; by eapply run_prog_keeps|].
  destruct (n i) as [|k] eqn:Hk; [lia|].
  assert (programs D r0 n (pollers p) clients !! i =
    Some (bind (bind (cycle_prog D (set_registry r0 d)) (λ x,
       cycles D r0 k {| driver := set_registry r0 x.2; state := status_after x.1 |}))
       (λ s, Done (inl s)))) as Hprog.
  { unfold programs. rewrite lookup_app_l, list_lookup_imap, Hi by
      (rewrite length_imap; by eapply lookup_lt_Some). simpl. by rewrite Hk. }
  apply (atomics_bind (TagDefinitionStore.inner D) _ _ _ (TagRegistry.view (reg p))) in Hprog.
  unfold TagRegistry.defs in Hv', Hprog |- *. rewrite HD in Hv'. rewrite Hv'.
  revert Hprog. rewrite HD. set (x := (spec_prog _ _ _).1). intros Hprog.
  match goal with |- rtc _ _ (_, ?ps) => match type of Hprog with rtc _ _ (_, ?ps') =>
    replace ps with ps'; [done|] end end.
  assert (i < length (pollers p))%nat as Hlt by by eapply lookup_lt_Some.
  unfold programs. rewrite insert_app_l by by rewrite length_imap. f_equal.
  apply list_eq. intros j. rewrite list_lookup_imap. destruct (decide (j = i)) as [->|Hne].
  - rewrite !list_lookup_insert_eq by (rewrite ?length_imap; done). simpl.
    unfold alone. simpl. rewrite set_registry_twice. unfold one_less.
    by rewrite decide_True, Hk.
  - rewrite !list_lookup_insert_ne, list_lookup_imap by done.
    destruct (pollers p !! j); [|done]. simpl. unfold one_less. by rewrite decide_False.
Qed.

Lemma run_cycles_atomics {R} D r0 l (p : Plant W) (clients : list (prog R)) :
  TagRegistry.wf (reg p) → TagRegistry.definitions (reg p) = D →
  TagRegistry.definitions (reg (run_cycles l p)) = D ∧
  rtc (atomic (TagDefinitionStore.inner D))
    (TagRegistry.view (reg p), programs D r0 (times l) (pollers p) clients)
    (TagRegistry.view (reg (run_cycles l p)), programs D r0 (λ _, 0%nat) (pollers (run_cycles l p)) clients).
Proof.
  revert p. induction l as [|i l IH]; intros p Hwf HD; [done|]. simpl.
  destruct (run_cycle_atomics D r0 (times (i :: l)) i p clients Hwf HD) as (Hwf1 & HD1 & Hat).
  { unfold times. rewrite filter_cons, decide_True by done. simpl. lia. }
  destruct (IH (run_cycle i p) Hwf1 HD1) as [HD2 Hat2]. split; [done|].
  etrans; [exact Hat|].
  rewrite (programs_ext D r0 (one_less i (times (i :: l))) (times l)); [done|].
  intros j s _. left. unfold one_less, times. rewrite filter_cons. repeat case_decide; subst; done.
Qed.
Lemma run_cycles_length l (p : Plant W) : length (pollers (run_cycles l p)) = length (pollers p).
Proof.
  revert p. induction l as [|i l IH]; intros p; [done|]. simpl. rewrite IH. unfold run_cycle.
  destruct (pollers p !! i) as [[d []]|]; try done.
  destruct (cycle _) as [o d']. simpl. apply length_insert.
Qed.

(** The thread of a poller. *)
Definition thread_of {R} (p : Plant W) (l : list nat) (i : nat) (s : Poller) : prog (Poller + R) :=
  bind (cycles (TagRegistry.definitions (reg p)) (reg p) (times l i) (alone (reg p) s)) (λ s, Done (inl s)).

Lemma side_by_side_lookup {R} (p : Plant W) l (clients : list (prog R)) i s :
  pollers p !! i = Some s →
  programs (TagRegistry.definitions (reg p)) (reg p) (times l) (pollers p) clients !! i =
    Some (thread_of p l i s).
Proof.
  intros Hi. unfold programs. rewrite lookup_app_l, list_lookup_imap, Hi; [done|].
  rewrite length_imap. by eapply lookup_lt_Some.
Qed.
Lemma footprints_lookup {R} ss (clients : list (prog R)) i s :
  ss !! i = Some s → footprints ss clients !! i = Some (tags_of (driver s)).
Proof.
  intros Hi. unfold footprints. rewrite lookup_app_l, list_lookup_fmap, Hi; [done|].
  rewrite length_fmap. by eapply lookup_lt_Some.
Qed.

(** A state that the threads reach by whole operations, and a poller that is done in it. *)
Lemma poller_result {R} (p : Plant W) l (clients : list (prog R)) m ps i s x :
  own_tags (pollers p) → Forall (writes_in ∅) clients →
  rtc (atomic (TagRegistry.defs (reg p)))
    (TagRegistry.view (reg p),
     programs (TagRegistry.definitions (reg p)) (reg p) (times l) (pollers p) clients) (m, ps) →
  pollers p !! i = Some s → ps !! i = Some (Done x) →
  let '(a, mi) := spec_prog (TagRegistry.defs (reg p)) (TagRegistry.view (reg p)) (thread_of p l i s) in
  x = a ∧ ∀ id, id ∈ tags_of (driver s) → m !! id = mi !! id.
Proof.
  intros Hown Hcl Hs Hi Hx.
  destruct (atomics_on_course _ _ _ _ _ _ i _ _ (programs_writers _ _ _ _ _ Hown Hcl) Hs
    (footprints_lookup _ _ _ _ Hi) (side_by_side_lookup _ _ _ _ _ Hi)) as (q & Hq & _ & Hres & Hmap).
  { apply poller_touches. }
  rewrite Hx in Hq. injection Hq as <-. destruct (spec_prog _ _ (thread_of p l i s)). by simpl in *.
Qed.

(** One after the other is one such state. *)
Lemma serial_result {R} (p : Plant W) l i s :
  TagRegistry.wf (reg p) → own_tags (pollers p) → pollers p !! i = Some s →
  ∃ s', pollers (run_cycles l p) !! i = Some s' ∧
  let '(a, mi) := spec_prog (TagRegistry.defs (reg p)) (TagRegistry.view (reg p))
                    (thread_of (R:=R) p l i s) in
  inl (alone (reg p) s') = a ∧
  ∀ id, id ∈ tags_of (driver s) → TagRegistry.view (reg (run_cycles l p)) !! id = mi !! id.
Proof.
  intros Hwf Hown Hi.
  destruct (run_cycles_atomics (R:=R) _ (reg p) l p [] Hwf eq_refl) as [_ Hat].
  destruct (lookup_lt_is_Some_2 (pollers (run_cycles l p)) i) as [s' Hs'].
  { rewrite run_cycles_length. by eapply lookup_lt_Some. }
  exists s'. split; [done|].
  apply (poller_result p l [] _ _ i s (inl (alone (reg p) s')) Hown (Forall_nil_2 _) Hat Hi).
  unfold programs. by rewrite app_nil_r, list_lookup_imap, Hs'.
Qed.

(** The tags of no poller. *)
Lemma others_result {R} (p : Plant W) l (clients : list (prog R)) m ps id :
  own_tags (pollers p) → Forall (writes_in ∅) clients →
  rtc (atomic (TagRegistry.defs (reg p)))
    (TagRegistry.view (reg p),
     programs (TagRegistry.definitions (reg p)) (reg p) (times l) (pollers p) clients) (m, ps) →
  (∀ s, s ∈ pollers p → id ∉ tags_of (driver s)) → m !! id = TagRegistry.view (reg p) !! id.
Proof.
  intros Hown Hcl Hs Hid.
  apply (atomics_frame _ _ _ _ _ _ id (programs_writers _ _ _ _ _ Hown Hcl) Hs).
  intros T HT. unfold footprints in HT.
  apply elem_of_app in HT as [(s & -> & Hin)%list_elem_of_fmap|(? & -> & _)%list_elem_of_fmap];
    [by apply Hid|set_solver].
Qed.

(** ** One after the other, and all at once *)

(** The cycles of the pollers run at once, access by access, next to any clients that read
    the registry, and it makes no difference: a poller that is done has done what it does
    when the cycles run one after the other, as wholes, in any order (its outcome, its
    connection, its queue and its whole log), and its tags are as they are then; a tag of
    no poller is as it was.  The registry stays consistent, nobody is ever stuck, and
    every execution ends. *)
Theorem pollers_serializable {R} (p : Plant W) (l : list nat) (clients : list (prog R))
    (c : config (Poller + R)) :
  TagRegistry.wf (reg p) → own_tags (pollers p) → Forall (writes_in ∅) clients →
  rtc step (side_by_side l clients p) c →
  (∀ l' i s x, l' ≡ₚ l → pollers p !! i = Some s → c.2 !! i = Some (Finished x) →
     ∃ s', pollers (run_cycles l' p) !! i = Some s' ∧ x = inl (alone (reg p) s') ∧
       ∀ id, id ∈ tags_of (driver s) →
         TagRegistry.view c.1 !! id = TagRegistry.view (reg (run_cycles l' p)) !! id) ∧
  (∀ id, (∀ s, s ∈ pollers p → id ∉ tags_of (driver s)) →
     TagRegistry.view c.1 !! id = TagRegistry.view (reg p) !! id) ∧
  TagRegistry.wf c.1 ∧ TagRegistry.definitions c.1 = TagRegistry.definitions (reg p) ∧
  (∀ i s k, c.2 !! i = Some (TagThreads.Running s k) → ∃ y r', advance c.1 s = Some (y, r')) ∧
  sn step c.
Proof.
  intros Hwf Hown Hcl Hs. unfold side_by_side in Hs.
  destruct (steps_consistent _ _ _ _ Hwf (programs_writers _ _ _ _ _ Hown Hcl) Hs) as [Hc Hat].
  split; [|split; [|split; [apply Hc|split; [apply Hc|split]]]].
  - intros l' i s x Hl Hi Hx. destruct (serial_result (R:=R) p l' i s Hwf Hown Hi) as (s' & Hs' & Hser).
    exists s'. split; [done|].
    assert (thread_of (R:=R) p l' i s = thread_of p l i s) as Hth.
    { unfold thread_of, times. by rewrite Hl. }
    rewrite Hth in Hser.
    pose proof (poller_result p l clients _ _ i s x Hown Hcl Hat Hi) as Hpar.
    rewrite list_lookup_fmap, Hx in Hpar. specialize (Hpar eq_refl).
    destruct (spec_prog _ _ _) as [a mi]. destruct Hser as [<- Hm], Hpar as [-> Hm'].
    split; [done|]. intros id Hid. by rewrite Hm, Hm'.
  - intros id. by apply (others_result p l clients _ _ id Hown Hcl Hat).
  - intros i s k. by eapply consistent_runs.
  - by apply (rtc_sn _ _ Hs), steps_end.
Qed.

(** The order in which the pollers finish their cycles does not matter. *)
Record same_plant (r0 : TagRegistry) (p p' : Plant W) : Prop := {
  same_definitions : TagRegistry.definitions (reg p) = TagRegistry.definitions (reg p');
  same_tags : TagRegistry.view (reg p) = TagRegistry.view (reg p');
  same_pollers : alone r0 <$> pollers p = alone r0 <$> pollers p';
}.
#[export] Instance same_plant_equivalence r0 : Equivalence (same_plant r0).
Proof. split; [done|..]; [by intros ? ? []|]. intros p1 p2 p3 [] []. split; congruence. Qed.

Lemma view_by_owner (p : Plant W) (m m' : gmap string Tag) :
  (∀ i s id, pollers p !! i = Some s → id ∈ tags_of (driver s) → m !! id = m' !! id) →
  (∀ id, (∀ s, s ∈ pollers p → id ∉ tags_of (driver s)) → m !! id = m' !! id) → m = m'.
Proof.
  intros Hown Hother. apply map_eq. intros id.
  destruct (decide (Exists (λ s, id ∈ tags_of (driver s)) (pollers p))) as [He|Hn].
  - apply Exists_exists in He as (s & [i Hi]%list_elem_of_lookup & Hid). by eapply Hown.
  - apply Hother. intros s Hs Hid. apply Hn, Exists_exists. by exists s.
Qed.

Theorem cycles_order_irrelevant (p : Plant W) (l l' : list nat) :
  TagRegistry.wf (reg p) → own_tags (pollers p) → l ≡ₚ l' →
  same_plant (reg p) (run_cycles l p) (run_cycles l' p).
Proof.
  intros Hwf Hown Hl.
  destruct (run_cycles_atomics (R:=unit) _ (reg p) l p [] Hwf eq_refl) as [HD Hat].
  destruct (run_cycles_atomics (R:=unit) _ (reg p) l' p [] Hwf eq_refl) as [HD' Hat'].
  assert (∀ i s, pollers p !! i = Some s → ∃ s1 s2,
    pollers (run_cycles l p) !! i = Some s1 ∧ pollers (run_cycles l' p) !! i = Some s2 ∧
    alone (reg p) s1 = alone (reg p) s2 ∧ ∀ id, id ∈ tags_of (driver s) →
      TagRegistry.view (reg (run_cycles l p)) !! id = TagRegistry.view (reg (run_cycles l' p)) !! id)
    as Hsame.
  { intros i s Hi. destruct (serial_result (R:=unit) p l i s Hwf Hown Hi) as (s1 & Hs1 & H1).
    destruct (serial_result (R:=unit) p l' i s Hwf Hown Hi) as (s2 & Hs2 & H2).
    assert (thread_of (R:=unit) p l i s = thread_of p l' i s) as Hth
      by (unfold thread_of, times; by rewrite Hl).
    rewrite Hth in H1. destruct (spec_prog _ _ _) as [a mi]. destruct H1 as [Ha1 Hm1], H2 as [Ha2 Hm2].
    exists s1, s2. split_and!; try done; [congruence|]. intros id Hid. by rewrite Hm1, Hm2. }
  split; [congruence|..].
  - apply (view_by_owner p).
    + intros i s id Hi Hid. destruct (Hsame i s Hi) as (_ & _ & _ & _ & _ & Hm). auto.
    + intros id Hid. rewrite (others_result p l [] _ _ id Hown (Forall_nil_2 _) Hat Hid).
      by rewrite (others_result p l' [] _ _ id Hown (Forall_nil_2 _) Hat' Hid).
  - apply list_eq. intros i. rewrite !list_lookup_fmap.
    destruct (pollers p !! i) as [s|] eqn:Hi.
    + destruct (Hsame i s Hi) as (s1 & s2 & -> & -> & Hal & _). simpl. by rewrite Hal.
    + assert (∀ l, pollers (run_cycles l p) !! i = None) as Hnone.
      { intros l0. apply lookup_ge_None. rewrite run_cycles_length. by apply lookup_ge_None. }
      by rewrite !Hnone.
Qed.
End pollers.
End Pollers.

(** ** The drivers of a start-up *)

Module StartedPollers.
Import WritePath LocalDriver Plant Pollers.
#[local] Existing Instances ModbusQueue.modbus_write_driver FinsQueue.FinsQueue.fins_write_driver.
Section started.
Context {U : UnicodeTables} {C : Chrono} {BY : Bytes} {B : ByteOrder} {J : SerdeJson}.
Context `{!HashIter ModbusFunction, !HashIter Z}.
Context {IO : WriteHandler.WriteIO} {N : Startup.Network} {MNet : ModbusIO} {FNet : FinsIO}.
Notation Driver := (ModbusQueue.Slot (Net := MNet) + FinsQueue.FinsQueue.Slot (Net := FNet))%type.

(** A poller runs a driver that was set up, on any network and in any state. *)
Definition runs (d : Startup.driver) (s : Poller (W := Driver)) : Prop :=
  match d, driver s with
  | Startup.ModbusDrv cfg _ _, inl slot =>
      ModbusConfig.mappings (ModbusQueue.config slot) = ModbusConfig.mappings cfg
  | Startup.FinsDrv cfg rgs _ _, inr slot =>
      FinsConfig.mappings (FinsQueue.FinsQueue.config slot) = FinsConfig.mappings cfg ∧
      FinsQueue.FinsQueue.read_groups slot = rgs
  | _, _ => False
  end.

Lemma runs_tags fuel plc d s id :
  Startup.driver_for fuel plc d → runs d s → id ∈ tags_of (driver s) → id ∈ Startup.tag_ids d.
Proof.
  destruct s as [[slot|slot] st], d as [cfg rgs tx p|cfg tx p]; simpl; try done.
  - intros _ Hm Hid. apply elem_of_list_to_set in Hid. rewrite <- Hm. exact Hid.
  - intros (_ & _ & _ & Hrg & _) [Hm Hg] Hid. apply elem_of_list_to_set, list_elem_of_fmap in Hid as (m & -> & Hin).
    apply list_elem_of_fmap_2. apply elem_of_app in Hin as [Hin|Hin].
    + rewrite <- Hm. exact Hin.
    + apply elem_of_concat in Hin as (ms & Hin & (g & -> & Hg')%list_elem_of_fmap).
      eapply FinsPlan.read_groups_mappings; [exact Hrg| |exact Hin]. rewrite <- Hg. exact Hg'.
Qed.

(** One writer per tag: after a successful start-up the pollers of the drivers keep to tags
    of their own, which are those of the definitions that name their PLC; so everything
    that is said of pollers side by side holds of them. *)
Theorem one_writer_per_tag (fuel : nat) (cfg : RuntimeConfig) (r : TagRegistry)
    (w : Startup.World) (ss : list (Poller (W := Driver))) :
  Startup.started fuel cfg r w → Forall2 runs (Startup.drivers w) ss →
  own_tags ss ∧
  ∀ i s d id, ss !! i = Some s → Startup.drivers w !! i = Some d → id ∈ tags_of (driver s) →
    ∃ def, TagRegistry.defs r !! id = Some def ∧
           TagDefinition.plc_name def = Startup.driver_name d.
Proof.
  intros Hst Hss.
  assert (∀ i s d id, ss !! i = Some s → Startup.drivers w !! i = Some d → id ∈ tags_of (driver s) →
    id ∈ Startup.tag_ids d) as Hids.
  { intros i s d id Hi Hd Hid.
    destruct (Forall2_lookup_r _ _ _ _ _ (Startup.st_drivers _ _ _ _ Hst) Hd) as (plc & _ & Hfor).
    eapply runs_tags; [exact Hfor| |exact Hid]. by eapply Forall2_lookup_lr. }
  split.
  - intros i j s s' Hne Hi Hj id Hid Hid'.
    destruct (Forall2_lookup_r _ _ _ _ _ Hss Hi) as (d & Hd & _).
    destruct (Forall2_lookup_r _ _ _ _ _ Hss Hj) as (d' & Hd' & _).
    destruct (Startup.started_tag_ids _ _ _ _ i d id Hst Hd (Hids i s d id Hi Hd Hid)) as [Hone _].
    apply Hne. symmetry. exact (Hone j d' Hd' (Hids j s' d' id Hj Hd' Hid')).
  - intros i s d id Hi Hd Hid.
    by apply (Startup.started_tag_ids _ _ _ _ i d id Hst Hd), (Hids i s).
Qed.
End started.
End StartedPollers.

(** ** Witnesses: the plant of [RoundTrip], and the start-up of [Startup] *)

Module PollersWitness.
Import TagThreads Locality WritePath LocalDriver Plant Pollers StartedPollers.
#[local] Existing Instances CratesRef.chrono_ref CratesRef.byteorder_ref CratesRef.bytes_ref
  CratesRef.json_ref RoundTrip.Witness.functions_iter RoundTrip.Witness.areas_iter
  ModbusQueue.modbus_write_driver FinsQueue.FinsQueue.fins_write_driver
  WriteHandler.write_io_ref Startup.lower_tables Startup.network_ref.
Notation Driver :=
  (ModbusQueue.Slot (Net := RoundTrip.Witness.plc_net) +
   FinsQueue.FinsQueue.Slot (Net := FinsRef.FinsRef.fins_io_ref))%type.

(** The Modbus PLC has the tags tank and flow, the FINS PLC speed, level and valve. *)
Definition plant : Plant Driver := RoundTrip.Witness.plant 0.
Definition client : prog CoreModel.answer := Do (CoreModel.Get "flow") Done.
Definition schedule : list nat := [0; 1; 0]%nat.
Definition tags_apart (s s' : Poller (W := Driver)) : bool :=
  bool_decide (tags_of (driver s) ∩ tags_of (driver s') = ∅).
Lemma own_tags_check (ss : list (Poller (W := Driver))) :
  (∀ i j s s', i ≠ j → ss !! i = Some s → ss !! j = Some s' → tags_apart s s' = true) → own_tags ss.
Proof.
  intros H i j s s' Hne Hi Hj. specialize (H i j s s' Hne Hi Hj).
  apply bool_decide_eq_true in H. set_solver.
Qed.
Lemma plant_own_tags : own_tags (pollers plant).
Proof.
  apply own_tags_check. intros [|[|i]] [|[|j]] s s' Hne Hi Hj; try done;
    injection Hi as <-; injection Hj as <-; vm_refl.
Qed.
Lemma client_reads : Forall (writes_in ∅) [client].
Proof. by repeat constructor. Qed.

(** Some execution of the two pollers and the client ends, and the first poller has then
    done what it does when its cycles come first. *)
Lemma pollers_serializable_witness :
  ∃ c s, rtc step (side_by_side schedule [client] plant) c ∧
    pollers (run_cycles [0; 0; 1]%nat plant) !! 0%nat = Some s ∧
    c.2 !! 0%nat = Some (Finished (inl (alone (reg plant) s))).
Proof.
  destruct (finishes _ (reg plant) _ RoundTrip.Witness.registry0_wf
    (programs_writers (TagRegistry.definitions (reg plant)) (reg plant) (times schedule)
       (pollers plant) [client] plant_own_tags client_reads)) as (r' & xs & Hs & Hl).
  destruct xs as [|x xs]; [discriminate Hl|].
  destruct (pollers_serializable plant schedule [client] (r', Finished <$> (x :: xs))
    RoundTrip.Witness.registry0_wf plant_own_tags client_reads Hs) as [Hdone _].
  destruct (Hdone [0; 0; 1]%nat 0%nat _ x
    (perm_skip 0%nat (perm_swap 1%nat 0%nat [])) eq_refl eq_refl) as (s & Hp & -> & _).
  exists (r', Finished <$> (inl (alone (reg plant) s) :: xs)), s.
  split; [exact Hs|]. split; [exact Hp|reflexivity].
Defined.

Lemma cycles_order_irrelevant_witness :
  same_plant (reg plant) (run_cycles [0; 1]%nat plant) (run_cycles [1; 0]%nat plant).
Proof.
  exact (cycles_order_irrelevant plant [0; 1]%nat [1; 0]%nat RoundTrip.Witness.registry0_wf
    plant_own_tags (perm_swap 1%nat 0%nat [])).
Defined.

(** Pollers of the drivers that [Startup.booted] set up, on the networks of [RoundTrip]. *)
Definition installed (d : Startup.driver) : Poller (W := Driver) :=
  {| state := Running;
     driver :=
       match d with
       | Startup.ModbusDrv cfg _ _ =>
           inl (ModbusQueue.mkSlot (Net := RoundTrip.Witness.plc_net)
             (ModbusConfig.new (ModbusConfig.name cfg) tt (ModbusConfig.unit_id cfg)
                (ModbusConfig.cycle_ms cfg) (ModbusConfig.mappings cfg)) 1
             (ModbusQueue.world RoundTrip.Witness.slot))
       | Startup.FinsDrv cfg rgs _ _ =>
           inr (FinsQueue.FinsQueue.mkSlot (Net := FinsRef.FinsRef.fins_io_ref)
             (FinsConfig.new (FinsConfig.name cfg) tt (FinsConfig.cycle_ms cfg) (FinsConfig.mappings cfg)) rgs 1
             (FinsQueue.FinsQueue.world RoundTrip.Witness.fins_slot))
       end |}.
Lemma installed_runs ds : Forall2 runs ds (installed <$> ds).
Proof. induction ds as [|[] ds IH]; simpl; constructor; done. Qed.
Lemma one_writer_per_tag_witness : own_tags (installed <$> Startup.drivers Startup.booted.2).
Proof.
  destruct Startup.plant_started as [cfg Hst].
  destruct (one_writer_per_tag 1 cfg Startup.plant_registry Startup.booted.2
    (installed <$> Startup.drivers Startup.booted.2) Hst
    (installed_runs (Startup.drivers Startup.booted.2))) as [Hown _].
  exact Hown.
Defined.
End PollersWitness.
