(* ===== verification/ArrivingPollers.v ===== *)
(** * The pollers side by side, with requests that arrive at any moment

    [Pollers] interleaves the pollers' accesses to the registry, [PlantArrivals] the
    arrivals in their queues with their steps.  Here both happen at once: a driver with
    the arrivals of its cycles to come is a driver again, to which [Pollers] applies. *)

From stdpp Require Import base tactics numbers list gmap strings relations.
From S2P Require Import Prelude Effects RustStd RustStr RustSlice RustMap RustText Crates CratesRef TagValue Tag TagDefinition TagStore Registry RegistryRef CoreModel TagThreads DriverWorld Locality ModbusTypes ModbusPlan ModbusDriver ModbusLocal FinsTypes FinsPlan FinsDriver FinsRef FinsLocal DriverApi WritePath ModbusQueue FinsQueue ModbusArrivals FinsArrivals WriteHandler System RoundTrip PlantArrivals Pollers.

Module LocalArriving.
Import TagThreads Locality WritePath LocalDriver ArrivingDriver.

(** A cycle with arrivals is a program on the driver's own tags, as one without. *)
Class LocalArriving {C : Chrono} {J : SerdeJson} (W : Type) {WD : WriteDriver W}
    {AD : ArrivingDriver W} {LD : LocalDriver W} := {
  arriving_prog : TagDefinitionStore → list (list Request) → W → prog (outcome string unit * W);
  arriving_touches D cs w : touches (tags_of w) (arriving_prog D cs w);
  arriving_yields D cs w : yields (λ x, tags_of x.2 = tags_of w) (arriving_prog D cs w);
  arriving_runs D cs w r x r' :
    TagRegistry.wf r → TagRegistry.definitions r = D →
    run_prog r (arriving_prog D cs w) = Some (x, r') →
    cycle_arriving cs (set_registry r w) = (x.1, set_registry r' x.2);
}.

Section modbus.
Context {C : Chrono} {BY : Bytes} {B : ByteOrder} {J : SerdeJson} {Net : ModbusIO}.
Context `{!HashIter ModbusFunction}.
Import ModbusQueue ModbusArrivals.

Definition modbus_arriving_local (D : TagDefinitionStore) (s : Slot (Net := Net)) :
  local (ModbusDriver.set_registry (IO := arriving Net)) D (modbus_tags s)
    (ProtocolDriver.boxed ModbusError.to_string
       (ModbusDriver.run_read_cycle_impl (IO := arriving Net) (config s) (fuel s))).
Proof.
  apply local_boxed, ModbusLocal.modbus_local_cycle. intros m Hm. unfold modbus_tags.
  rewrite elem_of_list_to_set. by apply list_elem_of_fmap_2.
Defined.
Definition modbus_arriving_prog (D : TagDefinitionStore) (cs : list (list Request)) (s : Slot (Net := Net))
    : prog (outcome string unit * Slot) :=
  bind (tree (modbus_arriving_local D s) (opened (map (map modbus_request) cs) (world s)))
    (λ x, Done (x.1, set_world (settled x.2) s)).

#[export] Program Instance modbus_local_arriving :
  LocalArriving Slot (WD := modbus_write_driver) (AD := modbus_arriving_driver) (LD := modbus_local_driver) := {|
  arriving_prog := modbus_arriving_prog;
|}.
Next Obligation. intros D cs s. apply bind_touches; [apply tree_touches|done]. Qed.
Next Obligation. intros D cs s. apply (yields_bind (λ _, True)); [|done]. by induction (tree _ _). Qed.
Next Obligation.
  intros D cs s r x r' Hwf HD Hrun. unfold modbus_arriving_prog in Hrun. rewrite run_prog_bind in Hrun.
  destruct (run_prog r (tree _ _)) as [[y r1]|] eqn:H1; [|done]. injection Hrun as <- <-.
  set (w0 := opened (map (map modbus_request) cs) (world s)) in *.
  set (m := ProtocolDriver.boxed ModbusError.to_string
    (ModbusDriver.run_read_cycle_impl (IO := arriving Net) (config s) (fuel s))).
  assert (m (ModbusDriver.set_registry r w0) = (y.1, ModbusDriver.set_registry r1 y.2)) as Hc
    by exact (tree_runs (modbus_arriving_local D s) w0 r y r1 Hwf HD H1).
  transitivity (let '(o, w) := m (ModbusDriver.set_registry r w0) in (o, set_world (settled w) s));
    [reflexivity|]. by rewrite Hc.
Qed.
End modbus.

Section fins.
Context {C : Chrono} {BY : Bytes} {B : ByteOrder} {J : SerdeJson} {Net : FinsIO}.
Context `{!HashIter Z}.
Import FinsQueue FinsArrivals.

Definition fins_arriving_local (D : TagDefinitionStore) (s : Slot (Net := Net)) :
  local (FinsDriver.set_registry (IO := arriving Net)) D (fins_tags s)
    (ProtocolDriver.boxed FinsError.to_string
       (FinsDriver.run_read_cycle_impl (IO := arriving Net) (config s) (read_groups s) (fuel s))).
Proof.
  apply local_boxed, FinsLocal.fins_local_cycle; [apply fins_own_mappings|apply fins_own_groups].
Defined.
Definition fins_arriving_prog (D : TagDefinitionStore) (cs : list (list Request)) (s : Slot (Net := Net))
    : prog (outcome string unit * Slot) :=
  bind (tree (fins_arriving_local D s) (opened (map (map fins_request) cs) (world s)))
    (λ x, Done (x.1, set_world (settled x.2) s)).

#[export] Program Instance fins_local_arriving :
  LocalArriving Slot (WD := fins_write_driver) (AD := fins_arriving_driver) (LD := fins_local_driver) := {|
  arriving_prog := fins_arriving_prog;
|}.
Next Obligation. intros D cs s. apply bind_touches; [apply tree_touches|done]. Qed.
Next Obligation. intros D cs s. apply (yields_bind (λ _, True)); [|done]. by induction (tree _ _). Qed.
Next Obligation.
  intros D cs s r x r' Hwf HD Hrun. unfold fins_arriving_prog in Hrun. rewrite run_prog_bind in Hrun.
  destruct (run_prog r (tree _ _)) as [[y r1]|] eqn:H1; [|done]. injection Hrun as <- <-.
  set (w0 := opened (map (map fins_request) cs) (world s)) in *.
  set (m := ProtocolDriver.boxed FinsError.to_string
    (FinsDriver.run_read_cycle_impl (IO := arriving Net) (config s) (read_groups s) (fuel s))).
  assert (m (FinsDriver.set_registry r w0) = (y.1, FinsDriver.set_registry r1 y.2)) as Hc
    by exact (tree_runs (fins_arriving_local D s) w0 r y r1 Hwf HD H1).
  transitivity (let '(o, w) := m (FinsDriver.set_registry r w0) in (o, set_world (settled w) s));
    [reflexivity|]. by rewrite Hc.
Qed.
End fins.

Section sum.
Context {C : Chrono} {J : SerdeJson} {W1 W2 : Type}.
Context {D1 : WriteDriver W1} {D2 : WriteDriver W2} {A1 : ArrivingDriver W1} {A2 : ArrivingDriver W2}.
Context {L1 : LocalDriver W1} {L2 : LocalDriver W2} {LA1 : LocalArriving W1} {LA2 : LocalArriving W2}.
Definition sum_arriving_prog (D : TagDefinitionStore) (cs : list (list Request)) (w : W1 + W2)
    : prog (outcome string unit * (W1 + W2)) :=
  match w with
  | inl w => bind (arriving_prog D cs w) (λ x, Done (x.1, inl x.2))
  | inr w => bind (arriving_prog D cs w) (λ x, Done (x.1, inr x.2))
  end.
#[export] Program Instance sum_local_arriving : LocalArriving (W1 + W2) := {|
  arriving_prog := sum_arriving_prog;
|}.
Next Obligation. intros D cs [w|w]; (apply bind_touches; [exact (arriving_touches D cs w)|done]). Qed.
Next Obligation. intros D cs [w|w]; (eapply yields_bind; [exact (arriving_yields D cs w)|]); by intros x Hx. Qed.
Next Obligation.
  intros D cs [w|w] r x r' Hwf HD Hrun; simpl in Hrun; rewrite run_prog_bind in Hrun;
    (destruct (run_prog r (arriving_prog D cs w)) as [[y r1]|] eqn:H1; [|done]; injection Hrun as <- <-;
     simpl; by rewrite (arriving_runs D cs w r y r1 Hwf HD H1)).
Qed.
End sum.
End LocalArriving.

(** ** Drivers with the arrivals of their cycles to come *)

Module Scheduled.
Import TagThreads Locality WritePath LocalDriver ArrivingDriver LocalArriving.
Section scheduled.
Context {C : Chrono} {J : SerdeJson} {W : Type} {WD : WriteDriver W} {AD : ArrivingDriver W}.
Context {LD : LocalDriver W} {LA : LocalArriving W}.

(** A driver, and for each cycle to come the requests that arrive during it. *)
Record Scheduled := mkScheduled { slot : W; coming : list (list (list Request)) }.
Definition on_slot (d : W) (s : Scheduled) : Scheduled := {| slot := d; coming := coming s |}.

(** The requests that are to come, and the one with a given reply channel. *)
Definition to_come (s : Scheduled) : list Request := concat (concat (coming s)).
Definition asked (l : list Request) (c : nat) : option (string * TagValue) :=
  (λ r, (id r, value r)) <$> request_on reply l c.
Definition first_of {A} (x y : option A) : option A := match x with Some a => Some a | None => y end.

Lemma asked_cons r l c : asked (r :: l) c = if decide (reply r = Some c) then Some (id r, value r) else asked l c.
Proof. unfold asked, request_on. rewrite filter_cons. by case_decide. Qed.
Lemma asked_app l l' c : asked (l ++ l') c = first_of (asked l c) (asked l' c).
Proof. induction l as [|r l IH]; [done|]. simpl app. rewrite !asked_cons. by case_decide. Qed.
Lemma asked_in l c x : asked l c = Some x → c ∈ omap reply l.
Proof.
  induction l as [|r l IH]; [done|]. rewrite asked_cons. simpl. case_decide as Hr.
  - rewrite Hr. intros _. by left.
  - intros H%IH. destruct (reply r); [by right|done].
Qed.

(** Channels of requests that are all different, and unknown to the driver. *)
Definition fresh (w : W) (l : list Request) : Prop :=
  NoDup (omap reply l) ∧ ∀ c, c ∈ omap reply l → requested w c = None.

Lemma fresh_app w l l' : fresh w (l ++ l') → fresh w l ∧ fresh w l' ∧ ∀ c, c ∈ omap reply l → c ∉ omap reply l'.
Proof.
  intros [Hnd Hf]. rewrite omap_app in Hnd, Hf. apply NoDup_app in Hnd as (H1 & H2 & H3).
  split; [split; [done|]; set_solver|]. split; [split; [done|]; set_solver|done].
Qed.
Lemma fresh_same w w' l : (∀ c, c ∈ omap reply l → requested w' c = requested w c) → fresh w l → fresh w' l.
Proof. intros He [Hnd Hf]. split; [done|]. intros c Hc. rewrite He by done. by apply Hf. Qed.

Lemma arrive_all l w :
  sound w → fresh w l →
  sound (arrive l w) ∧ ∀ c, requested (arrive l w) c = first_of (requested w c) (asked l c).
Proof.
  revert w. induction l as [|r l IH]; intros w Hw Hf.
  { rewrite arrive_nil. split; [done|]. intros c. by destruct (requested w c). }
  change (r :: l) with ([r] ++ l) in Hf |- *. rewrite arrive_app.
  destruct (fresh_app _ _ _ Hf) as ([_ Hr] & Hl & Hdis).
  destruct (arrive_one r w Hw) as [Hs Hreq].
  { intros c Hc. apply Hr. simpl. rewrite Hc. by left. }
  destruct (IH (arrive [r] w) Hs) as [Hs' Hreq'].
  { eapply fresh_same; [|exact Hl]. intros c Hc. rewrite Hreq, decide_False; [done|].
    intros Hrc. apply (Hdis c); [|done]. simpl. rewrite Hrc. by left. }
  split; [done|]. intros c. rewrite Hreq', Hreq. simpl app. rewrite asked_cons.
  case_decide as Hrc; [|done]. simpl. rewrite Hr; [done|]. simpl. rewrite Hrc. by left.
Qed.

(** A cycle with arrivals, in a sound driver. *)
Lemma cycle_arriving_ok cs w :
  sound w → fresh w (concat cs) →
  sound (cycle_arriving cs w).2 ∧
  ∀ c, requested (cycle_arriving cs w).2 c = first_of (requested w c) (asked (concat cs) c).
Proof.
  intros Hw Hf. destruct (cycle_splits cs w) as (before & after & Hc & ->). rewrite Hc in Hf |- *.
  destruct (fresh_app _ _ _ Hf) as (Hb & Ha & Hdis).
  destruct (arrive_all before w Hw Hb) as [Hs1 Hr1]. destruct (cycle_ok _ Hs1) as [Hs2 Hr2]. simpl.
  destruct (arrive_all after (cycle (arrive before w)).2 Hs2) as [Hs3 Hr3].
  { eapply fresh_same; [|exact Ha]. intros c Hc'. rewrite Hr2, Hr1.
    destruct (asked before c) eqn:Hasked; [|by destruct (requested w c)].
    apply asked_in in Hasked. by destruct (Hdis c). }
  split; [done|]. intros c. rewrite Hr3, Hr2, Hr1, asked_app. by destruct (requested w c), (asked before c).
Qed.
Lemma cycle_arriving_none w : cycle_arriving [] w = cycle w.
Proof.
  destruct (cycle_splits [] w) as (before & after & Hc & ->).
  symmetry in Hc. apply app_eq_nil in Hc as [-> ->]. rewrite !arrive_nil. by destruct (cycle w).
Qed.

(** *** It is a driver *)

Definition next_cycle (s : Scheduled) : list (list Request) * list (list (list Request)) :=
  match coming s with [] => ([], []) | cs :: rest => (cs, rest) end.
Definition scheduled_cycle (s : Scheduled) : outcome string unit * Scheduled :=
  let '(o, d) := cycle_arriving (next_cycle s).1 (slot s) in
  (o, {| slot := d; coming := (next_cycle s).2 |}).
Lemma to_come_next s : to_come s = concat (next_cycle s).1 ++ concat (concat (next_cycle s).2).
Proof. unfold to_come, next_cycle. destruct (coming s); [done|]. simpl. by rewrite concat_app. Qed.

Record scheduled_sound (s : Scheduled) : Prop := {
  ss_slot : sound (slot s);
  ss_fresh : fresh (slot s) (to_come s);
}.
Definition scheduled_requested (s : Scheduled) (c : nat) : option (string * TagValue) :=
  first_of (requested (slot s) c) (asked (to_come s) c).
Definition scheduled_submit (i : string) (v : TagValue) (c : option nat) (s : Scheduled) : option Scheduled :=
  d ← submit i v c (slot s); Some (on_slot d s).

Lemma scheduled_submit_ok i v c s s' :
  scheduled_sound s → (∀ c', c = Some c' → scheduled_requested s c' = None) →
  scheduled_submit i v c s = Some s' →
  scheduled_sound s' ∧ registry (slot s') = registry (slot s) ∧
  (∀ c', scheduled_requested s' c' = if decide (c = Some c') then Some (i, v) else scheduled_requested s c') ∧
  ∀ c', answer (slot s') c' = answer (slot s) c'.
Proof.
  intros [Hs Hf] Hc Hsub. unfold scheduled_submit in Hsub.
  destruct (submit i v c (slot s)) as [d|] eqn:Hd; [|done]. injection Hsub as <-.
  assert (∀ c', c = Some c' → requested (slot s) c' = None ∧ asked (to_come s) c' = None) as Hnone.
  { intros c' H. specialize (Hc c' H). unfold scheduled_requested in Hc. by destruct (requested (slot s) c'). }
  destruct (submit_ok i v c (slot s) d Hs) as (Hs' & Hreg & Hreq & Hans);
    [intros c' H; by apply Hnone|done|].
  split; [split; [done|]|split; [done|split; [|done]]].
  - eapply fresh_same; [|exact Hf]. intros c' Hin. simpl. rewrite Hreq, decide_False; [done|].
    intros ->. destruct (Hnone c' eq_refl) as [_ Ha]. apply fmap_None in Ha.
    unfold request_on in Ha. apply head_None in Ha.
    apply list_elem_of_omap in Hin as (r & Hr & Hrc).
    assert (r ∈ filter (λ req, reply req = Some c') (to_come s)) as Hin by by (apply list_elem_of_filter; split; [exact Hrc|exact Hr]).
    rewrite Ha in Hin. by apply not_elem_of_nil in Hin.
  - intros c'. unfold scheduled_requested. simpl. rewrite Hreq. by case_decide.
Qed.

Lemma scheduled_cycle_ok s :
  scheduled_sound s → scheduled_sound (scheduled_cycle s).2 ∧
  ∀ c, scheduled_requested (scheduled_cycle s).2 c = scheduled_requested s c.
Proof.
  intros [Hs Hf]. unfold scheduled_cycle, scheduled_requested. rewrite (to_come_next s) in Hf |- *.
  destruct (fresh_app _ _ _ Hf) as (Hc & Hrest & Hdis).
  destruct (cycle_arriving_ok _ _ Hs Hc) as [Hs' Hreq].
  destruct (cycle_arriving (next_cycle s).1 (slot s)) as [o d]. simpl in *.
  split; [split; [done|]|].
  - unfold to_come. simpl. eapply fresh_same; [|exact Hrest]. intros c Hin. simpl. rewrite Hreq.
    destruct (asked (concat (next_cycle s).1) c) eqn:Ha; [|by destruct (requested (slot s) c)].
    apply asked_in in Ha. by destruct (Hdis c).
  - intros c. unfold to_come. simpl. rewrite Hreq, asked_app. by destruct (requested (slot s) c).
Qed.

#[export] Program Instance scheduled_driver : WriteDriver Scheduled := {|
  registry s := registry (slot s);
  set_registry r s := on_slot (set_registry r (slot s)) s;
  submit := scheduled_submit;
  cycle := scheduled_cycle;
  requested := scheduled_requested;
  answer s := answer (slot s);
  written s := written (slot s);
  sound := scheduled_sound;
  submit_ok := scheduled_submit_ok;
  cycle_ok := scheduled_cycle_ok;
|}.
Next Obligation. intros s [Hs _]. by apply sound_registry. Qed.
Next Obligation. intros r s. apply registry_set. Qed.
Next Obligation.
  intros r s [Hs Hf] Hr. split; [by apply sound_set|]. eapply fresh_same; [|exact Hf].
  intros c _. apply requested_set.
Qed.
Next Obligation. intros r s c. unfold scheduled_requested. simpl. by rewrite requested_set. Qed.
Next Obligation. intros r s c. apply answer_set. Qed.
Next Obligation.
  intros s c r [Hs _] Ha. destruct (answer_ok (slot s) c r Hs Ha) as (i & v & Hr & Hw).
  exists i, v. split; [|done]. unfold scheduled_requested. by rewrite Hr.
Qed.

Definition scheduled_prog (D : TagDefinitionStore) (s : Scheduled) : prog (outcome string unit * Scheduled) :=
  bind (arriving_prog D (next_cycle s).1 (slot s)) (λ x,
    Done (x.1, {| slot := x.2; coming := (next_cycle s).2 |})).
#[export] Program Instance scheduled_local : LocalDriver Scheduled (WD := scheduled_driver) := {|
  tags_of s := tags_of (slot s);
  cycle_prog := scheduled_prog;
|}.
Next Obligation. intros D s. apply bind_touches; [apply arriving_touches|done]. Qed.
Next Obligation. intros D s. eapply yields_bind; [apply arriving_yields|]. by intros x Hx. Qed.
Next Obligation.
  intros D s r x r' Hwf HD Hrun. unfold scheduled_prog in Hrun. rewrite run_prog_bind in Hrun.
  destruct (run_prog r (arriving_prog D (next_cycle s).1 (slot s))) as [[y r1]|] eqn:H1; [|done].
  injection Hrun as <- <-. simpl. unfold scheduled_cycle. simpl.
  change (next_cycle (on_slot (set_registry r (slot s)) s)) with (next_cycle s).
  by rewrite (arriving_runs _ _ _ _ _ _ Hwf HD H1).
Qed.
Next Obligation. intros r r' s. simpl. unfold on_slot. simpl. by rewrite set_registry_twice. Qed.
Next Obligation. intros r s. apply tags_of_set. Qed.
End scheduled.
Arguments Scheduled : clear implicits.
Arguments Scheduled {_} W.
End Scheduled.

(** ** The plant *)

Module ArrivingPollers.
Import TagThreads Locality WritePath LocalDriver ArrivingDriver LocalArriving Scheduled Plant PlantArrivals Pollers.
Section plant.
Context {C : Chrono} {J : SerdeJson} {W : Type} {WD : WriteDriver W} {AD : ArrivingDriver W}.
Context {LD : LocalDriver W} {LA : LocalArriving W}.

(** The plant without the arrivals to come. *)
Definition unscheduled (s : Poller (W := Scheduled W)) : Poller (W := W) :=
  {| driver := slot (driver s); state := state s |}.
Definition now (p : Plant (Scheduled W)) : Plant W :=
  {| reg := reg p; pollers := unscheduled <$> pollers p; next := next p; Plant.waits := Plant.waits p |}.
(** What arrives during the next cycle of the poller [i], and during the cycles of a
    schedule. *)
Definition next_arrivals (i : nat) (p : Plant (Scheduled W)) : list (list Request) :=
  match pollers p !! i with
  | Some {| driver := s; state := Running |} => (next_cycle s).1
  | _ => []
  end.
Fixpoint with_arrivals (l : list nat) (p : Plant (Scheduled W)) : list (nat * list (list Request)) :=
  match l with
  | [] => []
  | i :: l => (i, next_arrivals i p) :: with_arrivals l (run_cycle i p)
  end.

Lemma arrive_at_none i (p : Plant W) : arrive_at i [] p = p.
Proof.
  unfold arrive_at. destruct p as [r ss n ws]. simpl. f_equal.
  apply list_alter_id. intros [d st]. simpl. by rewrite arrive_nil.
Qed.

Lemma run_cycle_now i p : now (run_cycle i p) = run_cycle_arriving i (next_arrivals i p) (now p).
Proof.
  unfold run_cycle, run_cycle_arriving, next_arrivals. simpl. rewrite list_lookup_fmap.
  destruct (pollers p !! i) as [[s st]|] eqn:Hi; simpl; [|by rewrite arrive_at_none].
  destruct st; simpl; [|by rewrite arrive_at_none..].
  unfold scheduled_cycle. simpl. unfold next_cycle. simpl.
  destruct (cycle_arriving _ (set_registry (reg p) (slot s))) as [o d]. simpl.
  unfold now. simpl. f_equal. by rewrite list_fmap_insert.
Qed.
Lemma run_cycles_now l p : now (run_cycles l p) = run_arriving (with_arrivals l p) (now p).
Proof.
  revert p. induction l as [|i l IH]; intros p; [done|]. simpl. by rewrite IH, run_cycle_now.
Qed.

(** ** Property *)

(** C8: the running system, with everything that can interleave: the pollers run their cycles
    at once, next to clients that read the registry, and requests arrive in their queues
    at any moment of their cycles.  A poller that is done has done what it does when the
    cycles run one after the other, in any order of them, and the requests arrive between
    them, in the order they came in, some of those of a cycle before it and the rest after
    it: the outcome, the connection, the queue, the whole log, and its tags.  A tag of no
    poller is as it was, the registry stays consistent, nobody is ever stuck, and every
    execution ends. *)
Theorem running_system_serial {R} (p : Plant (Scheduled W)) (l : list nat) (clients : list (prog R))
    (c : config (Poller + R)) :
  TagRegistry.wf (reg p) → own_tags (pollers p) → Forall (writes_in ∅) clients →
  rtc step (side_by_side l clients p) c →
  (∀ l', l' ≡ₚ l → ∃ ls, parted (with_arrivals l' p) ls ∧
     ∀ i s x, pollers p !! i = Some s → c.2 !! i = Some (Finished x) →
       ∃ s' s1, pollers (run_between ls (now p)) !! i = Some s' ∧
         x = inl s1 ∧ unscheduled s1 = alone (reg p) s' ∧
         ∀ id, id ∈ tags_of (driver s) →
           TagRegistry.view c.1 !! id = TagRegistry.view (reg (run_between ls (now p))) !! id) ∧
  (∀ id, (∀ s, s ∈ pollers p → id ∉ tags_of (driver s)) →
     TagRegistry.view c.1 !! id = TagRegistry.view (reg p) !! id) ∧
  TagRegistry.wf c.1 ∧ TagRegistry.definitions c.1 = TagRegistry.definitions (reg p) ∧
  (∀ i s k, c.2 !! i = Some (TagThreads.Running s k) → ∃ y r', advance c.1 s = Some (y, r')) ∧
  sn step c.
Proof.
  intros Hwf Hown Hcl Hs.
  destruct (pollers_serializable p l clients c Hwf Hown Hcl Hs) as [Hserial Hrest]. split; [|exact Hrest].
  intros l' Hl. destruct (run_arriving_between (with_arrivals l' p) (now p)) as (ls & Hls & Hrun).
  exists ls. split; [done|]. intros i s x Hi Hx.
  destruct (Hserial l' i s x Hl Hi Hx) as (s' & Hs' & -> & Hm).
  rewrite <- Hrun, <- run_cycles_now. exists (unscheduled s'), (alone (reg p) s').
  split; [simpl; by rewrite list_lookup_fmap, Hs'|]. split; [done|]. split; [done|]. exact Hm.
Qed.
End plant.
End ArrivingPollers.

(** ** The plant of [RoundTrip], both pollers at work, with requests on their way *)

Module ArrivingWitness.
Import TagThreads Locality WritePath LocalDriver ArrivingDriver LocalArriving Scheduled Plant PlantArrivals Pollers ArrivingPollers.
#[local] Existing Instances CratesRef.chrono_ref CratesRef.byteorder_ref CratesRef.bytes_ref
  CratesRef.json_ref RoundTrip.Witness.functions_iter RoundTrip.Witness.areas_iter
  ModbusQueue.modbus_write_driver FinsQueue.FinsQueue.fins_write_driver.
Notation Driver :=
  (ModbusQueue.Slot (Net := RoundTrip.Witness.plc_net) +
   FinsQueue.FinsQueue.Slot (Net := FinsRef.FinsRef.fins_io_ref))%type.

(** In its first cycle the Modbus driver gets a request before it looks at its queue and
    one while it writes; the second cycle is undisturbed. *)
Definition arrivals_of (i : nat) : list (list (list Request)) :=
  match i with
  | O => [[[ArrivalsWitness.request 0]; [ArrivalsWitness.request 1]]; []]
  | S _ => []
  end.
Definition plant : Plant (Scheduled Driver) :=
  {| reg := RoundTrip.Witness.registry0;
     pollers := imap (λ i s, {| driver := mkScheduled (driver s) (arrivals_of i); state := state s |})
                  (pollers ArrivalsWitness.plant);
     next := 2; Plant.waits := [] |}.
Definition client : prog CoreModel.answer := PollersWitness.client.
Definition schedule : list nat := PollersWitness.schedule.

Lemma plant_own : own_tags (pollers plant).
Proof.
  intros i j s s' Hne Hi Hj. unfold plant in Hi, Hj. cbn [pollers] in Hi, Hj.
  rewrite list_lookup_imap in Hi, Hj.
  apply fmap_Some in Hi as (s0 & Hi & ->). apply fmap_Some in Hj as (s1 & Hj & ->).
  exact (PollersWitness.plant_own_tags i j s0 s1 Hne Hi Hj).
Qed.

Lemma running_system_serial_witness :
  ∃ c ls s s1, rtc step (side_by_side schedule [client] plant) c ∧
    parted (with_arrivals [0; 0; 1]%nat plant) ls ∧
    pollers (run_between ls (now plant)) !! 0%nat = Some s ∧
    c.2 !! 0%nat = Some (Finished (inl s1)) ∧ unscheduled s1 = alone (reg plant) s.
Proof.
  destruct (finishes _ (reg plant) _ RoundTrip.Witness.registry0_wf
    (programs_writers (TagRegistry.definitions (reg plant)) (reg plant) (times schedule)
       (pollers plant) [client] plant_own PollersWitness.client_reads)) as (r' & xs & Hs & Hl).
  destruct xs as [|x xs]; [discriminate Hl|].
  destruct (running_system_serial plant schedule [client] (r', Finished <$> (x :: xs))
    RoundTrip.Witness.registry0_wf plant_own PollersWitness.client_reads Hs) as [Hserial _].
  destruct (Hserial _ (perm_skip 0%nat (perm_swap 1%nat 0%nat []))) as (ls & Hls & Hdone).
  destruct (Hdone 0%nat _ x eq_refl eq_refl) as (s & s1 & Hp & -> & Hun & _).
  exists (r', Finished <$> (inl s1 :: xs)), ls, s, s1.
  split; [exact Hs|]. split; [exact Hls|]. split; [exact Hp|]. split; [reflexivity|exact Hun].
Defined.
End ArrivingWitness.
