(* ===== verification/StartedSystem.v ===== *)
(** * From start-up to the running system

    The theorems about the path of a write and about the pollers side by side speak of a
    plant in a sound state.  Here the plant is the one that start-up sets up: each driver
    with its queue, numbered in the order in which they are made, any networks behind
    them.  It is sound, its pollers keep to tags of their own, and every write route leads
    to the poller whose driver has the tag. *)

From stdpp Require Import base tactics numbers list gmap strings.
From S2P Require Import Prelude Effects RustStd RustStr RustSlice RustMap RustText Crates CratesRef TagValue Tag TagDefinition TagStore Registry RegistryRef DriverWorld ModbusTypes ModbusPlan ModbusDriver FinsTypes FinsPlan FinsDriver FinsRef DriverApi WritePath ModbusQueue FinsQueue OpcUaConfig OpcUaValue OpcUaWrites RuntimeConfig RuntimeTags WriteHandler Startup OpcUaSource OpcUaBridge System RoundTrip Pollers.
Local Open Scope Z_scope.

Module StartedSystem.
Import WritePath LocalDriver Plant PlantHandler Pollers StartedPollers.
#[local] Existing Instances ModbusQueue.modbus_write_driver FinsQueue.FinsQueue.fins_write_driver.
Section started.
Context {U : UnicodeTables} {C : Chrono} {BY : Bytes} {B : ByteOrder} {J : SerdeJson}.
Context `{!HashIter ModbusFunction, !HashIter Z} {F : RuntimeConfig.Formats}.
Context {MNet : ModbusIO} {FNet : FinsIO}.
Notation Driver := (ModbusQueue.Slot (Net := MNet) + FinsQueue.FinsQueue.Slot (Net := FNet))%type.
#[local] Instance started_io : WriteHandler.WriteIO := plant_io (W := Driver).

(** ** Queues by number *)

(** Name resolution with a state of its own. *)
Context {Resolver : Type} (lookup : string → Resolver → result (list SocketAddr) string * Resolver).
(** The queue of a driver is known by its number, which is that of its poller. *)
#[local] Instance numbered : Startup.Network := {|
  Startup.Env := Resolver * nat;
  Startup.lookup_host host e := let '(r, s) := lookup host e.1 in (r, (s, e.2));
  Startup.fins_channel e := (e.2, (e.1, S e.2));
  Startup.modbus_channel e := (e.2, (e.1, S e.2));
  Startup.health_channel := Startup.bounded_channel;
  Startup.health_channel_spec := Startup.bounded_channel_spec;
  Startup.max_permits_enough := Startup.usize_permits_enough;
|}.

Definition number_of (d : Startup.driver) : nat := poller_of (Startup.queue_of d).
(** As many queues as drivers, each with the number of its driver. *)
Definition numbered_drivers (w : Startup.World) : Prop :=
  (Startup.env w).2 = length (Startup.drivers w) ∧
  ∀ i d, Startup.drivers w !! i = Some d → number_of d = i.

Lemma routes_env {A} (f : string → A → WriteHandler.RuntimeWriteHandler → WriteHandler.RuntimeWriteHandler)
    (s : A) (tags : list TagConfig) (w : Startup.World) :
  wp (for_each (λ t, Startup.set_handler (f (TagConfig.id t) s)) tags)
     (λ o w', o = Ret tt ∧ Startup.env w' = Startup.env w ∧ Startup.drivers w' = Startup.drivers w) w.
Proof.
  revert w. induction tags as [|t tags IH]; intros w; simpl; [by apply wp_ret|].
  apply wp_bind. unfold wp at 1. simpl. eapply wp_mono; [apply IH|]. by intros o w' (-> & -> & ->).
Qed.

Lemma resolve_env hp name w :
  wp (Startup.resolve_endpoint hp name)
     (λ o w', (Startup.env w').2 = (Startup.env w).2 ∧ Startup.drivers w' = Startup.drivers w) w.
Proof.
  unfold Startup.resolve_endpoint. apply wp_bind. unfold wp at 1, Startup.env_op. simpl.
  destruct (lookup hp (Startup.env w).1) as [[addrs|e] s]; simpl.
  - apply wp_bind, wp_ret. simpl. destruct addrs; [apply wp_throw|apply wp_ret]; done.
  - apply wp_bind, wp_throw. done.
Qed.

Lemma push_numbered w w' d n :
  numbered_drivers w → number_of d = n → n = (Startup.env w).2 →
  (Startup.env w').2 = S n → Startup.drivers w' = Startup.drivers w ++ [d] → numbered_drivers w'.
Proof.
  intros [Hn Hi] Hd -> He Hw'. split; [rewrite He, Hw', length_app; simpl; lia|].
  intros i d'. rewrite Hw'. intros [Hl|[Hge Hl]]%lookup_app_Some; [by apply Hi|].
  apply list_lookup_singleton_Some in Hl as [Heq <-]. lia.
Qed.

Notation keeps_numbers := (λ o w', o = Ret tt → numbered_drivers w').

Lemma setup_fins_numbered fuel plc w :
  numbered_drivers w → wp (Startup.setup_fins_driver fuel plc) keeps_numbers w.
Proof.
  intros Hw. unfold Startup.setup_fins_driver. apply wp_bind. eapply wp_mono; [apply resolve_env|].
  intros o w1 (He1 & Hd1). destruct o as [addr|e| |]; simpl; [|done..].
  apply wp_bind. destruct (Startup.convert_tags _ _ _) as [ms|e]; [|by apply wp_throw].
  apply wp_ret. simpl. destruct (FinsPlan.read_groups _ ms fuel) as [rgs|]; [|by apply wp_pending].
  apply wp_bind. unfold wp at 1, Startup.env_op. simpl.
  apply wp_bind. destruct (FinsPlan.validate ms) as [[]|e]; [|by apply wp_throw].
  apply wp_ret. simpl. apply wp_bind.
  eapply wp_mono; [apply (routes_env (λ id s h, WriteHandler.add_route_for_fins h id s))|]. simpl.
  intros o w2 (-> & He2 & Hd2). simpl. unfold wp. simpl. intros _.
  apply (push_numbered w _ (Startup.FinsDrv (IO := started_io) (Startup.fins_config plc addr ms) rgs
    (Startup.env w1).2 (Startup.poller_of plc)) (Startup.env w1).2); [done|done|exact He1| |]; simpl.
  - by rewrite He2.
  - by rewrite Hd2, Hd1.
Qed.

Lemma setup_modbus_numbered plc w :
  numbered_drivers w → wp (Startup.setup_modbus_driver plc) keeps_numbers w.
Proof.
  intros Hw. unfold Startup.setup_modbus_driver. apply wp_bind. eapply wp_mono; [apply resolve_env|].
  intros o w1 (He1 & Hd1). destruct o as [addr|e| |]; simpl; [|done..].
  apply wp_bind. destruct (Startup.convert_tags _ _ _) as [ms|e]; [|by apply wp_throw].
  apply wp_ret. simpl. apply wp_bind. unfold wp at 1, Startup.env_op. simpl.
  apply wp_bind. destruct (ModbusPlan.validate ms) as [[]|e]; [|by apply wp_throw].
  apply wp_ret. simpl. apply wp_bind.
  eapply wp_mono; [apply (routes_env (λ id s h, WriteHandler.add_route_for_modbus h id s))|]. simpl.
  intros o w2 (-> & He2 & Hd2). simpl. unfold wp. simpl. intros _.
  apply (push_numbered w _ (Startup.ModbusDrv (IO := started_io) (Startup.modbus_config plc addr ms)
    (Startup.env w1).2 (Startup.poller_of plc)) (Startup.env w1).2); [done|done|exact He1| |]; simpl.
  - by rewrite He2.
  - by rewrite Hd2, Hd1.
Qed.

Lemma setup_driver_numbered fuel plc w :
  numbered_drivers w → wp (Startup.setup_driver fuel plc) keeps_numbers w.
Proof.
  intros Hw. unfold Startup.setup_driver. cbv zeta. case_decide; [by apply setup_fins_numbered|].
  case_decide; [by apply setup_modbus_numbered|]. by apply wp_ret.
Qed.

Lemma setup_all_numbered fuel plcs w :
  numbered_drivers w → wp (for_each (Startup.setup_driver fuel) plcs) keeps_numbers w.
Proof.
  revert w. induction plcs as [|plc plcs IH]; intros w Hw; simpl; [by apply wp_ret|].
  apply wp_bind. eapply wp_mono; [by apply setup_driver_numbered|].
  intros [[]|e| |] w1 H1; simpl; [|done..]. apply IH. by apply H1.
Qed.

Lemma startup_numbered fuel clock extension text w :
  numbered_drivers w →
  wp (Startup.startup fuel clock extension text)
     (λ o w', ∀ x, o = Ret x → numbered_drivers w') w.
Proof.
  intros Hw. unfold Startup.startup. apply wp_bind.
  destruct (RuntimeConfig.load_runtime_config extension text) as [cfg|e]; [|by apply wp_throw].
  apply wp_ret. simpl. apply wp_bind.
  destruct (Startup.all_definitions (RuntimeConfig.plcs cfg)) as [ds|e]; [|by apply wp_throw].
  apply wp_ret. simpl. apply wp_bind.
  destruct (TagRegistry.from_definitions clock ds) as [[r|e]|]; simpl; [|by apply wp_ret, wp_bind, wp_throw|done].
  apply wp_ret, wp_bind, wp_ret, wp_bind. unfold wp at 1. simpl. apply wp_bind.
  destruct (Startup.bounded_channel _) as [[]|]; unfold wp at 1; simpl; [|done].
  apply wp_bind. eapply wp_mono; [by apply setup_all_numbered|].
  intros o w2 H2. destruct o as [[]|e| |]; simpl; [|done..]. specialize (H2 eq_refl).
  apply wp_bind. destruct (Startup.server_settings _); [|by apply wp_throw].
  apply wp_ret, wp_ret. by intros x _.
Qed.

(** ** The drivers in place *)

(** The networks name the addresses that start-up resolved in their own way, and each
    driver has a network of its own. *)
Context (modbus_address : SocketAddr → MNet.(ModbusIO.SocketAddr))
  (fins_address : SocketAddr → FNet.(FinsIO.SocketAddr)).
Context (modbus_net : nat → MNet.(ModbusIO.Env)) (fins_net : nat → FNet.(FinsIO.Env)).

Definition modbus_config (cfg : ModbusConfig SocketAddr) : ModbusConfig (MNet.(ModbusIO.SocketAddr)) :=
  {| ModbusConfig.name := ModbusConfig.name cfg;
     ModbusConfig.endpoint := modbus_address (ModbusConfig.endpoint cfg);
     ModbusConfig.unit_id := ModbusConfig.unit_id cfg; ModbusConfig.cycle_ms := ModbusConfig.cycle_ms cfg;
     ModbusConfig.mappings := ModbusConfig.mappings cfg;
     ModbusConfig.keepalive_secs := ModbusConfig.keepalive_secs cfg;
     ModbusConfig.max_backoff_secs := ModbusConfig.max_backoff_secs cfg;
     ModbusConfig.io_timeout_ms := ModbusConfig.io_timeout_ms cfg |}.
Definition fins_config (cfg : FinsConfig SocketAddr) : FinsConfig (FNet.(FinsIO.SocketAddr)) :=
  {| FinsConfig.name := FinsConfig.name cfg;
     FinsConfig.endpoint := fins_address (FinsConfig.endpoint cfg);
     FinsConfig.cycle_ms := FinsConfig.cycle_ms cfg;
     FinsConfig.keepalive_secs := FinsConfig.keepalive_secs cfg;
     FinsConfig.max_backoff_secs := FinsConfig.max_backoff_secs cfg;
     FinsConfig.mappings := FinsConfig.mappings cfg;
     FinsConfig.max_words_per_request := FinsConfig.max_words_per_request cfg |}.

(** The driver as [new] and [set_health_sender] leave it, with an empty queue; [bound] bounds
    its reconnect loops, [fuel] the precomputation of its read groups. *)
Definition in_place (fuel bound : nat) (r : TagRegistry) (i : nat) (d : Startup.driver) : option Driver :=
  match d with
  | Startup.ModbusDrv cfg _ _ =>
      Some (inl (ModbusQueue.mkSlot (Net := MNet) (modbus_config cfg) bound
        (ModbusDriver.set_health_sender (IO := ModbusQueue.queued MNet)
          (ModbusDriver.new (IO := ModbusQueue.queued MNet) r (ModbusQueue.mkEnv MNet [] (modbus_net i))))))
  | Startup.FinsDrv cfg _ _ _ =>
      '(w, rgs) ← FinsDriver.new (IO := FinsQueue.FinsQueue.queued FNet) (fins_config cfg) r
                    (FinsQueue.FinsQueue.mkEnv FNet [] (fins_net i)) fuel;
      Some (inr (FinsQueue.FinsQueue.mkSlot (Net := FNet) (fins_config cfg) rgs bound
        (FinsDriver.set_health_sender (IO := FinsQueue.FinsQueue.queued FNet) w)))
  end.
(** All pollers run. *)
Fixpoint put_in_place (fuel bound : nat) (r : TagRegistry) (i : nat) (ds : list Startup.driver)
    : option (list (Poller (W := Driver))) :=
  match ds with
  | [] => Some []
  | d :: ds =>
      s ← in_place fuel bound r i d;
      ss ← put_in_place fuel bound r (S i) ds;
      Some ({| driver := s; state := Running |} :: ss)
  end.
Definition plant_of (r : TagRegistry) (ss : list (Poller (W := Driver))) (ws : list (list nat))
    : Plant Driver :=
  {| reg := r; pollers := ss; next := 0; waits := ws |}.

Definition in_range (cfg : RuntimeConfig) : Prop :=
  ∀ plc t, plc ∈ RuntimeConfig.plcs cfg → t ∈ PlcConfig.tags plc → TagConfig.in_range t.

(** A driver in place, of a PLC whose tags are in range. *)
Lemma in_place_ok fuel bound r i plc d :
  TagRegistry.wf r → Startup.driver_for fuel plc d → Forall TagConfig.in_range (PlcConfig.tags plc) →
  ∃ s, in_place fuel bound r i d = Some s ∧ sound s ∧ (∀ c, requested s c = None) ∧
    runs d {| driver := s; state := Running |} ∧
    ∀ id, id ∈ tags_of s ↔ id ∈ Startup.tag_ids d.
Proof.
  intros Hr Hd Htags. destruct d as [cfg rgs tx p|cfg tx p].
  - pose proof Hd as (_ & _ & _ & Hrg & _). simpl. unfold FinsDriver.new. simpl. rewrite Hrg. simpl.
    set (s := inr _ : Driver). exists s. split; [done|].
    assert (runs (Startup.FinsDrv cfg rgs tx p) {| driver := s; state := Running |}) as Hruns by done.
    split; [split; [done|by intros i' c r'|constructor]|]. split; [done|]. split; [done|].
    intros id. split; [exact (runs_tags fuel plc _ {| driver := s; state := Running |} id Hd Hruns)|].
    simpl. intros Hid. apply elem_of_list_to_set. simpl. rewrite fmap_app. apply elem_of_app. by left.
  - pose proof Hd as (_ & Hms & _). simpl. set (s := inl _ : Driver). exists s. split; [done|].
    split; [split; [done| |by intros i' c r'|constructor]|].
    + apply Forall_forall. intros m Hm. apply list_elem_of_lookup in Hm as [k Hk].
      destruct (Forall2_lookup_r _ _ _ _ _ Hms Hk) as (t & Ht & Hconv).
      destruct Hconv as (dt & order & address & Ho & Hl & ->).
      rewrite Forall_forall in Htags.
      destruct (RuntimeTags.modbus_mapping_of_range t dt order address) as [_ Hq]; [|done..].
      apply Htags. by eapply list_elem_of_lookup_2.
    + split; [done|]. split; [done|]. intros id. apply elem_of_list_to_set.
Qed.

Lemma put_in_place_ok fuel bound r i plcs ds :
  TagRegistry.wf r → Forall2 (Startup.driver_for fuel) plcs ds →
  Forall (λ plc, Forall TagConfig.in_range (PlcConfig.tags plc)) plcs →
  ∃ ss, put_in_place fuel bound r i ds = Some ss ∧
    Forall2 (λ d s, runs d s ∧ state s = Running ∧ sound (driver s) ∧
      (∀ c, requested (driver s) c = None) ∧ ∀ id, id ∈ tags_of (driver s) ↔ id ∈ Startup.tag_ids d) ds ss.
Proof.
  intros Hr Hds. revert i. induction Hds as [|plc d plcs ds Hd _ IH]; intros i Hplcs; [by exists []|].
  apply Forall_cons in Hplcs as [Hplc Hplcs].
  destruct (in_place_ok fuel bound r i plc d Hr Hd Hplc) as (s & Hs & Hsound & Hreq & Hruns & Hids).
  destruct (IH (S i) Hplcs) as (ss & Hss & Hall). simpl. rewrite Hs. simpl. rewrite Hss. simpl.
  eexists. split; [done|]. constructor; [|exact Hall]. exact (conj Hruns (conj eq_refl (conj Hsound (conj Hreq Hids)))).
Qed.

(** The bridge, idle, over a plant. *)
Definition idle (ts : list bool) (p : Plant Driver) : Front.Front :=
  Front.mkFront (WriteBridge.mkWorld (IO := Front.bridge_io) [] p []) ts.

(** The route of a tag leads to the poller that has it, and such a route there is. *)
Lemma started_route fuel cfg r w id n :
  Startup.started fuel cfg r w → numbered_drivers w →
  (∃ q, WriteHandler.routing (Startup.handler w) !! id = Some q ∧ poller_of q = n) ↔
  ∃ d, Startup.drivers w !! n = Some d ∧ id ∈ Startup.tag_ids d.
Proof.
  intros Hst [_ Hnum]. setoid_rewrite (Startup.st_routes _ _ _ _ Hst id). split.
  - intros (q & (i & plc & d & t & Hplc & Hd & Ht & -> & ->) & <-).
    pose proof (Hnum i d Hd) as Hi. unfold number_of in Hi. rewrite Hi. exists d. split; [done|].
    pose proof (Forall2_lookup_lr _ _ _ _ _ _ (Startup.st_drivers _ _ _ _ Hst) Hplc Hd) as Hfor.
    apply Startup.driver_for_ids in Hfor as [-> _]. by apply list_elem_of_fmap_2.
  - intros (d & Hd & Hid).
    destruct (Forall2_lookup_r _ _ _ _ _ (Startup.st_drivers _ _ _ _ Hst) Hd) as (plc & Hplc & Hfor).
    apply Startup.driver_for_ids in Hfor as [Hids _]. rewrite Hids in Hid.
    apply list_elem_of_fmap in Hid as (t & -> & Ht).
    exists (Startup.queue_of d). split; [by exists n, plc, d, t|]. exact (Hnum n d Hd).
Qed.

(** C13: what start-up leaves is a system in order.  When it succeeds, on a configuration of
    the field types, all its drivers can be put in place, whatever the networks behind
    them; the plant is sound and the bridge over it ready for the first client; the
    pollers have tags of their own, whose definitions name the PLC of their driver; and
    the write route of a tag leads to a poller exactly when the poller's driver has the
    tag. *)
Theorem system_ready (fuel bound : nat) (clock : nat → DateTimeUtc) (extension : option string)
    (text : string) (cfg : RuntimeConfig) (r : TagRegistry) (settings : OpcUaConfig)
    (w w' : Startup.World) (ws : list (list nat)) (ts : list bool) :
  Startup.drivers w = [] → (Startup.env w).2 = 0%nat →
  RuntimeConfig.load_runtime_config extension text = Ok cfg → in_range cfg →
  Startup.startup fuel clock extension text w = (Ret (r, settings), w') →
  ∃ ss, put_in_place fuel bound r 0 (Startup.drivers w') = Some ss ∧
    Front.front_ok 0 (idle ts (plant_of r ss ws)) ∧ own_tags ss ∧
    (∀ i s d id, ss !! i = Some s → Startup.drivers w' !! i = Some d → id ∈ tags_of (driver s) →
       ∃ def, TagRegistry.defs r !! id = Some def ∧ TagDefinition.plc_name def = Startup.driver_name d) ∧
    ∀ id n, (∃ q, WriteHandler.routing (Startup.handler w') !! id = Some q ∧ poller_of q = n) ↔
            ∃ s, ss !! n = Some s ∧ id ∈ tags_of (driver s).
Proof.
  intros Hw Hn Hload Hrange Hrun.
  destruct (wp_run _ _ _ _ _ (Startup.startup_run fuel clock extension text w Hw) Hrun) as [_ Hst].
  destruct (Hst r settings eq_refl) as (cfg' & Hload' & _ & Hstarted). rewrite Hload in Hload'.
  injection Hload' as <-. clear Hst.
  assert (numbered_drivers w) as Hnum by (split; [by rewrite Hw|by rewrite Hw]).
  pose proof (wp_run _ _ _ _ _ (startup_numbered fuel clock extension text w Hnum) Hrun _ eq_refl) as Hnum'.
  pose proof (Startup.st_registry _ _ _ _ Hstarted) as Hwf.
  destruct (put_in_place_ok fuel bound r 0 _ _ Hwf (Startup.st_drivers _ _ _ _ Hstarted)) as (ss & Hss & Hall).
  { apply Forall_forall. intros plc [_ Hplc]%list_elem_of_filter. apply Forall_forall.
    intros t Ht. by apply (Hrange plc). }
  exists ss. split; [done|].
  assert (Forall2 runs (Startup.drivers w') ss) as Hruns by (eapply Forall2_impl; [exact Hall|intros d s H; apply H]).
  destruct (one_writer_per_tag _ _ _ _ _ Hstarted Hruns) as [Hown Hplc].
  split; [|split; [exact Hown|split; [exact Hplc|]]].
  - split; [split; [done| |]| |]; simpl.
    + intros i s Hi. destruct (Forall2_lookup_r _ _ _ _ _ Hall Hi) as (d & _ & H). apply H.
    + intros i s c Hi _. destruct (Forall2_lookup_r _ _ _ _ _ Hall Hi) as (d & _ & H). apply H.
    + by intros c bw _ ?%not_elem_of_nil.
    + by intros c r' _ ?%not_elem_of_nil.
  - intros id n. rewrite (started_route _ _ _ _ id n Hstarted Hnum'). split.
    + intros (d & Hd & Hid). destruct (Forall2_lookup_l _ _ _ _ _ Hall Hd) as (s & Hs & H).
      exists s. split; [done|]. by apply H.
    + intros (s & Hs & Hid). destruct (Forall2_lookup_r _ _ _ _ _ Hall Hs) as (d & Hd & H).
      exists d. split; [done|]. by apply H.
Qed.
End started.
End StartedSystem.

(** ** The configuration of [Startup], from its text to a write of a client *)

Module StartedWitness.
Import WritePath LocalDriver Plant PlantHandler Pollers StartedSystem.
Import RegistryRef OpcUaValue.
#[local] Existing Instances CratesRef.chrono_ref CratesRef.byteorder_ref CratesRef.bytes_ref
  CratesRef.json_ref RoundTrip.Witness.functions_iter RoundTrip.Witness.areas_iter
  ModbusQueue.modbus_write_driver FinsQueue.FinsQueue.fins_write_driver
  Startup.lower_tables Startup.formats_ref.
Notation Driver :=
  (ModbusQueue.Slot (Net := RoundTrip.Witness.plc_net) +
   FinsQueue.FinsQueue.Slot (Net := FinsRef.FinsRef.fins_io_ref))%type.
#[local] Instance driver_io : WriteHandler.WriteIO := plant_io (W := Driver).

(** Every name is resolved to one address. *)
Definition resolve (host : string) (n : unit) : result (list SocketAddr) string * unit :=
  (Ok [V4 [192; 0; 2; 1] 502], n).
#[local] Instance names : Startup.Network := numbered resolve.
Definition boot : Startup.World :=
  {| Startup.env := (tt, 0%nat); Startup.handler := WriteHandler.new 0; Startup.drivers := [] |}.
Definition booted : outcome anyhow_error (TagRegistry * OpcUaConfig) * Startup.World :=
  Startup.startup 1 ref_clock (Some "toml"%string) "" boot.
Definition registry : TagRegistry :=
  match booted.1 with Ret (r, _) => r | _ => ref_registry [] end.
Definition settings : OpcUaConfig :=
  match booted.1 with Ret (_, c) => c | _ => OpcUaConfig.default_local end.
Lemma system_booted : booted.1 = Ret (registry, settings).
Proof. vm_refl. Qed.

(** Two PLCs that are up: the FINS PLC north and the Modbus PLC south. *)
Definition pollers_booted : list (Poller (W := Driver)) :=
  default [] (put_in_place (MNet := RoundTrip.Witness.plc_net) (FNet := FinsRef.FinsRef.fins_io_ref)
    (λ _, tt) (λ _, tt) (λ _, RoundTrip.Witness.mkPlc RoundTrip.Witness.zeros 0)
    (λ _, FinsRef.FinsRef.ref_env [] (λ _ _, 0)) 1 1 registry 0 (Startup.drivers booted.2)).
Definition front : Front.Front := idle [true] (plant_of registry pollers_booted [[0; 1]%nat]).

Lemma loaded : RuntimeConfig.load_runtime_config (Some "toml"%string) "" = Ok Startup.plant_config.
Proof. vm_refl. Qed.
Lemma plant_config_in_range : in_range Startup.plant_config.
Proof.
  intros plc t Hplc Ht.
  assert (Forall (λ plc, Forall TagConfig.in_range (PlcConfig.tags plc)) (RuntimeConfig.plcs Startup.plant_config))
    as Hall.
  { repeat (apply Forall_cons_2; [|]); try apply Forall_nil_2;
      try (apply Forall_cons_2; [|apply Forall_nil_2]); split; intros n [= <-]; by vm_compute. }
  rewrite Forall_forall in Hall. specialize (Hall plc Hplc). rewrite Forall_forall in Hall. by apply Hall.
Qed.

Definition has_tag (ss : list (Poller (W := Driver))) (n : nat) (id : string) : bool :=
  match ss !! n with Some s => bool_decide (id ∈ tags_of (driver s)) | None => false end.
Lemma has_tag_ok ss n id : has_tag ss n id = true → ∃ s, ss !! n = Some s ∧ id ∈ tags_of (driver s).
Proof.
  unfold has_tag. destruct (ss !! n) as [s|]; [|done]. intros H. exists s. split; [done|].
  by apply bool_decide_eq_true in H.
Qed.
Lemma south_has_level : has_tag pollers_booted 1 "level" = true.
Proof. vm_refl. Qed.

Lemma system_ready_witness :
  Front.front_ok 0 front ∧ own_tags pollers_booted ∧
  ∃ q, WriteHandler.routing (Startup.handler booted.2) !! "level"%string = Some q ∧ poller_of q = 1%nat.
Proof.
  destruct (system_ready (MNet := RoundTrip.Witness.plc_net) (FNet := FinsRef.FinsRef.fins_io_ref) resolve
    (λ _, tt) (λ _, tt) (λ _, RoundTrip.Witness.mkPlc RoundTrip.Witness.zeros 0)
    (λ _, FinsRef.FinsRef.ref_env [] (λ _ _, 0))
    1 1 ref_clock (Some "toml"%string) "" Startup.plant_config registry settings boot booted.2 [[0; 1]%nat] [true]
    eq_refl eq_refl loaded plant_config_in_range
    (run_eq (Startup.startup 1 ref_clock (Some "toml"%string) "") boot _ system_booted))
    as (ss & Hss & Hfront & Hown & _ & Hroutes).
  assert (pollers_booted = ss) as Heq by exact (f_equal (default []) Hss).
  unfold front. rewrite Heq. split; [exact Hfront|]. split; [exact Hown|].
  apply Hroutes. rewrite <- Heq. exact (has_tag_ok pollers_booted 1%nat "level"%string south_has_level).
Defined.

(** A client then sets the level of the Modbus PLC south, and reads it. *)
#[local] Existing Instance OpcUaValue.open62541_ref.
#[local] Instance client_threads : DataSource.Threads := Front.front_threads (Startup.handler booted.2).
Definition level_source : DataSource.TagDataSource := DataSource.new "level" OpcUaConfig.ConfirmedAck 5000.
Definition one_point_five : option Variant := Some (scalar (UaFloat 1069547520)).
Definition served : outcome StatusCode unit * DataSource.World :=
  DataSource.write level_source registry one_point_five (DataSource.mkWorld front 0 []).
Lemma level_written :
  served.1 = Ret tt ∧
  (λ s, match driver s with
        | inl s => ModbusDriver.log (IO := ModbusQueue.queued RoundTrip.Witness.plc_net) (ModbusQueue.world s)
        | inr _ => []
        end) <$> pollers (Front.plant (DataSource.env served.2)) =
    [[]; [ModbusDriver.EvReceived (WriteRequest.mk "level" (TagValue.Float 1069547520) (Some 0%nat));
          ModbusDriver.EvConnect true; ModbusDriver.EvWrite 10 [0; 16320]; ModbusDriver.EvAnswer (ModbusIO.Answer tt); ModbusDriver.EvReply 0 (Ok tt);
          ModbusDriver.EvRead ModbusFunction.HoldingRegisters 10 2]] ∧
  match DataSource.read level_source (reg (Front.plant (DataSource.env served.2))) with
  | Some (Ok dv) => DataSource.data dv = scalar (UaFloat 1069547520) ∧ DataSource.status dv = GOOD
  | _ => False
  end.
Proof. split; [vm_refl|]. split; [vm_refl|]. vm_compute. done. Qed.
End StartedWitness.
