(* ===== verification/PollerTasks.v ===== *)
(** * Runtime: the polling tasks side by side

    The task that [RuntimeDriver::start] spawns, with its cycles, its checks for stale
    tags, its pauses and its health events, is a program of registry operations on the
    tags of its PLC.  So what [RuntimeDriver] says of a poller holds of every poller of
    the running system, next to the others and to the clients. *)

From stdpp Require Import base tactics numbers list gmap strings relations.
From S2P Require Import Prelude Effects RustStd RustStr RustSlice RustMap RustText Crates CratesRef TagValue Tag TagDefinition TagStore Registry RegistryRef CoreModel TagThreads DriverWorld Locality ModbusTypes ModbusPlan ModbusDriver ModbusLocal FinsTypes FinsPlan FinsDriver FinsLocal DriverApi WritePath RuntimeConfig RuntimeTags WriteHandler Startup Pollers RuntimeDriver.
Local Open Scope Z_scope.

Module PollerTasks.
Import TagThreads Locality RuntimeDriver ProtocolDriver.

Section task.
Context {C : Chrono} {J : SerdeJson} {W Env Rest : Type} {DW : DriverWorld W Env Rest}.
Context {PD : ProtocolDriver W} {T : Timers}.
Context (D : TagDefinitionStore) (S : gset string).

(** The poller's world with another registry. *)
Definition put_poller (r : TagRegistry) (w : World) : World :=
  {| driver := dw_set_registry r (driver w); timers := timers w; log := log w |}.
Notation local_driver := (local (E:=string) dw_set_registry D S).
Notation local_poller := (local (E:=Empty_set) put_poller D S).

(** *** The check for stale tags *)

(** The tags the check of a PLC looks at. *)
Definition watched (plc : string) : Prop :=
  ∀ d, d ∈ TagDefinitionStore.all_definitions_sorted D → TagDefinition.plc_name d = plc →
    is_Some (TagDefinition.stale_after_ms d) → TagDefinition.id d ∈ S.

Lemma local_check_stale_tag plc d :
  (TagDefinition.plc_name d = plc → is_Some (TagDefinition.stale_after_ms d) → TagDefinition.id d ∈ S) →
  local_driver (check_stale_tag plc d).
Proof.
  intros Hd. unfold check_stale_tag. destruct (decide _) as [Hplc|]; [|apply local_ret].
  specialize (Hd Hplc). destruct (TagDefinition.stale_after_ms d) as [ms|]; [|apply local_ret].
  specialize (Hd (mk_is_Some _ _ eq_refl)).
  apply local_get_tag; [done|]. intros [tag|e]; [|apply local_ret].
  apply local_bind; [apply local_or_panic|]. intros timeout.
  apply local_bind; [apply local_now|]. intros now.
  destruct (Tag.is_stale tag timeout now); [|apply local_ret].
  destruct (decide _); [apply local_ret|]. by apply local_set_tag_quality.
Defined.
Lemma local_check_stale_tags plc : watched plc → local_driver (check_stale_tags plc).
Proof.
  intros Hw. unfold check_stale_tags.
  apply (local_definitions D S _
    (for_each (check_stale_tag plc) (TagDefinitionStore.all_definitions_sorted D))).
  - apply local_for_each. intros d Hd. apply local_check_stale_tag. by apply Hw.
  - intros r w HD _. unfold TagRegistry.all_definitions_sorted. by rewrite HD.
Defined.

(** *** The loop *)

Lemma local_call {A} (m : M W string A) : local_driver m → local_poller (call m).
Proof.
  intros Hm.
  refine {| tree w := bind (tree Hm (driver w)) (λ x, Done (match x.1 with
      | Ret a => Ret (Ok a) | Fail e => Ret (Err e) | Panic => Panic | Pending => Pending end,
      {| driver := x.2; timers := timers w; log := log w |})) |}.
  - intros w. apply bind_touches; [apply tree_touches|done].
  - intros w r x r' Hwf HD Hrun. rewrite run_prog_bind in Hrun.
    destruct (run_prog r (tree Hm (driver w))) as [[y r1]|] eqn:H1; [|done]. injection Hrun as <- <-.
    unfold call. simpl. by rewrite (tree_runs Hm _ r y r1 Hwf HD H1).
Defined.
Lemma local_poller_emit ev : local_poller (RuntimeDriver.emit ev).
Proof. by apply local_own. Defined.
Lemma local_timer_op {A} (f : PollEnv → A * PollEnv) : local_poller (timer_op f).
Proof. apply local_own. intros r w. unfold timer_op. simpl. by destruct (f (timers w)). Defined.

Context (d : RuntimeDriver).
Context (Hcycle : local_driver read_cycle) (Hhealth : local_driver health) (Hw : watched (name d)).

Lemma local_probe_health : local_poller (probe_health d).
Proof.
  unfold probe_health. destruct (health_tx d); [|apply local_ret].
  apply local_bind; [by apply local_call|]. intros [[h|]|e]; [apply local_poller_emit|apply local_ret..].
Defined.
Lemma local_run_cycle backoff : local_poller (run_cycle d backoff).
Proof.
  unfold run_cycle. apply local_bind; [by apply local_call|]. intros r.
  apply local_bind; [apply local_poller_emit|]. intros _. destruct r as [[]|e].
  - apply local_bind; [by apply local_call, local_check_stale_tags|]. intros _.
    apply local_bind; [apply local_probe_health|]. intros _. apply local_ret.
  - apply local_bind; [destruct (health_tx d); [apply local_poller_emit|apply local_ret]|].
    intros _. apply local_ret.
Defined.
Lemma local_poll_loop fuel backoff : local_poller (poll_loop d fuel backoff).
Proof.
  revert backoff. induction fuel as [|fuel IH]; intros backoff; simpl; [apply local_pending|].
  apply local_bind; [apply local_timer_op|]. intros []; [|apply local_ret].
  apply local_bind.
  - destruct (0 <? backoff); [|apply local_ret].
    apply local_bind; [apply local_poller_emit|]. intros _. apply local_timer_op.
  - intros []; [|apply local_ret]. apply local_bind; [apply local_run_cycle|]. intros b. apply IH.
Defined.
Lemma local_task jitter fuel : local_poller (poller d jitter fuel).
Proof.
  unfold poller. cbv zeta. apply local_bind; [|intros _; apply local_poll_loop].
  destruct (0 <? _); [|apply local_ret].
  apply local_bind; [apply local_poller_emit|]. intros _. apply local_timer_op.
Defined.

(** The task as a thread's program. *)
Definition task (jitter : Z) (fuel : nat) (w : World) : prog (outcome Empty_set unit * World) :=
  tree (local_task jitter fuel) w.
End task.

(** The cycles of the two drivers. *)
Section drivers.
Context {C : Chrono} {BY : Bytes} {B : ByteOrder} {J : SerdeJson}.
Context (D : TagDefinitionStore) (S : gset string).

Lemma modbus_driver_local {IO : ModbusIO} `{!HashIter ModbusFunction}
    (config : ModbusConfig ModbusIO.SocketAddr) (fuel : nat) :
  (∀ m, m ∈ ModbusConfig.mappings config → ModbusMapping.tag_id m ∈ S) →
  local ModbusDriver.set_registry D S
    (@read_cycle _ _ (ProtocolDriver.modbus_driver config fuel)).
Proof. intros HT. by apply LocalDriver.local_boxed, ModbusLocal.modbus_local_cycle. Defined.
Lemma fins_driver_local {IO : FinsIO} `{!HashIter Z} (config : FinsConfig FinsIO.SocketAddr)
    (read_groups : list FinsPlan.ReadGroup) (fuel : nat) :
  (∀ m, m ∈ FinsConfig.mappings config → TagMapping.tag_id m ∈ S) →
  (∀ g m, g ∈ read_groups → m ∈ FinsPlan.mappings g → TagMapping.tag_id m ∈ S) →
  local FinsDriver.set_registry D S
    (@read_cycle _ _ (ProtocolDriver.fins_driver config read_groups fuel)).
Proof. intros HT HG. by apply LocalDriver.local_boxed, FinsLocal.fins_local_cycle. Defined.
End drivers.

(** After start-up no check looks at a tag: the tags of a poller are those of its driver. *)
Lemma started_watched {U : UnicodeTables} {C : Chrono} {J : SerdeJson} {IO : WriteHandler.WriteIO}
    `{!HashIter ModbusFunction, !HashIter Z} {N : Startup.Network}
    fuel cfg r w (S : gset string) (plc : string) :
  Startup.started fuel cfg r w → watched (TagRegistry.definitions r) S plc.
Proof.
  intros Hst d Hd _ [ms Hms].
  apply TagDefinitionStore.elem_of_all_definitions_sorted in Hd; [|apply (Startup.st_registry _ _ _ _ Hst)].
  apply (Startup.st_definitions _ _ _ _ Hst) in Hd as (p & t & _ & _ & _ & Hconv).
  destruct Hconv as (? & ? & _ & _ & ->). done.
Qed.

(** ** Properties *)

Section properties.
Context {C : Chrono} {J : SerdeJson} {W Env Rest : Type} {DW : DriverWorld W Env Rest}.
Context {PD : ProtocolDriver W} {T : Timers}.

(** C35: a polling task that runs next to any other threads, none of which writes the tags of
    its PLC, does what it does alone: when it ends, its outcome, its whole log (cycles,
    pauses and health events) and its driver are those of a run alone on the first
    registry, and its tags are as that run leaves them. *)
Theorem poller_task_isolated {R} (f : outcome Empty_set unit * World → R)
    (S : gset string) (d : RuntimeDriver) (jitter : Z) (fuel : nat) (w : World)
    (Ts : list (gset string)) (r : TagRegistry) (ps : list (prog R)) (c : config R) (i : nat) (x : R)
    (Hcycle : local dw_set_registry (TagRegistry.definitions r) S read_cycle)
    (Hhealth : local dw_set_registry (TagRegistry.definitions r) S health)
    (Hw : watched (TagRegistry.definitions r) S (name d)) :
  TagRegistry.wf r → single_writer Ts ps → Ts !! i = Some S →
  ps !! i = Some (bind (task _ S d Hcycle Hhealth Hw jitter fuel w) (λ y, Done (f y))) →
  rtc step (r, TagThreads.start <$> ps) c → c.2 !! i = Some (Finished x) →
  ∃ o w' r', poller d jitter fuel (put_poller r w) = (o, put_poller r' w') ∧ x = f (o, w') ∧
    ∀ id, id ∈ S → TagRegistry.view c.1 !! id = TagRegistry.view r' !! id.
Proof.
  intros Hwf Hsw HT Hp Hs Hx.
  assert (touches S (bind (task _ S d Hcycle Hhealth Hw jitter fuel w) (λ y, Done (f y)))) as Ht
    by (apply bind_touches; [apply tree_touches|done]).
  destruct (isolated _ _ _ _ _ _ _ _ Hwf Hsw Hs HT Hp Ht Hx) as (r' & Hrun & Hv).
  rewrite run_prog_bind in Hrun. destruct (run_prog r (task _ _ _ _ _ _ _ _ _)) as [[[o w'] r1]|] eqn:H1; [|done].
  injection Hrun as <- <-. exists o, w', r1. split; [|done].
  by apply (tree_runs (local_task _ S d Hcycle Hhealth Hw jitter fuel) w r _ _ Hwf eq_refl) in H1.
Qed.
End properties.

Section witnesses.
Import RegistryRef.
Local Existing Instances CratesRef.chrono_ref CratesRef.json_ref ref_world ref_driver timers_ref.

(** The poller of [RuntimeDriver] next to a client that reads its tag; its third cycle
    succeeds, and the check that follows finds the tag stale. *)
Definition hot_tags : gset string := {["hot"]}.
Definition hot_definitions : TagDefinitionStore := TagRegistry.definitions (ref_registry [hot]).
Lemma ref_cycle_local : local (dw_set_registry (W := RefWorld)) hot_definitions hot_tags (@read_cycle _ _ ref_driver).
Proof. apply local_own. by intros r [reg t []]. Defined.
Lemma ref_health_local : local (dw_set_registry (W := RefWorld)) hot_definitions hot_tags (@health _ _ ref_driver).
Proof. apply local_ret. Defined.
Lemma hot_watched : watched hot_definitions hot_tags "plc".
Proof.
  intros d Hd _ _. change (d ∈ [hot]) in Hd. apply list_elem_of_singleton in Hd as ->.
  by apply elem_of_singleton.
Qed.
Definition reporting : prog (outcome Empty_set unit * World (W := RefWorld) + CoreModel.answer) :=
  bind (task hot_definitions hot_tags reporter ref_cycle_local ref_health_local hot_watched 0 6 poll_start)
    (λ y, Done (inl y)).
Definition looking : prog (outcome Empty_set unit * World (W := RefWorld) + CoreModel.answer) :=
  Do (CoreModel.Get "hot") (λ a, Done (inr a)).
Lemma hot_writers : single_writer [hot_tags; ∅] [reporting; looking].
Proof.
  split.
  - intros [|[|i]] [|[|j]] Ti Tj Hne Hi Hj; simplify_eq/=; set_solver.
  - constructor; [|by repeat constructor].
    apply touches_writes, bind_touches; [apply tree_touches|done].
Qed.
Lemma poller_task_isolated_witness :
  ∃ c o w' r', rtc step (ref_registry [hot], TagThreads.start <$> [reporting; looking]) c ∧
    c.2 !! 0%nat = Some (Finished (inl (o, w'))) ∧
    poller reporter 0 6 poll_start = (o, put_poller r' w').
Proof.
  destruct (finishes _ (ref_registry [hot]) [reporting; looking] hot_wf hot_writers)
    as (r' & xs & Hs & Hl).
  destruct xs as [|x xs]; [discriminate Hl|].
  destruct (poller_task_isolated inl hot_tags reporter 0 6 poll_start [hot_tags; ∅]
    (ref_registry [hot]) [reporting; looking] (r', Finished <$> (x :: xs)) 0 x
    ref_cycle_local ref_health_local hot_watched hot_wf hot_writers eq_refl eq_refl Hs eq_refl)
    as (o & w' & r1 & Hrun & -> & _).
  exists (r', Finished <$> (inl (o, w') :: xs)), o, w', r1.
  split; [exact Hs|]. split; [reflexivity|exact Hrun].
Defined.
End witnesses.
End PollerTasks.
